(* ===== verification/_CoqProject ===== *)
-Q . S2P
Prelude.v
Decimal.v
IOUAmount.v
Serializer.v
SerialIter.v
SField.v
Issue.v
CSCAmount.v
STAmount.v
STAmountWire.v
LedgerTiming.v
ConsensusProposal.v
DisputedTx.v
Consensus.v
ConsensusInv.v
ConsensusSafety.v
ConsensusTerm.v
Validations.v
ConsensusLive.v
ConsensusSim.v
ReadView.v
RawStateTable.v
ApplyStateTable.v
ApplyView.v
OpenView.v
SOTemplate.v
STObject.v
STLedgerEntry.v
STObjectSpec.v
STObjectRead.v
Directory.v
DirectorySpec.v
SHAMap.v
SHAMapInv.v
SHAMapTreeNode.v
SHAMapSpec.v
SHAMapIter.v
LedgerHeader.v
Ledger.v
LedgerSpec.v
SkipList.v
LedgerSim.v
