(* ===== verification/Prelude.v ===== *)
(** * casinocoind: a verification library

    The program is a node of a distributed ledger, a fork of rippled.  Nodes
    agree on a sequence of ledgers: each ledger is a header and two hash trees
    (SHAMaps), one with the state entries and one with the transactions that led
    from the previous ledger to this one.  A consensus round fixes the set of
    transactions of the next ledger and its close time; the transactions are
    applied to layers of views over the current ledger, and the top layer is
    committed to the new ledger, whose hash the nodes then validate.  Amounts of
    the native currency and of issued currencies move in those transactions.

    The development models the parts this rests on: amounts and their arithmetic,
    the binary formats, the consensus algorithm, the views, the hash tree and
    the ledger itself.  All paths below are under src/src/casinocoin.  Every
    definition is executable; machine integers are [Z] with the wrap-around of
    their width written out ([u64], [s64], ...), errors are values of [result],
    state is passed explicitly.

    ** Amounts

    - [Decimal]: scaled numbers, the loops that multiply and divide by ten, and
      what truncation loses; shared by the two amount types.
    - [IOUAmount]: protocol/IOUAmount.h and impl/IOUAmount.cpp, amounts of issued
      currencies as mantissa and exponent.  Normalization truncates onto the
      canonical lattice, comparison is the numerical order, the sum is within a
      stated error of the exact sum, [mulRatio] toward zero drops only digits
      below the last place (rounding up is not always up, which is shown too).
    - [Issue], [CSCAmount]: currencies with issuers, and native amounts
      (protocol/Issue.h, protocol/CSCAmount.h); [mulRatio] is exact rounding.
    - [STAmount]: protocol/STAmount.h and impl/STAmount.cpp, the serialized
      amounts: canonical form, arithmetic, comparison, rounded multiplication
      and division.  The theorems also say where the code leaves the ranges of
      its comments: mantissas above 16 digits, the unrounded product and quotient,
      native amounts that wrap around.  [STAmountWire]: the eight byte format with currency and
      issuer, its round trip and the amounts it cannot hold.

    ** Binary formats

    - [Serializer], [SerialIter]: protocol/Serializer.h and impl/Serializer.cpp,
      writing and reading of integers, hashes, field identifiers and
      variable-length blobs.  Field identifiers have one encoding each; blobs
      are read back; lengths out of range are refused.
    - [SField], [SOTemplate]: the table of fields (protocol/SField.h,
      impl/SField.cpp) and the templates of ledger entries and inner objects
      (SOTemplate.h, KnownFormats.h, impl/LedgerFormats.cpp,
      impl/InnerObjectFormats.cpp).  A template has a table for the fields that
      the program declares; looking up a field made up at run time is undefined
      behaviour, an error value of the model.
    - [STObject], [STLedgerEntry]: the files of the same name in protocol/ with
      impl/STVar.cpp, STArray, STPathSet, STVector256, STVector128 and STAccount:
      values as one inductive type, objects as lists of fields with an optional
      template, reading and writing, access to fields, entries.  Reading has
      fuel, one more than the bytes that remain, since every iteration and every
      nested call follows a field identifier; the error [out_of_fuel] marks its
      end, and reading is shown never to return it.
    - [STObjectSpec]: the objects that have a binary form, and that it is read
      back, with templates and nested objects and arrays; this discharges the
      interface of the ledger to its entries.  [STObjectRead]: from any bytes,
      reading ends and returns only well-typed objects; setting fields keeps
      them well typed and changes no other field.

    ** Consensus

    - [LedgerTiming], [ConsensusProposal], [DisputedTx], [Consensus]: the headers
      of the same name in consensus/.  The application behind the algorithm is
      the class [Adaptor] and transaction sets are the class [TxSetOps] (the
      C++ template parameters).  The mutual recursion of startRound and
      timerEntry through a wrong prior ledger has fuel.
    - [ConsensusInv]: the invariant of the state and that every operation
      preserves it.  [ConsensusSafety]: the invariant of all runs, who proposes,
      and what an accepted round implies.  [ConsensusTerm]: the entry points
      terminate if the application's choices of a prior ledger lower a potential;
      fuel 5 and 4 and three times the potential is enough, and the result does
      not depend on it.  [ConsensusLive]: agreeing validators
      accept, and accepting validators with the same view accept the same set.
    - [Validations]: the application's choice of the prior ledger
      (getCurrentValidations in app/misc/Validations.cpp, getPrevLedger in
      app/consensus/CCLConsensus.cpp).  It names a ledger with the most counted
      validations, and another than ours only if that has strictly more of its
      own, which gives the potential while no validation arrives.
      [ConsensusSim]: concrete runs, which are also the witnesses.

    ** Views, hash tree and ledger

    - [ReadView]: keylets, ledger headers, the binary form of entries as a class,
      and the interfaces of ledger/ReadView.h and ledger/RawView.h as a record
      and classes; [Represents] and
      [RawViewLaws] say what a view promises about the finite map it stands for.
    - [RawStateTable], [OpenView]: ledger/detail/RawStateTable.h,
      ledger/OpenView.h and their implementations: a table of pending changes
      over a base view, with the merging iterator.  A view over a base that
      represents a map represents the overlaid map; committing a child view to
      its parent makes the parent show what the child showed.
    - [ApplyStateTable]: ledger/detail/ApplyStateTable.h, its implementation and
      the views over it (ledger/impl/ApplyViewBase.cpp, ledger/Sandbox.h), which a
      transaction works on.  The transaction changes entries in place through
      shared pointers, so the entries are a heap and the table holds pointers.
      The table with the heap shows a finite map; the operations do to the map
      what they say, and applying the table makes the view below hold the map.
    - [ApplyView]: programs over such a view as a monad, with weakest
      preconditions over the map shown, the entries changed and not yet updated,
      and the pointers held.  [Directory]: the directories of
      ledger/impl/View.cpp, lists of keys in linked pages.  The searches of
      [dirDelete] end at page 20 and iterators pass over no more pages than there
      are, which is their fuel.  [DirectorySpec]: adding, deleting and iterating
      do to the list of pages what they say, pages stay linked, and nothing else
      in the view changes.
    - [SHAMap]: shamap/impl/SHAMap.cpp and SHAMapNodeID.cpp, insertion, deletion,
      update, search and ordered iteration of a tree held in memory, version 1.
      The tree has 64 levels, one per digit of a 256-bit key, which is the fuel
      of every descent; [SHAMapInv] shows that a well-formed tree never runs out
      of it.  [SHAMapInv] relates the loops to structural operations and proves
      their effect; [SHAMapSpec] has the refinement of a finite map, the
      independence of the tree from the history, and that the root hash binds
      the contents; [SHAMapIter] has the iterators.
    - [SHAMapTreeNode]: shamap/SHAMapTreeNode.h and impl/SHAMapTreeNode.cpp,
      nodes of both versions in the wire and prefix forms and their hashes.
    - [LedgerHeader]: the stored header, its parser and the ledger hash (addRaw
      in ledger/impl/View.cpp, deserializeHeader in
      app/ledger/impl/InboundLedger.cpp, calculateLedgerHash in
      app/ledger/Ledger.cpp).
    - [Ledger]: app/ledger/Ledger.cpp over two trees.  [LedgerSpec]: a ledger is a
      view of the entries its state tree holds and implements the raw writes, so
      committing an open view gives the ledger the view showed; the hash of an
      immutable ledger binds all fields of the header, entries and transactions.
    - [SkipList]: the records of earlier hashes in a ledger (updateSkipList in
      app/ledger/Ledger.cpp, hashOfSeq in ledger/impl/View.cpp) and the building
      of the next ledger (buildLCL in app/consensus/CCLConsensus.cpp), with the
      transactions as a parameter.  Along any chain of ledgers the hash looked up
      is that of the ancestor.  The theorem is for the first [blocks] times 65536
      ledgers, [blocks] at most 65536, which are all the numbers of 32 bits.
    - [LedgerSim]: concrete ledgers, which are the witnesses.

    ** Hypotheses

    The digest (SHA-512 half, from OpenSSL) is a parameter.  The theorems that
    need it assume that the inputs actually hashed, which are listed, do not
    collide, never that the function is injective; that of directories is over
    the keys of the pages.  The ledger uses its entries
    through the class [SLECodec], whose law, the round trip of valid entries, is
    proved of [STLedgerEntry] in [STObjectSpec]; the concrete ledgers have such
    entries.

    ** Not modelled

    The text and JSON forms of values, comparison of objects and the typed field
    proxies of STObject.h, but for the one that describes the owner of a
    directory.  Networking, RPC, JSON, databases, job queues and configuration are
    I/O or text.  The metadata of a transaction and the threading of the entries it
    touches (the rest of ApplyStateTable.cpp) need the transaction metadata
    classes.  Transactors, path finding, the transaction queue, adding and storing
    validations, order books, SHAMap synchronization and version 2 trees,
    copy-on-write sharing of tree nodes and the caches are not modelled.  Vendored
    libraries are third-party code. *)

From stdpp Require Export base numbers list gmap strings option fin_maps.
From Stdlib Require Export ZArith Lia.

#[global] Open Scope Z_scope.

(** ** Machine integers

    A [w]-bit C++ integer is a [Z]; [wrapu w] and [wraps w] are the conversions
    to the unsigned and the signed (two's complement) type of that width. *)

Definition wrapu (w x : Z) : Z := x mod 2 ^ w.
Definition wraps (w x : Z) : Z := (x + 2 ^ (w - 1)) mod 2 ^ w - 2 ^ (w - 1).

Abbreviation u8 := (wrapu 8).
Abbreviation u16 := (wrapu 16).
Abbreviation u32 := (wrapu 32).
Abbreviation u64 := (wrapu 64).
Abbreviation u128 := (wrapu 128).
Abbreviation s32 := (wraps 32).
Abbreviation s64 := (wraps 64).

Definition is_unsigned (w x : Z) : Prop := 0 ≤ x < 2 ^ w.
Definition is_signed (w x : Z) : Prop := - 2 ^ (w - 1) ≤ x < 2 ^ (w - 1).

(** [uint256], which the source keeps as 32 bytes in big-endian order *)
Definition is_uint256 (x : Z) : Prop := 0 ≤ x < 2 ^ 256.

Lemma wrapu_id w x : is_unsigned w x → wrapu w x = x.
Proof. unfold is_unsigned, wrapu. apply Z.mod_small. Qed.

Lemma wraps_id w x : 0 < w → is_signed w x → wraps w x = x.
Proof.
  unfold is_signed, wraps. intros Hw Hx.
  assert (2 ^ w = 2 * 2 ^ (w - 1)) as E.
  { replace w with (1 + (w - 1)) at 1 by lia. by rewrite Z.pow_add_r by lia. }
  rewrite Z.mod_small; lia.
Qed.

Lemma wrapu_range w x : 0 ≤ w → is_unsigned w (wrapu w x).
Proof. intros. apply Z.mod_pos_bound. lia. Qed.

Lemma wraps_range w x : 0 < w → is_signed w (wraps w x).
Proof.
  unfold is_signed, wraps. intros Hw.
  assert (2 ^ w = 2 * 2 ^ (w - 1)) as E.
  { replace w with (1 + (w - 1)) at 1 by lia. by rewrite Z.pow_add_r by lia. }
  pose proof (Z.mod_pos_bound (x + 2 ^ (w - 1)) (2 ^ w)). lia.
Qed.


Create HintDb casino.

(** [wrap_solve] discharges the range side conditions of [wrapu_id] and
    [wraps_id]; [unwrap] removes every wrap-around whose argument [lia] can
    bound. *)
Ltac wrap_solve := unfold is_unsigned, is_signed in *; lia.

Ltac unwrap :=
  repeat match goal with
  | |- context [wrapu ?w ?x] => rewrite (wrapu_id w x) by wrap_solve
  | |- context [wraps ?w ?x] => rewrite (wraps_id w x) by wrap_solve
  end.

Ltac unwrap_in H :=
  repeat match type of H with
  | context [wrapu ?w ?x] => rewrite (wrapu_id w x) in H by wrap_solve
  | context [wraps ?w ?x] => rewrite (wraps_id w x) in H by wrap_solve
  end.

(** [zb] turns the boolean comparisons of the hypotheses and of the goal into
    propositions. *)
Ltac zb :=
  repeat match goal with
  | H : _ && _ = true |- _ => apply andb_true_iff in H as [? ?]
  | H : _ || _ = false |- _ => apply orb_false_iff in H as [? ?]
  | H : _ && _ = false |- _ => apply andb_false_iff in H
  | H : _ || _ = true |- _ => apply orb_true_iff in H
  | H : negb _ = true |- _ => apply negb_true_iff in H
  | H : negb _ = false |- _ => apply negb_false_iff in H
  | H : (_ <? _) = true |- _ => apply Z.ltb_lt in H
  | H : (_ <? _) = false |- _ => apply Z.ltb_ge in H
  | H : (_ <=? _) = true |- _ => apply Z.leb_le in H
  | H : (_ <=? _) = false |- _ => apply Z.leb_gt in H
  | H : (_ =? _) = true |- _ => apply Z.eqb_eq in H
  | H : (_ =? _) = false |- _ => apply Z.eqb_neq in H
  | H : (_ >? _) = _ |- _ => rewrite Z.gtb_ltb in H
  | H : (_ >=? _) = _ |- _ => rewrite Z.geb_leb in H
  | H : Is_true _ |- _ => apply Is_true_true in H
  end.

(** Case analysis on the condition of the first conditional of the goal. *)
Ltac case_if :=
  match goal with
  | |- context [if ?b then _ else _] =>
      lazymatch type of b with
      | bool => let E := fresh "E" in destruct b eqn:E
      | _ => case_decide
      end
  end.

(** ** Results of fallible code

    [Throw<E>(msg)] of the source is [Throw (E msg)].  [undefined_behaviour] is no
    exception of the source: it marks an execution that has no meaning in C++. *)

Inductive exn :=
  | overflow_error (what : string)
  | runtime_error (what : string)
  | logic_error (what : string)
  | undefined_behaviour (what : string)
  | out_of_fuel. (* of the model: shown not to happen *)

Inductive result (A : Type) :=
  | Ok (a : A)
  | Throw (e : exn).
Arguments Ok {A} a.
Arguments Throw {A} e.

#[global] Instance result_ret : MRet result := @Ok.
#[global] Instance result_bind : MBind result := λ A B f m,
  match m with Ok a => f a | Throw e => Throw e end.

Definition is_ok {A} (r : result A) : bool :=
  match r with Ok _ => true | Throw _ => false end.

Lemma ok_bind {A B} (f : A → result B) a : Ok a ≫= f = f a.
Proof. done. Qed.

Lemma bind_ok {A B} (f : A → result B) (m : result A) b :
  m ≫= f = Ok b → ∃ a, m = Ok a ∧ f a = Ok b.
Proof. destruct m; simpl; naive_solver. Qed.

Lemma bind_throw {A B} (f : A → result B) (m : result A) e :
  m ≫= f = Throw e → m = Throw e ∨ ∃ a, m = Ok a ∧ f a = Throw e.
Proof. destruct m; simpl; naive_solver. Qed.

(** ** Loops

    [while n c b s] is a [while (c) b] of the source run for at most [n]
    iterations; [while_done] gives the fuel that makes the bound unobservable.
    [while_res] is the same loop with a body that can throw. *)

Section while.
Context {St : Type}.

Fixpoint while (n : nat) (c : St → bool) (b : St → St) (s : St) : St :=
  match n with
  | O => s
  | S n => if c s then while n c b (b s) else s
  end.

Fixpoint while_res (n : nat) (c : St → bool) (b : St → result St) (s : St)
    : result St :=
  match n with
  | O => Ok s
  | S n => if c s then s' ← b s; while_res n c b s' else Ok s
  end.

Lemma while_ext (P : St → Prop) c b b' :
  ∀ n s, P s → (∀ s, P s → c s = true → P (b s) ∧ b s = b' s) →
  while n c b s = while n c b' s.
Proof.
  intros n. induction n as [|n IH]; simpl; intros s Hs Hb; [done|].
  destruct (c s) eqn:E; [|done]. destruct (Hb s Hs E) as [HP <-]. by apply IH.
Qed.

Lemma while_inv (P : St → Prop) c b :
  (∀ s, P s → c s = true → P (b s)) →
  ∀ n s, P s → P (while n c b s).
Proof.
  intros Hb n. induction n as [|n IH]; simpl; intros s Hs; [done|].
  destruct (c s) eqn:E; auto.
Qed.

Lemma while_done (P : St → Prop) (m : St → Z) c b :
  (∀ s, P s → c s = true → P (b s) ∧ 0 < m s ∧ m (b s) < m s) →
  ∀ n s, P s → m s ≤ Z.of_nat n → c (while n c b s) = false.
Proof.
  intros Hb n. induction n as [|n IH]; simpl; intros s Hs Hn.
  - destruct (c s) eqn:E; [|done]. destruct (Hb s Hs E). lia.
  - destruct (c s) eqn:E; [|done].
    destruct (Hb s Hs E) as (? & ? & ?). apply IH; [done|lia].
Qed.

Lemma while_res_inv (P : St → Prop) c b :
  (∀ s s', P s → c s = true → b s = Ok s' → P s') →
  ∀ n s s', P s → while_res n c b s = Ok s' → P s'.
Proof.
  intros Hb n. induction n as [|n IH]; simpl; intros s s' Hs Hr.
  - congruence.
  - destruct (c s) eqn:E; [|congruence].
    apply bind_ok in Hr as (s1 & Hs1 & Hr). eauto.
Qed.

Lemma while_res_throw (P : St → Prop) c b :
  (∀ s s', P s → c s = true → b s = Ok s' → P s') →
  ∀ n s e, P s → while_res n c b s = Throw e →
  ∃ s', P s' ∧ c s' = true ∧ b s' = Throw e.
Proof.
  intros Hb n. induction n as [|n IH]; simpl; intros s e Hs Hr.
  - congruence.
  - destruct (c s) eqn:E; [|congruence].
    apply bind_throw in Hr as [Hr|(s1 & Hs1 & Hr)]; eauto.
Qed.

Lemma while_res_done (P : St → Prop) (m : St → Z) c b :
  (∀ s s', P s → c s = true → b s = Ok s' → P s' ∧ 0 < m s ∧ m s' < m s) →
  (∀ s, P s → c s = true → 0 < m s) →
  ∀ n s s', P s → m s ≤ Z.of_nat n → while_res n c b s = Ok s' → c s' = false.
Proof.
  intros Hb Hpos n. induction n as [|n IH]; simpl; intros s s' Hs Hn Hr.
  - injection Hr as <-. destruct (c s) eqn:E; [|done].
    specialize (Hpos s Hs E). lia.
  - destruct (c s) eqn:E; [|congruence].
    apply bind_ok in Hr as (s1 & Hs1 & Hr).
    destruct (Hb _ _ Hs E Hs1) as (? & ? & ?). eapply IH; [| |done]; [done|lia].
Qed.
End while.

(** ** Bit fields

    A word built from a high part [a] and a low part [b] of [n] bits. *)

Lemma land_high_low a b n : 0 ≤ n → 0 ≤ b < 2 ^ n → Z.land (a * 2 ^ n) b = 0.
Proof.
  intros Hn Hb. apply Z.bits_inj'. intros i Hi. rewrite Z.land_spec, Z.bits_0.
  destruct (Z.lt_ge_cases i n) as [Hlt|Hge].
  - by rewrite Z.mul_pow2_bits_low.
  - replace b with (b mod 2 ^ n) by (apply Z.mod_small; lia).
    rewrite Z.mod_pow2_bits_high by lia. apply andb_false_r.
Qed.

Lemma lor_high_low a b n : 0 ≤ n → 0 ≤ b < 2 ^ n → Z.lor (a * 2 ^ n) b = a * 2 ^ n + b.
Proof.
  intros Hn Hb. pose proof (Z.add_lor_land (a * 2 ^ n) b) as H.
  rewrite land_high_low in H by done. lia.
Qed.

Lemma shiftr_high_low a b n : 0 ≤ n → 0 ≤ b < 2 ^ n → Z.shiftr (a * 2 ^ n + b) n = a.
Proof.
  intros Hn Hb. rewrite Z.shiftr_div_pow2 by done.
  rewrite Z.div_add_l by lia. rewrite Z.div_small by lia. lia.
Qed.

Lemma land_mask_low a b n :
  0 ≤ n → 0 ≤ b < 2 ^ n → Z.land (a * 2 ^ n + b) (Z.ones n) = b.
Proof.
  intros Hn Hb. rewrite Z.land_ones by done.
  rewrite Z.add_comm, Z.mod_add by lia. by apply Z.mod_small.
Qed.

(** ** Loops over a list *)

(** The invariant rule of [foldl]; the step may use that the element is in the
    list. *)
Lemma foldl_invariant {A B} (P : A → Prop) (f : A → B → A) l a :
  (∀ a x, x ∈ l → P a → P (f a x)) → P a → P (foldl f a l).
Proof.
  revert a. induction l as [|x l IH]; simpl; intros a Hf Ha; [done|].
  apply IH; [|apply Hf; [left|done]]. intros a' y Hy. apply Hf. by right.
Qed.

Lemma filter_all {A} (P : A → Prop) `{∀ x, Decision (P x)} (l : list A) :
  (∀ x, x ∈ l → P x) → filter P l = l.
Proof.
  induction l as [|x l IH]; intros Hl; [done|].
  rewrite filter_cons_True by (apply Hl; left). f_equal. apply IH. intros y Hy. apply Hl. by right.
Qed.

Lemma filter_none {A} (P : A → Prop) `{∀ x, Decision (P x)} (l : list A) :
  (∀ x, x ∈ l → ¬ P x) → filter P l = [].
Proof.
  induction l as [|x l IH]; intros Hl; [done|].
  rewrite filter_cons_False by (apply Hl; left). apply IH. intros y Hy. apply Hl. by right.
Qed.
