(* ===== verification/Decimal.v ===== *)
(** * Decimal: scaled decimal numbers and the digit loops

    Shared by the IOUAmount and STAmount models: comparison of [m * 10 ^ e] for
    integer exponents of either sign, truncation, and the specification of the
    [while] loops that move digits between a mantissa and its exponent. *)

From S2P Require Import Prelude.

(** ** Decimal scaling

    [m * 10 ^ e] with an integer exponent of either sign is compared with
    another such number at a common scale [k] below both exponents. *)

Definition scaled (k m e : Z) : Z := m * 10 ^ (e - k).

Lemma pow10_pos n : 0 ≤ n → 0 < 10 ^ n.
Proof. intros. apply Z.pow_pos_nonneg; lia. Qed.

Lemma pow10_ge1 n : 0 ≤ n → 1 ≤ 10 ^ n.
Proof. intros H. pose proof (pow10_pos n H). lia. Qed.

Lemma pow10_split a b : 0 ≤ a → 0 ≤ b → 10 ^ (a + b) = 10 ^ a * 10 ^ b.
Proof. intros. by apply Z.pow_add_r. Qed.

Lemma pow10_le a b : 0 ≤ a ≤ b → 10 ^ a ≤ 10 ^ b.
Proof. intros. apply Z.pow_le_mono_r; lia. Qed.

Lemma pow10_succ n : 0 ≤ n → 10 ^ (n + 1) = 10 * 10 ^ n.
Proof. intros. rewrite pow10_split by lia. lia. Qed.

(** Moving [j] decimal digits from the exponent to the mantissa. *)
Lemma scaled_shift k m e j :
  0 ≤ j → k ≤ e - j → scaled k (m * 10 ^ j) (e - j) = scaled k m e.
Proof.
  intros Hj Hk. unfold scaled.
  replace (e - k) with (j + (e - j - k)) by lia.
  rewrite (pow10_split j) by lia. lia.
Qed.

Lemma scaled_mono k m m' e : k ≤ e → m ≤ m' → scaled k m e ≤ scaled k m' e.
Proof.
  intros. unfold scaled. pose proof (pow10_pos (e - k)).
  apply Z.mul_le_mono_nonneg_r; lia.
Qed.

Lemma scaled_mono_lt k m m' e : k ≤ e → m < m' → scaled k m e < scaled k m' e.
Proof.
  intros. unfold scaled. pose proof (pow10_pos (e - k)).
  apply Z.mul_lt_mono_pos_r; lia.
Qed.

(** Dropping [j] low digits: [m'] is [m / 10 ^ j]. *)
Lemma scaled_le k m e m2 e2 :
  k ≤ e ≤ e2 → m ≤ m2 * 10 ^ (e2 - e) → scaled k m e ≤ scaled k m2 e2.
Proof.
  intros Hk Hm. unfold scaled. replace (e2 - k) with ((e2 - e) + (e - k)) by lia.
  rewrite pow10_split by lia. pose proof (pow10_pos (e - k) ltac:(lia)).
  rewrite Z.mul_assoc. apply Z.mul_le_mono_nonneg_r; lia.
Qed.

Lemma scaled_div k m e j :
  0 ≤ j → k ≤ e →
  scaled k (m / 10 ^ j) (e + j) ≤ scaled k m e < scaled k (m / 10 ^ j + 1) (e + j).
Proof.
  intros Hj Hk. unfold scaled.
  replace (e + j - k) with (j + (e - k)) by lia.
  rewrite (pow10_split j) by lia.
  pose proof (pow10_pos (e - k)). pose proof (pow10_pos j Hj) as Hp.
  pose proof (Z.div_mod m (10 ^ j)). pose proof (Z.mod_pos_bound m (10 ^ j) Hp).
  rewrite !Z.mul_assoc. split.
  - apply Z.mul_le_mono_nonneg_r; lia.
  - apply Z.mul_lt_mono_pos_r; lia.
Qed.

Lemma div_pow10_succ m j : 0 ≤ j → m / 10 ^ (j + 1) = m / 10 ^ j / 10.
Proof.
  intros. rewrite pow10_succ by lia. rewrite (Z.mul_comm 10).
  rewrite Z.div_div; [done| |lia]. pose proof (pow10_pos j). lia.
Qed.

Lemma div_pow10_le m j : 0 ≤ m → 0 ≤ j → m / 10 ^ j ≤ m.
Proof.
  intros Hm Hj. apply Z.div_le_upper_bound; [by apply pow10_pos|].
  pose proof (pow10_ge1 j Hj). nia.
Qed.

(** [truncates m e m' e']: [m' * 10 ^ e'] is [m * 10 ^ e] with the digits below
    [10 ^ e'] dropped, for non-negative [m] and [m']. *)
Definition truncates (m e m' e' : Z) : Prop :=
  ∀ k, k ≤ e → k ≤ e' → scaled k m' e' ≤ scaled k m e < scaled k (m' + 1) e'.

Lemma truncates_mul m e j :
  0 ≤ j → truncates m e (m * 10 ^ j) (e - j).
Proof.
  intros Hj k H1 H2. rewrite <- (scaled_shift k m e j) by lia.
  split; [done|]. apply scaled_mono_lt; lia.
Qed.

Lemma truncates_div m e j : 0 ≤ j → truncates m e (m / 10 ^ j) (e + j).
Proof. intros Hj k H1 H2. by apply scaled_div. Qed.

(** A number below [m2 * 10 ^ e2] at one scale is below it at every scale. *)
Lemma scaled_lt_rescale k k' m e m2 e2 :
  k ≤ e → k ≤ e2 → k' ≤ e → k' ≤ e2 →
  scaled k m e < scaled k m2 e2 → scaled k' m e < scaled k' m2 e2.
Proof.
  intros H1 H2 H3 H4. unfold scaled. intros H.
  destruct (Z.le_gt_cases k' k) as [Hk|Hk].
  - replace (e - k') with ((e - k) + (k - k')) by lia.
    replace (e2 - k') with ((e2 - k) + (k - k')) by lia.
    rewrite !pow10_split by lia. pose proof (pow10_pos (k - k')). nia.
  - replace (e - k) with ((e - k') + (k' - k)) in H by lia.
    replace (e2 - k) with ((e2 - k') + (k' - k)) in H by lia.
    rewrite !pow10_split in H by lia. pose proof (pow10_pos (k' - k)). nia.
Qed.

Lemma scaled_le_rescale k k' m e m2 e2 :
  k ≤ e → k ≤ e2 → k' ≤ e → k' ≤ e2 →
  scaled k m e ≤ scaled k m2 e2 → scaled k' m e ≤ scaled k' m2 e2.
Proof.
  intros ???? H. apply Z.le_ngt. intros Hlt.
  apply (scaled_lt_rescale k' k) in Hlt; lia.
Qed.

Lemma scaled_opp k m e : scaled k (- m) e = - scaled k m e.
Proof. unfold scaled. lia. Qed.

Lemma scaled_sgn k m e : k ≤ e → Z.sgn (scaled k m e) = Z.sgn m.
Proof.
  intros. unfold scaled. rewrite Z.sgn_mul.
  pose proof (pow10_pos (e - k)). rewrite (Z.sgn_pos (10 ^ _)) by lia. lia.
Qed.

Lemma abs_scaled k m e : scaled k (Z.abs m) e = Z.abs (scaled k m e).
Proof.
  unfold scaled. rewrite Z.abs_mul, (Z.abs_eq (10 ^ _)); [done|].
  apply Z.pow_nonneg. lia.
Qed.

Lemma scaled_succ_le k m e m2 e2 :
  k ≤ e → e ≤ e2 → scaled k m e < scaled k m2 e2 →
  scaled k (m + 1) e ≤ scaled k m2 e2.
Proof.
  intros Hk He. unfold scaled.
  replace (e2 - k) with ((e2 - e) + (e - k)) by lia. rewrite pow10_split by lia.
  pose proof (pow10_pos (e - k) ltac:(lia)). rewrite Z.mul_assoc.
  intros Hlt. apply Z.mul_lt_mono_pos_r in Hlt; [|lia].
  apply Z.mul_le_mono_nonneg_r; lia.
Qed.

Lemma scaled_mul_r k m e d : scaled k (m * d) e = scaled k m e * d.
Proof. unfold scaled. lia. Qed.

Lemma quot_pow10_abs m j : 0 ≤ j → Z.abs (m ÷ 10 ^ j) ≤ Z.abs m.
Proof.
  intros Hj. rewrite <- Z.quot_abs by (pose proof (pow10_pos j); lia).
  pose proof (pow10_pos j Hj). rewrite (Z.abs_eq (10 ^ j)) by lia.
  apply Z.quot_le_upper_bound; [lia|]. nia.
Qed.

(** [|x - y| < w] at scale [k], for the truncated quotient. *)
Lemma quot_scaled_error k m e j :
  0 ≤ j → k ≤ e → Z.abs (scaled k (m ÷ 10 ^ j) (e + j) - scaled k m e) < scaled k 1 (e + j).
Proof.
  intros Hj Hk. unfold scaled.
  replace (e + j - k) with (j + (e - k)) by lia. rewrite pow10_split by lia.
  rewrite Z.mul_1_l, Z.mul_assoc, <- Z.mul_sub_distr_r, Z.abs_mul.
  pose proof (pow10_pos j Hj) as Hp. pose proof (pow10_pos (e - k)).
  rewrite (Z.abs_eq (10 ^ (e - k))) by lia. apply Z.mul_lt_mono_pos_r; [lia|].
  pose proof (Z.quot_rem' m (10 ^ j)). pose proof (Z.rem_bound_abs m (10 ^ j)). lia.
Qed.

(** ** The digit loops *)

Section loops.
Context (minM maxM minE maxE : Z).
Hypothesis HminM : 0 < minM.
Hypothesis HmaxM : 10 * minM ≤ maxM + 1.

(** [while (m < minM && e > minE) { m *= 10; --e; }], for any body that computes
    this without wrap-around on the values it meets. *)
Lemma grow_loop_spec (b : Z * Z → Z * Z) m e :
  (∀ m' e', 0 < m' < minM → minE < e' ≤ e → b (m', e') = (m' * 10, e' - 1)) →
  0 < m →
  ∃ j, 0 ≤ j ∧
    while (Z.to_nat (e - minE)) (λ '(m, e), (m <? minM) && (e >? minE)) b (m, e) =
      (m * 10 ^ j, e - j) ∧
    (j = 0 ∨ (m * 10 ^ j ≤ maxM ∧ minE ≤ e - j)) ∧
    (minM ≤ m * 10 ^ j ∨ e - j ≤ minE).
Proof using HminM HmaxM.
  intros Hbody Hm. set (c := λ '(m, e), (m <? minM) && (e >? minE)).
  set (P := λ s : Z * Z, ∃ j, 0 ≤ j ∧ s = (m * 10 ^ j, e - j) ∧
    (j = 0 ∨ (m * 10 ^ j ≤ maxM ∧ minE ≤ e - j))).
  assert (∀ s, P s → c s = true → P (b s) ∧ 0 < s.2 - minE ∧
    (b s).2 - minE < s.2 - minE) as Hb.
  { intros s (j & Hj & -> & Hor) Hc. unfold c in Hc. zb. simpl.
    pose proof (pow10_pos j Hj). rewrite Hbody by lia. simpl. split; [|lia].
    exists (j + 1). rewrite pow10_succ by lia. split_and!; [lia|f_equal; lia|lia]. }
  assert (P (m, e)) as Hs.
  { exists 0. rewrite Z.pow_0_r. split_and!; [lia|f_equal; lia|lia]. }
  pose proof (while_inv P c b (λ s Hs Hc, proj1 (Hb s Hs Hc))
    (Z.to_nat (e - minE)) _ Hs) as (j & Hj & E & Hor).
  pose proof (while_done P (λ s, s.2 - minE) c b Hb
    (Z.to_nat (e - minE)) _ Hs ltac:(simpl; lia)) as Hd.
  exists j. split_and!; [done|done|done|].
  rewrite E in Hd. unfold c in Hd. zb. destruct Hd; zb; lia.
Qed.

(** [while (m > maxM) { if (e >= maxE) throw; m /= 10; ++e; }] *)
Lemma shrink_loop_spec (b : Z * Z → result (Z * Z)) (x : exn) m e :
  (∀ m' e', maxM < m' ≤ m → e ≤ e' →
    b (m', e') = if e' >=? maxE then Throw x else Ok (m' / 10, e' + 1)) →
  0 < m < 2 ^ 64 →
  match while_res 64 (λ '(m, e), m >? maxM) b (m, e) with
  | Ok (m', e') => ∃ j, 0 ≤ j ∧ m' = m / 10 ^ j ∧ e' = e + j ∧ 0 < m' ≤ maxM ∧
      (j = 0 ∨ (minM ≤ m' ∧ e' ≤ maxE ∧ maxM < m / 10 ^ (j - 1)))
  | Throw x' => x' = x ∧ ∃ j, 0 ≤ j ∧ maxM < m / 10 ^ j ∧ maxE ≤ e + j
  end.
Proof using HminM HmaxM.
  intros Hbody Hm. set (c := λ '((m, e) : Z * Z), m >? maxM).
  set (P := λ s : Z * Z, ∃ j, 0 ≤ j ∧ s = (m / 10 ^ j, e + j) ∧ 0 < s.1 ≤ m ∧
    (j = 0 ∨ (minM ≤ s.1 ∧ s.2 ≤ maxE ∧ maxM < m / 10 ^ (j - 1)))).
  assert (∀ s, P s → c s = true → 0 < Z.log2 s.1) as Hpos.
  { intros s (j & _ & -> & _) Hc. unfold c in Hc. zb. apply Z.log2_pos. simpl. lia. }
  assert (∀ s s', P s → c s = true → b s = Ok s' →
    P s' ∧ 0 < Z.log2 s.1 ∧ Z.log2 s'.1 < Z.log2 s.1) as Hb.
  { intros s s' HP Hc Hbs. split_and!; [|by apply Hpos|].
    all: destruct HP as (j & Hj & -> & Hs & Hor); unfold c in Hc; zb; simpl in *.
    all: rewrite Hbody in Hbs by lia; case_match eqn:E; [done|]; injection Hbs as <-; zb.
    all: pose proof (Z.div_mod (m / 10 ^ j) 10); pose proof (Z.mod_pos_bound (m / 10 ^ j) 10).
    - exists (j + 1). rewrite div_pow10_succ, Z.add_simpl_r by lia.
      split_and!; simpl; try lia. f_equal; lia.
    - apply Z.le_lt_trans with (Z.log2 (m / 10 ^ j / 2)).
      + apply Z.log2_le_mono. apply Z.div_le_compat_l; lia.
      + rewrite <- (Z.shiftr_div_pow2 _ 1) by lia. rewrite Z.log2_shiftr by lia.
        pose proof (Z.log2_pos (m / 10 ^ j)). lia. }
  assert (P (m, e)) as Hs.
  { exists 0. rewrite Z.pow_0_r, Z.div_1_r. split_and!; simpl; try lia. f_equal; lia. }
  pose proof (λ s s' H1 H2 H3, proj1 (Hb s s' H1 H2 H3)) as Hb'.
  destruct (while_res 64 c b (m, e)) as [[m' e']|x'] eqn:E.
  - pose proof (while_res_inv P c b Hb' _ _ _ Hs E) as (j & Hj & Es & Hm' & Hor).
    injection Es as -> ->. exists j.
    assert (c (m / 10 ^ j, e + j) = false) as Ec.
    { eapply (while_res_done P (λ s, Z.log2 s.1) c b Hb Hpos 64); [done| |done].
      simpl. pose proof (Z.log2_lt_pow2 m 64). lia. }
    unfold c in Ec. zb. simpl in *. split_and!; (done || lia).
  - pose proof (while_res_throw P c b Hb' _ _ _ Hs E) as (s & (j & Hj & -> & Hm' & _) & Hc & Hx).
    unfold c in *. simpl in *. zb. rewrite Hbody in Hx by lia. case_match eqn:Ee; [|done].
    zb. injection Hx as <-. split; [done|]. exists j. split_and!; lia.
Qed.

End loops.

(** [while (e < target) { m /= 10; ++e; }] with C++ division, for a body that
    does not wrap around on the way. *)
Lemma align_loop_spec (b : Z * Z → Z * Z) m e target :
  (∀ m' e', e ≤ e' < target → b (m', e') = (m' ÷ 10, e' + 1)) →
  while (Z.to_nat (target - e)) (λ '((m, e) : Z * Z), e <? target) b (m, e) =
  (m ÷ 10 ^ Z.max 0 (target - e), Z.max e target).
Proof.
  intros Hbody. destruct (Z.le_gt_cases target e) as [Hle|Hgt].
  { rewrite Z.max_l by lia. rewrite (Z.max_l e) by lia. rewrite Z.pow_0_r, Z.quot_1_r.
    by replace (Z.to_nat (target - e)) with 0%nat by lia. }
  rewrite Z.max_r by lia. rewrite (Z.max_r e) by lia.
  set (c := λ '((m, e) : Z * Z), e <? target).
  set (P := λ s : Z * Z, ∃ j, 0 ≤ j ≤ target - e ∧ s = (m ÷ 10 ^ j, e + j)).
  assert (∀ s, P s → c s = true → P (b s) ∧ 0 < target - s.2 ∧
    target - (b s).2 < target - s.2) as Hb.
  { intros s (j & Hj & ->) Hc. unfold c in Hc. zb. simpl. rewrite Hbody by lia. simpl.
    split; [|lia]. exists (j + 1). split; [lia|].
    rewrite pow10_succ, (Z.mul_comm 10) by lia.
    rewrite <- Z.quot_quot; [f_equal; lia| |lia]. pose proof (pow10_pos j). lia. }
  assert (P (m, e)) as Hs.
  { exists 0. rewrite Z.pow_0_r, Z.quot_1_r. split; [lia|f_equal; lia]. }
  pose proof (while_inv P c b (λ s Hs Hc, proj1 (Hb s Hs Hc))
    (Z.to_nat (target - e)) _ Hs) as (j & Hj & E).
  pose proof (while_done P (λ s, target - s.2) c b Hb
    (Z.to_nat (target - e)) _ Hs ltac:(simpl; lia)) as Hd.
  rewrite E in Hd |- *. unfold c in Hd. zb. do 2 f_equal; [f_equal|]; lia.
Qed.
