(* ===== verification/IOUAmount.v ===== *)
(** * IOUAmount: decimal floating point amounts

    Models [protocol/impl/IOUAmount.cpp] and [protocol/IOUAmount.h]: the signed
    64-bit mantissa with a decimal exponent, its normalization, addition,
    comparison and multiplication by a ratio. *)

From S2P Require Import Prelude Decimal.

Module IOUAmount.

(** ** Definitions *)

Definition minMantissa : Z := 1000000000000000.
Definition maxMantissa : Z := 9999999999999999.
Definition minExponent : Z := -96.
Definition maxExponent : Z := 80.

Record t := mk { mantissa_ : Z; exponent_ : Z }.

#[global] Instance t_eq_dec : EqDecision t.
Proof. solve_decision. Defined.

(** [operator= (beast::Zero)]: zero sorts below every small positive value. *)
Definition zero : t := mk 0 (-100).

(** The first loop of [normalize]. *)
Definition scale_up (m e : Z) : Z * Z :=
  while (Z.to_nat (e - minExponent))
    (λ '(m, e), (m <? minMantissa) && (e >? minExponent))
    (λ '(m, e), (s64 (m * 10), s32 (e - 1)))
    (m, e).

(** The second loop of [normalize]. *)
Definition scale_down (m e : Z) : result (Z * Z) :=
  while_res 64
    (λ '(m, e), m >? maxMantissa)
    (λ '(m, e),
      if e >=? maxExponent then Throw (overflow_error "IOUAmount::normalize")
      else Ok (m ÷ 10, s32 (e + 1)))
    (m, e).

Definition normalize (a : t) : result t :=
  if mantissa_ a =? 0 then Ok zero
  else
    let negative := mantissa_ a <? 0 in
    let m0 := if negative then s64 (- mantissa_ a) else mantissa_ a in
    let '(m1, e1) := scale_up m0 (exponent_ a) in
    '(m2, e2) ← scale_down m1 e1;
    if (e2 <? minExponent) || (m2 <? minMantissa) then Ok zero
    else if e2 >? maxExponent then Throw (overflow_error "value overflow")
    else Ok (mk (if negative then s64 (- m2) else m2) e2).

(** [IOUAmount (std::int64_t mantissa, int exponent)] *)
Definition make (m e : Z) : result t := normalize (mk m e).

Definition eqb (a b : t) : bool :=
  (exponent_ a =? exponent_ b) && (mantissa_ a =? mantissa_ b).

(** [operator- () const] *)
Definition neg (a : t) : result t := make (s64 (- mantissa_ a)) (exponent_ a).

(** The two alignment loops of [operator+=]: the mantissa loses a digit for
    every step its exponent is below [target]. *)
Definition align (m e target : Z) : Z * Z :=
  while (Z.to_nat (target - e))
    (λ '(m, e), e <? target)
    (λ '(m, e), (m ÷ 10, s32 (e + 1)))
    (m, e).

(** [operator+=] *)
Definition add (a other : t) : result t :=
  if eqb other zero then Ok a
  else if eqb a zero then Ok other
  else
    let '(m1, e1) := align (mantissa_ a) (exponent_ a) (exponent_ other) in
    let '(m, e) := align (mantissa_ other) (exponent_ other) e1 in
    let m1 := s64 (m1 + m) in
    if (m1 >=? -10) && (m1 <=? 10) then Ok zero
    else normalize (mk m1 e1).

(** [operator-=] *)
Definition sub (a other : t) : result t := n ← neg other; add a n.

(** [operator<] *)
Definition ltb (a other : t) : bool :=
  let lneg := mantissa_ a <? 0 in
  let rneg := mantissa_ other <? 0 in
  if negb (Bool.eqb lneg rneg) then lneg
  else if mantissa_ a =? 0 then mantissa_ other >? 0
  else if mantissa_ other =? 0 then false
  else if exponent_ a >? exponent_ other then lneg
  else if exponent_ a <? exponent_ other then negb lneg
  else mantissa_ a <? mantissa_ other.

(** [operator bool] and [signum] *)
Definition nonzero (a : t) : bool := negb (mantissa_ a =? 0).
Definition signum (a : t) : Z :=
  if mantissa_ a <? 0 then -1 else if negb (mantissa_ a =? 0) then 1 else 0.

(** ** mulRatio *)

(** [powerTable]: [10 ^ i] for [i] from 0 to 29. *)
Definition powerTable : list Z := (λ i, 10 ^ Z.of_nat i) <$> seq 0 30.

(** [std::lower_bound]: the index of the first element not below [v]. *)
Fixpoint lower_bound (l : list Z) (v : Z) : nat :=
  match l with
  | [] => 0%nat
  | x :: l => if x <? v then S (lower_bound l v) else 0%nat
  end.

Definition log10Floor (v : Z) : Z :=
  let index := lower_bound powerTable v in
  if bool_decide (powerTable !! index = Some v) then Z.of_nat index
  else Z.of_nat index - 1.

Definition log10Ceil (v : Z) : Z := Z.of_nat (lower_bound powerTable v).

Definition power_at (i : Z) : Z := nth (Z.to_nat i) powerTable 0.

(** [std::numeric_limits<std::int64_t>::max ()] *)
Definition fl64 : Z := log10Floor (2 ^ 63 - 1).

(** The quotient [mul / den] extended by digits of its remainder: the quotient,
    what is left of the remainder, and the exponent. *)
Definition grow_quotient (mul den exponent : Z) : Z * Z * Z :=
  let low := mul / den in
  let rem := u128 (mul - low * den) in
  if negb (rem =? 0) then
    let roomToGrow := fl64 - log10Ceil low in
    let '(low, rem, exponent) :=
      if roomToGrow >? 0 then
        (u128 (low * power_at roomToGrow), u128 (rem * power_at roomToGrow),
         s32 (exponent - roomToGrow))
      else (low, rem, exponent) in
    let addRem := rem / den in
    (u128 (low + addRem), u128 (rem - addRem * den), exponent)
  else (low, rem, exponent).

(** The quotient shortened until it fits a 64-bit mantissa, its exponent, and
    whether a remainder was lost ([hasRem]). *)
Definition shrink_quotient (low rem exponent : Z) : Z * Z * bool :=
  let hasRem := negb (rem =? 0) in
  let mustShrink := log10Ceil low - fl64 in
  if mustShrink >? 0 then
    let sav := low in
    let low := low / power_at mustShrink in
    (low, s32 (exponent + mustShrink),
     if hasRem then hasRem
     else negb (u128 (sav - low * power_at mustShrink) =? 0))
  else (low, exponent, hasRem).

Definition mulRatio (amt : t) (num den : Z) (roundUp : bool) : result t :=
  if den =? 0 then Throw (runtime_error "division by zero")
  else
    let neg := mantissa_ amt <? 0 in
    let mul := u128 ((if neg then s64 (- mantissa_ amt) else mantissa_ amt) * num) in
    let '(low, rem, exponent) := grow_quotient mul den (exponent_ amt) in
    let '(low, exponent, hasRem) := shrink_quotient low rem exponent in
    let mantissa := s64 low in
    let mantissa := if neg then s64 (mantissa * -1) else mantissa in
    r ← make mantissa exponent;
    if hasRem then
      if roundUp && negb neg then
        if negb (nonzero r) then make minMantissa minExponent
        else make (s64 (mantissa_ r + 1)) (exponent_ r)
      else if negb roundUp && neg then
        if negb (nonzero r) then make (- minMantissa) minExponent
        else make (s64 (mantissa_ r - 1)) (exponent_ r)
      else Ok r
    else Ok r.

(** ** Normalization *)

(** The representation invariant documented in [IOUAmount.h]. *)
Definition canonical (a : t) : Prop :=
  a = zero ∨
  (minMantissa ≤ Z.abs (mantissa_ a) ≤ maxMantissa ∧
   minExponent ≤ exponent_ a ≤ maxExponent).

#[global] Instance canonical_dec a : Decision (canonical a).
Proof. unfold canonical. apply _. Defined.

Lemma scale_up_spec m e :
  0 < m < 2 ^ 63 → is_signed 32 e →
  ∃ j, 0 ≤ j ∧ scale_up m e = (m * 10 ^ j, e - j) ∧
    (j = 0 ∨ (m * 10 ^ j ≤ maxMantissa ∧ minExponent ≤ e - j)) ∧
    (minMantissa ≤ m * 10 ^ j ∨ e - j ≤ minExponent).
Proof.
  intros Hm He. apply grow_loop_spec; try (unfold minMantissa, maxMantissa; lia).
  intros m' e' ??. unfold minMantissa, minExponent, is_signed in *. by unwrap.
Qed.

Lemma scale_down_spec m e :
  0 < m < 2 ^ 63 → is_signed 32 e →
  match scale_down m e with
  | Ok (m', e') => ∃ j, 0 ≤ j ∧ m' = m / 10 ^ j ∧ e' = e + j ∧ 0 < m' ≤ maxMantissa ∧
      (j = 0 ∨ (minMantissa ≤ m' ∧ e' ≤ maxExponent ∧ maxMantissa < m / 10 ^ (j - 1)))
  | Throw x => x = overflow_error "IOUAmount::normalize" ∧
      ∃ j, 0 ≤ j ∧ maxMantissa < m / 10 ^ j ∧ maxExponent ≤ e + j
  end.
Proof.
  intros Hm He. apply shrink_loop_spec; try (unfold minMantissa, maxMantissa in *; lia).
  intros m' e' ??. unfold maxMantissa, maxExponent, is_signed in *. case_if; zb; [done|].
  rewrite Z.quot_div_nonneg by lia. by unwrap.
Qed.

(** What [normalize] does with a mantissa and exponent, sign aside. *)
Definition normalize_abs_post (m e : Z) (r : result (Z * Z)) : Prop :=
  match r with
  | Ok (m', e') =>
      if (e' <? minExponent) || (m' <? minMantissa) then
        ∀ k, k ≤ e → k ≤ minExponent → scaled k m e < scaled k minMantissa minExponent
      else if e' >? maxExponent then
        ∀ k, k ≤ e → k ≤ maxExponent → scaled k (maxMantissa + 1) maxExponent ≤ scaled k m e
      else minMantissa ≤ m' ≤ maxMantissa ∧ minExponent ≤ e' ≤ maxExponent ∧
        truncates m e m' e'
  | Throw x => x = overflow_error "IOUAmount::normalize" ∧
      ∀ k, k ≤ e → k ≤ maxExponent → scaled k (maxMantissa + 1) maxExponent ≤ scaled k m e
  end.

Lemma scaled_min_bound m e k :
  0 < m ≤ 10 * minMantissa → e < minExponent → k ≤ e →
  scaled k m e ≤ scaled k minMantissa minExponent.
Proof.
  intros Hm He Hk. unfold scaled.
  replace (minExponent - k) with (1 + (minExponent - 1 - e) + (e - k)) by lia.
  rewrite !pow10_split by lia. change (10 ^ 1) with 10.
  pose proof (pow10_pos (e - k)). pose proof (pow10_ge1 (minExponent - 1 - e)).
  unfold minMantissa in *. nia.
Qed.

Lemma scaled_max_bound m e k :
  maxMantissa < m → maxExponent ≤ e → k ≤ maxExponent →
  scaled k (maxMantissa + 1) maxExponent ≤ scaled k m e.
Proof.
  intros Hm He Hk. unfold scaled.
  replace (e - k) with ((e - maxExponent) + (maxExponent - k)) by lia.
  rewrite pow10_split by lia.
  pose proof (pow10_ge1 (e - maxExponent) ltac:(lia)).
  pose proof (pow10_pos (maxExponent - k) ltac:(lia)).
  rewrite Z.mul_assoc. apply Z.mul_le_mono_nonneg_r; [lia|].
  unfold maxMantissa in *. nia.
Qed.

Lemma scaled_max_bound_min m e k :
  minMantissa ≤ m → maxExponent < e → k ≤ maxExponent →
  scaled k (maxMantissa + 1) maxExponent ≤ scaled k m e.
Proof.
  intros Hm He Hk. rewrite <- (scaled_shift k m e 1) by lia.
  change (10 ^ 1) with 10.
  apply scaled_max_bound; unfold minMantissa, maxMantissa, maxExponent in *; lia.
Qed.

Lemma normalize_abs m e :
  0 < m < 2 ^ 63 → is_signed 32 e →
  normalize_abs_post m e (let '(m1, e1) := scale_up m e in scale_down m1 e1).
Proof.
  intros Hm He.
  destruct (scale_up_spec m e Hm He) as (j & Hj & -> & Hor & Hex).
  assert (0 < m * 10 ^ j < 2 ^ 63) as Hm1.
  { pose proof (pow10_pos j Hj). destruct Hor as [->|[? _]];
      unfold maxMantissa in *; [lia|nia]. }
  assert (is_signed 32 (e - j)) as He1.
  { unfold is_signed, minExponent in *. lia. }
  pose proof (scale_down_spec _ _ Hm1 He1) as Hd. unfold normalize_abs_post.
  destruct (scale_down _ _) as [[m' e']|x]; simpl.
  - destruct Hd as (i & Hi & -> & -> & [_ Hmax] & Hori).
    assert (i = 0 ∨ j = 0) as Hij.
    { destruct Hor as [?|[? _]]; [by right|]. destruct Hori as [?|[? _]]; [by left|].
      destruct (Z.eq_dec i 0) as [|Hi0]; [by left|].
      assert (m * 10 ^ j / 10 ^ i ≤ m * 10 ^ j / 10 ^ 1) as Hle.
      { apply Z.div_le_compat_l; [lia|]. split; [lia|]. apply pow10_le. lia. }
      change (10 ^ 1) with 10 in Hle.
      pose proof (Z.div_lt_upper_bound (m * 10 ^ j) 10 minMantissa).
      unfold minMantissa, maxMantissa in *. lia. }
    assert (truncates m e (m * 10 ^ j / 10 ^ i) (e - j + i)) as Ht.
    { destruct Hij as [->| ->].
      - rewrite Z.pow_0_r, Z.div_1_r, Z.add_0_r. by apply truncates_mul.
      - rewrite Z.pow_0_r, Z.mul_1_r, Z.sub_0_r. by apply truncates_div. }
    destruct ((_ <? minExponent) || _) eqn:Elow.
    + intros k Hk1 Hk2.
      apply (scaled_lt_rescale (Z.min k (e - j + i)) k);
        [lia|unfold minExponent in *; lia|done|done|].
      eapply Z.lt_le_trans; [apply Ht; lia|].
      destruct (Z.lt_ge_cases (e - j + i) minExponent) as [Hlt|Hge].
      * apply scaled_min_bound; [|done|lia]. unfold minMantissa, maxMantissa in *.
        pose proof (Z.div_pos (m * 10 ^ j) (10 ^ i)). pose proof (pow10_pos i Hi). lia.
      * assert (e - j + i = minExponent) as ->.
        { zb. destruct Elow; zb; [lia|].
          destruct Hori as [->|[? ?]]; [|lia].
          rewrite Z.pow_0_r, Z.div_1_r in *. lia. }
        apply scaled_mono; [lia|]. zb. destruct Elow; zb; lia.
    + zb. destruct (_ >? maxExponent) eqn:Ehi; zb.
      * intros k Hk1 Hk2. eapply Z.le_trans; [|apply Ht; lia].
        apply scaled_max_bound_min; lia.
      * done.
  - destruct Hd as (-> & i & Hi & Hmm & Hee). split; [done|]. intros k Hk1 Hk2.
    assert (j = 0) as ->.
    { destruct Hor as [?|[? _]]; [done|].
      pose proof (Z.div_le_upper_bound (m * 10 ^ j) (10 ^ i) maxMantissa).
      pose proof (pow10_ge1 i Hi). unfold maxMantissa in *. nia. }
    rewrite Z.pow_0_r, Z.mul_1_r, Z.sub_0_r in *.
    eapply Z.le_trans; [|apply (scaled_div k m e i); lia].
    apply scaled_max_bound; lia.
Qed.

(** Magnitudes that no canonical amount can hold. *)
Definition too_small (m e : Z) : Prop :=
  ∀ k, k ≤ e → k ≤ minExponent → scaled k (Z.abs m) e < scaled k minMantissa minExponent.
Definition too_large (m e : Z) : Prop :=
  ∀ k, k ≤ e → k ≤ maxExponent →
    scaled k (maxMantissa + 1) maxExponent ≤ scaled k (Z.abs m) e.

Definition normalize_post (m e : Z) (r : result t) : Prop :=
  match r with
  | Ok r =>
      if decide (mantissa_ r = 0) then r = zero ∧ (m = 0 ∨ too_small m e)
      else canonical r ∧ Z.sgn (mantissa_ r) = Z.sgn m ∧
        truncates (Z.abs m) e (Z.abs (mantissa_ r)) (exponent_ r)
  | Throw x => (∃ w, x = overflow_error w) ∧ too_large m e
  end.

Lemma normalize_spec m e :
  is_signed 64 m → m ≠ - 2 ^ 63 → is_signed 32 e →
  normalize_post m e (normalize (mk m e)).
Proof.
  intros Hm Hmin He. unfold normalize. simpl.
  destruct (m =? 0) eqn:E0; zb.
  { simpl. auto. }
  replace (if m <? 0 then s64 (- m) else m) with (Z.abs m).
  2:{ destruct (m <? 0) eqn:En; zb; [|lia]. unfold is_signed in Hm. unwrap. lia. }
  pose proof (normalize_abs (Z.abs m) e) as Hn.
  destruct (scale_up (Z.abs m) e) as [m1 e1]. unfold normalize_abs_post in Hn.
  destruct (scale_down m1 e1) as [[m2 e2]|x]; simpl.
  2:{ destruct Hn as [-> Hn]; [unfold is_signed in *; lia|done|]. split; eauto. }
  specialize (Hn ltac:(unfold is_signed in *; lia) He).
  destruct (_ || _) eqn:El.
  { simpl. auto. }
  destruct (e2 >? maxExponent) eqn:Eh; [simpl; eauto|].
  destruct Hn as (Hm2 & He2 & Ht).
  replace (if m <? 0 then s64 (- m2) else m2) with (Z.sgn m * m2).
  2:{ unfold minMantissa, maxMantissa in *.
      destruct (m <? 0) eqn:En; zb; [unwrap; lia|lia]. }
  simpl. assert (Z.abs (Z.sgn m * m2) = m2) as Habs by (unfold minMantissa in *; lia).
  rewrite decide_False by (unfold minMantissa in *; lia).
  split_and!; [right; simpl; rewrite Habs; done|unfold minMantissa in *; lia|].
  by rewrite Habs.
Qed.

(** The magnitude of a canonical amount is within the representable range. *)
Lemma canonical_bounds m e k :
  minMantissa ≤ m ≤ maxMantissa → minExponent ≤ e ≤ maxExponent →
  k ≤ minExponent →
  scaled k minMantissa minExponent ≤ scaled k m e ∧
  scaled k (m + 1) e ≤ scaled k (maxMantissa + 1) maxExponent.
Proof.
  intros Hm He Hk. unfold scaled. split.
  - replace (e - k) with ((e - minExponent) + (minExponent - k)) by lia.
    rewrite pow10_split by lia. pose proof (pow10_ge1 (e - minExponent) ltac:(lia)).
    pose proof (pow10_pos (minExponent - k) ltac:(lia)).
    rewrite Z.mul_assoc. apply Z.mul_le_mono_nonneg_r; [lia|].
    unfold minMantissa in *. nia.
  - apply Z.mul_le_mono_nonneg; unfold minMantissa, maxMantissa, maxExponent in *;
      [lia|lia|apply Z.pow_nonneg; lia|apply pow10_le; lia].
Qed.

Lemma too_small_excl m e m' e' :
  minMantissa ≤ m' ≤ maxMantissa → minExponent ≤ e' ≤ maxExponent →
  truncates (Z.abs m) e m' e' → ¬ too_small m e.
Proof.
  intros Hm He Ht Hs. pose (k := Z.min e minExponent).
  destruct (Ht k) as [Hlo _]; [lia|lia|].
  specialize (Hs k ltac:(lia) ltac:(lia)).
  destruct (canonical_bounds m' e' k) as [? _]; [done|done|lia|lia].
Qed.

Lemma too_large_excl m e m' e' :
  minMantissa ≤ m' ≤ maxMantissa → minExponent ≤ e' ≤ maxExponent →
  truncates (Z.abs m) e m' e' → ¬ too_large m e.
Proof.
  intros Hm He Ht Hs. pose (k := Z.min e minExponent).
  destruct (Ht k) as [_ Hhi]; [lia|lia|].
  specialize (Hs k ltac:(lia)). unfold maxExponent, minExponent in *.
  destruct (canonical_bounds m' e' k) as [_ ?]; [done|done|unfold minExponent; lia|].
  unfold maxExponent in *. lia.
Qed.

Lemma too_small_large_excl m e : too_small m e → ¬ too_large m e.
Proof.
  intros Hs Hl. pose (k := Z.min e minExponent).
  specialize (Hs k ltac:(lia) ltac:(lia)).
  specialize (Hl k ltac:(lia) ltac:(unfold minExponent, maxExponent in *; lia)).
  destruct (canonical_bounds minMantissa minExponent k) as [_ Hc];
    [unfold minMantissa, maxMantissa; lia|unfold minExponent, maxExponent; lia|lia|].
  pose proof (scaled_mono k minMantissa (minMantissa + 1) minExponent). lia.
Qed.

(** C20: normalization is truncation onto the canonical lattice.  For every
    64-bit mantissa (other than the one whose negation overflows) and every
    exponent, [normalize] returns zero exactly for magnitudes below the
    smallest canonical amount, throws [overflow_error] exactly for magnitudes
    above the largest one, and otherwise returns the canonical amount of the
    same sign that drops exactly the digits below its last place. *)
Theorem normalize_correct m e :
  is_signed 64 m → m ≠ 0 → m ≠ - 2 ^ 63 → is_signed 32 e →
  (normalize (mk m e) = Ok zero ↔ too_small m e) ∧
  ((∃ w, normalize (mk m e) = Throw (overflow_error w)) ↔ too_large m e) ∧
  (¬ too_small m e → ¬ too_large m e →
   ∃ r, normalize (mk m e) = Ok r ∧
     minMantissa ≤ Z.abs (mantissa_ r) ≤ maxMantissa ∧
     minExponent ≤ exponent_ r ≤ maxExponent ∧
     Z.sgn (mantissa_ r) = Z.sgn m ∧
     truncates (Z.abs m) e (Z.abs (mantissa_ r)) (exponent_ r)).
Proof.
  intros Hm Hm0 Hmin He. pose proof (normalize_spec m e Hm Hmin He) as Hn.
  unfold normalize_post in Hn. destruct (normalize (mk m e)) as [r|x].
  - case_decide as Hr0.
    + destruct Hn as [-> [?|Hs]]; [done|].
      pose proof (too_small_large_excl m e Hs).
      split_and!; [done|split; [intros [? ?]; congruence|done]|done].
    + destruct Hn as ([->|[? ?]] & Hsgn & Ht); [done|].
      pose proof (too_small_excl _ _ _ _ ltac:(done) ltac:(done) Ht).
      pose proof (too_large_excl _ _ _ _ ltac:(done) ltac:(done) Ht).
      split_and!; [split; [by intros [= ->]|done]|split; [intros [? ?]; congruence|done]|eauto 8].
  - destruct Hn as [[w ->] Hl].
    assert (¬ too_small m e) by (intros Hs; by apply (too_small_large_excl m e)).
    split_and!; [split; [congruence|done]|split; eauto|done].
Qed.

(** ** Comparison *)

(** Canonical magnitudes of different exponents are ordered by exponent. *)
Lemma exponent_dominates k m e m' e' :
  minMantissa ≤ m → m' ≤ maxMantissa → e' < e → k ≤ e' →
  scaled k m' e' < scaled k m e.
Proof.
  intros Hm Hm' He Hk. unfold scaled.
  replace (e - k) with (1 + (e - e' - 1) + (e' - k)) by lia.
  rewrite !pow10_split by lia. change (10 ^ 1) with 10.
  pose proof (pow10_ge1 (e - e' - 1) ltac:(lia)).
  rewrite !Z.mul_assoc. apply Z.mul_lt_mono_pos_r; [apply pow10_pos; lia|].
  unfold minMantissa, maxMantissa in *. nia.
Qed.

Lemma canonical_cases a :
  canonical a →
  (a = zero) ∨
  (minMantissa ≤ mantissa_ a ≤ maxMantissa ∧ minExponent ≤ exponent_ a ≤ maxExponent) ∨
  (minMantissa ≤ - mantissa_ a ≤ maxMantissa ∧ minExponent ≤ exponent_ a ≤ maxExponent).
Proof. unfold canonical, minMantissa. intros [?|[? ?]]; [auto|]. lia. Qed.

(** The lexicographic comparison of exponent and mantissa is the numerical
    comparison of two positive canonical amounts. *)
Lemma scaled_trichotomy k m e m' e' :
  minMantissa ≤ m ≤ maxMantissa → minMantissa ≤ m' ≤ maxMantissa →
  k ≤ e → k ≤ e' →
  let S := scaled k m e in let S' := scaled k m' e' in
  (e < e' ∧ S < S') ∨ (e' < e ∧ S' < S) ∨
  (e = e' ∧ ((m < m' ∧ S < S') ∨ (m = m' ∧ S = S') ∨ (m' < m ∧ S' < S))).
Proof.
  intros Hm Hm' Hk Hk' S S'.
  destruct (Z.lt_trichotomy e e') as [He|[->|He]].
  - left. split; [done|]. apply exponent_dominates; lia.
  - right; right. split; [done|].
    destruct (Z.lt_trichotomy m m') as [H|[->|H]].
    + left. split; [done|]. by apply scaled_mono_lt.
    + auto.
    + right; right. split; [done|]. by apply scaled_mono_lt.
  - right; left. split; [done|]. apply exponent_dominates; lia.
Qed.

(** C21: on canonical amounts [operator<] is the numerical order and
    [operator==] is numerical equality, at every common decimal scale; the
    exponent-first comparison of the code is right because a canonical amount
    has exactly 16 significant digits. *)
Theorem compare_correct a b k :
  canonical a → canonical b → k ≤ exponent_ a → k ≤ exponent_ b →
  (ltb a b = true ↔
     scaled k (mantissa_ a) (exponent_ a) < scaled k (mantissa_ b) (exponent_ b)) ∧
  (eqb a b = true ↔
     scaled k (mantissa_ a) (exponent_ a) = scaled k (mantissa_ b) (exponent_ b)).
Proof.
  destruct a as [ma ea], b as [mb eb]. intros Ha Hb Hka Hkb.
  apply canonical_cases in Ha, Hb. unfold ltb, eqb, zero in *. simpl in *.
  pose proof (scaled_sgn k ma ea Hka) as Hsa. pose proof (scaled_sgn k mb eb Hkb) as Hsb.
  assert (minMantissa = 1000000000000000) as Hmin by done.
  destruct Ha as [[= -> ->]|[[Ha Hea]|[Ha Hea]]], Hb as [[= -> ->]|[[Hb Heb]|[Hb Heb]]];
    try pose proof (scaled_trichotomy k ma ea mb eb Ha Hb Hka Hkb) as Ht;
    try (pose proof (scaled_trichotomy k _ ea _ eb Ha Hb Hka Hkb) as Ht;
         rewrite !scaled_opp in Ht);
    try simpl in Ht;
    rewrite andb_true_iff, !Z.eqb_eq;
    repeat case_if; zb; try lia.
Qed.

(** ** Addition *)

(** [align] drops the digits below [10 ^ target], rounding toward zero. *)
Lemma align_spec m e target :
  is_signed 32 e → is_signed 32 target →
  align m e target = (m ÷ 10 ^ Z.max 0 (target - e), Z.max e target).
Proof.
  intros He Ht. apply align_loop_spec. intros m' e' ?. unfold is_signed in *. by unwrap.
Qed.

(** The sum of two aligned mantissas. *)
Definition aligned_sum (a b : t) : Z :=
  mantissa_ a ÷ 10 ^ Z.max 0 (exponent_ b - exponent_ a) +
  mantissa_ b ÷ 10 ^ Z.max 0 (exponent_ a - exponent_ b).

Lemma aligned_sum_comm a b : aligned_sum a b = aligned_sum b a.
Proof. unfold aligned_sum. lia. Qed.

Lemma aligned_sum_bound a b :
  canonical a → canonical b → Z.abs (aligned_sum a b) ≤ 2 * maxMantissa.
Proof.
  intros Ha Hb. unfold aligned_sum.
  pose proof (quot_pow10_abs (mantissa_ a) (Z.max 0 (exponent_ b - exponent_ a))).
  pose proof (quot_pow10_abs (mantissa_ b) (Z.max 0 (exponent_ a - exponent_ b))).
  apply canonical_cases in Ha, Hb. unfold zero, minMantissa, maxMantissa in *.
  destruct Ha as [->|?], Hb as [->|?]; simpl in *; lia.
Qed.

Lemma canonical_exponent a : canonical a → -100 ≤ exponent_ a ≤ maxExponent.
Proof.
  unfold canonical, minExponent, maxExponent. intros [->|?]; simpl; lia.
Qed.

Lemma canonical_eqb_zero a : canonical a → eqb a zero = bool_decide (a = zero).
Proof.
  intros Ha. destruct (eqb a zero) eqn:E; symmetry.
  - apply bool_decide_eq_true. unfold eqb in E. zb. destruct a. simpl in *. by subst.
  - apply bool_decide_eq_false. by intros ->.
Qed.

Lemma add_unfold a b :
  canonical a → canonical b → a ≠ zero → b ≠ zero →
  add a b = (if (aligned_sum a b >=? -10) && (aligned_sum a b <=? 10) then Ok zero
             else normalize (mk (aligned_sum a b) (Z.max (exponent_ a) (exponent_ b)))).
Proof.
  intros Ha Hb Ha0 Hb0. unfold add.
  rewrite !canonical_eqb_zero, !bool_decide_eq_false_2 by done.
  pose proof (canonical_exponent a Ha). pose proof (canonical_exponent b Hb).
  unfold maxExponent in *.
  rewrite align_spec by wrap_solve. rewrite align_spec by wrap_solve.
  replace (Z.max 0 (Z.max (exponent_ a) (exponent_ b) - exponent_ b))
    with (Z.max 0 (exponent_ a - exponent_ b)) by lia.
  pose proof (aligned_sum_bound a b Ha Hb). fold (aligned_sum a b).
  unfold maxMantissa in *. by unwrap.
Qed.

Lemma add_zero_l a : canonical a → add zero a = Ok a.
Proof.
  intros Ha. unfold add. rewrite canonical_eqb_zero by done.
  case_bool_decide; [by subst|done].
Qed.

Lemma add_zero_r a : add a zero = Ok a.
Proof. done. Qed.

Lemma aligned_sum_error a b k :
  k ≤ exponent_ a → k ≤ exponent_ b →
  let E := Z.max (exponent_ a) (exponent_ b) in
  Z.abs (scaled k (aligned_sum a b) E -
    (scaled k (mantissa_ a) (exponent_ a) + scaled k (mantissa_ b) (exponent_ b)))
  < scaled k 1 E.
Proof.
  destruct a as [ma ea], b as [mb eb]. simpl. intros Hka Hkb. unfold aligned_sum. simpl.
  assert (∀ x y e, scaled k (x + y) e = scaled k x e + scaled k y e) as Hadd
    by (intros; unfold scaled; lia).
  rewrite Hadd. destruct (Z.le_gt_cases ea eb) as [Hle|Hgt].
  - pose proof (quot_scaled_error k ma ea (eb - ea) ltac:(lia) Hka) as He.
    replace (ea + (eb - ea)) with eb in He by lia.
    rewrite (Z.max_r ea), (Z.max_r 0), (Z.max_l 0), Z.pow_0_r, Z.quot_1_r by lia. lia.
  - pose proof (quot_scaled_error k mb eb (ea - eb) ltac:(lia) Hkb) as He.
    replace (eb + (ea - eb)) with ea in He by lia.
    rewrite (Z.max_l ea), (Z.max_l 0), (Z.max_r 0), Z.pow_0_r, Z.quot_1_r by lia. lia.
Qed.

(** What the sum of two amounts may lose, at scale [k]: eleven units of the
    larger exponent (alignment and the cancellation rule) and one unit in the
    last place of the result, or the smallest amount when it is zero. *)
Definition add_error (a b r : t) (k : Z) : Z :=
  11 * scaled k 1 (Z.max (exponent_ a) (exponent_ b)) +
  (if decide (r = zero) then scaled k minMantissa minExponent
   else scaled k 1 (exponent_ r)).

Lemma normalize_error m e r k :
  is_signed 64 m → m ≠ - 2 ^ 63 → is_signed 32 e →
  normalize (mk m e) = Ok r → k ≤ e → k ≤ exponent_ r → k ≤ minExponent →
  Z.abs (scaled k (mantissa_ r) (exponent_ r) - scaled k m e) <
  (if decide (r = zero) then scaled k minMantissa minExponent
   else scaled k 1 (exponent_ r)).
Proof.
  intros Hm Hmin He Hr Hke Hkr Hkm.
  pose proof (normalize_spec m e Hm Hmin He) as Hn. rewrite Hr in Hn. simpl in Hn.
  pose proof (scaled_sgn k minMantissa minExponent Hkm) as Hpos.
  case_decide as Hr0.
  - destruct Hn as [-> Hz]. rewrite decide_True by done.
    unfold zero. simpl. change (scaled k 0 (-100)) with 0.
    rewrite Z.sub_0_l, Z.abs_opp, <- abs_scaled.
    destruct Hz as [->|Hs]; [|by apply Hs].
    change (scaled k (Z.abs 0) e) with 0. unfold minMantissa in *. lia.
  - destruct Hn as (_ & Hsgn & Ht). rewrite decide_False by (intros ->; done).
    specialize (Ht k Hke Hkr).
    assert (scaled k (Z.abs (mantissa_ r) + 1) (exponent_ r) =
      scaled k (Z.abs (mantissa_ r)) (exponent_ r) + scaled k 1 (exponent_ r)) as Hadd
      by (unfold scaled; lia).
    rewrite Hadd, !abs_scaled in Ht.
    pose proof (scaled_sgn k (mantissa_ r) (exponent_ r) Hkr).
    pose proof (scaled_sgn k m e Hke). lia.
Qed.

Lemma add_error_pos a b r k :
  k ≤ exponent_ a → k ≤ exponent_ r → k ≤ minExponent → 0 < add_error a b r k.
Proof.
  intros. unfold add_error.
  pose proof (scaled_sgn k 1 (Z.max (exponent_ a) (exponent_ b)) ltac:(lia)).
  pose proof (scaled_sgn k 1 (exponent_ r) ltac:(lia)).
  pose proof (scaled_sgn k minMantissa minExponent ltac:(lia)).
  unfold minMantissa in *. case_decide; lia.
Qed.

(** The contract of [operator+=]: a canonical result within [add_error] of the
    exact sum, or [overflow_error] for a sum above the largest amount. *)
Definition add_post (a b : t) (res : result t) : Prop :=
  match res with
  | Ok r => canonical r ∧
      ∀ k, k ≤ exponent_ a → k ≤ exponent_ b → k ≤ exponent_ r → k ≤ minExponent →
      Z.abs (scaled k (mantissa_ r) (exponent_ r) -
        (scaled k (mantissa_ a) (exponent_ a) + scaled k (mantissa_ b) (exponent_ b)))
      < add_error a b r k
  | Throw x => (∃ w, x = overflow_error w) ∧
      ∀ k, k ≤ exponent_ a → k ≤ exponent_ b →
      scaled k maxMantissa maxExponent <
      Z.abs (scaled k (mantissa_ a) (exponent_ a) + scaled k (mantissa_ b) (exponent_ b))
  end.

Lemma add_post_zero_r a : canonical a → add_post a zero (Ok a).
Proof.
  intros Ha. split; [done|]. intros k ????.
  change (scaled k (mantissa_ zero) (exponent_ zero)) with 0.
  rewrite Z.add_0_r, Z.sub_diag. by apply add_error_pos.
Qed.

Lemma add_post_comm a b res : add_post a b res → add_post b a res.
Proof.
  unfold add_post, add_error. destruct res as [r|x]; intros [? H]; (split; [done|]);
    intros k; rewrite ?(Z.max_comm (exponent_ b)), ?(Z.add_comm (scaled k (mantissa_ b) _));
    auto.
Qed.

Lemma add_post_cancel a b :
  -10 ≤ aligned_sum a b ≤ 10 → add_post a b (Ok zero).
Proof.
  intros Hs. split; [by left|]. intros k ????.
  pose proof (aligned_sum_error a b k) as Herr. simpl in Herr.
  change (scaled k (mantissa_ zero) (exponent_ zero)) with 0.
  unfold add_error. rewrite decide_True by done.
  set (E := Z.max (exponent_ a) (exponent_ b)) in *.
  pose proof (scaled_sgn k minMantissa minExponent ltac:(lia)).
  pose proof (scaled_sgn k 1 E ltac:(lia)).
  assert (scaled k (aligned_sum a b) E = aligned_sum a b * scaled k 1 E)
    by (unfold scaled; lia).
  unfold minMantissa in *. nia.
Qed.

Lemma add_post_normalize a b :
  canonical a → canonical b →
  add_post a b (normalize (mk (aligned_sum a b) (Z.max (exponent_ a) (exponent_ b)))).
Proof.
  intros Ha Hb. pose proof (aligned_sum_bound a b Ha Hb).
  pose proof (canonical_exponent a Ha). pose proof (canonical_exponent b Hb).
  pose proof (λ k, aligned_sum_error a b k) as Herr. simpl in Herr.
  set (E := Z.max (exponent_ a) (exponent_ b)) in *.
  assert (is_signed 64 (aligned_sum a b) ∧ aligned_sum a b ≠ - 2 ^ 63 ∧ is_signed 32 E)
    as (? & ? & ?) by (unfold is_signed, maxMantissa, maxExponent in *; lia).
  pose proof (normalize_spec (aligned_sum a b) E) as Hn.
  destruct (normalize _) as [r|x] eqn:En; simpl in Hn |- *.
  - split.
    { case_decide; [destruct Hn as [-> _]; [done..|]; by left|]. by destruct Hn. }
    intros k ????. specialize (Herr k).
    pose proof (normalize_error _ _ _ k ltac:(done) ltac:(done) ltac:(done) En).
    unfold add_error. fold E. pose proof (scaled_sgn k 1 E ltac:(lia)). lia.
  - destruct Hn as [? Hl]; [done..|]. split; [done|]. intros k ??.
    specialize (Herr k). specialize (Hl k ltac:(lia) ltac:(unfold maxExponent in *; lia)).
    rewrite abs_scaled in Hl.
    assert (scaled k (maxMantissa + 1) maxExponent =
      scaled k maxMantissa maxExponent + scaled k 1 maxExponent) by (unfold scaled; lia).
    assert (scaled k 1 E ≤ scaled k 1 maxExponent).
    { unfold scaled. rewrite !Z.mul_1_l. apply pow10_le. lia. }
    lia.
Qed.

Lemma add_spec a b : canonical a → canonical b → add_post a b (add a b).
Proof.
  intros Ha Hb. destruct (decide (a = zero)) as [->|Ha0].
  { rewrite add_zero_l by done. by apply add_post_comm, add_post_zero_r. }
  destruct (decide (b = zero)) as [->|Hb0].
  { rewrite add_zero_r. by apply add_post_zero_r. }
  rewrite add_unfold by done. destruct (_ && _) eqn:E.
  - zb. by apply add_post_cancel.
  - by apply add_post_normalize.
Qed.

(** C22: addition of canonical amounts is commutative; when it returns, the
    result is canonical and within [add_error] of the exact sum; it fails only
    with [overflow_error] and only when the exact sum is larger in magnitude
    than the largest amount. *)
Theorem add_correct a b :
  canonical a → canonical b → add a b = add b a ∧ add_post a b (add a b).
Proof.
  intros Ha Hb. split; [|by apply add_spec].
  destruct (decide (a = zero)) as [->|Ha0]; [by rewrite add_zero_l, add_zero_r|].
  destruct (decide (b = zero)) as [->|Hb0]; [by rewrite add_zero_l, add_zero_r|].
  rewrite !add_unfold by done. by rewrite aligned_sum_comm, Z.max_comm.
Qed.

Lemma add_correct_witness :
  canonical (mk 1500000000000000 2) ∧ canonical (mk (-2000000000000007) 0) ∧
  add (mk 1500000000000000 2) (mk (-2000000000000007) 0) = Ok (mk 1480000000000000 2) ∧
  add_post (mk 1500000000000000 2) (mk (-2000000000000007) 0) (Ok (mk 1480000000000000 2)).
Proof.
  split_and!; [by apply (bool_decide_unpack _)|by apply (bool_decide_unpack _)|reflexivity|].
  apply (add_correct (mk 1500000000000000 2) (mk (-2000000000000007) 0));
    by apply (bool_decide_unpack _).
Defined.

(** ** Multiplication by a ratio *)

Lemma lower_bound_spec l v :
  (∀ i x, (i < lower_bound l v)%nat → l !! i = Some x → x < v) ∧
  (∀ x, l !! lower_bound l v = Some x → v ≤ x) ∧
  (lower_bound l v ≤ length l)%nat.
Proof.
  induction l as [|y l (IH1 & IH2 & IH3)]; simpl.
  - split_and!; [intros; lia|done|lia].
  - destruct (y <? v) eqn:E; zb; split_and!; [|naive_solver|lia|lia|naive_solver|lia].
    intros [|i] x Hi Hx; simpl in Hx; [naive_solver|]. apply (IH1 i x); [lia|done].
Qed.

Lemma powerTable_lookup i : (i < 30)%nat → powerTable !! i = Some (10 ^ Z.of_nat i).
Proof.
  intros Hi. unfold powerTable. rewrite list_lookup_fmap, lookup_seq_lt by lia. done.
Qed.

Lemma log10Ceil_spec v :
  0 < v ≤ 10 ^ 29 →
  0 ≤ log10Ceil v ≤ 29 ∧ v ≤ 10 ^ log10Ceil v ∧
  (log10Ceil v = 0 ∨ 10 ^ (log10Ceil v - 1) < v).
Proof.
  intros Hv. unfold log10Ceil.
  destruct (lower_bound_spec powerTable v) as (Hlt & Hge & Hlen).
  assert (lower_bound powerTable v < 30)%nat as Hb.
  { destruct (decide (lower_bound powerTable v = 30%nat)) as [E|]; [|change (length powerTable) with 30%nat in *; lia].
    specialize (Hlt 29%nat (10 ^ 29) ltac:(lia)).
    rewrite powerTable_lookup in Hlt by lia. specialize (Hlt eq_refl). lia. }
  split_and!; [lia|lia| |].
  - apply Hge. by apply powerTable_lookup.
  - destruct (lower_bound powerTable v) as [|i] eqn:E; [by left|right].
    replace (Z.of_nat (S i) - 1) with (Z.of_nat i) by lia.
    apply (Hlt i); [lia|]. apply powerTable_lookup. lia.
Qed.

Lemma fl64_eq : fl64 = 18.
Proof. reflexivity. Qed.

Lemma power_at_eq i : 0 ≤ i < 30 → power_at i = 10 ^ i.
Proof.
  intros Hi. unfold power_at. pose proof (powerTable_lookup (Z.to_nat i)) as H.
  rewrite Z2Nat.id in H by lia. specialize (H ltac:(lia)).
  by apply nth_lookup_Some with (d := 0) in H.
Qed.

(** How far [mulRatio] extends a quotient. *)
Definition growth (low : Z) : Z := Z.max 0 (18 - log10Ceil low).

Lemma growth_spec low :
  0 < low < 10 ^ 29 →
  0 ≤ growth low ≤ 18 ∧ 10 ^ 17 ≤ low * 10 ^ growth low ∧
  (low + 1) * 10 ^ growth low ≤ 10 ^ 29.
Proof.
  intros Hlow. destruct (log10Ceil_spec low) as (Hc & Hcu & Hcl); [lia|].
  unfold growth. set (c := log10Ceil low) in *. split; [lia|].
  destruct (Z.le_gt_cases 18 c) as [H18|H18].
  - rewrite Z.max_l, Z.pow_0_r, Z.mul_1_r by lia. split; [|lia].
    pose proof (pow10_le 17 (c - 1)). lia.
  - rewrite Z.max_r by lia.
    assert (10 ^ 18 = 10 ^ c * 10 ^ (18 - c)) as Hsp
      by (rewrite <- pow10_split by lia; f_equal; lia).
    pose proof (pow10_pos (18 - c) ltac:(lia)).
    assert (low * 10 ^ (18 - c) ≤ 10 ^ 18)
      by (rewrite Hsp; apply Z.mul_le_mono_nonneg_r; lia).
    pose proof (pow10_le (18 - c) 18 ltac:(lia)).
    split; [|lia]. destruct (Z.eq_dec c 0) as [->|Hc0].
    + change (18 - 0) with 18. lia.
    + assert (10 ^ 17 = 10 ^ (c - 1) * 10 ^ (18 - c)) as ->
        by (rewrite <- pow10_split by lia; f_equal; lia).
      apply Z.mul_le_mono_nonneg_r; lia.
Qed.

Lemma grow_quotient_spec mul den e :
  10 ^ 15 ≤ mul < 2 ^ 95 → 0 < den < 2 ^ 32 → -1000 ≤ e ≤ 1000 →
  ∃ g low rem, grow_quotient mul den e = (low, rem, e - g) ∧
    0 ≤ g ≤ 18 ∧ 0 < low ≤ 10 ^ 29 ∧ 0 ≤ rem < den ∧
    low * den + rem = mul * 10 ^ g ∧ (rem = 0 ∨ 10 ^ 17 ≤ low).
Proof.
  intros Hmul Hden He. unfold grow_quotient. rewrite fl64_eq.
  pose proof (Z.div_mod mul den ltac:(lia)). pose proof (Z.mod_pos_bound mul den ltac:(lia)).
  assert (0 < mul / den < 10 ^ 29) as Hlow
    by (split; [apply Z.div_str_pos|apply Z.div_lt_upper_bound]; lia).
  set (low := mul / den) in *. rewrite (wrapu_id 128 (mul - low * den)) by wrap_solve.
  set (rem := mul - low * den). destruct (rem =? 0) eqn:E; zb; simpl.
  { exists 0, low, rem. rewrite Z.sub_0_r, Z.pow_0_r. split_and!; try lia; done. }
  destruct (growth_spec low Hlow) as (Hg & Hb1 & Hb2). set (g := growth low) in *.
  pose proof (pow10_pos g ltac:(lia)). assert (10 ^ g ≤ 10 ^ 18) by (apply pow10_le; lia).
  assert (0 < rem * 10 ^ g ≤ 2 ^ 32 * 10 ^ 18) as Hr by (split; [lia|apply Z.mul_le_mono_nonneg; lia]).
  pose proof (Z.div_mod (rem * 10 ^ g) den ltac:(lia)).
  pose proof (Z.mod_pos_bound (rem * 10 ^ g) den ltac:(lia)).
  assert (0 ≤ rem * 10 ^ g / den < 10 ^ g)
    by (split; [apply Z.div_pos|apply Z.div_lt_upper_bound]; nia).
  assert ((if 18 - log10Ceil low >? 0 then
      (u128 (low * power_at (18 - log10Ceil low)), u128 (rem * power_at (18 - log10Ceil low)),
       s32 (e - (18 - log10Ceil low)))
    else (low, rem, e)) = (low * 10 ^ g, rem * 10 ^ g, e - g)) as ->.
  { pose proof (eq_refl : g = Z.max 0 (18 - log10Ceil low)) as Hge.
    destruct (_ >? 0) eqn:Eg; zb.
    - rewrite power_at_eq by lia. replace (18 - log10Ceil low) with g by lia. by unwrap.
    - replace g with 0 by lia. by rewrite Z.pow_0_r, !Z.mul_1_r, Z.sub_0_r. }
  unwrap. exists g, (low * 10 ^ g + rem * 10 ^ g / den), (rem * 10 ^ g - rem * 10 ^ g / den * den).
  split_and!; [done|lia|lia|lia|lia|lia|lia| |lia].
  replace mul with (low * den + rem) by lia. ring.
Qed.

Lemma shrink_quotient_spec low rem e :
  0 < low ≤ 10 ^ 29 → -1000 ≤ e ≤ 1000 →
  ∃ s low' r', shrink_quotient low rem e = (low', e + s, negb (rem =? 0) || negb (r' =? 0)) ∧
    0 ≤ s ≤ 11 ∧ low = low' * 10 ^ s + r' ∧ 0 ≤ r' < 10 ^ s ∧
    0 < low' ≤ 10 ^ 18 ∧ (s = 0 ∨ 10 ^ 17 ≤ low').
Proof.
  intros Hlow He. unfold shrink_quotient. rewrite fl64_eq.
  destruct (log10Ceil_spec low) as (Hc & Hcu & Hcl); [lia|].
  set (c := log10Ceil low) in *. destruct (c - 18 >? 0) eqn:E; zb.
  - rewrite power_at_eq by lia. set (s := c - 18) in *.
    pose proof (pow10_pos s ltac:(lia)).
    pose proof (Z.div_mod low (10 ^ s) ltac:(lia)).
    pose proof (Z.mod_pos_bound low (10 ^ s) ltac:(lia)).
    assert (10 ^ 17 ≤ low / 10 ^ s).
    { apply Z.div_le_lower_bound; [lia|]. rewrite Z.mul_comm, <- pow10_split by lia.
      replace (17 + s) with (c - 1) by lia. lia. }
    assert (low / 10 ^ s ≤ 10 ^ 18).
    { apply Z.div_le_upper_bound; [lia|]. rewrite Z.mul_comm, <- pow10_split by lia.
      by replace (18 + s) with c by lia. }
    exists s, (low / 10 ^ s), (low mod 10 ^ s).
    replace (low - low / 10 ^ s * 10 ^ s) with (low mod 10 ^ s) by lia.
    assert (0 ≤ low mod 10 ^ s < 2 ^ 128) by lia. unwrap.
    split_and!; try lia. by destruct (rem =? 0).
  - exists 0, low, 0. rewrite Z.pow_0_r, Z.add_0_r, orb_false_r.
    assert (10 ^ c ≤ 10 ^ 18) by (apply pow10_le; lia). split_and!; try lia. done.
Qed.

(** [quotient_of mul den e low e']: [low * 10 ^ e'] is [mul * 10 ^ e / den] with
    the digits below [10 ^ e'] dropped. *)
Definition quotient_of (mul den e low e' : Z) : Prop :=
  ∀ k, k ≤ e → k ≤ e' →
    scaled k (low * den) e' ≤ scaled k mul e < scaled k ((low + 1) * den) e'.

Lemma quotient_spec mul den e :
  10 ^ 15 ≤ mul < 2 ^ 95 → 0 < den < 2 ^ 32 → -500 ≤ e ≤ 500 →
  ∃ low e' hasRem,
    (let '(low, rem, e) := grow_quotient mul den e in shrink_quotient low rem e) =
      (low, e', hasRem) ∧
    0 < low ≤ 10 ^ 18 ∧ -1000 ≤ e' ≤ 1000 ∧ quotient_of mul den e low e' ∧
    (if hasRem then 10 ^ 17 ≤ low
     else ∀ k, k ≤ e → k ≤ e' → scaled k (low * den) e' = scaled k mul e).
Proof.
  intros Hmul Hden He.
  destruct (grow_quotient_spec mul den e) as (g & low & rem & -> & Hg & Hlow & Hrem & Heq & Hor);
    [lia..|].
  destruct (shrink_quotient_spec low rem (e - g)) as
    (s & low' & r' & -> & Hs & Hl & Hr' & Hlow' & Hor'); [lia..|].
  exists low', (e - g + s), (negb (rem =? 0) || negb (r' =? 0)).
  pose proof (pow10_pos s ltac:(lia)).
  (* at the scale of the grown quotient, both sides are integers *)
  assert (scaled (e - g) mul e = low * den + rem) as Hm
    by (unfold scaled; rewrite Heq; do 2 f_equal; lia).
  assert (∀ x, scaled (e - g) x (e - g + s) = x * 10 ^ s) as Hx
    by (intros; unfold scaled; do 2 f_equal; lia).
  split_and!; [done|lia|lia|lia|lia| |].
  - intros k Hk1 Hk2. split.
    + apply (scaled_le_rescale (e - g) k); [lia..|]. rewrite Hm, Hx. nia.
    + apply (scaled_lt_rescale (e - g) k); [lia..|]. rewrite Hm, Hx. nia.
  - destruct (_ || _) eqn:Eh.
    + zb. destruct (Z.eq_dec s 0) as [->|]; [|lia].
      rewrite Z.pow_0_r in *. destruct Eh; zb; lia.
    + zb. intros k Hk1 Hk2.
      apply Z.le_antisymm; apply (scaled_le_rescale (e - g) k); try lia;
        rewrite Hm, Hx; nia.
Qed.

(** An upper bound on the scaled quotient is an upper bound on the exact one. *)
Lemma quotient_upper mul den e low e' (hasRem : bool) X ex k :
  0 < den → quotient_of mul den e low e' →
  (if hasRem then e' ≤ ex
   else ∀ k, k ≤ e → k ≤ e' → scaled k (low * den) e' = scaled k mul e) →
  (∀ k, k ≤ e' → k ≤ ex → scaled k low e' < scaled k X ex) →
  k ≤ e → k ≤ ex → scaled k mul e < scaled k (X * den) ex.
Proof.
  intros Hden Hq Hex Hlt Hk1 Hk2.
  apply (scaled_lt_rescale (Z.min k e') k); [lia..|].
  set (k' := Z.min k e'). specialize (Hlt k' ltac:(lia) ltac:(lia)).
  destruct hasRem.
  - eapply Z.lt_le_trans; [apply Hq; lia|]. rewrite !scaled_mul_r.
    apply Z.mul_le_mono_nonneg_r; [lia|]. apply scaled_succ_le; lia.
  - rewrite <- Hex by lia. rewrite !scaled_mul_r. by apply Z.mul_lt_mono_pos_r.
Qed.

Lemma quotient_lower mul den e low e' X ex k :
  0 < den → quotient_of mul den e low e' →
  (∀ k, k ≤ e' → k ≤ ex → scaled k X ex ≤ scaled k low e') →
  k ≤ e → k ≤ ex → scaled k (X * den) ex ≤ scaled k mul e.
Proof.
  intros Hden Hq Hle Hk1 Hk2.
  apply (scaled_le_rescale (Z.min k e') k); [lia..|].
  set (k' := Z.min k e'). eapply Z.le_trans; [|apply Hq; lia].
  rewrite !scaled_mul_r. apply Z.mul_le_mono_nonneg_r; [lia|]. apply Hle; lia.
Qed.

(** A quotient with at least 18 digits is not extended by [normalize]. *)
Lemma long_exponent low e m ex :
  10 ^ 17 ≤ low → m ≤ 10 * minMantissa → (∀ k, k ≤ e → k ≤ ex → scaled k low e < scaled k m ex) →
  e ≤ ex.
Proof.
  intros Hlow Hm Hlt. destruct (Z.le_gt_cases e ex) as [|Hgt]; [done|].
  specialize (Hlt ex ltac:(lia) ltac:(lia)). unfold scaled in Hlt.
  rewrite Z.sub_diag, Z.pow_0_r in Hlt. pose proof (pow10_ge1 (e - ex) ltac:(lia)).
  unfold minMantissa in *. nia.
Qed.

(** The result of [mulRatio] when it rounds toward zero. *)
Definition mulRatio_post (amt : t) (num den : Z) (r : t) : Prop :=
  let mul := Z.abs (mantissa_ amt) * num in
  canonical r ∧
  if decide (r = zero) then
    ∀ k, k ≤ exponent_ amt → k ≤ minExponent →
      scaled k mul (exponent_ amt) < scaled k (minMantissa * den) minExponent
  else
    Z.sgn (mantissa_ r) = Z.sgn (mantissa_ amt) ∧
    quotient_of mul den (exponent_ amt) (Z.abs (mantissa_ r)) (exponent_ r).

Lemma make_quotient_post amt num den low e' hasRem r :
  canonical amt → 0 < den → 0 < low ≤ 10 ^ 18 → -1000 ≤ e' ≤ 1000 →
  mantissa_ amt ≠ 0 →
  quotient_of (Z.abs (mantissa_ amt) * num) den (exponent_ amt) low e' →
  (if hasRem : bool then 10 ^ 17 ≤ low
   else ∀ k, k ≤ exponent_ amt → k ≤ e' →
     scaled k (low * den) e' = scaled k (Z.abs (mantissa_ amt) * num) (exponent_ amt)) →
  make (if mantissa_ amt <? 0 then - low else low) e' = Ok r →
  mulRatio_post amt num den r.
Proof.
  intros Ha Hden Hlow He' Ham Hq Hex Hr.
  set (x := if mantissa_ amt <? 0 then - low else low) in *.
  assert (Z.abs x = low ∧ Z.sgn x = Z.sgn (mantissa_ amt)) as [Hx1 Hx2].
  { subst x. destruct (mantissa_ amt <? 0) eqn:En; zb; lia. }
  pose proof (normalize_spec x e' ltac:(wrap_solve) ltac:(lia) ltac:(wrap_solve)) as Hn.
  unfold make in Hr. rewrite Hr in Hn. simpl in Hn.
  unfold mulRatio_post. case_decide as Hr0.
  - destruct Hn as [-> [?|Hs]]; [lia|]. rewrite decide_True by done. split; [by left|].
    unfold too_small in Hs. rewrite Hx1 in Hs. intros k Hk1 Hk2.
    apply (quotient_upper _ _ _ low e' hasRem); [done|done| |done|done|done].
    destruct hasRem; [|done]. by apply (long_exponent low _ minMantissa).
  - destruct Hn as (Hc & Hsgn & Ht). rewrite decide_False by (intros ->; done).
    rewrite Hx1 in Ht. split_and!; [done|lia|]. intros k Hk1 Hk2. split.
    + apply (quotient_lower _ _ _ low e'); [done|done| |done|done]. intros. by apply Ht.
    + apply (quotient_upper _ _ _ low e' hasRem); [done|done| | |done|done].
      * destruct hasRem; [|done].
        apply (long_exponent low _ (Z.abs (mantissa_ r) + 1)); [done| |].
        { destruct Hc as [->|[? _]]; [done|]. unfold minMantissa, maxMantissa in *. lia. }
        intros. by apply Ht.
      * intros. by apply Ht.
Qed.

Lemma canonical_mantissa amt :
  canonical amt →
  Z.abs (mantissa_ amt) ≤ maxMantissa ∧
  (mantissa_ amt = 0 ∨ minMantissa ≤ Z.abs (mantissa_ amt)).
Proof.
  unfold canonical, zero, maxMantissa. intros [->|?]; simpl; lia.
Qed.

Lemma zero_quotient den e : shrink_quotient 0 0 e = (0, e, false) ∧
  grow_quotient 0 den e = (0, 0, e).
Proof. done. Qed.

Lemma mulRatio_post_zero amt num den :
  canonical amt → 0 < den → Z.abs (mantissa_ amt) * num = 0 →
  mulRatio_post amt num den zero.
Proof.
  intros Ha Hden H0. unfold mulRatio_post. rewrite H0. split; [by left|].
  rewrite decide_True by done. intros k _ Hk.
  change (scaled k 0 (exponent_ amt)) with 0. rewrite scaled_mul_r.
  pose proof (scaled_sgn k minMantissa minExponent Hk). unfold minMantissa in *. lia.
Qed.

(** C23: rounding toward zero (down for a positive amount, up for a negative
    one), [mulRatio] returns [amt * num / den] with exactly the digits below
    the last place of the result dropped: the 128-bit intermediate product, the
    growth by [roomToGrow] digits, the shrinking by [mustShrink] digits and
    [normalize] lose nothing else. It returns zero only for quotients below
    the smallest amount. *)
Theorem mulRatio_truncates amt num den r :
  canonical amt → 0 ≤ num < 2 ^ 32 → 0 < den < 2 ^ 32 →
  mulRatio amt num den (mantissa_ amt <? 0) = Ok r → mulRatio_post amt num den r.
Proof.
  intros Ha Hnum Hden Hr. unfold mulRatio in Hr. rewrite (proj2 (Z.eqb_neq den 0)) in Hr by lia.
  pose proof (canonical_exponent amt Ha) as He. destruct (canonical_mantissa amt Ha) as [Hm Hm0].
  unfold minMantissa, maxMantissa, maxExponent in *.
  assert ((if mantissa_ amt <? 0 then s64 (- mantissa_ amt) else mantissa_ amt) =
    Z.abs (mantissa_ amt)) as Eabs by (destruct (_ <? 0) eqn:E; zb; unwrap; lia).
  rewrite Eabs in Hr. rewrite wrapu_id in Hr by (unfold is_unsigned; nia).
  destruct (Z.eq_dec (Z.abs (mantissa_ amt) * num) 0) as [H0|H0].
  - rewrite H0 in Hr. destruct (zero_quotient den (exponent_ amt)) as [Hs Hg].
    rewrite Hg, Hs in Hr. assert (r = zero) as ->; [|apply mulRatio_post_zero; [done|lia|done]].
    by destruct (mantissa_ amt <? 0); injection Hr as <-.
  - destruct (quotient_spec (Z.abs (mantissa_ amt) * num) den (exponent_ amt)) as
      (low & e' & hasRem & Hq & Hlow & He' & Hquo & Hex); [nia|lia|lia|].
    destruct (grow_quotient _ _ _) as [[low0 rem0] e0]. rewrite Hq in Hr.
    rewrite (wraps_id 64 low), (wraps_id 64 (low * -1)) in Hr by wrap_solve.
    apply bind_ok in Hr as (r0 & Hr0 & Hr).
    replace (low * -1) with (- low) in Hr0 by lia.
    assert (r0 = r) as -> by (destruct (mantissa_ amt <? 0), hasRem; simpl in Hr; congruence).
    apply (make_quotient_post amt num den low e' hasRem); try done; lia.
Qed.

Lemma mulRatio_truncates_witness :
  canonical (mk 1000000000000001 0) ∧
  mulRatio (mk 1000000000000001 0) 1 3 (mantissa_ (mk 1000000000000001 0) <? 0) =
    Ok (mk 3333333333333336 (-1)) ∧
  mulRatio_post (mk 1000000000000001 0) 1 3 (mk 3333333333333336 (-1)).
Proof.
  split_and!; [by apply (bool_decide_unpack _)|reflexivity|].
  apply (mulRatio_truncates (mk 1000000000000001 0) 1 3);
    [by apply (bool_decide_unpack _)|lia|lia|reflexivity].
Defined.

(** Rounding up is not always up.  When the extended quotient is exact
    ([hasRem] is false) but longer than 16 digits, the digits that
    [normalize] drops are not seen by the rounding step: an eighth of
    1000000000000001, rounded up, is below the exact quotient. *)
Theorem mulRatio_roundUp_below_exact :
  let amt := mk 1000000000000001 0 in
  let r := mk 1250000000000001 (-1) in
  mulRatio amt 1 8 true = Ok r ∧
  scaled (-1) (mantissa_ r * 8) (exponent_ r) < scaled (-1) (mantissa_ amt * 1) (exponent_ amt).
Proof. split; [reflexivity|]. apply (bool_decide_unpack _). by vm_compute. Qed.

Lemma normalize_correct_witness :
  (normalize (mk (-123456789012345678) 3) = Ok zero ↔ too_small (-123456789012345678) 3) ∧
  normalize (mk (-123456789012345678) 3) = Ok (mk (-1234567890123456) 5).
Proof.
  split; [|reflexivity].
  apply (normalize_correct (-123456789012345678) 3); unfold is_signed; lia.
Defined.

Lemma compare_correct_witness :
  ltb (mk 9999999999999999 2) (mk 1000000000000000 3) = true ∧
  scaled (-5) 9999999999999999 2 < scaled (-5) 1000000000000000 3.
Proof.
  split; [reflexivity|].
  apply (compare_correct (mk 9999999999999999 2) (mk 1000000000000000 3) (-5));
    by apply (bool_decide_unpack _).
Defined.

End IOUAmount.
