(* ===== verification/Serializer.v ===== *)
(** * Serializer: writing the binary wire format

    Models the writing half of [protocol/Serializer.h] and
    [protocol/impl/Serializer.cpp].  A byte is a [Z] below 256.  [Serializer] owns
    the bytes appended so far; every [add] operation of the source returns the
    offset at which it wrote. *)

From S2P Require Import Prelude.

(** ** Big-endian integers *)

Fixpoint be_bytes (n : nat) (x : Z) : list Z :=
  match n with
  | O => []
  | S n => (Z.shiftr x (8 * Z.of_nat n)) mod 256 :: be_bytes n x
  end.

Definition be_val (l : list Z) : Z := foldl (λ acc b, acc * 256 + b) 0 l.

Definition is_byte (b : Z) : Prop := 0 ≤ b < 256.

Module Serializer.

(** [mData] *)
Record t := mk { mData : list Z }.

(** Every [add] operation: the new serializer and the old size. *)
Definition push (s : t) (l : list Z) : t * Z :=
  (mk (mData s ++ l), Z.of_nat (length (mData s))).

Definition addZeros (s : t) (uBytes : nat) : t * Z := push s (replicate uBytes 0).

Definition add8 (s : t) (byte : Z) : t * Z := push s [byte].

Definition add16 (s : t) (i : Z) : t * Z :=
  push s [u8 (Z.shiftr i 8); u8 (Z.land i 255)].

Definition add32 (s : t) (i : Z) : t * Z :=
  push s [u8 (Z.shiftr i 24); u8 (Z.land (Z.shiftr i 16) 255);
          u8 (Z.land (Z.shiftr i 8) 255); u8 (Z.land i 255)].

Definition add64 (s : t) (i : Z) : t * Z :=
  push s [u8 (Z.shiftr i 56); u8 (Z.land (Z.shiftr i 48) 255);
          u8 (Z.land (Z.shiftr i 40) 255); u8 (Z.land (Z.shiftr i 32) 255);
          u8 (Z.land (Z.shiftr i 24) 255); u8 (Z.land (Z.shiftr i 16) 255);
          u8 (Z.land (Z.shiftr i 8) 255); u8 (Z.land i 255)].

(** [addBitString<Bits>], with [add128], [add160] and [add256] as its instances:
    a [base_uint] stores its value in big-endian order. *)
Definition addBitString (bits : nat) (s : t) (v : Z) : t * Z :=
  push s (be_bytes (bits / 8) v).

Definition add128 := addBitString 128.
Definition add160 := addBitString 160.
Definition add256 := addBitString 256.

Definition addRaw (s : t) (vector : list Z) : t * Z := push s vector.

Definition addFieldID (s : t) (type name : Z) : t * Z :=
  if type <? 16 then
    if name <? 16 then push s [u8 (Z.lor (Z.shiftl type 4) name)]
    else push s [u8 (Z.shiftl type 4); u8 name]
  else if name <? 16 then push s [u8 name; u8 type]
  else push s [0; u8 type; u8 name].

(** [get8 (int& byte, int offset)] of the assembled data *)
Definition get8 (s : t) (offset : Z) : option Z :=
  if u64 offset >=? Z.of_nat (length (mData s)) then None
  else mData s !! Z.to_nat offset.

Definition chop (s : t) (bytes : Z) : option t :=
  if u64 bytes >? Z.of_nat (length (mData s)) then None
  else Some (mk (take (length (mData s) - Z.to_nat bytes) (mData s))).

Definition getRaw (s : t) (offset length : Z) : option (list Z) :=
  if u64 (offset + length) >? Z.of_nat (base.length (mData s)) then None
  else Some (take (Z.to_nat length) (drop (Z.to_nat offset) (mData s))).

(** [getInteger<Integer>], for an integer type of [bytes] bytes: the result is
    shifted and or-ed at the type's width. *)
Definition getInteger (bytes : nat) (s : t) (offset : Z) : option Z :=
  if u64 (offset + Z.of_nat bytes) >? Z.of_nat (length (mData s)) then None
  else Some (foldl (λ number b, Z.lor (wrapu (8 * Z.of_nat bytes) (Z.shiftl number 8)) b) 0
    (take bytes (drop (Z.to_nat offset) (mData s)))).

(** [getBitString<Bits>]; [get160] and [get256] are its instances. *)
Definition getBitString (bits : nat) (s : t) (offset : Z) : option Z :=
  if u64 (offset + Z.of_nat (bits / 8)) <=? Z.of_nat (length (mData s))
  then Some (be_val (take (bits / 8) (drop (Z.to_nat offset) (mData s))))
  else None.

Definition get160 := getBitString 160.
Definition get256 := getBitString 256.

Definition erase (s : t) : t := mk [].

(** *** Variable length prefixes *)

Definition encodeLengthLength (length : Z) : result Z :=
  if length <? 0 then Throw (overflow_error "len<0")
  else if length <=? 192 then Ok 1
  else if length <=? 12480 then Ok 2
  else if length <=? 918744 then Ok 3
  else Throw (overflow_error "len>918744").

Definition decodeLengthLength (b1 : Z) : result Z :=
  if b1 <? 0 then Throw (overflow_error "b1<0")
  else if b1 <=? 192 then Ok 1
  else if b1 <=? 240 then Ok 2
  else if b1 <=? 254 then Ok 3
  else Throw (overflow_error "b1>254").

Definition decodeVLLength1 (b1 : Z) : result Z :=
  if b1 <? 0 then Throw (overflow_error "b1<0")
  else if b1 >? 254 then Throw (overflow_error "b1>254")
  else Ok b1.

Definition decodeVLLength2 (b1 b2 : Z) : result Z :=
  if b1 <? 193 then Throw (overflow_error "b1<193")
  else if b1 >? 240 then Throw (overflow_error "b1>240")
  else Ok (193 + (b1 - 193) * 256 + b2).

Definition decodeVLLength3 (b1 b2 b3 : Z) : result Z :=
  if b1 <? 241 then Throw (overflow_error "b1<241")
  else if b1 >? 254 then Throw (overflow_error "b1>254")
  else Ok (12481 + (b1 - 241) * 65536 + b2 * 256 + b3).

Definition addEncoded (s : t) (length : Z) : result (t * Z) :=
  if length <=? 192 then Ok (addRaw s [u8 length])
  else if length <=? 12480 then
    let length := length - 193 in
    Ok (addRaw s [u8 (193 + u8 (Z.shiftr length 8)); u8 (Z.land length 255)])
  else if length <=? 918744 then
    let length := length - 12481 in
    Ok (addRaw s [u8 (241 + u8 (Z.shiftr length 16));
                  u8 (Z.land (Z.shiftr length 8) 255); u8 (Z.land length 255)])
  else Throw (overflow_error "lenlen").

Definition addVL (s : t) (vector : list Z) : result (t * Z) :=
  '(s, ret) ← addEncoded s (s32 (Z.of_nat (length vector)));
  Ok ((addRaw s vector).1, ret).

(** The length prefix at [offset]: [Ok None] when the source returns [false],
    otherwise the length of the prefix, the data length and the offset after the
    prefix.  [decodeLengthLength] runs before the [try], so its exception is not
    turned into [false]. *)
Definition getPrefix (s : t) (offset : Z) : result (option (Z * Z * Z)) :=
  match get8 s offset with
  | None => Ok None
  | Some b1 =>
      let offset := offset + 1 in
      lenLen ← decodeLengthLength b1;
      let guarded (d : result Z) (offset : Z) : result (option (Z * Z * Z)) :=
        match d with
        | Throw _ => Ok None
        | Ok datLen => Ok (Some (lenLen, datLen, offset))
        end in
      if lenLen =? 1 then guarded (decodeVLLength1 b1) offset
      else if lenLen =? 2 then
        match get8 s offset with
        | None => Ok None
        | Some b2 => guarded (decodeVLLength2 b1 b2) (offset + 1)
        end
      else if lenLen =? 3 then
        match get8 s offset with
        | None => Ok None
        | Some b2 =>
            match get8 s (offset + 1) with
            | None => Ok None
            | Some b3 => guarded (decodeVLLength3 b1 b2 b3) (offset + 2)
            end
        end
      else Ok None
  end.

(** [getVL (Blob& objectVL, int offset, int& length)]: the blob and [length]. *)
Definition getVL (s : t) (offset : Z) : result (option (list Z * Z)) :=
  p ← getPrefix s offset;
  match p with
  | None => Ok None
  | Some (lenLen, datLen, offset) =>
      match getRaw s offset datLen with
      | None => Ok None
      | Some o => Ok (Some (o, lenLen + datLen))
      end
  end.

(** [getVLLength (int& length, int offset)] *)
Definition getVLLength (s : t) (offset : Z) : result (option Z) :=
  p ← getPrefix s offset;
  Ok (match p with None => None | Some (_, datLen, _) => Some datLen end).

End Serializer.

(** ** Byte-level lemmas *)

Lemma be_val_acc l a : foldl (λ acc b, acc * 256 + b) a l = a * 256 ^ Z.of_nat (length l) + be_val l.
Proof.
  unfold be_val. revert a. induction l as [|b l IH]; intros a; simpl; [lia|].
  rewrite (IH (a * 256 + b)), (IH (0 * 256 + b)). rewrite Nat2Z.inj_succ, Z.pow_succ_r by lia. lia.
Qed.

Lemma be_val_cons b l : be_val (b :: l) = b * 256 ^ Z.of_nat (length l) + be_val l.
Proof. unfold be_val at 1. simpl. by rewrite be_val_acc. Qed.

Lemma length_be_bytes n x : length (be_bytes n x) = n.
Proof. induction n; simpl; congruence. Qed.

Lemma be_bytes_byte n x : Forall is_byte (be_bytes n x).
Proof.
  induction n; simpl; constructor; [|done]. unfold is_byte.
  apply Z.mod_pos_bound. lia.
Qed.

Lemma be_val_be_bytes n x : be_val (be_bytes n x) = x mod 256 ^ Z.of_nat n.
Proof.
  induction n as [|n IH]; simpl; [by rewrite Z.mod_1_r|].
  rewrite be_val_cons, length_be_bytes, IH, Z.shiftr_div_pow2 by lia.
  replace (2 ^ (8 * Z.of_nat n)) with (256 ^ Z.of_nat n)
    by (by rewrite Z.pow_mul_r by lia).
  rewrite Nat2Z.inj_succ, Z.pow_succ_r, (Z.mul_comm 256) by lia.
  rewrite Z.rem_mul_r by lia. lia.
Qed.

Lemma be_bytes_small n x : 0 ≤ x < 256 ^ Z.of_nat n → be_val (be_bytes n x) = x.
Proof. intros. rewrite be_val_be_bytes. by apply Z.mod_small. Qed.

Lemma be_val_bound l : Forall is_byte l → 0 ≤ be_val l < 256 ^ Z.of_nat (length l).
Proof.
  induction 1 as [|b l Hb Hl IH]; [done|].
  rewrite be_val_cons. simpl length. rewrite Nat2Z.inj_succ, Z.pow_succ_r by lia.
  unfold is_byte in Hb. nia.
Qed.

(** The bytes of [x] only depend on [x] modulo their number. *)
Lemma be_bytes_low n x y : x mod 256 ^ Z.of_nat n = y mod 256 ^ Z.of_nat n → be_bytes n x = be_bytes n y.
Proof.
  induction n as [|n IH]; intros E; [done|]. cbn [be_bytes].
  rewrite Nat2Z.inj_succ, Z.pow_succ_r in E by lia. rewrite (Z.mul_comm 256) in E.
  assert (0 < 256 ^ Z.of_nat n) by (apply Z.pow_pos_nonneg; lia).
  rewrite !Z.rem_mul_r in E by lia.
  assert (x mod 256 ^ Z.of_nat n = y mod 256 ^ Z.of_nat n) as E'.
  { apply (f_equal (λ z, z mod 256 ^ Z.of_nat n)) in E.
    by rewrite !(Z.mul_comm (256 ^ Z.of_nat n)), !Z.mod_add, !Z.mod_mod in E by lia. }
  rewrite !Z.shiftr_div_pow2 by lia. rewrite (Z.pow_mul_r 2 8) by lia. change (2 ^ 8) with 256.
  f_equal; [nia|by apply IH].
Qed.

Lemma be_bytes_be_val l : Forall is_byte l → be_bytes (length l) (be_val l) = l.
Proof.
  induction 1 as [|b l Hb Hl IH]; [done|]. cbn [length be_bytes]. rewrite be_val_cons.
  pose proof (be_val_bound l Hl). rewrite Z.shiftr_div_pow2 by lia. rewrite (Z.pow_mul_r 2 8) by lia.
  change (2 ^ 8) with 256. rewrite Z.div_add_l, Z.div_small, Z.add_0_r by lia. f_equal.
  - apply Z.mod_small. exact Hb.
  - etransitivity; [|exact IH]. apply be_bytes_low. rewrite Z.add_comm, Z.mod_add by lia. done.
Qed.

Lemma u8_land x : u8 (Z.land x 255) = x mod 256.
Proof.
  change 255 with (Z.ones 8). rewrite Z.land_ones by lia.
  unfold wrapu. by rewrite Z.mod_mod.
Qed.

(** The explicit shifts of [add16], [add32] and [add64] are [be_bytes]. *)
Lemma add16_bytes s i : Serializer.add16 s i = Serializer.push s (be_bytes 2 i).
Proof. unfold Serializer.add16. by rewrite u8_land. Qed.
Lemma add32_bytes s i : Serializer.add32 s i = Serializer.push s (be_bytes 4 i).
Proof. unfold Serializer.add32. by rewrite !u8_land. Qed.
Lemma add64_bytes s i : Serializer.add64 s i = Serializer.push s (be_bytes 8 i).
Proof. unfold Serializer.add64. by rewrite !u8_land. Qed.
