(* ===== verification/SerialIter.v ===== *)
(** * SerialIter: reading the binary wire format

    Models the class [SerialIter] of [protocol/Serializer.h] and
    [protocol/impl/Serializer.cpp], a cursor over a byte buffer whose getters
    throw when the buffer is exhausted, and proves it inverse to [Serializer]. *)

From S2P Require Import Prelude Serializer.

Module SerialIter.

(** The buffer and the number of bytes consumed; [p_] is [drop used_ buf] and
    [remain_] the rest of the length. *)
Record t := mk { buf : list Z; used_ : nat }.

Definition p_ (it : t) : list Z := drop (used_ it) (buf it).
Definition remain_ (it : t) : nat := (length (buf it) - used_ it)%nat.

Definition of_slice (l : list Z) : t := mk l 0.
Definition empty (it : t) : bool := (remain_ it =? 0)%nat.
Definition reset (it : t) : t := mk (buf it) 0.

(** Advance by [n] bytes, returning them, or throw. *)
Definition getRawHelper (what : string) (n : nat) (it : t) : result (list Z * t) :=
  if (remain_ it <? n)%nat then Throw (runtime_error what)
  else Ok (take n (p_ it), mk (buf it) (used_ it + n)).

Definition skip (n : nat) (it : t) : result t :=
  '(_, it) ← getRawHelper "invalid SerialIter skip" n it; Ok it.

Definition get8 (it : t) : result (Z * t) :=
  '(l, it) ← getRawHelper "invalid SerialIter get8" 1 it; Ok (nth 0 l 0, it).

Definition get16 (it : t) : result (Z * t) :=
  '(l, it) ← getRawHelper "invalid SerialIter get16" 2 it;
  Ok (u16 (Z.shiftl (nth 0 l 0) 8 + nth 1 l 0), it).

Definition get32 (it : t) : result (Z * t) :=
  '(l, it) ← getRawHelper "invalid SerialIter get32" 4 it;
  Ok (u32 (Z.shiftl (nth 0 l 0) 24 + Z.shiftl (nth 1 l 0) 16 +
           Z.shiftl (nth 2 l 0) 8 + nth 3 l 0), it).

Definition get64 (it : t) : result (Z * t) :=
  '(l, it) ← getRawHelper "invalid SerialIter get64" 8 it;
  Ok (u64 (Z.shiftl (nth 0 l 0) 56 + Z.shiftl (nth 1 l 0) 48 +
           Z.shiftl (nth 2 l 0) 40 + Z.shiftl (nth 3 l 0) 32 +
           Z.shiftl (nth 4 l 0) 24 + Z.shiftl (nth 5 l 0) 16 +
           Z.shiftl (nth 6 l 0) 8 + nth 7 l 0), it).

Definition getBitString (bits : nat) (it : t) : result (Z * t) :=
  '(l, it) ← getRawHelper "invalid SerialIter getBitString" (bits / 8) it;
  Ok (be_val l, it).

Definition get128 := getBitString 128.
Definition get160 := getBitString 160.
Definition get256 := getBitString 256.

Definition getFieldID (it : t) : result (Z * Z * t) :=
  '(b, it) ← get8 it;
  let name := Z.land b 15 in
  let type := Z.shiftr b 4 in
  '(type, it) ←
    (if type =? 0 then
       '(type, it) ← get8 it;
       if (type =? 0) || (type <? 16)
       then Throw (runtime_error "gFID: uncommon type out of range")
       else Ok (type, it)
     else Ok (type, it));
  '(name, it) ←
    (if name =? 0 then
       '(name, it) ← get8 it;
       if (name =? 0) || (name <? 16)
       then Throw (runtime_error "gFID: uncommon name out of range")
       else Ok (name, it)
     else Ok (name, it));
  Ok (type, name, it).

Definition getRaw (size : nat) (it : t) : result (list Z * t) :=
  getRawHelper "invalid SerialIter getRaw" size it.

Definition getVLDataLength (it : t) : result (Z * t) :=
  '(b1, it) ← get8 it;
  lenLen ← Serializer.decodeLengthLength b1;
  if lenLen =? 1 then
    datLen ← Serializer.decodeVLLength1 b1; Ok (datLen, it)
  else if lenLen =? 2 then
    '(b2, it) ← get8 it;
    datLen ← Serializer.decodeVLLength2 b1 b2; Ok (datLen, it)
  else
    '(b2, it) ← get8 it;
    '(b3, it) ← get8 it;
    datLen ← Serializer.decodeVLLength3 b1 b2 b3; Ok (datLen, it).

Definition getSlice (bytes : nat) (it : t) : result (list Z * t) :=
  getRawHelper "invalid SerialIter getSlice" bytes it.

Definition getVL (it : t) : result (list Z * t) :=
  '(n, it) ← getVLDataLength it; getRaw (Z.to_nat n) it.

End SerialIter.

(** [it] stands at the bytes [l], with [rest] after them. *)
Definition cursor (pre l : list Z) : SerialIter.t := SerialIter.mk (pre ++ l) (length pre).

Lemma p_cursor pre l : SerialIter.p_ (cursor pre l) = l.
Proof. apply drop_app_length. Qed.

Lemma remain_cursor pre l : SerialIter.remain_ (cursor pre l) = length l.
Proof. unfold SerialIter.remain_. simpl. rewrite length_app. lia. Qed.

Lemma getRawHelper_cursor what pre l rest n :
  length l = n →
  SerialIter.getRawHelper what n (cursor pre (l ++ rest)) = Ok (l, cursor (pre ++ l) rest).
Proof.
  intros <-. unfold SerialIter.getRawHelper. rewrite remain_cursor, p_cursor, length_app.
  rewrite (proj2 (Nat.ltb_ge _ _)) by lia.
  rewrite take_app_length. unfold cursor. simpl. by rewrite <- app_assoc, length_app.
Qed.

Lemma get8_cursor pre b rest :
  SerialIter.get8 (cursor pre (b :: rest)) = Ok (b, cursor (pre ++ [b]) rest).
Proof. unfold SerialIter.get8. by rewrite (getRawHelper_cursor _ pre [b] rest 1). Qed.

Lemma get_int_cursor pre i rest :
  SerialIter.get16 (cursor pre (be_bytes 2 i ++ rest)) = Ok (u16 i, cursor (pre ++ be_bytes 2 i) rest) ∧
  SerialIter.get32 (cursor pre (be_bytes 4 i ++ rest)) = Ok (u32 i, cursor (pre ++ be_bytes 4 i) rest) ∧
  SerialIter.get64 (cursor pre (be_bytes 8 i ++ rest)) = Ok (u64 i, cursor (pre ++ be_bytes 8 i) rest).
Proof.
  pose proof (be_val_be_bytes 2 i) as H2. pose proof (be_val_be_bytes 4 i) as H4.
  pose proof (be_val_be_bytes 8 i) as H8.
  unfold SerialIter.get16, SerialIter.get32, SerialIter.get64.
  rewrite !getRawHelper_cursor by apply length_be_bytes. simpl.
  unfold be_val in *. simpl in *. rewrite !Z.shiftl_mul_pow2 by lia.
  unfold wrapu. change (256 ^ Z.of_nat 2) with (2 ^ 16) in H2.
  change (256 ^ Z.of_nat 4) with (2 ^ 32) in H4. change (256 ^ Z.of_nat 8) with (2 ^ 64) in H8.
  split_and!; do 2 f_equal.
  - rewrite <- (Z.mod_mod i (2 ^ 16)), <- H2 by lia. f_equal; lia.
  - rewrite <- (Z.mod_mod i (2 ^ 32)), <- H4 by lia. f_equal; lia.
  - rewrite <- (Z.mod_mod i (2 ^ 64)), <- H8 by lia. f_equal; lia.
Qed.

Lemma getBitString_cursor bits pre v rest :
  0 ≤ v < 256 ^ Z.of_nat (bits / 8) →
  SerialIter.getBitString bits (cursor pre (be_bytes (bits / 8) v ++ rest)) =
  Ok (v, cursor (pre ++ be_bytes (bits / 8) v) rest).
Proof.
  intros Hv. unfold SerialIter.getBitString.
  rewrite getRawHelper_cursor by apply length_be_bytes. simpl.
  by rewrite be_bytes_small.
Qed.

(** A cursor at the offset an [add] operation returned. *)
Lemma push_cursor s l rest :
  SerialIter.mk (Serializer.mData (Serializer.push s l).1 ++ rest)
    (Z.to_nat (Serializer.push s l).2) = cursor (Serializer.mData s) (l ++ rest).
Proof.
  unfold Serializer.push, cursor. simpl. by rewrite Nat2Z.id, <- app_assoc.
Qed.

(** *** Field identifiers *)

Definition field_bytes (type name : Z) : list Z :=
  if type <? 16 then
    if name <? 16 then [type * 16 + name] else [type * 16; name]
  else if name <? 16 then [name; type] else [0; type; name].

Lemma addFieldID_bytes s type name :
  0 < type < 256 → 0 < name < 256 →
  Serializer.addFieldID s type name = Serializer.push s (field_bytes type name).
Proof.
  intros Ht Hn. unfold Serializer.addFieldID, field_bytes.
  destruct (type <? 16) eqn:E1, (name <? 16) eqn:E2; zb.
  - rewrite Z.shiftl_mul_pow2, lor_high_low by lia. change (2 ^ 4) with 16. by unwrap.
  - rewrite Z.shiftl_mul_pow2 by lia. change (2 ^ 4) with 16. by unwrap.
  - by unwrap.
  - by unwrap.
Qed.

Lemma nibbles h l : 0 ≤ l < 16 → Z.land (h * 16 + l) 15 = l ∧ Z.shiftr (h * 16 + l) 4 = h.
Proof.
  intros Hl. split.
  - by apply (land_mask_low h l 4).
  - by apply (shiftr_high_low h l 4).
Qed.

Ltac eval_eqb := rewrite ?(proj2 (Z.eqb_neq _ _)), ?(proj2 (Z.ltb_ge _ _)) by lia; simpl.

Lemma getFieldID_cursor pre type name rest :
  0 < type < 256 → 0 < name < 256 →
  SerialIter.getFieldID (cursor pre (field_bytes type name ++ rest)) =
  Ok (type, name, cursor (pre ++ field_bytes type name) rest).
Proof.
  intros Ht Hn. unfold SerialIter.getFieldID, field_bytes.
  destruct (type <? 16) eqn:E1, (name <? 16) eqn:E2; zb; simpl;
    rewrite get8_cursor; simpl.
  - destruct (nibbles type name) as [-> ->]; [lia|]. by eval_eqb.
  - replace (type * 16) with (type * 16 + 0) by lia.
    destruct (nibbles type 0) as [-> ->]; [lia|].
    rewrite (proj2 (Z.eqb_neq type 0)) by lia. simpl. rewrite get8_cursor. simpl.
    eval_eqb. by rewrite <- app_assoc.
  - destruct (nibbles 0 name) as [Hl Hh]; [lia|].
    rewrite Z.mul_0_l, Z.add_0_l in Hl, Hh. rewrite Hl, Hh. simpl.
    rewrite get8_cursor. simpl. eval_eqb. by rewrite <- app_assoc.
  - rewrite get8_cursor. simpl.
    rewrite (proj2 (Z.eqb_neq type 0)), (proj2 (Z.ltb_ge type _)) by lia. simpl.
    rewrite get8_cursor. simpl. eval_eqb. by rewrite <- !app_assoc.
Qed.

Lemma get8_inv pre l b it :
  SerialIter.get8 (cursor pre l) = Ok (b, it) →
  ∃ rest, l = b :: rest ∧ it = cursor (pre ++ [b]) rest.
Proof.
  destruct l as [|b' rest].
  - unfold SerialIter.get8, SerialIter.getRawHelper. by rewrite remain_cursor.
  - rewrite get8_cursor. intros [= <- <-]. eauto.
Qed.

Lemma getFieldID_inv pre l type name it :
  Forall is_byte l → SerialIter.getFieldID (cursor pre l) = Ok (type, name, it) →
  0 < type < 256 ∧ 0 < name < 256 ∧
  ∃ rest, l = field_bytes type name ++ rest ∧ it = cursor (pre ++ field_bytes type name) rest.
Proof.
  intros Hl. unfold SerialIter.getFieldID. intros H.
  apply bind_ok in H as ([b it1] & H1 & H). apply get8_inv in H1 as (l1 & -> & ->).
  apply Forall_cons in Hl as [Hb Hl]. unfold is_byte in Hb.
  assert (b = b / 16 * 16 + b mod 16) as Eb by (pose proof (Z.div_mod b 16); lia).
  pose proof (Z.mod_pos_bound b 16). set (lo := b mod 16) in *. set (hi := b / 16) in *.
  destruct (nibbles hi lo) as [El Eh]; [lia|]. rewrite <- Eb in El, Eh.
  rewrite El, Eh in H. apply bind_ok in H as ([t it2] & H2 & H).
  apply bind_ok in H as ([n it3] & H3 & H). injection H as <- <- <-.
  unfold field_bytes.
  destruct (hi =? 0) eqn:Ehi, (lo =? 0) eqn:Elo; zb;
    repeat match goal with
    | H : _ ≫= _ = Ok _ |- _ => apply bind_ok in H as ([? ?] & ? & H)
    | H : SerialIter.get8 _ = Ok _ |- _ => apply get8_inv in H as (? & -> & ->)
    | H : Forall is_byte (_ :: _) |- _ => apply Forall_cons in H as [? H]
    | H : (if ?b then _ else _) = Ok _ |- _ => destruct b eqn:?; [done|]
    | H : Ok _ = Ok _ |- _ => injection H as <- <-
    end; zb; unfold is_byte in *; repeat case_if; zb; try lia;
    (split_and!; [lia..|]); eexists; rewrite <- ?app_assoc; simpl; split;
    repeat f_equal; first [reflexivity|lia].
Qed.

(** Field identifiers have a unique encoding. For type and name codes in
    1..255, [getFieldID] at the place [addFieldID] wrote returns the same codes
    and stands right after them; and every byte sequence that [getFieldID]
    accepts is the encoding [addFieldID] produces for the codes it returns, so
    no second spelling of a field is accepted. *)
Theorem fieldID_roundtrip s type name rest :
  0 < type < 256 → 0 < name < 256 →
  (let '(s', ret) := Serializer.addFieldID s type name in
   SerialIter.getFieldID (SerialIter.mk (Serializer.mData s' ++ rest) (Z.to_nat ret)) =
   Ok (type, name, cursor (Serializer.mData s') rest)) ∧
  (∀ pre l it, Forall is_byte l →
   SerialIter.getFieldID (cursor pre l) = Ok (type, name, it) →
   ∃ rest, l = drop (length (Serializer.mData s))
                 (Serializer.mData (Serializer.addFieldID s type name).1) ++ rest).
Proof.
  intros Ht Hn. rewrite addFieldID_bytes by done. split.
  - destruct (Serializer.push s (field_bytes type name)) as [s' ret] eqn:E.
    pose proof (push_cursor s (field_bytes type name) rest) as Hc. rewrite E in Hc.
    simpl in Hc. rewrite Hc, getFieldID_cursor by done.
    by injection E as <- <-.
  - intros pre l it Hl Hg. apply getFieldID_inv in Hg as (_ & _ & r & -> & _); [|done].
    exists r. unfold Serializer.push. simpl. by rewrite drop_app_length.
Qed.

Lemma fieldID_roundtrip_witness :
  let '(s', ret) := Serializer.addFieldID (Serializer.mk [7]) 8 17 in
  SerialIter.getFieldID (SerialIter.mk (Serializer.mData s' ++ [9]) (Z.to_nat ret)) =
  Ok (8, 17, cursor [7; 128; 17] [9]).
Proof. apply (fieldID_roundtrip (Serializer.mk [7]) 8 17 [9]); lia. Defined.

(** *** Variable length prefixes *)

Definition vl_bytes (len : Z) : list Z :=
  if len <=? 192 then [len]
  else if len <=? 12480 then [193 + (len - 193) / 256; (len - 193) mod 256]
  else [241 + (len - 12481) / 65536; (len - 12481) / 256 mod 256; (len - 12481) mod 256].

Lemma addEncoded_bytes s len :
  0 ≤ len ≤ 918744 → Serializer.addEncoded s len = Ok (Serializer.push s (vl_bytes len)).
Proof.
  intros Hlen. unfold Serializer.addEncoded, vl_bytes, Serializer.addRaw.
  destruct (len <=? 192) eqn:E1; zb; [by unwrap|].
  destruct (len <=? 12480) eqn:E2; zb.
  - rewrite u8_land, Z.shiftr_div_pow2 by lia. change (2 ^ 8) with 256.
    assert (0 ≤ (len - 193) / 256 < 48)
      by (split; [apply Z.div_pos|apply Z.div_lt_upper_bound]; lia).
    by unwrap.
  - rewrite (proj2 (Z.leb_le len 918744)) by lia.
    rewrite !u8_land, !Z.shiftr_div_pow2 by lia.
    change (2 ^ 8) with 256. change (2 ^ 16) with 65536.
    assert (0 ≤ (len - 12481) / 65536 < 14)
      by (split; [apply Z.div_pos|apply Z.div_lt_upper_bound]; lia).
    by unwrap.
Qed.

Lemma getVLDataLength_cursor pre len rest :
  0 ≤ len ≤ 918744 →
  SerialIter.getVLDataLength (cursor pre (vl_bytes len ++ rest)) =
  Ok (len, cursor (pre ++ vl_bytes len) rest).
Proof.
  intros Hlen. unfold SerialIter.getVLDataLength, vl_bytes.
  destruct (len <=? 192) eqn:E1; zb; [|destruct (len <=? 12480) eqn:E2; zb];
    simpl; rewrite get8_cursor; simpl;
    unfold Serializer.decodeLengthLength.
  - unfold Serializer.decodeVLLength1. repeat (case_if; zb; try lia; simpl). done.
  - unfold Serializer.decodeVLLength2.
    assert (0 ≤ (len - 193) / 256 < 48)
      by (split; [apply Z.div_pos|apply Z.div_lt_upper_bound]; lia).
    repeat (case_if; zb; try lia; simpl). rewrite get8_cursor. simpl.
    repeat (case_if; zb; try lia; simpl).
    pose proof (Z.div_mod (len - 193) 256). rewrite <- app_assoc. simpl.
    do 2 f_equal. lia.
  - unfold Serializer.decodeVLLength3.
    assert (0 ≤ (len - 12481) / 65536 < 14)
      by (split; [apply Z.div_pos|apply Z.div_lt_upper_bound]; lia).
    repeat (case_if; zb; try lia; simpl). rewrite get8_cursor. simpl.
    rewrite get8_cursor. simpl. repeat (case_if; zb; try lia; simpl).
    rewrite <- !app_assoc. simpl. do 2 f_equal.
    pose proof (Z.div_mod (len - 12481) 256). pose proof (Z.div_mod ((len - 12481) / 256) 256).
    rewrite Z.div_div in * by lia. change (256 * 256) with 65536 in *. lia.
Qed.

(** A blob of at most 918744 bytes written with [addVL] is read back by
    [getVL] and leaves the cursor right after it; a longer one (whose length is an
    [int]) is refused with [overflow_error] before anything is appended. *)
Theorem vl_roundtrip s blob rest :
  (Z.of_nat (length blob) ≤ 918744 →
   ∃ s' ret, Serializer.addVL s blob = Ok (s', ret) ∧
     SerialIter.getVL (SerialIter.mk (Serializer.mData s' ++ rest) (Z.to_nat ret)) =
     Ok (blob, cursor (Serializer.mData s') rest)) ∧
  (918744 < Z.of_nat (length blob) < 2 ^ 31 →
   Serializer.addVL s blob = Throw (overflow_error "lenlen")).
Proof.
  split; intros Hlen; unfold Serializer.addVL; unwrap.
  - rewrite addEncoded_bytes by lia. simpl. do 2 eexists. split; [done|].
    unfold SerialIter.getVL. simpl. rewrite Nat2Z.id, <- !app_assoc.
    fold (cursor (Serializer.mData s) (vl_bytes (Z.of_nat (length blob)) ++ blob ++ rest)).
    rewrite getVLDataLength_cursor by lia. simpl. rewrite Nat2Z.id.
    unfold SerialIter.getRaw. rewrite getRawHelper_cursor by done.
    by rewrite <- app_assoc.
  - unfold Serializer.addEncoded. by repeat (case_if; zb; try lia).
Qed.

(** Integers of 16, 32 and 64 bits and 128, 160 and 256 bit strings are read
    back as they were written, at the offset the writer returned. *)
Theorem integer_roundtrip s rest :
  (∀ i, is_unsigned 16 i → let '(s', ret) := Serializer.add16 s i in
     SerialIter.get16 (SerialIter.mk (Serializer.mData s' ++ rest) (Z.to_nat ret)) =
     Ok (i, cursor (Serializer.mData s') rest)) ∧
  (∀ i, is_unsigned 32 i → let '(s', ret) := Serializer.add32 s i in
     SerialIter.get32 (SerialIter.mk (Serializer.mData s' ++ rest) (Z.to_nat ret)) =
     Ok (i, cursor (Serializer.mData s') rest)) ∧
  (∀ i, is_unsigned 64 i → let '(s', ret) := Serializer.add64 s i in
     SerialIter.get64 (SerialIter.mk (Serializer.mData s' ++ rest) (Z.to_nat ret)) =
     Ok (i, cursor (Serializer.mData s') rest)) ∧
  (∀ bits v, 0 ≤ v < 256 ^ Z.of_nat (bits / 8) →
     let '(s', ret) := Serializer.addBitString bits s v in
     SerialIter.getBitString bits (SerialIter.mk (Serializer.mData s' ++ rest) (Z.to_nat ret)) =
     Ok (v, cursor (Serializer.mData s') rest)).
Proof.
  split_and!.
  - intros i Hi. rewrite add16_bytes. simpl. rewrite Nat2Z.id, <- app_assoc.
    destruct (get_int_cursor (Serializer.mData s) i rest) as (H & _ & _).
    unfold cursor in *. simpl in *. by rewrite H, wrapu_id.
  - intros i Hi. rewrite add32_bytes. simpl. rewrite Nat2Z.id, <- app_assoc.
    destruct (get_int_cursor (Serializer.mData s) i rest) as (_ & H & _).
    unfold cursor in *. simpl in *. by rewrite H, wrapu_id.
  - intros i Hi. rewrite add64_bytes. simpl. rewrite Nat2Z.id, <- app_assoc.
    destruct (get_int_cursor (Serializer.mData s) i rest) as (_ & _ & H).
    unfold cursor in *. simpl in *. by rewrite H, wrapu_id.
  - intros bits v Hv. unfold Serializer.addBitString. simpl.
    rewrite Nat2Z.id, <- app_assoc. by apply getBitString_cursor.
Qed.
