(* ===== verification/SField.v ===== *)
(** * SField: the fields of serialized objects

    Models [protocol/SField.h] and [protocol/impl/SField.cpp]: a field has a type and a
    number, which together are its code and its identifier in the binary format.  The
    fields the program names are registered under their codes; [getField] finds them, and
    makes up fields for the codes of known types that have no name. *)

From S2P Require Import Prelude.

(** ** Types *)

Definition STI_UNKNOWN : Z := -2.
Definition STI_NOTPRESENT : Z := 0.
Definition STI_UINT16 : Z := 1.
Definition STI_UINT32 : Z := 2.
Definition STI_UINT64 : Z := 3.
Definition STI_HASH128 : Z := 4.
Definition STI_HASH256 : Z := 5.
Definition STI_AMOUNT : Z := 6.
Definition STI_VL : Z := 7.
Definition STI_ACCOUNT : Z := 8.
Definition STI_OBJECT : Z := 14.
Definition STI_ARRAY : Z := 15.
Definition STI_UINT8 : Z := 16.
Definition STI_HASH160 : Z := 17.
Definition STI_PATHSET : Z := 18.
Definition STI_VECTOR256 : Z := 19.
Definition STI_VECTOR128 : Z := 20.
Definition STI_TRANSACTION : Z := 10001.
Definition STI_LEDGERENTRY : Z := 10002.
Definition STI_VALIDATION : Z := 10003.
Definition STI_METADATA : Z := 10004.

Definition field_code (id index : Z) : Z := Z.lor (Z.shiftl id 16) index.

(** When a field is part of the metadata of a transaction *)
Definition sMD_Never : Z := 0.
Definition sMD_ChangeOrig : Z := 1.
Definition sMD_ChangeNew : Z := 2.
Definition sMD_DeleteFinal : Z := 4.
Definition sMD_Create : Z := 8.
Definition sMD_Always : Z := 16.
Definition sMD_Default : Z :=
  Z.lor (Z.lor (Z.lor sMD_ChangeOrig sMD_ChangeNew) sMD_DeleteFinal) sMD_Create.

Module IsSigning.
Inductive t := no | yes | noAndNotHashed.

#[global] Instance t_eq_dec : EqDecision t.
Proof. solve_decision. Defined.
End IsSigning.

(** The number [fieldNum] in the order of construction is left out: it only indexes the
    tables of templates, where it matters whether the field was declared before them
    ([declared]). *)
Record SField := mkSField {
  fieldCode : Z;
  fieldType : Z;
  fieldValue : Z;
  fieldName : string;
  fieldMeta : Z;
  signingField : IsSigning.t
}.

#[global] Instance SField_eq_dec : EqDecision SField.
Proof. solve_decision. Defined.

Module SField.

(** The three constructors: a named field, a field that is only a code, and a field made
    up at run time.  The name of the last, its type and number in decimal, is left empty. *)
Definition named_meta (tid fv : Z) (fn : string) (meta : Z) (signing : IsSigning.t) : SField :=
  mkSField (field_code tid fv) tid fv fn meta signing.

Definition named (tid fv : Z) (fn : string) : SField := named_meta tid fv fn sMD_Default IsSigning.yes.

Definition code_only (fc : Z) : SField := mkSField fc STI_UNKNOWN 0 EmptyString sMD_Never IsSigning.yes.

Definition unnamed (tid fv : Z) : SField :=
  mkSField (field_code tid fv) tid fv EmptyString sMD_Default IsSigning.yes.

Definition isInvalid (f : SField) : bool := fieldCode f =? -1.
Definition isUseful (f : SField) : bool := fieldCode f >? 0.
Definition isBinary (f : SField) : bool := fieldValue f <? 256.
Definition isDiscardable (f : SField) : bool := fieldValue f >? 256.
Definition shouldMeta (f : SField) (c : Z) : bool := negb (Z.land (fieldMeta f) c =? 0).

Definition shouldInclude (f : SField) (withSigningField withNotHashedField : bool) : bool :=
  (fieldValue f <? 256) &&
  (withSigningField || bool_decide (signingField f = IsSigning.yes)) &&
  (withNotHashedField || negb (bool_decide (signingField f = IsSigning.noAndNotHashed))).

Definition eqb (f g : SField) : bool := fieldCode f =? fieldCode g.

Definition compare (f1 f2 : SField) : Z :=
  if (fieldCode f1 <=? 0) || (fieldCode f2 <=? 0) then 0
  else if fieldCode f1 <? fieldCode f2 then -1
  else if fieldCode f2 <? fieldCode f1 then 1
  else 0.

End SField.

(** ** The named fields *)

Definition sfInvalid : SField := SField.code_only (-1).
Definition sfGeneric : SField := SField.code_only (0).
Definition sfLedgerEntry : SField := SField.named STI_LEDGERENTRY 257 "LedgerEntry".
Definition sfTransaction : SField := SField.named STI_TRANSACTION 257 "Transaction".
Definition sfValidation : SField := SField.named STI_VALIDATION 257 "Validation".
Definition sfMetadata : SField := SField.named STI_METADATA 257 "Metadata".
Definition sfHash : SField := SField.named STI_HASH256 257 "hash".
Definition sfIndex : SField := SField.named STI_HASH256 258 "index".

(* 8-bit integers *)
Definition sfCloseResolution : SField := SField.named STI_UINT8 1 "CloseResolution".
Definition sfMethod : SField := SField.named STI_UINT8 2 "Method".
Definition sfTransactionResult : SField := SField.named STI_UINT8 3 "TransactionResult".

(* 8-bit integers (uncommon) *)
Definition sfTickSize : SField := SField.named STI_UINT8 16 "TickSize".

(* 16-bit integers *)
Definition sfLedgerEntryType : SField := SField.named_meta STI_UINT16 1 "LedgerEntryType" sMD_Never IsSigning.yes.
Definition sfTransactionType : SField := SField.named STI_UINT16 2 "TransactionType".
Definition sfSignerWeight : SField := SField.named STI_UINT16 3 "SignerWeight".

(* 32-bit integers (common) *)
Definition sfFlags : SField := SField.named STI_UINT32 2 "Flags".
Definition sfSourceTag : SField := SField.named STI_UINT32 3 "SourceTag".
Definition sfSequence : SField := SField.named STI_UINT32 4 "Sequence".
Definition sfPreviousTxnLgrSeq : SField := SField.named_meta STI_UINT32 5 "PreviousTxnLgrSeq" sMD_DeleteFinal IsSigning.yes.
Definition sfLedgerSequence : SField := SField.named STI_UINT32 6 "LedgerSequence".
Definition sfCloseTime : SField := SField.named STI_UINT32 7 "CloseTime".
Definition sfParentCloseTime : SField := SField.named STI_UINT32 8 "ParentCloseTime".
Definition sfSigningTime : SField := SField.named STI_UINT32 9 "SigningTime".
Definition sfExpiration : SField := SField.named STI_UINT32 10 "Expiration".
Definition sfTransferRate : SField := SField.named STI_UINT32 11 "TransferRate".
Definition sfWalletSize : SField := SField.named STI_UINT32 12 "WalletSize".
Definition sfOwnerCount : SField := SField.named STI_UINT32 13 "OwnerCount".
Definition sfDestinationTag : SField := SField.named STI_UINT32 14 "DestinationTag".
Definition sfKYCTime : SField := SField.named STI_UINT32 15 "Date".

(* 32-bit integers (uncommon) *)
Definition sfHighQualityIn : SField := SField.named STI_UINT32 16 "HighQualityIn".
Definition sfHighQualityOut : SField := SField.named STI_UINT32 17 "HighQualityOut".
Definition sfLowQualityIn : SField := SField.named STI_UINT32 18 "LowQualityIn".
Definition sfLowQualityOut : SField := SField.named STI_UINT32 19 "LowQualityOut".
Definition sfQualityIn : SField := SField.named STI_UINT32 20 "QualityIn".
Definition sfQualityOut : SField := SField.named STI_UINT32 21 "QualityOut".
Definition sfStampEscrow : SField := SField.named STI_UINT32 22 "StampEscrow".
Definition sfBondAmount : SField := SField.named STI_UINT32 23 "BondAmount".
Definition sfLoadFee : SField := SField.named STI_UINT32 24 "LoadFee".
Definition sfOfferSequence : SField := SField.named STI_UINT32 25 "OfferSequence".
Definition sfFirstLedgerSequence : SField := SField.named STI_UINT32 26 "FirstLedgerSequence".
Definition sfLastLedgerSequence : SField := SField.named STI_UINT32 27 "LastLedgerSequence".
Definition sfTransactionIndex : SField := SField.named STI_UINT32 28 "TransactionIndex".
Definition sfOperationLimit : SField := SField.named STI_UINT32 29 "OperationLimit".
Definition sfReferenceFeeUnits : SField := SField.named STI_UINT32 30 "ReferenceFeeUnits".
Definition sfReserveBase : SField := SField.named STI_UINT32 31 "ReserveBase".
Definition sfReserveIncrement : SField := SField.named STI_UINT32 32 "ReserveIncrement".
Definition sfSetFlag : SField := SField.named STI_UINT32 33 "SetFlag".
Definition sfClearFlag : SField := SField.named STI_UINT32 34 "ClearFlag".
Definition sfSignerQuorum : SField := SField.named STI_UINT32 35 "SignerQuorum".
Definition sfCancelAfter : SField := SField.named STI_UINT32 36 "CancelAfter".
Definition sfFinishAfter : SField := SField.named STI_UINT32 37 "FinishAfter".
Definition sfSignerListID : SField := SField.named STI_UINT32 38 "SignerListID".
Definition sfSettleDelay : SField := SField.named STI_UINT32 39 "SettleDelay".

(* 64-bit integers *)
Definition sfIndexNext : SField := SField.named STI_UINT64 1 "IndexNext".
Definition sfIndexPrevious : SField := SField.named STI_UINT64 2 "IndexPrevious".
Definition sfBookNode : SField := SField.named STI_UINT64 3 "BookNode".
Definition sfOwnerNode : SField := SField.named STI_UINT64 4 "OwnerNode".
Definition sfBaseFee : SField := SField.named STI_UINT64 5 "BaseFee".
Definition sfExchangeRate : SField := SField.named STI_UINT64 6 "ExchangeRate".
Definition sfLowNode : SField := SField.named STI_UINT64 7 "LowNode".
Definition sfHighNode : SField := SField.named STI_UINT64 8 "HighNode".

(* 128-bit *)
Definition sfEmailHash : SField := SField.named STI_HASH128 1 "EmailHash".

(* 160-bit (common) *)
Definition sfTakerPaysCurrency : SField := SField.named STI_HASH160 1 "TakerPaysCurrency".
Definition sfTakerPaysIssuer : SField := SField.named STI_HASH160 2 "TakerPaysIssuer".
Definition sfTakerGetsCurrency : SField := SField.named STI_HASH160 3 "TakerGetsCurrency".
Definition sfTakerGetsIssuer : SField := SField.named STI_HASH160 4 "TakerGetsIssuer".

(* 256-bit (common) *)
Definition sfLedgerHash : SField := SField.named STI_HASH256 1 "LedgerHash".
Definition sfParentHash : SField := SField.named STI_HASH256 2 "ParentHash".
Definition sfTransactionHash : SField := SField.named STI_HASH256 3 "TransactionHash".
Definition sfAccountHash : SField := SField.named STI_HASH256 4 "AccountHash".
Definition sfPreviousTxnID : SField := SField.named_meta STI_HASH256 5 "PreviousTxnID" sMD_DeleteFinal IsSigning.yes.
Definition sfLedgerIndex : SField := SField.named STI_HASH256 6 "LedgerIndex".
Definition sfWalletLocator : SField := SField.named STI_HASH256 7 "WalletLocator".
Definition sfRootIndex : SField := SField.named_meta STI_HASH256 8 "RootIndex" sMD_Always IsSigning.yes.
Definition sfAccountTxnID : SField := SField.named STI_HASH256 9 "AccountTxnID".

(* 256-bit (uncommon) *)
Definition sfBookDirectory : SField := SField.named STI_HASH256 16 "BookDirectory".
Definition sfInvoiceID : SField := SField.named STI_HASH256 17 "InvoiceID".
Definition sfNickname : SField := SField.named STI_HASH256 18 "Nickname".
Definition sfAmendment : SField := SField.named STI_HASH256 19 "Amendment".
Definition sfTicketID : SField := SField.named STI_HASH256 20 "TicketID".
Definition sfDigest : SField := SField.named STI_HASH256 21 "Digest".
Definition sfPayChannel : SField := SField.named STI_HASH256 22 "Channel".

(* currency amount (common) *)
Definition sfAmount : SField := SField.named STI_AMOUNT 1 "Amount".
Definition sfBalance : SField := SField.named STI_AMOUNT 2 "Balance".
Definition sfLimitAmount : SField := SField.named STI_AMOUNT 3 "LimitAmount".
Definition sfTakerPays : SField := SField.named STI_AMOUNT 4 "TakerPays".
Definition sfTakerGets : SField := SField.named STI_AMOUNT 5 "TakerGets".
Definition sfLowLimit : SField := SField.named STI_AMOUNT 6 "LowLimit".
Definition sfHighLimit : SField := SField.named STI_AMOUNT 7 "HighLimit".
Definition sfFee : SField := SField.named STI_AMOUNT 8 "Fee".
Definition sfSendMax : SField := SField.named STI_AMOUNT 9 "SendMax".
Definition sfDeliverMin : SField := SField.named STI_AMOUNT 10 "DeliverMin".

(* currency amount (uncommon) *)
Definition sfMinimumOffer : SField := SField.named STI_AMOUNT 16 "MinimumOffer".
Definition sfCasinocoinEscrow : SField := SField.named STI_AMOUNT 17 "CasinocoinEscrow".
Definition sfDeliveredAmount : SField := SField.named STI_AMOUNT 18 "DeliveredAmount".

(* variable length (common) *)
Definition sfPublicKey : SField := SField.named STI_VL 1 "PublicKey".
Definition sfSigningPubKey : SField := SField.named STI_VL 3 "SigningPubKey".
Definition sfSignature : SField := SField.named_meta STI_VL 6 "Signature" sMD_Default IsSigning.no.
Definition sfMessageKey : SField := SField.named STI_VL 2 "MessageKey".
Definition sfTxnSignature : SField := SField.named_meta STI_VL 4 "TxnSignature" sMD_Default IsSigning.no.
Definition sfDomain : SField := SField.named STI_VL 7 "Domain".
Definition sfFundCode : SField := SField.named STI_VL 8 "FundCode".
Definition sfRemoveCode : SField := SField.named STI_VL 9 "RemoveCode".
Definition sfExpireCode : SField := SField.named STI_VL 10 "ExpireCode".
Definition sfCreateCode : SField := SField.named STI_VL 11 "CreateCode".
Definition sfMemoType : SField := SField.named STI_VL 12 "MemoType".
Definition sfMemoData : SField := SField.named STI_VL 13 "MemoData".
Definition sfMemoFormat : SField := SField.named STI_VL 14 "MemoFormat".
Definition sfClientIP : SField := SField.named_meta STI_VL 15 "ClientIP" sMD_Default IsSigning.noAndNotHashed.

(* variable length (uncommon) *)
Definition sfFulfillment : SField := SField.named STI_VL 16 "Fulfillment".
Definition sfCondition : SField := SField.named STI_VL 17 "Condition".
Definition sfMasterSignature : SField := SField.named_meta STI_VL 18 "MasterSignature" sMD_Default IsSigning.no.

(* account *)
Definition sfAccount : SField := SField.named STI_ACCOUNT 1 "Account".
Definition sfOwner : SField := SField.named STI_ACCOUNT 2 "Owner".
Definition sfDestination : SField := SField.named STI_ACCOUNT 3 "Destination".
Definition sfIssuer : SField := SField.named STI_ACCOUNT 4 "Issuer".
Definition sfTarget : SField := SField.named STI_ACCOUNT 7 "Target".
Definition sfRegularKey : SField := SField.named STI_ACCOUNT 8 "RegularKey".

(* path set *)
Definition sfPaths : SField := SField.named STI_PATHSET 1 "Paths".

(* vector of 256-bit *)
Definition sfIndexes : SField := SField.named_meta STI_VECTOR256 1 "Indexes" sMD_Never IsSigning.yes.
Definition sfHashes : SField := SField.named STI_VECTOR256 2 "Hashes".
Definition sfAmendments : SField := SField.named STI_VECTOR256 3 "Amendments".
Definition sfKYCVerifications : SField := SField.named STI_VECTOR128 1 "Verifications".

(* inner object *)

(* OBJECT/1 is reserved for end of object *)
Definition sfTransactionMetaData : SField := SField.named STI_OBJECT 2 "TransactionMetaData".
Definition sfCreatedNode : SField := SField.named STI_OBJECT 3 "CreatedNode".
Definition sfDeletedNode : SField := SField.named STI_OBJECT 4 "DeletedNode".
Definition sfModifiedNode : SField := SField.named STI_OBJECT 5 "ModifiedNode".
Definition sfPreviousFields : SField := SField.named STI_OBJECT 6 "PreviousFields".
Definition sfFinalFields : SField := SField.named STI_OBJECT 7 "FinalFields".
Definition sfNewFields : SField := SField.named STI_OBJECT 8 "NewFields".
Definition sfTemplateEntry : SField := SField.named STI_OBJECT 9 "TemplateEntry".
Definition sfMemo : SField := SField.named STI_OBJECT 10 "Memo".
Definition sfSignerEntry : SField := SField.named STI_OBJECT 11 "SignerEntry".

(* inner object (uncommon) *)
Definition sfSigner : SField := SField.named STI_OBJECT 16 "Signer".
Definition sfMajority : SField := SField.named STI_OBJECT 18 "Majority".
Definition sfKYC : SField := SField.named STI_OBJECT 19 "KYC".

(* array of objects *)

(* ARRAY/1 is reserved for end of array *)
Definition sfSigners : SField := SField.named_meta STI_ARRAY 3 "Signers" sMD_Default IsSigning.no.
Definition sfSignerEntries : SField := SField.named STI_ARRAY 4 "SignerEntries".
Definition sfTemplate : SField := SField.named STI_ARRAY 5 "Template".
Definition sfNecessary : SField := SField.named STI_ARRAY 6 "Necessary".
Definition sfSufficient : SField := SField.named STI_ARRAY 7 "Sufficient".
Definition sfAffectedNodes : SField := SField.named STI_ARRAY 8 "AffectedNodes".
Definition sfMemos : SField := SField.named STI_ARRAY 9 "Memos".

(* array of objects (uncommon) *)
Definition sfMajorities : SField := SField.named STI_ARRAY 16 "Majorities".

(** The numbers and hashes, then the other types, in the order of registration *)
Definition scalarFields : list SField :=
  [sfInvalid; sfGeneric; sfLedgerEntry; sfTransaction; sfValidation; sfMetadata; sfHash; sfIndex;
   sfCloseResolution; sfMethod; sfTransactionResult; sfTickSize; sfLedgerEntryType;
   sfTransactionType; sfSignerWeight; sfFlags; sfSourceTag; sfSequence; sfPreviousTxnLgrSeq;
   sfLedgerSequence; sfCloseTime; sfParentCloseTime; sfSigningTime; sfExpiration; sfTransferRate;
   sfWalletSize; sfOwnerCount; sfDestinationTag; sfKYCTime; sfHighQualityIn; sfHighQualityOut;
   sfLowQualityIn; sfLowQualityOut; sfQualityIn; sfQualityOut; sfStampEscrow; sfBondAmount;
   sfLoadFee; sfOfferSequence; sfFirstLedgerSequence; sfLastLedgerSequence; sfTransactionIndex;
   sfOperationLimit; sfReferenceFeeUnits; sfReserveBase; sfReserveIncrement; sfSetFlag;
   sfClearFlag; sfSignerQuorum; sfCancelAfter; sfFinishAfter; sfSignerListID; sfSettleDelay;
   sfIndexNext; sfIndexPrevious; sfBookNode; sfOwnerNode; sfBaseFee; sfExchangeRate; sfLowNode;
   sfHighNode; sfEmailHash; sfTakerPaysCurrency; sfTakerPaysIssuer; sfTakerGetsCurrency;
   sfTakerGetsIssuer; sfLedgerHash; sfParentHash; sfTransactionHash; sfAccountHash;
   sfPreviousTxnID; sfLedgerIndex; sfWalletLocator; sfRootIndex; sfAccountTxnID; sfBookDirectory;
   sfInvoiceID; sfNickname; sfAmendment; sfTicketID; sfDigest; sfPayChannel].

Definition otherFields : list SField :=
  [sfAmount; sfBalance; sfLimitAmount; sfTakerPays; sfTakerGets; sfLowLimit; sfHighLimit; sfFee;
   sfSendMax; sfDeliverMin; sfMinimumOffer; sfCasinocoinEscrow; sfDeliveredAmount; sfPublicKey;
   sfSigningPubKey; sfSignature; sfMessageKey; sfTxnSignature; sfDomain; sfFundCode; sfRemoveCode;
   sfExpireCode; sfCreateCode; sfMemoType; sfMemoData; sfMemoFormat; sfClientIP; sfFulfillment;
   sfCondition; sfMasterSignature; sfAccount; sfOwner; sfDestination; sfIssuer; sfTarget;
   sfRegularKey; sfPaths; sfIndexes; sfHashes; sfAmendments; sfKYCVerifications;
   sfTransactionMetaData; sfCreatedNode; sfDeletedNode; sfModifiedNode; sfPreviousFields;
   sfFinalFields; sfNewFields; sfTemplateEntry; sfMemo; sfSignerEntry; sfSigner; sfMajority; sfKYC;
   sfSigners; sfSignerEntries; sfTemplate; sfNecessary; sfSufficient; sfAffectedNodes; sfMemos;
   sfMajorities].

Definition knownCodeToField : gmap Z SField :=
  list_to_map ((λ f, (fieldCode f, f)) <$> scalarFields ++ otherFields).

(** Fields constructed before the program starts.  Their [fieldNum] is in the range of the
    tables of all templates; that of a field made up at run time need not be. *)
Definition declared (f : SField) : bool :=
  existsb (λ g, fieldCode g =? fieldCode f) (scalarFields ++ otherFields).

(** The types of fields that are made up at run time *)
Definition extensible (type : Z) : bool :=
  bool_decide (type ∈ [STI_UINT16; STI_UINT32; STI_UINT64; STI_HASH128; STI_HASH256; STI_AMOUNT; STI_VL;
    STI_ACCOUNT; STI_OBJECT; STI_ARRAY; STI_UINT8; STI_HASH160; STI_PATHSET; STI_VECTOR256;
    STI_VECTOR128]).

Definition getField (code : Z) : SField :=
  match knownCodeToField !! code with
  | Some f => f
  | None =>
      let type := Z.shiftr code 16 in
      let field := Z.land code 65535 in
      if (field >? 255) || (code <? 0) then sfInvalid
      else if extensible type then SField.unnamed type field
      else sfInvalid
  end.
