(* ===== verification/Issue.v ===== *)
(** * Issue: a currency and its issuer

    Models [protocol/Issue.h], [protocol/impl/Issue.cpp] and the constants of
    [protocol/impl/UintTypes.cpp] and [protocol/impl/AccountID.cpp] they use. *)

From S2P Require Import Prelude.

Module Issue.

(** [Currency] and [AccountID] are 160-bit [base_uint]s. *)
Record t := mk { currency : Z; account : Z }.

#[global] Instance t_eq_dec : EqDecision t.
Proof. solve_decision. Defined.

(** [isCSC (Currency const&)] and [isCSC (AccountID const&)] *)
Definition isCSC (c : Z) : bool := c =? 0.

Definition cscIssue : t := mk 0 0.
Definition noIssue : t := mk 1 1.

Definition isConsistent (ac : t) : bool := Bool.eqb (isCSC (currency ac)) (isCSC (account ac)).

(** [compare (base_uint, base_uint)]: memory order is numerical order. *)
Definition compare_uint (a b : Z) : Z := if a <? b then -1 else if a >? b then 1 else 0.

Definition compare (lhs rhs : t) : Z :=
  let diff := compare_uint (currency lhs) (currency rhs) in
  if negb (diff =? 0) then diff
  else if isCSC (currency lhs) then 0
  else compare_uint (account lhs) (account rhs).

Definition eqb (lhs rhs : t) : bool := compare lhs rhs =? 0.
Definition ltb (lhs rhs : t) : bool := compare lhs rhs <? 0.

End Issue.
