(* ===== verification/CSCAmount.v ===== *)
(** * CSCAmount: native amounts as a signed number of drops

    Models [protocol/CSCAmount.h]. *)

From S2P Require Import Prelude.

Module CSCAmount.

Record t := mk { drops_ : Z }.

Definition add (a b : t) : t := mk (s64 (drops_ a + drops_ b)).
Definition sub (a b : t) : t := mk (s64 (drops_ a - drops_ b)).
Definition neg (a : t) : t := mk (s64 (- drops_ a)).
Definition eqb (a b : t) : bool := drops_ a =? drops_ b.
Definition ltb (a b : t) : bool := drops_ a <? drops_ b.
Definition signum (a : t) : Z := if drops_ a <? 0 then -1 else if negb (drops_ a =? 0) then 1 else 0.

Section mulRatio.
(** [boost::multiprecision]'s conversion of an [int128_t] to [std::int64_t]. *)
Context (convert_to_int64 : Z → Z).

Definition mulRatio (amt : t) (num den : Z) (roundUp : bool) : result t :=
  if den =? 0 then Throw (runtime_error "division by zero")
  else
    let neg := drops_ amt <? 0 in
    let m := drops_ amt * num in
    let r := m ÷ den in
    let r :=
      if negb (Z.rem m den =? 0) then
        let r := if negb neg && roundUp then r + 1 else r in
        if neg && negb roundUp then r - 1 else r
      else r in
    if r >? 2 ^ 63 - 1 then Throw (overflow_error "CSC mulRatio overflow")
    else Ok (mk (convert_to_int64 r)).
End mulRatio.

Definition SYSTEM_CURRENCY_START : Z := 1000 * 40000000 * 100000000.

Definition isLegalAmount (a : t) : bool := drops_ a <=? SYSTEM_CURRENCY_START.

(** ** Proofs *)

(** The floor and the ceiling of a fraction, from C++'s truncating division. *)
Lemma quot_rem_floor m den :
  0 < den →
  m / den = (if Z.rem m den <? 0 then m ÷ den - 1 else m ÷ den) ∧
  - ((- m) / den) = (if Z.rem m den >? 0 then m ÷ den + 1 else m ÷ den).
Proof.
  intros Hd. pose proof (Z.quot_rem' m den). pose proof (Z.rem_bound_abs m den ltac:(lia)).
  split; case_if; zb; symmetry.
  - apply (Z.div_unique_pos _ _ _ (Z.rem m den + den)); lia.
  - apply (Z.div_unique_pos _ _ _ (Z.rem m den)); lia.
  - rewrite <- (Z.div_unique_pos (- m) den (- (m ÷ den + 1)) (den - Z.rem m den)); lia.
  - rewrite <- (Z.div_unique_pos (- m) den (- (m ÷ den)) (- Z.rem m den)); lia.
Qed.

(** C24: [mulRatio] on native amounts is exact rounding: the floor of
    [drops * num / den], or its ceiling with [roundUp], for amounts of either
    sign; above the 64-bit range it throws, and it throws on a zero divisor. *)
Theorem csc_mulRatio_correct (conv : Z → Z) (amt : t) (num den : Z) (roundUp : bool) :
  (∀ r, is_signed 64 r → conv r = r) →
  is_unsigned 32 num → 0 < den < 2 ^ 32 →
  let q := if roundUp then - ((- (drops_ amt * num)) / den) else drops_ amt * num / den in
  mulRatio conv amt num 0 roundUp = Throw (runtime_error "division by zero") ∧
  (2 ^ 63 ≤ q → mulRatio conv amt num den roundUp = Throw (overflow_error "CSC mulRatio overflow")) ∧
  (is_signed 64 q → mulRatio conv amt num den roundUp = Ok (mk q)).
Proof.
  intros Hconv Hnum Hden q. split; [done|].
  set (m := drops_ amt * num) in *.
  destruct (quot_rem_floor m den) as [Ef Ec]; [lia|].
  pose proof (Z.rem_sign_mul m den ltac:(lia)) as Hsgn.
  assert (mulRatio conv amt num den roundUp =
    if q >? 2 ^ 63 - 1 then Throw (overflow_error "CSC mulRatio overflow") else Ok (mk (conv q)))
    as ->.
  { unfold mulRatio. rewrite (proj2 (Z.eqb_neq den 0)) by lia. fold m.
    assert (Z.rem m den ≠ 0 → (drops_ amt <? 0) = (Z.rem m den <? 0)) as Hneg.
    { intros Hr. unfold is_unsigned in Hnum.
      assert (m ≠ 0) by (intros E; rewrite E, Z.rem_0_l in Hr; lia).
      assert (m = drops_ amt * num) by done.
      destruct (Z.ltb_spec (drops_ amt) 0), (Z.ltb_spec (Z.rem m den) 0); nia. }
    unfold q. destruct roundUp; rewrite ?Ef, ?Ec; simpl;
      destruct (Z.rem m den =? 0) eqn:E0; simpl; zb.
    all: repeat (rewrite Hneg by done). all: rewrite ?E0; try done.
    all: destruct (Z.ltb_spec (Z.rem m den) 0); simpl; try done.
    all: destruct (Z.gtb_spec (Z.rem m den) 0); try lia; done. }
  split; intros Hq; unfold is_signed in *.
  - by rewrite Z.gtb_ltb, (proj2 (Z.ltb_lt _ _)) by lia.
  - rewrite Z.gtb_ltb, (proj2 (Z.ltb_ge _ _)) by lia. rewrite Hconv; [done|wrap_solve].
Qed.

Lemma csc_mulRatio_correct_witness :
  mulRatio (λ r, r) (mk (-10)) 1 3 false = Ok (mk (-4)).
Proof.
  destruct (csc_mulRatio_correct (λ r, r) (mk (-10)) 1 3 false) as (_ & _ & H); [done..|].
  by apply H.
Defined.

End CSCAmount.
