(* ===== verification/STAmount.v ===== *)
(** * STAmount: the serialized amount of the ledger

    Models [protocol/STAmount.h] and [protocol/impl/STAmount.cpp]: native (CSC)
    amounts, an integral number of drops, and issued amounts, [mValue * 10 ^ mOffset]; their
    canonical form, arithmetic, comparison and wire format.  The field name an
    [STAmount] carries as an [STBase] does not influence any of this and is left
    out. *)

From S2P Require Import Prelude Decimal IOUAmount Serializer SerialIter Issue CSCAmount.

(** ** STAmount *)

Module STAmount.

Definition cMinOffset : Z := -96.
Definition cMaxOffset : Z := 80.
Definition cMinValue : Z := 1000000000000000.
Definition cMaxValue : Z := 3999999999999999999.
Definition cMaxNative : Z := 9000000000000000000.
Definition cMaxNativeN : Z := 4000000000000000000.
Definition cNotNative : Z := 0x8000000000000000.
Definition cPosNative : Z := 0x4000000000000000.
Definition tenTo14 : Z := 100000000000000.
Definition tenTo14m1 : Z := tenTo14 - 1.
Definition tenTo17 : Z := tenTo14 * 1000.

Record t := mk {
  mIssue : Issue.t;
  mValue : Z;
  mOffset : Z;
  mIsNative : bool;
  mIsNegative : bool
}.

#[global] Instance t_eq_dec : EqDecision t.
Proof. solve_decision. Defined.

(** [isCSC (STAmount const&)] *)
Definition isCSC (a : t) : bool := Issue.isCSC (Issue.currency (mIssue a)).

Definition signum (a : t) : Z :=
  if negb (mValue a =? 0) then (if mIsNegative a then -1 else 1) else 0.

(** [a == zero] *)
Definition is_zero (a : t) : bool := signum a =? 0.
#[global] Arguments is_zero : simpl never.

(** *** canonicalize *)

(** [while (mOffset < 0) { mValue /= 10; ++mOffset; }] *)
Definition native_down (v o : Z) : Z * Z :=
  while (Z.to_nat (- o)) (λ '(v, o), o <? 0) (λ '(v, o), (v / 10, s32 (o + 1))) (v, o).

(** [while (mOffset > 0) { mValue *= 10; --mOffset; }] *)
Definition native_up (v o : Z) : Z * Z :=
  while (Z.to_nat o) (λ '(v, o), o >? 0) (λ '(v, o), (u64 (v * 10), s32 (o - 1))) (v, o).

Definition scale_up (v o : Z) : Z * Z :=
  while (Z.to_nat (o - cMinOffset))
    (λ '(v, o), (v <? cMinValue) && (o >? cMinOffset))
    (λ '(v, o), (u64 (v * 10), s32 (o - 1)))
    (v, o).

Definition scale_down (v o : Z) : result (Z * Z) :=
  while_res 64
    (λ '(v, o), v >? cMaxValue)
    (λ '(v, o),
      if o >=? cMaxOffset then Throw (runtime_error "value overflow")
      else Ok (v / 10, s32 (o + 1)))
    (v, o).

Definition canonicalize (a : t) : result t :=
  let '(mk issue v o native neg) := a in
  if isCSC a then
    if v =? 0 then Ok (mk issue v 0 true false)
    else
      let '(v, o) := native_down v o in
      let '(v, o) := native_up v o in
      if v >? cMaxNativeN then Throw (runtime_error "Native currency amount out of range")
      else Ok (mk issue v o true neg)
  else if v =? 0 then Ok (mk issue v (-100) false false)
  else
    let '(v, o) := scale_up v o in
    '(v, o) ← scale_down v o;
    if (o <? cMinOffset) || (v <? cMinValue) then Ok (mk issue 0 (-100) false false)
    else if o >? cMaxOffset then Throw (runtime_error "value overflow")
    else Ok (mk issue v o false neg).

#[global] Arguments canonicalize : simpl never.

(** *** Construction *)

(** [STAmount (Issue, uint64 mantissa, int exponent, bool negative)] and the
    variants with a field name; [mIsNative] is set by [canonicalize]. *)
Definition make (issue : Issue.t) (mantissa exponent : Z) (negative : bool) : result t :=
  canonicalize (mk issue mantissa exponent false negative).

(** [STAmount (Issue const&)], with the default arguments *)
Definition make_zero (issue : Issue.t) : t :=
  mk issue 0 (if Issue.isCSC (Issue.currency issue) then 0 else -100)
    (Issue.isCSC (Issue.currency issue)) false.

(** [STAmount (std::uint64_t mantissa, bool negative)] *)
Definition make_csc (mantissa : Z) (negative : bool) : t :=
  mk Issue.cscIssue mantissa 0 true (negb (mantissa =? 0) && negative).

(** [set (std::int64_t v)] *)
Definition set (a : t) (v : Z) : t :=
  if v <? 0 then mk (mIssue a) (u64 (- v)) (mOffset a) (mIsNative a) true
  else mk (mIssue a) (u64 v) (mOffset a) (mIsNative a) false.

(** [STAmount (SField const&, std::int64_t mantissa)] *)
Definition make_signed (mantissa : Z) : t := set (mk Issue.cscIssue 0 0 true false) mantissa.

(** [STAmount (SField const&, std::uint64_t mantissa, bool negative)] *)
Definition make_unsigned (mantissa : Z) (negative : bool) : t :=
  mk Issue.cscIssue mantissa 0 true negative.

(** [STAmount (Issue const&, std::int64_t mantissa, int exponent)] *)
Definition make_int64 (issue : Issue.t) (mantissa exponent : Z) : result t :=
  canonicalize (set (mk issue 0 exponent false false) mantissa).

(** [STAmount (IOUAmount const&, Issue const&)] *)
Definition of_iou (amount : IOUAmount.t) (issue : Issue.t) : result t :=
  let neg := IOUAmount.mantissa_ amount <? 0 in
  let m := IOUAmount.mantissa_ amount in
  canonicalize (mk issue (u64 (if neg then - m else m)) (IOUAmount.exponent_ amount) false neg).

(** [STAmount (CSCAmount const&)] *)
Definition of_csc (amount : CSCAmount.t) : result t :=
  let d := CSCAmount.drops_ amount in
  let neg := d <? 0 in
  canonicalize (mk Issue.cscIssue (u64 (if neg then - d else d)) 0 true neg).

(** [STAmount::csc] and [STAmount::iou] *)
Definition csc (a : t) : result CSCAmount.t :=
  if negb (mIsNative a) then
    Throw (logic_error "Cannot return non-native STAmount as CSCAmount")
  else
    let drops := s64 (mValue a) in
    Ok (CSCAmount.mk (if mIsNegative a then s64 (- drops) else drops)).

Definition iou (a : t) : result IOUAmount.t :=
  if mIsNative a then Throw (logic_error "Cannot return native STAmount as IOUAmount")
  else
    let mantissa := s64 (mValue a) in
    IOUAmount.make (if mIsNegative a then s64 (- mantissa) else mantissa) (mOffset a).

(** *** Modification *)

Definition setIssue (a : t) (issue : Issue.t) : t :=
  mk issue (mValue a) (mOffset a) (Issue.isCSC (Issue.currency issue)) (mIsNegative a).

Definition negate (a : t) : t :=
  if negb (is_zero a)
  then mk (mIssue a) (mValue a) (mOffset a) (mIsNative a) (negb (mIsNegative a))
  else a.

Definition clear (a : t) : t :=
  mk (mIssue a) 0 (if mIsNative a then 0 else -100) (mIsNative a) false.

Definition clear_issue (a : t) (issue : Issue.t) : t := clear (setIssue a issue).

Definition isLegalNet (a : t) : bool := negb (mIsNative a) || (mValue a <=? cMaxNativeN).

(** *** Addition and comparison *)

Definition areComparable (v1 v2 : t) : bool :=
  Bool.eqb (mIsNative v1) (mIsNative v2) &&
  (Issue.currency (mIssue v1) =? Issue.currency (mIssue v2)).

Definition getSNValue (amount : t) : result Z :=
  if negb (mIsNative amount) then Throw (runtime_error "amount is not native!")
  else
    let ret := s64 (mValue amount) in
    Ok (if mIsNegative amount then s64 (- ret) else ret).

(** [while (ov < target) { vv /= 10; ++ov; }] *)
Definition align (vv ov target : Z) : Z * Z :=
  while (Z.to_nat (target - ov)) (λ '(v, o), o <? target)
    (λ '(v, o), (v ÷ 10, s32 (o + 1))) (vv, ov).

(** [operator+] *)
Definition add (v1 v2 : t) : result t :=
  if negb (areComparable v1 v2)
  then Throw (runtime_error "Can't add amounts that are't comparable!")
  else if is_zero v2 then Ok v1
  else if is_zero v1 then make (mIssue v1) (mValue v2) (mOffset v2) (mIsNegative v2)
  else if mIsNative v1 then
    sn1 ← getSNValue v1; sn2 ← getSNValue v2; Ok (make_signed (s64 (sn1 + sn2)))
  else
    let vv1 := s64 (mValue v1) in
    let vv2 := s64 (mValue v2) in
    let vv1 := if mIsNegative v1 then s64 (- vv1) else vv1 in
    let vv2 := if mIsNegative v2 then s64 (- vv2) else vv2 in
    let '(vv1, ov1) := align vv1 (mOffset v1) (mOffset v2) in
    let '(vv2, ov2) := align vv2 (mOffset v2) ov1 in
    let fv := s64 (vv1 + vv2) in
    if (fv >=? -10) && (fv <=? 10) then make (mIssue v1) 0 0 false
    else if fv >=? 0 then make (mIssue v1) (u64 fv) ov1 false
    else make (mIssue v1) (u64 (- fv)) ov1 true.

(** Unary [operator-] *)
Definition neg (value : t) : t :=
  if mValue value =? 0 then value
  else mk (mIssue value) (mValue value) (mOffset value) (mIsNative value)
         (negb (mIsNegative value)).

(** Binary [operator-] *)
Definition sub (v1 v2 : t) : result t := add v1 (neg v2).

Definition eqb (lhs rhs : t) : bool :=
  areComparable lhs rhs && Bool.eqb (mIsNegative lhs) (mIsNegative rhs) &&
  (mOffset lhs =? mOffset rhs) && (mValue lhs =? mValue rhs).

(** [operator<] *)
Definition ltb (lhs rhs : t) : result bool :=
  if negb (areComparable lhs rhs)
  then Throw (runtime_error "Can't compare amounts that are't comparable!")
  else Ok (
    if negb (Bool.eqb (mIsNegative lhs) (mIsNegative rhs)) then mIsNegative lhs
    else if mValue lhs =? 0 then
      (if mIsNegative rhs then false else negb (mValue rhs =? 0))
    else if mValue rhs =? 0 then false
    else if mOffset lhs >? mOffset rhs then mIsNegative lhs
    else if mOffset lhs <? mOffset rhs then negb (mIsNegative lhs)
    else if mValue lhs >? mValue rhs then mIsNegative lhs
    else if mValue lhs <? mValue rhs then negb (mIsNegative lhs)
    else false).

(** *** Multiplication and division *)

(** The 128-bit product of two 64-bit values does not overflow; the callers pass
    a nonzero divisor. *)
Definition muldiv (multiplier multiplicand divisor : Z) : result Z :=
  let ret := u128 (multiplier * multiplicand) / divisor in
  if ret >? 2 ^ 64 - 1 then Throw (overflow_error "overflow: (a * b) / c") else Ok (u64 ret).

Definition muldiv_round (multiplier multiplicand divisor rounding : Z) : result Z :=
  let ret := u128 (u128 (multiplier * multiplicand) + rounding) / divisor in
  if ret >? 2 ^ 64 - 1 then Throw (overflow_error "overflow: ((a * b) + r) / c")
  else Ok (u64 ret).

(** [if (v.native ()) while (value < cMinValue) { value *= 10; --offset; }]: the
    value is not zero, so at most 15 digits are added. *)
Definition bring_into_range (native : bool) (value offset : Z) : Z * Z :=
  if native then
    while 15 (λ '(v, o), v <? cMinValue) (λ '(v, o), (u64 (v * 10), s32 (o - 1)))
      (value, offset)
  else (value, offset).

Definition divide (num den : t) (issue : Issue.t) : result t :=
  if is_zero den then Throw (runtime_error "division by zero")
  else if is_zero num then make issue 0 0 false
  else
    let '(numVal, numOffset) := bring_into_range (mIsNative num) (mValue num) (mOffset num) in
    let '(denVal, denOffset) := bring_into_range (mIsNative den) (mValue den) (mOffset den) in
    q ← muldiv numVal tenTo17 denVal;
    make issue (u64 (q + 5)) (s32 (numOffset - denOffset - 17))
      (negb (Bool.eqb (mIsNegative num) (mIsNegative den))).

(** The branch of [multiply] and [mulRound] for two native factors and a native
    result. *)
Definition mul_native (v1 v2 : t) : result t :=
  sn1 ← getSNValue v1; sn2 ← getSNValue v2;
  let minV := u64 (if sn1 <? sn2 then sn1 else sn2) in
  let maxV := u64 (if sn1 <? sn2 then sn2 else sn1) in
  if minV >? 3000000000 then Throw (runtime_error "Native value overflow")
  else if u64 (Z.shiftr maxV 32 * minV) >? 2095475792
  then Throw (runtime_error "Native value overflow")
  else Ok (make_unsigned (u64 (minV * maxV)) false).

Definition multiply (v1 v2 : t) (issue : Issue.t) : result t :=
  if is_zero v1 || is_zero v2 then make issue 0 0 false
  else if mIsNative v1 && mIsNative v2 && Issue.isCSC (Issue.currency issue)
  then mul_native v1 v2
  else
    let '(value1, offset1) := bring_into_range (mIsNative v1) (mValue v1) (mOffset v1) in
    let '(value2, offset2) := bring_into_range (mIsNative v2) (mValue v2) (mOffset v2) in
    p ← muldiv value1 value2 tenTo14;
    make issue (u64 (p + 7)) (s32 (offset1 + offset2 + 14))
      (negb (Bool.eqb (mIsNegative v1) (mIsNegative v2))).

(** [10 * STAmount::cMaxValue], a [std::uint64_t] *)
Definition tenTimesMax : Z := u64 (10 * cMaxValue).

Definition canonicalizeRound (native : bool) (value offset : Z) : Z * Z :=
  if native then
    if offset <? 0 then
      let '(value, offset, loops) :=
        while (Z.to_nat (- offset)) (λ '(v, o, l), o <? -1)
          (λ '(v, o, l), (v / 10, s32 (o + 1), s32 (l + 1))) (value, offset, 0) in
      (u64 (value + (if loops >=? 2 then 9 else 10)) / 10, s32 (offset + 1))
    else (value, offset)
  else if value >? cMaxValue then
    let '(value, offset) :=
      while 64 (λ '(v, o), v >? tenTimesMax) (λ '(v, o), (v / 10, s32 (o + 1)))
        (value, offset) in
    (u64 (value + 9) / 10, s32 (offset + 1))
  else (value, offset).

(** The thread-local switches [stAmountCalcSwitchover] and
    [stAmountCalcSwitchover2], and the [STAmountSO] constructor that sets them
    from the close time of the parent ledger. *)
Record switchover := mkSwitchover {
  stAmountCalcSwitchover : bool;
  stAmountCalcSwitchover2 : bool
}.

Definition soTime : Z := 504640800.
Definition soTime2 : Z := 509864400.

Definition STAmountSO (closeTime : Z) : switchover :=
  mkSwitchover (closeTime >? soTime) (closeTime >? soTime2).

(** The end of [mulRound] and [divRound]: away from zero when
    [resultNegative != roundUp], and the smallest positive amount in place of
    zero when rounding a positive result up. *)
Definition finish_round (so : switchover) (issue : Issue.t) (amount offset : Z)
    (resultNegative roundUp : bool) : result t :=
  let csc := Issue.isCSC (Issue.currency issue) in
  let '(amount, offset) :=
    if negb (Bool.eqb resultNegative roundUp)
    then canonicalizeRound csc amount offset else (amount, offset) in
  r ← make issue amount offset resultNegative;
  if roundUp && negb resultNegative && is_zero r && stAmountCalcSwitchover so then
    if csc && stAmountCalcSwitchover2 so then make issue 1 0 resultNegative
    else make issue cMinValue cMinOffset resultNegative
  else Ok r.

Definition mulRound (so : switchover) (v1 v2 : t) (issue : Issue.t) (roundUp : bool)
    : result t :=
  if is_zero v1 || is_zero v2 then make issue 0 0 false
  else if mIsNative v1 && mIsNative v2 && Issue.isCSC (Issue.currency issue)
  then mul_native v1 v2
  else
    let '(value1, offset1) := bring_into_range (mIsNative v1) (mValue v1) (mOffset v1) in
    let '(value2, offset2) := bring_into_range (mIsNative v2) (mValue v2) (mOffset v2) in
    let resultNegative := negb (Bool.eqb (mIsNegative v1) (mIsNegative v2)) in
    amount ← muldiv_round value1 value2 tenTo14
      (if negb (Bool.eqb resultNegative roundUp) then tenTo14m1 else 0);
    finish_round so issue amount (s32 (offset1 + offset2 + 14)) resultNegative roundUp.

Definition divRound (so : switchover) (num den : t) (issue : Issue.t) (roundUp : bool)
    : result t :=
  if is_zero den then Throw (runtime_error "division by zero")
  else if is_zero num then make issue 0 0 false
  else
    let '(numVal, numOffset) := bring_into_range (mIsNative num) (mValue num) (mOffset num) in
    let '(denVal, denOffset) := bring_into_range (mIsNative den) (mValue den) (mOffset den) in
    let resultNegative := negb (Bool.eqb (mIsNegative num) (mIsNegative den)) in
    amount ← muldiv_round numVal tenTo17 denVal
      (if negb (Bool.eqb resultNegative roundUp) then u64 (denVal - 1) else 0);
    finish_round so issue amount (s32 (numOffset - denOffset - 17)) resultNegative roundUp.

(** *** Wire format *)

(** [STAmount::add (Serializer&)] *)
Definition serialize (a : t) (s : Serializer.t) : Serializer.t :=
  if mIsNative a then
    if negb (mIsNegative a) then (Serializer.add64 s (Z.lor (mValue a) cPosNative)).1
    else (Serializer.add64 s (mValue a)).1
  else
    let s :=
      if is_zero a then (Serializer.add64 s cNotNative).1
      else if mIsNegative a then
        (Serializer.add64 s (Z.lor (mValue a)
           (u64 (Z.shiftl (u64 (s32 (mOffset a + 512 + 97))) 54)))).1
      else
        (Serializer.add64 s (Z.lor (mValue a)
           (u64 (Z.shiftl (u64 (s32 (mOffset a + 512 + 256 + 97))) 54)))).1 in
    let s := (Serializer.add160 s (Issue.currency (mIssue a))).1 in
    (Serializer.add160 s (Issue.account (mIssue a))).1.

(** [STAmount (SerialIter&, SField const&)] *)
Definition deserialize (sit : SerialIter.t) : result (t * SerialIter.t) :=
  '(value, sit) ← SerialIter.get64 sit;
  if Z.land value cNotNative =? 0 then
    if negb (Z.land value cPosNative =? 0) then
      Ok (mk Issue.cscIssue (Z.land value (u64 (Z.lnot cPosNative))) 0 true false, sit)
    else if value =? 0 then Throw (runtime_error "negative zero is not canonical")
    else Ok (mk Issue.cscIssue value 0 true true, sit)
  else
    '(currency, sit) ← SerialIter.get160 sit;
    if Issue.isCSC currency then Throw (runtime_error "invalid native currency")
    else
      '(account, sit) ← SerialIter.get160 sit;
      if Issue.isCSC account then Throw (runtime_error "invalid native account")
      else
        let issue := Issue.mk currency account in
        let offset := s32 (Z.shiftr value 54) in
        let value := Z.land value (u64 (Z.lnot (Z.shiftl 1023 54))) in
        if negb (value =? 0) then
          let isNegative := Z.land offset 256 =? 0 in
          let offset := Z.land offset 255 - 97 in
          if (value <? cMinValue) || (value >? cMaxValue) ||
             (offset <? cMinOffset) || (offset >? cMaxOffset)
          then Throw (runtime_error "invalid currency value")
          else
            a ← canonicalize (mk issue value offset false isNegative); Ok (a, sit)
        else if negb (offset =? 512) then Throw (runtime_error "invalid currency value")
        else
          a ← canonicalize (mk issue 0 0 false false); Ok (a, sit).

(** ** Canonical amounts *)

Definition issued (a : t) : Prop := Issue.currency (mIssue a) ≠ 0.

(** The representation invariant [canonicalize] establishes. *)
Definition wf (a : t) : Prop :=
  if isCSC a then mIsNative a = true ∧ mOffset a = 0 ∧ 0 ≤ mValue a ≤ cMaxNativeN
  else mIsNative a = false ∧
    ((mValue a = 0 ∧ mOffset a = -100 ∧ mIsNegative a = false) ∨
     (cMinValue ≤ mValue a ≤ cMaxValue ∧ cMinOffset ≤ mOffset a ≤ cMaxOffset)).

(** Zero is not negative. *)
Definition no_negative_zero (a : t) : Prop := mValue a = 0 → mIsNegative a = false.

Lemma isCSC_issued a : issued a → isCSC a = false.
Proof. unfold issued, isCSC, Issue.isCSC. intros. by apply Z.eqb_neq. Qed.

Lemma is_zero_eq a : is_zero a = (mValue a =? 0).
Proof. unfold is_zero, signum. by destruct (mValue a =? 0), (mIsNegative a). Qed.

Lemma native_down_spec v o :
  0 ≤ v → is_signed 32 o →
  native_down v o = (v / 10 ^ Z.max 0 (- o), Z.max o 0).
Proof.
  intros Hv Ho. unfold native_down.
  pose proof (align_loop_spec (λ '(v, o), (v ÷ 10, s32 (o + 1))) v o 0) as H.
  rewrite Z.sub_0_l in H. rewrite Z.quot_div_nonneg in H.
  2: done.
  2: apply pow10_pos; lia.
  rewrite <- H.
  - apply (while_ext (λ s, 0 ≤ s.1)); [done|]. intros [v' o'] Hv' _. simpl in *.
    rewrite Z.quot_div_nonneg by lia. split; [apply Z.div_pos; lia|done].
  - intros m' e' ?. unfold is_signed in *. by unwrap.
Qed.

Lemma native_up_spec v o :
  is_unsigned 64 v → 0 ≤ o < 2 ^ 31 → native_up v o = (u64 (v * 10 ^ o), 0).
Proof.
  intros Hv Ho. unfold native_up. set (c := λ '((v, o) : Z * Z), o >? 0).
  set (b := λ '((v, o) : Z * Z), (u64 (v * 10), s32 (o - 1))).
  set (P := λ s : Z * Z, ∃ j, 0 ≤ j ≤ o ∧ s = (u64 (v * 10 ^ j), o - j)).
  assert (∀ s, P s → c s = true → P (b s) ∧ 0 < s.2 ∧ (b s).2 < s.2) as Hb.
  { intros s (j & Hj & ->) Hc. unfold b, c in *. zb. simpl. unwrap. split; [|lia].
    exists (j + 1). split; [lia|]. rewrite pow10_succ by lia. f_equal; [|lia].
    unfold wrapu. rewrite Z.mul_mod_idemp_l by lia. f_equal; lia. }
  assert (P (v, o)) as Hs.
  { exists 0. rewrite Z.pow_0_r, Z.mul_1_r. unwrap. split; [lia|f_equal; lia]. }
  pose proof (while_inv P c b (λ s Hs Hc, proj1 (Hb s Hs Hc)) (Z.to_nat o) _ Hs)
    as (j & Hj & E).
  pose proof (while_done P (λ s, s.2) c b Hb (Z.to_nat o) _ Hs ltac:(simpl; lia)) as Hd.
  rewrite E in Hd |- *. unfold c in Hd. zb. assert (j = o) as -> by lia.
  f_equal; lia.
Qed.

Lemma canonicalize_native_eq issue v o n neg :
  Issue.currency issue = 0 → 0 < v < 2 ^ 64 → is_signed 32 o →
  canonicalize (mk issue v o n neg) =
  let v' := u64 (v / 10 ^ Z.max 0 (- o) * 10 ^ Z.max o 0) in
  if v' >? cMaxNativeN then Throw (runtime_error "Native currency amount out of range")
  else Ok (mk issue v' 0 true neg).
Proof.
  intros Hi Hv Ho. unfold canonicalize, isCSC, Issue.isCSC. simpl. rewrite Hi. simpl.
  rewrite (proj2 (Z.eqb_neq v 0)) by lia.
  rewrite native_down_spec by first [lia|done].
  rewrite native_up_spec; [done| |unfold is_signed in *; lia].
  pose proof (pow10_ge1 (Z.max 0 (- o))). pose proof (pow10_pos (Z.max 0 (- o))).
  split; [apply Z.div_pos; lia|]. apply Z.div_lt_upper_bound; nia.
Qed.

Lemma st_scale_up_spec v o :
  0 < v < 2 ^ 64 → is_signed 32 o →
  ∃ j, 0 ≤ j ∧ scale_up v o = (v * 10 ^ j, o - j) ∧
    (j = 0 ∨ (v * 10 ^ j ≤ cMaxValue ∧ cMinOffset ≤ o - j)) ∧
    (cMinValue ≤ v * 10 ^ j ∨ o - j ≤ cMinOffset).
Proof.
  intros Hv Ho. apply grow_loop_spec; try (unfold cMinValue, cMaxValue; lia).
  intros v' o' ??. unfold cMinValue, cMinOffset in *. unfold is_signed in *. by unwrap.
Qed.

Lemma st_scale_down_spec v o :
  0 < v < 2 ^ 64 → is_signed 32 o →
  match scale_down v o with
  | Ok (v', o') => ∃ j, 0 ≤ j ∧ v' = v / 10 ^ j ∧ o' = o + j ∧ 0 < v' ≤ cMaxValue ∧
      (j = 0 ∨ (cMinValue ≤ v' ∧ o' ≤ cMaxOffset ∧ cMaxValue < v / 10 ^ (j - 1)))
  | Throw x => x = runtime_error "value overflow" ∧
      ∃ j, 0 ≤ j ∧ cMaxValue < v / 10 ^ j ∧ cMaxOffset ≤ o + j
  end.
Proof.
  intros Hv Ho. apply shrink_loop_spec; try (unfold cMinValue, cMaxValue in *; lia).
  intros v' o' ??. unfold cMaxOffset, is_signed in *. case_if; zb; [done|]. by unwrap.
Qed.

(** What [canonicalize] does with a nonzero issued value, sign aside: [Ok None]
    for a result flushed to zero. *)
Definition canonicalize_abs (v o : Z) : result (option (Z * Z)) :=
  let '(v, o) := scale_up v o in
  '(v, o) ← scale_down v o;
  if (o <? cMinOffset) || (v <? cMinValue) then Ok None
  else if o >? cMaxOffset then Throw (runtime_error "value overflow")
  else Ok (Some (v, o)).

Lemma canonicalize_issued_eq issue v o n neg :
  Issue.currency issue ≠ 0 → v ≠ 0 →
  canonicalize (mk issue v o n neg) =
  match canonicalize_abs v o with
  | Throw x => Throw x
  | Ok None => Ok (make_zero issue)
  | Ok (Some (v, o)) => Ok (mk issue v o false neg)
  end.
Proof.
  intros Hi Hv. unfold canonicalize, canonicalize_abs, make_zero, isCSC, Issue.isCSC. simpl.
  rewrite (proj2 (Z.eqb_neq _ 0) Hi), (proj2 (Z.eqb_neq v 0) Hv).
  destruct (scale_up v o) as [v1 o1].
  destruct (scale_down v1 o1) as [[v2 o2]|x]; simpl; [|done]. by repeat case_if.
Qed.

(** The sizes at which [canonicalize] gives up. *)
Definition canonicalize_post (v o : Z) (r : result (option (Z * Z))) : Prop :=
  match r with
  | Ok None => ∀ k, k ≤ o → k ≤ cMinOffset - 1 →
      scaled k v o < scaled k (cMaxValue + 1) (cMinOffset - 1)
  | Ok (Some (v', o')) =>
      cMinValue ≤ v' ≤ cMaxValue ∧ cMinOffset ≤ o' ≤ cMaxOffset ∧ truncates v o v' o' ∧
      (v ≤ cMaxValue → ∀ k, k ≤ o → k ≤ o' → scaled k v o = scaled k v' o')
  | Throw x => x = runtime_error "value overflow" ∧
      ∀ k, k ≤ o → k ≤ cMaxOffset + 1 → scaled k cMinValue (cMaxOffset + 1) ≤ scaled k v o
  end.

(** The value lies below the flushing bound when the digits left over do. *)
Lemma flush_bound v o v' o' k :
  truncates v o v' o' → k ≤ o → k ≤ cMinOffset - 1 → 0 ≤ v' →
  (o' < cMinOffset ∧ v' ≤ cMaxValue) ∨ (o' = cMinOffset ∧ v' < cMinValue) →
  scaled k v o < scaled k (cMaxValue + 1) (cMinOffset - 1).
Proof.
  intros Ht Hk1 Hk2 Hv Hor. set (k' := Z.min k o').
  apply (scaled_lt_rescale k' k); unfold cMinOffset in *; [lia..|].
  eapply Z.lt_le_trans; [apply Ht; lia|]. destruct Hor as [[Ho Hv']|[-> Hv']].
  - apply scaled_le; [lia|]. pose proof (pow10_ge1 (-96 - 1 - o') ltac:(lia)). nia.
  - rewrite <- (scaled_shift k' _ (-96) 1) by lia.
    apply scaled_mono; [lia|]. unfold cMinValue, cMaxValue in *. lia.
Qed.

Lemma overflow_bound v o v' o' k :
  truncates v o v' o' → k ≤ o → k ≤ cMaxOffset + 1 →
  (cMaxOffset < o' ∧ cMinValue ≤ v') ∨ (cMaxOffset ≤ o' ∧ cMaxValue < v') →
  scaled k cMinValue (cMaxOffset + 1) ≤ scaled k v o.
Proof.
  intros Ht Hk1 Hk2 Hor. set (k' := Z.min k o').
  apply (scaled_le_rescale k' k); unfold cMaxOffset in *; [lia..|].
  eapply Z.le_trans; [|apply Ht; lia].
  unfold cMinValue, cMaxValue in *.
  destruct (Z.eq_dec o' 80) as [->|].
  - rewrite <- (scaled_shift k' _ (80 + 1) 1) by lia. apply scaled_mono; lia.
  - apply scaled_le; [lia|]. pose proof (pow10_ge1 (o' - (80 + 1)) ltac:(lia)). nia.
Qed.

Lemma canonicalize_abs_spec v o :
  0 < v < 2 ^ 64 → is_signed 32 o → canonicalize_post v o (canonicalize_abs v o).
Proof.
  intros Hv Ho. unfold canonicalize_abs.
  destruct (st_scale_up_spec v o Hv Ho) as (j & Hj & -> & Hor & Hex).
  assert (0 < v * 10 ^ j < 2 ^ 64) as Hv1.
  { pose proof (pow10_pos j Hj). destruct Hor as [->|[? _]];
      unfold cMaxValue in *; [lia|nia]. }
  assert (is_signed 32 (o - j)) as Ho1 by (unfold is_signed, cMinOffset in *; lia).
  pose proof (st_scale_down_spec _ _ Hv1 Ho1) as Hd.
  destruct (scale_down _ _) as [[v' o']|x]; simpl.
  - destruct Hd as (i & Hi & -> & -> & Hmax & Hori).
    assert (i = 0 ∨ (j = 0 ∧ cMaxValue < v)) as Hij.
    { destruct Hori as [?|(_ & _ & Hmin)]; [by left|].
      destruct (Z.eq_dec i 0); [by left|right].
      pose proof (div_pow10_le (v * 10 ^ j) (i - 1)).
      destruct Hor as [->|[? _]]; [|lia]. rewrite Z.pow_0_r, Z.mul_1_r in *. lia. }
    assert (truncates v o (v * 10 ^ j / 10 ^ i) (o - j + i)) as Ht.
    { destruct Hij as [->| [-> _]].
      - rewrite Z.pow_0_r, Z.div_1_r, Z.add_0_r. by apply truncates_mul.
      - rewrite Z.pow_0_r, Z.mul_1_r, Z.sub_0_r. by apply truncates_div. }
    destruct ((_ <? cMinOffset) || _) eqn:Elow.
    + intros k Hk1 Hk2. eapply flush_bound; [done..|lia|].
      destruct (Z.lt_ge_cases (o - j + i) cMinOffset); [left; lia|right].
      zb. destruct Elow; zb; [lia|].
      destruct Hori as [->|[? _]]; [|lia]. rewrite Z.pow_0_r, Z.div_1_r in *. lia.
    + zb. destruct (_ >? cMaxOffset) eqn:Ehi; zb.
      * split; [done|]. intros k ??. eapply overflow_bound; [done..|]. lia.
      * split_and!; try lia; [done|]. intros Hle k ??.
        destruct Hij as [->|[_ ?]]; [|lia].
        rewrite Z.pow_0_r, Z.div_1_r, Z.add_0_r in *. symmetry. apply scaled_shift; lia.
  - destruct Hd as (-> & i & Hi & Hmm & Hee). split; [done|]. intros k Hk1 Hk2.
    assert (j = 0) as ->.
    { destruct Hor as [?|[? _]]; [done|]. pose proof (div_pow10_le (v * 10 ^ j) i). lia. }
    rewrite Z.pow_0_r, Z.mul_1_r, Z.sub_0_r in *.
    eapply overflow_bound; [by apply (truncates_div v o i)|done..|]. lia.
Qed.

Lemma wf_canonicalize r : wf r → no_negative_zero r → canonicalize r = Ok r.
Proof.
  destruct r as [issue v o n neg]. unfold wf, no_negative_zero. simpl.
  intros Hwf Hnz. unfold canonicalize. destruct (isCSC _).
  - destruct Hwf as (-> & -> & Hv). destruct (v =? 0) eqn:E; zb.
    { by rewrite Hnz. }
    simpl. by rewrite Z.gtb_ltb, (proj2 (Z.ltb_ge _ _)) by lia.
  - destruct Hwf as (-> & [(-> & -> & ->)|(Hv & Ho)]); [done|].
    rewrite (proj2 (Z.eqb_neq v 0)) by (unfold cMinValue in *; lia).
    assert (scale_up v o = (v, o)) as ->.
    { unfold scale_up. destruct (Z.to_nat _); simpl; [done|].
      by rewrite (proj2 (Z.ltb_ge v _)) by lia. }
    unfold scale_down. simpl. rewrite Z.gtb_ltb, (proj2 (Z.ltb_ge _ v)) by lia. simpl.
    rewrite (proj2 (Z.ltb_ge o _)), (proj2 (Z.ltb_ge v _)) by lia. simpl.
    by rewrite Z.gtb_ltb, (proj2 (Z.ltb_ge _ o)) by lia.
Qed.

Lemma make_zero_wf issue : wf (make_zero issue) ∧ no_negative_zero (make_zero issue).
Proof.
  unfold make_zero, wf, isCSC, no_negative_zero, cMaxNativeN. simpl.
  destruct (Issue.isCSC _); split; naive_solver lia.
Qed.

Lemma canonicalize_zero issue o n neg :
  canonicalize (mk issue 0 o n neg) = Ok (make_zero issue).
Proof. unfold canonicalize, isCSC, make_zero. simpl. by destruct (Issue.isCSC _). Qed.

(** The result of [canonicalize] on an issued amount. *)
Definition canonicalize_issued_post (a : t) (res : result t) : Prop :=
  let v := mValue a in let o := mOffset a in
  match res with
  | Ok r => wf r ∧ no_negative_zero r ∧ mIssue r = mIssue a ∧
      (mValue r ≠ 0 → mIsNegative r = mIsNegative a ∧ truncates v o (mValue r) (mOffset r) ∧
        (v ≤ cMaxValue → ∀ k, k ≤ o → k ≤ mOffset r →
           scaled k v o = scaled k (mValue r) (mOffset r))) ∧
      (mValue r = 0 → v = 0 ∨ ∀ k, k ≤ o → k ≤ cMinOffset - 1 →
        scaled k v o < scaled k (cMaxValue + 1) (cMinOffset - 1))
  | Throw x => x = runtime_error "value overflow" ∧
      ∀ k, k ≤ o → k ≤ cMaxOffset + 1 → scaled k cMinValue (cMaxOffset + 1) ≤ scaled k v o
  end.

Lemma canonicalize_issued_spec a :
  is_unsigned 64 (mValue a) → is_signed 32 (mOffset a) → issued a →
  canonicalize_issued_post a (canonicalize a).
Proof.
  destruct a as [issue v o n neg]. unfold issued. simpl. intros Hv Ho Hi.
  destruct (Z.eq_dec v 0) as [->|Hv0].
  { rewrite canonicalize_zero. destruct (make_zero_wf issue). simpl. naive_solver. }
  rewrite canonicalize_issued_eq by done.
  pose proof (canonicalize_abs_spec v o ltac:(unfold is_unsigned in *; lia) Ho) as Hp.
  destruct (canonicalize_abs v o) as [[[v' o']|]|x]; simpl in *.
  - destruct Hp as (H1 & H2 & H3 & H4). unfold wf, no_negative_zero. simpl.
    rewrite isCSC_issued by done. unfold cMinValue in *.
    split; [by split; [|right]|]. split; [lia|]. split; [done|]. split; [|lia]. by intros _.
  - destruct (make_zero_wf issue). unfold canonicalize_issued_post. simpl. naive_solver.
  - done.
Qed.

(** Mantissas beyond the 16 digits of the comments *)
Lemma canonicalize_keeps a :
  issued a → 10 ^ 16 ≤ mValue a ≤ cMaxValue → cMinOffset ≤ mOffset a ≤ cMaxOffset →
  canonicalize a = Ok (mk (mIssue a) (mValue a) (mOffset a) false (mIsNegative a)).
Proof.
  intros Hi Hv Ho. destruct a as [issue v o n neg]. simpl in *.
  transitivity (canonicalize (mk issue v o false neg)); [by unfold canonicalize, isCSC|].
  apply wf_canonicalize.
  - unfold wf. rewrite isCSC_issued by done. simpl. split; [done|right]. unfold cMinValue. lia.
  - unfold no_negative_zero. simpl. lia.
Qed.

(** C15: canonicalization.  An issued amount becomes well formed (a fixed point of
    [canonicalize]) by dropping digits only, and loses none when the mantissa is
    at most [cMaxValue]; it is flushed to zero only below
    [(cMaxValue + 1) * 10 ^ (cMinOffset - 1)] and refused only from
    [cMinValue * 10 ^ (cMaxOffset + 1)] on.  The range is that of [cMaxValue]: a mantissa
    from 10^16 up to it is kept, although the comments give 10^16 - 1 as the largest.
    A native amount becomes the integral number of drops, rounded toward zero and wrapped
    around at 64 bits, and is refused exactly when that exceeds [cMaxNativeN]. *)
Theorem canonicalize_correct a :
  is_unsigned 64 (mValue a) → is_signed 32 (mOffset a) →
  (issued a → canonicalize_issued_post a (canonicalize a)) ∧
  (¬ issued a →
    let v := u64 (mValue a / 10 ^ Z.max 0 (- mOffset a) * 10 ^ Z.max (mOffset a) 0) in
    canonicalize a =
      if v >? cMaxNativeN then Throw (runtime_error "Native currency amount out of range")
      else Ok (mk (mIssue a) v 0 true (mIsNegative a && negb (mValue a =? 0)))) ∧
  (issued a → 10 ^ 16 ≤ mValue a ≤ cMaxValue → cMinOffset ≤ mOffset a ≤ cMaxOffset →
    canonicalize a = Ok (mk (mIssue a) (mValue a) (mOffset a) false (mIsNegative a))) ∧
  (∀ r, wf r → no_negative_zero r → canonicalize r = Ok r).
Proof.
  intros Hv Ho. split_and!; [by apply canonicalize_issued_spec| |by apply canonicalize_keeps|by apply wf_canonicalize].
  destruct a as [issue v o n neg]. unfold issued. simpl in *. intros Hi.
  assert (Issue.currency issue = 0) as Hi0 by lia.
  destruct (Z.eq_dec v 0) as [->|Hv0].
  { rewrite canonicalize_zero. rewrite Z.div_0_l by (apply Z.pow_nonzero; lia). simpl.
    unfold make_zero. rewrite Hi0. by rewrite andb_false_r. }
  rewrite canonicalize_native_eq by (done || (unfold is_unsigned in *; lia)). simpl.
  by rewrite (proj2 (Z.eqb_neq v 0)), andb_true_r by done.
Qed.

Lemma canonicalize_correct_witness :
  canonicalize (mk (Issue.mk 5 7) 12 0 false true) =
    Ok (mk (Issue.mk 5 7) 1200000000000000 (-14) false true) ∧
  canonicalize_issued_post (mk (Issue.mk 5 7) 12 0 false true)
    (canonicalize (mk (Issue.mk 5 7) 12 0 false true)).
Proof.
  split; [by vm_compute|].
  apply (canonicalize_correct (mk (Issue.mk 5 7) 12 0 false true)); done.
Defined.

(** Scaling a native amount up wraps around at 64 bits before it is checked:
    10^21 drops are accepted as 3875820019684212736 drops, although they exceed
    [cMaxNativeN]. *)
Theorem canonicalize_native_wraps :
  10 ^ 21 > cMaxNativeN ∧
  make Issue.cscIssue 1 21 false = Ok (make_csc 3875820019684212736 false).
Proof. by vm_compute. Qed.

(** ** Addition *)

(** The signed mantissa. *)
Definition sval (a : t) : Z := if mIsNegative a then - mValue a else mValue a.

Definition as_pair (a : t) : IOUAmount.t := IOUAmount.mk (sval a) (mOffset a).

Lemma native_flag a : wf a → mIsNative a = isCSC a.
Proof. unfold wf. by destruct (isCSC a); intros [-> _]. Qed.

Lemma wf_comparable a b :
  wf a → wf b → Issue.currency (mIssue a) = Issue.currency (mIssue b) →
  areComparable a b = true.
Proof.
  intros Ha Hb Hc. unfold areComparable. rewrite !native_flag by done.
  unfold isCSC. rewrite Hc, Z.eqb_refl. by destruct (Issue.isCSC _).
Qed.

Lemma neg_wf a : wf a → no_negative_zero a →
  wf (neg a) ∧ no_negative_zero (neg a) ∧ sval (neg a) = - sval a ∧
  mIssue (neg a) = mIssue a ∧ mOffset (neg a) = mOffset a.
Proof.
  destruct a as [issue v o n ng]. unfold neg, wf, no_negative_zero, sval, isCSC. simpl.
  destruct (v =? 0) eqn:E; zb; simpl.
  - intros Hw Hn. assert (ng = false) as -> by auto. split_and!; (done || lia).
  - intros Hw _. split_and!; [|lia|by destruct ng; simpl; lia|done|done].
    destruct (Issue.isCSC _); [done|]. destruct Hw as [? [[? _]|?]]; [lia|]. auto.
Qed.

Lemma make_signed_spec x :
  is_signed 64 x → x ≠ - 2 ^ 63 →
  let r := make_signed x in
  mIssue r = Issue.cscIssue ∧ mIsNative r = true ∧ mOffset r = 0 ∧ sval r = x ∧
  mValue r = Z.abs x ∧ no_negative_zero r.
Proof.
  intros Hx Hmin. unfold make_signed, set, sval, no_negative_zero. simpl.
  unfold is_signed in Hx. destruct (x <? 0) eqn:E; zb; simpl; unwrap; split_and!; (done || lia).
Qed.

(** The sum of two native amounts. *)
Definition native_sum_post (a b r : t) : Prop :=
  isCSC r = true ∧ mIsNative r = true ∧ mOffset r = 0 ∧ no_negative_zero r ∧
  sval r = sval a + sval b ∧ isLegalNet r = bool_decide (Z.abs (sval a + sval b) ≤ cMaxNativeN).

Lemma isLegalNet_native r :
  mIsNative r = true → 0 ≤ mValue r →
  isLegalNet r = bool_decide (Z.abs (sval r) ≤ cMaxNativeN).
Proof.
  unfold isLegalNet, sval. intros -> Hr. simpl. symmetry.
  destruct (mValue r <=? cMaxNativeN) eqn:E; zb;
    [apply bool_decide_eq_true|apply bool_decide_eq_false]; destruct (mIsNegative r); lia.
Qed.

Lemma make_native a v ng :
  isCSC a = true → 0 < v ≤ cMaxNativeN →
  make (mIssue a) v 0 ng = Ok (mk (mIssue a) v 0 true ng).
Proof.
  intros Hc Hv. unfold isCSC, Issue.isCSC, cMaxNativeN in *. zb.
  unfold make. rewrite canonicalize_native_eq; [|done|lia|done]. simpl.
  rewrite Z.pow_0_r, Z.div_1_r, Z.mul_1_r. unwrap. unfold cMaxNativeN.
  by rewrite Z.gtb_ltb, (proj2 (Z.ltb_ge _ _)) by lia.
Qed.

Lemma add_native_spec a b :
  wf a → wf b → isCSC a = true → isCSC b = true →
  no_negative_zero a → no_negative_zero b →
  ∃ r, add a b = Ok r ∧ native_sum_post a b r.
Proof.
  intros Ha Hb Hca Hcb Hza Hzb.
  assert (areComparable a b = true) as Hcmp.
  { apply wf_comparable; [done..|]. unfold isCSC, Issue.isCSC in *. zb. lia. }
  pose proof (native_flag a Ha) as Hna. pose proof (native_flag b Hb) as Hnb.
  pose proof Ha as Hwa. pose proof Hb as Hwb. unfold wf in Hwa, Hwb.
  rewrite Hca in *. rewrite Hcb in *. destruct Hwa as (_ & Hoa & Hva). destruct Hwb as (_ & Hob & Hvb).
  unfold add, native_sum_post. rewrite Hcmp, !is_zero_eq. simpl.
  destruct (mValue b =? 0) eqn:Eb; zb.
  { exists a. assert (sval a + sval b = sval a) as ->.
    { unfold sval. destruct (mIsNegative b); lia. }
    split_and!; try done. apply isLegalNet_native; [done|lia]. }
  destruct (mValue a =? 0) eqn:Ea; zb.
  { exists (mk (mIssue a) (mValue b) (mOffset b) true (mIsNegative b)).
    assert (sval a + sval b = sval b) as ->.
    { unfold sval. destruct (mIsNegative a); lia. }
    rewrite Hob, make_native by (done || lia). split_and!; try done.
    apply (isLegalNet_native (mk (mIssue a) (mValue b) 0 true (mIsNegative b))); simpl; [done|lia]. }
  rewrite Hna. unfold getSNValue. rewrite Hna, Hnb. simpl.
  assert (is_signed 64 (mValue a) ∧ is_signed 64 (mValue b)) as [??]
    by (unfold cMaxNativeN in *; wrap_solve).
  assert (is_signed 64 (- mValue a) ∧ is_signed 64 (- mValue b)) as [??]
    by (unfold cMaxNativeN in *; wrap_solve).
  rewrite !(wraps_id 64 (mValue _)), !(wraps_id 64 (- mValue _)) by (done || lia).
  fold (sval a). fold (sval b).
  assert (Z.abs (sval a + sval b) ≤ 8000000000000000000) as Hsum.
  { unfold sval, cMaxNativeN in *. destruct (mIsNegative a), (mIsNegative b); lia. }
  rewrite (wraps_id 64) by (done || wrap_solve).
  destruct (make_signed_spec (sval a + sval b)) as (Hi & Hn & Ho & Hs & Hv & Hz);
    [wrap_solve|lia|].
  eexists. split; [done|]. unfold isCSC. rewrite Hi. split_and!; try done.
  rewrite isLegalNet_native by (done || lia). by rewrite Hs.
Qed.

Lemma wf_bounds a :
  wf a → isCSC a = false → 0 ≤ mValue a ≤ cMaxValue ∧ -100 ≤ mOffset a ≤ cMaxOffset.
Proof.
  unfold wf, cMinValue, cMaxValue, cMinOffset, cMaxOffset. intros H E. rewrite E in H.
  destruct H as [_ [(-> & -> & _)|?]]; lia.
Qed.

Lemma st_align_spec v o target :
  is_signed 32 o → is_signed 32 target →
  align v o target = (v ÷ 10 ^ Z.max 0 (target - o), Z.max o target).
Proof.
  intros Ho Ht. apply align_loop_spec. intros v' o' ?. unfold is_signed in *. by unwrap.
Qed.

Lemma sval_s64 a :
  0 ≤ mValue a ≤ cMaxValue →
  (if mIsNegative a then s64 (- s64 (mValue a)) else s64 (mValue a)) = sval a.
Proof. intros. unfold sval, cMaxValue in *. destruct (mIsNegative a); by unwrap. Qed.

Lemma add_issued_eq a b :
  wf a → wf b → issued a → Issue.currency (mIssue a) = Issue.currency (mIssue b) →
  mValue a ≠ 0 → mValue b ≠ 0 →
  let fv := IOUAmount.aligned_sum (as_pair a) (as_pair b) in
  add a b =
    if (fv >=? -10) && (fv <=? 10) then Ok (make_zero (mIssue a))
    else canonicalize (mk (mIssue a) (Z.abs fv) (Z.max (mOffset a) (mOffset b)) false (fv <? 0)).
Proof.
  intros Ha Hb Hi Hc Hza Hzb fv. unfold add.
  rewrite (wf_comparable a b) by done. simpl. rewrite !is_zero_eq.
  rewrite !(proj2 (Z.eqb_neq _ 0)) by done.
  assert (isCSC a = false) as Hca by by apply isCSC_issued.
  assert (isCSC b = false) as Hcb by (apply isCSC_issued; unfold issued in *; congruence).
  rewrite (native_flag a), Hca by done.
  destruct (wf_bounds a Ha Hca) as [Hva Hoa]. destruct (wf_bounds b Hb Hcb) as [Hvb Hob].
  rewrite !sval_s64 by done. unfold cMaxOffset in *.
  rewrite st_align_spec by wrap_solve. rewrite st_align_spec by wrap_solve.
  replace (Z.max 0 (Z.max (mOffset a) (mOffset b) - mOffset b))
    with (Z.max 0 (mOffset a - mOffset b)) by lia.
  change (_ + _) with fv.
  assert (Z.abs fv ≤ 2 * cMaxValue) as Hfv.
  { unfold fv, IOUAmount.aligned_sum, as_pair. simpl.
    pose proof (quot_pow10_abs (sval a) (Z.max 0 (mOffset b - mOffset a))).
    pose proof (quot_pow10_abs (sval b) (Z.max 0 (mOffset a - mOffset b))).
    unfold sval in *. destruct (mIsNegative a), (mIsNegative b); lia. }
  unfold cMaxValue in *. rewrite (wraps_id 64 fv) by (done || wrap_solve).
  case_if; [by rewrite <- canonicalize_zero with (o := 0) (n := false) (neg := false)|].
  unfold make. destruct (fv >=? 0) eqn:Es; zb; unwrap.
  - rewrite Z.abs_eq by lia. by rewrite (proj2 (Z.ltb_ge fv 0)) by lia.
  - rewrite Z.abs_neq by lia. by rewrite (proj2 (Z.ltb_lt fv 0)) by lia.
Qed.

(** C16: addition.  Well-formed native amounts add exactly, and the sum passes
    [isLegalNet] exactly when it is at most [cMaxNativeN] in magnitude.  Two
    nonzero issued amounts of the same currency add to the canonical form of a
    mantissa [fv] at the larger exponent that is within one unit of the exact sum
    (exact for equal exponents), or to zero when [fv] is at most 10 in magnitude.
    Amounts of different currencies are refused. *)
Theorem st_add_correct a b :
  wf a → wf b → no_negative_zero a → no_negative_zero b →
  (isCSC a = true → isCSC b = true → ∃ r, add a b = Ok r ∧ native_sum_post a b r) ∧
  (issued a → Issue.currency (mIssue a) = Issue.currency (mIssue b) →
   mValue a ≠ 0 → mValue b ≠ 0 →
   let o := Z.max (mOffset a) (mOffset b) in
   ∃ fv,
     (∀ k, k ≤ mOffset a → k ≤ mOffset b →
       Z.abs (scaled k fv o - (scaled k (sval a) (mOffset a) + scaled k (sval b) (mOffset b)))
       < scaled k 1 o) ∧
     (mOffset a = mOffset b → fv = sval a + sval b) ∧
     add a b = if (fv >=? -10) && (fv <=? 10) then Ok (make_zero (mIssue a))
       else canonicalize (mk (mIssue a) (Z.abs fv) o false (fv <? 0))) ∧
  (Issue.currency (mIssue a) ≠ Issue.currency (mIssue b) →
   add a b = Throw (runtime_error "Can't add amounts that are't comparable!")).
Proof.
  intros Ha Hb Hza Hzb. split_and!.
  - intros. by apply add_native_spec.
  - intros Hi Hc Hva Hvb o. exists (IOUAmount.aligned_sum (as_pair a) (as_pair b)).
    split_and!; [|intros E|by apply add_issued_eq].
    + intros k ??. by apply (IOUAmount.aligned_sum_error (as_pair a) (as_pair b)).
    + unfold IOUAmount.aligned_sum, as_pair. simpl. rewrite E, Z.sub_diag.
      change (10 ^ Z.max 0 0) with 1. by rewrite !Z.quot_1_r.
  - intros Hc. unfold add, areComparable.
    by rewrite (proj2 (Z.eqb_neq _ _) Hc), andb_false_r.
Qed.

Lemma st_add_correct_witness :
  ∃ r, add (make_csc 7 false) (make_csc 9 true) = Ok r ∧ sval r = -2.
Proof.
  destruct (st_add_correct (make_csc 7 false) (make_csc 9 true)) as [H _]; try done.
  destruct H as (r & Hr & _ & _ & _ & _ & Hs & _); [done..|]. by exists r.
Defined.

Lemma wf_issued issue v o ng :
  Issue.currency issue ≠ 0 → cMinValue ≤ v ≤ cMaxValue → cMinOffset ≤ o ≤ cMaxOffset →
  wf (mk issue v o false ng).
Proof.
  intros Hi Hv Ho. unfold wf. rewrite isCSC_issued by done. simpl. split; [done|by right].
Qed.

(** ** Comparison *)

(** The form the comments of the source describe: 16 significant digits. *)
Definition digits16 (a : t) : Prop := mValue a < 10 ^ 16.

(** Comparable amounts *)
Lemma ltb_issued a b k :
  wf a → wf b → no_negative_zero a → no_negative_zero b → digits16 a → digits16 b →
  issued a → Issue.currency (mIssue a) = Issue.currency (mIssue b) →
  k ≤ mOffset a → k ≤ mOffset b →
  let va := scaled k (sval a) (mOffset a) in
  let vb := scaled k (sval b) (mOffset b) in
  ltb a b = Ok (bool_decide (va < vb)) ∧ eqb a b = bool_decide (va = vb).
Proof.
  intros Ha Hb Hza Hzb Hda Hdb Hi Hc Hka Hkb va vb. unfold ltb, eqb.
  rewrite (wf_comparable a b) by done. simpl.
  assert (isCSC a = false) as Hca by by apply isCSC_issued.
  assert (isCSC b = false) as Hcb by (apply isCSC_issued; unfold issued in *; congruence).
  pose proof (scaled_sgn k (mValue a) (mOffset a) Hka) as Hsa.
  pose proof (scaled_sgn k (mValue b) (mOffset b) Hkb) as Hsb.
  unfold wf, digits16, no_negative_zero, sval, cMinValue in *. rewrite Hca in Ha. rewrite Hcb in Hb.
  destruct Ha as [_ Ha], Hb as [_ Hb].
  pose proof (IOUAmount.scaled_trichotomy k (mValue a) (mOffset a) (mValue b) (mOffset b)) as Ht.
  unfold IOUAmount.minMantissa, IOUAmount.maxMantissa in Ht. simpl in Ht. clear Hca Hcb Hc Hi.
  unfold va, vb. clear va vb.
  destruct (mIsNegative a), (mIsNegative b); rewrite ?scaled_opp; simpl;
    (split; [destruct (mValue b =? 0) eqn:?; simpl; f_equal; repeat case_if
            |destruct (mOffset a =? mOffset b) eqn:?, (mValue a =? mValue b) eqn:?; simpl]);
    zb; symmetry; first [apply bool_decide_eq_true|apply bool_decide_eq_false]; lia.
Qed.

Lemma ltb_native a b k :
  wf a → wf b → no_negative_zero a → no_negative_zero b →
  ¬ issued a → Issue.currency (mIssue a) = Issue.currency (mIssue b) →
  k ≤ mOffset a → k ≤ mOffset b →
  let va := scaled k (sval a) (mOffset a) in
  let vb := scaled k (sval b) (mOffset b) in
  ltb a b = Ok (bool_decide (va < vb)) ∧ eqb a b = bool_decide (va = vb).
Proof.
  intros Ha Hb Hza Hzb Hi Hc Hka Hkb va vb. unfold ltb, eqb. rewrite (wf_comparable a b) by done. simpl.
  assert (isCSC a = true ∧ isCSC b = true) as [Hca Hcb].
  { unfold isCSC, Issue.isCSC, issued in *. rewrite <- Hc, !Z.eqb_eq. lia. }
  unfold wf, no_negative_zero in *. rewrite Hca in Ha. rewrite Hcb in Hb.
  destruct Ha as (_ & Hoa & Ha), Hb as (_ & Hob & Hb). subst va vb. rewrite Hoa, Hob in *. unfold scaled.
  pose proof (Z.pow_pos_nonneg 10 (0 - k) ltac:(lia) ltac:(lia)) as Hp. revert Hp. generalize (10 ^ (0 - k)). intros q Hq.
  unfold sval. destruct (mIsNegative a), (mIsNegative b); simpl;
    (split; [destruct (mValue b =? 0) eqn:?; simpl; f_equal; repeat case_if|destruct (mValue a =? mValue b) eqn:?; simpl]);
    zb; symmetry; first [apply bool_decide_eq_true|apply bool_decide_eq_false]; nia.
Qed.

(** C17: comparison.  On well-formed amounts of one currency, native or issued, [operator<]
    and [operator==] are the numerical order and equality; issued mantissas must have at
    most the 16 digits of the comments.  Amounts of different currencies are never equal,
    and ordering them throws. *)
Theorem ltb_correct a b k :
  wf a → wf b → no_negative_zero a → no_negative_zero b → (issued a → digits16 a ∧ digits16 b) →
  k ≤ mOffset a → k ≤ mOffset b →
  let va := scaled k (sval a) (mOffset a) in
  let vb := scaled k (sval b) (mOffset b) in
  (Issue.currency (mIssue a) = Issue.currency (mIssue b) →
    ltb a b = Ok (bool_decide (va < vb)) ∧ eqb a b = bool_decide (va = vb)) ∧
  (Issue.currency (mIssue a) ≠ Issue.currency (mIssue b) →
    ltb a b = Throw (runtime_error "Can't compare amounts that are't comparable!") ∧ eqb a b = false).
Proof.
  intros Ha Hb Hza Hzb Hd Hka Hkb va vb. split; intros Hc.
  - destruct (decide (issued a)) as [Hi|Hi]; [destruct (Hd Hi); by apply ltb_issued|by apply ltb_native].
  - unfold ltb, eqb, areComparable. by rewrite (proj2 (Z.eqb_neq _ _) Hc), andb_false_r.
Qed.

Lemma ltb_correct_witness :
  ltb (mk (Issue.mk 5 7) 2000000000000000 3 false true)
      (mk (Issue.mk 5 8) 1000000000000000 (-9) false false) = Ok true ∧
  ltb (make_csc 30 false) (make_csc 4 false) = Ok false.
Proof.
  split.
  - destruct (ltb_correct (mk (Issue.mk 5 7) 2000000000000000 3 false true)
      (mk (Issue.mk 5 8) 1000000000000000 (-9) false false) (-9)) as [[-> _] _]; [..|done|by vm_compute];
      try (apply wf_issued; [done|split; by vm_compute..]); by vm_compute.
  - destruct (ltb_correct (make_csc 30 false) (make_csc 4 false) 0) as [[-> _] _]; by vm_compute.
Defined.

(** Mantissas of 17 to 19 digits, which [cMaxValue] admits, break the
    comparison: a well-formed amount can be smaller by [operator<] although it is
    larger in value, and equal values can differ by [operator==]. *)
Theorem ltb_not_numerical :
  let usd := Issue.mk 5 7 in
  let a := mk usd 3999999999999999999 0 false false in
  let b := mk usd 1000000000000000 1 false false in
  let c := mk usd 10000000000000000 0 false false in
  wf a ∧ wf b ∧ wf c ∧
  scaled 0 (sval b) (mOffset b) < scaled 0 (sval a) (mOffset a) ∧ ltb a b = Ok true ∧
  scaled 0 (sval b) (mOffset b) = scaled 0 (sval c) (mOffset c) ∧ eqb b c = false.
Proof. vm_compute. split_and!; auto; right; split_and!; done. Qed.

(** ** Rounded multiplication and division *)

(** The mantissa and exponent an operand is brought to. *)
Definition operand (a : t) : Z * Z := bring_into_range (mIsNative a) (mValue a) (mOffset a).

(** A nonzero operand of at most 16 digits; an issued one has 16. *)
Definition factor (a : t) : Prop :=
  0 < mValue a < 10 ^ 16 ∧ (mIsNative a = false → cMinValue ≤ mValue a) ∧
  -100 ≤ mOffset a ≤ cMaxOffset.

Lemma operand_spec a :
  factor a → ∃ j, 0 ≤ j ≤ 15 ∧ operand a = (mValue a * 10 ^ j, mOffset a - j) ∧
    10 ^ 15 ≤ mValue a * 10 ^ j < 10 ^ 16.
Proof.
  intros (Hv & Hn & Ho). unfold operand, bring_into_range, cMaxOffset in *.
  destruct (mIsNative a).
  2: { exists 0. rewrite Z.pow_0_r, Z.mul_1_r, Z.sub_0_r.
       unfold cMinValue in Hn. split_and!; (done || lia). }
  set (c := λ '((v, o) : Z * Z), v <? cMinValue).
  set (b := λ '((v, o) : Z * Z), (u64 (v * 10), s32 (o - 1))).
  set (P := λ s : Z * Z, ∃ j, 0 ≤ j ≤ 15 ∧ s = (mValue a * 10 ^ j, mOffset a - j) ∧
    mValue a * 10 ^ j < 10 ^ 16).
  assert (∀ j, 0 ≤ j → mValue a * 10 ^ j < 10 ^ 15 → j < 15) as Hj15.
  { intros j Hj Hlt. apply Z.nle_gt. intros Hge. pose proof (pow10_le 15 j ltac:(lia)). nia. }
  assert (∀ s, P s → c s = true → P (b s) ∧ 0 < 15 + s.2 - mOffset a ∧
    15 + (b s).2 - mOffset a < 15 + s.2 - mOffset a) as Hb.
  { intros s (j & Hj & -> & Hlt) Hc. unfold c, b, cMinValue in *. zb. simpl.
    assert (j < 15) by (apply Hj15; lia). pose proof (pow10_pos j ltac:(lia)). unwrap.
    split; [|lia]. exists (j + 1). rewrite pow10_succ by lia. split_and!; try lia. f_equal; lia. }
  assert (P (mValue a, mOffset a)) as Hs.
  { exists 0. rewrite Z.pow_0_r, Z.mul_1_r. split_and!; try lia. f_equal; lia. }
  pose proof (while_inv P c b (λ s Hs Hc, proj1 (Hb s Hs Hc)) 15 _ Hs) as (j & Hj & E & Hlt).
  pose proof (while_done P _ c b Hb 15 _ Hs ltac:(simpl; lia)) as Hd.
  exists j. split_and!; [lia..|done| |done]. rewrite E in Hd. unfold c, cMinValue in Hd. zb. lia.
Qed.

Lemma make_issued issue v o ng :
  Issue.currency issue ≠ 0 → cMinValue ≤ v ≤ cMaxValue → cMinOffset ≤ o ≤ cMaxOffset →
  make issue v o ng = Ok (mk issue v o false ng).
Proof.
  intros Hi Hv Ho. apply (wf_canonicalize (mk issue v o false ng)); [by apply wf_issued|].
  unfold no_negative_zero, cMinValue in *. simpl. lia.
Qed.

Lemma finish_round_exact so issue amount offset rn up :
  Issue.currency issue ≠ 0 → cMinValue ≤ amount ≤ cMaxValue →
  cMinOffset ≤ offset ≤ cMaxOffset →
  finish_round so issue amount offset rn up = Ok (mk issue amount offset false rn).
Proof.
  intros Hi Hv Ho. unfold finish_round, canonicalizeRound, Issue.isCSC.
  rewrite (proj2 (Z.eqb_neq _ 0) Hi), Z.gtb_ltb, (proj2 (Z.ltb_ge _ amount)) by lia.
  assert (is_zero (mk issue amount offset false rn) = false) as Hz.
  { rewrite is_zero_eq. apply Z.eqb_neq. unfold cMinValue in *. simpl. lia. }
  destruct (negb (Bool.eqb rn up)); simpl;
    rewrite (make_issued issue amount offset) by done; simpl; by rewrite Hz, andb_false_r.
Qed.

(** Integer division with the result rounded up or down. *)
Definition div_dir (away : bool) (n d : Z) : Z := (n + if away then d - 1 else 0) / d.

Lemma div_dir_spec (away : bool) n d :
  0 ≤ n → 0 < d →
  if away then 0 ≤ div_dir away n d * d - n < d else 0 ≤ n - div_dir away n d * d < d.
Proof.
  intros Hn Hd. unfold div_dir. pose proof (Z.div_mod (n + if away then d - 1 else 0) d).
  pose proof (Z.mod_pos_bound (n + if away then d - 1 else 0) d). destruct away; lia.
Qed.

Lemma muldiv_round_eq a b d r :
  0 ≤ a < 2 ^ 64 → 0 ≤ b < 2 ^ 64 → 0 < d → 0 ≤ r < 2 ^ 64 → (a * b + r) / d < 2 ^ 64 →
  muldiv_round a b d r = Ok ((a * b + r) / d).
Proof.
  intros Ha Hb Hd Hr Hlt. unfold muldiv_round.
  assert (0 ≤ a * b ≤ (2 ^ 64 - 1) * (2 ^ 64 - 1)) by nia.
  rewrite (wrapu_id 128 (a * b)), (wrapu_id 128 (a * b + r)) by wrap_solve.
  rewrite Z.gtb_ltb, (proj2 (Z.ltb_ge _ _)) by lia.
  rewrite wrapu_id; [done|]. split; [apply Z.div_pos; lia|done].
Qed.

Lemma muldiv_eq a b d :
  0 ≤ a < 2 ^ 64 → 0 ≤ b < 2 ^ 64 → 0 < d → (a * b) / d < 2 ^ 64 →
  muldiv a b d = Ok ((a * b) / d).
Proof.
  intros Ha Hb Hd Hlt. unfold muldiv.
  assert (0 ≤ a * b ≤ (2 ^ 64 - 1) * (2 ^ 64 - 1)) by nia.
  rewrite (wrapu_id 128 (a * b)) by wrap_solve.
  rewrite Z.gtb_ltb, (proj2 (Z.ltb_ge _ _)) by lia.
  rewrite wrapu_id; [done|]. split; [apply Z.div_pos; lia|done].
Qed.

Lemma factor_nonzero a : factor a → is_zero a = false.
Proof. intros (H & _). rewrite is_zero_eq. apply Z.eqb_neq. lia. Qed.

(** The exponent of a product or a quotient before canonicalization. *)
Definition mul_offset (v1 v2 : t) : Z := (operand v1).2 + (operand v2).2 + 14.
Definition div_offset (num den : t) : Z := (operand num).2 - (operand den).2 - 17.

Definition opposite (a b : t) : bool := negb (Bool.eqb (mIsNegative a) (mIsNegative b)).

Lemma quotient_range away V1 V2 D :
  0 < D → 10 ^ 16 * D ≤ V1 * V2 ≤ 10 ^ 18 * D →
  cMinValue ≤ div_dir away (V1 * V2) D ≤ cMaxValue - 7.
Proof.
  intros Hd HV. unfold div_dir, cMinValue, cMaxValue. split.
  - apply Z.div_le_lower_bound; [done|]. destruct away; lia.
  - apply Z.lt_succ_r, Z.div_lt_upper_bound; [done|]. destruct away; nia.
Qed.

Lemma mul_range v1 v2 away :
  factor v1 → factor v2 →
  cMinValue ≤ div_dir away ((operand v1).1 * (operand v2).1) tenTo14 ≤ cMaxValue - 7.
Proof.
  intros H1 H2. destruct (operand_spec v1 H1) as (j1 & _ & -> & Hr1).
  destruct (operand_spec v2 H2) as (j2 & _ & -> & Hr2). simpl.
  apply quotient_range; unfold tenTo14; nia.
Qed.

Lemma div_range num den away :
  factor num → factor den →
  cMinValue ≤ div_dir away ((operand num).1 * tenTo17) (operand den).1 ≤ cMaxValue - 7.
Proof.
  intros H1 H2. destruct (operand_spec num H1) as (j1 & _ & -> & Hr1).
  destruct (operand_spec den H2) as (j2 & _ & -> & Hr2). simpl.
  apply quotient_range; unfold tenTo17, tenTo14; lia.
Qed.

Lemma mulRound_eq so v1 v2 issue up :
  factor v1 → factor v2 → Issue.currency issue ≠ 0 →
  cMinOffset ≤ mul_offset v1 v2 ≤ cMaxOffset →
  let q (away : bool) := div_dir away ((operand v1).1 * (operand v2).1) tenTo14 in
  mulRound so v1 v2 issue up =
    Ok (mk issue (q (negb (Bool.eqb (opposite v1 v2) up))) (mul_offset v1 v2) false
          (opposite v1 v2)) ∧
  multiply v1 v2 issue =
    Ok (mk issue (q false + 7) (mul_offset v1 v2) false (opposite v1 v2)).
Proof.
  intros H1 H2 Hi Ho q. unfold mulRound, multiply.
  rewrite !factor_nonzero by done. simpl. unfold Issue.isCSC.
  rewrite (proj2 (Z.eqb_neq _ 0) Hi), andb_false_r. fold (operand v1) (operand v2).
  unfold mul_offset in *. unfold factor in *.
  pose proof (λ away, mul_range v1 v2 away H1 H2) as Hq.
  destruct (operand_spec v1 H1) as (j1 & Hj1 & E1 & Hr1).
  destruct (operand_spec v2 H2) as (j2 & Hj2 & E2 & Hr2).
  destruct (operand v1) as [V1 O1], (operand v2) as [V2 O2]. simpl in *.
  injection E1 as E1 E1'. injection E2 as E2 E2'. rewrite <- E1 in Hr1. rewrite <- E2 in Hr2.
  unfold cMinOffset, cMaxOffset in *.
  cbv zeta. fold (opposite v1 v2). rewrite (wraps_id 32 (O1 + O2 + 14)) by (done || wrap_solve).
  generalize (negb (Bool.eqb (opposite v1 v2) up)) as away. intros away.
  pose proof (Hq away : cMinValue ≤ q away ≤ _) as Hqa.
  pose proof (Hq false : cMinValue ≤ q false ≤ _) as Hqf. clear Hq.
  assert (q false = V1 * V2 / tenTo14) as Eqf by (unfold q, div_dir; by rewrite Z.add_0_r).
  split.
  - assert ((V1 * V2 + (if away then tenTo14m1 else 0)) / tenTo14 = q away) as Eq by done.
    rewrite muldiv_round_eq; rewrite ?Eq; [|lia|lia|done|by destruct away|].
    + simpl. apply finish_round_exact; [done|lia|done].
    + unfold cMaxValue in *. lia.
  - unfold cMinValue, cMaxValue in *. rewrite muldiv_eq; rewrite <- ?Eqf; [|lia|lia|done|lia]. simpl.
    unwrap. apply make_issued; unfold cMinValue, cMaxValue, cMinOffset, cMaxOffset; lia.
Qed.

Lemma divRound_eq so num den issue up :
  factor num → factor den → Issue.currency issue ≠ 0 →
  cMinOffset ≤ div_offset num den ≤ cMaxOffset →
  let q (away : bool) := div_dir away ((operand num).1 * tenTo17) (operand den).1 in
  divRound so num den issue up =
    Ok (mk issue (q (negb (Bool.eqb (opposite num den) up))) (div_offset num den) false
          (opposite num den)) ∧
  divide num den issue =
    Ok (mk issue (q false + 5) (div_offset num den) false (opposite num den)).
Proof.
  intros H1 H2 Hi Ho q. unfold divRound, divide.
  rewrite !factor_nonzero by done. fold (operand num) (operand den).
  unfold div_offset in *. unfold factor in *.
  pose proof (λ away, div_range num den away H1 H2) as Hq.
  destruct (operand_spec num H1) as (j1 & Hj1 & E1 & Hr1).
  destruct (operand_spec den H2) as (j2 & Hj2 & E2 & Hr2).
  destruct (operand num) as [V1 O1], (operand den) as [V2 O2]. simpl in *.
  injection E1 as E1 E1'. injection E2 as E2 E2'. rewrite <- E1 in Hr1. rewrite <- E2 in Hr2.
  unfold cMinOffset, cMaxOffset in *.
  cbv zeta. fold (opposite num den).
  rewrite (wraps_id 32 (O1 - O2 - 17)), (wrapu_id 64 (V2 - 1)) by (done || wrap_solve).
  generalize (negb (Bool.eqb (opposite num den) up)) as away. intros away.
  pose proof (Hq away : cMinValue ≤ q away ≤ _) as Hqa.
  pose proof (Hq false : cMinValue ≤ q false ≤ _) as Hqf. clear Hq.
  assert (q false = V1 * tenTo17 / V2) as Eqf by (unfold q, div_dir; by rewrite Z.add_0_r).
  assert (0 ≤ tenTo17 < 2 ^ 64) as H17 by done.
  split.
  - assert ((V1 * tenTo17 + (if away then V2 - 1 else 0)) / V2 = q away) as Eq by done.
    rewrite muldiv_round_eq; rewrite ?Eq; [|lia|done|lia|destruct away; lia|].
    + simpl. apply finish_round_exact; [done|lia|done].
    + unfold cMaxValue in *. lia.
  - unfold cMinValue, cMaxValue in *. rewrite muldiv_eq; rewrite <- ?Eqf; [|lia|done|lia|lia].
    simpl. unwrap. apply make_issued; unfold cMinValue, cMaxValue, cMinOffset, cMaxOffset; lia.
Qed.

(** What it means to round a magnitude away from zero or toward zero, in units of
    the last place. *)
Definition rounded (away : bool) (exact got ulp : Z) : Prop :=
  if away then 0 ≤ got - exact < ulp else 0 ≤ exact - got < ulp.

Lemma rounded_scaled away x y d e k :
  k ≤ e → rounded away x y d → rounded away (scaled k x e) (scaled k y e) (scaled k d e).
Proof.
  intros Hk. unfold rounded, scaled. pose proof (pow10_pos (e - k) ltac:(lia)).
  destruct away; nia.
Qed.

Lemma div_dir_rounded away n d : 0 ≤ n → 0 < d → rounded away n (div_dir away n d * d) d.
Proof. intros. by apply div_dir_spec. Qed.

Lemma mul_rounded v1 v2 away k :
  factor v1 → factor v2 → k ≤ mOffset v1 + mOffset v2 - 30 →
  let q := div_dir away ((operand v1).1 * (operand v2).1) tenTo14 in
  rounded away (scaled k (mValue v1 * mValue v2) (mOffset v1 + mOffset v2))
    (scaled k q (mul_offset v1 v2)) (scaled k 1 (mul_offset v1 v2)).
Proof.
  intros H1 H2 Hk q. unfold mul_offset.
  destruct (operand_spec v1 H1) as (j1 & Hj1 & E1 & Hr1).
  destruct (operand_spec v2 H2) as (j2 & Hj2 & E2 & Hr2).
  set (e := mOffset v1 + mOffset v2 - (j1 + j2)).
  replace (_ + 14) with (e + 14) by (rewrite E1, E2; simpl; lia).
  rewrite <- (scaled_shift k (_ * _) (mOffset v1 + mOffset v2) (j1 + j2)) by lia. fold e.
  rewrite <- (scaled_shift k q (e + 14) 14), <- (scaled_shift k 1 (e + 14) 14) by lia.
  rewrite Z.mul_1_l, Z.add_simpl_r.
  apply rounded_scaled; [lia|]. change (10 ^ 14) with tenTo14.
  replace (mValue v1 * mValue v2 * 10 ^ (j1 + j2)) with ((operand v1).1 * (operand v2).1)
    by (rewrite E1, E2, pow10_split by lia; simpl; lia).
  apply div_dir_rounded; [|done]. rewrite E1, E2. simpl. lia.
Qed.

Lemma div_rounded num den away k :
  factor num → factor den → k ≤ mOffset num - 32 →
  let q := div_dir away ((operand num).1 * tenTo17) (operand den).1 in
  let e := div_offset num den + mOffset den in
  rounded away (scaled k (mValue num) (mOffset num))
    (scaled k (q * mValue den) e) (scaled k (mValue den) e).
Proof.
  intros H1 H2 Hk q e. unfold div_offset in e.
  destruct (operand_spec num H1) as (j1 & Hj1 & E1 & Hr1).
  destruct (operand_spec den H2) as (j2 & Hj2 & E2 & Hr2).
  assert (e - j2 = mOffset num - j1 - 17) as He by (unfold e; rewrite E1, E2; simpl; lia).
  rewrite <- (scaled_shift k (mValue num) _ (j1 + 17)) by lia.
  rewrite <- (scaled_shift k (q * _) e j2), <- (scaled_shift k (mValue den) e j2) by lia.
  rewrite He, Z.sub_add_distr. apply rounded_scaled; [lia|].
  rewrite pow10_split, (Z.mul_assoc (mValue num)), <- (Z.mul_assoc q) by lia.
  change (10 ^ 17) with tenTo17.
  replace (mValue num * 10 ^ j1) with (operand num).1 by by rewrite E1.
  replace (mValue den * 10 ^ j2) with (operand den).1 by by rewrite E2.
  apply div_dir_rounded; rewrite ?E1, ?E2; simpl; [|lia]. unfold tenTo17, tenTo14. lia.
Qed.

(** A truncated value with units added is above the exact one. *)
Lemma truncated_above k x m e d u :
  0 < u → rounded false x (scaled k ((m - u) * d) e) (scaled k d e) → x < scaled k (m * d) e.
Proof. unfold rounded, scaled. intros Hu. nia. Qed.

(** C18: rounded multiplication of 16-digit operands into an issued currency.
    Inside the exponent range, [mulRound] returns the exact product
    [v1 * v2], rounded by less than one unit in the last place toward positive
    infinity when [roundUp] holds and toward negative infinity otherwise (away
    from zero exactly when the sign of the result differs from [roundUp]);
    [multiply] returns the truncated product plus seven units, which [canonicalize]
    keeps, so it is above the exact product always, also when that has 16 digits. *)
Theorem mulRound_correct so v1 v2 issue up k :
  factor v1 → factor v2 → Issue.currency issue ≠ 0 →
  cMinOffset ≤ mul_offset v1 v2 ≤ cMaxOffset →
  k ≤ mOffset v1 + mOffset v2 - 30 →
  ∃ r q, mulRound so v1 v2 issue up = Ok r ∧ multiply v1 v2 issue = Ok q ∧
    wf r ∧ mIssue r = issue ∧ mIsNegative r = opposite v1 v2 ∧
    rounded (negb (Bool.eqb (opposite v1 v2) up))
      (scaled k (mValue v1 * mValue v2) (mOffset v1 + mOffset v2))
      (scaled k (mValue r) (mOffset r)) (scaled k 1 (mOffset r)) ∧
    rounded false (scaled k (mValue v1 * mValue v2) (mOffset v1 + mOffset v2))
      (scaled k (mValue q - 7) (mOffset q)) (scaled k 1 (mOffset q)) ∧
    scaled k (mValue v1 * mValue v2) (mOffset v1 + mOffset v2) < scaled k (mValue q) (mOffset q).
Proof.
  intros H1 H2 Hi Ho Hk. destruct (mulRound_eq so v1 v2 issue up H1 H2 Hi Ho) as [-> Hq].
  pose proof (mul_rounded v1 v2 false k H1 H2 Hk) as Hlow.
  do 2 eexists. split_and!; [done|exact Hq| |done|done|by apply mul_rounded|..]; simpl.
  - apply wf_issued; [done| |done]. pose proof (mul_range v1 v2 (negb (Bool.eqb (opposite v1 v2) up)) H1 H2). lia.
  - by rewrite Z.add_simpl_r.
  - rewrite <- (Z.mul_1_r (div_dir _ _ _ + 7)). apply (truncated_above _ _ _ _ 1 7); [lia|]. by rewrite Z.mul_1_r, Z.add_simpl_r.
Qed.

(** C19: rounded division of 16-digit operands into an issued currency: inside the
    exponent range [divRound] returns the exact quotient rounded, in the direction
    [roundUp] asks for, by less than one unit in the last place (stated as the
    product with the divisor); [divide] returns the truncated quotient plus five
    units, which [canonicalize] keeps, so it is above the exact quotient always, also when
    that has 16 digits; division by zero is refused by both. *)
Theorem divRound_correct so num den issue up k :
  factor num → factor den → Issue.currency issue ≠ 0 →
  cMinOffset ≤ div_offset num den ≤ cMaxOffset →
  k ≤ mOffset num - 32 →
  (∃ r q, divRound so num den issue up = Ok r ∧ divide num den issue = Ok q ∧
    wf r ∧ mIssue r = issue ∧ mIsNegative r = opposite num den ∧
    rounded (negb (Bool.eqb (opposite num den) up))
      (scaled k (mValue num) (mOffset num))
      (scaled k (mValue r * mValue den) (mOffset r + mOffset den))
      (scaled k (mValue den) (mOffset r + mOffset den)) ∧
    rounded false (scaled k (mValue num) (mOffset num))
      (scaled k ((mValue q - 5) * mValue den) (mOffset q + mOffset den))
      (scaled k (mValue den) (mOffset q + mOffset den)) ∧
    scaled k (mValue num) (mOffset num) < scaled k (mValue q * mValue den) (mOffset q + mOffset den)) ∧
  (∀ z, mValue z = 0 → divRound so num z issue up = Throw (runtime_error "division by zero") ∧
    divide num z issue = Throw (runtime_error "division by zero")).
Proof.
  intros H1 H2 Hi Ho Hk. split.
  2: { intros z Hz. unfold divRound, divide. by rewrite is_zero_eq, Hz. }
  destruct (divRound_eq so num den issue up H1 H2 Hi Ho) as [-> Hq].
  pose proof (div_rounded num den false k H1 H2 Hk) as Hlow.
  do 2 eexists. split_and!; [done|exact Hq| |done|done|by apply div_rounded|..].
  - apply wf_issued; [done| |done].
    pose proof (div_range num den (negb (Bool.eqb (opposite num den) up)) H1 H2). lia.
  - simpl. by rewrite Z.add_simpl_r.
  - simpl. apply (truncated_above _ _ _ _ _ 5); [lia|]. by rewrite Z.add_simpl_r.
Qed.

(** Two issued amounts, 2 and 3 units of a currency. *)
Definition two := mk (Issue.mk 5 7) 2000000000000000 (-15) false false.
Definition three := mk (Issue.mk 5 7) 3000000000000000 (-15) false false.

Lemma two_three_factor : factor two ∧ factor three.
Proof. unfold factor, cMinValue, cMaxOffset. simpl. lia. Qed.

(** The amounts of the unit tests *)
Definition units (n : Z) : t := mk (Issue.mk 1 1) (n * 10 ^ 14) (-14) false false.

Lemma units_factor n : 10 ≤ n < 100 → factor (units n).
Proof. intros H. unfold factor, cMinValue, cMaxOffset. simpl. lia. Qed.

Lemma csc_factor n : 0 < n < 10 ^ 16 → factor (make_csc n false).
Proof. intros H. unfold factor, cMinValue, cMaxOffset. simpl. lia. Qed.

Lemma mulRound_correct_witness :
  (∃ r, mulRound (mkSwitchover true true) two three (Issue.mk 5 7) true = Ok r ∧
    rounded true (scaled (-60) (mValue two * mValue three) (mOffset two + mOffset three))
      (scaled (-60) (mValue r) (mOffset r)) (scaled (-60) 1 (mOffset r))) ∧
  (∃ q, multiply (units 20) (make_csc 3 false) (Issue.mk 1 1) = Ok q ∧
    mValue q = 60000000000000007 ∧ mOffset q = -15 ∧ scaled (-60) 60 0 < scaled (-60) (mValue q) (mOffset q)).
Proof.
  split.
  - destruct two_three_factor as [H2 H3].
    destruct (mulRound_correct (mkSwitchover true true) two three (Issue.mk 5 7) true (-60))
      as (r & q & Hr & _ & _ & _ & _ & H & _); [done..|by vm_compute|by vm_compute|].
    exists r. exact (conj Hr H).
  - destruct (mulRound_correct (mkSwitchover true true) (units 20) (make_csc 3 false) (Issue.mk 1 1) true (-60))
      as (r & q & _ & Hq & _); [apply units_factor; lia|apply csc_factor; lia|done|by vm_compute|by vm_compute|].
    exists q. split; [exact Hq|]. vm_compute in Hq. injection Hq as <-. by vm_compute.
Defined.

Lemma divRound_correct_witness :
  (∃ r, divRound (mkSwitchover true true) two three (Issue.mk 5 7) true = Ok r ∧
    mValue r = 66666666666666667) ∧
  (∃ q, divide (units 60) (make_csc 3 false) (Issue.mk 1 1) = Ok q ∧
    mValue q = 200000000000000005 ∧ mOffset q = -16).
Proof.
  split.
  - destruct two_three_factor as [H2 H3].
    destruct (divRound_correct (mkSwitchover true true) two three (Issue.mk 5 7) true (-47))
      as [(r & q & Hr & _) _]; [done..|by vm_compute|by vm_compute|].
    exists r. split; [done|]. vm_compute in Hr. by injection Hr as <-.
  - destruct (divRound_correct (mkSwitchover true true) (units 60) (make_csc 3 false) (Issue.mk 1 1) true (-60))
      as [(r & q & _ & Hq & _) _]; [apply units_factor; lia|apply csc_factor; lia|done|by vm_compute|by vm_compute|].
    exists q. split; [exact Hq|]. vm_compute in Hq. injection Hq as <-. by vm_compute.
Defined.

(** Rounding up into the native currency can go below the exact value: five
    units times 2000000.000020 units rounds up to 10000000 drops although the exact product is
    10000000.0001. *)
Theorem mulRound_native_below_exact :
  let a := mk (Issue.mk 5 7) 5000000000000000 (-15) false false in
  let b := mk (Issue.mk 5 7) 2000000000020000 (-9) false false in
  ∀ so, mulRound so a b Issue.cscIssue true = Ok (make_csc 10000000 false) ∧
  scaled (-40) 10000000 0 < scaled (-40) (mValue a * mValue b) (mOffset a + mOffset b).
Proof. intros a b [so so2]. split; [by vm_compute|by vm_compute]. Qed.

End STAmount.
