(* ===== verification/STAmountWire.v ===== *)
(** * The wire format of amounts

    [STAmount::add] and the deserializing constructor of
    [protocol/impl/STAmount.cpp] (the definitions [serialize] and [deserialize] of
    [STAmount]) against each other: which amounts survive the trip, and that no
    amount has a second encoding. *)

From S2P Require Import Prelude Serializer SerialIter Issue STAmount.
Import STAmount.

(** ** Reading bytes back *)

#[local] Arguments be_bytes : simpl never.

Lemma getRawHelper_inv what pre l n x it :
  SerialIter.getRawHelper what n (cursor pre l) = Ok (x, it) →
  ∃ rest, l = x ++ rest ∧ length x = n ∧ it = cursor (pre ++ x) rest.
Proof.
  unfold SerialIter.getRawHelper. rewrite remain_cursor, p_cursor.
  destruct (length l <? n)%nat eqn:E; [done|]. apply Nat.ltb_ge in E. intros [= <- <-].
  exists (drop n l). rewrite take_drop. split; [done|]. rewrite length_take.
  split; [lia|]. unfold cursor. simpl. rewrite <- app_assoc, take_drop, length_app, length_take.
  f_equal. lia.
Qed.

Lemma getBitString_inv bits pre l v it :
  Forall is_byte l → SerialIter.getBitString bits (cursor pre l) = Ok (v, it) →
  0 ≤ v < 256 ^ Z.of_nat (bits / 8) ∧
  ∃ rest, l = be_bytes (bits / 8) v ++ rest ∧ it = cursor (pre ++ be_bytes (bits / 8) v) rest.
Proof.
  intros Hl H. apply bind_ok in H as ([x it'] & H & Hv).
  apply getRawHelper_inv in H as (rest & -> & Hn & ->). injection Hv as <- <-.
  apply Forall_app in Hl as [Hx _]. pose proof (be_val_bound x Hx). rewrite Hn in *.
  split; [done|]. exists rest. rewrite <- Hn, be_bytes_be_val by done. done.
Qed.

Lemma get64_inv pre l v it :
  Forall is_byte l → SerialIter.get64 (cursor pre l) = Ok (v, it) →
  is_unsigned 64 v ∧ ∃ rest, l = be_bytes 8 v ++ rest ∧ it = cursor (pre ++ be_bytes 8 v) rest.
Proof.
  intros Hl H. pose proof H as H'. apply bind_ok in H' as ([x it'] & H' & _).
  apply getRawHelper_inv in H' as (rest & -> & Hn & _). apply Forall_app in Hl as [Hx _].
  pose proof (be_val_bound x Hx). pose proof (be_bytes_be_val x Hx) as E. rewrite Hn in *.
  destruct (get_int_cursor pre (be_val x) rest) as (_ & _ & G).
  rewrite E in G. rewrite G in H. injection H as <- <-.
  rewrite wrapu_id by done. split; [done|]. exists rest. by rewrite !E.
Qed.

(** ** Bits of the amount word *)

Lemma land_pow2 x n : 0 ≤ n → Z.land x (2 ^ n) = if Z.testbit x n then 2 ^ n else 0.
Proof.
  intros Hn. apply Z.bits_inj'. intros i Hi. rewrite Z.land_spec, Z.pow2_bits_eqb by done.
  destruct (Z.eqb_spec n i) as [->|Hne].
  - destruct (Z.testbit x i) eqn:E; rewrite ?Z.bits_0, ?Z.pow2_bits_true by done; done.
  - rewrite andb_false_r. destruct (Z.testbit x n); rewrite ?Z.bits_0; [|done].
    symmetry. by apply Z.pow2_bits_false.
Qed.

Lemma land_pow2_zero x n : 0 ≤ n → (Z.land x (2 ^ n) =? 0) = negb (Z.testbit x n).
Proof.
  intros Hn. rewrite land_pow2 by done. destruct (Z.testbit x n); simpl; [|done].
  apply Z.eqb_neq. lia.
Qed.

Lemma testbit_high_low h x n i :
  0 ≤ n → 0 ≤ i → 0 ≤ x < 2 ^ n → Z.testbit (h * 2 ^ n + x) (n + i) = Z.testbit h i.
Proof.
  intros Hn Hi Hx. rewrite <- (shiftr_high_low h x n) at 2 by done.
  rewrite Z.shiftr_spec by done. f_equal. lia.
Qed.

(** ** Encodable amounts *)

(** The bytes [serialize] appends. *)
Definition wire (a : t) : list Z := Serializer.mData (serialize a (Serializer.mk [])).

Definition is_uint160 (x : Z) : Prop := 0 ≤ x < 2 ^ 160.

(** The amounts that have an encoding. *)
Definition encodable (a : t) : Prop :=
  if mIsNative a then
    mIssue a = Issue.cscIssue ∧ mOffset a = 0 ∧ 0 ≤ mValue a < 2 ^ 62 ∧
    (mIsNegative a = true → mValue a ≠ 0)
  else
    0 < Issue.currency (mIssue a) < 2 ^ 160 ∧ 0 < Issue.account (mIssue a) < 2 ^ 160 ∧
    ((mValue a = 0 ∧ mOffset a = -100 ∧ mIsNegative a = false) ∨
     (cMinValue ≤ mValue a < 2 ^ 54 ∧ cMinOffset ≤ mOffset a ≤ cMaxOffset)).

(** The 64-bit word of an encodable amount: ten bits above the mantissa for an
    issued amount, two above the drops for a native one. *)
Definition word (a : t) : Z :=
  if mIsNative a then (if mIsNegative a then 0 else 1) * 2 ^ 62 + mValue a
  else if mValue a =? 0 then 512 * 2 ^ 54 + 0
  else (mOffset a + 512 + 97 + if mIsNegative a then 0 else 256) * 2 ^ 54 + mValue a.

Lemma encodable_word a s :
  encodable a →
  serialize a s = Serializer.mk (Serializer.mData s ++ be_bytes 8 (word a) ++
    if mIsNative a then []
    else be_bytes 20 (Issue.currency (mIssue a)) ++ be_bytes 20 (Issue.account (mIssue a))).
Proof.
  intros Ha. unfold serialize, word, encodable in *. rewrite is_zero_eq, !add64_bytes.
  unfold Serializer.add160, Serializer.addBitString, Serializer.push. simpl fst.
  change (160 / 8)%nat with 20%nat.
  destruct (mIsNative a).
  - destruct Ha as (_ & _ & Hv & _). rewrite app_nil_r. destruct (mIsNegative a); simpl negb.
    + by rewrite Z.mul_0_l, Z.add_0_l.
    + rewrite Z.lor_comm. change cPosNative with (1 * 2 ^ 62). by rewrite lor_high_low by lia.
  - destruct Ha as (_ & _ & Ha). destruct (mValue a =? 0) eqn:E; zb.
    + simpl Serializer.mData. rewrite <- !app_assoc. by rewrite Z.add_0_r.
    + destruct Ha as [[? _]|[Hv Ho]]; [lia|]. unfold cMinValue, cMinOffset, cMaxOffset in *.
      rewrite !(Z.lor_comm (mValue a)), !(wraps_id 32) by (done || wrap_solve).
      rewrite !(wrapu_id 64 (_ + 97)) by wrap_solve.
      rewrite !Z.shiftl_mul_pow2, !(wrapu_id 64 (_ * _)) by wrap_solve.
      rewrite !lor_high_low by lia.
      destruct (mIsNegative a); simpl Serializer.mData; rewrite <- !app_assoc;
        do 4 f_equal; lia.
Qed.

(** ** Decoding *)

(** What the deserializing constructor does with the word [h * 2 ^ 54 + v] of an
    issued amount. *)
Lemma issued_word h v :
  512 ≤ h < 1024 → 0 ≤ v < 2 ^ 54 →
  let w := h * 2 ^ 54 + v in
  Z.land w cNotNative ≠ 0 ∧ s32 (Z.shiftr w 54) = h ∧
  Z.land w (u64 (Z.lnot (Z.shiftl 1023 54))) = v.
Proof.
  intros Hh Hv w. change cNotNative with (2 ^ 63).
  change (u64 (Z.lnot (Z.shiftl 1023 54))) with (Z.ones 54). split_and!.
  - pose proof (land_pow2_zero w 63 ltac:(lia)) as E.
    change 63 with (54 + 9) in E at 2. unfold w in E. rewrite testbit_high_low in E by lia.
    replace (Z.testbit h 9) with true in E.
    + simpl in E. unfold w. by zb.
    + symmetry. apply Z.testbit_true; [lia|]. change (2 ^ 9) with 512.
      by replace (h / 512) with 1 by (apply (Z.div_unique h 512 1 (h - 512)); lia).
  - unfold w. rewrite shiftr_high_low by lia. by unwrap.
  - unfold w. by rewrite land_mask_low.
Qed.

Lemma offset_bits h :
  512 ≤ h < 1024 → Z.land h 255 = h mod 256 ∧ (Z.land h 256 =? 0) = (h <? 768).
Proof.
  intros Hh. change 255 with (Z.ones 8). rewrite Z.land_ones by lia. split; [done|].
  change 256 with (2 ^ 8) at 1. rewrite land_pow2_zero by lia.
  destruct (Z.ltb_spec h 768).
  - rewrite (proj2 (Z.testbit_false h 8 ltac:(lia))); [done|]. change (2 ^ 8) with 256.
    by replace (h / 256) with 2 by (apply (Z.div_unique h 256 2 (h - 512)); lia).
  - rewrite (proj2 (Z.testbit_true h 8 ltac:(lia))); [done|]. change (2 ^ 8) with 256.
    by replace (h / 256) with 3 by (apply (Z.div_unique h 256 3 (h - 768)); lia).
Qed.

(** The words of native amounts. *)
Lemma native_word w :
  0 ≤ w < 2 ^ 63 →
  Z.land w cNotNative = 0 ∧ (Z.land w cPosNative =? 0) = (w <? 2 ^ 62) ∧
  (2 ^ 62 ≤ w → Z.land w (u64 (Z.lnot cPosNative)) = w - 2 ^ 62).
Proof.
  intros Hw. change cNotNative with (2 ^ 63). change cPosNative with (2 ^ 62).
  change (u64 (Z.lnot (2 ^ 62))) with (Z.lor (Z.ones 62) (2 ^ 63)).
  assert (Z.land w (2 ^ 63) = 0) as H63.
  { rewrite land_pow2 by lia. rewrite (proj2 (Z.testbit_false w 63 ltac:(lia))); [done|].
    by rewrite Z.div_small by lia. }
  split_and!; [done| |].
  - rewrite land_pow2_zero by lia. destruct (Z.ltb_spec w (2 ^ 62)).
    + rewrite (proj2 (Z.testbit_false w 62 ltac:(lia))); [done|].
      by rewrite Z.div_small by lia.
    + rewrite (proj2 (Z.testbit_true w 62 ltac:(lia))); [done|].
      by replace (w / 2 ^ 62) with 1 by (apply (Z.div_unique w (2 ^ 62) 1 (w - 2 ^ 62)); lia).
  - intros Hge. rewrite Z.land_lor_distr_r, H63, Z.lor_0_r, Z.land_ones by lia.
    symmetry. apply (Z.mod_unique w (2 ^ 62) 1); lia.
Qed.

(** The amount a native word stands for. *)
Definition native_of (w : Z) : t :=
  mk Issue.cscIssue (if w <? 2 ^ 62 then w else w - 2 ^ 62) 0 true (w <? 2 ^ 62).

Lemma deserialize_native pre w rest :
  0 ≤ w < 2 ^ 63 →
  deserialize (cursor pre (be_bytes 8 w ++ rest)) =
  if w =? 0 then Throw (runtime_error "negative zero is not canonical")
  else Ok (native_of w, cursor (pre ++ be_bytes 8 w) rest).
Proof.
  intros Hw. unfold deserialize. destruct (get_int_cursor pre w rest) as (_ & _ & ->).
  rewrite (wrapu_id 64 w) by (unfold is_unsigned; lia). rewrite ok_bind. cbv beta iota.
  destruct (native_word w Hw) as (-> & -> & Hpos). unfold native_of.
  destruct (Z.ltb_spec w (2 ^ 62)); cbv zeta beta iota; rewrite (Z.eqb_refl 0).
  - by destruct (w =? 0).
  - rewrite Hpos, (proj2 (Z.eqb_neq w 0)) by lia. done.
Qed.

(** The amount an issued word stands for. *)
Definition issued_of (issue : Issue.t) (h v : Z) : option t :=
  let o := h mod 256 - 97 in
  if v =? 0 then (if h =? 512 then Some (make_zero issue) else None)
  else if (v <? cMinValue) || (o <? cMinOffset) || (o >? cMaxOffset) then None
  else Some (mk issue v o false (h <? 768)).

Lemma deserialize_issued pre h v c acc rest :
  512 ≤ h < 1024 → 0 ≤ v < 2 ^ 54 → 0 < c < 2 ^ 160 → 0 < acc < 2 ^ 160 →
  let l := be_bytes 8 (h * 2 ^ 54 + v) ++ be_bytes 20 c ++ be_bytes 20 acc in
  deserialize (cursor pre (l ++ rest)) =
  match issued_of (Issue.mk c acc) h v with
  | Some a => Ok (a, cursor (pre ++ l) rest)
  | None => Throw (runtime_error "invalid currency value")
  end.
Proof.
  intros Hh Hv Hc Ha l. unfold deserialize, l. rewrite <- !app_assoc.
  destruct (get_int_cursor pre (h * 2 ^ 54 + v) (be_bytes 20 c ++ be_bytes 20 acc ++ rest))
    as (_ & _ & ->).
  rewrite (wrapu_id 64 (_ + _)) by (unfold is_unsigned; lia). rewrite ok_bind. cbv beta iota.
  destruct (issued_word h v Hh Hv) as (Hn & -> & ->).
  rewrite (proj2 (Z.eqb_neq _ 0) Hn). unfold SerialIter.get160.
  rewrite (getBitString_cursor 160 _ c) by (change (256 ^ _) with (2 ^ 160); lia). rewrite ok_bind. unfold Issue.isCSC.
  cbv beta iota. rewrite (proj2 (Z.eqb_neq c 0)) by lia.
  rewrite (getBitString_cursor 160 _ acc) by (change (256 ^ _) with (2 ^ 160); lia). rewrite ok_bind. cbv beta iota.
  rewrite (proj2 (Z.eqb_neq acc 0)) by lia. change (160 / 8)%nat with 20%nat.
  destruct (offset_bits h Hh) as [-> ->]. rewrite <- !app_assoc. unfold issued_of.
  destruct (v =? 0) eqn:Ev; zb; simpl.
  - destruct (h =? 512); simpl; [|done]. by rewrite canonicalize_zero.
  - assert ((v >? cMaxValue) = false) as ->.
    { rewrite Z.gtb_ltb. apply Z.ltb_ge. unfold cMaxValue. lia. }
    rewrite orb_false_r. case_if; [done|]. zb.
    rewrite wf_canonicalize; [done| |].
    + apply wf_issued; simpl; unfold cMaxValue; lia.
    + unfold no_negative_zero. simpl. lia.
Qed.

Lemma native_of_word a :
  encodable a → mIsNative a = true → 0 < word a < 2 ^ 63 ∧ native_of (word a) = a.
Proof.
  destruct a as [issue v o n ng]. unfold encodable, word, native_of. simpl.
  intros Ha ->. destruct Ha as (-> & -> & Hv & Hz).
  destruct ng; simpl; rewrite ?Z.mul_0_l, ?Z.mul_1_l, ?Z.add_0_l.
  - specialize (Hz eq_refl). rewrite (proj2 (Z.ltb_lt v _)) by lia. split; [lia|done].
  - rewrite (proj2 (Z.ltb_ge (2 ^ 62 + v) _)) by lia. split; [lia|]. f_equal. lia.
Qed.

Lemma issued_of_word a :
  encodable a → mIsNative a = false →
  ∃ h v, 512 ≤ h < 1024 ∧ 0 ≤ v < 2 ^ 54 ∧ word a = h * 2 ^ 54 + v ∧
    issued_of (mIssue a) h v = Some a.
Proof.
  destruct a as [issue v o n ng]. unfold encodable, word, issued_of. simpl.
  intros Ha ->. destruct Ha as (Hc & Hac & [(-> & -> & ->)|[Hv Ho]]).
  - exists 512, 0. split_and!; try done. simpl. unfold make_zero, Issue.isCSC.
    by rewrite (proj2 (Z.eqb_neq _ 0)) by lia.
  - unfold cMinValue, cMinOffset, cMaxOffset in *.
    exists (o + 512 + 97 + if ng then 0 else 256), v.
    rewrite (proj2 (Z.eqb_neq v 0)) by lia.
    assert ((o + 512 + 97 + (if ng then 0 else 256)) mod 256 - 97 = o) as ->.
    { rewrite <- (Z.mod_unique _ 256 (if ng then 2 else 3) (o + 97)); [lia|left; lia|].
      destruct ng; lia. }
    rewrite (proj2 (Z.ltb_ge v _)), (proj2 (Z.ltb_ge o _)), Z.gtb_ltb, (proj2 (Z.ltb_ge _ o))
      by lia. simpl.
    split_and!; try (destruct ng; lia). do 2 f_equal. destruct ng; [apply Z.ltb_lt|apply Z.ltb_ge]; lia.
Qed.

Lemma wire_eq a :
  encodable a → wire a = be_bytes 8 (word a) ++
    if mIsNative a then []
    else be_bytes 20 (Issue.currency (mIssue a)) ++ be_bytes 20 (Issue.account (mIssue a)).
Proof. intros Ha. unfold wire. by rewrite encodable_word. Qed.

Lemma deserialize_wire a pre rest :
  encodable a → deserialize (cursor pre (wire a ++ rest)) = Ok (a, cursor (pre ++ wire a) rest).
Proof.
  intros Ha. rewrite wire_eq by done. destruct (mIsNative a) eqn:En.
  - destruct (native_of_word a Ha En) as [Hw E]. rewrite app_nil_r.
    rewrite deserialize_native by lia. by rewrite (proj2 (Z.eqb_neq _ 0)), E by lia.
  - destruct (issued_of_word a Ha En) as (h & v & Hh & Hv & -> & E).
    unfold encodable in Ha. rewrite En in Ha. destruct Ha as (Hc & Hac & _).
    rewrite deserialize_issued by lia.
    replace (Issue.mk _ _) with (mIssue a) by by destruct (mIssue a).
    by rewrite E.
Qed.

Lemma native_of_encodable w :
  0 < w < 2 ^ 63 → encodable (native_of w) ∧ wire (native_of w) = be_bytes 8 w.
Proof.
  intros Hw. assert (encodable (native_of w)) as He.
  { unfold encodable, native_of. simpl. split_and!; try done;
      destruct (Z.ltb_spec w (2 ^ 62)); simpl; try lia; done. }
  split; [done|]. rewrite wire_eq by done. change (mIsNative (native_of w)) with true.
  cbv iota. rewrite app_nil_r. f_equal.
  unfold word, native_of. simpl. destruct (Z.ltb_spec w (2 ^ 62)); lia.
Qed.

Lemma issued_of_encodable c acc h v a :
  0 < c < 2 ^ 160 → 0 < acc < 2 ^ 160 → 512 ≤ h < 1024 → 0 ≤ v < 2 ^ 54 →
  issued_of (Issue.mk c acc) h v = Some a →
  encodable a ∧ wire a = be_bytes 8 (h * 2 ^ 54 + v) ++ be_bytes 20 c ++ be_bytes 20 acc.
Proof.
  intros Hc Hac Hh Hv. unfold issued_of.
  destruct (v =? 0) eqn:Ev; zb.
  - destruct (h =? 512) eqn:Eh; [|done]. zb. intros [= <-]. subst.
    assert (encodable (make_zero (Issue.mk c acc))) as He.
    { unfold encodable, make_zero, Issue.isCSC. simpl. rewrite (proj2 (Z.eqb_neq c 0)) by lia.
      split_and!; (done || lia || auto). }
    split; [done|]. rewrite wire_eq by done. unfold word, make_zero, Issue.isCSC. simpl.
    by rewrite (proj2 (Z.eqb_neq c 0)) by lia.
  - case_if; [done|]. zb. intros [= <-].
    assert (encodable (mk (Issue.mk c acc) v (h mod 256 - 97) false (h <? 768))) as He.
    { unfold encodable. simpl. split_and!; [lia..|]. right. lia. }
    split; [done|]. rewrite wire_eq by done. unfold word. cbn [mIsNative mValue mOffset mIsNegative mIssue].
    rewrite (proj2 (Z.eqb_neq v 0)) by done. do 2 f_equal.
    assert (h mod 256 - 97 + 512 + 97 + (if h <? 768 then 0 else 256) = h) as ->; [|done].
    pose proof (Z.mod_pos_bound h 256). pose proof (Z.div_mod h 256).
    assert (h / 256 = 2 ∨ h / 256 = 3) as Hd.
    { assert (2 ≤ h / 256 < 4); [|lia].
      split; [apply Z.div_le_lower_bound|apply Z.div_lt_upper_bound]; lia. }
    destruct (Z.ltb_spec h 768); lia.
Qed.

Lemma deserialize_inv pre l a it :
  Forall is_byte l → deserialize (cursor pre l) = Ok (a, it) →
  encodable a ∧ ∃ rest, l = wire a ++ rest ∧ it = cursor (pre ++ wire a) rest.
Proof.
  intros Hl H. pose proof H as H1. unfold deserialize in H1.
  apply bind_ok in H1 as ([w it1] & H1 & Hk). apply get64_inv in H1 as (Hw & l1 & -> & ->); [|done].
  destruct (Z.lt_ge_cases w (2 ^ 63)) as [Hlt|Hge].
  - clear Hk. rewrite deserialize_native in H by (unfold is_unsigned in *; lia).
    destruct (w =? 0) eqn:E; [done|]. zb. injection H as <- <-.
    destruct (native_of_encodable w) as [He ->]; [unfold is_unsigned in *; lia|]. eauto.
  - set (h := w / 2 ^ 54). set (v := w mod 2 ^ 54).
    assert (w = h * 2 ^ 54 + v) as Ew by (unfold h, v; pose proof (Z.div_mod w (2 ^ 54)); lia).
    assert (0 ≤ v < 2 ^ 54) as Hv by (apply Z.mod_pos_bound; lia).
    assert (512 ≤ h < 1024) as Hh.
    { unfold is_unsigned in Hw. lia. }
    apply Forall_app in Hl as [_ Hl1].
    destruct (issued_word h v Hh Hv) as (Hn & _ & _). rewrite <- Ew in Hn.
    rewrite (proj2 (Z.eqb_neq _ 0) Hn) in Hk.
    apply bind_ok in Hk as ([c it2] & H2 & Hk).
    apply getBitString_inv in H2 as (Hc & l2 & -> & ->); [|done].
    apply Forall_app in Hl1 as [_ Hl2]. change (256 ^ _) with (2 ^ 160) in Hc.
    unfold Issue.isCSC in Hk. destruct (c =? 0) eqn:Ec; [done|]. zb.
    apply bind_ok in Hk as ([acc it3] & H3 & Hk).
    apply getBitString_inv in H3 as (Ha & rest & -> & ->); [|done].
    change (256 ^ _) with (2 ^ 160) in Ha.
    destruct (acc =? 0) eqn:Ea; [done|]. clear Hk. zb.
    change (160 / 8)%nat with 20%nat in *. rewrite Ew in *.
    rewrite !app_assoc, <- (app_assoc _ (be_bytes 20 c)) in H |- *.
    rewrite deserialize_issued in H by lia.
    destruct (issued_of _ h v) as [a'|] eqn:Ei; [|done]. injection H as <- <-.
    apply issued_of_encodable in Ei as [He ->]; [|lia..]. eauto.
Qed.

(** C14: the wire format of amounts.  An amount that is encodable (native below
    2^62 drops and not a negative zero, or issued with a mantissa below 2^54) is
    read back unchanged from where it was written; and every byte string the
    constructor accepts is the encoding of the amount it yields, so amounts have
    exactly one encoding. *)
Theorem wire_roundtrip :
  (∀ a pre rest, encodable a →
    deserialize (cursor pre (wire a ++ rest)) = Ok (a, cursor (pre ++ wire a) rest)) ∧
  (∀ pre l a it, Forall is_byte l → deserialize (cursor pre l) = Ok (a, it) →
    encodable a ∧ ∃ rest, l = wire a ++ rest ∧ it = cursor (pre ++ wire a) rest).
Proof. split; [intros; by apply deserialize_wire|intros; by eapply deserialize_inv]. Qed.

(** C40: a well-formed issued amount whose mantissa needs more than 54 bits, which
    [cMaxValue] admits, is never read back: its high digits run into the exponent
    bits.  One unit divided by one unit is such an amount, and reads back as
    9928.007452590085 units. *)
Theorem wire_loses_digits :
  (∀ a pre rest it, mIsNative a = false → 2 ^ 54 ≤ mValue a → Forall is_byte rest →
    Forall is_byte (wire a) → deserialize (cursor pre (wire a ++ rest)) ≠ Ok (a, it)) ∧
  let one := mk (Issue.mk 5 7) 1000000000000000 (-15) false false in
  ∃ q r, divide one one (Issue.mk 5 7) = Ok q ∧ wf q ∧
    deserialize (cursor [] (wire q)) = Ok (r, cursor (wire q) []) ∧
    mValue q = 100000000000000005 ∧ mOffset q = -17 ∧
    mValue r = 9928007452590085 ∧ mOffset r = -12.
Proof.
  split.
  - intros a pre rest it Hn Hv Hr Hw H. apply deserialize_inv in H as [He _].
    + unfold encodable, cMinValue in He. rewrite Hn in He. lia.
    + by apply Forall_app.
  - do 2 eexists. split; [by vm_compute|]. split; [|by vm_compute].
    apply wf_issued; [done|split; by vm_compute..].
Qed.

(** Scaling a negative native amount down to no drops leaves the sign set:
    [canonicalize] returns a negative zero, which is not equal to zero and whose
    encoding is refused when it is read. *)
Theorem negative_zero_unreadable :
  ∃ a, make Issue.cscIssue 1 (-1) true = Ok a ∧ is_zero a = true ∧
    eqb a (make_csc 0 false) = false ∧ ltb a (make_csc 0 false) = Ok true ∧
    deserialize (cursor [] (wire a)) = Throw (runtime_error "negative zero is not canonical").
Proof. eexists. split; [by vm_compute|]. by vm_compute. Qed.
