(* ===== verification/LedgerTiming.v ===== *)
(** * LedgerTiming: when ledgers close and when consensus is reached

    Models [consensus/LedgerTiming.h] and [consensus/LedgerTiming.cpp].  A
    [NetClock] time point or duration is a 32-bit unsigned number of seconds; a
    [std::chrono::milliseconds] is a [Z].  Counts of proposers are [std::size_t]
    values far below 2^57, so that the percentage computations do not wrap. *)

From S2P Require Import Prelude.

(** ** Protocol parameters *)

Definition minimumConsensusPercentage : Z := 80.
Definition ledgerPossibleTimeResolutions : list Z := [10; 20; 30; 60; 90; 120].
Definition ledgerDefaultTimeResolution : Z := 30.
Definition increaseLedgerTimeResolutionEvery : Z := 8.
Definition decreaseLedgerTimeResolutionEvery : Z := 1.
(** seconds *)
Definition LEDGER_IDLE_INTERVAL : Z := 300.
Definition PROPOSE_FRESHNESS : Z := 20.
Definition PROPOSE_INTERVAL : Z := 12.
(** milliseconds *)
Definition LEDGER_MIN_CONSENSUS : Z := 1950.
Definition LEDGER_MIN_CLOSE : Z := 2000.
Definition AV_MIN_CONSENSUS_TIME : Z := 5000.
(** percentages *)
Definition AV_INIT_CONSENSUS_PCT : Z := 50.
Definition AV_MID_CONSENSUS_TIME : Z := 50.
Definition AV_MID_CONSENSUS_PCT : Z := 65.
Definition AV_LATE_CONSENSUS_TIME : Z := 85.
Definition AV_LATE_CONSENSUS_PCT : Z := 70.
Definition AV_STUCK_CONSENSUS_TIME : Z := 200.
Definition AV_STUCK_CONSENSUS_PCT : Z := 95.
Definition AV_CT_CONSENSUS_PCT : Z := 75.

(** ** Close times *)

(** [std::find] over an array: the index, or the length of the array. *)
Fixpoint find_index (x : Z) (l : list Z) : nat :=
  match l with
  | [] => 0
  | y :: l => if y =? x then 0 else S (find_index x l)
  end.

Definition getNextLedgerTimeResolution (previousResolution : Z) (previousAgree : bool)
    (ledgerSeq : Z) : Z :=
  let rs := ledgerPossibleTimeResolutions in
  let iter := find_index previousResolution rs in
  if (iter =? length rs)%nat then previousResolution
  else
    if negb previousAgree && (ledgerSeq mod decreaseLedgerTimeResolutionEvery =? 0) then
      (* [++iter] stays past the comparison; the second branch needs [previousAgree] *)
      if negb (S iter =? length rs)%nat then nth (S iter) rs 0 else previousResolution
    else if previousAgree && (ledgerSeq mod increaseLedgerTimeResolutionEvery =? 0) then
      if negb (iter =? 0)%nat then nth (pred iter) rs 0 else previousResolution
    else previousResolution.

Definition roundCloseTime (closeTime closeResolution : Z) : Z :=
  if closeTime =? 0 then closeTime
  else
    let closeTime := u32 (closeTime + closeResolution / 2) in
    u32 (closeTime - closeTime mod closeResolution).

Definition effCloseTime (closeTime resolution priorCloseTime : Z) : Z :=
  if closeTime =? 0 then closeTime
  else Z.max (roundCloseTime closeTime resolution) (u32 (priorCloseTime + 1)).

(** ** Closing the ledger and declaring consensus *)

Definition shouldCloseLedger (anyTransactions : bool)
    (prevProposers proposersClosed proposersValidated : Z)
    (prevRoundTime timeSincePrevClose openTime idleInterval : Z) : bool :=
  if (prevRoundTime <? -1000) || (prevRoundTime >? 600000) || (timeSincePrevClose >? 600000)
  then true
  else if negb anyTransactions then
    if timeSincePrevClose >=? idleInterval * 1000 then true
    else proposersClosed >? prevProposers / 2
  else if proposersClosed + proposersValidated >? prevProposers / 2 then true
  else if openTime <? LEDGER_MIN_CLOSE then false
  else if openTime <? prevRoundTime ÷ 2 then false
  else true.

Definition checkConsensusReached (agreeing total : Z) (count_self : bool) : bool :=
  if total =? 0 then true
  else
    let '(agreeing, total) :=
      if count_self then (agreeing + 1, total + 1) else (agreeing, total) in
    let currentPercentage := agreeing * 100 / total in
    currentPercentage >? minimumConsensusPercentage.

Inductive ConsensusState := No | MovedOn | Yes.

Definition checkConsensus (prevProposers currentProposers currentAgree currentFinished : Z)
    (previousAgreeTime currentAgreeTime : Z) (proposing : bool) : ConsensusState :=
  if currentAgreeTime <=? LEDGER_MIN_CONSENSUS then No
  else if (currentProposers <? prevProposers * 3 / 4) &&
          (currentAgreeTime <? previousAgreeTime + LEDGER_MIN_CONSENSUS) then No
  else if checkConsensusReached currentAgree currentProposers proposing then Yes
  else if checkConsensusReached currentFinished currentProposers false then MovedOn
  else No.

(** ** Close time properties *)

Lemma roundCloseTime_spec ct res :
  0 < ct → 0 < res → ct + res / 2 < 2 ^ 32 →
  roundCloseTime ct res mod res = 0 ∧
  roundCloseTime ct res ≤ ct + res / 2 < roundCloseTime ct res + res.
Proof.
  intros Hct Hres Hlt. unfold roundCloseTime. rewrite (proj2 (Z.eqb_neq ct 0)) by lia.
  assert (0 ≤ res / 2) by (apply Z.div_pos; lia). unwrap.
  set (x := ct + res / 2) in *. pose proof (Z.mod_pos_bound x res Hres).
  pose proof (Z.div_mod x res ltac:(lia)). assert (0 ≤ x / res) by (apply Z.div_pos; lia).
  assert (x - x mod res = res * (x / res)) as E by lia. unwrap. split; [|lia].
  rewrite E, Z.mul_comm. apply Z.mod_mul. lia.
Qed.

(** C31: the effective close time of a ledger lies after the close time of its
    parent and is otherwise the multiple of the resolution nearest to the proposed
    time (midpoints round up); a node that proposes no time (zero) keeps
    proposing none. *)
Theorem effCloseTime_correct ct res prior :
  In res ledgerPossibleTimeResolutions → 0 ≤ prior → prior + 1 < 2 ^ 32 →
  0 ≤ ct → ct + res / 2 < 2 ^ 32 →
  let r := effCloseTime ct res prior in
  if ct =? 0 then r = 0
  else prior < r ∧ roundCloseTime ct res ≤ r ∧
    (prior < roundCloseTime ct res →
       r mod res = 0 ∧ 2 * r - res ≤ 2 * ct < 2 * r + res) ∧
    (roundCloseTime ct res ≤ prior → r = prior + 1).
Proof.
  intros Hin Hp Hp1 Hct Hlt r.
  assert (0 < res ∧ res = 2 * (res / 2)) as [Hres Heven].
  { simpl in Hin. repeat (destruct Hin as [<-|Hin]; [done|]). done. }
  unfold r, effCloseTime. destruct (ct =? 0) eqn:E; zb; [done|].
  destruct (roundCloseTime_spec ct res) as [Hm Hr]; [lia..|]. unwrap.
  split_and!; [lia|lia| |lia]. intros Hgt. rewrite Z.max_l by lia. split; [done|lia].
Qed.

Lemma effCloseTime_correct_witness :
  In 30 ledgerPossibleTimeResolutions ∧ effCloseTime 85 30 130 = 131.
Proof.
  assert (In 30 ledgerPossibleTimeResolutions) as Hin by (simpl; auto). split; [done|].
  destruct (effCloseTime_correct 85 30 130 Hin) as (_ & _ & _ & H); [done..|].
  by apply H.
Defined.

(** The close time resolution stays in the table.  After a ledger without
    agreement on the close time it moves one step coarser (or stays at the
    coarsest); after one with agreement it moves one step finer every eighth
    ledger (or stays at the finest); otherwise it does not change. *)
Theorem getNextLedgerTimeResolution_correct i agree ledgerSeq :
  (i < 6)%nat →
  let at_ j := nth j ledgerPossibleTimeResolutions 0 in
  getNextLedgerTimeResolution (at_ i) agree ledgerSeq =
    if negb agree then at_ (Nat.min (S i) 5)
    else if ledgerSeq mod 8 =? 0 then at_ (pred i) else at_ i.
Proof.
  intros Hi at_. unfold getNextLedgerTimeResolution.
  change decreaseLedgerTimeResolutionEvery with 1. rewrite Z.mod_1_r.
  change increaseLedgerTimeResolutionEvery with 8.
  destruct agree; simpl negb; simpl andb.
  - destruct (ledgerSeq mod 8 =? 0); do 6 (destruct i as [|i]; [done|]); lia.
  - do 6 (destruct i as [|i]; [done|]); lia.
Qed.

Lemma getNextLedgerTimeResolution_correct_witness :
  getNextLedgerTimeResolution 30 false 7 = 60 ∧ getNextLedgerTimeResolution 30 true 8 = 20.
Proof.
  split.
  - apply (getNextLedgerTimeResolution_correct 2 false 7). lia.
  - apply (getNextLedgerTimeResolution_correct 2 true 8). lia.
Defined.

(** ** Quorums *)

(** Integer percentages: "more than 80" means at least 81 percent. *)
Lemma checkConsensusReached_iff agreeing total (self : bool) :
  0 < total → 0 ≤ agreeing →
  checkConsensusReached agreeing total self = true ↔
  81 * (total + if self then 1 else 0) ≤ 100 * (agreeing + if self then 1 else 0).
Proof.
  intros Ht Ha. unfold checkConsensusReached, minimumConsensusPercentage.
  rewrite (proj2 (Z.eqb_neq total 0)) by lia.
  assert (∀ a t, 0 < t → (a * 100 / t >? 80) = true ↔ 81 * t ≤ 100 * a) as H.
  { intros a t Hpos. rewrite Z.gtb_gt. split; intros Hgt.
    - pose proof (Z.mul_div_le (a * 100) t Hpos). nia.
    - apply Z.lt_gt, Z.lt_le_trans with 81; [lia|]. apply Z.div_le_lower_bound; lia. }
  destruct self; rewrite H by lia; lia.
Qed.

Lemma size_intersection_bound (U A B : gset Z) :
  A ⊆ U → B ⊆ U → (size A + size B ≤ size U + size (A ∩ B))%nat.
Proof.
  intros HA HB.
  assert (size B = size (B ∩ A) + size (B ∖ A))%nat as E.
  { rewrite <- size_union by set_solver. f_equal. apply leibniz_equiv. intros x.
    destruct (decide (x ∈ A)); set_solver. }
  assert (size A + size (B ∖ A) ≤ size U)%nat.
  { rewrite <- size_union by set_solver. apply subseteq_size. set_solver. }
  rewrite (intersection_comm_L A B). lia.
Qed.

(** The peers of [x] among [U], and those that share its position. *)
Definition peers_of (U : gset Z) (x : Z) : gset Z := U ∖ {[x]}.
Definition agreeing_with (U : gset Z) (pos : Z → Z) (x : Z) : gset Z :=
  filter (λ u, pos u = pos x) (peers_of U x).

Lemma agreeing_size U pos x :
  x ∈ U → Z.of_nat (size (agreeing_with U pos x)) + 1 =
    Z.of_nat (size (filter (λ u, pos u = pos x) U)) ∧
  Z.of_nat (size (peers_of U x)) + 1 = Z.of_nat (size U).
Proof.
  intros Hx. unfold agreeing_with, peers_of.
  assert (filter (λ u, pos u = pos x) U = {[x]} ∪ filter (λ u, pos u = pos x) (U ∖ {[x]})) as E1.
  { apply leibniz_equiv. intros u. destruct (decide (u = x)); set_solver. }
  assert (U = {[x]} ∪ U ∖ {[x]}) as E2.
  { apply leibniz_equiv. intros u. destruct (decide (u = x)); set_solver. }
  apply (f_equal size) in E1, E2.
  rewrite size_union, size_singleton in E1, E2 by set_solver. lia.
Qed.

(** Agreement.  When two proposing nodes that see the same positions of the same
    proposers both find the consensus threshold reached, they hold the same
    position: each of their quorums is at least 81 percent of the proposers, so
    any two intersect. *)
Lemma consensus_agreement (U : gset Z) (pos : Z → Z) x y :
  x ∈ U → y ∈ U →
  let reached u := checkConsensusReached (Z.of_nat (size (agreeing_with U pos u)))
                     (Z.of_nat (size (peers_of U u))) true in
  reached x = true → reached y = true → pos x = pos y.
Proof.
  intros Hx Hy reached Hrx Hry. unfold reached in *.
  destruct (agreeing_size U pos x Hx) as [Eax Ex].
  destruct (agreeing_size U pos y Hy) as [Eay Ey].
  destruct (decide (x = y)) as [->|Hne]; [done|].
  assert (2 ≤ Z.of_nat (size U)).
  { assert (size ({[x; y]} : gset Z) = 2)%nat as E2
      by (rewrite size_union, !size_singleton by set_solver; done).
    assert ({[x; y]} ⊆ U) as Hsub by set_solver. apply subseteq_size in Hsub. lia. }
  apply checkConsensusReached_iff in Hrx, Hry; [|lia..].
  pose proof (size_intersection_bound U (filter (λ u, pos u = pos x) U)
    (filter (λ u, pos u = pos y) U) ltac:(set_solver) ltac:(set_solver)) as Hs.
  assert (size (filter (λ u, pos u = pos x) U ∩ filter (λ u, pos u = pos y) U) ≠ 0%nat) as Hn
    by lia.
  apply size_non_empty_iff, set_choose in Hn as [u Hu].
  apply elem_of_intersection in Hu as [[? _]%elem_of_filter [? _]%elem_of_filter]. congruence.
Qed.

(** A declared consensus is justified.  [checkConsensus] answers [Yes] only
    after [LEDGER_MIN_CONSENSUS] and with at least 81 percent of the proposers
    (counting ourselves when proposing) agreeing, and [MovedOn] only when at least
    81 percent of the peers have moved on; with less than three quarters of the
    previous proposers present it waits as long as the previous round took. *)
Theorem checkConsensus_justified prev cur agree finished prevTime time proposing :
  0 ≤ agree → 0 ≤ finished → 0 < cur → 0 ≤ prev →
  match checkConsensus prev cur agree finished prevTime time proposing with
  | No => True
  | s => LEDGER_MIN_CONSENSUS < time ∧
      (4 * cur < 3 * prev - 3 → prevTime + LEDGER_MIN_CONSENSUS ≤ time) ∧
      match s with
      | Yes => 81 * (cur + if proposing then 1 else 0) ≤
               100 * (agree + if proposing then 1 else 0)
      | _ => 81 * cur ≤ 100 * finished
      end
  end.
Proof.
  intros Ha Hf Hc Hp. unfold checkConsensus.
  destruct (time <=? LEDGER_MIN_CONSENSUS) eqn:E1; [done|].
  destruct ((_ <? _) && _) eqn:E2; [done|]. zb.
  assert (4 * cur < 3 * prev - 3 → prevTime + LEDGER_MIN_CONSENSUS ≤ time) as Hwait.
  { intros Hlt. destruct E2; zb; [|lia]. pose proof (Z.div_mod (prev * 3) 4).
    pose proof (Z.mod_pos_bound (prev * 3) 4). lia. }
  destruct (checkConsensusReached agree cur proposing) eqn:E3.
  - apply checkConsensusReached_iff in E3; [|lia..]. done.
  - destruct (checkConsensusReached finished cur false) eqn:E4; [|done].
    apply checkConsensusReached_iff in E4; [|lia..]. split_and!; [done|done|lia].
Qed.

Lemma checkConsensus_justified_witness :
  checkConsensus 5 5 5 0 3000 2500 true = Yes ∧ 81 * (5 + 1) ≤ 100 * (5 + 1).
Proof.
  split; [done|].
  apply (checkConsensus_justified 5 5 5 0 3000 2500 true); lia.
Defined.
