(* ===== verification/ConsensusProposal.v ===== *)
(** * ConsensusProposal: a position taken during consensus

    Models [consensus/ConsensusProposal.h].  Node, ledger and transaction set
    identifiers are [base_uint] values, modelled as [Z]; times are [NetClock]
    seconds. *)

From S2P Require Import Prelude.

Module ConsensusProposal.

Definition seqJoin : Z := 0.
Definition seqLeave : Z := 0xffffffff.

Record t := mk {
  previousLedger_ : Z;
  position_ : Z;
  closeTime_ : Z;
  time_ : Z;
  proposeSeq_ : Z;
  nodeID_ : Z
}.

#[global] Instance t_eq_dec : EqDecision t.
Proof. solve_decision. Defined.

Definition isInitial (p : t) : bool := proposeSeq_ p =? seqJoin.
Definition isBowOut (p : t) : bool := proposeSeq_ p =? seqLeave.
Definition isStale (p : t) (cutoff : Z) : bool := time_ p <=? cutoff.

Definition changePosition (p : t) (newPosition newCloseTime now : Z) : t :=
  mk (previousLedger_ p) newPosition newCloseTime now
    (if negb (proposeSeq_ p =? seqLeave) then u32 (proposeSeq_ p + 1) else proposeSeq_ p)
    (nodeID_ p).

Definition bowOut (p : t) (now : Z) : t :=
  mk (previousLedger_ p) (position_ p) (closeTime_ p) now seqLeave (nodeID_ p).

(** [operator==] *)
Definition eqb (a b : t) : bool :=
  (nodeID_ a =? nodeID_ b) && (proposeSeq_ a =? proposeSeq_ b) &&
  (previousLedger_ a =? previousLedger_ b) && (position_ a =? position_ b) &&
  (closeTime_ a =? closeTime_ b) && (time_ a =? time_ b).

Lemma eqb_spec a b : eqb a b = true ↔ a = b.
Proof.
  destruct a, b. unfold eqb. simpl. rewrite !andb_true_iff, !Z.eqb_eq. split.
  - intros (((((-> & ->) & ->) & ->) & ->) & ->). done.
  - by intros [= -> -> -> -> -> ->].
Qed.

Lemma changePosition_seq p pos ct now :
  is_unsigned 32 (proposeSeq_ p) →
  let p' := changePosition p pos ct now in
  is_unsigned 32 (proposeSeq_ p') ∧
  (isBowOut p = false → proposeSeq_ p < proposeSeq_ p') ∧
  (isBowOut p = true → isBowOut p' = true).
Proof.
  unfold is_unsigned, changePosition, isBowOut, seqLeave. simpl. intros Hp.
  destruct (proposeSeq_ p =? 4294967295) eqn:E; zb; simpl.
  - rewrite E. split_and!; done || lia.
  - unwrap. split_and!; [lia..|lia|done].
Qed.

Lemma bowOut_seq p now :
  is_unsigned 32 (proposeSeq_ p) → isBowOut (bowOut p now) = true ∧
  (isBowOut p = false → proposeSeq_ p < proposeSeq_ (bowOut p now)).
Proof. unfold is_unsigned, isBowOut, bowOut, seqLeave. simpl. intros. zb. split; [done|]. intros. zb. lia. Qed.

End ConsensusProposal.
