(* ===== verification/DisputedTx.v ===== *)
(** * DisputedTx: the votes on a disputed transaction

    Models [consensus/DisputedTx.h].  The transaction type is a parameter; node
    identifiers are [Z]. *)

From S2P Require Import Prelude LedgerTiming.

Module DisputedTx.

Record t (Tx : Type) := mk {
  yays_ : Z;
  nays_ : Z;
  ourVote_ : bool;
  tx_ : Tx;
  votes_ : gmap Z bool
}.
Arguments mk {Tx}.
Arguments yays_ {Tx}.
Arguments nays_ {Tx}.
Arguments ourVote_ {Tx}.
Arguments tx_ {Tx}.
Arguments votes_ {Tx}.

Section dispute.
Context {Tx : Type}.
Implicit Types d : t Tx.

(** [DisputedTx (Tx_t const& tx, bool ourVote, beast::Journal j)] *)
Definition make (tx : Tx) (ourVote : bool) : t Tx := mk 0 0 ourVote tx ∅.

Definition setOurVote d (o : bool) : t Tx := mk (yays_ d) (nays_ d) o (tx_ d) (votes_ d).

Definition setVote d (peer : Z) (votesYes : bool) : t Tx :=
  match (votes_ d !! peer : option bool) with
  | None =>
      if votesYes
      then mk (yays_ d + 1) (nays_ d) (ourVote_ d) (tx_ d) (<[peer := votesYes]> (votes_ d))
      else mk (yays_ d) (nays_ d + 1) (ourVote_ d) (tx_ d) (<[peer := votesYes]> (votes_ d))
  | Some v =>
      if votesYes && negb v
      then mk (yays_ d + 1) (nays_ d - 1) (ourVote_ d) (tx_ d) (<[peer := true]> (votes_ d))
      else if negb votesYes && v
      then mk (yays_ d - 1) (nays_ d + 1) (ourVote_ d) (tx_ d) (<[peer := false]> (votes_ d))
      else d
  end.

Definition unVote d (peer : Z) : t Tx :=
  match (votes_ d !! peer : option bool) with
  | Some v =>
      if v
      then mk (yays_ d - 1) (nays_ d) (ourVote_ d) (tx_ d) (delete peer (votes_ d))
      else mk (yays_ d) (nays_ d - 1) (ourVote_ d) (tx_ d) (delete peer (votes_ d))
  | None => d
  end.

(** The weight a yes vote needs at a stage of the round. *)
Definition neededWeight (percentTime : Z) : Z :=
  if percentTime <? AV_MID_CONSENSUS_TIME then AV_INIT_CONSENSUS_PCT
  else if percentTime <? AV_LATE_CONSENSUS_TIME then AV_MID_CONSENSUS_PCT
  else if percentTime <? AV_STUCK_CONSENSUS_TIME then AV_LATE_CONSENSUS_PCT
  else AV_STUCK_CONSENSUS_PCT.

(** [weight], the percentage of yes votes including ours *)
Definition weight d : Z :=
  (yays_ d * 100 + (if ourVote_ d then 100 else 0)) ÷ (nays_ d + yays_ d + 1).

Definition newPosition d (percentTime : Z) (proposing : bool) : bool :=
  if proposing then weight d >? neededWeight percentTime else yays_ d >? nays_ d.

(** The dispute after the call, and whether our vote changed. *)
Definition updateVote d (percentTime : Z) (proposing : bool) : t Tx * bool :=
  if ourVote_ d && (nays_ d =? 0) then (d, false)
  else if negb (ourVote_ d) && (yays_ d =? 0) then (d, false)
  else if Bool.eqb (newPosition d percentTime proposing) (ourVote_ d) then (d, false)
  else (setOurVote d (newPosition d percentTime proposing), true).

(** ** Proofs *)

Definition count (b : bool) (m : gmap Z bool) : Z :=
  Z.of_nat (size (filter (λ kv, kv.2 = b) m)).

(** The counters are the tallies of the recorded votes. *)
Definition wf d : Prop := yays_ d = count true (votes_ d) ∧ nays_ d = count false (votes_ d).

Lemma count_insert_new b v m peer :
  m !! peer = None → count b (<[peer := v]> m) = count b m + if Bool.eqb b v then 1 else 0.
Proof.
  intros Hm. unfold count. destruct (decide (v = b)) as [->|Hne].
  - rewrite map_filter_insert_True by done.
    rewrite map_size_insert_None by (apply map_lookup_filter_None; auto).
    rewrite Bool.eqb_reflx. lia.
  - rewrite map_filter_insert_False by done. rewrite delete_id by done.
    destruct b, v; simpl; done || lia.
Qed.

Lemma count_delete b v m peer :
  m !! peer = Some v → count b m = count b (delete peer m) + if Bool.eqb b v then 1 else 0.
Proof.
  intros Hm. rewrite <- (insert_delete_id m peer v Hm) at 1.
  apply count_insert_new, lookup_delete_eq.
Qed.

Lemma count_insert_over b v v' m peer :
  m !! peer = Some v →
  count b (<[peer := v']> m) =
    count b m - (if Bool.eqb b v then 1 else 0) + if Bool.eqb b v' then 1 else 0.
Proof.
  intros Hm. rewrite <- insert_delete_eq, count_insert_new by apply lookup_delete_eq.
  rewrite (count_delete b v m peer Hm). lia.
Qed.

Lemma make_wf tx v : wf (make tx v).
Proof. done. Qed.

Lemma setVote_spec d peer v :
  wf d → wf (setVote d peer v) ∧ votes_ (setVote d peer v) = <[peer := v]> (votes_ d) ∧
  ourVote_ (setVote d peer v) = ourVote_ d ∧ tx_ (setVote d peer v) = tx_ d.
Proof.
  intros [Hy Hn]. unfold setVote, wf.
  destruct (votes_ d !! peer) as [v'|] eqn:E.
  - destruct v, v'; simpl; rewrite ?insert_id by done;
      rewrite ?(count_insert_over _ _ _ _ _ E); simpl; split_and!; done || lia.
  - destruct v; simpl; rewrite !count_insert_new by done; simpl; split_and!; done || lia.
Qed.

Lemma unVote_spec d peer :
  wf d → wf (unVote d peer) ∧ votes_ (unVote d peer) = delete peer (votes_ d) ∧
  ourVote_ (unVote d peer) = ourVote_ d ∧ tx_ (unVote d peer) = tx_ d.
Proof.
  intros [Hy Hn]. unfold unVote, wf.
  destruct (votes_ d !! peer) as [v|] eqn:E.
  - pose proof (count_delete true v _ _ E). pose proof (count_delete false v _ _ E).
    destruct v; simpl in *; split_and!; done || lia.
  - rewrite delete_id by done. done.
Qed.

Lemma updateVote_spec d pct proposing :
  wf d → wf (updateVote d pct proposing).1 ∧
  votes_ (updateVote d pct proposing).1 = votes_ d ∧
  tx_ (updateVote d pct proposing).1 = tx_ d ∧
  ((updateVote d pct proposing).2 = true ↔ ourVote_ (updateVote d pct proposing).1 ≠ ourVote_ d).
Proof.
  intros Hd. unfold updateVote. repeat case_if; simpl; try (split_and!; done).
  split_and!; [done..|]. apply Bool.eqb_false_iff in E1. done.
Qed.

(** C29: the yes and no counters of a dispute are the tallies of the votes on
    record: the invariant holds for a new dispute and is preserved by [setVote]
    (which records the latest vote of the peer and touches no other), [unVote]
    (which removes exactly that peer's vote) and [updateVote] (which changes
    nothing but our own vote, and reports exactly whether it did). *)
Theorem tally_invariant d :
  (∀ tx v, wf (make tx v)) ∧
  (wf d →
   (∀ peer v, let d' := setVote d peer v in
      wf d' ∧ votes_ d' = <[peer := v]> (votes_ d) ∧ ourVote_ d' = ourVote_ d) ∧
   (∀ peer, let d' := unVote d peer in
      wf d' ∧ votes_ d' = delete peer (votes_ d) ∧ ourVote_ d' = ourVote_ d) ∧
   (∀ pct proposing, let '(d', changed) := updateVote d pct proposing in
      wf d' ∧ votes_ d' = votes_ d ∧ (changed = true ↔ ourVote_ d' ≠ ourVote_ d))).
Proof.
  split; [apply make_wf|]. intros Hd. split_and!.
  - intros peer v. by destruct (setVote_spec d peer v Hd) as (? & ? & ? & _).
  - intros peer. by destruct (unVote_spec d peer Hd) as (? & ? & ? & _).
  - intros pct proposing. pose proof (updateVote_spec d pct proposing Hd) as (? & ? & _ & ?).
    by destruct (updateVote d pct proposing).
Qed.

Lemma neededWeight_mono p1 p2 : p1 ≤ p2 → neededWeight p1 ≤ neededWeight p2.
Proof.
  unfold neededWeight, AV_MID_CONSENSUS_TIME, AV_LATE_CONSENSUS_TIME, AV_STUCK_CONSENSUS_TIME,
    AV_INIT_CONSENSUS_PCT, AV_MID_CONSENSUS_PCT, AV_LATE_CONSENSUS_PCT, AV_STUCK_CONSENSUS_PCT.
  intros. repeat case_if; zb; lia.
Qed.

(** A dispute on which every vote is ours is not reconsidered. *)
Lemma updateVote_settled d pct proposing :
  wf d → count (negb (ourVote_ d)) (votes_ d) = 0 → updateVote d pct proposing = (d, false).
Proof.
  intros [Hy Hn]. unfold updateVote. destruct (ourVote_ d); simpl; intros E;
    rewrite <- ?Hn, <- ?Hy in E; by rewrite E.
Qed.

(** C30: the avalanche.  With the votes fixed, a proposing node that would include
    a disputed transaction at some stage of the round would have included it at
    any earlier stage: the threshold only rises.  A transaction on which every
    voting peer agrees with us is never reconsidered, and a vote that changes
    becomes what the thresholds of the current stage say. *)
Theorem avalanche d p1 p2 proposing :
  wf d → p1 ≤ p2 →
  (newPosition d p2 proposing = true → newPosition d p1 proposing = true) ∧
  (count (negb (ourVote_ d)) (votes_ d) = 0 → updateVote d p1 proposing = (d, false)) ∧
  ((updateVote d p1 proposing).2 = true →
     ourVote_ (updateVote d p1 proposing).1 = newPosition d p1 proposing).
Proof.
  intros [Hy Hn] Hp. split_and!.
  - unfold newPosition. destruct proposing; [|done]. pose proof (neededWeight_mono p1 p2 Hp).
    rewrite !Z.gtb_lt. lia.
  - by apply updateVote_settled.
  - unfold updateVote. by repeat case_if.
Qed.

End dispute.

Lemma tally_invariant_witness :
  let d := setVote (make 7 true) 1 true in
  wf d ∧ wf (setVote d 2 false) ∧ votes_ (unVote d 1) = delete 1 (votes_ d).
Proof.
  intros d. assert (wf d) as Hd by by vm_compute. split; [done|].
  destruct (tally_invariant d) as [_ H]. destruct (H Hd) as (Hs & Hu & _).
  split; [apply Hs|apply Hu].
Defined.

Lemma avalanche_witness :
  let d := setVote (setVote (make 7 true) 1 true) 2 false in
  newPosition d 60 true = true ∧ newPosition d 10 true = true.
Proof.
  intros d. assert (newPosition d 60 true = true) as H by by vm_compute. split; [done|].
  refine (proj1 (avalanche d 10 60 true _ _) H); [by vm_compute|lia].
Defined.

End DisputedTx.
