(* ===== verification/Consensus.v ===== *)
(** * Consensus: the generic consensus algorithm

    Models [consensus/Consensus.h].  The class template is instantiated by an
    application that derives from it; the model keeps that interface: [TxSetOps]
    is what the algorithm needs of a transaction set, [Adaptor] the callbacks of
    the [Derived] class, acting on an application state [W] of its own that is
    part of the consensus state ([world]).  Identifiers of nodes, ledgers,
    transactions and transaction sets are [base_uint] values, modelled as [Z].

    The callbacks do not call back into the consensus object.  The hash maps of
    the source are traversed in the order of [map_to_list]; the source's order is
    unspecified.  [startRoundInternal], [handleWrongLedger] and [timerEntry] call
    each other, so they take fuel and return [None] when it runs out. *)

From S2P Require Import Prelude LedgerTiming ConsensusProposal DisputedTx.
From coqutil Require Export Datatypes.RecordSettersUsingExistingGetters.

(** ** The interface to the application *)

(** The members of [Ledger] the algorithm reads. *)
Record Ledger := mkLedger {
  ledger_id : Z;
  ledger_seq : Z;
  closeTimeResolution : Z;
  closeAgree : bool;
  ledger_closeTime : Z;
  parentCloseTime : Z
}.

(** The operations of [Tx], [TxSet] and [MutableTxSet]. *)
Class TxSetOps (Tx TxSet : Type) := {
  tx_id : Tx → Z;
  txset_id : TxSet → Z;
  txset_exists : TxSet → Z → bool;
  txset_find : TxSet → Z → option Tx;
  txset_compare : TxSet → TxSet → list (Z * bool);
  mutable_insert : TxSet → Tx → TxSet;
  mutable_erase : TxSet → Z → TxSet
}.

(** What the comment at the top of [Consensus.h] documents of them. *)
Class TxSetLaws {Tx TxSet : Type} (TO : TxSetOps Tx TxSet) := {
  exists_find s i : txset_exists s i = bool_decide (is_Some (txset_find s i));
  find_id s i x : txset_find s i = Some x → tx_id x = i;
  compare_spec s o i b :
    (i, b) ∈ txset_compare s o ↔
    if (b : bool) then is_Some (txset_find s i) ∧ txset_find o i = None
    else txset_find s i = None ∧ is_Some (txset_find o i);
  exists_insert s x i :
    txset_exists (mutable_insert s x) i = bool_decide (i = tx_id x) || txset_exists s i;
  exists_erase s j i :
    txset_exists (mutable_erase s j) i = negb (bool_decide (i = j)) && txset_exists s i
}.

Module Phase.
Inductive t := open | establish | accepted.
#[global] Instance t_eq_dec : EqDecision t.
Proof. solve_decision. Defined.
End Phase.

Module Mode.
Inductive t := proposing | observing | wrongLedger | switchedLedger.
#[global] Instance t_eq_dec : EqDecision t.
Proof. solve_decision. Defined.
End Mode.

(** A [steady_clock] time point is a number of nanoseconds. *)
Module Stopwatch.
Record t := mk { start_ : Z; dur_ : Z }.
Definition read (s : t) : Z := dur_ s.
Definition tick_fixed (s : t) (fixed : Z) : t := mk (start_ s) (dur_ s + fixed).
Definition reset (tp : Z) : t := mk tp 0.
Definition tick (s : t) (tp : Z) : t := mk (start_ s) ((tp - start_ s) ÷ 1000000).
End Stopwatch.

(** [CloseTimes]; the peers' estimates with their number *)
Record CloseTimes := mkCloseTimes { ct_peers : gmap Z Z; ct_self : Z }.

Record Result (Tx TxSet : Type) := mkResult {
  set_ : TxSet;
  position : ConsensusProposal.t;
  disputes : gmap Z (DisputedTx.t Tx);
  compares : gset Z;
  roundTime : Stopwatch.t;
  state : ConsensusState
}.
Arguments mkResult {Tx TxSet}.
Arguments set_ {Tx TxSet}.
Arguments position {Tx TxSet}.
Arguments disputes {Tx TxSet}.
Arguments compares {Tx TxSet}.
Arguments roundTime {Tx TxSet}.
Arguments state {Tx TxSet}.

(** The callbacks of the [Derived] class and the clock. *)
Class Adaptor (Tx TxSet W : Type) := {
  clock_now : W → W * Z;
  acquireLedger : Z → W → W * option Ledger;
  acquireTxSet : Z → W → W * option TxSet;
  proposals : Z → W → list ConsensusProposal.t;
  hasOpenTransactions : W → bool;
  proposersValidated : Z → W → Z;
  proposersFinished : Z → W → Z;
  getPrevLedger : Z → Ledger → Mode.t → W → W * Z;
  onClose : Ledger → Z → Mode.t → W → W * (TxSet * ConsensusProposal.t);
  onAccept : Result Tx TxSet → Ledger → Z → CloseTimes → Mode.t → W → W;
  onForceAccept : Result Tx TxSet → Ledger → Z → CloseTimes → Mode.t → W → W;
  propose : ConsensusProposal.t → W → W;
  relay_proposal : ConsensusProposal.t → W → W;
  relay_tx : Tx → W → W;
  relay_set : TxSet → W → W
}.

(** [std::map<NetClock::time_point, int>]: [++m[k]], keys in ascending order *)
Fixpoint incr (k : Z) (m : list (Z * Z)) : list (Z * Z) :=
  match m with
  | [] => [(k, 1)]
  | (k', n) :: m' =>
      if k <? k' then (k, 1) :: m
      else if k =? k' then (k', n + 1) :: m'
      else (k', n) :: incr k m'
  end.

(** [participantsNeeded]; the counts are far below the range of [int] *)
Definition participantsNeeded (participants percent : Z) : Z :=
  let result := (participants * percent + percent ÷ 2) ÷ 100 in
  if result =? 0 then 1 else result.

Module Consensus.
Section consensus.
Context {Tx TxSet W : Type} `{TO : !TxSetOps Tx TxSet} `{AD : !Adaptor Tx TxSet W}.

Record t := mk {
  phase_ : Phase.t;
  mode_ : Mode.t;
  firstRound_ : bool;
  haveCloseTimeConsensus_ : bool;
  convergePercent_ : Z;
  openTime_ : Stopwatch.t;
  closeResolution_ : Z;
  prevRoundTime_ : Z;
  now_ : Z;
  prevCloseTime_ : Z;
  prevLedgerID_ : Z;
  previousLedger_ : Ledger;
  acquired_ : gmap Z TxSet;
  result_ : option (Result Tx TxSet);
  rawCloseTimes_ : CloseTimes;
  peerProposals_ : gmap Z ConsensusProposal.t;
  prevProposers_ : Z;
  deadNodes_ : gset Z;
  world : W
}.

(** The constructor; the members it leaves uninitialized are not read before the
    first [startRound]. *)
Definition initial (w : W) : t :=
  mk Phase.accepted Mode.observing true false 0 (Stopwatch.mk 0 0)
    ledgerDefaultTimeResolution (LEDGER_IDLE_INTERVAL * 1000) 0 0 0 (mkLedger 0 0 0 false 0 0)
    ∅ None (mkCloseTimes ∅ 0) ∅ 0 ∅ w.

Definition is_proposing (s : t) : bool := bool_decide (mode_ s = Mode.proposing).

(** *** Disputes *)

(** The peers' votes on a new dispute *)
Definition record_votes (s : t) (txID : Z) (dtx : DisputedTx.t Tx) : DisputedTx.t Tx :=
  foldl (λ dtx '(peer, p),
    match acquired_ s !! ConsensusProposal.position_ p with
    | Some cit => DisputedTx.setVote dtx peer (txset_exists cit txID)
    | None => dtx
    end) dtx (map_to_list (peerProposals_ s)).

(** One iteration of the loop of [createDisputes] *)
Definition createDispute (o : TxSet) (s : t) (r : Result Tx TxSet) (id : Z * bool)
    : t * Result Tx TxSet :=
  match (if id.2 then txset_find (set_ r) id.1 else txset_find o id.1) with
  | None => (s, r) (* excluded by the contract of [compare] *)
  | Some tx =>
      let txID := tx_id tx in
      match disputes r !! txID with
      | Some _ => (s, r)
      | None =>
          let dtx := record_votes s txID
            (DisputedTx.make tx (txset_exists (set_ r) txID)) in
          (s<|world ::= relay_tx (DisputedTx.tx_ dtx)|>,
           r<|disputes ::= <[txID := dtx]>|>)
      end
  end.

Definition createDisputes (o : TxSet) (s : t) (r : Result Tx TxSet) : t * Result Tx TxSet :=
  if bool_decide (txset_id o ∈ compares r) then (s, r)
  else
    let r := r<|compares ::= union {[txset_id o]}|> in
    if txset_id (set_ r) =? txset_id o then (s, r)
    else foldl (λ '(s, r) id, createDispute o s r id) (s, r) (txset_compare (set_ r) o).

Definition updateDisputes (node : Z) (other : TxSet) (s : t) (r : Result Tx TxSet)
    : t * Result Tx TxSet :=
  let '(s, r) :=
    if bool_decide (txset_id other ∈ compares r) then (s, r) else createDisputes other s r in
  (s, r<|disputes ::= fmap (λ d, DisputedTx.setVote d node
        (txset_exists other (tx_id (DisputedTx.tx_ d))))|>).

(** [gotTxSet] with the recorded result put back *)
Definition gotTxSet (now : Z) (txSet : TxSet) (s : t) : t :=
  if decide (phase_ s = Phase.accepted) then s
  else
    let s := s<|now_ := now|> in
    let id := txset_id txSet in
    match acquired_ s !! id with
    | Some _ => s
    | None =>
        let s := s<|acquired_ ::= <[id := txSet]>|> in
        match result_ s with
        | None => s
        | Some r =>
            let '(s, r) := foldl (λ '(s, r) '(peer, p),
                if ConsensusProposal.position_ p =? id
                then updateDisputes peer txSet s r else (s, r))
              (s, r) (map_to_list (peerProposals_ s)) in
            s<|result_ := Some r|>
        end
    end.

(** *** Peer proposals *)

Definition peerProposal (now : Z) (newProposal : ConsensusProposal.t) (s : t) : t * bool :=
  let peerID := ConsensusProposal.nodeID_ newProposal in
  if decide (phase_ s = Phase.accepted) then (s, false)
  else
    let s := s<|now_ := now|> in
    if negb (ConsensusProposal.previousLedger_ newProposal =? prevLedgerID_ s) then (s, false)
    else if bool_decide (peerID ∈ deadNodes_ s) then (s, false)
    else if match peerProposals_ s !! peerID with
            | Some cur => ConsensusProposal.proposeSeq_ newProposal <=?
                          ConsensusProposal.proposeSeq_ cur
            | None => false
            end then (s, false)
    else if ConsensusProposal.isBowOut newProposal then
      (s<|result_ ::= fmap (λ r : Result Tx TxSet,
            r<|disputes ::= fmap (λ d, DisputedTx.unVote d peerID)|>)|>
        <|peerProposals_ ::= delete peerID|>
        <|deadNodes_ ::= union {[peerID]}|>, true)
    else
      let s := s<|peerProposals_ ::= <[peerID := newProposal]>|> in
      let s :=
        if ConsensusProposal.isInitial newProposal then
          s<|rawCloseTimes_ := mkCloseTimes
               (partial_alter (λ n, Some (default 0 n + 1))
                  (ConsensusProposal.closeTime_ newProposal) (ct_peers (rawCloseTimes_ s)))
               (ct_self (rawCloseTimes_ s))|>
        else s in
      match acquired_ s !! ConsensusProposal.position_ newProposal with
      | None =>
          let '(w, set) := acquireTxSet (ConsensusProposal.position_ newProposal) (world s) in
          let s := s<|world := w|> in
          (match set with Some txSet => gotTxSet (now_ s) txSet s | None => s end, true)
      | Some ait =>
          match result_ s with
          | None => (s, true)
          | Some r =>
              let '(s, r) := updateDisputes (ConsensusProposal.nodeID_ newProposal) ait s r in
              (s<|result_ := Some r|>, true)
          end
      end.

Definition playbackProposals (s : t) : t :=
  foldl (λ s p,
    let '(s, b) := peerProposal (now_ s) p s in
    if b then s<|world ::= relay_proposal p|> else s)
    s (proposals (prevLedgerID_ s) (world s)).

(** *** Closing the ledger *)

(** Our set is shared unless a peer sent it already. *)
Definition shareSet (set : TxSet) (s : t) : t :=
  match acquired_ s !! txset_id set with
  | Some _ => s
  | None => s<|acquired_ ::= <[txset_id set := set]>|><|world ::= relay_set set|>
  end.

Definition closeLedger (s : t) : t :=
  let s := s<|phase_ := Phase.establish|>
            <|rawCloseTimes_ := mkCloseTimes (ct_peers (rawCloseTimes_ s)) (now_ s)|> in
  let '(w, (set, pos)) := onClose (previousLedger_ s) (now_ s) (mode_ s) (world s) in
  let '(w, tp) := clock_now w in
  let s := s<|world := w|> in
  let r := mkResult set pos ∅ ∅ (Stopwatch.reset tp) No in
  let s := shareSet set s in
  let s := if is_proposing s then s<|world ::= propose pos|> else s in
  let '(s, r) := foldl (λ '(s, r) '(peer, p),
      match acquired_ s !! ConsensusProposal.position_ p with
      | Some it => createDisputes it s r
      | None => (s, r)
      end) (s, r) (map_to_list (peerProposals_ s)) in
  s<|result_ := Some r|>.

Definition phaseOpen (s : t) : t :=
  let anyTransactions := hasOpenTransactions (world s) in
  let proposersClosed := Z.of_nat (size (peerProposals_ s)) in
  let validated := proposersValidated (prevLedgerID_ s) (world s) in
  let '(w, tp) := clock_now (world s) in
  let s := s<|world := w|><|openTime_ ::= (λ o, Stopwatch.tick o tp)|> in
  let prev := previousLedger_ s in
  let previousCloseCorrect :=
    negb (bool_decide (mode_ s = Mode.wrongLedger)) && closeAgree prev &&
    negb (ledger_closeTime prev =? parentCloseTime prev + 1) in
  let lastCloseTime := if previousCloseCorrect then ledger_closeTime prev else prevCloseTime_ s in
  let sinceClose :=
    if now_ s >=? lastCloseTime then (now_ s - lastCloseTime) * 1000
    else - ((lastCloseTime - now_ s) * 1000) in
  let idleInterval := Z.max LEDGER_IDLE_INTERVAL (u32 (2 * closeTimeResolution prev)) in
  if shouldCloseLedger anyTransactions (prevProposers_ s) proposersClosed validated
       (prevRoundTime_ s) sinceClose (Stopwatch.read (openTime_ s)) idleInterval
  then closeLedger s else s.

(** *** Establishing consensus *)

(** One peer of the freshness loop: a stale position is removed with its votes, a
    fresh one counts for its effective close time. *)
Definition dropStale_step (s : t)
    (acc : gmap Z ConsensusProposal.t * Result Tx TxSet * list (Z * Z))
    (it : Z * ConsensusProposal.t)
    : gmap Z ConsensusProposal.t * Result Tx TxSet * list (Z * Z) :=
  let '(pp, r, eff) := acc in
  if ConsensusProposal.isStale it.2 (u32 (now_ s - PROPOSE_FRESHNESS)) then
    (delete it.1 pp,
     r<|disputes ::= fmap (λ d, DisputedTx.unVote d (ConsensusProposal.nodeID_ it.2))|>, eff)
  else
    (pp, r, incr (effCloseTime (ConsensusProposal.closeTime_ it.2) (closeResolution_ s)
                   (ledger_closeTime (previousLedger_ s))) eff).

Definition dropStale (s : t) (r : Result Tx TxSet)
    : gmap Z ConsensusProposal.t * Result Tx TxSet * list (Z * Z) :=
  foldl (dropStale_step s) (peerProposals_ s, r, []) (map_to_list (peerProposals_ s)).

(** One dispute of the voting loop: the disputes and the set so far ([None] while
    nothing changed). *)
Definition updateDispute (pct : Z) (proposing : bool) (set0 : TxSet)
    (acc : gmap Z (DisputedTx.t Tx) * option TxSet) (it : Z * DisputedTx.t Tx)
    : gmap Z (DisputedTx.t Tx) * option TxSet :=
  let '(ds, mutableSet) := acc in
  let '(d, changed) := DisputedTx.updateVote it.2 pct proposing in
  if changed then
    let m := default set0 mutableSet in
    (<[it.1 := d]> ds,
     Some (if DisputedTx.ourVote_ d then mutable_insert m (DisputedTx.tx_ d)
           else mutable_erase m it.1))
  else (ds, mutableSet).

(** The loop over [effCloseTimes]: the close time chosen, the votes it has, and
    whether it carries consensus. *)
Definition chooseCloseTime (threshVote threshConsensus : Z) (eff : list (Z * Z))
    : Z * Z * bool :=
  foldl (λ '(ct, thresh, have) '(time, votes),
    if votes >=? thresh then (time, votes, have || (votes >=? threshConsensus))
    else (ct, thresh, have)) (0, threshVote, false) eff.

(** Our close time after rounding *)
Definition ourEffCloseTime (s : t) (r : Result Tx TxSet) : Z :=
  effCloseTime (ConsensusProposal.closeTime_ (position r)) (closeResolution_ s)
    (ledger_closeTime (previousLedger_ s)).

(** The close time to propose and whether there is consensus on it. *)
Definition closeTimeConsensus (s : t) (r : Result Tx TxSet) (eff : list (Z * Z)) : Z * bool :=
  if bool_decide (peerProposals_ s = ∅) then (ourEffCloseTime s r, true)
  else
    let participants := Z.of_nat (size (peerProposals_ s)) in
    let '(eff, participants) :=
      if is_proposing s then (incr (ourEffCloseTime s r) eff, participants + 1)
      else (eff, participants) in
    let threshVote := participantsNeeded participants
      (DisputedTx.neededWeight (convergePercent_ s)) in
    let threshConsensus := participantsNeeded participants AV_CT_CONSENSUS_PCT in
    let '(ct, _, have) := chooseCloseTime threshVote threshConsensus eff in (ct, have).

(** The last block of [updateOurPositions]: our position becomes [set]. *)
Definition takePosition (set : TxSet) (consensusCloseTime : Z) (s : t) (r : Result Tx TxSet)
    : t * Result Tx TxSet :=
  let newID := txset_id set in
  let r := r<|set_ := set|><|position ::= (λ p,
    ConsensusProposal.changePosition p newID consensusCloseTime (now_ s))|> in
  if ConsensusProposal.isBowOut (position r) then (s, r)
  else
    let s := shareSet set s in
    (if is_proposing s then s<|world ::= propose (position r)|> else s, r).

Definition updateOurPositions (s : t) (r : Result Tx TxSet) : t * Result Tx TxSet :=
  let ourCutoff := u32 (now_ s - PROPOSE_INTERVAL) in
  let '(pp, r, eff) := dropStale s r in
  let s := s<|peerProposals_ := pp|> in
  let '(ds, ourNewSet) :=
    foldl (updateDispute (convergePercent_ s) (is_proposing s) (set_ r))
      (disputes r, None) (map_to_list (disputes r)) in
  let r := r<|disputes := ds|> in
  let '(consensusCloseTime, have) := closeTimeConsensus s r eff in
  let s := s<|haveCloseTimeConsensus_ := have|> in
  match ourNewSet with
  | Some set => takePosition set consensusCloseTime s r
  | None =>
      if negb (consensusCloseTime =? ourEffCloseTime s r) ||
         ConsensusProposal.isStale (position r) ourCutoff
      then takePosition (set_ r) consensusCloseTime s r else (s, r)
  end.

Definition agree_count (s : t) (r : Result Tx TxSet) : Z :=
  Z.of_nat (size (filter (λ kp : Z * ConsensusProposal.t,
    ConsensusProposal.position_ kp.2 = ConsensusProposal.position_ (position r))
    (peerProposals_ s))).

(** The new [state] of the result; [agree + disagree] is the number of peers. *)
Definition haveConsensus (s : t) (r : Result Tx TxSet) : Result Tx TxSet * bool :=
  let agree := agree_count s r in
  let disagree := Z.of_nat (size (peerProposals_ s)) - agree in
  let st := checkConsensus (prevProposers_ s) (agree + disagree) agree
    (proposersFinished (prevLedgerID_ s) (world s)) (prevRoundTime_ s)
    (Stopwatch.read (roundTime r)) (is_proposing s) in
  (r<|state := st|>, match st with No => false | _ => true end).

(** [phaseEstablish]; the source asserts that there is a result *)
Definition phaseEstablish (s : t) : t :=
  match result_ s with
  | None => s
  | Some r =>
      let '(w, tp) := clock_now (world s) in
      let r := r<|roundTime ::= (λ x, Stopwatch.tick x tp)|> in
      let s := s<|world := w|><|convergePercent_ := s32 (Stopwatch.read (roundTime r) * 100 ÷
                    Z.max (prevRoundTime_ s) AV_MIN_CONSENSUS_TIME)|> in
      if Stopwatch.read (roundTime r) <? LEDGER_MIN_CONSENSUS
      then s<|result_ := Some r|>
      else
        let '(s, r) := updateOurPositions s r in
        let '(r, have) := haveConsensus s r in
        let s := s<|result_ := Some r|> in
        if negb have then s
        else if negb (haveCloseTimeConsensus_ s) then s
        else
          s<|prevProposers_ := Z.of_nat (size (peerProposals_ s))|>
           <|prevRoundTime_ := Stopwatch.read (roundTime r)|>
           <|phase_ := Phase.accepted|>
           <|world ::= onAccept r (previousLedger_ s) (closeResolution_ s)
               (rawCloseTimes_ s) (mode_ s)|>
  end.

(** *** Rounds *)

Definition leaveConsensus (s : t) : t :=
  if is_proposing s then
    let s :=
      match result_ s with
      | Some r =>
          if negb (ConsensusProposal.isBowOut (position r)) then
            let p := ConsensusProposal.bowOut (position r) (now_ s) in
            s<|result_ := Some (r<|position := p|>)|><|world ::= propose p|>
          else s
      | None => s
      end in
    s<|mode_ := Mode.observing|>
  else s.

(** The first part of [handleWrongLedger]: turning to another prior ledger. *)
Definition switchPrevLedger (lgrId : Z) (s : t) : t :=
  if prevLedgerID_ s =? lgrId then s
  else
    let s := leaveConsensus (s<|prevLedgerID_ := lgrId|>) in
    let s := s<|result_ ::= fmap (λ r : Result Tx TxSet, r<|disputes := ∅|><|compares := ∅|>)|>
              <|peerProposals_ := ∅|>
              <|rawCloseTimes_ := mkCloseTimes ∅ (ct_self (rawCloseTimes_ s))|>
              <|deadNodes_ := ∅|> in
    playbackProposals s.

(** The resets at the start of [startRoundInternal]. *)
Definition resetRound (now prevLedgerID : Z) (prevLedger : Ledger) (mode : Mode.t) (s : t) : t :=
  let '(w, tp) := clock_now (world s) in
  mk Phase.open mode (firstRound_ s) false 0 (Stopwatch.reset tp)
    (getNextLedgerTimeResolution (closeTimeResolution prevLedger) (closeAgree prevLedger)
       (u32 (ledger_seq prevLedger + 1)))
    (prevRoundTime_ s) now (prevCloseTime_ s) prevLedgerID prevLedger ∅ None
    (mkCloseTimes ∅ 0) ∅ (prevProposers_ s) ∅ w.

(** The dispatch at the end of [timerEntry]. *)
Definition runPhase (s : t) : t :=
  match phase_ s with
  | Phase.open => phaseOpen s
  | Phase.establish => phaseEstablish s
  | Phase.accepted => s
  end.

(** The bodies of the mutually recursive members, over the members they call. *)
Definition startRoundInternal_body (handleWrongLedger timerEntry : Z → t → option t)
    (now prevLedgerID : Z) (prevLedger : Ledger) (mode : Mode.t) (s : t) : option t :=
  let s := resetRound now prevLedgerID prevLedger mode s in
  s ← (if negb (ledger_id (previousLedger_ s) =? prevLedgerID_ s)
       then handleWrongLedger (prevLedgerID_ s) s else Some s);
  let s := playbackProposals s in
  if Z.of_nat (size (peerProposals_ s)) >? prevProposers_ s / 2
  then timerEntry (now_ s) s else Some s.

Definition handleWrongLedger_body
    (startRoundInternal : Z → Z → Ledger → Mode.t → t → option t) (lgrId : Z) (s : t) : option t :=
  let s := switchPrevLedger lgrId s in
  if ledger_id (previousLedger_ s) =? prevLedgerID_ s then Some s
  else
    let '(w, newLedger) := acquireLedger (prevLedgerID_ s) (world s) in
    let s := s<|world := w|> in
    match newLedger with
    | Some l => startRoundInternal (now_ s) lgrId l Mode.switchedLedger s
    | None => Some (s<|mode_ := Mode.wrongLedger|>)
    end.

Definition checkLedger (handleWrongLedger : Z → t → option t) (s : t) : option t :=
  let '(w, netLgr) := getPrevLedger (prevLedgerID_ s) (previousLedger_ s) (mode_ s) (world s) in
  let s := s<|world := w|> in
  if negb (netLgr =? prevLedgerID_ s) then handleWrongLedger netLgr s
  else if negb (ledger_id (previousLedger_ s) =? prevLedgerID_ s) then handleWrongLedger netLgr s
  else Some s.

Definition timerEntry_body (handleWrongLedger : Z → t → option t) (now : Z) (s : t) : option t :=
  if decide (phase_ s = Phase.accepted) then Some s
  else
    let s := s<|now_ := now|> in
    s ← checkLedger handleWrongLedger s;
    Some (runPhase s).

Fixpoint startRoundInternal (fuel : nat) (now prevLedgerID : Z) (prevLedger : Ledger)
    (mode : Mode.t) (s : t) {struct fuel} : option t :=
  match fuel with
  | O => None
  | S fuel =>
      startRoundInternal_body (handleWrongLedger fuel) (timerEntry fuel)
        now prevLedgerID prevLedger mode s
  end
with handleWrongLedger (fuel : nat) (lgrId : Z) (s : t) {struct fuel} : option t :=
  match fuel with
  | O => None
  | S fuel => handleWrongLedger_body (startRoundInternal fuel) lgrId s
  end
with timerEntry (fuel : nat) (now : Z) (s : t) {struct fuel} : option t :=
  match fuel with
  | O => None
  | S fuel => timerEntry_body (handleWrongLedger fuel) now s
  end.

Lemma checkLedger_cases h s s' :
  checkLedger h s = Some s' →
  ∃ w, (s' = s<|world := w|> ∧ ledger_id (previousLedger_ s) = prevLedgerID_ s) ∨
    ∃ n, h n (s<|world := w|>) = Some s'.
Proof.
  unfold checkLedger. destruct (getPrevLedger _ _ _ _) as [w n]. simpl. intros H. exists w.
  revert H. case_if; [by eauto|]. case_if; [by eauto|]. intros [= <-]. left. by zb.
Qed.

Lemma startRoundInternal_S fuel now i l m s :
  startRoundInternal (S fuel) now i l m s =
  startRoundInternal_body (handleWrongLedger fuel) (timerEntry fuel) now i l m s.
Proof. done. Qed.

Lemma handleWrongLedger_S fuel i s :
  handleWrongLedger (S fuel) i s = handleWrongLedger_body (startRoundInternal fuel) i s.
Proof. done. Qed.

Lemma timerEntry_S fuel now s :
  timerEntry (S fuel) now s = timerEntry_body (handleWrongLedger fuel) now s.
Proof. done. Qed.

Definition startRound (fuel : nat) (now prevLedgerID : Z) (prevLedger : Ledger)
    (proposing : bool) (s : t) : option t :=
  let s :=
    if firstRound_ s
    then s<|prevCloseTime_ := ledger_closeTime prevLedger|><|firstRound_ := false|>
    else s<|prevCloseTime_ := ct_self (rawCloseTimes_ s)|> in
  startRoundInternal fuel now prevLedgerID prevLedger
    (if proposing then Mode.proposing else Mode.observing) s.

Definition simulate (now : Z) (consensusDelay : option Z) (s : t) : t :=
  let s := closeLedger (s<|now_ := now|>) in
  match result_ s with
  | None => s
  | Some r =>
      let r := r<|roundTime ::= (λ x, Stopwatch.tick_fixed x (default 100 consensusDelay))|> in
      s<|result_ := Some r|>
       <|prevProposers_ := Z.of_nat (size (peerProposals_ s))|>
       <|prevRoundTime_ := Stopwatch.read (roundTime r)|>
       <|phase_ := Phase.accepted|>
       <|world ::= onForceAccept r (previousLedger_ s) (closeResolution_ s)
           (rawCloseTimes_ s) (mode_ s)|>
  end.

(** The public interface as events; [EWorld] is the application acting on its own. *)
Inductive event :=
  | EStartRound (fuel : nat) (now prevLedgerID : Z) (prevLedger : Ledger) (proposing : bool)
  | ETimer (fuel : nat) (now : Z)
  | EProposal (now : Z) (p : ConsensusProposal.t)
  | EGotTxSet (now : Z) (o : TxSet)
  | ESimulate (now : Z) (delay : option Z)
  | EWorld (w : W).

Definition run (e : event) (s : t) : option t :=
  match e with
  | EStartRound fuel now i l proposing => startRound fuel now i l proposing s
  | ETimer fuel now => timerEntry fuel now s
  | EProposal now p => Some (peerProposal now p s).1
  | EGotTxSet now o => Some (gotTxSet now o s)
  | ESimulate now d => Some (simulate now d s)
  | EWorld w => Some (s<|world := w|>)
  end.

Fixpoint run_all (es : list event) (s : t) : option t :=
  match es with
  | [] => Some s
  | e :: es => s ← run e s; run_all es s
  end.

End consensus.
End Consensus.
