(* ===== verification/ConsensusInv.v ===== *)
(** * ConsensusInv: the invariant of the consensus state

    The state of [consensus/Consensus.h] stays well-formed under every entry
    point: the tallies of the disputes are the votes of peers with a current
    position, our votes are the contents of our set, our position names our set,
    and the peers' positions are current.  The laws of the application the proofs
    use are in [AdaptorLaws]. *)

From S2P Require Import Prelude LedgerTiming ConsensusProposal DisputedTx Consensus.

(** What [Consensus.h] asks of the callbacks: [onClose] returns a position for the
    set it returns (asserted by the constructor of [Result]), and
    [acquireLedger] the ledger it was asked for. *)
Class AdaptorLaws {Tx TxSet W : Type} (TO : TxSetOps Tx TxSet) (AD : Adaptor Tx TxSet W) := {
  onClose_position l now m w :
    let '(_, (set, pos)) := onClose l now m w in ConsensusProposal.position_ pos = txset_id set;
  acquireLedger_id i w l : (acquireLedger i w).2 = Some l → ledger_id l = i
}.

Module ConsensusInv.
Import Consensus.

Section inv.
Context {Tx TxSet W : Type} `{TO : !TxSetOps Tx TxSet} `{AD : !Adaptor Tx TxSet W}.
Context `{TL : !TxSetLaws TO} `{AL : !AdaptorLaws TO AD}.
Abbreviation t := (@t Tx TxSet W).
Abbreviation Result := (Result Tx TxSet).
Implicit Types (s : t) (r : Result) (o : TxSet).

(** A dispute: its tally, its voters, its transaction and our vote. *)
Definition dispute_ok (voters : gset Z) (set : TxSet) (k : Z) (d : DisputedTx.t Tx) : Prop :=
  DisputedTx.wf d ∧ dom (DisputedTx.votes_ d) ⊆ voters ∧
  tx_id (DisputedTx.tx_ d) = k ∧ DisputedTx.ourVote_ d = txset_exists set k.

(** The result: disputes, position, and that our set is among the acquired ones
    until we bow out. *)
Record result_ok (s : t) (r : Result) : Prop := {
  ok_disputes : map_Forall (dispute_ok (dom (peerProposals_ s)) (set_ r)) (disputes r);
  ok_position : ConsensusProposal.position_ (position r) = txset_id (set_ r);
  ok_acquired : ConsensusProposal.isBowOut (position r) = false →
    is_Some (acquired_ s !! ConsensusProposal.position_ (position r))
}.

Definition peer_ok (s : t) (k : Z) (p : ConsensusProposal.t) : Prop :=
  ConsensusProposal.nodeID_ p = k ∧ ConsensusProposal.previousLedger_ p = prevLedgerID_ s ∧
  ConsensusProposal.isBowOut p = false ∧ k ∉ deadNodes_ s.

Record Inv (s : t) : Prop := {
  inv_phase : match phase_ s with
              | Phase.open => result_ s = None
              | Phase.establish => is_Some (result_ s)
              | Phase.accepted => True
              end;
  inv_result : ∀ r, result_ s = Some r → result_ok s r;
  inv_peers : map_Forall (peer_ok s) (peerProposals_ s);
  inv_acquired : map_Forall (λ k x, txset_id x = k) (acquired_ s)
}.

(** [s'] differs from [s] in the state of the application only. *)
Definition same (s s' : t) : Prop := s' = s<|world := world s'|>.

Lemma same_refl s : same s s.
Proof. by destruct s. Qed.

Lemma same_world s w : same s (s<|world := w|>).
Proof. done. Qed.

Lemma same_trans s1 s2 s3 : same s1 s2 → same s2 s3 → same s1 s3.
Proof. unfold same. intros H1 H2. rewrite H2, H1. done. Qed.

Lemma same_Inv s s' : same s s' → Inv s → Inv s'.
Proof. intros -> [H1 H2 H3 H4]. split; [done| |done..]. intros r Hr. by destruct (H2 r Hr). Qed.

(** ** Disputes *)

Lemma dispute_ok_mono V V' set k d : V ⊆ V' → dispute_ok V set k d → dispute_ok V' set k d.
Proof. intros HV (? & ? & ? & ?). split_and!; [done| |done..]. set_solver. Qed.

Lemma setVote_ok V set k d peer v :
  peer ∈ V → dispute_ok V set k d → dispute_ok V set k (DisputedTx.setVote d peer v).
Proof.
  intros Hp (Hwf & Hv & Htx & Hour).
  destruct (DisputedTx.setVote_spec d peer v Hwf) as (H1 & H2 & H3 & H4).
  split_and!; [done|rewrite H2; set_solver|congruence..].
Qed.

Lemma unVote_ok V set k d peer :
  dispute_ok V set k d → dispute_ok (V ∖ {[peer]}) set k (DisputedTx.unVote d peer).
Proof.
  intros (Hwf & Hv & Htx & Hour).
  destruct (DisputedTx.unVote_spec d peer Hwf) as (H1 & H2 & H3 & H4).
  split_and!; [done|rewrite H2; set_solver|congruence..].
Qed.

Lemma record_votes_ok s set k d :
  dispute_ok (dom (peerProposals_ s)) set k d →
  dispute_ok (dom (peerProposals_ s)) set k (record_votes s k d).
Proof.
  intros Hd. unfold record_votes. apply foldl_invariant; [|done].
  intros d' [peer p] Hin Hd'. apply elem_of_map_to_list in Hin.
  destruct (acquired_ s !! _); [|done]. apply setVote_ok; [|done]. by apply elem_of_dom_2 in Hin.
Qed.

(** The invariant of the loops that add disputes to the result [r] of [s]. *)
Definition adds (s : t) (r : Result) (acc : t * Result) : Prop :=
  same s acc.1 ∧ result_ok s acc.2 ∧ set_ acc.2 = set_ r ∧ position acc.2 = position r.

Lemma result_ok_same s s' r : same s s' → result_ok s r ↔ result_ok s' r.
Proof. intros ->. split; intros []; done. Qed.

Lemma result_ok_disputes s r r' :
  set_ r' = set_ r → position r' = position r → result_ok s r →
  map_Forall (dispute_ok (dom (peerProposals_ s)) (set_ r)) (disputes r') → result_ok s r'.
Proof. intros H1 H2 [] Hds. split; by rewrite ?H1, ?H2. Qed.

Lemma adds_refl s r : result_ok s r → adds s r (s, r).
Proof. intros. split_and!; [apply same_refl|done..]. Qed.

Lemma adds_trans s r acc acc' : adds s r acc → adds acc.1 acc.2 acc' → adds s r acc'.
Proof.
  intros (H1 & H2 & H3 & H4) (H5 & H6 & H7 & H8). split_and!.
  - by eapply same_trans.
  - by apply (result_ok_same _ _ _ H1).
  - congruence.
  - congruence.
Qed.

Lemma createDispute_ok o s r id : result_ok s r → adds s r (createDispute o s r id).
Proof.
  intros Hr. unfold createDispute.
  destruct (if id.2 then _ else _) as [tx|]; [|by apply adds_refl].
  destruct (disputes r !! tx_id tx) eqn:E; [by apply adds_refl|].
  split_and!; [apply same_world| |done..]. apply (result_ok_disputes s r); [done..|]. simpl.
  apply map_Forall_insert_2; [|apply Hr]. apply record_votes_ok.
  split_and!; [apply DisputedTx.make_wf| |done..]. simpl. set_solver.
Qed.

Lemma createDisputes_ok o s r : result_ok s r → adds s r (createDisputes o s r).
Proof.
  intros Hr. unfold createDisputes. case_if; [by apply adds_refl|].
  assert (adds s r (s, r<|compares ::= union {[txset_id o]}|>)) as H.
  { split_and!; [apply same_refl| |done..]. by destruct Hr. }
  case_if; [done|]. apply foldl_invariant; [|done]. intros [s' r'] id _ Ha.
  eapply adds_trans; [done|]. apply createDispute_ok. destruct Ha as (Hs & Ha & _).
  by apply (result_ok_same _ _ _ Hs).
Qed.

Lemma updateDisputes_ok node o s r :
  node ∈ dom (peerProposals_ s) → result_ok s r → adds s r (updateDisputes node o s r).
Proof.
  intros Hn Hr. unfold updateDisputes.
  assert (adds s r (if bool_decide (txset_id o ∈ compares r) then (s, r) else createDisputes o s r))
    as H by (case_if; [by apply adds_refl|by apply createDisputes_ok]).
  destruct (if bool_decide _ then (s, r) else _) as [s' r']. destruct H as (H1 & H2 & H3 & H4).
  split_and!; [done| |done..]. simpl in *. apply (result_ok_disputes s r'); [done..|]. simpl.
  apply map_Forall_fmap. intros k d Hd. apply setVote_ok; [done|]. by apply (ok_disputes _ _ H2).
Qed.

(** A loop over the peers' positions, each of which may add disputes *)
Lemma foldl_peers_ok (f : t * Result → Z * ConsensusProposal.t → t * Result) s r :
  (∀ s' r' peer p, peerProposals_ s' !! peer = Some p → result_ok s' r' →
     adds s' r' (f (s', r') (peer, p))) →
  result_ok s r → adds s r (foldl f (s, r) (map_to_list (peerProposals_ s))).
Proof.
  intros Hf Hr. apply foldl_invariant; [|by apply adds_refl]. intros [s' r'] [peer p] Hin Ha.
  apply elem_of_map_to_list in Hin. eapply adds_trans; [done|].
  destruct Ha as (Hs & Ha & _). simpl in *. apply Hf; [by rewrite Hs|].
  by apply (result_ok_same _ _ _ Hs).
Qed.

(** ** Peer positions and acquired sets *)

Lemma result_ok_weaken s s' r :
  dom (peerProposals_ s) ⊆ dom (peerProposals_ s') →
  (∀ k, is_Some (acquired_ s !! k) → is_Some (acquired_ s' !! k)) →
  result_ok s r → result_ok s' r.
Proof.
  intros Hd Ha [H1 H2 H3]. split; [|done|auto]. eapply map_Forall_impl; [done|].
  intros k d. by apply dispute_ok_mono.
Qed.

(** Only [result_] of the state changes to [r]. *)
Lemma Inv_put s r acc :
  Inv s → result_ s = Some r → adds s r acc → Inv (acc.1<|result_ := Some acc.2|>).
Proof.
  intros [H1 H2 H3 H4] Hr (Hs & Ha & _). destruct acc as [s' r']. simpl in *. rewrite Hs.
  split; simpl; [|intros ? [= <-]; by destruct Ha|done..].
  destruct (phase_ s); [congruence|done..].
Qed.

Lemma Inv_now s now : Inv s → Inv (s<|now_ := now|>).
Proof. intros [H1 H2 H3 H4]. split; [done| |done..]. intros r Hr. by destruct (H2 r Hr). Qed.

Lemma Inv_acquired s k o : txset_id o = k → Inv s → Inv (s<|acquired_ ::= <[k := o]>|>).
Proof.
  intros Hk [H1 H2 H3 H4]. split; [done| |done|].
  - intros r Hr. apply (result_ok_weaken s); [done| |by apply H2]. simpl.
    intros k' [x Hx]. destruct (decide (k' = k)) as [->|];
      [rewrite lookup_insert_eq|rewrite lookup_insert_ne by done]; eauto.
  - simpl. by apply map_Forall_insert_2.
Qed.

Lemma gotTxSet_Inv now o s : Inv s → Inv (gotTxSet now o s).
Proof.
  intros Hs. unfold gotTxSet. case_decide; [done|]. simpl.
  destruct (acquired_ s !! txset_id o); [by apply Inv_now|].
  assert (Inv (s<|now_ := now|><|acquired_ ::= <[txset_id o := o]>|>)) as Hs'
    by (apply (Inv_acquired (s<|now_ := now|>)); [done|by apply Inv_now]).
  set (s' := _<|acquired_ ::= _|>) in *.
  change (result_ s) with (result_ s'). change (peerProposals_ s) with (peerProposals_ s').
  destruct (result_ s') as [r|] eqn:E; [|done].
  match goal with |- context [foldl ?f ?a ?l] => assert (adds s' r (foldl f a l)) as Ha end.
  { apply foldl_peers_ok; [|by apply Hs']. intros s1 r1 peer p Hp H1.
    case_if; [|by apply adds_refl]. apply updateDisputes_ok; [|done]. by apply elem_of_dom_2 in Hp. }
  apply (Inv_put _ _ _ Hs' E) in Ha. by destruct (foldl _ _ _).
Qed.

(** A peer leaves: its votes go with its position. *)
Lemma Inv_bowOut s peer :
  Inv s →
  Inv (s<|result_ ::= fmap (λ r : Result, r<|disputes ::= fmap (λ d, DisputedTx.unVote d peer)|>)|>
        <|peerProposals_ ::= delete peer|><|deadNodes_ ::= union {[peer]}|>).
Proof.
  intros [H1 H2 H3 H4]. split; simpl; [| | |done].
  - destruct (phase_ s); [by rewrite H1| |done]. by apply fmap_is_Some.
  - intros r' (r & Hr & ->)%fmap_Some. destruct (H2 r Hr) as [G1 G2 G3]. split; [|done..]. simpl.
    rewrite dom_delete_L. apply map_Forall_fmap. intros k d Hd. by apply unVote_ok, G1.
  - intros k p (Hk & Hp)%lookup_delete_Some. destruct (H3 k p Hp) as (? & ? & ? & ?).
    split_and!; [done..|]. simpl. set_solver.
Qed.

(** A peer takes a position. *)
Lemma Inv_peer s p ct :
  ConsensusProposal.previousLedger_ p = prevLedgerID_ s →
  ConsensusProposal.isBowOut p = false → ConsensusProposal.nodeID_ p ∉ deadNodes_ s → Inv s →
  Inv (s<|peerProposals_ ::= <[ConsensusProposal.nodeID_ p := p]>|><|rawCloseTimes_ := ct|>).
Proof.
  intros Hl Hb Hd [H1 H2 H3 H4]. split; simpl; [done| | |done].
  - intros r Hr. apply (result_ok_weaken s); [|done|by apply H2]. simpl. set_solver.
  - apply map_Forall_insert_2; [done|]. done.
Qed.

Lemma peerProposal_Inv now p s : Inv s → Inv (peerProposal now p s).1.
Proof.
  intros Hs. unfold peerProposal. case_decide; [done|]. simpl.
  pose proof (Inv_now s now Hs) as Hn.
  destruct (_ =? prevLedgerID_ s) eqn:El; simpl; [|done]. zb.
  case_bool_decide as Hdead; [done|].
  destruct (match peerProposals_ s !! _ with Some _ => _ | None => _ end); [done|].
  destruct (ConsensusProposal.isBowOut p) eqn:Eb; [by apply (Inv_bowOut (s<|now_ := now|>))|].
  match goal with |- context [if ConsensusProposal.isInitial p then ?a else ?b] =>
    assert (∃ ct, (if ConsensusProposal.isInitial p then a else b) =
      s<|now_ := now|><|peerProposals_ ::= <[ConsensusProposal.nodeID_ p := p]>|>
       <|rawCloseTimes_ := ct|>) as [ct ->]
  end.
  { destruct (ConsensusProposal.isInitial p); [by eexists|]. by exists (rawCloseTimes_ s). }
  eapply (Inv_peer _ p ct) in Hn as Hp; [|done..].
  set (s' := _<|rawCloseTimes_ := ct|>) in *.
  destruct (acquired_ s' !! _) as [o|].
  - destruct (result_ s') as [r|] eqn:Er; [|done].
    pose proof (updateDisputes_ok (ConsensusProposal.nodeID_ p) o s' r) as Ha.
    destruct (updateDisputes _ _ _ _) as [s1 r1].
    apply (Inv_put s' r (s1, r1) Hp Er), Ha; [|by apply Hp].
    unfold s'. simpl. set_solver.
  - destruct (acquireTxSet _ _) as [w [o|]]; simpl; [apply gotTxSet_Inv|];
      by apply (same_Inv s').
Qed.

Lemma playbackProposals_Inv s : Inv s → Inv (playbackProposals s).
Proof.
  intros Hs. unfold playbackProposals. apply foldl_invariant; [|done].
  intros s' p _ Hs'. pose proof (peerProposal_Inv (now_ s') p s' Hs') as H.
  destruct (peerProposal _ _ _) as [s'' []]; [|done]. by apply (same_Inv s'').
Qed.

(** ** Closing the ledger *)

(** A state in the establish phase gets its result. *)
Lemma Inv_establish s r acc :
  phase_ s = Phase.establish → map_Forall (peer_ok s) (peerProposals_ s) →
  map_Forall (λ k x, txset_id x = k) (acquired_ s) → adds s r acc →
  Inv (acc.1<|result_ := Some acc.2|>).
Proof.
  intros H1 H2 H3 (Hs & Ha & _). destruct acc as [s' r']. simpl in *. rewrite Hs.
  split; simpl; [by rewrite H1|intros ? [= <-]; by destruct Ha|done..].
Qed.

Lemma shareSet_ok set s :
  map_Forall (λ k x, txset_id x = k) (acquired_ s) →
  ∃ acq w, shareSet set s = s<|acquired_ := acq|><|world := w|> ∧
    is_Some (acq !! txset_id set) ∧ map_Forall (λ k x, txset_id x = k) acq.
Proof.
  intros Hs. unfold shareSet. destruct (acquired_ s !! txset_id set) eqn:E.
  - exists (acquired_ s), (world s). split_and!; [by destruct s|by rewrite E|done].
  - exists (<[txset_id set := set]> (acquired_ s)), (relay_set set (world s)).
    split_and!; [done|by rewrite lookup_insert_eq|by apply map_Forall_insert_2].
Qed.

Lemma closeLedger_Inv s : Inv s → Inv (closeLedger s).
Proof.
  intros Hs. unfold closeLedger. simpl.
  pose proof (onClose_position (previousLedger_ s) (now_ s) (mode_ s) (world s)) as Hpos.
  destruct (onClose _ _ _ _) as [w [set pos]]. destruct (clock_now w) as [w' tp].
  set (s1 := s<|phase_ := _|><|rawCloseTimes_ := _|><|world := w'|>).
  destruct (shareSet_ok set s1) as (acq & w2 & -> & Hset & Hacq); [apply Hs|].
  set (s2 := if is_proposing _ then _ else _).
  assert (same (s1<|acquired_ := acq|>) s2) as Hs2.
  { unfold s2. by case_if. }
  clearbody s2. set (r := mkResult _ _ _ _ _ _).
  match goal with |- context [foldl ?f ?a ?l] => assert (adds s2 r (foldl f a l)) as Ha end.
  { apply foldl_peers_ok;
      [|rewrite Hs2; split; [apply map_Forall_empty|done|simpl; by rewrite Hpos]].
    intros s' r' peer p Hp Hr.
    destruct (acquired_ s' !! _); [by apply createDisputes_ok|by apply adds_refl]. }
  apply Inv_establish in Ha; [by destruct (foldl _ _ _)|by rewrite Hs2|rewrite Hs2; apply Hs|by rewrite Hs2].
Qed.

Lemma phaseOpen_Inv s : Inv s → Inv (phaseOpen s).
Proof.
  intros Hs. unfold phaseOpen. destruct (clock_now (world s)) as [w tp]. simpl.
  assert (Inv (s<|world := w|><|openTime_ ::= (λ x, Stopwatch.tick x tp)|>)) as H.
  { destruct Hs as [H1 H2 H3 H4]. split; [done| |done..]. intros r Hr. by destruct (H2 r Hr). }
  case_if; [by apply closeLedger_Inv|done].
Qed.

(** ** Updating our position *)

Lemma dropStale_ok s r :
  map_Forall (peer_ok s) (peerProposals_ s) → result_ok s r →
  let '(pp, r', _) := dropStale s r in
  pp ⊆ peerProposals_ s ∧ map_Forall (dispute_ok (dom pp) (set_ r)) (disputes r') ∧
  r' = r<|disputes := disputes r'|>.
Proof.
  intros Hpeers [Hr _ _]. unfold dropStale.
  set (P := λ acc : gmap Z ConsensusProposal.t * Result * list (Z * Z), let '(pp, r', _) := acc in
    pp ⊆ peerProposals_ s ∧ map_Forall (dispute_ok (dom pp) (set_ r)) (disputes r') ∧
    r' = r<|disputes := disputes r'|>).
  match goal with |- let '(_, _) := ?e in _ => change (P e) end.
  apply foldl_invariant; [|unfold P; split_and!; [done..|by destruct r]].
  intros [[pp r'] eff] [peer p] Hin (H1 & H2 & H3). apply elem_of_map_to_list in Hin.
  destruct (Hpeers _ _ Hin) as [Hid _]. unfold dropStale_step. simpl. case_if; [|done]. split_and!; [|simpl|by rewrite H3].
  - etrans; [apply delete_subseteq|done].
  - rewrite Hid, dom_delete_L. apply map_Forall_fmap. intros k d Hd. by apply unVote_ok, H2.
Qed.

(** A vote flips together with the membership of its transaction. *)
Lemma updateDispute_ok pct proposing V set0 acc k d :
  DisputedTx.wf d → dom (DisputedTx.votes_ d) ⊆ V → tx_id (DisputedTx.tx_ d) = k →
  map_Forall (dispute_ok V (default set0 acc.2)) acc.1 →
  let acc' := updateDispute pct proposing set0 acc (k, d) in
  map_Forall (dispute_ok V (default set0 acc'.2)) acc'.1.
Proof.
  intros Hwf Hv Htx Hds. destruct acc as [ds m]. unfold updateDispute. simpl in *.
  pose proof (DisputedTx.updateVote_spec d pct proposing Hwf) as (H1 & H2 & H3 & H4).
  destruct (DisputedTx.updateVote d pct proposing) as [d' []]; [|done]. simpl in *.
  set (x := if DisputedTx.ourVote_ d' then _ else _).
  assert (∀ i, txset_exists x i =
    if decide (i = k) then DisputedTx.ourVote_ d' else txset_exists (default set0 m) i) as Hx.
  { intros i. unfold x. destruct (DisputedTx.ourVote_ d').
    - rewrite exists_insert, H3, Htx. case_bool_decide; by case_decide.
    - rewrite exists_erase. case_bool_decide; by case_decide. }
  clearbody x. intros i e. rewrite lookup_insert. case_decide as Hi.
  - intros [= <-]. subst i. split_and!; [done|by rewrite H2|congruence|].
    rewrite Hx. by case_decide.
  - intros He. destruct (Hds i e He) as (? & ? & ? & Hour). split_and!; [done..|].
    rewrite Hx, Hour. by case_decide.
Qed.

Lemma updateDispute_fold_ok pct proposing V set0 ds :
  map_Forall (dispute_ok V set0) ds →
  let acc := foldl (updateDispute pct proposing set0) (ds, None) (map_to_list ds) in
  map_Forall (dispute_ok V (default set0 acc.2)) acc.1.
Proof.
  intros Hds. simpl.
  apply (foldl_invariant (λ acc, map_Forall (dispute_ok V (default set0 acc.2)) acc.1)); [|done].
  intros acc [k d] Hin Hacc. apply elem_of_map_to_list in Hin.
  destruct (Hds k d Hin) as (? & ? & ? & _). by apply updateDispute_ok.
Qed.

(** What [updateOurPositions] may change of the state. *)
Definition updates (s s' : t) : Prop :=
  ∃ acq have w, s' = s<|acquired_ := acq|><|haveCloseTimeConsensus_ := have|><|world := w|> ∧
    map_Forall (λ k x, txset_id x = k) acq.

Lemma takePosition_ok set ct s r :
  map_Forall (λ k x, txset_id x = k) (acquired_ s) →
  map_Forall (dispute_ok (dom (peerProposals_ s)) set) (disputes r) →
  let '(s', r') := takePosition set ct s r in
  updates s s' ∧ result_ok s' r' ∧ roundTime r' = roundTime r.
Proof.
  intros Hacq Hds. unfold takePosition. simpl.
  destruct (ConsensusProposal.isBowOut _) eqn:Eb.
  - split_and!; [|by split; simpl; rewrite ?Eb|done..].
    exists (acquired_ s), (haveCloseTimeConsensus_ s), (world s). split; [by destruct s|done].
  - destruct (shareSet_ok set s Hacq) as (acq & w & -> & Hset & Hacq').
    split_and!; [|case_if; by split|done..].
    case_if; eexists acq, (haveCloseTimeConsensus_ s), _; (split; [|done]); by destruct s.
Qed.

Lemma updateOurPositions_ok s r :
  map_Forall (peer_ok s) (peerProposals_ s) →
  map_Forall (λ k x, txset_id x = k) (acquired_ s) → result_ok s r →
  let '(s', r') := updateOurPositions s r in
  ∃ pp, pp ⊆ peerProposals_ s ∧ updates (s<|peerProposals_ := pp|>) s' ∧
  result_ok s' r' ∧ roundTime r' = roundTime r.
Proof.
  intros Hpeers Hacq Hr. unfold updateOurPositions.
  pose proof (dropStale_ok s r Hpeers Hr) as Hd. destruct (dropStale s r) as [[pp r1] eff].
  destruct Hd as (Hpp & Hd1 & Hr1). simpl.
  pose proof (updateDispute_fold_ok (convergePercent_ s) (is_proposing (s<|peerProposals_ := pp|>))
    (dom pp) (set_ r1) (disputes r1)) as Hd. rewrite Hr1 in Hd at 1. specialize (Hd Hd1).
  destruct (foldl _ _ _) as [ds m]. simpl in Hd.
  destruct (closeTimeConsensus _ _ _) as [ct have].
  set (s1 := s<|peerProposals_ := pp|><|haveCloseTimeConsensus_ := have|>).
  set (r2 := r1<|disputes := ds|>). assert (roundTime r2 = roundTime r) as Ht by (unfold r2; by rewrite Hr1).
  pose proof (takePosition_ok (default (set_ r1) m) ct s1 r2 Hacq Hd) as Hp.
  assert (let '(s', r') := takePosition (default (set_ r1) m) ct s1 r2 in
    ∃ pp, pp ⊆ peerProposals_ s ∧ updates (s<|peerProposals_ := pp|>) s' ∧
    result_ok s' r' ∧ roundTime r' = roundTime r) as Htake.
  { destruct (takePosition _ _ _ _) as [s' r']. exists pp. destruct Hp as ((acq & hv & w & -> & ?) & ? & ?).
    split_and!; [done| |done|congruence]. by exists acq, hv, w. }
  destruct m as [x|]; [done|]. case_if; [done|]. exists pp. split_and!; [done| | |done].
  - exists (acquired_ s), have, (world s). by split.
  - destruct Hr as [_ H2 H3]. rewrite Hr1 in Hd. by split; simpl; rewrite Hr1.
Qed.

Lemma phaseEstablish_Inv s : phase_ s = Phase.establish → Inv s → Inv (phaseEstablish s).
Proof.
  intros Hph [H1 H2 H3 H4]. rewrite Hph in H1. unfold phaseEstablish.
  destruct (result_ s) as [r|] eqn:Er; [|done]. destruct (clock_now (world s)) as [w tp].
  destruct (H2 r eq_refl) as [G1 G2 G3]. simpl.
  set (r1 := r<|roundTime ::= _|>). set (s1 := s<|world := w|><|convergePercent_ := _|>).
  assert (result_ok s1 r1) as Hr by by split. case_if.
  { split; simpl; [by rewrite Hph|by intros ? [= <-]|done..]. }
  pose proof (updateOurPositions_ok s1 r1 H3 H4 Hr) as Hu.
  destruct (updateOurPositions s1 r1) as [s2 r2].
  destruct Hu as (pp & Hpp & (acq & have & w2 & -> & Hacq) & [K1 K2 K3] & _).
  assert (map_Forall (peer_ok s) pp) as Hpp'.
  { intros k p Hp. apply H3. by eapply lookup_weaken. }
  repeat case_if; split; simpl; rewrite ?Hph; try done;
    intros ? [= <-]; by split.
Qed.

(** ** Rounds *)

Lemma switch_reset_Inv s lgrId :
  Inv s →
  let s1 := leaveConsensus (s<|prevLedgerID_ := lgrId|>) in
  Inv (s1<|result_ ::= fmap (λ r : Result, r<|disputes := ∅|><|compares := ∅|>)|>
         <|peerProposals_ := ∅|>
         <|rawCloseTimes_ := mkCloseTimes ∅ (ct_self (rawCloseTimes_ s1))|>
         <|deadNodes_ := ∅|>).
Proof.
  intros [H1 H2 H3 H4]. unfold leaveConsensus. simpl.
  destruct (is_proposing _), (result_ s) as [r|] eqn:Er; [destruct (negb _)| | |];
    (split; simpl; rewrite ?Er; [by destruct (phase_ s)| |apply map_Forall_empty|done]);
    intros r' [= <-]; destruct (H2 r eq_refl); by split.
Qed.

Lemma switchPrevLedger_Inv lgrId s : Inv s → Inv (switchPrevLedger lgrId s).
Proof.
  intros Hs. unfold switchPrevLedger. case_if; [done|].
  by apply playbackProposals_Inv, switch_reset_Inv.
Qed.

Lemma resetRound_Inv now i l m s : Inv (resetRound now i l m s).
Proof.
  unfold resetRound. destruct (clock_now _). split; simpl; [done..| |];
    apply map_Forall_empty.
Qed.

Lemma runPhase_Inv s : Inv s → Inv (runPhase s).
Proof.
  intros Hs. unfold runPhase. destruct (phase_ s) eqn:E;
    [by apply phaseOpen_Inv|by apply phaseEstablish_Inv|done].
Qed.

Lemma rounds_Inv fuel :
  (∀ now i l m s s', startRoundInternal fuel now i l m s = Some s' → Inv s') ∧
  (∀ i s s', Inv s → handleWrongLedger fuel i s = Some s' → Inv s') ∧
  (∀ now s s', Inv s → timerEntry fuel now s = Some s' → Inv s').
Proof.
  induction fuel as [|fuel (IHs & IHh & IHt)]; [by split_and!|].
  split_and!.
  - intros now i l m s s'. rewrite startRoundInternal_S. unfold startRoundInternal_body.
    intros (s1 & H1 & H2)%bind_Some.
    assert (Inv s1) as Hs1.
    { revert H1. case_if; [|intros [= <-]; apply resetRound_Inv]. apply IHh, resetRound_Inv. }
    apply playbackProposals_Inv in Hs1. revert H2. case_if; [by apply IHt|congruence].
  - intros i s s' Hs. rewrite handleWrongLedger_S. unfold handleWrongLedger_body.
    apply (switchPrevLedger_Inv i) in Hs. case_if; [congruence|].
    destruct (acquireLedger _ _) as [w [l|]]; [apply IHs|]. intros [= <-].
    destruct Hs as [H1 H2 H3 H4]. split; [done| |done..]. intros r Hr. by destruct (H2 r Hr).
  - intros now s s' Hs. rewrite timerEntry_S. unfold timerEntry_body. case_decide; [congruence|].
    intros (s1 & H1 & [= <-])%bind_Some. apply runPhase_Inv. apply (Inv_now _ now) in Hs.
    apply checkLedger_cases in H1 as (w & [[-> _]|[n H1]]).
    + by eapply same_Inv.
    + eapply IHh; [|done]. by eapply same_Inv.
Qed.

Lemma startRound_Inv fuel now i l proposing s s' :
  startRound fuel now i l proposing s = Some s' → Inv s'.
Proof. apply rounds_Inv. Qed.

Lemma simulate_Inv now d s : Inv s → Inv (simulate now d s).
Proof.
  intros Hs. unfold simulate. apply (Inv_now _ now), closeLedger_Inv in Hs.
  destruct (result_ _) as [r|] eqn:Er; [|done]. destruct Hs as [H1 H2 H3 H4].
  split; simpl; [done| |done..]. intros ? [= <-]. by destruct (H2 r Er).
Qed.

Lemma initial_Inv w : Inv (initial w).
Proof. split; [done..| |]; apply map_Forall_empty. Qed.

Lemma run_Inv e s s' : Inv s → run e s = Some s' → Inv s'.
Proof.
  intros Hs. destruct e; simpl.
  - apply startRound_Inv.
  - by apply rounds_Inv.
  - intros [= <-]. by apply peerProposal_Inv.
  - intros [= <-]. by apply gotTxSet_Inv.
  - intros [= <-]. by apply simulate_Inv.
  - intros [= <-]. by apply (same_Inv s).
Qed.

End inv.
End ConsensusInv.
