(* ===== verification/ConsensusSafety.v ===== *)
(** * ConsensusSafety: what the consensus algorithm guarantees

    The runs of [consensus/Consensus.h] as a step relation over its entry points,
    the invariant of every reachable state, the conditions under which a round is
    accepted, and that more fuel does not change a result. *)

From S2P Require Import Prelude LedgerTiming ConsensusProposal DisputedTx Consensus ConsensusInv.

Module ConsensusSafety.
Import Consensus ConsensusInv.

Section safety.
Context {Tx TxSet W : Type} `{TO : !TxSetOps Tx TxSet} `{AD : !Adaptor Tx TxSet W}.
Abbreviation t := (@t Tx TxSet W).
Abbreviation Result := (Result Tx TxSet).
Implicit Types (s : t) (r : Result) (o : TxSet).

(** ** What the operations leave alone *)

(** The ledger we work from, the one the network works from, and our mode *)
Definition core (s : t) : Mode.t * Z * Ledger := (mode_ s, prevLedgerID_ s, previousLedger_ s).

(** Either we have the network's ledger or we know that we do not. *)
Definition Synced (s : t) : Prop :=
  ledger_id (previousLedger_ s) = prevLedgerID_ s ∨ mode_ s = Mode.wrongLedger.

Lemma Synced_core s s' : core s' = core s → Synced s → Synced s'.
Proof. unfold core, Synced. intros [= -> -> ->]. done. Qed.

Lemma same_core s s' : same s s' → core s' = core s ∧ phase_ s' = phase_ s.
Proof. by intros ->. Qed.

Lemma foldl_same {B} (f : t * Result → B → t * Result) l s r :
  (∀ s r x, same s (f (s, r) x).1) → same s (foldl f (s, r) l).1.
Proof.
  intros Hf. apply (foldl_invariant (λ acc, same s acc.1)); [|apply same_refl].
  intros [s' r'] x _ Hs. eapply same_trans; [done|]. apply Hf.
Qed.

Lemma createDisputes_same o s r : same s (createDisputes o s r).1.
Proof.
  unfold createDisputes. case_if; [apply same_refl|]. case_if; [apply same_refl|].
  apply foldl_same. intros s' r' x. unfold createDispute.
  repeat case_match; simplify_eq; apply same_refl || apply same_world.
Qed.

Lemma updateDisputes_same node o s r : same s (updateDisputes node o s r).1.
Proof.
  unfold updateDisputes. pose proof (createDisputes_same o s r) as H.
  case_if; [apply same_refl|]. by destruct (createDisputes o s r).
Qed.

Lemma gotTxSet_core now o s :
  core (gotTxSet now o s) = core s ∧ phase_ (gotTxSet now o s) = phase_ s.
Proof.
  unfold gotTxSet. case_decide; [done|]. simpl. destruct (acquired_ s !! _); [done|].
  destruct (result_ s) as [r|]; [|done].
  match goal with |- context [foldl ?f (?s1, r) ?l] =>
    destruct (same_core s1 (foldl f (s1, r) l).1) as [H1 H2] end.
  { apply foldl_same. intros s1 r1 [k p]. case_if; [apply updateDisputes_same|apply same_refl]. }
  by destruct (foldl _ _ _).
Qed.

Lemma peerProposal_core now p s :
  core (peerProposal now p s).1 = core s ∧ phase_ (peerProposal now p s).1 = phase_ s.
Proof.
  unfold peerProposal. case_decide; [done|]. simpl. repeat (case_if; [done|]).
  match goal with |- context [if ConsensusProposal.isInitial p then ?a else ?b] =>
    set (s' := if ConsensusProposal.isInitial p then a else b) end.
  assert (core s' = core s ∧ phase_ s' = phase_ s) as [<- <-] by (unfold s'; by case_if).
  clearbody s'. destruct (acquired_ s' !! _) as [o|].
  - destruct (result_ s') as [r|]; [|done].
    pose proof (updateDisputes_same (ConsensusProposal.nodeID_ p) o s' r) as H1.
    destruct (updateDisputes _ _ _ _). by apply same_core in H1.
  - destruct (acquireTxSet _ _) as [w [o|]]; [|done].
    destruct (gotTxSet_core (now_ s') o (s'<|world := w|>)). done.
Qed.

Lemma playbackProposals_core s :
  core (playbackProposals s) = core s ∧ phase_ (playbackProposals s) = phase_ s.
Proof.
  unfold playbackProposals.
  apply (foldl_invariant (λ s', core s' = core s ∧ phase_ s' = phase_ s)); [|done].
  intros s' p _ [<- <-]. pose proof (peerProposal_core (now_ s') p s') as H.
  destruct (peerProposal _ _ _) as [s'' []]; done.
Qed.

Lemma shareSet_core set s : core (shareSet set s) = core s ∧ phase_ (shareSet set s) = phase_ s.
Proof. unfold shareSet. by destruct (acquired_ s !! _). Qed.

Lemma closeLedger_core s :
  core (closeLedger s) = core s ∧ phase_ (closeLedger s) = Phase.establish.
Proof.
  unfold closeLedger. simpl. destruct (onClose _ _ _ _) as [w [set pos]].
  destruct (clock_now w) as [w' tp]. set (s1 := s<|phase_ := _|><|rawCloseTimes_ := _|><|world := w'|>).
  destruct (shareSet_core set s1) as [H1 H2]. set (s2 := if is_proposing _ then _ else _).
  assert (core s2 = core s ∧ phase_ s2 = Phase.establish) as [<- <-] by (unfold s2; by case_if).
  match goal with |- context [foldl ?f (?s1, ?r) ?l] =>
    destruct (same_core s1 (foldl f (s1, r) l).1) as [H3 H4] end.
  { apply foldl_same. intros s3 r3 [k p].
    destruct (acquired_ s3 !! _); [apply createDisputes_same|apply same_refl]. }
  by destruct (foldl _ _ _).
Qed.

Lemma phaseOpen_core s :
  core (phaseOpen s) = core s ∧ (phase_ (phaseOpen s) = phase_ s ∨ phase_ (phaseOpen s) = Phase.establish).
Proof.
  unfold phaseOpen. destruct (clock_now (world s)) as [w tp]. simpl. case_if; [|by auto].
  match goal with |- context [closeLedger ?x] => destruct (closeLedger_core x) as [H1 H2] end. auto.
Qed.

Lemma takePosition_core set ct s r :
  core (takePosition set ct s r).1 = core s ∧ phase_ (takePosition set ct s r).1 = phase_ s.
Proof.
  unfold takePosition. destruct (shareSet_core set s). repeat (case_if; [done|]). done.
Qed.

Lemma updateOurPositions_core s r :
  core (updateOurPositions s r).1 = core s ∧ phase_ (updateOurPositions s r).1 = phase_ s.
Proof.
  unfold updateOurPositions. destruct (dropStale s r) as [[pp r1] eff]. simpl.
  destruct (foldl _ _ _) as [ds m]. destruct (closeTimeConsensus _ _ _) as [ct have].
  set (s1 := s<|peerProposals_ := pp|><|haveCloseTimeConsensus_ := have|>).
  destruct m as [x|]; [apply (takePosition_core x ct s1)|].
  case_if; [apply (takePosition_core _ ct s1)|done].
Qed.

(** [phaseEstablish] either stays or accepts. *)
Lemma phaseEstablish_core s :
  core (phaseEstablish s) = core s ∧
  (phase_ (phaseEstablish s) = phase_ s ∨ phase_ (phaseEstablish s) = Phase.accepted).
Proof.
  unfold phaseEstablish. destruct (result_ s) as [r|]; [|by auto].
  destruct (clock_now (world s)) as [w tp]. simpl. case_if; [by auto|].
  match goal with |- context [updateOurPositions ?a ?b] =>
    destruct (updateOurPositions_core a b) as [H1 H2] end.
  destruct (updateOurPositions _ _) as [s' r']. repeat (case_if; [by auto|]). by auto.
Qed.

Lemma runPhase_core s : core (runPhase s) = core s.
Proof.
  unfold runPhase. destruct (phase_ s); [apply phaseOpen_core|apply phaseEstablish_core|done].
Qed.

(** ** The ledger we work from *)

Lemma resetRound_core now i l m s :
  core (resetRound now i l m s) = (m, i, l) ∧ phase_ (resetRound now i l m s) = Phase.open.
Proof. unfold resetRound. by destruct (clock_now _). Qed.

Lemma switchPrevLedger_id lgrId s :
  prevLedgerID_ (switchPrevLedger lgrId s) = lgrId ∧
  previousLedger_ (switchPrevLedger lgrId s) = previousLedger_ s ∧
  phase_ (switchPrevLedger lgrId s) = phase_ s ∧
  (mode_ (switchPrevLedger lgrId s) = Mode.proposing →
     mode_ s = Mode.proposing ∧ prevLedgerID_ s = lgrId).
Proof.
  unfold switchPrevLedger. case_if; zb; [by subst|].
  match goal with |- context [playbackProposals ?x] =>
    destruct (playbackProposals_core x) as [[= -> -> ->] ->] end.
  unfold leaveConsensus. simpl. case_if; simpl.
  - by destruct (result_ s) as [r|]; [destruct (negb _)|].
  - split_and!; [done..|]. intros Hm. unfold is_proposing in E0. simpl in E0.
    by rewrite Hm in E0.
Qed.

(** ** Acceptance *)

(** The state in which [onAccept] was called. *)
Definition accept_ok (s : t) : Prop :=
  ∃ r w, result_ s = Some r ∧
    world s = onAccept r (previousLedger_ s) (closeResolution_ s) (rawCloseTimes_ s) (mode_ s) w ∧
    haveCloseTimeConsensus_ s = true ∧
    LEDGER_MIN_CONSENSUS < Stopwatch.read (roundTime r) ∧
    prevRoundTime_ s = Stopwatch.read (roundTime r) ∧
    prevProposers_ s = Z.of_nat (size (peerProposals_ s)) ∧
    match state r with
    | Yes => peerProposals_ s = ∅ ∨
        let self := if is_proposing s then 1 else 0 in
        81 * (prevProposers_ s + self) ≤ 100 * (agree_count s r + self)
    | MovedOn => checkConsensusReached (proposersFinished (prevLedgerID_ s) w)
                   (prevProposers_ s) false = true
    | No => False
    end.

Lemma checkConsensus_reached prev cur agree finished prevTime time proposing :
  match checkConsensus prev cur agree finished prevTime time proposing with
  | No => True
  | Yes => LEDGER_MIN_CONSENSUS < time ∧ checkConsensusReached agree cur proposing = true
  | MovedOn => LEDGER_MIN_CONSENSUS < time ∧ checkConsensusReached finished cur false = true
  end.
Proof. unfold checkConsensus. repeat (case_if; zb; try done; try lia). Qed.

Lemma reached_agreement s r :
  checkConsensusReached (agree_count s r) (Z.of_nat (size (peerProposals_ s))) (is_proposing s) = true →
  peerProposals_ s = ∅ ∨
  let self := if is_proposing s then 1 else 0 in
  81 * (Z.of_nat (size (peerProposals_ s)) + self) ≤ 100 * (agree_count s r + self).
Proof.
  intros Hc. destruct (decide (peerProposals_ s = ∅)) as [|Hne]; [by left|right].
  apply map_size_non_empty_iff in Hne. unfold agree_count in *.
  apply checkConsensusReached_iff in Hc; lia.
Qed.

Lemma phaseEstablish_accepts s :
  phase_ s ≠ Phase.accepted → phase_ (phaseEstablish s) = Phase.accepted →
  accept_ok (phaseEstablish s).
Proof.
  intros Hph. unfold phaseEstablish. destruct (result_ s) as [r|]; [|done].
  destruct (clock_now (world s)) as [w tp]. simpl. case_if; [done|].
  match goal with |- context [updateOurPositions ?a ?b] =>
    destruct (updateOurPositions_core a b) as [_ H2] end.
  destruct (updateOurPositions _ _) as [s' r']. simpl in H2. unfold haveConsensus.
  set (n := Z.of_nat (size (peerProposals_ s'))).
  replace (agree_count s' r' + (n - agree_count s' r')) with n by lia.
  match goal with |- context [checkConsensus ?a ?b ?c ?d ?e ?f ?g] =>
    pose proof (checkConsensus_reached a b c d e f g) as Hc;
    set (st := checkConsensus a b c d e f g) in * end.
  cbv beta iota. do 2 (case_if; [simpl; intros ?; congruence|]). intros _.
  exists (r'<|state := st|>), (world s'). simpl in *. zb.
  split_and!; try done; [by destruct st; try tauto|].
  destruct st; [done|tauto|]. apply (reached_agreement s' (r'<|state := Yes|>)), Hc.
Qed.

Lemma peerProposal_accepted now p s :
  phase_ s = Phase.accepted → peerProposal now p s = (s, false).
Proof. unfold peerProposal. intros. by case_decide. Qed.

Lemma playbackProposals_accepted s : phase_ s = Phase.accepted → playbackProposals s = s.
Proof.
  intros Hs. unfold playbackProposals. apply (foldl_invariant (λ s', s' = s)); [|done].
  intros s' p _ ->. by rewrite peerProposal_accepted.
Qed.

Lemma rounds_accept fuel :
  let P s := phase_ s = Phase.accepted → accept_ok s in
  (∀ now i l m s s', startRoundInternal fuel now i l m s = Some s' → P s') ∧
  (∀ i s s', phase_ s ≠ Phase.accepted → handleWrongLedger fuel i s = Some s' → P s') ∧
  (∀ now s s', P s → timerEntry fuel now s = Some s' → P s').
Proof.
  intros P. induction fuel as [|fuel (IHs & IHh & IHt)]; [by split_and!|].
  split_and!.
  - intros now i l m s s'. rewrite startRoundInternal_S. unfold startRoundInternal_body.
    intros (s1 & H1 & H2)%bind_Some.
    destruct (resetRound_core now i l m s) as [_ Ho].
    assert (P s1) as Hs1.
    { revert H1. case_if; [apply IHh; by rewrite Ho|intros [= <-]; unfold P; by rewrite Ho]. }
    assert (P (playbackProposals s1)) as Hp.
    { intros Hp. destruct (playbackProposals_core s1) as [_ E]. rewrite E in Hp.
      rewrite playbackProposals_accepted by done. by apply Hs1. }
    revert H2. case_if; [by apply IHt|by intros [= <-]].
  - intros i s s' Hs. rewrite handleWrongLedger_S. unfold handleWrongLedger_body.
    destruct (switchPrevLedger_id i s) as (_ & _ & Eph & _).
    case_if; [intros [= <-] ?; congruence|].
    destruct (acquireLedger _ _) as [w [l|]]; [apply IHs|]. intros [= <-] ?.
    destruct Hs. by rewrite <- Eph.
  - intros now s s' Hs. rewrite timerEntry_S. unfold timerEntry_body.
    case_decide as Hph; [by intros [= <-]|]. intros (s1 & H1 & [= <-])%bind_Some.
    assert (P s1) as Hs1.
    { apply checkLedger_cases in H1 as (w & [[-> _]|[n H1]]); [|by refine (IHh _ _ _ _ H1)].
      intros ?. by destruct Hph. }
    unfold runPhase, P. destruct (phase_ s1) eqn:E1.
    + destruct (phaseOpen_core s1) as [_ [Hp|Hp]]; congruence.
    + intros ?. apply phaseEstablish_accepts; congruence.
    + intros _. by apply Hs1.
Qed.

(** ** The prior ledger *)

Context `{TL : !TxSetLaws TO} `{AL : !AdaptorLaws TO AD}.

(** After an entry point we have the prior ledger or know that we lack it, and if
    we are still proposing we have not moved. *)
Lemma rounds_core fuel :
  (∀ now i l m s s', startRoundInternal fuel now i l m s = Some s' →
     Synced s' ∧ (mode_ s' = Mode.proposing → core s' = (m, i, l))) ∧
  (∀ i s s', handleWrongLedger fuel i s = Some s' →
     Synced s' ∧ (mode_ s' = Mode.proposing → core s' = core s)) ∧
  (∀ now s s', Synced s ∨ phase_ s ≠ Phase.accepted → timerEntry fuel now s = Some s' →
     Synced s' ∧ (mode_ s' = Mode.proposing → core s' = core s)).
Proof.
  induction fuel as [|fuel (IHs & IHh & IHt)]; [by split_and!|].
  split_and!.
  - intros now i l m s s'. rewrite startRoundInternal_S. unfold startRoundInternal_body.
    intros (s1 & H1 & H2)%bind_Some.
    destruct (resetRound_core now i l m s) as [Hc _].
    assert (Synced s1 ∧ (mode_ s1 = Mode.proposing → core s1 = (m, i, l))) as [Hs1 Hc1].
    { revert H1. rewrite <- Hc. case_if; [by apply IHh|]. intros [= <-]. split; [left; by zb|done]. }
    destruct (playbackProposals_core s1) as [Hp _]. pose proof Hp as [= Hm _ _].
    apply (Synced_core _ _ Hp) in Hs1. revert H2. case_if; [|intros [= <-]; rewrite Hm, Hp; auto].
    intros Ht. destruct (IHt _ _ _ (or_introl Hs1) Ht) as [? Hk]. split; [done|]. intros Hm'.
    pose proof (Hk Hm') as E'. rewrite E', Hp. apply Hc1. rewrite <- Hm.
    by injection E' as <-.
  - intros i s s'. rewrite handleWrongLedger_S. unfold handleWrongLedger_body.
    destruct (switchPrevLedger_id i s) as (E1 & E2 & _ & E4). case_if; zb.
    { intros [= <-]. split; [by left|]. intros Hm. destruct (E4 Hm) as [Em Ei].
      unfold core. by rewrite E1, E2, Hm, Em, Ei. }
    destruct (acquireLedger _ _) as [w [l|]]; [|intros [= <-]; split; [by right|done]].
    intros Hs. destruct (IHs _ _ _ _ _ _ Hs) as [? Hk]. split; [done|]. intros Hm.
    specialize (Hk Hm). unfold core in Hk. by rewrite Hm in Hk.
  - intros now s s' Hs. rewrite timerEntry_S. unfold timerEntry_body.
    case_decide as Hph; [intros [= <-]; by destruct Hs|]. intros (s1 & H1 & [= <-])%bind_Some.
    pose proof (runPhase_core s1) as Hc. pose proof Hc as [= Hm _ _]. rewrite Hm, Hc.
    enough (Synced s1 ∧ (mode_ s1 = Mode.proposing → core s1 = core s)) as [? ?]
      by (split; [by eapply Synced_core|done]).
    apply checkLedger_cases in H1 as (w & [[-> ?]|[n H1]]); [|by eapply IHh in H1].
    split; [by left|done].
Qed.

(** ** Termination *)

Lemma checkLedger_mono h h' s s' :
  (∀ i s s', h i s = Some s' → h' i s = Some s') →
  checkLedger h s = Some s' → checkLedger h' s = Some s'.
Proof.
  unfold checkLedger. intros Hh. destruct (getPrevLedger _ _ _ _).
  repeat (case_if; [apply Hh|]). done.
Qed.

(** More fuel does not change the result. *)
Lemma rounds_mono fuel :
  (∀ now i l m s s', startRoundInternal fuel now i l m s = Some s' →
     startRoundInternal (S fuel) now i l m s = Some s') ∧
  (∀ i s s', handleWrongLedger fuel i s = Some s' → handleWrongLedger (S fuel) i s = Some s') ∧
  (∀ now s s', timerEntry fuel now s = Some s' → timerEntry (S fuel) now s = Some s').
Proof.
  induction fuel as [|fuel (IHs & IHh & IHt)]; [by split_and!|]. split_and!.
  - intros now i l m s s'. rewrite !startRoundInternal_S. unfold startRoundInternal_body.
    intros (s1 & H1 & H2)%bind_Some. apply bind_Some. exists s1.
    revert H1 H2. repeat case_if; auto.
  - intros i s s'. rewrite !handleWrongLedger_S. unfold handleWrongLedger_body.
    case_if; [done|]. destruct (acquireLedger _ _) as [w [l|]]; auto.
  - intros now s s'. rewrite !timerEntry_S. unfold timerEntry_body.
    case_decide; [done|]. intros (s1 & H1 & H2)%bind_Some. apply bind_Some. exists s1.
    split; [|done]. eapply checkLedger_mono; [|done]. apply IHh.
Qed.

Lemma startRoundInternal_mono fuel fuel' now i l m s s' :
  (fuel ≤ fuel')%nat → startRoundInternal fuel now i l m s = Some s' →
  startRoundInternal fuel' now i l m s = Some s'.
Proof. induction 1; [done|]. intros. by apply rounds_mono, IHle. Qed.

Lemma timerEntry_mono fuel fuel' now s s' :
  (fuel ≤ fuel')%nat → timerEntry fuel now s = Some s' → timerEntry fuel' now s = Some s'.
Proof. induction 1; [done|]. intros. by apply rounds_mono, IHle. Qed.

(** From fuel [n] on there is a result, and it does not depend on the fuel. *)
Definition terminates (f : nat → option t) (n : nat) : Prop :=
  ∃ s', ∀ fuel, (n ≤ fuel)%nat → f fuel = Some s'.

(** ** The theorems *)

Lemma run_Synced e s s' : Inv s → Synced s → run e s = Some s' → Synced s'.
Proof.
  intros Hi Hs. destruct e; simpl.
  - intros H. by apply rounds_core in H as [? _].
  - intros H. apply rounds_core in H as [? _]; [done|by left].
  - intros [= <-]. by apply (Synced_core s), Hs; destruct (peerProposal_core now p s).
  - intros [= <-]. by apply (Synced_core s), Hs; destruct (gotTxSet_core now o s).
  - intros [= <-]. unfold simulate. destruct (closeLedger_core (s<|now_ := now|>)) as [Hc _].
    destruct (result_ _); by apply (Synced_core s).
  - by intros [= <-].
Qed.

Lemma run_all_ok es s0 s :
  Inv s0 → Synced s0 → run_all es s0 = Some s → Inv s ∧ Synced s.
Proof.
  revert s0. induction es as [|e es IH]; intros s0 H1 H2; [by intros [= <-]|].
  intros (s1 & E & Hr)%bind_Some. apply (IH s1); [by eapply run_Inv|by eapply run_Synced|done].
Qed.

(** C1: the invariant of consensus.  In every state reached by any sequence of
    calls, the result exists in the establish phase and not in the open phase; every
    dispute counts exactly the recorded votes of peers that have a current
    position, and our vote on it is the membership of the transaction in our set;
    our position is the identifier of our set, which is among the acquired sets
    until we bow out; every peer position is current: filed under its node, for our
    prior ledger, not withdrawn and not of a dead node; and we have the prior ledger
    the network works from, or are in mode [wrongLedger]. *)
Theorem consensus_invariant es w s : run_all es (initial w) = Some s → Inv s ∧ Synced s.
Proof.
  apply run_all_ok; [apply initial_Inv|by left].
Qed.

(** C28: who proposes.  A node that is in mode [proposing] after a call either
    started its round with that call, as a proposer and on the ledger it was given,
    or was already proposing and still works from the same prior ledger: turning to
    another prior ledger in the middle of a round ends its proposing. *)
Theorem proposing_safety e s s' :
  Synced s → run e s = Some s' → mode_ s' = Mode.proposing →
  match e with
  | EStartRound _ _ i l proposing =>
      proposing = true ∧ prevLedgerID_ s' = i ∧ previousLedger_ s' = l ∧ ledger_id l = i
  | _ => mode_ s = Mode.proposing ∧ prevLedgerID_ s' = prevLedgerID_ s ∧
      previousLedger_ s' = previousLedger_ s
  end.
Proof.
  intros Hs Hr Hm. enough (core s' = match e with
    | EStartRound _ _ i l p => (if p then Mode.proposing else Mode.observing, i, l)
    | _ => core s end ∧ Synced s') as [Hc Hs'].
  { unfold core in Hc. rewrite Hm in Hc. destruct e as [? ? i l []| | | | |];
      [|done|by injection Hc as <- <- <-..]. injection Hc as <- <-.
    destruct Hs' as [Hs'|Hs']; [done|congruence]. }
  destruct e; simpl in Hr.
  - apply rounds_core in Hr as [? Hk]. auto.
  - apply rounds_core in Hr as [? Hk]; auto.
  - injection Hr as <-. destruct (peerProposal_core now p s). split; [done|by eapply Synced_core].
  - injection Hr as <-. destruct (gotTxSet_core now o s). split; [done|by eapply Synced_core].
  - injection Hr as <-. unfold simulate. destruct (closeLedger_core (s<|now_ := now|>)) as [Hc _].
    destruct (result_ _); (split; [done|by apply (Synced_core s)]).
  - by injection Hr as <-.
Qed.

(** C2: acceptance.  Apart from [simulate], a call ends in the accepted phase only if
    the round was accepted before or the call accepts it; and then it called
    [onAccept] with the result, there was consensus on the close time, more than
    [LEDGER_MIN_CONSENSUS] had passed, and either at least 81 percent of the
    proposers, ourselves included when proposing, hold our position ([Yes]), or the
    network had moved on. *)
Theorem acceptance e s s' :
  run e s = Some s' → phase_ s' = Phase.accepted →
  match e with
  | ESimulate _ _ => True
  | EStartRound _ _ _ _ _ => accept_ok s'
  | _ => phase_ s = Phase.accepted ∨ accept_ok s'
  end.
Proof.
  destruct e; simpl; try done.
  - intros H. destruct (rounds_accept fuel) as (Hs & _). by apply (Hs _ _ _ _ _ _ H).
  - intros H Ha. destruct (decide (phase_ s = Phase.accepted)); [by left|].
    right. destruct (rounds_accept fuel) as (_ & _ & Ht). refine (Ht now s s' _ H Ha). by intros ?.
  - intros [= <-]. destruct (peerProposal_core now p s) as [_ ->]. auto.
  - intros [= <-]. destruct (gotTxSet_core now o s) as [_ ->]. auto.
  - intros [= <-]. auto.
Qed.

End safety.
End ConsensusSafety.
