(* ===== verification/ConsensusTerm.v ===== *)
(** * ConsensusTerm: the entry points of the consensus algorithm terminate

    [startRound] and [timerEntry] of [consensus/Consensus.h] call each other through
    [handleWrongLedger] as long as the application names another prior ledger.  They end if
    some potential of the ledger they are on goes down whenever the application names
    another, which [Validations.v] shows of the application's choice by validations. *)

From S2P Require Import Prelude LedgerTiming ConsensusProposal DisputedTx Consensus ConsensusInv ConsensusSafety.

Module ConsensusTerm.
Import Consensus ConsensusInv ConsensusSafety.

Section termination.
Context {Tx TxSet W : Type} `{TO : !TxSetOps Tx TxSet} `{AD : !Adaptor Tx TxSet W}.
Context `{TL : !TxSetLaws TO} `{AL : !AdaptorLaws TO AD}.
Abbreviation t := (@t Tx TxSet W).
Abbreviation Result := (Result Tx TxSet).
Implicit Types (s : t) (r : Result) (o : TxSet) (w : W).

Context (potential : W → Z → nat).

(** No ledger's potential has gone up. *)
Definition settles (w w' : W) : Prop := ∀ i, (potential w' i ≤ potential w i)%nat.

#[local] Instance settles_preorder : PreOrder settles.
Proof. split; [by intros w i|]. intros w1 w2 w3 H1 H2 i. specialize (H1 i). specialize (H2 i). lia. Qed.

(** What the application does when it is asked or told something: no potential goes up, and
    a ledger it names in place of another has a lower one. *)
Record Settling : Prop := {
  ask_settles i l m w : settles w (getPrevLedger i l m w).1;
  ask_lowers i l m w : (getPrevLedger i l m w).2 ≠ i →
    (potential (getPrevLedger i l m w).1 (getPrevLedger i l m w).2 < potential w i)%nat;
  clock_settles w : settles w (clock_now w).1;
  acquireLedger_settles i w : settles w (acquireLedger i w).1;
  acquireTxSet_settles i w : settles w (acquireTxSet i w).1;
  onClose_settles l now m w : settles w (onClose l now m w).1;
  onAccept_settles r l res ct m w : settles w (onAccept r l res ct m w);
  propose_settles p w : settles w (propose p w);
  relay_proposal_settles p w : settles w (relay_proposal p w);
  relay_tx_settles tx w : settles w (relay_tx tx w);
  relay_set_settles o w : settles w (relay_set o w)
}.

Context (HS : Settling).

(** ** The operations between two questions *)

Abbreviation calm s s' := (settles (world s) (world s')).

Lemma foldl_calm {B} (f : t * Result → B → t * Result) l s r :
  (∀ s r x, calm s (f (s, r) x).1) → calm s (foldl f (s, r) l).1.
Proof.
  intros Hf. apply (foldl_invariant (λ acc, calm s acc.1)); [|done].
  intros [s' r'] x _ Hs. etransitivity; [exact Hs|]. apply Hf.
Qed.

Lemma createDisputes_calm o s r : calm s (createDisputes o s r).1.
Proof using HS.
  unfold createDisputes. case_if; [done|]. case_if; [done|].
  apply foldl_calm. intros s' r' x. unfold createDispute.
  repeat case_match; simplify_eq; done || apply (relay_tx_settles HS).
Qed.

Lemma updateDisputes_calm node o s r : calm s (updateDisputes node o s r).1.
Proof using HS.
  unfold updateDisputes. pose proof (createDisputes_calm o s r) as H.
  case_if; [done|]. by destruct (createDisputes o s r).
Qed.

Lemma gotTxSet_calm now o s : calm s (gotTxSet now o s).
Proof using HS.
  unfold gotTxSet. case_decide; [done|]. simpl. destruct (acquired_ s !! _); [done|].
  destruct (result_ s) as [r|]; [|done].
  match goal with |- context [foldl ?f (?s1, r) ?l] => assert (calm s1 (foldl f (s1, r) l).1) as Hc end.
  { apply foldl_calm. intros s1 r1 [k p]. case_if; [apply updateDisputes_calm|done]. }
  by destruct (foldl _ _ _).
Qed.

Lemma peerProposal_calm now p s : calm s (peerProposal now p s).1.
Proof using HS.
  unfold peerProposal. case_decide; [done|]. simpl. repeat (case_if; [done|]).
  match goal with |- context [if ConsensusProposal.isInitial p then ?a else ?b] =>
    set (s' := if ConsensusProposal.isInitial p then a else b) end.
  assert (world s' = world s) as <- by (unfold s'; by case_if).
  clearbody s'. destruct (acquired_ s' !! _) as [o|].
  - destruct (result_ s') as [r|]; [|done].
    pose proof (updateDisputes_calm (ConsensusProposal.nodeID_ p) o s' r) as H1.
    by destruct (updateDisputes _ _ _ _).
  - pose proof (acquireTxSet_settles HS (ConsensusProposal.position_ p) (world s')) as Ha.
    destruct (acquireTxSet _ _) as [w [o|]]; [|done].
    etransitivity; [exact Ha|]. match goal with |- context [gotTxSet ?n o ?x] => exact (gotTxSet_calm n o x) end.
Qed.

Lemma playbackProposals_calm s : calm s (playbackProposals s).
Proof using HS.
  unfold playbackProposals. apply (foldl_invariant (λ s', calm s s')); [|done].
  intros s' p _ Hs. pose proof (peerProposal_calm (now_ s') p s') as H.
  destruct (peerProposal _ _ _) as [s'' []]; (etransitivity; [exact Hs|]); [|done].
  etransitivity; [exact H|]. apply (relay_proposal_settles HS).
Qed.

Lemma shareSet_calm set s : calm s (shareSet set s).
Proof using HS. unfold shareSet. destruct (acquired_ s !! _); [done|]. apply (relay_set_settles HS). Qed.

Lemma closeLedger_calm s : calm s (closeLedger s).
Proof using HS.
  unfold closeLedger. simpl. pose proof (onClose_settles HS (previousLedger_ s) (now_ s) (mode_ s) (world s)) as H1.
  destruct (onClose _ _ _ _) as [w [set pos]]. pose proof (clock_settles HS w) as H2. destruct (clock_now w) as [w' tp].
  set (s1 := s<|phase_ := _|><|rawCloseTimes_ := _|><|world := w'|>). pose proof (shareSet_calm set s1) as H3.
  set (s2 := if is_proposing _ then _ else _).
  assert (calm (shareSet set s1) s2) as H4 by (unfold s2; case_if; [apply (propose_settles HS)|done]).
  match goal with |- context [foldl ?f (?s1, ?r) ?l] => assert (calm s1 (foldl f (s1, r) l).1) as H5 end.
  { apply foldl_calm. intros s3 r3 [k p]. destruct (acquired_ s3 !! _); [apply createDisputes_calm|done]. }
  destruct (foldl _ _ _). simpl in *. by rewrite H1, H2, H3, H4.
Qed.

Lemma phaseOpen_calm s : calm s (phaseOpen s).
Proof using HS.
  unfold phaseOpen. pose proof (clock_settles HS (world s)) as H. destruct (clock_now (world s)) as [w tp]. simpl.
  case_if; [|done]. etransitivity; [exact H|]. match goal with |- context [closeLedger ?x] => apply (closeLedger_calm x) end.
Qed.

Lemma takePosition_calm set ct s r : calm s (takePosition set ct s r).1.
Proof using HS.
  unfold takePosition. case_if; [done|]. pose proof (shareSet_calm set s) as H.
  case_if; [|done]. etransitivity; [exact H|]. apply (propose_settles HS).
Qed.

Lemma updateOurPositions_calm s r : calm s (updateOurPositions s r).1.
Proof using HS.
  unfold updateOurPositions. destruct (dropStale s r) as [[pp r1] eff]. simpl.
  destruct (foldl _ _ _) as [ds m]. destruct (closeTimeConsensus _ _ _) as [ct have].
  set (s1 := s<|peerProposals_ := pp|><|haveCloseTimeConsensus_ := have|>).
  destruct m as [x|]; [apply (takePosition_calm x ct s1)|].
  case_if; [apply (takePosition_calm _ ct s1)|done].
Qed.

Lemma phaseEstablish_calm s : calm s (phaseEstablish s).
Proof using HS.
  unfold phaseEstablish. destruct (result_ s) as [r|]; [|done].
  pose proof (clock_settles HS (world s)) as H. destruct (clock_now (world s)) as [w tp]. simpl. case_if; [done|].
  match goal with |- context [updateOurPositions ?a ?b] => pose proof (updateOurPositions_calm a b) as H1 end.
  destruct (updateOurPositions _ _) as [s' r']. simpl in *. do 2 (case_if; [by rewrite H, H1|]).
  simpl. rewrite H, H1. apply (onAccept_settles HS).
Qed.

Lemma runPhase_calm s : calm s (runPhase s).
Proof using HS. unfold runPhase. destruct (phase_ s); [apply phaseOpen_calm|apply phaseEstablish_calm|done]. Qed.

Lemma resetRound_calm now i l m s : calm s (resetRound now i l m s).
Proof using HS. unfold resetRound. pose proof (clock_settles HS (world s)) as H. by destruct (clock_now _). Qed.

Lemma switchPrevLedger_calm i s : calm s (switchPrevLedger i s).
Proof using HS.
  unfold switchPrevLedger. case_if; [done|]. etransitivity; [|apply playbackProposals_calm].
  unfold leaveConsensus. case_if; [|done]. simpl. destruct (result_ s) as [r|]; [|done]. case_if; [|done]. apply (propose_settles HS).
Qed.

(** ** The calls end *)

(** The potential of the ledger a node is on *)
Definition level s : nat := potential (world s) (prevLedgerID_ s).

Definition matched s : Prop := ledger_id (previousLedger_ s) = prevLedgerID_ s.

(** A result, on a ledger with potential at most [b] *)
Definition ends (b : nat) (x : option t) : Prop := ∃ s', x = Some s' ∧ (level s' ≤ b)%nat.

Lemma ends_weaken b b' (x : option t) : ends b x → (b ≤ b')%nat → ends b' x.
Proof. intros (s' & E & H) Hb. exists s'. split; [done|lia]. Qed.

Lemma level_calm s s' : calm s s' → prevLedgerID_ s' = prevLedgerID_ s → (level s' ≤ level s)%nat.
Proof. intros H E. unfold level. rewrite E. apply H. Qed.

(** The timer's call turns to another ledger, gets the one it lacks, or stays. *)
Lemma timerEntry_ends b fuel now s :
  (level s ≤ b)%nat →
  (∀ n s', (potential (world s') n < b)%nat → ends b (handleWrongLedger fuel n s')) →
  matched s ∨ (∀ s', (potential (world s') (prevLedgerID_ s) ≤ b)%nat → ends b (handleWrongLedger fuel (prevLedgerID_ s) s')) →
  ends b (timerEntry (S fuel) now s).
Proof using HS.
  intros Hb Hlow Hm. rewrite timerEntry_S. unfold timerEntry_body. case_decide; [by exists s|].
  enough (ends b (checkLedger (handleWrongLedger fuel) (s<|now_ := now|>))) as (s' & -> & Hs').
  { eexists. split; [done|]. pose proof (runPhase_core s') as [= _ E _].
    etransitivity; [apply level_calm; [apply runPhase_calm|done]|done]. }
  unfold checkLedger. simpl.
  pose proof (ask_settles HS (prevLedgerID_ s) (previousLedger_ s) (mode_ s) (world s) (prevLedgerID_ s)) as Ha.
  pose proof (ask_lowers HS (prevLedgerID_ s) (previousLedger_ s) (mode_ s) (world s)) as Hn.
  destruct (getPrevLedger _ _ _ _) as [w n]. cbn [fst snd] in *. unfold level in Hb. case_if; zb.
  { apply Hlow. simpl. unfold const. specialize (Hn E). lia. }
  subst n. simpl. case_if; zb; simpl in *.
  - destruct Hm as [?|Hm]; [done|]. apply Hm. simpl. unfold const. lia.
  - eexists. split; [done|]. unfold level. simpl. unfold const. lia.
Qed.

(** A round on a ledger we have *)
Lemma startRoundInternal_ends b fuel now i l m s :
  ledger_id l = i → (potential (world s) i ≤ b)%nat →
  (∀ now s', matched s' → (level s' ≤ b)%nat → ends b (timerEntry fuel now s')) →
  ends b (startRoundInternal (S fuel) now i l m s).
Proof using HS.
  intros Hl Hb Ht. rewrite startRoundInternal_S. unfold startRoundInternal_body.
  pose proof (resetRound_calm now i l m s i) as Hr. destruct (resetRound_core now i l m s) as [Hc _]. pose proof Hc as [= _ Hi Hprev].
  rewrite Hi, Hprev, Hl, Z.eqb_refl. simpl.
  pose proof (playbackProposals_calm (resetRound now i l m s) i) as Hp.
  destruct (playbackProposals_core (resetRound now i l m s)) as [Hpc _]. rewrite Hc in Hpc. injection Hpc as _ Hpi Hpl.
  assert (level (playbackProposals (resetRound now i l m s)) ≤ b)%nat as Hlev by (unfold level; rewrite Hpi; lia).
  case_if; [|by eexists]. apply Ht; [|done]. unfold matched. by rewrite Hpi, Hpl.
Qed.

Lemma handleWrongLedger_ends b fuel i s :
  (potential (world s) i ≤ b)%nat →
  (∀ now l m s', ledger_id l = i → (potential (world s') i ≤ b)%nat → ends b (startRoundInternal fuel now i l m s')) →
  ends b (handleWrongLedger (S fuel) i s).
Proof using HS AL.
  intros Hb Hr. rewrite handleWrongLedger_S. unfold handleWrongLedger_body.
  pose proof (switchPrevLedger_calm i s i) as Hs. destruct (switchPrevLedger_id i s) as (E1 & _).
  case_if; [eexists; split; [done|]; unfold level; rewrite E1; lia|]. rewrite E1.
  pose proof (acquireLedger_id i (world (switchPrevLedger i s))) as Ha.
  pose proof (acquireLedger_settles HS i (world (switchPrevLedger i s)) i) as Hw.
  destruct (acquireLedger _ _) as [w [l|]]; cbn [fst] in Hw.
  - apply Hr; [by apply Ha|simpl; unfold const; lia].
  - eexists. split; [done|]. unfold level. simpl. unfold const. rewrite E1. lia.
Qed.

(** On a ledger we have, with potential [b] *)
Lemma timerEntry_matched b : ∀ fuel now s,
  (1 + 3 * b ≤ fuel)%nat → matched s → (level s ≤ b)%nat → ends b (timerEntry fuel now s).
Proof using HS AL.
  induction b as [|b IH]; intros fuel now s Hf Hm Hb; (destruct fuel as [|fuel]; [lia|]);
    apply timerEntry_ends; [done| |by left|done| |by left]; intros n s' Hn; [lia|].
  eapply (ends_weaken b); [|lia]. destruct fuel as [|[|fuel]]; [lia..|]. apply handleWrongLedger_ends; [lia|].
  intros now' l m s2 Hl H2. apply startRoundInternal_ends; [done..|]. intros now2 s3. apply IH. lia.
Qed.

Lemma handleWrongLedger_bounded b fuel i s :
  (3 + 3 * b ≤ fuel)%nat → (potential (world s) i ≤ b)%nat → ends b (handleWrongLedger fuel i s).
Proof using HS AL.
  intros Hf Hb. destruct fuel as [|[|fuel]]; [lia..|]. apply handleWrongLedger_ends; [done|].
  intros now l m s2 Hl H2. apply startRoundInternal_ends; [done..|]. intros now2 s3. apply timerEntry_matched. lia.
Qed.

Lemma timerEntry_bounded b fuel now s :
  (4 + 3 * b ≤ fuel)%nat → (level s ≤ b)%nat → ends b (timerEntry fuel now s).
Proof using HS AL.
  intros Hf Hb. destruct fuel as [|fuel]; [lia|]. apply timerEntry_ends; [done| |right]; intros; apply handleWrongLedger_bounded; lia.
Qed.

Lemma startRoundInternal_bounded b fuel now i l m s :
  (5 + 3 * b ≤ fuel)%nat → (potential (world s) i ≤ b)%nat → ends b (startRoundInternal fuel now i l m s).
Proof using HS AL.
  intros Hf Hb. destruct fuel as [|fuel]; [lia|]. rewrite startRoundInternal_S. unfold startRoundInternal_body.
  pose proof (resetRound_calm now i l m s i) as Hr. destruct (resetRound_core now i l m s) as [[= _ Hi _] _].
  set (s0 := resetRound now i l m s) in *.
  assert (ends b (if negb (ledger_id (previousLedger_ s0) =? prevLedgerID_ s0) then handleWrongLedger fuel (prevLedgerID_ s0) s0 else Some s0))
    as (s1 & -> & H1).
  { rewrite Hi. case_if; [apply handleWrongLedger_bounded; lia|]. exists s0. split; [done|]. unfold level. rewrite Hi. lia. }
  destruct (playbackProposals_core s1) as [[= _ Hp _] _]. pose proof (level_calm _ _ (playbackProposals_calm s1) Hp) as H2.
  cbn [mbind option_bind]. case_if; [apply timerEntry_bounded; lia|]. eexists. split; [done|]. lia.
Qed.

(** C26: the entry points terminate.  [startRound] and [timerEntry] call each other through
    [handleWrongLedger] as long as the application's [getPrevLedger] names another prior
    ledger.  If a potential of the ledgers is lower at a ledger that it names in place of
    another, and nothing the application does during the call puts a potential up, then the
    calls nest at most three deep for each unit of the potential of the ledger they start
    with, and 5 and 4 more: with that fuel there is a result, which does not depend on the
    fuel. *)
Theorem rounds_terminate now i l (proposing : bool) s :
  terminates (λ fuel, startRound fuel now i l proposing s) (5 + 3 * potential (world s) i) ∧
  terminates (λ fuel, timerEntry fuel now s) (4 + 3 * potential (world s) (prevLedgerID_ s)).
Proof using HS AL.
  split.
  - unfold terminates, startRound.
    match goal with |- context [startRoundInternal _ _ _ _ ?m ?x] =>
      destruct (startRoundInternal_bounded (potential (world s) i) (5 + 3 * potential (world s) i) now i l m x) as (s' & E & _);
        [done|by case_if|] end.
    exists s'. intros fuel Hf. by eapply startRoundInternal_mono.
  - destruct (timerEntry_bounded (level s) (4 + 3 * level s) now s) as (s' & E & _); [done..|].
    exists s'. intros. by eapply timerEntry_mono.
Qed.

End termination.

(** ** Two simple applications *)

Section simple.
Context {Tx TxSet W : Type} `{AD : !Adaptor Tx TxSet W}.

(** One that stays with the ledger it is asked about *)
Lemma stays_settles : (∀ i l m w, (getPrevLedger i l m w).2 = i) → Settling (λ (_ : W) _, 0%nat).
Proof. intros H. split; try (intros; intros j; done). intros i l m w Hn. by destruct Hn. Qed.

(** One with a fixed preference *)
Lemma fixed_settles net :
  (∀ i l m w, (getPrevLedger i l m w).2 = net) → Settling (λ (_ : W) i, if decide (i = net) then 0%nat else 1%nat).
Proof.
  intros H. split; try (intros; intros j; done). intros i l m w. rewrite H. intros Hn.
  rewrite decide_True, decide_False by done. lia.
Qed.

End simple.
End ConsensusTerm.
