(* ===== verification/Validations.v ===== *)
(** * Validations: the prior ledger that the network prefers

    Models [Validations::getCurrentValidations] and [current] of [app/misc/Validations.cpp]
    and [CCLConsensus::getPrevLedger] of [app/consensus/CCLConsensus.cpp]: the validators'
    current validations are counted by ledger, and consensus turns to the ledger with the
    most.  A turn strictly raises the number of validations of the ledger we are on, so that
    consensus with this choice terminates while no validation arrives. *)

From S2P Require Import Prelude LedgerTiming ConsensusProposal DisputedTx Consensus ConsensusInv ConsensusSafety ConsensusTerm.

Module Validations.

(** Durations in seconds *)
Definition VALIDATION_VALID_WALL : Z := 600.
Definition VALIDATION_VALID_LOCAL : Z := 420.
Definition VALIDATION_VALID_EARLY : Z := 420.

(** The members of a validation that are read here *)
Record STValidation := mkValidation {
  getLedgerHash : Z;
  mPreviousHash : Z;
  ledgerSequence : option Z;  (* [sfLedgerSequence] *)
  getNodeID : Z;
  getSignTime : Z;
  getSeenTime : Z;
  mTrusted : bool
}.
Implicit Types (v : STValidation).

#[export] Instance STValidation_eq_dec : EqDecision STValidation.
Proof. solve_decision. Defined.

Definition isPreviousHash v (h : Z) : bool := mPreviousHash v =? h.

(** The last validation of each validator, which can be a null pointer, and those to write
    to the database *)
Record t := mk {
  mCurrentValidations : gmap Z (option STValidation);
  mStaleValidations : list STValidation;
  mWriting : bool
}.

(** The job is left out. *)
Definition condWrite (s : t) : t := if mWriting s then s else s<|mWriting := true|>.

(** [now] is the close time of the time keeper; the arithmetic of [std::chrono] is in 64
    bits. *)
Definition current (now : Z) v : bool :=
  (getSignTime v >? now - VALIDATION_VALID_EARLY) &&
  (getSignTime v <? now + VALIDATION_VALID_WALL) &&
  ((getSeenTime v =? 0) || (getSeenTime v <? now + VALIDATION_VALID_LOCAL)).

(** The number of validations and the highest node *)
Abbreviation counter := (Z * Z)%type.

(** What a live record adds *)
Definition count (currentLedger priorLedger : Z) v (ret : gmap Z counter) : gmap Z counter :=
  let valCurrentLedger := negb (currentLedger =? 0) in
  let valPriorLedger := negb (priorLedger =? 0) in
  let countPreferred := valCurrentLedger && (getLedgerHash v =? currentLedger) in
  let countPreferred :=
    if negb countPreferred &&
       (valCurrentLedger && isPreviousHash v currentLedger || valPriorLedger && (getLedgerHash v =? priorLedger))
    then true else countPreferred in
  partial_alter (λ p, let '(first, second) := default (0, 0) p in
      Some (first + 1, if getNodeID v >? second then getNodeID v else second))
    (if countPreferred then currentLedger else getLedgerHash v) ret.

(** One record of the loop *)
Definition getCurrentValidations_step (now currentLedger priorLedger cutoffBefore : Z)
    (acc : gmap Z counter * t) (it : Z * option STValidation) : gmap Z counter * t :=
  let '(ret, s) := acc in
  match it.2 with
  | None => (ret, s<|mCurrentValidations ::= delete it.1|>)
  | Some v =>
      if negb (current now v) then
        (ret, condWrite (s<|mStaleValidations ::= (λ l, l ++ [v])|>) <|mCurrentValidations ::= delete it.1|>)
      else if negb (mTrusted v) then (ret, s)
      else if match ledgerSequence v with None => true | Some seq => seq >=? cutoffBefore end
      then (count currentLedger priorLedger v ret, s)
      else (ret, s)
  end.

Definition getCurrentValidations (now currentLedger priorLedger cutoffBefore : Z) (s : t) : gmap Z counter * t :=
  foldl (getCurrentValidations_step now currentLedger priorLedger cutoffBefore) (∅, s) (map_to_list (mCurrentValidations s)).

(** ** The preferred prior ledger *)

(** One ledger of the loop of [getPrevLedger] *)
Definition prefer (ledgerID : Z) (acc : Z * Z) (it : Z * counter) : Z * Z :=
  let '(netLgr, netLgrCount) := acc in
  if (it.2.1 >? netLgrCount) || (it.2.1 =? netLgrCount) && (it.1 =? ledgerID) then (it.1, it.2.1)
  else (netLgr, netLgrCount).

(** [parent] is the parent of the ledger passed to the function, [validIndex] the index of the
    last validated ledger.  The result says whether [consensusViewChange] is called. *)
Definition getPrevLedger (now validIndex ledgerID parent : Z) (mode : Mode.t) (s : t) : Z * bool * t :=
  let parentID := if decide (mode ≠ Mode.wrongLedger) then parent else 0 in
  let '(vals, s) := getCurrentValidations now ledgerID parentID validIndex s in
  let '(netLgr, _) := foldl (prefer ledgerID) (ledgerID, 0) (map_to_list vals) in
  (netLgr, negb (netLgr =? ledgerID) && bool_decide (mode ≠ Mode.wrongLedger), s).

(** ** What is counted *)

(** The records that count *)
Definition live (now cutoff : Z) v : Prop :=
  current now v = true ∧ mTrusted v = true ∧ match ledgerSequence v with None => True | Some seq => cutoff ≤ seq end.

#[export] Instance live_decision now cutoff v : Decision (live now cutoff v).
Proof. unfold live. destruct (ledgerSequence v); apply _. Defined.

(** The ledger that a record counts for, when we are on [ledgerID] *)
Definition counts_for (ledgerID parentID : Z) v : Z :=
  if negb (ledgerID =? 0) && (isPreviousHash v ledgerID) || negb (parentID =? 0) && (getLedgerHash v =? parentID)
  then ledgerID else getLedgerHash v.

(** The record of an entry that is live *)
Definition live_record (now cutoff : Z) (o : option STValidation) : option STValidation :=
  v ← o; if decide (live now cutoff v) then Some v else None.

(** The live records *)
Definition live_map (now cutoff : Z) (s : t) : gmap Z STValidation :=
  omap (live_record now cutoff) (mCurrentValidations s).

Definition votes (f : STValidation → Z) (m : gmap Z STValidation) (j : Z) : nat :=
  size (filter (λ kv : Z * STValidation, f kv.2 = j) m).

(** The number of live records for a ledger *)
Definition support (now cutoff : Z) (s : t) (j : Z) : nat := votes getLedgerHash (live_map now cutoff s) j.

Definition counted (ret : gmap Z counter) (j : Z) : Z := default 0 (fst <$> ret !! j).

Lemma count_counts i p v ret j :
  counted (count i p v ret) j = counted ret j + (if decide (counts_for i p v = j) then 1 else 0).
Proof.
  unfold count. match goal with |- context [partial_alter ?f (if ?b then _ else _) ret] =>
    assert ((if b then i else getLedgerHash v) = counts_for i p v) as -> end.
  { unfold counts_for. destruct (getLedgerHash v =? i) eqn:E, (i =? 0); cbn [negb andb orb]; zb;
      destruct (isPreviousHash v i); destruct (negb (p =? 0) && (getLedgerHash v =? p)); congruence || done. }
  unfold counted. case_decide as E.
  - subst j. rewrite lookup_partial_alter_eq. destruct (ret !! _) as [[a b]|]; cbn; lia.
  - rewrite lookup_partial_alter_ne by done. lia.
Qed.

(** Votes, record by record *)
Lemma votes_nil f j : votes f ∅ j = 0%nat.
Proof. unfold votes. by rewrite map_filter_empty, map_size_empty. Qed.

Lemma votes_insert f m (k : Z) v j :
  m !! k = None → votes f (<[k := v]> m) j = ((if decide (f v = j) then 1 else 0) + votes f m j)%nat.
Proof.
  intros Hk. unfold votes. case_decide as E.
  - rewrite map_filter_insert_True by done. rewrite map_size_insert_None; [done|]. apply map_lookup_filter_None. by left.
  - rewrite map_filter_insert_False by done. by rewrite delete_id.
Qed.

Lemma step_counts now i p cutoff ret s it j :
  counted (getCurrentValidations_step now i p cutoff (ret, s) it).1 j =
  counted ret j + (if decide (counts_for i p <$> live_record now cutoff it.2 = Some j) then 1 else 0).
Proof.
  assert (∀ x, x = x + (if decide ((None : option Z) = Some j) then 1 else 0)) as Hno by (intros; rewrite decide_False by done; lia).
  unfold getCurrentValidations_step. destruct it as [k [v|]]; cbn [snd live_record mbind option_bind fst]; [|apply Hno].
  destruct (decide (live now cutoff v)) as [(E1 & E2 & E3)|Hl].
  - rewrite E1, E2. cbn [negb fmap option_fmap fst].
    assert (match ledgerSequence v with None => true | Some seq => seq >=? cutoff end = true) as ->
      by (destruct (ledgerSequence v); [apply Z.geb_le; lia|done]).
    cbn [fst]. rewrite count_counts. f_equal. apply decide_ext. naive_solver.
  - cbn [fmap option_fmap]. destruct (current now v) eqn:E1; [|apply Hno]. destruct (mTrusted v) eqn:E2; [|apply Hno]. cbn [negb].
    destruct (match ledgerSequence v with None => true | Some seq => seq >=? cutoff end) eqn:E3; [|apply Hno].
    destruct Hl. split_and!; [done..|]. destruct (ledgerSequence v); [by apply Z.geb_le|done].
Qed.

Lemma loop_counts now i p cutoff l : ∀ ret s j,
  NoDup l.*1 →
  counted (foldl (getCurrentValidations_step now i p cutoff) (ret, s) l).1 j =
  counted ret j + Z.of_nat (votes (counts_for i p) (omap (live_record now cutoff) (list_to_map l)) j).
Proof.
  induction l as [|[k o] l IH]; intros ret s j Hnd; cbn [foldl].
  - cbn [list_to_map fmap list_fmap foldr]. rewrite omap_empty, votes_nil. cbn [fst]. lia.
  - apply NoDup_cons in Hnd as [Hk Hnd]. pose proof (step_counts now i p cutoff ret s (k, o) j) as Hs.
    destruct (getCurrentValidations_step _ _ _ _ _ _) as [ret' s']. cbn [fst snd] in Hs. rewrite IH, Hs by done.
    change (list_to_map ((k, o) :: l)) with (<[k := o]> (list_to_map l : gmap Z (option STValidation))).
    assert (omap (live_record now cutoff) (list_to_map l : gmap Z (option STValidation)) !! k = None) as Hn.
    { rewrite lookup_omap, not_elem_of_list_to_map_1 by done. done. }
    rewrite omap_insert. destruct (live_record now cutoff o) as [v|]; cbn [fmap option_fmap].
    + rewrite votes_insert by done. destruct (decide (counts_for i p v = j)) as [E|Hne].
      * rewrite decide_True by (cbn; congruence). lia.
      * rewrite decide_False by (cbn; congruence). lia.
    + rewrite decide_False by done. rewrite delete_id by done. lia.
Qed.

Lemma getCurrentValidations_counts now i p cutoff s j :
  counted (getCurrentValidations now i p cutoff s).1 j =
  Z.of_nat (votes (counts_for i p) (live_map now cutoff s) j).
Proof.
  unfold getCurrentValidations. rewrite loop_counts by apply NoDup_fst_map_to_list. by rewrite list_to_map_to_list.
Qed.

(** ** What stays *)

Definition keeps (now : Z) (o : option STValidation) : bool := match o with None => false | Some v => current now v end.

Definition expired (now : Z) (o : option STValidation) : option STValidation := v ← o; if current now v then None else Some v.

Lemma step_state now i p cutoff ret s it :
  let s' := (getCurrentValidations_step now i p cutoff (ret, s) it).2 in
  mCurrentValidations s' = (if keeps now it.2 then mCurrentValidations s else delete it.1 (mCurrentValidations s)) ∧
  mStaleValidations s' = mStaleValidations s ++ option_list (expired now it.2).
Proof.
  unfold getCurrentValidations_step, condWrite. destruct it as [k [v|]]; cbn [snd fst keeps expired mbind option_bind]; [|by rewrite app_nil_r].
  destruct (current now v); cbn [negb]; [|by case_if].
  rewrite app_nil_r. by repeat case_match.
Qed.

Lemma loop_state now i p cutoff l : ∀ ret s,
  NoDup l.*1 →
  let s' := (foldl (getCurrentValidations_step now i p cutoff) (ret, s) l).2 in
  (∀ k : Z, mCurrentValidations s' !! k =
     if decide (Exists (λ it, it.1 = k ∧ keeps now it.2 = false) l) then None else mCurrentValidations s !! k) ∧
  mStaleValidations s' = mStaleValidations s ++ omap (λ it, expired now it.2) l.
Proof.
  induction l as [|it l IH]; intros ret s Hnd; cbn [foldl].
  - split; [|by rewrite app_nil_r]. intros k. by rewrite decide_False by by intros ?%Exists_nil.
  - apply NoDup_cons in Hnd as [Hk Hnd]. destruct (step_state now i p cutoff ret s it) as [E1 E2].
    destruct (getCurrentValidations_step _ _ _ _ _ _) as [ret1 s1]. cbn [snd] in *. destruct (IH ret1 s1 Hnd) as [H1 H2]. split.
    + intros k. rewrite H1, E1. destruct (decide (Exists _ l)) as [Hex|Hex].
      * by rewrite decide_True by by apply Exists_cons_tl.
      * destruct (keeps now it.2) eqn:Ek.
        -- rewrite decide_False; [done|]. intros [[_ ?]|?]%Exists_cons; [congruence|done].
        -- rewrite lookup_delete. case_decide as E; [by rewrite decide_True by by apply Exists_cons_hd|].
           rewrite decide_False; [done|]. intros [[? _]|?]%Exists_cons; done.
    + rewrite H2, E2, <- app_assoc. cbn [omap list_omap]. by destruct (expired now it.2).
Qed.

Lemma getCurrentValidations_state now i p cutoff s :
  let s' := (getCurrentValidations now i p cutoff s).2 in
  mCurrentValidations s' = filter (λ kv, keeps now kv.2 = true) (mCurrentValidations s) ∧
  mStaleValidations s' = mStaleValidations s ++ omap (λ it, expired now it.2) (map_to_list (mCurrentValidations s)).
Proof.
  destruct (loop_state now i p cutoff (map_to_list (mCurrentValidations s)) ∅ s) as [H1 H2]; [apply NoDup_fst_map_to_list|].
  split; [|exact H2]. apply map_eq. intros k. unfold getCurrentValidations. rewrite H1.
  symmetry. case_decide as Hex.
  - apply Exists_exists in Hex as ([k' o'] & Hin & Ek & Ho). cbn in Ek, Ho. subst k'. apply elem_of_map_to_list in Hin.
    apply map_lookup_filter_None. right. intros o E. cbn. congruence.
  - destruct (mCurrentValidations s !! k) as [o|] eqn:E; [|apply map_lookup_filter_None; by left].
    apply map_lookup_filter_Some. split; [done|]. cbn. apply not_false_is_true. intros Hk. destruct Hex. apply Exists_exists.
    exists (k, o). split; [by apply elem_of_map_to_list|done].
Qed.

(** Asking removes no live record. *)
Lemma live_map_kept now i p cutoff s : live_map now cutoff (getCurrentValidations now i p cutoff s).2 = live_map now cutoff s.
Proof.
  unfold live_map. destruct (getCurrentValidations_state now i p cutoff s) as [-> _]. apply map_eq. intros k.
  rewrite !lookup_omap. destruct (mCurrentValidations s !! k) as [o|] eqn:E;
    [|by rewrite (proj2 (map_lookup_filter_None _ _ _)) by by left]. destruct (keeps now o) eqn:Ek.
  - by rewrite (proj2 (map_lookup_filter_Some _ _ _ o)).
  - rewrite (proj2 (map_lookup_filter_None _ _ _)) by (right; intros o' ?; cbn; congruence). cbn. destruct o as [v|]; [|done].
    cbn in Ek |- *. rewrite decide_False; [done|]. intros [? _]. congruence.
Qed.

(** ** The choice *)

Lemma prefer_spec i (l : list (Z * counter)) :
  NoDup l.*1 → (∀ j c, (j, c) ∈ l → 0 ≤ c.1) →
  let '(n, k) := foldl (prefer i) (i, 0) l in
  0 ≤ k ∧ (∀ j c, (j, c) ∈ l → c.1 ≤ k) ∧ (n = i ∧ (k = 0 ∨ ∃ c, (i, c) ∈ l ∧ c.1 = k) ∨ n ≠ i ∧ 0 < k ∧
    (∃ c, (n, c) ∈ l ∧ c.1 = k) ∧ ∀ c, (i, c) ∈ l → c.1 < k).
Proof.
  induction l as [|[j c] l IH] using rev_ind; intros Hnd Hpos.
  - cbn. split; [lia|]. split; [by intros j c ?%not_elem_of_nil|]. auto.
  - rewrite fmap_app in Hnd. apply NoDup_app in Hnd as (Hnd & _). rewrite foldl_app. cbn [foldl].
    specialize (IH Hnd ltac:(intros j' c' H; apply (Hpos j'), elem_of_app; by left)).
    specialize (Hpos j c ltac:(apply elem_of_app; right; by left)).
    destruct (foldl (prefer i) (i, 0) l) as [n k]. destruct IH as (Hk & Hmax & H). unfold prefer. cbn [fst snd].
    destruct ((c.1 >? k) || (c.1 =? k) && (j =? i)) eqn:E.
    + assert (k ≤ c.1) by (apply orb_prop in E as [E|[E _]%andb_prop]; zb; lia).
      split; [lia|]. split; [intros j' c' [?%Hmax| [= -> ->]%list_elem_of_singleton]%elem_of_app; lia|].
      destruct (decide (j = i)) as [->|Hne]; [left; split; [done|]; right; exists c; split; [apply elem_of_app; right; by left|done]|].
      right. assert (k < c.1) by (apply orb_prop in E as [E|[_ E]%andb_prop]; zb; lia || done).
      split; [done|]. split; [lia|]. split; [exists c; split; [apply elem_of_app; right; by left|done]|].
      intros c' [?%Hmax| [= -> _]%list_elem_of_singleton]%elem_of_app; [lia|done].
    + apply orb_false_elim in E as [E1 E2]. zb. split; [done|].
      split; [intros j' c' [?%Hmax| [= -> ->]%list_elem_of_singleton]%elem_of_app; lia|].
      destruct H as [[-> H]|(Hn & Hk' & (c' & Hc' & Ec') & Hi)]; [left|right].
      * split; [done|]. destruct H as [->|(c' & Hc' & Ec')]; [by left|right]. exists c'. split; [apply elem_of_app; by left|done].
      * split_and!; [done..|exists c'; split; [apply elem_of_app; by left|done]|].
        intros c2 [?%Hi| [= -> ->]%list_elem_of_singleton]%elem_of_app; [done|]. lia.
Qed.

(** The ledger with the most counted records, ours on a tie *)
Lemma preferred i (vals : gmap Z counter) (c : Z → nat) :
  (∀ j, counted vals j = Z.of_nat (c j)) →
  let n := (foldl (prefer i) (i, 0) (map_to_list vals)).1 in
  (∀ j, c j ≤ c n)%nat ∧ (n ≠ i → (c i < c n)%nat).
Proof.
  intros Hc. assert (∀ j x, (j, x) ∈ map_to_list vals → x.1 = Z.of_nat (c j)) as Hin.
  { intros j x Hx%elem_of_map_to_list. specialize (Hc j). unfold counted in Hc. by rewrite Hx in Hc. }
  pose proof (prefer_spec i (map_to_list vals) (NoDup_fst_map_to_list _)) as H.
  destruct (foldl _ _ _) as [n k]. destruct H as (Hk & Hmax & H); [intros j x Hx%Hin; lia|]. cbn [fst].
  assert (∀ j, Z.of_nat (c j) ≤ k) as Hle.
  { intros j. rewrite <- Hc. unfold counted. destruct (vals !! j) as [x|] eqn:E; [|done]. by apply (Hmax j), elem_of_map_to_list. }
  destruct H as [[-> H]|(Hn & Hk0 & (x & Hx & Ex) & Hi)].
  - split; [|done]. intros j. specialize (Hle j). destruct H as [->|(x & Hx & Ex)]; [lia|]. rewrite (Hin _ _ Hx) in Ex. lia.
  - rewrite (Hin _ _ Hx) in Ex. split; [intros j; specialize (Hle j); lia|]. intros _.
    specialize (Hc i). unfold counted in Hc. destruct (vals !! i) as [y|] eqn:E; [|cbn in Hc; lia].
    cbn in Hc. pose proof (Hi y ltac:(by apply elem_of_map_to_list)). lia.
Qed.

Lemma votes_le f g m j : (∀ v, f v = j → g v = j) → (votes f m j ≤ votes g m j)%nat.
Proof.
  intros H. apply map_subseteq_size, map_filter_subseteq_ext. intros k v _. apply H.
Qed.

Lemma votes_support i p m : (votes getLedgerHash m i ≤ votes (counts_for i p) m i)%nat.
Proof. apply votes_le. intros v E. unfold counts_for. by case_if. Qed.

Lemma votes_other i p m j : j ≠ i → (votes (counts_for i p) m j ≤ votes getLedgerHash m j)%nat.
Proof. intros Hj. apply votes_le. intros v. unfold counts_for. by case_if; intros ->. Qed.

(** Another ledger has more records of its own. *)
Lemma prefers_support now validIndex i parent mode s :
  let n := (getPrevLedger now validIndex i parent mode s).1.1 in
  n ≠ i → (support now validIndex s i < support now validIndex s n)%nat.
Proof.
  unfold getPrevLedger. set (p := if decide (mode ≠ Mode.wrongLedger) then parent else 0).
  pose proof (getCurrentValidations_counts now i p validIndex s) as Hc.
  destruct (getCurrentValidations now i p validIndex s) as [vals s']. cbn [fst] in Hc.
  pose proof (preferred i vals _ Hc) as Hp. destruct (foldl _ _ _) as [n k]. cbn [fst] in *. intros Hne.
  pose proof (votes_support i p (live_map now validIndex s)). pose proof (votes_other i p (live_map now validIndex s) n Hne).
  destruct Hp as [_ Hn]. specialize (Hn Hne). unfold support. lia.
Qed.

(** C27: the preferred prior ledger.  Of the validators' last validations those that are
    current, trusted and not before the last validated ledger are counted, each for its
    ledger, or for the ledger we are on if that is the one it replaced or if it is for the
    parent of ours.  [getPrevLedger] returns a ledger with the most, and ours unless another
    has strictly more; then also strictly more of the validations themselves are for that
    ledger than for ours.  Asking removes the validations that are not current, and puts
    them among those to write, and no other. *)
Theorem preferred_ledger now validIndex i parent mode s :
  let '(n, viewChange, s') := getPrevLedger now validIndex i parent mode s in
  let parentID := if decide (mode ≠ Mode.wrongLedger) then parent else 0 in
  let counts j := votes (counts_for i parentID) (live_map now validIndex s) j in
  (∀ j, counts j ≤ counts n)%nat ∧
  (n ≠ i → (counts i < counts n)%nat ∧ (support now validIndex s i < support now validIndex s n)%nat) ∧
  (viewChange = true ↔ n ≠ i ∧ mode ≠ Mode.wrongLedger) ∧
  mCurrentValidations s' = filter (λ kv, keeps now kv.2 = true) (mCurrentValidations s) ∧
  mStaleValidations s' = mStaleValidations s ++ omap (λ it, expired now it.2) (map_to_list (mCurrentValidations s)) ∧
  live_map now validIndex s' = live_map now validIndex s.
Proof.
  unfold getPrevLedger. set (p := if decide (mode ≠ Mode.wrongLedger) then parent else 0).
  pose proof (getCurrentValidations_counts now i p validIndex s) as Hc. pose proof (prefers_support now validIndex i parent mode s) as Hsup.
  unfold getPrevLedger in Hsup. fold p in Hsup.
  pose proof (getCurrentValidations_state now i p validIndex s) as Hs. pose proof (live_map_kept now i p validIndex s) as Hl.
  destruct (getCurrentValidations now i p validIndex s) as [vals s']. cbn [fst snd] in *.
  pose proof (preferred i vals _ Hc) as Hp. destruct (foldl _ _ _) as [n k]. cbn [fst] in *. destruct Hp as [Hmax Hn].
  split; [done|]. split.
  - intros Hne. split; [by apply Hn|by apply Hsup].
  - split; [rewrite andb_true_iff, negb_true_iff, Z.eqb_neq, bool_decide_eq_true; done|]. by destruct Hs.
Qed.

(** ** Consensus with this choice *)

(** What the choice depends on *)
Record Net := mkNet { validations : t; closeTime : Z; validIndex : Z }.

Definition live_of (n : Net) : gmap Z STValidation := live_map (closeTime n) (validIndex n) (validations n).

Section choice.
Context {Tx TxSet W : Type} `{TO : !TxSetOps Tx TxSet} `{AD : !Adaptor Tx TxSet W}.
Context (net : W → Net) (parent : Ledger → Z).

(** Validations may become stale or too old, and none arrives. *)
Definition expires (w w' : W) : Prop := live_of (net w') ⊆ live_of (net w).

(** An application that chooses the prior ledger by validations, and to which no validation
    arrives while consensus calls it *)
Record ByValidations : Prop := {
  ask_chooses i l m w : (Consensus.getPrevLedger i l m w).2 =
    (getPrevLedger (closeTime (net w)) (validIndex (net w)) i (parent l) m (validations (net w))).1.1;
  ask_expires i l m w : expires w (Consensus.getPrevLedger i l m w).1;
  clock_expires w : expires w (clock_now w).1;
  acquireLedger_expires i w : expires w (acquireLedger i w).1;
  acquireTxSet_expires i w : expires w (acquireTxSet i w).1;
  onClose_expires l now m w : expires w (onClose l now m w).1;
  onAccept_expires r l res ct m w : expires w (onAccept r l res ct m w);
  propose_expires p w : expires w (propose p w);
  relay_proposal_expires p w : expires w (relay_proposal p w);
  relay_tx_expires tx w : expires w (relay_tx tx w);
  relay_set_expires o w : expires w (relay_set o w)
}.

(** Live records lost count more than any turn. *)
Definition potential (w : W) (i : Z) : nat :=
  let m := live_of (net w) in size m * size m + (size m - votes getLedgerHash m i).

Lemma votes_size f m j : (votes f m j ≤ size m)%nat.
Proof. apply map_subseteq_size, map_filter_subseteq. Qed.

(** With records lost the potential of any ledger is below those before. *)
Lemma potential_lost (w w' : W) i j :
  expires w w' → live_of (net w') ≠ live_of (net w) → (potential w' j < potential w i)%nat.
Proof.
  intros He Hne. assert (live_of (net w') ⊂ live_of (net w)) as Hlt%map_subset_size.
  { split; [done|]. intros He'. by apply Hne, (anti_symm (⊆)). }
  unfold potential. set (a := size (live_of (net w'))) in *. set (b := size (live_of (net w))) in *. nia.
Qed.

Lemma potential_expires w w' : expires w w' → ConsensusTerm.settles potential w w'.
Proof.
  intros He i. destruct (decide (live_of (net w') = live_of (net w))) as [E|Hne].
  - unfold potential. by rewrite E.
  - pose proof (potential_lost w w' i i He Hne). lia.
Qed.

Lemma validations_settle : ByValidations → ConsensusTerm.Settling potential.
Proof.
  intros H. split; intros; try (apply potential_expires; by apply H).
  rewrite (ask_chooses H) in *. set (w' := (Consensus.getPrevLedger i l m w).1) in *.
  assert (expires w w') as He by apply H. destruct (decide (live_of (net w') = live_of (net w))) as [E|Hne]; [|by apply potential_lost].
  unfold potential. rewrite E. pose proof (prefers_support _ _ _ _ _ _ H0) as Hs. unfold support in Hs. fold (live_of (net w)) in Hs.
  pose proof (votes_size getLedgerHash (live_of (net w))
    (getPrevLedger (closeTime (net w)) (validIndex (net w)) i (parent l) m (validations (net w))).1.1). lia.
Qed.

End choice.
End Validations.
