(* ===== verification/ConsensusLive.v ===== *)
(** * ConsensusLive: agreeing validators accept

    Liveness and agreement of [consensus/Consensus.h]: the timer's call accepts a round
    in which all peers hold our position and our rounded close time, when the minimum
    time has passed and enough of the last proposers are present or the last round's
    time has passed too; and two nodes that accept on the same positions accept the same
    transaction set. *)

From S2P Require Import Prelude LedgerTiming ConsensusProposal DisputedTx Consensus ConsensusInv ConsensusSafety.

(** ** Close time votes *)

Lemma participantsNeeded_bounds n pct :
  0 < n → 0 ≤ pct ≤ 100 → 1 ≤ participantsNeeded n pct ≤ n.
Proof.
  intros Hn Hp. unfold participantsNeeded.
  rewrite (Z.quot_div_nonneg pct 2) by lia.
  pose proof (Z.div_pos pct 2). pose proof (Z.div_le_upper_bound pct 2 50).
  assert (0 ≤ n * pct) by nia. rewrite Z.quot_div_nonneg by lia.
  pose proof (Z.div_pos (n * pct + pct / 2) 100).
  assert ((n * pct + pct / 2) / 100 < n + 1) by (apply Z.div_lt_upper_bound; nia).
  case_if; zb; lia.
Qed.

Lemma neededWeight_bounds pct : 0 ≤ DisputedTx.neededWeight pct ≤ 100.
Proof. unfold DisputedTx.neededWeight. repeat case_if; done. Qed.

(** Equal votes add up. *)
Lemma incr_count {B} c n (l : list B) :
  foldl (λ eff _, incr c eff) [(c, n)] l = [(c, n + Z.of_nat (length l))].
Proof.
  revert n. induction l as [|x l IH]; intros n; cbn [foldl length]; [by rewrite Z.add_0_r|].
  unfold incr at 2. rewrite Z.ltb_irrefl, Z.eqb_refl, IH. do 2 f_equal. lia.
Qed.

Lemma incr_unanimous {B} c (l : list B) :
  l ≠ [] → foldl (λ eff _, incr c eff) [] l = [(c, Z.of_nat (length l))].
Proof.
  destruct l as [|x l]; [done|]. intros _. cbn [foldl incr length]. rewrite incr_count.
  do 2 f_equal. lia.
Qed.

Module ConsensusLive.
Import Consensus ConsensusInv ConsensusSafety.

Section live.
Context {Tx TxSet W : Type} `{TO : !TxSetOps Tx TxSet} `{AD : !Adaptor Tx TxSet W}.
Context `{TL : !TxSetLaws TO} `{AL : !AdaptorLaws TO AD}.
Abbreviation t := (@t Tx TxSet W).
Abbreviation Result := (Result Tx TxSet).
Implicit Types (s : t) (r : Result).

(** Every peer is fresh, holds our position and our rounded close time, and every
    vote on record agrees with ours. *)
Record unanimous (s : t) (r : Result) : Prop := {
  un_peers : map_Forall (λ _ p,
    ConsensusProposal.isStale p (u32 (now_ s - PROPOSE_FRESHNESS)) = false ∧
    ConsensusProposal.position_ p = ConsensusProposal.position_ (position r) ∧
    effCloseTime (ConsensusProposal.closeTime_ p) (closeResolution_ s)
      (ledger_closeTime (previousLedger_ s)) = ourEffCloseTime s r) (peerProposals_ s);
  un_votes : map_Forall (λ _ d, DisputedTx.wf d ∧
    DisputedTx.count (negb (DisputedTx.ourVote_ d)) (DisputedTx.votes_ d) = 0) (disputes r)
}.

Lemma dropStale_unanimous s r :
  unanimous s r →
  dropStale s r = (peerProposals_ s, r,
    foldl (λ eff _, incr (ourEffCloseTime s r) eff) [] (map_to_list (peerProposals_ s))).
Proof.
  intros [Hp _]. unfold dropStale.
  assert (∀ l eff, (∀ x, x ∈ l → x ∈ map_to_list (peerProposals_ s)) →
    foldl (dropStale_step s) (peerProposals_ s, r, eff) l =
    (peerProposals_ s, r, foldl (λ eff _, incr (ourEffCloseTime s r) eff) eff l)) as H.
  { induction l as [|[k p] l IH]; intros eff Hl; [done|]. cbn [foldl].
    destruct (Hp k p) as (Hst & _ & Heff).
    { apply elem_of_map_to_list, Hl. left. }
    unfold dropStale_step at 2. cbn [fst snd]. rewrite Hst, Heff. apply IH.
    intros. apply Hl. by right. }
  by apply H.
Qed.

Lemma updateDispute_unanimous pct proposing set0 ds :
  map_Forall (λ _ d, DisputedTx.wf d ∧
    DisputedTx.count (negb (DisputedTx.ourVote_ d)) (DisputedTx.votes_ d) = 0) ds →
  foldl (updateDispute pct proposing set0) (ds, None) (map_to_list ds) = (ds, None).
Proof.
  intros Hds. apply (foldl_invariant (λ acc, acc = (ds, None))); [|done].
  intros acc [k d] Hin ->. apply elem_of_map_to_list in Hin. destruct (Hds k d Hin) as [Hwf Hc].
  unfold updateDispute. cbn [fst snd]. by rewrite DisputedTx.updateVote_settled.
Qed.

Lemma closeTimeConsensus_unanimous s r :
  closeTimeConsensus s r
    (foldl (λ eff _, incr (ourEffCloseTime s r) eff) [] (map_to_list (peerProposals_ s))) =
  (ourEffCloseTime s r, true).
Proof.
  unfold closeTimeConsensus. case_bool_decide as He; [done|].
  set (c := ourEffCloseTime s r).
  assert (map_to_list (peerProposals_ s) ≠ []) as Hne by by rewrite map_to_list_empty_iff.
  rewrite incr_unanimous by done. rewrite length_map_to_list.
  apply map_size_non_empty_iff in He.
  assert (∀ n, 0 < n → (let '(ct, _, have) := chooseCloseTime
      (participantsNeeded n (DisputedTx.neededWeight (convergePercent_ s)))
      (participantsNeeded n AV_CT_CONSENSUS_PCT) [(c, n)] in (ct, have)) = (c, true)) as H.
  { intros n Hn. pose proof (participantsNeeded_bounds n _ Hn (neededWeight_bounds (convergePercent_ s))).
    pose proof (participantsNeeded_bounds n AV_CT_CONSENSUS_PCT Hn ltac:(done)).
    unfold chooseCloseTime. cbn [foldl]. rewrite !Z.geb_leb, !(proj2 (Z.leb_le _ _)) by lia. done. }
  case_if; [|apply H; lia]. unfold incr. rewrite Z.ltb_irrefl, Z.eqb_refl. apply H. lia.
Qed.
(** What [takePosition] keeps. *)
Definition kept (s : t) : gmap Z ConsensusProposal.t * bool * Z * Z * Mode.t :=
  (peerProposals_ s, haveCloseTimeConsensus_ s, prevProposers_ s, prevRoundTime_ s, mode_ s).

Lemma takePosition_kept set ct s r :
  let '(s', r') := takePosition set ct s r in
  kept s' = kept s ∧ set_ r' = set ∧ roundTime r' = roundTime r ∧
  ConsensusProposal.position_ (position r') = txset_id set.
Proof.
  unfold takePosition, shareSet. simpl. case_if; [done|].
  destruct (acquired_ s !! _); case_if; done.
Qed.

Lemma updateOurPositions_unanimous s r :
  unanimous s r → ConsensusProposal.position_ (position r) = txset_id (set_ r) →
  let '(s', r') := updateOurPositions s r in
  kept s' = kept (s<|haveCloseTimeConsensus_ := true|>) ∧ set_ r' = set_ r ∧
  roundTime r' = roundTime r ∧
  ConsensusProposal.position_ (position r') = ConsensusProposal.position_ (position r).
Proof.
  intros Hu Hpos. unfold updateOurPositions. rewrite (dropStale_unanimous s r Hu).
  replace (s<|peerProposals_ := peerProposals_ s|>) with s by by destruct s.
  rewrite updateDispute_unanimous by apply Hu.
  replace (r<|disputes := disputes r|>) with r by by destruct r.
  rewrite closeTimeConsensus_unanimous. case_if; [|done].
  pose proof (takePosition_kept (set_ r) (ourEffCloseTime s r)
    (s<|haveCloseTimeConsensus_ := true|>) r) as H.
  destruct (takePosition _ _ _ _) as [s' r']. by rewrite Hpos.
Qed.

Lemma agree_count_unanimous s r :
  map_Forall (λ _ p, ConsensusProposal.position_ p = ConsensusProposal.position_ (position r))
    (peerProposals_ s) →
  agree_count s r = Z.of_nat (size (peerProposals_ s)).
Proof.
  intros Hp. unfold agree_count. rewrite map_filter_id; [done|]. intros k p. apply Hp.
Qed.

Lemma checkConsensus_unanimous prev n finished prevTime time proposing :
  0 ≤ n → LEDGER_MIN_CONSENSUS < time →
  prev * 3 / 4 ≤ n ∨ prevTime + LEDGER_MIN_CONSENSUS ≤ time →
  checkConsensus prev n n finished prevTime time proposing = Yes.
Proof.
  intros Hn Ht Hw. unfold checkConsensus. rewrite (proj2 (Z.leb_gt _ _)) by lia.
  destruct ((n <? prev * 3 / 4) && _) eqn:E; [zb; lia|].
  assert (checkConsensusReached n n proposing = true) as ->; [|done].
  destruct (decide (n = 0)) as [->|]; [done|].
  apply checkConsensusReached_iff; destruct proposing; lia.
Qed.

(** The establish phase of agreeing validators *)
Lemma runPhase_unanimous s r :
  ConsensusProposal.position_ (position r) = txset_id (set_ r) →
  phase_ s = Phase.establish → result_ s = Some r → unanimous s r →
  let time := Stopwatch.read (Stopwatch.tick (roundTime r) (clock_now (world s)).2) in
  let n := Z.of_nat (size (peerProposals_ s)) in
  LEDGER_MIN_CONSENSUS < time →
  prevProposers_ s * 3 / 4 ≤ n ∨ prevRoundTime_ s + LEDGER_MIN_CONSENSUS ≤ time →
  let s' := runPhase s in
  phase_ s' = Phase.accepted ∧ prevProposers_ s' = n ∧ prevRoundTime_ s' = time ∧
  ∃ r', result_ s' = Some r' ∧ state r' = Yes ∧ set_ r' = set_ r.
Proof.
  intros Hpos Hph Hr Hu time n Ht Hw s'. unfold s', runPhase, phaseEstablish.
  rewrite Hph, Hr. destruct (clock_now (world s)) as [w tp]. cbv zeta. fold time.
  rewrite (proj2 (Z.ltb_ge _ _)) by (simpl; unfold time, LEDGER_MIN_CONSENSUS in *; simpl in *; lia).
  match goal with |- context [updateOurPositions ?a ?b] => set (s1 := a); set (r1 := b) end.
  assert (unanimous s1 r1) as Hu1 by (by destruct Hu; split).
  pose proof (updateOurPositions_unanimous s1 r1 Hu1 Hpos) as H.
  destruct (updateOurPositions s1 r1) as [s2 r2]. destruct H as ([= E1 E2 E3 E4 E5] & F1 & F2 & F3).
  assert (agree_count s2 r2 = n) as Ha.
  { unfold n. rewrite <- E1.
    apply agree_count_unanimous. rewrite E1, F3. intros k p Hp. by apply (un_peers _ _ Hu k p). }
  unfold haveConsensus. rewrite Ha, E1, E3, E4, F2.
  change (Z.of_nat (size (peerProposals_ s))) with n.
  replace (n + (n - n)) with n by lia. rewrite checkConsensus_unanimous; [|lia|done|done].
  simpl. rewrite E1, E2, F2. split_and!; [done..|]. by eexists.
Qed.

(** C25: agreeing validators accept.  The timer's call accepts the round with [Yes], on our
    set, and records the number of peers and the round's time, when the round is in the
    establish phase; we have the prior ledger of the round and the network still prefers
    it; at the time of the call all peers with a position hold our transaction set and the
    same rounded close time, and no dispute has a vote against ours; by the clock more than
    [LEDGER_MIN_CONSENSUS] of the round has passed; and at least three quarters of the last
    round's proposers are present or the time of the last round and [LEDGER_MIN_CONSENSUS]
    have passed.  In particular a node without peers accepts when the times have passed. *)
Theorem unanimity_accepts fuel now s r :
  Inv s → phase_ s = Phase.establish → result_ s = Some r → unanimous (s<|now_ := now|>) r →
  ledger_id (previousLedger_ s) = prevLedgerID_ s →
  let asked := getPrevLedger (prevLedgerID_ s) (previousLedger_ s) (mode_ s) (world s) in
  asked.2 = prevLedgerID_ s →
  let time := Stopwatch.read (Stopwatch.tick (roundTime r) (clock_now asked.1).2) in
  let n := Z.of_nat (size (peerProposals_ s)) in
  LEDGER_MIN_CONSENSUS < time →
  prevProposers_ s * 3 / 4 ≤ n ∨ prevRoundTime_ s + LEDGER_MIN_CONSENSUS ≤ time →
  ∃ s', timerEntry (S fuel) now s = Some s' ∧
    phase_ s' = Phase.accepted ∧ prevProposers_ s' = n ∧ prevRoundTime_ s' = time ∧
    ∃ r', result_ s' = Some r' ∧ state r' = Yes ∧ set_ r' = set_ r.
Proof.
  intros [_ Hinv _ _] Hph Hr Hu Hl asked Ha time n Ht Hw.
  set (s1 := s<|now_ := now|><|world := asked.1|>). exists (runPhase s1). split.
  - rewrite timerEntry_S. unfold timerEntry_body. rewrite decide_False by by rewrite Hph.
    unfold checkLedger. cbn -[getPrevLedger]. change (getPrevLedger _ _ _ _) with asked.
    destruct asked as [w i]. cbn in Ha |- *. subst i. by rewrite Hl, !Z.eqb_refl.
  - assert (unanimous s1 r) as Hu1 by (by destruct Hu; split).
    exact (runPhase_unanimous s1 r (ok_position _ _ (Hinv r Hr)) Hph Hr Hu1 Ht Hw).
Qed.

(** Node [x] of the proposers [U] sees the positions [pos] of the others. *)
Definition sees (s : t) (r : Result) (U : gset Z) (pos : Z → Z) (x : Z) : Prop :=
  x ∈ U ∧ dom (peerProposals_ s) = peers_of U x ∧
  map_Forall (λ k p, ConsensusProposal.position_ p = pos k) (peerProposals_ s) ∧
  ConsensusProposal.position_ (position r) = pos x.

Lemma sees_sizes s r U pos x :
  sees s r U pos x →
  Z.of_nat (size (peerProposals_ s)) = Z.of_nat (size (peers_of U x)) ∧
  agree_count s r = Z.of_nat (size (agreeing_with U pos x)).
Proof.
  intros (Hx & Hdom & Hpos & Hour). split; [by rewrite <- Hdom, size_dom|].
  unfold agree_count. rewrite <- size_dom. do 2 f_equal.
  unfold agreeing_with. rewrite <- Hdom. apply set_eq. intros k.
  rewrite elem_of_filter, !elem_of_dom. split.
  - intros [p (Hp & E)%map_lookup_filter_Some]. simpl in E. rewrite (Hpos k p Hp), Hour in E. eauto.
  - intros [E [p Hp]]. exists p. apply map_lookup_filter_Some. split; [done|]. simpl.
    by rewrite (Hpos k p Hp), Hour.
Qed.

Lemma accepted_reached s r U pos x :
  accept_ok s → result_ s = Some r → state r = Yes → is_proposing s = true → sees s r U pos x →
  checkConsensusReached (Z.of_nat (size (agreeing_with U pos x)))
    (Z.of_nat (size (peers_of U x))) true = true.
Proof.
  intros (r' & w & E & _ & _ & _ & _ & Hn & Hst) Hr Hy Hp Hs. simplify_eq. rewrite Hy in Hst.
  destruct (sees_sizes _ _ _ _ _ Hs) as [E1 E2]. rewrite <- E1.
  destruct Hst as [Hst|Hst]; [by rewrite Hst|].
  cbv zeta in Hst. rewrite Hn, Hp, E2 in Hst.
  destruct (decide (Z.of_nat (size (peerProposals_ s)) = 0)) as [->|]; [done|].
  apply checkConsensusReached_iff; lia.
Qed.

(** C3: agreement.  Two proposing nodes that accept with [Yes] while seeing the same
    positions of the same proposers accept the same transaction set: each of their
    quorums is at least 81 percent of the proposers. *)
Theorem accepted_agreement s1 s2 r1 r2 U pos x1 x2 :
  Inv s1 → Inv s2 → accept_ok s1 → accept_ok s2 →
  result_ s1 = Some r1 → result_ s2 = Some r2 → state r1 = Yes → state r2 = Yes →
  is_proposing s1 = true → is_proposing s2 = true →
  sees s1 r1 U pos x1 → sees s2 r2 U pos x2 →
  txset_id (set_ r1) = txset_id (set_ r2).
Proof.
  intros Hi1 Hi2 Ha1 Ha2 Hr1 Hr2 Hy1 Hy2 Hp1 Hp2 Hs1 Hs2.
  rewrite <- (ok_position _ _ (inv_result _ Hi1 _ Hr1)), <- (ok_position _ _ (inv_result _ Hi2 _ Hr2)).
  pose proof (accepted_reached _ _ _ _ _ Ha1 Hr1 Hy1 Hp1 Hs1).
  pose proof (accepted_reached _ _ _ _ _ Ha2 Hr2 Hy2 Hp2 Hs2).
  destruct Hs1 as (Hx1 & _ & _ & ->), Hs2 as (Hx2 & _ & _ & ->).
  by apply (consensus_agreement U pos x1 x2).
Qed.

End live.
End ConsensusLive.
