(* ===== verification/ConsensusSim.v ===== *)
(** * ConsensusSim: runs of the consensus algorithm

    A concrete application for [consensus/Consensus.h] (transactions are numbers, a
    transaction set is a finite set of them, and the application's state records
    what it was told), its laws, and runs that exercise the theorems. *)

From S2P Require Import Prelude LedgerTiming ConsensusProposal DisputedTx Consensus ConsensusInv ConsensusSafety ConsensusTerm Validations ConsensusLive.

Module ConsensusSim.
Import Consensus ConsensusInv ConsensusSafety ConsensusLive.

(** ** Transaction sets *)

Definition set_id (x : gset Z) : Z := Z.pos (encode (elements x)).

#[global] Instance gset_ops : TxSetOps Z (gset Z) := {|
  tx_id x := x;
  txset_id := set_id;
  txset_exists x i := bool_decide (i ∈ x);
  txset_find x i := if decide (i ∈ x) then Some i else None;
  txset_compare x y :=
    ((λ i, (i, true)) <$> elements (x ∖ y)) ++ ((λ i, (i, false)) <$> elements (y ∖ x));
  mutable_insert x i := {[i]} ∪ x;
  mutable_erase x i := x ∖ {[i]}
|}.

#[global] Instance gset_laws : TxSetLaws gset_ops.
Proof.
  split; simpl.
  - intros x i. apply bool_decide_ext. by case_decide; rewrite is_Some_alt.
  - intros x i j. by case_decide; intros [= ->].
  - intros x y i b. rewrite elem_of_app, !list_elem_of_fmap. destruct b.
    + split.
      * intros [(j & [= ->] & Hj)|(j & [=] & _)]. apply elem_of_elements, elem_of_difference in Hj.
        destruct Hj. rewrite decide_True, decide_False by done. eauto.
      * intros [Hx Hy]. left. exists i. split; [done|]. apply elem_of_elements, elem_of_difference.
        do 2 case_decide; naive_solver.
    + split.
      * intros [(j & [=] & _)|(j & [= ->] & Hj)]. apply elem_of_elements, elem_of_difference in Hj.
        destruct Hj. rewrite decide_False, decide_True by done. eauto.
      * intros [Hx Hy]. right. exists i. split; [done|]. apply elem_of_elements, elem_of_difference.
        do 2 case_decide; naive_solver.
  - intros x j i. rewrite <- bool_decide_or. apply bool_decide_ext. set_solver.
  - intros x j i. rewrite <- bool_decide_not, <- bool_decide_and. apply bool_decide_ext. set_solver.
Qed.

(** ** The application *)

Record app := mkApp {
  app_clock : Z;  (* ns *)
  app_node : Z;
  app_net : Z;
  app_ledgers : list Ledger;
  app_sets : list (gset Z);
  app_open : gset Z;
  app_sent : list ConsensusProposal.t;
  app_accepted : list Z
}.

(** [fixed] pins the network's preferred ledger. *)
Definition app_adaptor (fixed : option Z) : Adaptor Z (gset Z) app := {|
  clock_now w := (w, app_clock w);
  acquireLedger i w := (w, List.find (λ l, ledger_id l =? i) (app_ledgers w));
  acquireTxSet i w := (w, List.find (λ x, set_id x =? i) (app_sets w));
  proposals _ _ := [];
  hasOpenTransactions w := bool_decide (app_open w ≠ ∅);
  proposersValidated _ _ := 0;
  proposersFinished _ _ := 0;
  getPrevLedger _ _ _ w := (w, default (app_net w) fixed);
  onClose l now _ w := (w, (app_open w,
    ConsensusProposal.mk (ledger_id l) (set_id (app_open w)) now now
      ConsensusProposal.seqJoin (app_node w)));
  onAccept r _ _ _ _ w := w<|app_accepted ::= cons (set_id (set_ r))|>;
  onForceAccept r _ _ _ _ w := w<|app_accepted ::= cons (set_id (set_ r))|>;
  propose p w := w<|app_sent ::= cons p|>;
  relay_proposal _ w := w;
  relay_tx _ w := w;
  relay_set x w := w<|app_sets ::= cons x|>
|}.

#[global] Instance app_laws fixed : AdaptorLaws gset_ops (app_adaptor fixed).
Proof.
  split; [done|]. simpl. intros i w l Hl. apply List.find_some in Hl as [_ Hl]. by zb.
Qed.

(** ** A round of two validators *)

Section runs.
#[local] Instance the_adaptor : Adaptor Z (gset Z) app := app_adaptor None.

Definition ledger100 : Ledger := mkLedger 100 5 30 true 990 960.
Definition txs : gset Z := {[7; 8]}.

Definition app0 (node : Z) : app := mkApp 0 node 100 [] [] txs [] [].
Definition proposal_of (node : Z) : ConsensusProposal.t :=
  ConsensusProposal.mk 100 (set_id txs) 1000 1000 0 node.

(** Up to the timer call that accepts: the round starts, the other node's position
    and its set arrive, the ledger closes, and three seconds pass. *)
Definition before_accept (node other : Z) : list event :=
  [EStartRound 7 1000 100 ledger100 true; EProposal 1000 (proposal_of other);
   ETimer 4 1000; EGotTxSet 1001 txs; EWorld ((app0 node)<|app_clock := 3000000000|>)].

Definition full_round (node other : Z) : list event := before_accept node other ++ [ETimer 4 1003].

Definition state_after (es : list event) (node : Z) : t :=
  default (initial (app0 node)) (run_all es (initial (app0 node))).

Definition result_after (es : list event) (node : Z) : Result Z (gset Z) :=
  default (mkResult ∅ (proposal_of node) ∅ ∅ (Stopwatch.reset 0) No) (result_ (state_after es node)).

Lemma state_after_ok es node :
  run_all es (initial (app0 node)) ≠ None →
  run_all es (initial (app0 node)) = Some (state_after es node) ∧ Inv (state_after es node) ∧
  Synced (state_after es node).
Proof.
  unfold state_after. destruct (run_all es _) as [s|] eqn:E; [|done]. intros _. split; [done|].
  apply (run_all_ok es (initial (app0 node))); [apply initial_Inv|by left|done].
Qed.

Lemma consensus_invariant_witness :
  phase_ (state_after (full_round 1 2) 1) = Phase.accepted ∧
  Inv (state_after (full_round 1 2) 1) ∧ Synced (state_after (full_round 1 2) 1).
Proof.
  split; [by vm_compute|].
  apply (consensus_invariant (full_round 1 2) (app0 1)). by apply state_after_ok.
Defined.

(** The call that starts the round leaves the node proposing on its ledger. *)
Lemma proposing_safety_witness :
  let s : @t Z (gset Z) app := initial (app0 1) in
  let e := EStartRound 7 1000 100 ledger100 true in
  let s' := state_after [e] 1 in
  mode_ s' = Mode.proposing ∧ previousLedger_ s' = ledger100.
Proof.
  intros s e s'. assert (run e s = Some s') as Hr by by vm_compute.
  assert (mode_ s' = Mode.proposing) as Hm by by vm_compute. split; [done|].
  assert (Synced s) as Hs by by left.
  by destruct (proposing_safety e s s' Hs Hr Hm) as (_ & _ & ? & _).
Defined.

(** The last timer call of the round accepts. *)
Lemma acceptance_witness :
  accept_ok (state_after (full_round 1 2) 1).
Proof.
  assert (run (ETimer 4 1003) (state_after (before_accept 1 2) 1) =
    Some (state_after (full_round 1 2) 1)) as Hr by by vm_compute.
  destruct (acceptance _ _ _ Hr) as [H|H]; [by vm_compute| |done]. by vm_compute in H.
Defined.

Lemma unanimity_accepts_witness :
  ∃ s', timerEntry 4 1003 (state_after (before_accept 1 2) 1) = Some s' ∧ phase_ s' = Phase.accepted.
Proof.
  destruct (unanimity_accepts 3 1003 (state_after (before_accept 1 2) 1)
    (result_after (before_accept 1 2) 1)) as (s' & E & Hp & _).
  - by apply state_after_ok.
  - by vm_compute.
  - by vm_compute.
  - split; apply (bool_decide_unpack _); by vm_compute.
  - by vm_compute.
  - by vm_compute.
  - by vm_compute.
  - left. by vm_compute.
  - exact (ex_intro _ s' (conj E Hp)).
Defined.

(** Both validators accept, and accept the same set. *)
Lemma accepted_agreement_witness :
  txset_id (set_ (result_after (full_round 1 2) 1)) =
  txset_id (set_ (result_after (full_round 2 1) 2)).
Proof.
  assert (∀ node other : Z, run (ETimer 4 1003) (state_after (before_accept node other) node) =
    Some (state_after (full_round node other) node) →
    phase_ (state_after (before_accept node other) node) = Phase.establish →
    phase_ (state_after (full_round node other) node) = Phase.accepted →
    accept_ok (state_after (full_round node other) node)) as Hacc.
  { intros node other Hr Hb Ha. destruct (rounds_accept 4) as (_ & _ & Ht).
    refine (Ht _ _ _ _ Hr Ha). intros H. congruence. }
  apply (accepted_agreement (state_after (full_round 1 2) 1) (state_after (full_round 2 1) 2)
    (result_after (full_round 1 2) 1) (result_after (full_round 2 1) 2)
    {[1; 2]} (λ _, set_id txs) 1 2);
    [by apply state_after_ok|by apply state_after_ok|by apply Hacc; vm_compute|by apply Hacc; vm_compute|by vm_compute..|idtac|idtac].
  - split_and!; [set_solver|by vm_compute| |by vm_compute].
    apply (bool_decide_unpack _); by vm_compute.
  - split_and!; [set_solver|by vm_compute| |by vm_compute].
    apply (bool_decide_unpack _); by vm_compute.
Defined.

(** ** After bowing out

    A proposer whose prior ledger turns out wrong bows out and goes on following the
    majority on each disputed transaction.  Its new set is not put among the
    acquired sets, so that the set can arrive from a peer while it is our position,
    which the assertion in [gotTxSet] excludes. *)

Definition peer_position (node : Z) (x : gset Z) (prev : Z) : ConsensusProposal.t :=
  ConsensusProposal.mk prev (set_id x) 1000 1000 0 node.

Definition app_moved (clock : Z) : app := mkApp clock 1 200 [] [] ∅ [] [].

Definition bowed_out : list (event (TxSet := gset Z) (W := app)) :=
  [EStartRound 7 1000 100 ledger100 true; EProposal 1000 (peer_position 2 {[8; 9]} 100);
   ETimer 4 1000; EWorld (app_moved 0); ETimer 4 1000;
   EProposal 1000 (peer_position 2 {[8; 9]} 200); EProposal 1000 (peer_position 3 {[7; 9]} 200);
   EProposal 1000 (peer_position 4 {[7; 8]} 200);
   EGotTxSet 1000 {[8; 9]}; EGotTxSet 1000 {[7; 9]}; EGotTxSet 1000 {[7; 8]};
   EWorld (app_moved 3000000000); ETimer 4 1003].

Lemma bowed_out_position :
  let s := state_after bowed_out 1 in
  let r := result_after bowed_out 1 in
  let o : gset Z := {[7; 8; 9]} in
  phase_ s = Phase.establish ∧ acquired_ s !! txset_id o = None ∧
  result_ s = Some r ∧ ConsensusProposal.position_ (position r) = txset_id o.
Proof. by vm_compute. Qed.

End runs.

(** ** A network with validations

    The application with validations, from which it chooses the prior ledger *)

Definition validated_adaptor (parent : Ledger → Z) : Adaptor Z (gset Z) (app * Validations.Net) :=
  let A := app_adaptor None in {|
    clock_now w := (w, (clock_now (Adaptor := A) w.1).2);
    acquireLedger i w := (w, (acquireLedger (Adaptor := A) i w.1).2);
    acquireTxSet i w := (w, (acquireTxSet (Adaptor := A) i w.1).2);
    proposals i w := proposals (Adaptor := A) i w.1;
    hasOpenTransactions w := hasOpenTransactions (Adaptor := A) w.1;
    proposersValidated i w := proposersValidated (Adaptor := A) i w.1;
    proposersFinished i w := proposersFinished (Adaptor := A) i w.1;
    getPrevLedger i l m w :=
      let n := w.2 in
      let r := Validations.getPrevLedger (Validations.closeTime n) (Validations.validIndex n) i (parent l) m (Validations.validations n) in
      ((w.1, Validations.mkNet r.2 (Validations.closeTime n) (Validations.validIndex n)), r.1.1);
    onClose l now m w := let r := onClose (Adaptor := A) l now m w.1 in ((r.1, w.2), r.2);
    onAccept r l res ct m w := (onAccept (Adaptor := A) r l res ct m w.1, w.2);
    onForceAccept r l res ct m w := (onForceAccept (Adaptor := A) r l res ct m w.1, w.2);
    propose p w := (propose (Adaptor := A) p w.1, w.2);
    relay_proposal p w := (relay_proposal (Adaptor := A) p w.1, w.2);
    relay_tx tx w := (relay_tx (Adaptor := A) tx w.1, w.2);
    relay_set x w := (relay_set (Adaptor := A) x w.1, w.2)
  |}.

#[global] Instance validated_laws parent : AdaptorLaws gset_ops (validated_adaptor parent).
Proof.
  split; [done|]. simpl. intros i w l Hl. apply List.find_some in Hl as [_ Hl]. by zb.
Qed.

Lemma validated_by_validations parent :
  Validations.ByValidations (AD := validated_adaptor parent) snd parent.
Proof.
  split; try (intros; unfold Validations.expires; reflexivity).
  intros i l m w. unfold Validations.expires, Validations.live_of. simpl. unfold Validations.getPrevLedger.
  set (p := if decide (m ≠ Mode.wrongLedger) then parent l else 0).
  pose proof (Validations.live_map_kept (Validations.closeTime w.2) i p (Validations.validIndex w.2) (Validations.validations w.2)) as H.
  destruct (Validations.getCurrentValidations _ _ _ _ _) as [vals s']. destruct (foldl _ _ _). simpl in *. by rewrite H.
Qed.

(** Three validators: two on ledger 100, one on 101, none on 90 *)
Definition validation (hash node : Z) : Validations.STValidation := Validations.mkValidation hash 0 (Some 5) node 1000 0 true.
Definition three_validations : Validations.Net :=
  Validations.mkNet (Validations.mk {[ 1 := Some (validation 100 1); 2 := Some (validation 100 2); 3 := Some (validation 101 3) ]} [] false) 1000 5.

(** A round on ledger 90 *)
Definition round_90 : t :=
  let s : t := initial ((app0 1)<|app_ledgers := [ledger100]|>, three_validations) in
  default s (startRound (AD := validated_adaptor (λ _, 0)) 5 1000 90 (mkLedger 90 4 30 true 960 930) true s).

(** The timer's call turns to ledger 100, and ends. *)
Lemma rounds_terminate_witness :
  let AD := validated_adaptor (λ _, 0) in
  prevLedgerID_ round_90 = 90 ∧ (prevLedgerID_ <$> timerEntry (AD := AD) 40 1001 round_90) = Some 100 ∧
  terminates (λ fuel, timerEntry (AD := AD) fuel 1001 round_90) 40.
Proof.
  intros AD. split; [by vm_compute|]. split; [by vm_compute|].
  pose proof (proj2 (ConsensusTerm.rounds_terminate (AD := AD) (Validations.potential snd)
    (Validations.validations_settle (AD := AD) snd (λ _, 0) (validated_by_validations (λ _, 0)))
    1001 90 (mkLedger 90 4 30 true 960 930) true round_90)) as H.
  assert (Validations.potential snd (world round_90) (prevLedgerID_ round_90) = 12%nat) as E by by vm_compute.
  rewrite E in H. exact H.
Defined.

End ConsensusSim.
