(* ===== verification/ReadView.v ===== *)
(** * ReadView: the interfaces of ledger views

    Models [protocol/Keylet.h], [protocol/impl/Keylet.cpp] and the interfaces
    [ReadView] and [RawView] of [ledger/ReadView.h] and [ledger/RawView.h].  A
    ledger entry has its key, its type and further contents, whose type [D] is a
    parameter; keys are [uint256] values, modelled as [Z].

    [Represents] and [RawViewLaws] state what a view promises to its clients: the
    entries are a finite map, and the operations act on that map. *)

From stdpp Require Import sorting.
From S2P Require Import Prelude.

(** ** Ledger entries and keylets *)

Definition ltANY : Z := -3.
Definition ltCHILD : Z := -2.
Definition ltINVALID : Z := -1.
Definition ltACCOUNT_ROOT : Z := 97.
Definition ltDIR_NODE : Z := 100.
Definition ltCASINOCOIN_STATE : Z := 99.
Definition ltTICKET : Z := 84.
Definition ltSIGNER_LIST : Z := 83.
Definition ltOFFER : Z := 111.
Definition ltLEDGER_HASHES : Z := 104.
Definition ltAMENDMENTS : Z := 102.
Definition ltFEE_SETTINGS : Z := 115.
Definition ltESCROW : Z := 117.
Definition ltPAYCHAN : Z := 120.

Record SLE (D : Type) := mkSLE { sle_key : Z; sle_type : Z; sle_data : D }.
Arguments mkSLE {D}.
Arguments sle_key {D}.
Arguments sle_type {D}.
Arguments sle_data {D}.

#[global] Instance SLE_eq_dec {D} `{!EqDecision D} : EqDecision (SLE D).
Proof. solve_decision. Defined.

(** The binary form of entries: [sle->add (s)], [SLE (sit, key)], and the entries that have
    a form which is read back *)
Class SLECodec (D : Type) := {
  sle_serialize : SLE D → result (list Z);
  sle_make : list Z → Z → result (SLE D);
  sle_valid : SLE D → Prop
}.

Class SLECodecLaws {D : Type} (C : SLECodec D) := {
  sle_roundtrip e : sle_valid e → ∃ b, sle_serialize e = Ok b ∧ sle_make b (sle_key e) = Ok e
}.

(** The bytes of a valid entry *)
Definition sle_bytes {D} `{SLECodec D} (e : SLE D) : list Z :=
  match sle_serialize e with Ok b => b | Throw _ => [] end.

Lemma sle_bytes_ok {D} {C : SLECodec D} `{!SLECodecLaws C} e :
  sle_valid e → sle_serialize e = Ok (sle_bytes e) ∧ sle_make (sle_bytes e) (sle_key e) = Ok e.
Proof. intros (b & Eb & Em)%sle_roundtrip. unfold sle_bytes. by rewrite Eb. Qed.

Record Keylet := mkKeylet { k_type : Z; k_key : Z }.

(** [Keylet::check]; the assertions hold exactly when the result is true *)
Definition check {D} (k : Keylet) (sle : SLE D) : bool :=
  if k_type k =? ltANY then true
  else if k_type k =? ltINVALID then false
  else if k_type k =? ltCHILD then negb (sle_type sle =? ltDIR_NODE)
  else sle_type sle =? k_type k.

(** [keylet::unchecked] *)
Definition unchecked (key : Z) : Keylet := mkKeylet ltANY key.

(** ** Reading *)

Record LedgerInfo := mkLedgerInfo {
  info_seq : Z;
  info_parentCloseTime : Z;
  info_hash : Z;
  info_txHash : Z;
  info_accountHash : Z;
  info_parentHash : Z;
  info_drops : Z;
  info_validated : bool;
  info_accepted : bool;
  info_closeFlags : Z;
  info_closeTimeResolution : Z;
  info_closeTime : Z
}.

(** [rv_sles] is the range from [slesBegin] to [slesEnd]. *)
Record ReadView (D : Type) := mkReadView {
  rv_info : LedgerInfo;
  rv_open : bool;
  rv_exists : Keylet → bool;
  rv_succ : Z → option Z → option Z;
  rv_read : Keylet → option (SLE D);
  rv_sles : list (SLE D)
}.
Arguments mkReadView {D}.
Arguments rv_info {D}.
Arguments rv_open {D}.
Arguments rv_exists {D}.
Arguments rv_succ {D}.
Arguments rv_read {D}.
Arguments rv_sles {D}.

(** The first key after [key] with the property [P]. *)
Definition is_succ (P : Z → Prop) (key : Z) (o : option Z) : Prop :=
  match o with
  | Some n => P n ∧ key < n ∧ ∀ k, P k → key < k → n ≤ k
  | None => ∀ k, P k → k ≤ key
  end.

Definition below (last : option Z) (k : Z) : Prop :=
  match last with Some l => k < l | None => True end.

Section spec.
Context {D : Type}.
Implicit Types (m : gmap Z (SLE D)) (l : list (SLE D)).

(** Entries are filed under their keys, which are 256-bit. *)
Definition keyed m : Prop := map_Forall (λ k e, sle_key e = k ∧ is_uint256 k) m.

(** The entry a keylet names, if it has the right type *)
Definition lookup_typed m (k : Keylet) : option (SLE D) :=
  match m !! k_key k with
  | Some e => if check k e then Some e else None
  | None => None
  end.

(** The keylet has the type of the entry it names. *)
Definition well_typed m (k : Keylet) : Prop := ∀ e, m !! k_key k = Some e → check k e = true.

(** The entries in ascending order of their keys *)
Definition is_sles m l : Prop :=
  StronglySorted Z.lt (sle_key <$> l) ∧ ∀ e, e ∈ l ↔ m !! sle_key e = Some e.

(** What a [ReadView] promises: it shows the entries of the finite map [m]. *)
Record Represents (v : ReadView D) m : Prop := {
  rep_keyed : keyed m;
  rep_exists k : is_uint256 (k_key k) → well_typed m k → rv_exists v k = bool_decide (is_Some (m !! k_key k));
  rep_read k : is_uint256 (k_key k) → rv_read v k = lookup_typed m k;
  rep_succ key last : is_uint256 key → is_succ (λ k, is_Some (m !! k) ∧ below last k) key (rv_succ v key last);
  rep_sles : is_sles m (rv_sles v)
}.
End spec.

(** ** Raw modification *)

Class RawView (D S : Type) := {
  rawErase : SLE D → S → result S;
  rawInsert : SLE D → S → result S;
  rawReplace : SLE D → S → result S;
  rawDestroyCSC : Z → S → result S
}.

(** Views that also take transactions *)
Class TxsRawView (D T S : Type) := {
  txs_raw_view :: RawView D S;
  rawTxInsert : Z → T → option T → S → result S
}.

(** What a [RawView] promises, on the entries and the destroyed drops it denotes:
    the operations do what their comments say when their requirements hold, on the
    entries [adm] it accepts. *)
Class RawViewLaws {D S : Type} (R : RawView D S) (adm : SLE D → Prop) (ok : S → Prop)
    (entries : S → gmap Z (SLE D)) (destroyed : S → Z) := {
  rawErase_ok e s : ok s → adm e → is_Some (entries s !! sle_key e) →
    ∃ s', rawErase e s = Ok s' ∧ ok s' ∧ destroyed s' = destroyed s ∧
      entries s' = delete (sle_key e) (entries s);
  rawInsert_ok e s : ok s → adm e → entries s !! sle_key e = None →
    ∃ s', rawInsert e s = Ok s' ∧ ok s' ∧ destroyed s' = destroyed s ∧
      entries s' = <[sle_key e := e]> (entries s);
  rawReplace_ok e s : ok s → adm e → is_Some (entries s !! sle_key e) →
    ∃ s', rawReplace e s = Ok s' ∧ ok s' ∧ destroyed s' = destroyed s ∧
      entries s' = <[sle_key e := e]> (entries s);
  rawDestroyCSC_ok f s : ok s →
    ∃ s', rawDestroyCSC f s = Ok s' ∧ ok s' ∧ destroyed s' = s64 (destroyed s + f) ∧
      entries s' = entries s
}.

(** ** Successors *)

Lemma is_succ_ext (P Q : Z → Prop) key o :
  (∀ k, key < k → P k ↔ Q k) → is_succ P key o → is_succ Q key o.
Proof.
  intros HPQ. destruct o as [n|]; simpl.
  - intros (HP & Hlt & Hmin). split_and!; [by apply HPQ|done|].
    intros k HQ Hk. apply Hmin; [by apply HPQ|done].
  - intros H k HQ. destruct (Z.lt_ge_cases key k); [|done]. by apply H, HPQ.
Qed.

(** The lower of the successors in two lists *)
Lemma is_succ_or (P Q : Z → Prop) key o1 o2 :
  is_succ P key o1 → is_succ Q key o2 →
  is_succ (λ k, P k ∨ Q k) key
    (match o2, o1 with
     | Some k, None => Some k
     | Some k, Some n => if n >? k then Some k else Some n
     | None, next => next
     end).
Proof.
  destruct o1 as [n|], o2 as [k|]; simpl; intros H1 H2.
  - case_if; zb; simpl.
    + destruct H1 as (? & ? & Hn), H2 as (? & ? & Hk). split_and!; [by right|done|].
      intros j [Hj|Hj] ?; [pose proof (Hn j Hj); lia|auto].
    + destruct H1 as (? & ? & Hn), H2 as (? & ? & Hk). split_and!; [by left|done|].
      intros j [Hj|Hj] ?; [auto|pose proof (Hk j Hj); lia].
  - destruct H1 as (? & ? & Hn). split_and!; [by left|done|].
    intros j [Hj|Hj] ?; [auto|]. pose proof (H2 j Hj). lia.
  - destruct H2 as (? & ? & Hk). split_and!; [by right|done|].
    intros j [Hj|Hj] ?; [|auto]. pose proof (H1 j Hj). lia.
  - intros j [Hj|Hj]; auto.
Qed.

Lemma is_succ_below (P : Z → Prop) key last o :
  is_succ P key o →
  is_succ (λ k, P k ∧ below last k) key
    (match o, last with
     | Some n, Some l => if n >=? l then None else Some n
     | next, _ => next
     end).
Proof.
  destruct o as [n|], last as [l|]; simpl.
  - intros (HP & Hlt & Hmin). case_if; zb; simpl.
    + intros k [Hk Hl]. destruct (Z.lt_ge_cases key k); [|done]. pose proof (Hmin k Hk). lia.
    + split_and!; [done|done|done|]. intros k [Hk _]. by apply Hmin.
  - intros (HP & Hlt & Hmin). split_and!; [done|done|done|]. intros k [Hk _]. by apply Hmin.
  - intros H k [Hk _]. by apply H.
  - intros H k [Hk _]. by apply H.
Qed.

(** ** [std::map] *)

Section sorted.
Context {A : Type}.
Implicit Types m : gmap Z A.

#[local] Instance key_le_dec : RelDecision (λ a b : Z * A, a.1 ≤ b.1).
Proof. intros a b. apply _. Defined.
#[local] Instance key_le_total : Total (λ a b : Z * A, a.1 ≤ b.1).
Proof. intros a b. lia. Qed.
#[local] Instance key_le_trans : Transitive (λ a b : Z * A, a.1 ≤ b.1).
Proof. intros a b c. lia. Qed.

(** The elements of a map in the order of its iterators *)
Definition sorted_list m : list (Z * A) := merge_sort (λ a b, a.1 ≤ b.1) (map_to_list m).

Lemma elem_of_sorted_list m k x : (k, x) ∈ sorted_list m ↔ m !! k = Some x.
Proof. unfold sorted_list. rewrite merge_sort_Permutation. apply elem_of_map_to_list. Qed.

Lemma sorted_list_sorted m : StronglySorted Z.lt (sorted_list m).*1.
Proof.
  assert (NoDup (sorted_list m).*1) as Hnd.
  { unfold sorted_list. rewrite merge_sort_Permutation. apply NoDup_fst_map_to_list. }
  pose proof (StronglySorted_merge_sort (λ a b : Z * A, a.1 ≤ b.1) (map_to_list m)) as Hs.
  unfold sorted_list in *. induction Hs as [|[k x] l Hs IH Hall]; [constructor|].
  cbn [fmap list_fmap fst] in *. apply NoDup_cons in Hnd as [Hnin Hnd]. constructor; [by apply IH|].
  apply Forall_fmap, Forall_forall. intros y Hy. rewrite Forall_forall in Hall.
  specialize (Hall y Hy). simpl in *. assert (k ≠ y.1); [|lia]. intros ->.
  apply Hnin. by apply list_elem_of_fmap_2.
Qed.

Lemma sorted_NoDup (l : list Z) : StronglySorted Z.lt l → NoDup l.
Proof.
  induction 1 as [|x l Hs IH Hall]; constructor; [|done]. rewrite Forall_forall in Hall.
  intros Hin. specialize (Hall x Hin). lia.
Qed.

Lemma filter_sorted {B} (f : B → Z) (P : B → Prop) `{∀ x, Decision (P x)} (l : list B) :
  StronglySorted Z.lt (f <$> l) → StronglySorted Z.lt (f <$> filter P l).
Proof.
  induction l as [|x l IH]; intros Hs; [done|]. inversion Hs as [|? ? Hs' Hall]; subst.
  rewrite filter_cons. case_decide; [|by apply IH]. rewrite fmap_cons. constructor; [by apply IH|].
  rewrite Forall_fmap, Forall_forall in *. intros y [_ Hy]%list_elem_of_filter. by apply Hall.
Qed.

(** [std::map::upper_bound] *)
Fixpoint upper_bound (key : Z) (l : list (Z * A)) : list (Z * A) :=
  match l with
  | [] => []
  | (k, x) :: l' => if k <=? key then upper_bound key l' else l
  end.
End sorted.

Section upper_bound.
Context {A : Type}.
Implicit Types l : list (Z * A).

Lemma upper_bound_sorted key l : StronglySorted Z.lt l.*1 → StronglySorted Z.lt (upper_bound key l).*1.
Proof.
  induction l as [|[k x] l IH]; simpl; [done|]. intros Hs. case_if; [|done].
  apply IH. by inversion Hs.
Qed.

Lemma elem_of_upper_bound key l k x :
  StronglySorted Z.lt l.*1 → (k, x) ∈ upper_bound key l ↔ (k, x) ∈ l ∧ key < k.
Proof.
  induction l as [|[k' y] l IH]; simpl; intros Hs.
  - split; [intros H; by apply elem_of_nil in H|intros [H _]; by apply elem_of_nil in H].
  - inversion Hs as [|? ? Hs' Hall]; subst. rewrite elem_of_cons. case_if; zb.
    + rewrite IH by done. split; [naive_solver|]. intros [[[= -> ->]|?] ?]; [lia|done].
    + rewrite elem_of_cons. split; [|naive_solver]. intros [[= -> ->]|Hin]; [naive_solver lia|].
      split; [by right|]. rewrite Forall_forall in Hall. enough (k' < k) by lia. apply Hall.
      apply list_elem_of_fmap. by exists (k, x).
Qed.
End upper_bound.

(** Lists in the order of distinct keys are determined by their elements. *)
Lemma sorted_unique {A} (l1 l2 : list (Z * A)) :
  StronglySorted Z.lt l1.*1 → StronglySorted Z.lt l2.*1 → (∀ x, x ∈ l1 ↔ x ∈ l2) → l1 = l2.
Proof.
  assert (∀ l : list (Z * A), StronglySorted Z.lt l.*1 → StronglySorted (λ a b, a.1 < b.1) l) as Hp.
  { induction l as [|x l IH]; intros Hs; [constructor|]. rewrite fmap_cons in Hs.
    apply StronglySorted_inv in Hs as [Hs Hall]. constructor; [by apply IH|]. by rewrite Forall_fmap in Hall. }
  intros H1 H2 Hin. eapply (StronglySorted_unique_strong (λ a b : Z * A, a.1 < b.1)); [intros; lia|by apply Hp..|].
  apply NoDup_Permutation; [eapply NoDup_fmap_1, sorted_NoDup; exact H1|eapply NoDup_fmap_1, sorted_NoDup; exact H2|done].
Qed.

Lemma omap_fst_sublist {A B} (f : A → option B) (l : list (Z * A)) :
  (omap (λ x, pair x.1 <$> f x.2) l).*1 `sublist_of` l.*1.
Proof.
  induction l as [|[k x] l IH]; [constructor|]. cbn [omap list_omap fst snd]. destruct (f x); cbn; by constructor.
Qed.

Lemma sublist_sorted (l l' : list Z) : l `sublist_of` l' → StronglySorted Z.lt l' → StronglySorted Z.lt l.
Proof.
  induction 1 as [|x l l' Hl IH|x l l' Hl IH]; intros Hs; [done|..]; apply StronglySorted_inv in Hs as [Hs Hall].
  - constructor; [by apply IH|]. rewrite Forall_forall in *. intros y Hy. apply Hall.
    eapply elem_of_submseteq; [exact Hy|by apply sublist_submseteq].
  - by apply IH.
Qed.

Lemma sorted_list_omap {A B} (f : A → option B) (m : gmap Z A) :
  sorted_list (omap f m) = omap (λ x, pair x.1 <$> f x.2) (sorted_list m).
Proof.
  apply sorted_unique; [apply sorted_list_sorted|eapply sublist_sorted; [apply omap_fst_sublist|apply sorted_list_sorted]|].
  intros [k y]. rewrite elem_of_sorted_list, lookup_omap, list_elem_of_omap. split.
  - intros Hy. destruct (m !! k) as [x|] eqn:E; [|done]. cbn in Hy. exists (k, x). rewrite elem_of_sorted_list.
    cbn. by rewrite Hy.
  - intros ([k' x] & Hx & E). apply elem_of_sorted_list in Hx. cbn in E. destruct (f x) eqn:Ef; [|done].
    injection E as -> ->. by rewrite Hx.
Qed.
