(* ===== verification/RawStateTable.v ===== *)
(** * RawStateTable: buffered raw modifications of a ledger view

    Models [ledger/detail/RawStateTable.h] and [ledger/impl/RawStateTable.cpp].  The
    table holds, per key, what is to happen to the entry of the base view; [overlay]
    is the finite map the table and the base show together.  Ledger entries handed
    to a raw view are not modified afterwards, so that the table holds values. *)

From stdpp Require Import sorting.
From S2P Require Import Prelude ReadView.
From coqutil Require Export Datatypes.RecordSettersUsingExistingGetters.

Module RawStateTable.

Inductive Action := erase_ | insert_ | replace_.

Section table.
Context {D : Type}.
Implicit Types (e sle : SLE D) (base : ReadView D) (m : gmap Z (SLE D)).

Record t := mk {
  items_ : gmap Z (Action * SLE D);
  dropsDestroyed_ : Z
}.
Implicit Types s : t.

Definition empty : t := mk ∅ 0.

Definition is_erase (a : Action) : bool := match a with erase_ => true | _ => false end.

(** ** Modifications *)

Definition erase (sle : SLE D) (s : t) : result t :=
  match items_ s !! sle_key sle with
  | None => Ok (s<|items_ ::= <[sle_key sle := (erase_, sle)]>|>)
  | Some (erase_, _) => Throw (logic_error "RawStateTable::erase: already erased")
  | Some (insert_, _) => Ok (s<|items_ ::= delete (sle_key sle)|>)
  | Some (replace_, _) => Ok (s<|items_ ::= <[sle_key sle := (erase_, sle)]>|>)
  end.

Definition insert (sle : SLE D) (s : t) : result t :=
  match items_ s !! sle_key sle with
  | None => Ok (s<|items_ ::= <[sle_key sle := (insert_, sle)]>|>)
  | Some (erase_, _) => Ok (s<|items_ ::= <[sle_key sle := (replace_, sle)]>|>)
  | Some (insert_, _) => Throw (logic_error "RawStateTable::insert: already inserted")
  | Some (replace_, _) => Throw (logic_error "RawStateTable::insert: already exists")
  end.

Definition replace (sle : SLE D) (s : t) : result t :=
  match items_ s !! sle_key sle with
  | None => Ok (s<|items_ ::= <[sle_key sle := (replace_, sle)]>|>)
  | Some (erase_, _) => Throw (logic_error "RawStateTable::replace: was erased")
  | Some (a, _) => Ok (s<|items_ ::= <[sle_key sle := (a, sle)]>|>)
  end.

Definition destroyCSC (fee : Z) (s : t) : t := s<|dropsDestroyed_ ::= (λ d, s64 (d + fee))|>.

(** ** Reading through the table *)

Definition exists_ (s : t) (base : ReadView D) (k : Keylet) : bool :=
  match items_ s !! k_key k with
  | None => rv_exists base k
  | Some (a, sle) => if is_erase a then false else if negb (check k sle) then false else true
  end.

Definition read (s : t) (base : ReadView D) (k : Keylet) : option (SLE D) :=
  match items_ s !! k_key k with
  | None => rv_read base k
  | Some (a, sle) => if is_erase a then None else if negb (check k sle) then None else Some sle
  end.

(** The loop of [succ] over the base: the first successor that is not deleted in
    our list.  Every further iteration passes a deleted key. *)
Fixpoint base_succ (fuel : nat) (s : t) (base : ReadView D) (key : Z) (last : option Z)
    : option Z :=
  match fuel with
  | O => None
  | S fuel =>
      match rv_succ base key last with
      | None => None
      | Some next =>
          match items_ s !! next with
          | Some (erase_, _) => base_succ fuel s base next last
          | _ => Some next
          end
      end
  end.

(** The loop of [succ] over our list *)
Fixpoint first_live (l : list (Z * (Action * SLE D))) : option Z :=
  match l with
  | [] => None
  | (k, (a, _)) :: l => if is_erase a then first_live l else Some k
  end.

Definition succ (s : t) (base : ReadView D) (key : Z) (last : option Z) : option Z :=
  let next := base_succ (S (size (items_ s))) s base key last in
  let next :=
    match first_live (upper_bound key (sorted_list (items_ s))), next with
    | Some k, None => Some k
    | Some k, Some n => if n >? k then Some k else Some n
    | None, next => next
    end in
  match next, last with
  | Some n, Some l => if n >=? l then None else Some n
  | next, _ => next
  end.

(** ** Iteration

    [sles_iter_impl] walks the base and the table in parallel.  An iterator is the
    rest of its range; [sle0_] and [sle1_] are the entries the rests start with.
    [None] stands for a dereferenced null pointer. *)

Abbreviation iter := (list (SLE D) * list (Z * (Action * SLE D)))%type.

Definition sle0_ (i : iter) : option (SLE D) := head i.1.
Definition sle1_ (i : iter) : option (SLE D) := (snd ∘ snd) <$> head i.2.
Definition inc0 (i : iter) : iter := (tail i.1, i.2).
Definition inc1 (i : iter) : iter := (i.1, tail i.2).

Fixpoint skip_from (i0 : list (SLE D)) (i1 : list (Z * (Action * SLE D))) : option iter :=
  match i1 with
  | (_, (erase_, sle1)) :: i1' =>
      match i0 with
      | [] => None
      | sle0 :: i0' =>
          if sle_key sle0 =? sle_key sle1 then
            match i0' with [] => Some ([], i1') | _ => skip_from i0' i1' end
          else Some (i0, i1)
      end
  | _ => Some (i0, i1)
  end.

Definition skip (i : iter) : option iter := skip_from i.1 i.2.

Definition make_iter (i1 : list (Z * (Action * SLE D))) (i0 : list (SLE D)) : option iter :=
  match i1 with [] => Some (i0, i1) | _ => skip (i0, i1) end.

Definition increment (i : iter) : option iter :=
  match sle0_ i, sle1_ i with
  | None, None => None
  | None, Some _ => Some (inc1 i)
  | Some _, None => Some (inc0 i)
  | Some s0, Some s1 =>
      skip (if sle_key s1 =? sle_key s0 then inc0 (inc1 i)
            else if sle_key s1 <? sle_key s0 then inc1 i else inc0 i)
  end.

Definition dereference (i : iter) : option (SLE D) :=
  match sle1_ i, sle0_ i with
  | None, s0 => s0
  | s1, None => s1
  | Some s1, Some s0 => if sle_key s1 <=? sle_key s0 then Some s1 else Some s0
  end.

Definition at_end (i : iter) : bool :=
  match i with ([], []) => true | _ => false end.

(** A range-based loop over the iterator *)
Fixpoint walk (fuel : nat) (i : iter) : option (list (SLE D)) :=
  if at_end i then Some []
  else
    match fuel with
    | O => None
    | S fuel =>
        match dereference i, increment i with
        | Some e, Some i' => cons e <$> walk fuel i'
        | _, _ => None
        end
    end.

Definition slesBegin (s : t) (base : ReadView D) : option iter :=
  make_iter (sorted_list (items_ s)) (rv_sles base).

(** [base.sles.upper_bound(key)] *)
Fixpoint sles_upper_bound (key : Z) (l : list (SLE D)) : list (SLE D) :=
  match l with
  | [] => []
  | e :: l' => if sle_key e <=? key then sles_upper_bound key l' else l
  end.

Definition slesUpperBound (s : t) (base : ReadView D) (key : Z) : option iter :=
  make_iter (upper_bound key (sorted_list (items_ s))) (sles_upper_bound key (rv_sles base)).

Definition walk_all (i : option iter) : option (list (SLE D)) :=
  match i with Some i => walk (length i.1 + length i.2) i | None => None end.

(** ** Applying the table *)

Section apply.
Context {S : Type} `{R : !RawView D S}.

Definition apply_item (to : result S) (item : Z * (Action * SLE D)) : result S :=
  to ← to;
  match item.2.1 with
  | erase_ => rawErase item.2.2 to
  | insert_ => rawInsert item.2.2 to
  | replace_ => rawReplace item.2.2 to
  end.

Definition apply (s : t) (to : S) : result S :=
  foldl apply_item (rawDestroyCSC (dropsDestroyed_ s) to) (sorted_list (items_ s)).
End apply.

(** ** The map the table shows *)

Definition effect (item : option (Action * SLE D)) (below : option (SLE D)) : option (SLE D) :=
  match item with
  | None => below
  | Some (erase_, _) => None
  | Some (_, sle) => Some sle
  end.

Definition overlay (s : t) m : gmap Z (SLE D) :=
  merge (λ i b, effect i b) (items_ s) m.

Lemma lookup_overlay s m k : overlay s m !! k = effect (items_ s !! k) (m !! k).
Proof.
  unfold overlay. rewrite lookup_merge. by destruct (items_ s !! k), (m !! k).
Qed.

(** The table fits the map below it: it inserts what is missing, and erases and
    replaces what is present. *)
Definition fits (s : t) m : Prop :=
  map_Forall (λ k item, (sle_key item.2 = k ∧ is_uint256 k) ∧
    match item.1 with insert_ => m !! k = None | _ => is_Some (m !! k) end) (items_ s).

Lemma empty_fits m : fits empty m.
Proof. apply map_Forall_empty. Qed.

Lemma overlay_empty m : overlay empty m = m.
Proof. apply map_eq. intros k. by rewrite lookup_overlay. Qed.

Lemma overlay_keyed s m : fits s m → keyed m → keyed (overlay s m).
Proof.
  intros Hf Hk k e. rewrite lookup_overlay. destruct (items_ s !! k) as [[a sle]|] eqn:E.
  - destruct (Hf k _ E) as [Hkey _]. simpl in *. destruct a; naive_solver.
  - apply Hk.
Qed.

(** ** Modifications refine the finite map *)

(** Changing the item of one key changes the overlay at that key. *)
Lemma overlay_insert_item s m k a sle :
  overlay (s<|items_ ::= <[k := (a, sle)]>|>) m =
  if is_erase a then delete k (overlay s m) else <[k := sle]> (overlay s m).
Proof.
  apply map_eq. intros i. rewrite lookup_overlay. simpl. rewrite lookup_insert. case_decide; subst.
  - destruct a; simpl; rewrite ?lookup_delete_eq, ?lookup_insert_eq; done.
  - destruct a; simpl; rewrite ?lookup_delete_ne, ?lookup_insert_ne, lookup_overlay by done; done.
Qed.

Lemma overlay_delete_item s m k :
  m !! k = None → overlay (s<|items_ ::= delete k|>) m = delete k (overlay s m).
Proof.
  intros Hm. apply map_eq. intros i. rewrite lookup_overlay. simpl. rewrite !lookup_delete.
  case_decide; subst; [done|]. by rewrite lookup_overlay.
Qed.

Lemma fits_insert_item s m a sle :
  fits s m → is_uint256 (sle_key sle) → match a with insert_ => m !! sle_key sle = None | _ => is_Some (m !! sle_key sle) end →
  fits (s<|items_ ::= <[sle_key sle := (a, sle)]>|>) m.
Proof. intros Hf Hu Ha. by apply map_Forall_insert_2. Qed.

(** [erase], [insert] and [replace] on a table that fits: what they do to the
    overlay, and that they throw exactly when the table itself says that the entry is
    missing or present. *)
Lemma erase_ok sle s m :
  fits s m → is_uint256 (sle_key sle) → is_Some (overlay s m !! sle_key sle) →
  ∃ s', erase sle s = Ok s' ∧ fits s' m ∧ dropsDestroyed_ s' = dropsDestroyed_ s ∧
    overlay s' m = delete (sle_key sle) (overlay s m).
Proof.
  intros Hf Hu Ho. rewrite lookup_overlay in Ho. unfold erase.
  destruct (items_ s !! sle_key sle) as [[a x]|] eqn:E.
  - destruct (Hf _ _ E) as [_ Hm]. destruct a; simpl in *; [by destruct Ho| |].
    + eexists. split_and!; [done| |done|by apply overlay_delete_item]. by apply map_Forall_delete.
    + eexists. split_and!; [done|by apply fits_insert_item|done|by rewrite overlay_insert_item].
  - eexists. split_and!; [done|by apply fits_insert_item|done|by rewrite overlay_insert_item].
Qed.

Lemma insert_ok sle s m :
  fits s m → is_uint256 (sle_key sle) → overlay s m !! sle_key sle = None →
  ∃ s', insert sle s = Ok s' ∧ fits s' m ∧ dropsDestroyed_ s' = dropsDestroyed_ s ∧
    overlay s' m = <[sle_key sle := sle]> (overlay s m).
Proof.
  intros Hf Hu Ho. rewrite lookup_overlay in Ho. unfold insert.
  destruct (items_ s !! sle_key sle) as [[a x]|] eqn:E.
  - destruct (Hf _ _ E) as [_ Hm]. destruct a; simpl in *; [|done..].
    eexists. split_and!; [done|by apply fits_insert_item|done|by rewrite overlay_insert_item].
  - eexists. split_and!; [done|by apply fits_insert_item|done|by rewrite overlay_insert_item].
Qed.

Lemma replace_ok sle s m :
  fits s m → is_uint256 (sle_key sle) → is_Some (overlay s m !! sle_key sle) →
  ∃ s', replace sle s = Ok s' ∧ fits s' m ∧ dropsDestroyed_ s' = dropsDestroyed_ s ∧
    overlay s' m = <[sle_key sle := sle]> (overlay s m).
Proof.
  intros Hf Hu Ho. rewrite lookup_overlay in Ho. unfold replace.
  destruct (items_ s !! sle_key sle) as [[a x]|] eqn:E.
  - destruct (Hf _ _ E) as [_ Hm]. destruct a; simpl in *; [by destruct Ho| |];
      (eexists; split_and!; [done|by apply fits_insert_item|done|by rewrite overlay_insert_item]).
  - eexists. split_and!; [done|by apply fits_insert_item|done|by rewrite overlay_insert_item].
Qed.

Lemma ops_throw sle s m :
  fits s m → is_Some (items_ s !! sle_key sle) →
  match overlay s m !! sle_key sle with
  | None => is_ok (erase sle s) = false ∧ is_ok (replace sle s) = false
  | Some _ => is_ok (insert sle s) = false
  end.
Proof.
  intros Hf [[a x] E]. rewrite lookup_overlay. unfold erase, insert, replace. rewrite E.
  by destruct a.
Qed.

(** The operations of the table are the operations of the finite map it shows
    over its base.  On a table that fits its base, erasing a present entry,
    inserting an absent one and replacing a present one succeed, keep the table
    fitting, and delete or set that entry and no other; if the table itself knows
    that the requirement fails (the key is in its list), they are a logic error and
    change nothing. *)
Theorem raw_table_refines sle s m :
  fits s m → is_uint256 (sle_key sle) →
  (is_Some (overlay s m !! sle_key sle) →
     (∃ s', erase sle s = Ok s' ∧ fits s' m ∧ overlay s' m = delete (sle_key sle) (overlay s m)) ∧
     (∃ s', replace sle s = Ok s' ∧ fits s' m ∧
        overlay s' m = <[sle_key sle := sle]> (overlay s m))) ∧
  (overlay s m !! sle_key sle = None →
     ∃ s', insert sle s = Ok s' ∧ fits s' m ∧
       overlay s' m = <[sle_key sle := sle]> (overlay s m)) ∧
  (is_Some (items_ s !! sle_key sle) →
     match overlay s m !! sle_key sle with
     | None => is_ok (erase sle s) = false ∧ is_ok (replace sle s) = false
     | Some _ => is_ok (insert sle s) = false
     end).
Proof.
  intros Hf Hu. split_and!.
  - intros Ho. split.
    + destruct (erase_ok sle s m Hf Hu Ho) as (s' & ? & ? & _ & ?). eauto.
    + destruct (replace_ok sle s m Hf Hu Ho) as (s' & ? & ? & _ & ?). eauto.
  - intros Ho. destruct (insert_ok sle s m Hf Hu Ho) as (s' & ? & ? & _ & ?). eauto.
  - by apply ops_throw.
Qed.

(** ** Successors *)

Lemma items_above_shrink s key n item :
  key < n → items_ s !! n = Some item →
  (size (filter (λ kv, (n < kv.1)%Z) (items_ s)) < size (filter (λ kv, (key < kv.1)%Z) (items_ s)))%nat.
Proof.
  intros Hlt Hn. apply map_subset_size. split.
  - apply map_subseteq_spec. intros i x. rewrite !map_lookup_filter_Some. simpl. intuition lia.
  - intros Hsub. eapply (lookup_weaken _ _ n item) in Hsub.
    + apply map_lookup_filter_Some in Hsub as [_ Hsub]. simpl in Hsub. lia.
    + by apply map_lookup_filter_Some.
Qed.

Lemma base_succ_spec fuel s base m key last :
  Represents base m → is_uint256 key → (size (filter (λ kv, (key < kv.1)%Z) (items_ s)) < fuel)%nat →
  is_succ (λ k, (is_Some (m !! k) ∧ below last k) ∧ ∀ e, items_ s !! k ≠ Some (erase_, e))
    key (base_succ fuel s base key last).
Proof.
  intros Hrep. revert key. induction fuel as [|fuel IH]; intros key Hu Hsz; [lia|]. simpl.
  pose proof (rep_succ _ _ Hrep key last Hu) as Hb. destruct (rv_succ base key last) as [n|].
  2: { intros k [? _]. by apply Hb. }
  destruct Hb as (Hn & Hlt & Hmin). destruct (items_ s !! n) as [[[] e]|] eqn:E.
  - pose proof (items_above_shrink s key n _ Hlt E).
    assert (∀ k, (is_Some (m !! k) ∧ below last k) ∧ (∀ e, items_ s !! k ≠ Some (erase_, e)) →
      key < k → n < k) as Hgt.
    { intros k [Hk Hne] Hlt'. pose proof (Hmin k Hk Hlt'). assert (n ≠ k); [|lia].
      intros ->. by apply (Hne e). }
    assert (is_uint256 n) as Hn' by (destruct Hn as [[e' He'] _]; by apply (rep_keyed _ _ Hrep n e')).
    specialize (IH n Hn' ltac:(lia)). destruct (base_succ fuel s base n last) as [n'|]; simpl in *.
    + destruct IH as (? & ? & Hm'). split; [done|]. split; [lia|]. intros k Hk Hlt'. apply Hm'; auto.
    + intros k Hk. destruct (Z.lt_ge_cases key k); [|done]. pose proof (IH k Hk).
      pose proof (Hgt k Hk). lia.
  - split; [split; [done|congruence]|]. split; [done|]. intros k [Hk _]. by apply Hmin.
  - split; [split; [done|congruence]|]. split; [done|]. intros k [Hk _]. by apply Hmin.
  - split; [split; [done|congruence]|]. split; [done|]. intros k [Hk _]. by apply Hmin.
Qed.

Lemma first_live_spec key l :
  StronglySorted Z.lt l.*1 →
  is_succ (λ k, ∃ a e, (k, (a, e)) ∈ l ∧ is_erase a = false ∧ key < k) key (first_live (upper_bound key l)).
Proof.
  intros Hs.
  assert (∀ k a e, (k, (a, e)) ∈ upper_bound key l ↔ (k, (a, e)) ∈ l ∧ key < k) as Hub
    by (intros; by apply elem_of_upper_bound).
  pose proof (upper_bound_sorted key l Hs) as Hsu. revert Hub Hsu.
  generalize (upper_bound key l). intros u Hub Hsu.
  enough (is_succ (λ k, ∃ a e, (k, (a, e)) ∈ u ∧ is_erase a = false ∧ key < k) key (first_live u)) as H.
  { destruct (first_live u) as [n|]; simpl in *.
    - destruct H as ((a & e & Hin & ?) & ? & Hmin). split_and!; [|done|].
      + exists a, e. by apply Hub in Hin as [? _].
      + intros k (a' & e' & ? & ? & ?) ?. apply Hmin; [|done]. exists a', e'. rewrite Hub. auto.
    - intros k (a & e & ? & ? & ?). apply H. exists a, e. rewrite Hub. auto. }
  assert (∀ k a e, (k, (a, e)) ∈ u → key < k) as Hgt by naive_solver. clear Hub Hs l.
  induction u as [|[k [a e]] u IH]; simpl.
  { intros k (? & ? & H & _). by apply elem_of_nil in H. }
  inversion Hsu as [|? ? Hsu' Hall]; subst. rewrite Forall_forall in Hall.
  destruct (is_erase a) eqn:Ea; simpl.
  - specialize (IH Hsu' ltac:(intros; eapply Hgt; by right)).
    destruct (first_live u) as [n|]; simpl in *.
    + destruct IH as ((a' & e' & ? & ?) & ? & Hmin). split_and!; [|done|].
      * exists a', e'. split; [by right|done].
      * intros k' (a2 & e2 & [Heq|Hin]%elem_of_cons & Ha2 & ?) ?; [congruence|]. apply Hmin; [|done]. eauto.
    + intros k' (a2 & e2 & [Heq|Hin]%elem_of_cons & Ha2 & ?); [congruence|]. apply IH. eauto.
  - split_and!; [|eapply Hgt; left|].
    + exists a, e. split_and!; [left|done|eapply Hgt; left].
    + intros k' (a2 & e2 & [Heq|Hin]%elem_of_cons & Ha2 & ?) ?; [by simplify_eq|].
      enough (k < k') by lia. apply Hall, list_elem_of_fmap. by eexists (k', (a2, e2)).
Qed.

Lemma overlay_live s m k :
  is_Some (overlay s m !! k) ↔
  is_Some (m !! k) ∧ (∀ e, items_ s !! k ≠ Some (erase_, e)) ∨
  ∃ a e, items_ s !! k = Some (a, e) ∧ is_erase a = false.
Proof.
  rewrite lookup_overlay. destruct (items_ s !! k) as [[[] e]|] eqn:E; simpl.
  - split; [by intros [? [=]]|]. intros [[_ H]|(a & x & [= <- <-] & H)]; [by destruct (H e)|done].
  - split; [|by eauto]. intros _. right. by eexists _, _.
  - split; [|by eauto]. intros _. right. by eexists _, _.
  - split; [by left|]. intros [[? _]|(a & x & [=] & _)]. done.
Qed.

Lemma succ_spec s base m key last :
  Represents base m → is_uint256 key →
  is_succ (λ k, is_Some (overlay s m !! k) ∧ below last k) key (succ s base key last).
Proof.
  intros Hrep Hu. unfold succ.
  assert (size (filter (λ kv, (key < kv.1)%Z) (items_ s)) < S (size (items_ s)))%nat as Hsz.
  { apply Nat.lt_succ_r, map_subseteq_size, map_filter_subseteq. }
  pose proof (base_succ_spec _ s base m key last Hrep Hu Hsz) as Hb.
  pose proof (first_live_spec key _ (sorted_list_sorted (items_ s))) as Ht.
  pose proof (is_succ_below _ _ last _ (is_succ_or _ _ _ _ _ Hb Ht)) as H.
  eapply is_succ_ext; [|exact H]. intros k Hk. simpl. rewrite overlay_live. split.
  - intros [[[[? ?] ?]|(a & e & Hin & ? & _)] ?]; [by auto|].
    apply elem_of_sorted_list in Hin. split; [right; eauto|done].
  - intros [[[? ?]|(a & e & Hi & ?)] ?]; [by auto|]. split; [|done]. right. exists a, e.
    by rewrite elem_of_sorted_list.
Qed.

(** ** Iteration *)

(** The rests of the two ranges: sorted, and the rest of the table fits the rest of
    the base. *)
Definition iter_ok (i : iter) : Prop :=
  StronglySorted Z.lt (sle_key <$> i.1) ∧ StronglySorted Z.lt i.2.*1 ∧
  ∀ k a e, (k, (a, e)) ∈ i.2 → sle_key e = k ∧
    match a with insert_ => k ∉ sle_key <$> i.1 | _ => k ∈ sle_key <$> i.1 end.

(** The entries the iteration still has to show *)
Definition shown (i : iter) (e : SLE D) : Prop :=
  e ∈ i.1 ∧ sle_key e ∉ i.2.*1 ∨ ∃ k a, (k, (a, e)) ∈ i.2 ∧ is_erase a = false.

(** No deleted entry of the base is next. *)
Definition skipped (i : iter) : Prop :=
  match i with
  | (e0 :: _, (_, (erase_, e1)) :: _) => sle_key e0 ≠ sle_key e1
  | _ => True
  end.

Lemma sorted_cons_inv {A} (f : A → Z) x l :
  StronglySorted Z.lt (f <$> x :: l) →
  StronglySorted Z.lt (f <$> l) ∧ ∀ k, k ∈ f <$> l → f x < k.
Proof. rewrite fmap_cons. intros H. inversion H as [|? ? ? Hall]; subst. by rewrite Forall_forall in Hall. Qed.

Lemma iter_ok_right i0 x i1 : iter_ok (i0, x :: i1) → iter_ok (i0, i1).
Proof.
  intros (H0 & H1 & H). apply (sorted_cons_inv fst) in H1 as [H1 _]. split_and!; [done..|].
  intros k a e Hin. apply H. by right.
Qed.

(** Passing an entry of the base that the rest of the table does not name *)
Lemma iter_ok_left e0 i0 i1 :
  iter_ok (e0 :: i0, i1) → (∀ k, k ∈ i1.*1 → sle_key e0 < k) → iter_ok (i0, i1).
Proof.
  intros (H0 & H1 & H) Hgt. apply (sorted_cons_inv sle_key) in H0 as [H0 _].
  split_and!; [done..|]. cbn [fst snd] in *. intros k a e Hin.
  destruct (H k a e Hin) as [Hk Ha]. split; [done|].
  assert (sle_key e0 < k) by (apply Hgt, list_elem_of_fmap; by exists (k, (a, e))).
  destruct a; rewrite fmap_cons, elem_of_cons in Ha; naive_solver lia.
Qed.

Lemma shown_left e0 i0 i1 x :
  sle_key e0 ∉ i1.*1 → shown (e0 :: i0, i1) x ↔ x = e0 ∨ shown (i0, i1) x.
Proof. intros Hn. unfold shown. simpl. rewrite elem_of_cons. naive_solver. Qed.

Lemma in_fst {A B} (l : list (A * B)) a b : (a, b) ∈ l → a ∈ l.*1.
Proof. intros. apply list_elem_of_fmap. by exists (a, b). Qed.

Lemma shown_right i0 k a e1 i1 x :
  iter_ok (i0, (k, (a, e1)) :: i1) → k ∉ sle_key <$> i0 → is_erase a = false →
  shown (i0, (k, (a, e1)) :: i1) x ↔ x = e1 ∨ shown (i0, i1) x.
Proof.
  intros Hok Hn Ha. unfold shown. simpl. rewrite not_elem_of_cons. split.
  - intros [(? & ? & ?)|(k' & a' & [[= -> -> ->]|?]%elem_of_cons & ?)]; naive_solver.
  - intros [->|[[Hx ?]|(k' & a' & ? & ?)]].
    + right. exists k, a. split; [left|done].
    + left. split_and!; [done| |done]. intros <-. apply Hn, list_elem_of_fmap. by exists x.
    + right. exists k', a'. split; [by right|done].
Qed.

(** Passing an entry of the base together with the item for it *)
Lemma shown_both e0 i0 a e1 i1 x :
  iter_ok (e0 :: i0, (sle_key e0, (a, e1)) :: i1) →
  shown (e0 :: i0, (sle_key e0, (a, e1)) :: i1) x ↔
  (x = e1 ∧ is_erase a = false) ∨ shown (i0, i1) x.
Proof.
  intros (H0 & H1 & H). unfold shown. cbn [fst snd].
  apply (sorted_cons_inv sle_key) in H0 as [_ H0]. rewrite fmap_cons, not_elem_of_cons, elem_of_cons.
  cbn [fst]. split.
  - intros [([->|?] & ? & ?)|(k' & a' & [[= -> -> ->]|?]%elem_of_cons & ?)]; naive_solver.
  - intros [[-> ?]|[[Hx ?]|(k' & a' & ? & ?)]].
    + right. exists (sle_key e0), a. split; [left|done].
    + left. split_and!; [by right| |done]. intros E.
      assert (sle_key e0 < sle_key x); [|lia]. apply H0, list_elem_of_fmap. by exists x.
    + right. exists k', a'. split; [by right|done].
Qed.

Lemma iter_ok_both e0 i0 a e1 i1 :
  iter_ok (e0 :: i0, (sle_key e0, (a, e1)) :: i1) → iter_ok (i0, i1).
Proof.
  intros Hok. pose proof Hok as (_ & H1 & _). apply (sorted_cons_inv fst) in H1 as [_ H1].
  apply (iter_ok_left e0); [by eapply iter_ok_right|]. done.
Qed.

Lemma skip_spec i0 i1 :
  iter_ok (i0, i1) →
  ∃ i', skip_from i0 i1 = Some i' ∧ iter_ok i' ∧ skipped i' ∧
    (∀ x, shown i' x ↔ shown (i0, i1) x) ∧ (length i'.1 + length i'.2 ≤ length i0 + length i1)%nat.
Proof.
  revert i0. induction i1 as [|[k [a e1]] i1 IH]; intros i0 Hok; simpl.
  { exists (i0, []). repeat (split; [done || by destruct i0|]). done. }
  pose proof Hok as (_ & _ & Hf). destruct (Hf k a e1) as [Hk Ha]; [left|]. simpl in Ha.
  destruct a; [|eexists; repeat (split; [done || by destruct i0|]); done..].
  destruct i0 as [|e0 i0]; [by apply elem_of_nil in Ha|]. cbn [skip_from].
  destruct (sle_key e0 =? sle_key e1) eqn:Ek; zb.
  2: { exists (e0 :: i0, (k, (erase_, e1)) :: i1). repeat (split; [done|]). done. }
  assert (k = sle_key e0) as -> by lia. pose proof (iter_ok_both _ _ _ _ _ Hok) as Hok'.
  assert (∀ x, shown (i0, i1) x ↔ shown (e0 :: i0, (sle_key e0, (erase_, e1)) :: i1) x) as Hsh.
  { intros x. rewrite (shown_both _ _ _ _ _ _ Hok). naive_solver. }
  destruct i0 as [|e0' i0].
  - exists ([], i1). repeat (split; [done|]). simpl. lia.
  - destruct (IH _ Hok') as (i' & -> & ? & ? & Hs & Hl). exists i'.
    do 3 (split; [done|]). split; [|simpl in *; lia]. intros x. by rewrite Hs.
Qed.

(** What is shown lies at or after the heads of the rests. *)
Lemma shown_above i x b :
  iter_ok i → (∀ k, k ∈ sle_key <$> i.1 → b < k) → (∀ k, k ∈ i.2.*1 → b < k) →
  shown i x → b < sle_key x.
Proof.
  intros (_ & _ & Hf) H0 H1 [[Hx _]|(k & a & Hin & _)].
  - apply H0, list_elem_of_fmap. by exists x.
  - destruct (Hf _ _ _ Hin) as [-> _]. apply H1. by eapply in_fst.
Qed.

(** Advancing when both ranges have entries left, before deleted ones are skipped *)
Lemma advance_spec e0 i0 k a e1 i1 :
  let i := (e0 :: i0, (k, (a, e1)) :: i1) in
  let i' := if sle_key e1 =? sle_key e0 then inc0 (inc1 i)
            else if sle_key e1 <? sle_key e0 then inc1 i else inc0 i in
  iter_ok i → skipped i →
  ∃ e, dereference i = Some e ∧ iter_ok i' ∧ (∀ x, shown i x ↔ x = e ∨ shown i' x) ∧
    (∀ x, shown i' x → sle_key e < sle_key x) ∧
    (length i'.1 + length i'.2 < length i.1 + length i.2)%nat.
Proof.
  intros i i' Hok Hsk. subst i i'. pose proof Hok as (H0 & H1 & Hf). destruct (Hf k a e1) as [Hk Ha]; [left|].
  apply (sorted_cons_inv sle_key) in H0 as [_ H0]. apply (sorted_cons_inv fst) in H1 as [_ H1].
  assert (∀ k', k' ∈ ((k, (a, e1)) :: i1).*1 → k ≤ k') as H1'.
  { intros k'. rewrite fmap_cons, elem_of_cons. intros [->|?]; [done|]. apply Z.lt_le_incl. auto. }
  assert (∀ k', k' ∈ sle_key <$> e0 :: i0 → sle_key e0 ≤ k') as H0'.
  { intros k'. rewrite fmap_cons, elem_of_cons. intros [->|?]; [done|]. apply Z.lt_le_incl. auto. }
  unfold dereference, inc0, inc1. cbn [sle0_ sle1_ head tail fst snd fmap option_fmap option_map compose].
  destruct (sle_key e1 =? sle_key e0) eqn:E1; zb;
    [|destruct (sle_key e1 <? sle_key e0) eqn:E2; zb].
  - assert (k = sle_key e0) as -> by lia. rewrite (proj2 (Z.leb_le _ _)) by lia. exists e1.
    assert (is_erase a = false) as Her by (destruct a; simpl in Hsk; [lia|done..]).
    split; [done|]. assert (iter_ok (i0, i1)) as Hok' by by eapply iter_ok_both.
    split; [done|]. split; [intros x; rewrite (shown_both _ _ _ _ _ _ Hok); naive_solver|].
    split; [|simpl; lia]. intros x. rewrite E1. by apply shown_above.
  - rewrite (proj2 (Z.leb_le _ _)) by lia. exists e1.
    assert (k ∉ sle_key <$> e0 :: i0) as Hn by (intros Hin; apply H0' in Hin; lia).
    assert (is_erase a = false) as Her by (by destruct a). split; [done|].
    split; [by eapply iter_ok_right|]. split; [intros x; by apply shown_right|].
    split; [|simpl; lia]. intros x. apply shown_above; [by eapply iter_ok_right| |by rewrite Hk].
    intros k' Hk'. apply H0' in Hk'. lia.
  - rewrite (proj2 (Z.leb_gt _ _)) by lia. exists e0. split; [done|].
    assert (∀ k', k' ∈ ((k, (a, e1)) :: i1).*1 → sle_key e0 < k') as Hgt
      by (intros k' Hk'; apply H1' in Hk'; lia).
    split; [by eapply iter_ok_left|]. split.
    { intros x. apply shown_left. intros Hin. apply Hgt in Hin. lia. }
    split; [|simpl; lia]. intros x. apply shown_above; [by eapply iter_ok_left|done|done].
Qed.

(** One step of the iteration shows the entry with the lowest key. *)
Lemma step_spec i :
  iter_ok i → skipped i → at_end i = false →
  ∃ e i', dereference i = Some e ∧ increment i = Some i' ∧ iter_ok i' ∧ skipped i' ∧
    (∀ x, shown i x ↔ x = e ∨ shown i' x) ∧ (∀ x, shown i' x → sle_key e < sle_key x) ∧
    (length i'.1 + length i'.2 < length i.1 + length i.2)%nat.
Proof.
  destruct i as [[|e0 i0] [|[k [a e1]] i1]]; intros Hok Hsk Hend; [done|..].
  - pose proof Hok as (_ & H1 & Hf). destruct (Hf k a e1) as [Hk Ha]; [left|].
    apply (sorted_cons_inv fst) in H1 as [_ H1].
    assert (is_erase a = false) as Her by (destruct a; [by apply elem_of_nil in Ha|done..]).
    exists e1, ([], i1). do 2 (split; [done|]). split; [by eapply iter_ok_right|]. split; [done|].
    split; [intros x; apply shown_right; [done|apply not_elem_of_nil|done]|]. split; [|simpl; lia].
    intros x. apply shown_above; [by eapply iter_ok_right|intros ? []%elem_of_nil|by rewrite Hk].
  - pose proof Hok as (H0 & _ & _). apply (sorted_cons_inv sle_key) in H0 as [_ H0].
    exists e0, (i0, []). do 2 (split; [done|]). assert (iter_ok (i0, [])) as Hok'.
    { eapply iter_ok_left; [done|]. intros ? []%elem_of_nil. }
    split; [done|]. split; [by destruct i0|].
    split; [intros x; apply shown_left, not_elem_of_nil|]. split; [|simpl; lia].
    intros x. apply shown_above; [done..|intros ? []%elem_of_nil].
  - destruct (advance_spec e0 i0 k a e1 i1 Hok Hsk) as (e & Hd & Hok' & Hsh & Hab & Hlen).
    set (i' := if _ =? _ then _ else _) in *.
    destruct (skip_spec i'.1 i'.2) as (i2 & Hskip & Hok2 & Hsk2 & Hsh2 & Hlen2); [by destruct i'|].
    exists e, i2. split; [done|]. split; [done|]. do 2 (split; [done|]).
    assert (∀ x, shown i2 x ↔ shown i' x) as Hs by (intros x; rewrite Hsh2; by destruct i').
    split; [intros x; by rewrite Hsh, Hs|]. split; [|lia]. intros x. rewrite Hs. apply Hab.
Qed.

Lemma walk_spec fuel i :
  iter_ok i → skipped i → (length i.1 + length i.2 ≤ fuel)%nat →
  ∃ l, walk fuel i = Some l ∧ StronglySorted Z.lt (sle_key <$> l) ∧ ∀ x, x ∈ l ↔ shown i x.
Proof.
  revert i. induction fuel as [|fuel IH]; intros i Hok Hsk Hlen.
  - destruct i as [[|] [|]]; simpl in Hlen; try lia. exists []. split; [done|]. split; [constructor|].
    intros x. split; [intros []%elem_of_nil|].
    intros [[[]%elem_of_nil _]|(? & ? & []%elem_of_nil & _)].
  - destruct (at_end i) eqn:E.
    + destruct i as [[|] [|]]; try done. exists []. split; [done|]. split; [constructor|].
      intros x. split; [intros []%elem_of_nil|].
      intros [[[]%elem_of_nil _]|(? & ? & []%elem_of_nil & _)].
    + destruct (step_spec i Hok Hsk E) as (e & i' & Hd & Hi & Hok' & Hsk' & Hsh & Hab & Hl).
      destruct (IH i' Hok' Hsk') as (l & Hw & Hs & Hin); [lia|].
      exists (e :: l). cbn [walk]. rewrite E, Hd, Hi, Hw. split; [done|]. split.
      * rewrite fmap_cons. constructor; [done|]. apply Forall_fmap, Forall_forall. intros x Hx.
        apply Hab, Hin, Hx.
      * intros x. by rewrite elem_of_cons, Hin, Hsh.
Qed.

Lemma sles_upper_bound_sorted key (l : list (SLE D)) :
  StronglySorted Z.lt (sle_key <$> l) → StronglySorted Z.lt (sle_key <$> sles_upper_bound key l).
Proof.
  induction l as [|e l IH]; [done|]. intros Hs. cbn [sles_upper_bound]. case_if; [|done].
  apply IH. by apply (sorted_cons_inv sle_key) in Hs as [? _].
Qed.

Lemma elem_of_sles_upper_bound key (l : list (SLE D)) x :
  StronglySorted Z.lt (sle_key <$> l) → x ∈ sles_upper_bound key l ↔ x ∈ l ∧ key < sle_key x.
Proof.
  induction l as [|e l IH]; intros Hs; cbn [sles_upper_bound].
  - split; [intros []%elem_of_nil|intros [[]%elem_of_nil _]].
  - apply (sorted_cons_inv sle_key) in Hs as [Hs Hgt]. rewrite elem_of_cons. case_if; zb.
    + rewrite IH by done. split; [naive_solver|]. intros [[->|?] ?]; [lia|done].
    + rewrite elem_of_cons. split; [|naive_solver]. intros Hx. split; [done|].
      destruct Hx as [->|Hx]; [done|]. enough (sle_key e < sle_key x) by lia.
      apply Hgt, list_elem_of_fmap. by exists x.
Qed.

(** The iterators start at rests that fit each other. *)
Lemma start_ok s base m (P : Z → Prop) i0 i1 :
  Represents base m → fits s m →
  StronglySorted Z.lt (sle_key <$> i0) → StronglySorted Z.lt i1.*1 →
  (∀ x, x ∈ i0 ↔ x ∈ rv_sles base ∧ P (sle_key x)) →
  (∀ k a e, (k, (a, e)) ∈ i1 ↔ items_ s !! k = Some (a, e) ∧ P k) →
  iter_ok (i0, i1) ∧ ∀ x, shown (i0, i1) x ↔ overlay s m !! sle_key x = Some x ∧ P (sle_key x).
Proof.
  intros Hrep Hf Hs0 Hs1 H0 H1. destruct (rep_sles _ _ Hrep) as [_ Hsles].
  assert (∀ k, k ∈ sle_key <$> i0 ↔ is_Some (m !! k) ∧ P k) as Hkeys.
  { intros k. rewrite list_elem_of_fmap. split.
    - intros (x & -> & [Hx ?]%H0). apply Hsles in Hx. by rewrite Hx.
    - intros [[e He] HP]. destruct (rep_keyed _ _ Hrep k e He) as [<- _]. exists e. split; [done|].
      apply H0. by rewrite Hsles. }
  split.
  - split_and!; [done..|]. intros k a e [Hi HP]%H1. destruct (Hf k _ Hi) as [[Hk _] Ha]. simpl in *.
    split; [done|]. destruct a; rewrite Hkeys; [done| |done]. rewrite Ha. by intros [[? [=]] _].
  - intros x. rewrite lookup_overlay. unfold shown. cbn [fst snd]. rewrite H0, Hsles. split.
    + intros [[[Hx HP] Hn]|(k & a & [Hi HP]%H1 & Ha)].
      * destruct (items_ s !! sle_key x) as [[a e]|] eqn:E; [|done]. destruct Hn.
        eapply in_fst. by apply H1.
      * destruct (Hf k _ Hi) as [[<- _] _]. simpl in *. rewrite Hi. by destruct a.
    + intros [Hx HP]. destruct (items_ s !! sle_key x) as [[a e]|] eqn:E.
      * right. exists (sle_key x), a. rewrite H1.
        destruct a; simpl in Hx; [done|injection Hx as ->..]; by rewrite E.
      * left. split; [done|]. intros ([k [a e]] & Hkx & [Hi _]%H1)%list_elem_of_fmap.
        simpl in Hkx. congruence.
Qed.

Lemma make_iter_walk i0 i1 :
  iter_ok (i0, i1) →
  ∃ l, walk_all (make_iter i1 i0) = Some l ∧ StronglySorted Z.lt (sle_key <$> l) ∧
    ∀ x, x ∈ l ↔ shown (i0, i1) x.
Proof.
  intros Hok. unfold make_iter. destruct i1 as [|y i1].
  - apply walk_spec; [done|by destruct i0|done].
  - destruct (skip_spec i0 (y :: i1) Hok) as (i' & Hs & Hok' & Hsk & Hsh & Hlen).
    unfold skip. cbn [fst snd]. rewrite Hs.
    destruct (walk_spec (length i'.1 + length i'.2) i' Hok' Hsk) as (l & Hw & ? & Hin); [done|].
    exists l. split_and!; [done..|]. intros x. by rewrite Hin, Hsh.
Qed.

Lemma sles_spec s base m :
  Represents base m → fits s m →
  ∃ l, walk_all (slesBegin s base) = Some l ∧ is_sles (overlay s m) l.
Proof.
  intros Hrep Hf. destruct (start_ok s base m (λ _, True) (rv_sles base) (sorted_list (items_ s)))
    as [Hok Hsh]; [done..|apply Hrep|apply sorted_list_sorted|naive_solver| |].
  { intros k a e. rewrite elem_of_sorted_list. naive_solver. }
  destruct (make_iter_walk _ _ Hok) as (l & Hw & Hs & Hin). exists l. split; [done|].
  split; [done|]. intros x. rewrite Hin, Hsh. naive_solver.
Qed.

Lemma slesUpperBound_spec s base m key :
  Represents base m → fits s m →
  ∃ l, walk_all (slesUpperBound s base key) = Some l ∧
    is_sles (filter (λ kv, key < kv.1) (overlay s m)) l.
Proof.
  intros Hrep Hf. destruct (start_ok s base m (λ k, key < k) (sles_upper_bound key (rv_sles base))
    (upper_bound key (sorted_list (items_ s)))) as [Hok Hsh]; [done..| | | | |].
  - apply sles_upper_bound_sorted, Hrep.
  - apply upper_bound_sorted, sorted_list_sorted.
  - intros x. apply elem_of_sles_upper_bound, Hrep.
  - intros k a e. rewrite elem_of_upper_bound by apply sorted_list_sorted.
    by rewrite elem_of_sorted_list.
  - destruct (make_iter_walk _ _ Hok) as (l & Hw & Hs & Hin). exists l. split; [done|].
    split; [done|]. intros x. by rewrite Hin, Hsh, map_lookup_filter_Some.
Qed.

(** ** Reading *)

Lemma exists_spec s base m k :
  Represents base m → is_uint256 (k_key k) → well_typed (overlay s m) k →
  exists_ s base k = bool_decide (is_Some (overlay s m !! k_key k)).
Proof.
  intros Hrep Hu Ht. unfold exists_, well_typed in *. rewrite lookup_overlay in *.
  destruct (items_ s !! k_key k) as [[a e]|]; [|by apply (rep_exists _ _ Hrep)].
  destruct a; simpl in *; [done|by rewrite (Ht e eq_refl)..].
Qed.

Lemma read_spec s base m k :
  Represents base m → is_uint256 (k_key k) → read s base k = lookup_typed (overlay s m) k.
Proof.
  intros Hrep Hu. unfold read, lookup_typed. rewrite lookup_overlay.
  destruct (items_ s !! k_key k) as [[[] e]|]; simpl; [done|by destruct (check k e)..|].
  by rewrite (rep_read _ _ Hrep _ Hu).
Qed.

(** ** Applying *)

Section apply_spec.
Context {S : Type} `{R : !RawView D S} {adm : SLE D → Prop} {ok : S → Prop}
  {entries : S → gmap Z (SLE D)} {destroyed : S → Z} `{RL : !RawViewLaws R adm ok entries destroyed}.

Lemma apply_item_spec to k a e :
  ok to → sle_key e = k ∧ adm e →
  match a with insert_ => entries to !! k = None | _ => is_Some (entries to !! k) end →
  ∃ to', apply_item (Ok to) (k, (a, e)) = Ok to' ∧ ok to' ∧ destroyed to' = destroyed to ∧
    ∀ i, entries to' !! i = if decide (i = k) then effect (Some (a, e)) None else entries to !! i.
Proof.
  intros Hok [<- Hu] Ha. unfold apply_item. rewrite ok_bind.
  destruct a; [destruct (rawErase_ok e to Hok Hu Ha) as (to' & ? & ? & ? & He)
    |destruct (rawInsert_ok e to Hok Hu Ha) as (to' & ? & ? & ? & He)
    |destruct (rawReplace_ok e to Hok Hu Ha) as (to' & ? & ? & ? & He)];
    exists to'; (split_and!; [done..|]); intros i; rewrite He, ?lookup_delete, ?lookup_insert;
    case_decide; simplify_eq; by case_decide.
Qed.

Lemma apply_items_spec l to :
  NoDup l.*1 → ok to →
  (∀ k a e, (k, (a, e)) ∈ l → (sle_key e = k ∧ adm e) ∧
     match a with insert_ => entries to !! k = None | _ => is_Some (entries to !! k) end) →
  ∃ to', foldl apply_item (Ok to) l = Ok to' ∧ ok to' ∧ destroyed to' = destroyed to ∧
    ∀ i, entries to' !! i = effect ((list_to_map l : gmap Z _) !! i) (entries to !! i).
Proof.
  revert to. induction l as [|[k [a e]] l IH]; intros to Hnd Hok Hl.
  { exists to. split_and!; [done..|]. intros i. by rewrite list_to_map_nil, lookup_empty. }
  cbn [fmap list_fmap fst] in Hnd. apply NoDup_cons in Hnd as [Hnin Hnd].
  destruct (Hl k a e) as [Hk Ha]; [left|].
  destruct (apply_item_spec to k a e Hok Hk Ha) as (to1 & E1 & Hok1 & Hd1 & He1).
  destruct (IH to1 Hnd Hok1) as (to2 & E2 & Hok2 & Hd2 & He2).
  { intros k' a' e' Hin. destruct (Hl k' a' e') as [? Ha']; [by right|]. split; [done|].
    rewrite !He1. case_decide as Hi; [|done]. destruct Hnin. rewrite <- Hi. by eapply in_fst. }
  exists to2. cbn [foldl]. rewrite E1. split_and!; [done..|congruence|].
  intros i. rewrite He2, He1. rewrite list_to_map_cons, lookup_insert.
  case_decide as Hi; [subst|by case_decide]. rewrite not_elem_of_list_to_map_1 by done.
  by case_decide.
Qed.

Lemma list_to_map_sorted_list (m : gmap Z (Action * SLE D)) : list_to_map (sorted_list m) = m.
Proof.
  apply map_eq. intros k. apply option_eq. intros x.
  rewrite <- elem_of_list_to_map, elem_of_sorted_list; [done|].
  apply sorted_NoDup, sorted_list_sorted.
Qed.

Lemma apply_spec s to :
  ok to → fits s (entries to) → (∀ k a e, items_ s !! k = Some (a, e) → adm e) →
  ∃ to', apply s to = Ok to' ∧ ok to' ∧ entries to' = overlay s (entries to) ∧
    destroyed to' = s64 (destroyed to + dropsDestroyed_ s).
Proof.
  intros Hok Hf Ha. unfold apply.
  destruct (rawDestroyCSC_ok (dropsDestroyed_ s) to Hok) as (to1 & -> & Hok1 & Hd1 & He1).
  destruct (apply_items_spec (sorted_list (items_ s)) to1) as (to2 & E2 & ? & Hd2 & He2); [|done|..].
  - apply sorted_NoDup, sorted_list_sorted.
  - intros k a e Hin%elem_of_sorted_list. rewrite He1. destruct (Hf k _ Hin) as [[? _] ?].
    split; [split; [done|by eapply Ha]|done].
  - exists to2. split_and!; [done..| |congruence]. apply map_eq. intros k.
    by rewrite He2, lookup_overlay, list_to_map_sorted_list, He1.
Qed.
End apply_spec.

End table.
Arguments t : clear implicits.
End RawStateTable.
