(* ===== verification/ApplyStateTable.v ===== *)
(** * ApplyStateTable: the changes of a transaction

    Models [ledger/detail/ApplyStateTable.h] and [ledger/impl/ApplyStateTable.cpp] with
    [ledger/detail/ApplyViewBase.h] and [ledger/Sandbox.h].  A transaction peeks at entries
    of a view, changes them in place through the shared pointers it gets, tells the view
    which it has updated, inserts and erases, and the view is then applied to the one below.
    The entries behind the pointers are a heap, which the transaction can write; the table
    holds pointers.  Building the metadata of a transaction is left out. *)

From stdpp Require Import sorting.
From S2P Require Import Prelude ReadView RawStateTable.
From coqutil Require Export Datatypes.RecordSettersUsingExistingGetters.

Module ApplyStateTable.

Inductive Action := cache_ | erase_ | insert_ | modify_.

#[global] Instance Action_eq_dec : EqDecision Action.
Proof. solve_decision. Defined.

(** A shared pointer to an entry *)
Abbreviation pointer := nat.

Section table.
Context {D : Type}.
Implicit Types (e sle : SLE D) (base : ReadView D) (m : gmap Z (SLE D)) (p : pointer) (k : Keylet).

Abbreviation heap := (list (SLE D)).
Implicit Types h : heap.

Record t := mk {
  items_ : gmap Z (Action * pointer);
  dropsDestroyed_ : Z
}.
Implicit Types s : t.

Definition empty : t := mk ∅ 0.

Definition is_erase (a : Action) : bool := match a with erase_ => true | _ => false end.

(** [std::make_shared<SLE>] *)
Definition make_shared sle h : heap * pointer := (h ++ [sle], length h).

(** ** Reading *)

(** The end of [exists], [read] and [peek] for a pointer of the table *)
Definition checked k h p : option (SLE D) :=
  sle ← h !! p; if negb (check k sle) then None else Some sle.

Definition exists_ h s base k : bool :=
  match items_ s !! k_key k with
  | None => rv_exists base k
  | Some (erase_, _) => false
  | Some (_, p) => bool_decide (is_Some (checked k h p))
  end.

(** The loop of [succ] over the base *)
Fixpoint base_succ (fuel : nat) (s : t) (base : ReadView D) (key : Z) (last : option Z) : option Z :=
  match fuel with
  | O => None
  | S fuel =>
      match rv_succ base key last with
      | None => None
      | Some next =>
          match items_ s !! next with
          | Some (erase_, _) => base_succ fuel s base next last
          | _ => Some next
          end
      end
  end.

(** The loop of [succ] over our list *)
Fixpoint first_live (l : list (Z * (Action * pointer))) : option Z :=
  match l with
  | [] => None
  | (k, (a, _)) :: l => if is_erase a then first_live l else Some k
  end.

Definition succ s base (key : Z) (last : option Z) : option Z :=
  let next := base_succ (S (size (items_ s))) s base key last in
  let next :=
    match first_live (upper_bound key (sorted_list (items_ s))), next with
    | Some k, None => Some k
    | Some k, Some n => if n >? k then Some k else Some n
    | None, next => next
    end in
  match next, last with
  | Some n, Some l => if n >=? l then None else Some n
  | next, _ => next
  end.

Definition read h s base k : option (SLE D) :=
  match items_ s !! k_key k with
  | None => rv_read base k
  | Some (erase_, _) => None
  | Some (_, p) => checked k h p
  end.

(** The pointer to the entry of the transaction, with a copy of an entry of the base *)
Definition peek h s base k : option pointer * heap * t :=
  match items_ s !! k_key k with
  | None =>
      match rv_read base k with
      | None => (None, h, s)
      | Some sle =>
          let '(h, p) := make_shared sle h in
          (Some p, h, s<|items_ ::= <[sle_key sle := (cache_, p)]>|>)
      end
  | Some (erase_, _) => (None, h, s)
  | Some (_, p) => ((λ _, p) <$> checked k h p, h, s)
  end.

(** ** Modifications

    [deref] is the entry a pointer of the caller points to. *)

Definition deref {A} h p (f : SLE D → result A) : result A :=
  match h !! p with
  | None => Throw (undefined_behaviour "dangling pointer")
  | Some sle => f sle
  end.

Definition erase h p s : result t :=
  deref h p (λ sle,
    match items_ s !! sle_key sle with
    | None => Throw (logic_error "ApplyStateTable::erase: missing key")
    | Some (a, q) =>
        if negb (q =? p)%nat then Throw (logic_error "ApplyStateTable::erase: unknown SLE")
        else
          match a with
          | erase_ => Throw (logic_error "ApplyStateTable::erase: double erase")
          | insert_ => Ok (s<|items_ ::= delete (sle_key sle)|>)
          | cache_ | modify_ => Ok (s<|items_ ::= <[sle_key sle := (erase_, q)]>|>)
          end
    end).

Definition rawErase h p s : result t :=
  deref h p (λ sle,
    match items_ s !! sle_key sle with
    | None => Ok (s<|items_ ::= <[sle_key sle := (erase_, p)]>|>)
    | Some (erase_, _) => Throw (logic_error "ApplyStateTable::rawErase: double erase")
    | Some (insert_, _) => Ok (s<|items_ ::= delete (sle_key sle)|>)
    | Some (_, _) => Ok (s<|items_ ::= <[sle_key sle := (erase_, p)]>|>)
    end).

Definition insert h p s : result t :=
  deref h p (λ sle,
    match items_ s !! sle_key sle with
    | None => Ok (s<|items_ ::= <[sle_key sle := (insert_, p)]>|>)
    | Some (cache_, _) => Throw (logic_error "ApplyStateTable::insert: already cached")
    | Some (insert_, _) => Throw (logic_error "ApplyStateTable::insert: already inserted")
    | Some (modify_, _) => Throw (logic_error "ApplyStateTable::insert: already modified")
    | Some (erase_, _) => Ok (s<|items_ ::= <[sle_key sle := (modify_, p)]>|>)
    end).

Definition replace h p s : result t :=
  deref h p (λ sle,
    match items_ s !! sle_key sle with
    | None => Ok (s<|items_ ::= <[sle_key sle := (modify_, p)]>|>)
    | Some (erase_, _) => Throw (logic_error "ApplyStateTable::replace: already erased")
    | Some (cache_, _) => Ok (s<|items_ ::= <[sle_key sle := (modify_, p)]>|>)
    | Some (a, _) => Ok (s<|items_ ::= <[sle_key sle := (a, p)]>|>)
    end).

Definition update h p s : result t :=
  deref h p (λ sle,
    match items_ s !! sle_key sle with
    | None => Throw (logic_error "ApplyStateTable::update: missing key")
    | Some (a, q) =>
        if negb (q =? p)%nat then Throw (logic_error "ApplyStateTable::update: unknown SLE")
        else
          match a with
          | erase_ => Throw (logic_error "ApplyStateTable::update: erased")
          | cache_ => Ok (s<|items_ ::= <[sle_key sle := (modify_, q)]>|>)
          | insert_ | modify_ => Ok s
          end
    end).

Definition destroyCSC (fee : Z) s : t := s<|dropsDestroyed_ ::= (λ d, s64 (d + fee))|>.

(** The number of changes *)
Definition size_ s : Z :=
  Z.of_nat (length (filter (λ x, x.2.1 ≠ cache_) (sorted_list (items_ s)))).

(** ** Applying the table *)

Section apply.
Context {S : Type} `{R : !RawView D S}.

Definition apply_item h (to : result S) (item : Z * (Action * pointer)) : result S :=
  to ← to;
  let '(_, (a, p)) := item in
  match a with
  | cache_ => Ok to
  | erase_ => deref h p (λ sle, ReadView.rawErase sle to)
  | insert_ => deref h p (λ sle, ReadView.rawInsert sle to)
  | modify_ => deref h p (λ sle, ReadView.rawReplace sle to)
  end.

Definition apply h s (to : S) : result S :=
  foldl (apply_item h) (rawDestroyCSC (dropsDestroyed_ s) to) (sorted_list (items_ s)).
End apply.

(** ** The table as a table of values *)

Definition raw (a : Action) : RawStateTable.Action :=
  match a with
  | erase_ => RawStateTable.erase_
  | insert_ => RawStateTable.insert_
  | cache_ | modify_ => RawStateTable.replace_
  end.

Definition raw_item h (x : Action * pointer) : option (RawStateTable.Action * SLE D) :=
  pair (raw x.1) <$> h !! x.2.

(** What the table shows: with the entries the pointers point to now *)
Definition as_raw h s : RawStateTable.t D := RawStateTable.mk (omap (raw_item h) (items_ s)) (dropsDestroyed_ s).

Definition overlay h s m : gmap Z (SLE D) := RawStateTable.overlay (as_raw h s) m.

(** The pointers point to entries with the keys they are filed under; the actions fit the
    map below. *)
Definition good h s m : Prop :=
  map_Forall (λ (k : Z) x, ∃ e, h !! x.2 = Some e ∧ (sle_key e = k ∧ is_uint256 k) ∧
    match x.1 with insert_ => m !! k = None | _ => is_Some (m !! k) end) (items_ s).

Lemma lookup_as_raw h s (k : Z) :
  RawStateTable.items_ (as_raw h s) !! k = items_ s !! k ≫= raw_item h.
Proof. unfold as_raw. cbn [RawStateTable.items_]. by rewrite lookup_omap. Qed.

Lemma good_item h s m (k : Z) a p :
  good h s m → items_ s !! k = Some (a, p) →
  ∃ e, h !! p = Some e ∧ sle_key e = k ∧ is_uint256 k ∧
    RawStateTable.items_ (as_raw h s) !! k = Some (raw a, e) ∧
    match a with insert_ => m !! k = None | _ => is_Some (m !! k) end.
Proof.
  intros Hg Hk. destruct (Hg k _ Hk) as (e & He & [Hke Hu] & Hm). exists e. cbn [fst snd] in *.
  split_and!; [done..| |done]. rewrite lookup_as_raw, Hk. cbn. unfold raw_item. cbn. by rewrite He.
Qed.

Lemma good_fits h s m : good h s m → RawStateTable.fits (as_raw h s) m.
Proof.
  intros Hg k [a e]. rewrite lookup_as_raw. destruct (items_ s !! k) as [[b p]|] eqn:E; [|done]. cbn. intros H.
  destruct (good_item h s m k b p Hg E) as (e' & He & Hke & Hu & _ & Hm). unfold raw_item in H. cbn in H. rewrite He in H.
  injection H as <- <-. cbn [fst snd]. split; [done|]. by destruct b.
Qed.

Lemma table_lookup h s m (k : Z) :
  good h s m →
  overlay h s m !! k = match items_ s !! k with
    | None => m !! k
    | Some (erase_, _) => None
    | Some (_, p) => h !! p
    end.
Proof.
  intros Hg. unfold overlay. rewrite RawStateTable.lookup_overlay. destruct (items_ s !! k) as [[a p]|] eqn:E.
  - destruct (good_item h s m k a p Hg E) as (e & He & _ & _ & -> & _). rewrite He. by destruct a.
  - by rewrite lookup_as_raw, E.
Qed.

(** ** Reading *)

Lemma read_raw h s m base k : good h s m → read h s base k = RawStateTable.read (as_raw h s) base k.
Proof.
  intros Hg. unfold read, RawStateTable.read. rewrite lookup_as_raw.
  destruct (items_ s !! k_key k) as [[a p]|] eqn:E; [|done]. destruct (good_item h s m _ a p Hg E) as (e & He & _).
  cbn. unfold raw_item, checked. cbn. rewrite He. by destruct a.
Qed.

Lemma exists_raw h s m base k : good h s m → exists_ h s base k = RawStateTable.exists_ (as_raw h s) base k.
Proof.
  intros Hg. unfold exists_, RawStateTable.exists_. rewrite lookup_as_raw.
  destruct (items_ s !! k_key k) as [[a p]|] eqn:E; [|done]. destruct (good_item h s m _ a p Hg E) as (e & He & _).
  cbn. unfold raw_item, checked. cbn. rewrite He. destruct a; cbn; by destruct (check k e).
Qed.

Lemma base_succ_raw h s m fuel base key last :
  good h s m → base_succ fuel s base key last = RawStateTable.base_succ fuel (as_raw h s) base key last.
Proof.
  intros Hg. revert key. induction fuel as [|fuel IH]; intros key; [done|]. cbn [base_succ RawStateTable.base_succ].
  destruct (rv_succ base key last) as [n|]; [|done]. rewrite lookup_as_raw.
  destruct (items_ s !! n) as [[a p]|] eqn:E; [|done]. destruct (good_item h s m _ a p Hg E) as (e & He & _).
  cbn. unfold raw_item. cbn. rewrite He. destruct a; cbn; [done|apply IH|done..].
Qed.

Lemma first_live_raw h key l :
  (∀ (k : Z) a p, (k, (a, p)) ∈ l → is_Some (h !! p)) →
  first_live (upper_bound key l) =
  RawStateTable.first_live (upper_bound key (omap (λ x, pair x.1 <$> raw_item h x.2) l)).
Proof.
  assert (∀ l, (∀ (k : Z) a p, (k, (a, p)) ∈ l → is_Some (h !! p)) →
    first_live l = RawStateTable.first_live (omap (λ x, pair x.1 <$> raw_item h x.2) l)) as Hf.
  { clear l. induction l as [|[k [a p]] l IH]; intros Hl; [done|]. destruct (Hl k a p) as [e He]; [left|].
    cbn [first_live omap list_omap]. unfold raw_item at 1. cbn [fst snd]. rewrite He. cbn.
    rewrite <- IH by (intros; eapply Hl; by right). by destruct a. }
  induction l as [|[k [a p]] l IH]; intros Hl; [done|]. destruct (Hl k a p) as [e He]; [left|].
  cbn [upper_bound omap list_omap]. unfold raw_item at 1. cbn [fst snd]. rewrite He. cbn.
  destruct (k <=? key); [apply IH; intros; eapply Hl; by right|]. rewrite (Hf ((k, (a, p)) :: l)) by done.
  cbn [omap list_omap]. unfold raw_item at 1. cbn [fst snd]. by rewrite He.
Qed.

Lemma succ_raw h s m base key last : good h s m → succ s base key last = RawStateTable.succ (as_raw h s) base key last.
Proof.
  intros Hg. unfold succ, RawStateTable.succ. rewrite (base_succ_raw h s m) by done.
  assert (size (RawStateTable.items_ (as_raw h s)) = size (items_ s)) as ->.
  { rewrite <- !(size_dom (D := gset Z)). f_equal. apply set_eq. intros k. rewrite !elem_of_dom, lookup_as_raw.
    destruct (items_ s !! k) as [[a p]|] eqn:E; [|by split; intros [? ?]].
    destruct (good_item h s m _ a p Hg E) as (e & He & _). cbn. unfold raw_item. cbn. rewrite He. split; by eexists. }
  change (RawStateTable.items_ (as_raw h s)) with (omap (raw_item h) (items_ s)).
  rewrite sorted_list_omap, <- first_live_raw; [done|].
  intros k a p Hin%elem_of_sorted_list. destruct (good_item h s m _ a p Hg Hin) as (e & He & _). by exists e.
Qed.

(** ** Peeking *)

(** The pointers of the transaction: what they point to is shown. *)
Definition live s p (key : Z) : Prop := ∃ a, items_ s !! key = Some (a, p) ∧ is_erase a = false.

(** Entries that were only looked at are as in the map below. *)
Definition clean h s m : Prop := ∀ (k : Z) p, items_ s !! k = Some (cache_, p) → h !! p = m !! k.

Lemma good_grow h s m e : good h s m → good (h ++ [e]) s m ∧ overlay (h ++ [e]) s m = overlay h s m.
Proof.
  intros Hg. assert (good (h ++ [e]) s m) as Hg'.
  { eapply map_Forall_impl; [exact Hg|]. intros k x (y & Hy & H). exists y. split; [|done].
    by apply lookup_app_l_Some. }
  split; [done|]. apply map_eq. intros k. rewrite !table_lookup by done.
  destruct (items_ s !! k) as [[a p]|] eqn:E; [|done]. destruct (good_item h s m k a p Hg E) as (y & Hy & _).
  rewrite Hy, (lookup_app_l_Some _ _ _ _ Hy). done.
Qed.

Lemma clean_grow h s m e : good h s m → clean h s m → clean (h ++ [e]) s m.
Proof.
  intros Hg Hc k p Hk. rewrite <- (Hc k p Hk). destruct (good_item h s m k cache_ p Hg Hk) as (y & Hy & _).
  by rewrite Hy, (lookup_app_l_Some _ _ _ _ Hy).
Qed.

(** Filing a pointer under the key of its entry *)
Lemma file_good h s m a p e :
  good h s m → h !! p = Some e → is_uint256 (sle_key e) →
  match a with insert_ => m !! sle_key e = None | _ => is_Some (m !! sle_key e) end →
  let s' := s<|items_ ::= <[sle_key e := (a, p)]>|> in
  good h s' m ∧
  overlay h s' m = (if is_erase a then delete (sle_key e) (overlay h s m) else <[sle_key e := e]> (overlay h s m)).
Proof.
  intros Hg He Hu Hm s'. assert (good h s' m) as Hg'.
  { apply map_Forall_insert_2; [|exact Hg]. exists e. cbn [fst snd]. done. }
  split; [done|]. apply map_eq. intros k. rewrite table_lookup by done. subst s'. cbn [items_ set].
  destruct (decide (sle_key e = k)) as [<-|Hne].
  - rewrite lookup_insert_eq. destruct a; cbn [is_erase]; by rewrite ?lookup_delete_eq, ?lookup_insert_eq.
  - rewrite lookup_insert_ne by done. rewrite <- table_lookup by done.
    destruct a; cbn [is_erase]; by rewrite ?lookup_delete_ne, ?lookup_insert_ne by done.
Qed.

(** The table and the heap show [mo] over [m]. *)
Definition shows h s m mo : Prop := good h s m ∧ overlay h s m = mo.

Lemma shows_lookup h s m mo (k : Z) :
  shows h s m mo →
  mo !! k = match items_ s !! k with None => m !! k | Some (erase_, _) => None | Some (_, p) => h !! p end.
Proof. intros [Hg <-]. by apply table_lookup. Qed.

Lemma live_entry h s m mo p key :
  shows h s m mo → live s p key → ∃ a e, items_ s !! key = Some (a, p) ∧ is_erase a = false ∧
    h !! p = Some e ∧ sle_key e = key ∧ is_uint256 key ∧ mo !! key = Some e.
Proof.
  intros Hs (a & Hk & Ha). destruct (good_item h s m key a p (proj1 Hs) Hk) as (e & He & Hke & Hu & _).
  exists a, e. split_and!; [done..|]. rewrite (shows_lookup h s m mo key Hs), Hk. by destruct a.
Qed.

Lemma lookup_typed_check m (k : Keylet) e : m !! k_key k = Some e → lookup_typed m k = if check k e then Some e else None.
Proof. unfold lookup_typed. by intros ->. Qed.

Lemma peek_cached h s m mo (k : Keylet) a p :
  shows h s m mo → items_ s !! k_key k = Some (a, p) → is_erase a = false →
  match (λ _, p) <$> checked k h p with
  | None => lookup_typed mo k = None
  | Some p => live s p (k_key k) ∧ h !! p = lookup_typed mo k
  end.
Proof.
  intros Hs E Ha. destruct (live_entry h s m mo p (k_key k) Hs) as (_ & e & _ & _ & He & _ & _ & Hmo); [by exists a|].
  unfold checked. rewrite (lookup_typed_check _ _ _ Hmo), He. cbn. destruct (check k e); cbn; [|done]. split; [by exists a|done].
Qed.

Lemma table_peek_ok h s m mo base k :
  Represents base m → shows h s m mo → is_uint256 (k_key k) →
  let '(r, h', s') := peek h s base k in
  shows h' s' m mo ∧ (clean h s m → clean h' s' m) ∧
  match r with
  | None => lookup_typed mo k = None
  | Some p => live s' p (k_key k) ∧ h' !! p = lookup_typed mo k
  end.
Proof.
  intros Hrep Hs Hu. pose proof (shows_lookup h s m mo (k_key k) Hs) as Hl. unfold peek.
  destruct (items_ s !! k_key k) as [[a p]|] eqn:E.
  - destruct a; (split; [done|]; split; [done|]); [by eapply peek_cached| |by eapply peek_cached..].
    unfold lookup_typed. by rewrite Hl.
  - rewrite (rep_read _ _ Hrep _ Hu). assert (lookup_typed mo k = lookup_typed m k) as -> by (unfold lookup_typed; by rewrite Hl).
    destruct (m !! k_key k) as [e|] eqn:Hm; [|unfold lookup_typed; by rewrite Hm].
    rewrite (lookup_typed_check _ _ _ Hm). destruct (check k e); [|done]. cbn [make_shared].
    destruct (rep_keyed _ _ Hrep _ _ Hm) as [Hke _]. destruct Hs as [Hg Ho].
    destruct (good_grow h s m e Hg) as [Hg1 Ho1].
    destruct (file_good (h ++ [e]) s m cache_ (length h) e Hg1) as [Hg2 Ho2]; [by apply list_lookup_middle|by rewrite Hke|by rewrite Hke; eexists|].
    split; [split; [exact Hg2|]|split].
    + rewrite Ho2, Ho1, Ho. cbn [is_erase]. apply insert_id. by rewrite Hke, Hl.
    + intros Hc j q. cbn [items_ set]. rewrite lookup_insert. case_decide as Hj; [|by apply clean_grow].
      intros [= <-]. rewrite <- Hj, Hke, Hm. by apply list_lookup_middle.
    + split; [|by apply list_lookup_middle]. exists cache_. cbn [items_ set]. by rewrite Hke, lookup_insert_eq.
Qed.

(** ** Writing *)

Lemma table_write_ok h s m mo p key e :
  shows h s m mo → live s p key → sle_key e = key → shows (<[p := e]> h) s m (<[key := e]> mo).
Proof.
  intros Hs Hp He. pose proof Hs as [Hg _]. destruct (live_entry h s m mo p key Hs Hp) as (a & e0 & Hk & Ha & He0 & Hke & Hu & _).
  pose proof (lookup_lt_Some _ _ _ He0) as Hlt.
  assert (∀ (j : Z) b q, items_ s !! j = Some (b, q) → q = p ↔ j = key) as Hpk.
  { intros j b q Hj. split; [|intros ->; congruence]. intros ->.
    destruct (good_item h s m j b p Hg Hj) as (x & Hx & <- & _). congruence. }
  assert (good (<[p := e]> h) s m) as Hg'.
  { intros j [b q] Hj. destruct (Hg j _ Hj) as (x & Hx & [Hkx Hux] & Hm). cbn [fst snd] in *.
    destruct (decide (j = key)) as [->|Hne].
    - assert (q = p) as -> by by apply (Hpk key b q Hj). exists e. rewrite list_lookup_insert_eq by done. done.
    - exists x. rewrite list_lookup_insert_ne by (intros ->; by apply Hne, (Hpk j b q Hj)). done. }
  split; [done|]. apply map_eq. intros j. rewrite table_lookup, lookup_insert by done. case_decide as Hj.
  - subst j. rewrite Hk, list_lookup_insert_eq by done. by destruct a.
  - rewrite (shows_lookup h s m mo j Hs). destruct (items_ s !! j) as [[b q]|] eqn:Ej; [|done].
    rewrite list_lookup_insert_ne by (intros ->; by apply Hj; symmetry; apply (Hpk j b q Ej)). done.
Qed.

Lemma refile h s m mo a b p key :
  shows h s m mo → items_ s !! key = Some (a, p) → is_erase a = false → a ≠ insert_ → is_erase b = false → b ≠ insert_ →
  shows h (s<|items_ ::= <[key := (b, p)]>|>) m mo.
Proof.
  intros Hs Hk Ha Ha' Hb Hb'. destruct (live_entry h s m mo p key Hs) as (_ & e & _ & _ & He & Hke & Hu & Hmo); [by exists a|].
  destruct (good_item h s m key a p (proj1 Hs) Hk) as (_ & _ & _ & _ & _ & Hm). subst key.
  destruct (file_good h s m b p e (proj1 Hs) He Hu) as [Hg Ho]; [by destruct a, b|]. split; [exact Hg|].
  rewrite Ho, Hb, (proj2 Hs). by apply insert_id.
Qed.

Lemma table_update_ok h s m mo p key :
  shows h s m mo → live s p key →
  ∃ s', update h p s = Ok s' ∧ shows h s' m mo ∧ live s' p key ∧
    ((∀ (k : Z) q, k ≠ key → items_ s !! k = Some (cache_, q) → h !! q = m !! k) → clean h s' m).
Proof.
  intros Hs Hp. destruct (live_entry h s m mo p key Hs Hp) as (a & e & Hk & Ha & He & Hke & _).
  unfold update, deref. rewrite He, Hke, Hk, Nat.eqb_refl. cbn [negb].
  destruct a; [|done|..].
  - eexists. split; [done|]. split; [by eapply refile|]. split; [exists modify_; cbn [items_ set]; by rewrite lookup_insert_eq|].
    intros Hc k q. cbn [items_ set]. rewrite lookup_insert. case_decide; [done|]. by apply Hc.
  - exists s. split_and!; [done..|]. intros Hc k q Hq. apply Hc; [|done]. intros ->. congruence.
  - exists s. split_and!; [done..|]. intros Hc k q Hq. apply Hc; [|done]. intros ->. congruence.
Qed.

Lemma table_insert_ok h s m mo p e :
  shows h s m mo → h !! p = Some e → is_uint256 (sle_key e) → mo !! sle_key e = None →
  ∃ s', insert h p s = Ok s' ∧ shows h s' m (<[sle_key e := e]> mo) ∧ live s' p (sle_key e) ∧ (clean h s m → clean h s' m).
Proof.
  intros Hs He Hu Hn. rewrite (shows_lookup h s m mo _ Hs) in Hn. unfold insert, deref. rewrite He.
  assert (∀ a, a ≠ cache_ → is_erase a = false →
    match a with insert_ => m !! sle_key e = None | _ => is_Some (m !! sle_key e) end →
    let s' := s<|items_ ::= <[sle_key e := (a, p)]>|> in
    shows h s' m (<[sle_key e := e]> mo) ∧ live s' p (sle_key e) ∧ (clean h s m → clean h s' m)) as Hf.
  { intros a Ha Hae Hm s'. destruct (file_good h s m a p e (proj1 Hs) He Hu Hm) as [Hg Ho]. split; [|split].
    - split; [exact Hg|]. subst s'. by rewrite Ho, Hae, (proj2 Hs).
    - exists a. subst s'. cbn [items_ set]. by rewrite lookup_insert_eq.
    - intros Hc k q. subst s'. cbn [items_ set]. rewrite lookup_insert. case_decide; [congruence|]. by apply Hc. }
  destruct (items_ s !! sle_key e) as [[a q]|] eqn:E.
  - destruct (good_item h s m _ a q (proj1 Hs) E) as (x & Hx & _ & _ & _ & Hm). destruct a; try congruence.
    eexists. split; [done|]. by apply Hf.
  - eexists. split; [done|]. by apply Hf.
Qed.

Lemma table_erase_known h s m mo p e (key : Z) :
  shows h s m mo → h !! p = Some e → sle_key e = key → is_uint256 key → is_Some (m !! key) →
  shows h (s<|items_ ::= <[key := (erase_, p)]>|>) m (delete key mo).
Proof.
  intros Hs He <- Hu Hm. destruct (file_good h s m erase_ p e (proj1 Hs) He Hu Hm) as [Hg Ho]. split; [exact Hg|].
  by rewrite Ho, (proj2 Hs).
Qed.

Lemma table_forget h s m mo p (key : Z) :
  shows h s m mo → items_ s !! key = Some (insert_, p) → shows h (s<|items_ ::= delete key|>) m (delete key mo).
Proof.
  intros Hs Hk. destruct (good_item h s m key insert_ p (proj1 Hs) Hk) as (_ & _ & _ & _ & _ & Hm).
  assert (good h (s<|items_ ::= delete key|>) m) as Hg by (apply map_Forall_delete, Hs).
  split; [done|]. apply map_eq. intros k. rewrite table_lookup by done. cbn [items_ set]. rewrite !lookup_delete.
  case_decide as Hne; [by subst|]. by rewrite (shows_lookup h s m mo k Hs).
Qed.

Lemma table_erase_ok h s m mo p key :
  shows h s m mo → live s p key →
  ∃ s', erase h p s = Ok s' ∧ shows h s' m (delete key mo) ∧
    ((∀ (k : Z) q, k ≠ key → items_ s !! k = Some (cache_, q) → h !! q = m !! k) → clean h s' m).
Proof.
  intros Hs Hp. destruct (live_entry h s m mo p key Hs Hp) as (a & e & Hk & Ha & He & Hke & Hu & _).
  destruct (good_item h s m key a p (proj1 Hs) Hk) as (_ & _ & _ & _ & _ & Hm).
  unfold erase, deref. rewrite He, Hke, Hk, Nat.eqb_refl. cbn [negb]. subst key.
  destruct a; [|done|..]; (eexists; split; [done|]); (split; [first [by eapply table_erase_known|by eapply table_forget]|]);
    intros Hc k q; cbn [items_ set]; rewrite ?lookup_insert, ?lookup_delete; case_decide; try done; by apply Hc.
Qed.

(** What a view above does when it is applied to this one: the entry comes with its own
    pointer, known to the table or not. *)
Lemma table_raw_erase_ok h s m mo p e :
  shows h s m mo → h !! p = Some e → is_uint256 (sle_key e) → is_Some (mo !! sle_key e) →
  ∃ s', rawErase h p s = Ok s' ∧ shows h s' m (delete (sle_key e) mo).
Proof.
  intros Hs He Hu Hn. rewrite (shows_lookup h s m mo _ Hs) in Hn. unfold rawErase, deref. rewrite He.
  destruct (items_ s !! sle_key e) as [[a q]|] eqn:E; [|eexists; split; [done|]; by eapply table_erase_known].
  destruct (good_item h s m _ a q (proj1 Hs) E) as (x & Hx & _ & _ & _ & Hm).
  destruct a; [|by destruct Hn|..]; (eexists; split; [done|]); [by eapply table_erase_known|by eapply table_forget|by eapply table_erase_known].
Qed.

Lemma table_replace_ok h s m mo p e :
  shows h s m mo → h !! p = Some e → is_uint256 (sle_key e) → is_Some (mo !! sle_key e) →
  ∃ s', replace h p s = Ok s' ∧ shows h s' m (<[sle_key e := e]> mo).
Proof.
  intros Hs He Hu Hn. rewrite (shows_lookup h s m mo _ Hs) in Hn. unfold replace, deref. rewrite He.
  assert (∀ a, is_erase a = false → match a with insert_ => m !! sle_key e = None | _ => is_Some (m !! sle_key e) end →
    shows h (s<|items_ ::= <[sle_key e := (a, p)]>|>) m (<[sle_key e := e]> mo)) as Hf.
  { intros a Ha Hm. destruct (file_good h s m a p e (proj1 Hs) He Hu Hm) as [Hg Ho]. split; [exact Hg|]. by rewrite Ho, Ha, (proj2 Hs). }
  destruct (items_ s !! sle_key e) as [[a q]|] eqn:E; [|eexists; split; [done|]; by apply Hf].
  destruct (good_item h s m _ a q (proj1 Hs) E) as (x & Hx & _ & _ & _ & Hm).
  destruct a; [|by destruct Hn|..]; (eexists; split; [done|]); by apply Hf.
Qed.

(** ** Applying *)

(** The changes without the entries that were only looked at *)
Definition change_item h (x : Action * pointer) : option (RawStateTable.Action * SLE D) :=
  if decide (x.1 = cache_) then None else raw_item h x.

Definition changes h s : RawStateTable.t D := RawStateTable.mk (omap (change_item h) (items_ s)) (dropsDestroyed_ s).

Lemma changes_overlay h s m :
  good h s m → clean h s m → RawStateTable.fits (changes h s) m ∧ RawStateTable.overlay (changes h s) m = overlay h s m.
Proof.
  intros Hg Hc. split.
  - intros k [a e]. cbn [changes RawStateTable.items_]. rewrite lookup_omap. destruct (items_ s !! k) as [[b p]|] eqn:E; [|done].
    cbn. unfold change_item. case_decide; [done|]. intros Hr. apply (good_fits h s m Hg k (a, e)). by rewrite lookup_as_raw, E.
  - apply map_eq. intros k. rewrite table_lookup by done. rewrite RawStateTable.lookup_overlay.
    cbn [changes RawStateTable.items_]. rewrite lookup_omap. destruct (items_ s !! k) as [[b p]|] eqn:E; [|done].
    destruct (good_item h s m k b p Hg E) as (e & He & _). cbn. unfold change_item, raw_item. cbn. case_decide as Hb.
    + subst b. cbn. by rewrite (Hc k p E).
    + rewrite He. by destruct b.
Qed.

Section apply_spec.
Context {S : Type} `{R : !RawView D S}.

Lemma apply_changes h s m (to : S) : good h s m → apply h s to = RawStateTable.apply (changes h s) to.
Proof.
  intros Hg. unfold apply, RawStateTable.apply. cbn [changes RawStateTable.items_ RawStateTable.dropsDestroyed_].
  rewrite sorted_list_omap. generalize (rawDestroyCSC (dropsDestroyed_ s) to).
  assert (∀ (k : Z) a p, (k, (a, p)) ∈ sorted_list (items_ s) → is_Some (h !! p)) as Hl.
  { intros k a p Hin%elem_of_sorted_list. destruct (good_item h s m _ a p Hg Hin) as (e & He & _). by exists e. }
  revert Hl. generalize (sorted_list (items_ s)). induction l as [|[k [a p]] l IH]; intros Hl r; [done|].
  destruct (Hl k a p) as [e He]; [left|]. cbn [foldl omap list_omap fst snd]. unfold change_item at 1, raw_item at 1. cbn [fst snd].
  rewrite IH by (intros; eapply Hl; by right). case_decide as Ha.
  - subst a. cbn. by destruct r.
  - rewrite He. cbn [fmap option_fmap option_map foldl]. f_equal. unfold apply_item, RawStateTable.apply_item, deref.
    destruct r; [|done]. rewrite !ok_bind. cbn [fst snd]. rewrite He. by destruct a.
Qed.

Context {adm : SLE D → Prop} {ok : S → Prop} {entries : S → gmap Z (SLE D)} {destroyed : S → Z}.
Context `{RL : !RawViewLaws R adm ok entries destroyed}.

Lemma table_apply_ok h s mo (to : S) :
  ok to → shows h s (entries to) mo → clean h s (entries to) →
  (∀ (k : Z) a p e, items_ s !! k = Some (a, p) → a ≠ cache_ → h !! p = Some e → adm e) →
  ∃ to', apply h s to = Ok to' ∧ ok to' ∧ entries to' = mo ∧
    destroyed to' = s64 (destroyed to + dropsDestroyed_ s).
Proof.
  intros Hok [Hg <-] Hc Ha. rewrite (apply_changes h s (entries to)) by done.
  destruct (changes_overlay h s (entries to) Hg Hc) as [Hf <-]. apply RawStateTable.apply_spec; [done..|].
  intros k a e. cbn [changes RawStateTable.items_]. rewrite lookup_omap. destruct (items_ s !! k) as [[b p]|] eqn:E; [|done].
  cbn. unfold change_item, raw_item. cbn. case_decide as Hb; [done|]. destruct (h !! p) as [x|] eqn:Ex; [|done].
  intros [= _ <-]. by eapply Ha.
Qed.

(** C6: The view of a transaction.  The table with the entries its pointers point to shows a
    finite map over its base: reading, testing and iterating are those of the map; peeking
    gives a pointer to the entry shown and changes nothing; writing an entry through its
    pointer sets it in the map at once; updating, inserting and erasing succeed on what is
    there, or not there, and do to the map what they say; so do the erasing and replacing of
    a view above that is applied to this one.  If every entry changed after
    peeking was also updated or erased, applying the table to the view below makes that one
    hold exactly the map. *)
Theorem apply_table_refines h s base mo (to : S) :
  let m := entries to in
  ok to → Represents base m → shows h s m mo →
  (∀ k, is_uint256 (k_key k) → read h s base k = lookup_typed mo k ∧
    (well_typed mo k → exists_ h s base k = bool_decide (is_Some (mo !! k_key k)))) ∧
  (∀ key last, is_uint256 key → is_succ (λ k : Z, is_Some (mo !! k) ∧ below last k) key (succ s base key last)) ∧
  (∀ k, is_uint256 (k_key k) →
    let '(r, h', s') := peek h s base k in
    shows h' s' m mo ∧ (clean h s m → clean h' s' m) ∧
    match r with None => lookup_typed mo k = None | Some p => live s' p (k_key k) ∧ h' !! p = lookup_typed mo k end) ∧
  (∀ p key, live s p key →
    (∀ e, sle_key e = key → shows (<[p := e]> h) s m (<[key := e]> mo)) ∧
    (∃ s', update h p s = Ok s' ∧ shows h s' m mo ∧
      ((∀ (k : Z) q, k ≠ key → items_ s !! k = Some (cache_, q) → h !! q = m !! k) → clean h s' m)) ∧
    (∃ s', erase h p s = Ok s' ∧ shows h s' m (delete key mo) ∧
      ((∀ (k : Z) q, k ≠ key → items_ s !! k = Some (cache_, q) → h !! q = m !! k) → clean h s' m))) ∧
  (∀ e, is_uint256 (sle_key e) → mo !! sle_key e = None →
    let '(h', p) := make_shared e h in
    ∃ s', insert h' p s = Ok s' ∧ shows h' s' m (<[sle_key e := e]> mo) ∧ live s' p (sle_key e) ∧
      (clean h s m → clean h' s' m)) ∧
  (∀ p e, h !! p = Some e → is_uint256 (sle_key e) → is_Some (mo !! sle_key e) →
    (∃ s', rawErase h p s = Ok s' ∧ shows h s' m (delete (sle_key e) mo)) ∧
    (∃ s', replace h p s = Ok s' ∧ shows h s' m (<[sle_key e := e]> mo))) ∧
  (clean h s m → (∀ (k : Z) a p e, items_ s !! k = Some (a, p) → a ≠ cache_ → h !! p = Some e → adm e) →
    ∃ to', apply h s to = Ok to' ∧ ok to' ∧ entries to' = mo ∧
      destroyed to' = s64 (destroyed to + dropsDestroyed_ s)).
Proof.
  intros m Hok Hrep Hs. pose proof Hs as [Hg Ho]. split_and!.
  - intros k Hu. rewrite (read_raw h s m), (exists_raw h s m), <- Ho by done. split.
    + by apply RawStateTable.read_spec.
    + intros Ht. by apply RawStateTable.exists_spec.
  - intros key last Hu. rewrite (succ_raw h s m), <- Ho by done. by apply RawStateTable.succ_spec.
  - intros k Hu. by apply table_peek_ok.
  - intros p key Hp. split_and!.
    + intros e He. by apply table_write_ok.
    + destruct (table_update_ok h s m mo p key Hs Hp) as (s' & ? & ? & _ & ?). eauto.
    + by apply table_erase_ok.
  - intros e Hu Hn. cbn [make_shared]. destruct (good_grow h s m e Hg) as [Hg1 Ho1].
    destruct (table_insert_ok (h ++ [e]) s m mo (length h) e) as (s' & E & H1 & H2 & H3); [by split; [|rewrite Ho1]|by apply list_lookup_middle|done..|].
    exists s'. split_and!; [done..|]. intros Hc. by apply H3, clean_grow.
  - intros p e He Hu Hn. split; [by eapply table_raw_erase_ok|by eapply table_replace_ok].
  - intros Hc Ha. by apply table_apply_ok.
Qed.

End apply_spec.

End table.
End ApplyStateTable.
