(* ===== verification/ApplyView.v ===== *)
(** * ApplyView: programs over the view of a transaction

    The operations of [ledger/impl/ApplyViewBase.cpp] as a monad: a program reads and writes
    the heap of entries and the table of changes of [ApplyStateTable], or throws.  Programs
    are specified by weakest preconditions over an abstract state: the map the view shows,
    the entries changed but not yet updated, and the pointers the program has. *)

From stdpp Require Import sorting.
From S2P Require Import Prelude ReadView RawStateTable ApplyStateTable.

Module ApplyView.
Import ApplyStateTable.

Section view.
Context {D : Type}.
Implicit Types (e sle : SLE D) (base : ReadView D) (m mo : gmap Z (SLE D)) (p : pointer) (k : Keylet).

(** ** Programs *)

Definition State : Type := list (SLE D) * t.
Implicit Types st : State.

Definition M (A : Type) : Type := State → result (A * State).

#[global] Instance M_ret : MRet M := λ A a st, Ok (a, st).
#[global] Instance M_bind : MBind M := λ A B f c st, '(a, st) ← c st; f a st.

Definition throw {A} (x : exn) : M A := λ _, Throw x.
Definition lift {A} (r : result A) : M A := λ st, a ← r; Ok (a, st).

(** ** The view *)

Definition peek base k : M (option pointer) := λ '(h, s),
  let '(r, h, s) := ApplyStateTable.peek h s base k in Ok (r, (h, s)).

Definition erase p : M () := λ '(h, s), s ← ApplyStateTable.erase h p s; Ok ((), (h, s)).
Definition insert p : M () := λ '(h, s), s ← ApplyStateTable.insert h p s; Ok ((), (h, s)).
Definition update p : M () := λ '(h, s), s ← ApplyStateTable.update h p s; Ok ((), (h, s)).

(** ** Entries through pointers *)

Definition make_shared sle : M pointer := λ '(h, s),
  let '(h, p) := ApplyStateTable.make_shared sle h in Ok (p, (h, s)).

Definition load p : M (SLE D) := λ '(h, s),
  match h !! p with
  | None => Throw (undefined_behaviour "dangling pointer")
  | Some sle => Ok (sle, (h, s))
  end.

Definition store p sle : M () := λ '(h, s), Ok ((), (<[p := sle]> h, s)).

(** A method of the object called through a pointer, and one that changes it *)
Definition get {A} p (f : D → result A) : M A :=
  sle ← load p; lift (f (sle_data sle)).

Definition set p (f : D → result D) : M () :=
  sle ← load p;
  o ← lift (f (sle_data sle));
  store p (mkSLE (sle_key sle) (sle_type sle) o).

Definition not_null {A} (o : option A) : M A :=
  match o with None => throw (undefined_behaviour "null pointer") | Some a => mret a end.

(** ** The abstract state

    The view shows [mo] over [m].  Entries filed as only looked at are as below, but for
    those at [X].  The pointers of [L] are those of the entries shown at their keys; those
    marked are filed as changed. *)

Record St m mo (X : gset Z) (L : list (pointer * Z * bool)) st : Prop := {
  st_shows : shows st.1 st.2 m mo;
  st_clean (k : Z) q : k ∉ X → items_ st.2 !! k = Some (cache_, q) → st.1 !! q = m !! k;
  st_live p (key : Z) b : (p, key, b) ∈ L →
    ∃ a, items_ st.2 !! key = Some (a, p) ∧ is_erase a = false ∧ (b = true → a ≠ cache_)
}.

Lemma St_clean m mo L st : St m mo ∅ L st → clean st.1 st.2 m.
Proof. intros H k p. by eapply st_clean. Qed.

(** Pointers can be forgotten. *)
Lemma St_weaken m mo X L L' st : St m mo X L st → L' ⊆ L → St m mo X L' st.
Proof. intros [H1 H2 H3] HL. split; [done..|]. intros p key b Hin. by apply (H3 p key b), HL. Qed.

(** ** Weakest preconditions *)

Definition wp {A} (c : M A) (Q : A → State → Prop) st : Prop := ∃ a st', c st = Ok (a, st') ∧ Q a st'.

Lemma wp_ret {A} (a : A) (Q : A → State → Prop) st : Q a st → wp (mret a) Q st.
Proof. intros H. by exists a, st. Qed.

Lemma wp_bind {A B} (f : A → M B) (c : M A) (Q : B → State → Prop) st :
  wp c (λ a, wp (f a) Q) st → wp (c ≫= f) Q st.
Proof. intros (a & st' & E & b & st'' & E' & H). exists b, st''. split; [|done]. unfold mbind, M_bind. by rewrite E. Qed.

Lemma wp_lift {A} (r : result A) a (Q : A → State → Prop) st : r = Ok a → Q a st → wp (lift r) Q st.
Proof. intros -> H. by exists a, st. Qed.

Lemma wp_mono {A} (c : M A) (Q Q' : A → State → Prop) st :
  wp c Q st → (∀ a st, Q a st → Q' a st) → wp c Q' st.
Proof. intros (a & st' & E & H) Hm. exists a, st'. split; [done|by apply Hm]. Qed.

Section rules.
Context (m : gmap Z (SLE D)).

Lemma st_entry mo X L p key b st :
  St m mo X L st → (p, key, b) ∈ L → live st.2 p key ∧ ∃ e, st.1 !! p = Some e ∧ sle_key e = key ∧ mo !! key = Some e.
Proof.
  intros Hst Hp. destruct (st_live _ _ _ _ _ Hst p key b Hp) as (a & Ha & He & _).
  assert (live st.2 p key) as Hl by by exists a. split; [done|].
  destruct (live_entry _ _ _ _ _ _ (st_shows _ _ _ _ _ Hst) Hl) as (_ & e & _ & _ & ? & ? & _ & ?). by exists e.
Qed.

Section peek.
Context (base : ReadView D) (Hrep : Represents base m).

(** Peeking adds to the heap and to the table. *)
Lemma peek_frame h s k :
  is_uint256 (k_key k) →
  let '(_, h', s') := ApplyStateTable.peek h s base k in
  (∃ l, h' = h ++ l) ∧ (∀ (j : Z) x, items_ s !! j = Some x → items_ s' !! j = Some x) ∧
  ∀ (j : Z) q, items_ s' !! j = Some (cache_, q) → items_ s !! j = Some (cache_, q) ∨ h' !! q = m !! j.
Proof.
  intros Hu. assert ((∃ l, h = h ++ l) ∧ (∀ (j : Z) x, items_ s !! j = Some x → items_ s !! j = Some x) ∧
    ∀ (j : Z) q, items_ s !! j = Some (cache_, q) → items_ s !! j = Some (cache_, q) ∨ h !! q = m !! j) as Hsame.
  { split; [exists []; by rewrite app_nil_r|]. split; [done|by left]. }
  unfold ApplyStateTable.peek. destruct (items_ s !! k_key k) as [[a p]|] eqn:E; [by destruct a|].
  rewrite (rep_read _ _ Hrep _ Hu). destruct (lookup_typed m k) as [e|] eqn:Et; [|done]. cbn [ApplyStateTable.make_shared].
  assert (m !! k_key k = Some e) as Hm.
  { destruct (m !! k_key k) as [x|] eqn:Ex; [|by unfold lookup_typed in Et; rewrite Ex in Et].
    rewrite (lookup_typed_check _ _ _ Ex) in Et. by destruct (check k x). }
  destruct (rep_keyed _ _ Hrep _ _ Hm) as [-> _]. cbn [items_ RecordSettersUsingExistingGetters.set]. split; [by eexists|]. split.
  - intros j x Hj. rewrite lookup_insert_ne; [done|]. congruence.
  - intros j q. rewrite lookup_insert. case_decide as Hj; [|by left]. intros [= <-]. right. subst j. rewrite Hm. by apply list_lookup_middle.
Qed.

Lemma wp_peek mo X L k (Q : option pointer → State → Prop) st :
  St m mo X L st → is_uint256 (k_key k) →
  (lookup_typed mo k = None → ∀ st', St m mo X L st' → Q None st') →
  (∀ p st', is_Some (lookup_typed mo k) → St m mo X ((p, k_key k, false) :: L) st' → Q (Some p) st') →
  wp (peek base k) Q st.
Proof.
  destruct st as [h s]. intros [Hs Hc Hl] Hu Hnone Hsome. pose proof (table_peek_ok h s m mo base k Hrep Hs Hu) as Hp.
  pose proof (peek_frame h s k Hu) as Hf. unfold wp, peek. destruct (ApplyStateTable.peek h s base k) as [[r h'] s'].
  destruct Hp as (Hs' & _ & Hr), Hf as ([l ->] & Hi & Hq). cbn [fst snd] in *.
  assert (St m mo X L (h ++ l, s')) as Hst.
  { split; cbn [fst snd]; [done| |].
    - intros j q Hj Hjq. destruct (Hq j q Hjq) as [Hold|Hnew]; [|done]. rewrite <- (Hc j q Hj Hold).
      destruct (good_item _ _ _ _ _ _ (proj1 Hs) Hold) as (x & Hx & _). by rewrite Hx, (lookup_app_l_Some _ _ _ _ Hx).
    - intros p key b Hin. destruct (Hl p key b Hin) as (a & Ha & Hea). exists a. split; [by apply Hi|done]. }
  eexists _, _. split; [done|]. destruct r as [p|]; [|by apply Hnone].
  destruct Hr as [Hlive Hlook]. apply Hsome.
  - destruct Hlive as (a & Ha & Hea). destruct (good_item _ _ _ _ _ _ (proj1 Hs') Ha) as (x & Hx & _). rewrite <- Hlook. by exists x.
  - destruct Hst as [H1 H2 H3]. split; [done..|]. intros p' key b [[= -> -> ->]|Hin]%elem_of_cons; [|by eapply H3].
    destruct Hlive as (a & Ha & Hea). by exists a.
Qed.

End peek.

Lemma wp_load mo X L p key b e (Q : SLE D → State → Prop) st :
  St m mo X L st → (p, key, b) ∈ L → mo !! key = Some e → Q e st → wp (load p) Q st.
Proof.
  intros Hst Hp He HQ. destruct (st_entry mo X L p key b st Hst Hp) as (_ & e' & Hh & _ & He').
  exists e, st. split; [|done]. destruct st as [h s]. unfold load. cbn [fst] in Hh. rewrite Hh. by simplify_eq.
Qed.

Lemma wp_get {A} mo X L p key b e a (f : D → result A) (Q : A → State → Prop) st :
  St m mo X L st → (p, key, b) ∈ L → mo !! key = Some e → f (sle_data e) = Ok a → Q a st → wp (get p f) Q st.
Proof. intros Hst Hp He Ef HQ. apply wp_bind. eapply wp_load; [done..|]. by eapply wp_lift. Qed.

(** The entry of a pointer filed as changed can be written; one only looked at needs an
    update after it. *)
Lemma wp_store mo X L p (key : Z) (b : bool) e (Q : () → State → Prop) st :
  St m mo X L st → (p, key, b) ∈ L → sle_key e = key →
  (∀ st', St m (<[key := e]> mo) (if b then X else {[ key ]} ∪ X) L st' → Q () st') → wp (store p e) Q st.
Proof.
  intros Hst Hp He HQ. destruct (st_entry mo X L p key b st Hst Hp) as (Hl & e' & Hh & _ & He').
  destruct Hst as [Hs Hc HL]. destruct st as [h s]. cbn [fst snd] in *. eexists _, _. split; [done|]. apply HQ.
  assert (∀ (j : Z) a q, items_ s !! j = Some (a, q) → q = p → j = key) as Hpk.
  { intros j a q Hj ->. destruct (good_item _ _ _ _ _ _ (proj1 Hs) Hj) as (x & Hx & <- & _).
    destruct Hl as (a' & Ha' & _). destruct (good_item _ _ _ _ _ _ (proj1 Hs) Ha') as (y & Hy & <- & _). congruence. }
  split; cbn [fst snd]; [by eapply table_write_ok| |done].
  intros j q Hj Hq. assert (j ≠ key) as Hne.
  { intros ->. destruct (HL p key b Hp) as (a & Ha & _ & Hb). destruct b; [|set_solver]. apply Hb; [done|]. congruence. }
  rewrite list_lookup_insert_ne by (intros ->; by apply Hne, (Hpk j cache_ q)).
  apply Hc; [|done]. destruct b; set_solver.
Qed.

Lemma wp_set mo X L p (key : Z) (b : bool) e o (f : D → result D) (Q : () → State → Prop) st :
  St m mo X L st → (p, key, b) ∈ L → mo !! key = Some e → f (sle_data e) = Ok o →
  (∀ st', St m (<[key := mkSLE key (sle_type e) o]> mo) (if b then X else {[ key ]} ∪ X) L st' → Q () st') →
  wp (set p f) Q st.
Proof.
  intros Hst Hp He Ef HQ. destruct (st_entry mo X L p key b st Hst Hp) as (_ & e' & _ & Hk & He').
  assert (e' = e) as -> by congruence. apply wp_bind. eapply wp_load; [done..|]. apply wp_bind. eapply wp_lift; [done|].
  rewrite Hk. by eapply wp_store.
Qed.

Lemma wp_update mo X L p (key : Z) (b : bool) (Q : () → State → Prop) st :
  St m mo X L st → (p, key, b) ∈ L →
  (∀ st', St m mo (X ∖ {[ key ]}) ((p, key, true) :: L) st' → Q () st') → wp (update p) Q st.
Proof.
  intros Hst Hp HQ. destruct (st_entry mo X L p key b st Hst Hp) as (Hl & e & Hh & Hk & He).
  destruct Hst as [Hs Hc HL]. destruct st as [h s]. cbn [fst snd] in *. destruct Hl as (a & Ha & Hea).
  unfold wp, update, ApplyStateTable.update, deref. rewrite Hh, Hk, Ha, Nat.eqb_refl. cbn [negb].
  assert (∀ b0, b0 ≠ cache_ → is_erase b0 = false → ∀ s', items_ s' = <[key := (b0, p)]> (items_ s) → shows h s' m mo →
    St m mo (X ∖ {[ key ]}) ((p, key, true) :: L) (h, s')) as Hnew.
  { intros b0 Hb0 He0 s' Es Hs'. split; cbn [fst snd]; [done|..]; rewrite Es.
    - intros j q Hj. rewrite lookup_insert. case_decide; [congruence|]. apply Hc. set_solver.
    - intros p' key' b'. rewrite elem_of_cons. intros Hin. rewrite lookup_insert. case_decide as Hne; [|by destruct Hin as [[= -> ->]|Hin]; [|by eapply HL]].
      subst key'. exists b0. split; [|done]. f_equal. f_equal. destruct Hin as [[= ->]|Hin]; [done|].
      destruct (HL p' key b' Hin) as (? & ? & _). congruence. }
  destruct a; [|done|..]; eexists _, _; (split; [done|]); apply HQ.
  - apply (Hnew modify_); [done..|]. by eapply refile.
  - apply (Hnew insert_); [done..| |done]. by rewrite insert_id.
  - apply (Hnew modify_); [done..| |done]. by rewrite insert_id.
Qed.

Lemma wp_new {A} mo X L e (c : pointer → M A) (Q : A → State → Prop) st :
  St m mo X L st → is_uint256 (sle_key e) → mo !! sle_key e = None →
  (∀ p st', St m (<[sle_key e := e]> mo) X ((p, sle_key e, true) :: L) st' → wp (c p) Q st') →
  wp (p ← make_shared e; insert p;; c p) Q st.
Proof.
  intros [Hs Hc HL] Hu Hn HQ. destruct st as [h s]. cbn [fst snd] in *. destruct (good_grow h s m e (proj1 Hs)) as [Hg1 Ho1].
  assert ((h ++ [e]) !! length h = Some e) as Hlast by by apply list_lookup_middle.
  assert (shows (h ++ [e]) s m mo) as Hs1 by (split; [done|]; rewrite Ho1; apply Hs).
  destruct (table_insert_ok (h ++ [e]) s m mo (length h) e) as (s' & E & H1 & H2 & _); [done..|].
  enough (wp (c (length h)) Q (h ++ [e], s')) as (a & st' & Ec & HQ').
  { exists a, st'. split; [|done]. unfold mbind, M_bind, make_shared, insert. cbn [ApplyStateTable.make_shared].
    rewrite ok_bind. cbn beta iota. by rewrite E, !ok_bind. }
  apply HQ. unfold ApplyStateTable.insert, deref in E. rewrite Hlast in E.
  assert (∃ a, items_ s' = <[sle_key e := (a, length h)]> (items_ s) ∧ a ≠ cache_ ∧ is_erase a = false) as (a & Es & Ha & Hea).
  { destruct (items_ s !! sle_key e) as [[[] q]|]; try done; injection E as <-; by eexists. }
  assert (∀ p' key b', (p', key, b') ∈ L → key ≠ sle_key e) as Hne.
  { intros p' key b' Hin ->. destruct (HL p' _ b' Hin) as (a' & Ha' & Hea' & _). rewrite (shows_lookup h s m mo _ Hs), Ha' in Hn.
    destruct (good_item _ _ _ _ _ _ (proj1 Hs) Ha') as (x & Hx & _). rewrite Hx in Hn. by destruct a'. }
  split; cbn [fst snd]; [done|..]; rewrite Es.
  - intros j q Hj. rewrite lookup_insert. case_decide; [congruence|]. intros Hq.
    destruct (good_item _ _ _ _ _ _ (proj1 Hs) Hq) as (x & Hx & _). rewrite (lookup_app_l_Some _ _ _ _ Hx), <- Hx. by apply Hc.
  - intros p' key b' [[= -> -> ->]|Hin]%elem_of_cons.
    + exists a. by rewrite lookup_insert_eq.
    + rewrite lookup_insert_ne by (symmetry; by eapply Hne). by eapply HL.
Qed.

Lemma wp_erase mo X L p (key : Z) (b : bool) (Q : () → State → Prop) st :
  St m mo X L st → (p, key, b) ∈ L →
  (∀ st', St m (delete key mo) (X ∖ {[ key ]}) (filter (λ x, x.1.2 ≠ key) L) st' → Q () st') → wp (erase p) Q st.
Proof.
  intros Hst Hp HQ. destruct (st_entry mo X L p key b st Hst Hp) as (Hl & e & Hh & Hk & He).
  destruct Hst as [Hs Hc HL]. destruct st as [h s]. cbn [fst snd] in *.
  destruct (table_erase_ok h s m mo p key Hs Hl) as (s' & E & Hs' & _). unfold wp, erase. rewrite E.
  eexists _, _. split; [done|]. apply HQ. destruct Hl as (a & Ha & Hea).
  unfold ApplyStateTable.erase, deref in E. rewrite Hh, Hk, Ha, Nat.eqb_refl in E. cbn [negb] in E.
  assert ((∀ j : Z, j ≠ key → items_ s' !! j = items_ s !! j) ∧ ∀ q, items_ s' !! key ≠ Some (cache_, q)) as [Hj Hkey].
  { destruct a; [|done|..]; injection E as <-; cbn [items_ RecordSettersUsingExistingGetters.set]; split; intros;
      by rewrite ?lookup_insert_eq, ?lookup_delete_eq, ?lookup_insert_ne, ?lookup_delete_ne by done. }
  split; cbn [fst snd]; [done| |].
  - intros j q Hjx Hq. destruct (decide (j = key)) as [->|Hne]; [by destruct (Hkey q)|]. rewrite Hj in Hq by done. apply Hc; [set_solver|done].
  - intros p' key' b' [Hne Hin]%list_elem_of_filter. cbn in Hne. rewrite Hj by done. by eapply HL.
Qed.

End rules.
End view.
Arguments M : clear implicits.
Arguments State : clear implicits.
End ApplyView.
