(* ===== verification/OpenView.v ===== *)
(** * OpenView: a writable view that accumulates state and transactions

    Models [ledger/OpenView.h] and [ledger/impl/OpenView.cpp].  A view keeps a
    pointer to its base, which must not change while the view lives: here the base
    is a value.  Transactions and their metadata are serialized blobs of type [T];
    reading them back ([txRead] and the [txs] range) is left out. *)

From stdpp Require Import sorting.
From S2P Require Import Prelude ReadView RawStateTable.

Module OpenView.
Section view.
Context {D T : Type}.

Record t := mk {
  txs_ : gmap Z (T * option T);
  info_ : LedgerInfo;
  base_ : ReadView D;
  items_ : RawStateTable.t D;
  open_ : bool
}.
Implicit Types v : t.

(** [OpenView (open_ledger_t, ReadView const*, Rules const&, ...)] *)
Definition make_open (base : ReadView D) : t :=
  let i := rv_info base in
  mk ∅ (mkLedgerInfo (u32 (info_seq i + 1)) (info_closeTime i) (info_hash i) (info_txHash i)
         (info_accountHash i) (info_hash i) (info_drops i) false false (info_closeFlags i)
         (info_closeTimeResolution i) (info_closeTime i))
    base RawStateTable.empty true.

(** [OpenView (ReadView const* base, ...)] *)
Definition make_closed (base : ReadView D) : t :=
  mk ∅ (rv_info base) base RawStateTable.empty (rv_open base).

Definition txCount v : Z := Z.of_nat (size (txs_ v)).
Definition txExists v (key : Z) : bool := bool_decide (is_Some (txs_ v !! key)).

Definition exists_ v (k : Keylet) : bool := RawStateTable.exists_ (items_ v) (base_ v) k.
Definition succ v (key : Z) (last : option Z) : option Z :=
  RawStateTable.succ (items_ v) (base_ v) key last.
Definition read v (k : Keylet) : option (SLE D) := RawStateTable.read (items_ v) (base_ v) k.

(** The range from [slesBegin] to [slesEnd]; a null dereference on the way, which
    [sles_spec] excludes, would make it empty *)
Definition sles v : list (SLE D) :=
  default [] (RawStateTable.walk_all (RawStateTable.slesBegin (items_ v) (base_ v))).

(** The view as the [ReadView] it is. *)
Definition as_view v : ReadView D :=
  mkReadView (info_ v) (open_ v) (exists_ v) (succ v) (read v) (sles v).

Definition rawErase (sle : SLE D) v : result t :=
  i ← RawStateTable.erase sle (items_ v); Ok (v<|items_ := i|>).
Definition rawInsert (sle : SLE D) v : result t :=
  i ← RawStateTable.insert sle (items_ v); Ok (v<|items_ := i|>).
Definition rawReplace (sle : SLE D) v : result t :=
  i ← RawStateTable.replace sle (items_ v); Ok (v<|items_ := i|>).
Definition rawDestroyCSC (fee : Z) v : result t :=
  Ok (v<|items_ ::= RawStateTable.destroyCSC fee|>).

Definition rawTxInsert (key : Z) (txn : T) (metaData : option T) v : result t :=
  match txs_ v !! key with
  | Some _ => Throw (logic_error "rawTxInsert: duplicate TX id")
  | None => Ok (v<|txs_ ::= <[key := (txn, metaData)]>|>)
  end.

#[global] Instance open_view_raw : RawView D t := {|
  ReadView.rawErase := rawErase;
  ReadView.rawInsert := rawInsert;
  ReadView.rawReplace := rawReplace;
  ReadView.rawDestroyCSC := rawDestroyCSC
|}.

#[global] Instance open_view_txs : TxsRawView D T t := {|
  txs_raw_view := open_view_raw;
  ReadView.rawTxInsert := rawTxInsert
|}.

(** [OpenView::apply] *)
Definition apply {S : Type} `{!TxsRawView D T S} v (to : S) : result S :=
  foldl (λ (r : result S) '(key, (txn, meta)), to ← r; ReadView.rawTxInsert key txn meta to)
    (RawStateTable.apply (items_ v) to) (sorted_list (txs_ v)).

(** ** Refinement *)

(** The entries the view shows when its base shows [m] *)
Definition entries (m : gmap Z (SLE D)) v : gmap Z (SLE D) := RawStateTable.overlay (items_ v) m.

(** The view shows the overlay of its table over its base. *)
Lemma open_represents v m :
  Represents (base_ v) m → RawStateTable.fits (items_ v) m →
  Represents (as_view v) (entries m v).
Proof.
  intros Hrep Hf. split.
  - apply RawStateTable.overlay_keyed; [done|apply Hrep].
  - intros k. by apply RawStateTable.exists_spec.
  - intros k. by apply RawStateTable.read_spec.
  - intros key last. by apply RawStateTable.succ_spec.
  - destruct (RawStateTable.sles_spec _ _ _ Hrep Hf) as (l & E & Hl).
    simpl. unfold sles. by rewrite E.
Qed.

(** The view keeps the promises of a [RawView]. *)
#[global] Instance open_view_laws m b txs :
  RawViewLaws open_view_raw (λ e, is_uint256 (sle_key e))
    (λ v, RawStateTable.fits (items_ v) m ∧ base_ v = b ∧ txs_ v = txs) (entries m)
    (λ v, RawStateTable.dropsDestroyed_ (items_ v)).
Proof.
  split; intros x v (Hf & Hb & Ht); simpl; try intros Hu.
  - intros Hx. destruct (RawStateTable.erase_ok x _ m Hf Hu Hx) as (i & E & ? & ? & ?).
    unfold rawErase. rewrite E. eexists. by split_and!.
  - intros Hx. destruct (RawStateTable.insert_ok x _ m Hf Hu Hx) as (i & E & ? & ? & ?).
    unfold rawInsert. rewrite E. eexists. by split_and!.
  - intros Hx. destruct (RawStateTable.replace_ok x _ m Hf Hu Hx) as (i & E & ? & ? & ?).
    unfold rawReplace. rewrite E. eexists. by split_and!.
  - eexists. by split_and!.
Qed.

Lemma open_insert_txs l v :
  NoDup l.*1 → (∀ k x, (k, x) ∈ l → txs_ v !! k = None) →
  foldl (λ (r : result t) '(key, (txn, meta)), to ← r; ReadView.rawTxInsert key txn meta to) (Ok v) l =
  Ok (v<|txs_ := list_to_map l ∪ txs_ v|>).
Proof.
  revert v. induction l as [|[k [txn meta]] l IH]; intros v Hnd Hl.
  { cbn [foldl]. rewrite list_to_map_nil, (left_id_L ∅ (∪)). by destruct v. }
  cbn [fmap list_fmap fst] in Hnd. apply NoDup_cons in Hnd as [Hn Hnd]. cbn [foldl].
  rewrite ok_bind. change (ReadView.rawTxInsert k txn meta v) with (rawTxInsert k txn meta v).
  unfold rawTxInsert. rewrite (Hl k (txn, meta)) by left.
  rewrite IH; [|done|].
  - cbn [txs_]. enough (list_to_map l ∪ <[k := (txn, meta)]> (txs_ v) =
      list_to_map ((k, (txn, meta)) :: l) ∪ txs_ v) as E by (rewrite <- E; by destruct v).
    rewrite list_to_map_cons, <- insert_union_l. symmetry. apply insert_union_r.
    by apply not_elem_of_list_to_map_1.
  - intros k' x Hin. simpl. rewrite lookup_insert_ne; [apply (Hl k' x); by right|].
    intros ->. apply Hn. by eapply RawStateTable.in_fst.
Qed.

Lemma list_to_map_sorted {A} (m : gmap Z A) : list_to_map (sorted_list m) = m.
Proof.
  apply map_eq. intros k. apply option_eq. intros x.
  rewrite <- elem_of_list_to_map, elem_of_sorted_list; [done|].
  apply sorted_NoDup, sorted_list_sorted.
Qed.

(** C36: a view over a base shows exactly the finite map its table and its base
    describe together, through every operation of the interface: [exists] and [read]
    look up the entry, [succ] finds the next key below the bound whatever is deleted
    or added in between, and the iteration visits each entry once, in the order of
    the keys, without dereferencing a null pointer. *)
Theorem open_view_represents v m :
  Represents (base_ v) m → RawStateTable.fits (items_ v) m →
  Represents (as_view v) (RawStateTable.overlay (items_ v) m).
Proof. apply open_represents. Qed.

(** C37: committing.  A child view built on a parent view is applied to it without
    error when the child's table fits what the parent shows and its transactions are
    new; afterwards the parent shows exactly what the child showed, holds both sets of
    transactions, and has destroyed the drops of both. *)
Theorem open_view_commit c p m :
  base_ c = as_view p → Represents (base_ p) m → RawStateTable.fits (items_ p) m →
  RawStateTable.fits (items_ c) (entries m p) → txs_ c ##ₘ txs_ p →
  ∃ p', apply c p = Ok p' ∧ base_ p' = base_ p ∧
    Represents (as_view p') (entries (entries m p) c) ∧
    (∀ k, is_uint256 (k_key k) → read p' k = read c k) ∧ txs_ p' = txs_ c ∪ txs_ p ∧
    RawStateTable.dropsDestroyed_ (items_ p') = s64
      (RawStateTable.dropsDestroyed_ (items_ p) + RawStateTable.dropsDestroyed_ (items_ c)).
Proof.
  intros Hc Hrep Hp Hfc Hdis.
  destruct (RawStateTable.apply_spec (RL := open_view_laws m (base_ p) (txs_ p)) (items_ c) p)
    as (p1 & E1 & (Hf1 & Hb1 & Ht1) & He1 & Hd1); [done..| |].
  { intros k a e Hi. destruct (Hfc k _ Hi) as [[Hk ?] _]. cbn [snd] in Hk. by rewrite Hk. }
  unfold apply. cbn [txs_raw_view open_view_txs]. rewrite E1, open_insert_txs.
  - eexists. split; [done|]. simpl. split; [done|]. rewrite list_to_map_sorted, Ht1.
    assert (Represents (as_view p1) (entries (entries m p) c)) as Hr.
    { unfold entries at 1. rewrite <- He1. apply open_represents; [by rewrite Hb1|done]. }
    split; [by destruct Hr|]. split; [|done]. intros k Hk. etrans; [by apply (rep_read _ _ Hr)|].
    symmetry. apply (RawStateTable.read_spec (items_ c) (base_ c)); [|done]. rewrite Hc.
    by apply open_represents.
  - apply sorted_NoDup, sorted_list_sorted.
  - intros k x Hin%elem_of_sorted_list. rewrite Ht1. by eapply map_disjoint_Some_l.
Qed.

End view.
Arguments t : clear implicits.
End OpenView.
