(* ===== verification/SOTemplate.v ===== *)
(** * SOTemplate: templates of objects

    Models [protocol/SOTemplate.h], [protocol/impl/LedgerFormats.cpp] and
    [protocol/impl/InnerObjectFormats.cpp]: the fields that each type of ledger entry, and
    some of the objects inside other objects, may and must have. *)

From S2P Require Import Prelude SField ReadView.

Inductive SOE_Flags := SOE_REQUIRED | SOE_OPTIONAL | SOE_DEFAULT.

#[global] Instance SOE_Flags_eq_dec : EqDecision SOE_Flags.
Proof. solve_decision. Defined.

Record SOElement := mkElem { e_field : SField; flags : SOE_Flags }.

#[global] Instance SOElement_eq_dec : EqDecision SOElement.
Proof. solve_decision. Defined.

(** A template is identified with its elements: the templates of the program differ in
    them ([templates_differ]). *)
Definition SOTemplate := list SOElement.

#[global] Instance SOTemplate_eq_dec : EqDecision SOTemplate := list_eq_dec.

(** The position of a field, in the order of the template.  The source looks it up in a table
    indexed by [fieldNum], which was made with the template for the fields there were by
    then: with a field made up later it reads outside the table.  A field made up at run
    time is taken to be later. *)
Definition getIndex (t : SOTemplate) (f : SField) : result (option nat) :=
  if declared f then Ok (fst <$> list_find (λ e, SField.eqb (e_field e) f) t)
  else Throw (undefined_behaviour "mIndex[f.getNum ()]").

(** ** Ledger entries *)

Definition ledger_common : SOTemplate :=
  [mkElem sfLedgerIndex SOE_OPTIONAL; mkElem sfLedgerEntryType SOE_REQUIRED; mkElem sfFlags SOE_REQUIRED].

Definition format_AccountRoot : SOTemplate := ledger_common ++
  [mkElem sfAccount SOE_REQUIRED; mkElem sfSequence SOE_REQUIRED; mkElem sfBalance SOE_REQUIRED;
   mkElem sfOwnerCount SOE_REQUIRED; mkElem sfPreviousTxnID SOE_REQUIRED;
   mkElem sfPreviousTxnLgrSeq SOE_REQUIRED; mkElem sfKYC SOE_OPTIONAL;
   mkElem sfAccountTxnID SOE_OPTIONAL; mkElem sfRegularKey SOE_OPTIONAL;
   mkElem sfEmailHash SOE_OPTIONAL; mkElem sfWalletLocator SOE_OPTIONAL;
   mkElem sfWalletSize SOE_OPTIONAL; mkElem sfMessageKey SOE_OPTIONAL;
   mkElem sfTransferRate SOE_OPTIONAL; mkElem sfDomain SOE_OPTIONAL; mkElem sfTickSize SOE_OPTIONAL].

Definition format_DirectoryNode : SOTemplate := ledger_common ++
  [mkElem sfOwner SOE_OPTIONAL; mkElem sfTakerPaysCurrency SOE_OPTIONAL;
   mkElem sfTakerPaysIssuer SOE_OPTIONAL; mkElem sfTakerGetsCurrency SOE_OPTIONAL;
   mkElem sfTakerGetsIssuer SOE_OPTIONAL; mkElem sfExchangeRate SOE_OPTIONAL;
   mkElem sfIndexes SOE_REQUIRED; mkElem sfRootIndex SOE_REQUIRED; mkElem sfIndexNext SOE_OPTIONAL;
   mkElem sfIndexPrevious SOE_OPTIONAL].

Definition format_Offer : SOTemplate := ledger_common ++
  [mkElem sfAccount SOE_REQUIRED; mkElem sfSequence SOE_REQUIRED; mkElem sfTakerPays SOE_REQUIRED;
   mkElem sfTakerGets SOE_REQUIRED; mkElem sfBookDirectory SOE_REQUIRED;
   mkElem sfBookNode SOE_REQUIRED; mkElem sfOwnerNode SOE_REQUIRED;
   mkElem sfPreviousTxnID SOE_REQUIRED; mkElem sfPreviousTxnLgrSeq SOE_REQUIRED;
   mkElem sfExpiration SOE_OPTIONAL].

Definition format_CasinocoinState : SOTemplate := ledger_common ++
  [mkElem sfBalance SOE_REQUIRED; mkElem sfLowLimit SOE_REQUIRED; mkElem sfHighLimit SOE_REQUIRED;
   mkElem sfPreviousTxnID SOE_REQUIRED; mkElem sfPreviousTxnLgrSeq SOE_REQUIRED;
   mkElem sfLowNode SOE_OPTIONAL; mkElem sfLowQualityIn SOE_OPTIONAL;
   mkElem sfLowQualityOut SOE_OPTIONAL; mkElem sfHighNode SOE_OPTIONAL;
   mkElem sfHighQualityIn SOE_OPTIONAL; mkElem sfHighQualityOut SOE_OPTIONAL].

Definition format_Escrow : SOTemplate := ledger_common ++
  [mkElem sfAccount SOE_REQUIRED; mkElem sfDestination SOE_REQUIRED; mkElem sfAmount SOE_REQUIRED;
   mkElem sfCondition SOE_OPTIONAL; mkElem sfCancelAfter SOE_OPTIONAL;
   mkElem sfFinishAfter SOE_OPTIONAL; mkElem sfSourceTag SOE_OPTIONAL;
   mkElem sfDestinationTag SOE_OPTIONAL; mkElem sfOwnerNode SOE_REQUIRED;
   mkElem sfPreviousTxnID SOE_REQUIRED; mkElem sfPreviousTxnLgrSeq SOE_REQUIRED].

Definition format_LedgerHashes : SOTemplate := ledger_common ++
  [mkElem sfFirstLedgerSequence SOE_OPTIONAL; mkElem sfLastLedgerSequence SOE_OPTIONAL;
   mkElem sfHashes SOE_REQUIRED].

Definition format_Amendments : SOTemplate := ledger_common ++
  [mkElem sfAmendments SOE_OPTIONAL; mkElem sfMajorities SOE_OPTIONAL].

Definition format_FeeSettings : SOTemplate := ledger_common ++
  [mkElem sfBaseFee SOE_REQUIRED; mkElem sfReferenceFeeUnits SOE_REQUIRED;
   mkElem sfReserveBase SOE_REQUIRED; mkElem sfReserveIncrement SOE_REQUIRED].

Definition format_Ticket : SOTemplate := ledger_common ++
  [mkElem sfAccount SOE_REQUIRED; mkElem sfSequence SOE_REQUIRED; mkElem sfOwnerNode SOE_REQUIRED;
   mkElem sfTarget SOE_OPTIONAL; mkElem sfExpiration SOE_OPTIONAL].

Definition format_SignerList : SOTemplate := ledger_common ++
  [mkElem sfOwnerNode SOE_REQUIRED; mkElem sfSignerQuorum SOE_REQUIRED;
   mkElem sfSignerEntries SOE_REQUIRED; mkElem sfSignerListID SOE_REQUIRED;
   mkElem sfPreviousTxnID SOE_REQUIRED; mkElem sfPreviousTxnLgrSeq SOE_REQUIRED].

Definition format_PayChannel : SOTemplate := ledger_common ++
  [mkElem sfAccount SOE_REQUIRED; mkElem sfDestination SOE_REQUIRED; mkElem sfAmount SOE_REQUIRED;
   mkElem sfBalance SOE_REQUIRED; mkElem sfPublicKey SOE_REQUIRED;
   mkElem sfSettleDelay SOE_REQUIRED; mkElem sfExpiration SOE_OPTIONAL;
   mkElem sfCancelAfter SOE_OPTIONAL; mkElem sfSourceTag SOE_OPTIONAL;
   mkElem sfDestinationTag SOE_OPTIONAL; mkElem sfOwnerNode SOE_REQUIRED;
   mkElem sfPreviousTxnID SOE_REQUIRED; mkElem sfPreviousTxnLgrSeq SOE_REQUIRED].

Definition LedgerFormats : list (Z * SOTemplate) :=
  [(ltACCOUNT_ROOT, format_AccountRoot); (ltDIR_NODE, format_DirectoryNode);
   (ltOFFER, format_Offer); (ltCASINOCOIN_STATE, format_CasinocoinState);
   (ltESCROW, format_Escrow); (ltLEDGER_HASHES, format_LedgerHashes);
   (ltAMENDMENTS, format_Amendments); (ltFEE_SETTINGS, format_FeeSettings);
   (ltTICKET, format_Ticket); (ltSIGNER_LIST, format_SignerList); (ltPAYCHAN, format_PayChannel)].

(** [KnownFormats::findByType] *)
Definition findByType (formats : list (Z * SOTemplate)) (type : Z) : option SOTemplate :=
  snd <$> (snd <$> list_find (λ f, f.1 = type) formats).

(** ** Objects inside objects *)

Definition format_SignerEntry : SOTemplate :=
  [mkElem sfAccount SOE_REQUIRED; mkElem sfSignerWeight SOE_REQUIRED].

Definition format_Signer : SOTemplate :=
  [mkElem sfAccount SOE_REQUIRED; mkElem sfSigningPubKey SOE_REQUIRED;
   mkElem sfTxnSignature SOE_REQUIRED].

Definition format_KYC : SOTemplate :=
  [mkElem sfKYCTime SOE_REQUIRED; mkElem sfKYCVerifications SOE_OPTIONAL].

Definition InnerObjectFormats : list (Z * SOTemplate) :=
  [(fieldCode sfSignerEntry, format_SignerEntry); (fieldCode sfSigner, format_Signer); (fieldCode sfKYC, format_KYC)].

Definition findSOTemplateBySField (f : SField) : option SOTemplate := findByType InnerObjectFormats (fieldCode f).

Lemma templates_differ : NoDup (snd <$> LedgerFormats ++ InnerObjectFormats).
Proof. by apply (bool_decide_unpack _ (dec := _)); vm_compute. Qed.
