(* ===== verification/STObject.v ===== *)
(** * STObject: serialized objects

    Models the values of fields ([protocol/STInteger.h], [STBitString.h], [STBlob.h],
    [STAccount.h], [STPathSet.h], [STVector256.h], [STVector128.h], [STArray.h] and their
    implementations, with [STAmount] from its own file), the variant [detail::STVar], and
    [STObject]: lists of named values, free or bound to a template, with their binary
    form.  Text and JSON forms are left out. *)

From S2P Require Import Prelude Serializer SerialIter SField Issue STAmount ReadView SOTemplate.

(** ** Path sets *)

Module STPathElement.

Definition typeNone : Z := 0.
Definition typeAccount : Z := 1.
Definition typeCurrency : Z := 16.
Definition typeIssuer : Z := 32.
Definition typeBoundary : Z := 255.
Definition typeAll : Z := Z.lor (Z.lor typeAccount typeCurrency) typeIssuer.

(** [is_offer_] and [hash_value_] are functions of the other members. *)
Record t := mk { mType : Z; mAccountID : Z; mCurrencyID : Z; mIssuerID : Z }.

#[global] Instance t_eq_dec : EqDecision t.
Proof. solve_decision. Defined.

Definition make (account currency issuer : Z) (forceCurrency : bool) : t :=
  let is_offer := Issue.isCSC account in
  let type := typeNone in
  let type := if negb is_offer then Z.lor type typeAccount else type in
  let type := if forceCurrency || negb (Issue.isCSC currency) then Z.lor type typeCurrency else type in
  let type := if negb (Issue.isCSC issuer) then Z.lor type typeIssuer else type in
  mk type account currency issuer.

Definition has (iType bit : Z) : bool := negb (Z.land iType bit =? 0).

(** One element after its type byte *)
Definition read (iType : Z) (sit : SerialIter.t) : result (t * SerialIter.t) :=
  let hasAccount := has iType typeAccount in
  let hasCurrency := has iType typeCurrency in
  let hasIssuer := has iType typeIssuer in
  '(account, sit) ← (if hasAccount then SerialIter.get160 sit else Ok (0, sit));
  '(currency, sit) ← (if hasCurrency then SerialIter.get160 sit else Ok (0, sit));
  '(issuer, sit) ← (if hasIssuer then SerialIter.get160 sit else Ok (0, sit));
  Ok (make account currency issuer hasCurrency, sit).

Definition add (e : t) (s : Serializer.t) : Serializer.t :=
  let s := (Serializer.add8 s (u8 (mType e))).1 in
  let s := if has (mType e) typeAccount then (Serializer.add160 s (mAccountID e)).1 else s in
  let s := if has (mType e) typeCurrency then (Serializer.add160 s (mCurrencyID e)).1 else s in
  if has (mType e) typeIssuer then (Serializer.add160 s (mIssuerID e)).1 else s.

End STPathElement.

Definition STPath := list STPathElement.t.

Module STPathSet.

(** The loop of the constructor; every iteration reads a byte. *)
Fixpoint read_loop (fuel : nat) (path : STPath) (value : list STPath) (sit : SerialIter.t)
    : result (list STPath * SerialIter.t) :=
  match fuel with
  | O => Throw out_of_fuel
  | S fuel =>
      '(iType, sit) ← SerialIter.get8 sit;
      if (iType =? STPathElement.typeNone) || (iType =? STPathElement.typeBoundary) then
        if bool_decide (path = []) then Throw (runtime_error "empty path")
        else
          let value := value ++ [path] in
          if iType =? STPathElement.typeNone then Ok (value, sit)
          else read_loop fuel [] value sit
      else if negb (Z.land iType (Z.lnot STPathElement.typeAll) =? 0) then
        Throw (runtime_error "bad path element")
      else
        '(e, sit) ← STPathElement.read iType sit;
        read_loop fuel (path ++ [e]) value sit
  end.

Definition read (sit : SerialIter.t) : result (list STPath * SerialIter.t) :=
  read_loop (S (SerialIter.remain_ sit)) [] [] sit.

(** The paths with a boundary before each but the first *)
Definition add_path (a : Serializer.t * bool) (spPath : STPath) : Serializer.t * bool :=
  let '(s, first) := a in
  let s := if negb first then (Serializer.add8 s STPathElement.typeBoundary).1 else s in
  (foldl (λ s e, STPathElement.add e s) s spPath, false).

Definition add (value : list STPath) (s : Serializer.t) : Serializer.t :=
  let '(s, _) := foldl add_path (s, true) value in
  (Serializer.add8 s STPathElement.typeNone).1.

End STPathSet.

(** ** Vectors of bit strings *)

Module STVector.

(** [count] values of [n] bytes each; bytes that are left over are dropped. *)
Fixpoint values (count n : nat) (data : list Z) : list Z :=
  match count with
  | O => []
  | S count => be_val (take n data) :: values count n (drop n data)
  end.

Definition read (bits : nat) (sit : SerialIter.t) : result (list Z * SerialIter.t) :=
  '(data, sit) ← SerialIter.getVL sit;
  let n := (bits / 8)%nat in
  Ok (values (length data / n) n data, sit).

(** [Serializer::addVL (begin, end, len)] *)
Definition add (bits : nat) (mValue : list Z) (s : Serializer.t) : result Serializer.t :=
  let n := (bits / 8)%nat in
  '(s, _) ← Serializer.addEncoded s (s32 (Z.of_nat (length mValue * n)));
  Ok (foldl (λ s v, (Serializer.addRaw s (be_bytes n v)).1) s mValue).

End STVector.

(** ** Accounts *)

Module STAccount.

Definition read (sit : SerialIter.t) : result (Z * bool * SerialIter.t) :=
  '(v, sit) ← SerialIter.getVL sit;
  if bool_decide (v = []) then Ok (0, true, sit)
  else if negb (length v =? 20)%nat then Throw (runtime_error "Invalid STAccount size")
  else Ok (be_val v, false, sit).

Definition add (value_ : Z) (default_ : bool) (s : Serializer.t) : result Serializer.t :=
  '(s, _) ← Serializer.addVL s (if default_ then [] else be_bytes 20 value_); Ok s.

End STAccount.

(** ** Values and objects *)

Module STObject.

(** The members of an [STObject]: its fields, and its template, if it is not free *)
Record Fields (V : Type) := mkFields { v_ : list (SField * V); mType : option SOTemplate }.
Arguments mkFields {V} _ _.
Arguments v_ {V} _.
Arguments mType {V} _.

Inductive value :=
  | NotPresent
  | UInt8 (value_ : Z)
  | UInt16 (value_ : Z)
  | UInt32 (value_ : Z)
  | UInt64 (value_ : Z)
  | Hash128 (value_ : Z)
  | Hash160 (value_ : Z)
  | Hash256 (value_ : Z)
  | Amount (value_ : STAmount.t)
  | Blob (value_ : list Z)
  | Account (value_ : Z) (default_ : bool)
  | PathSet (value_ : list STPath)
  | Vector256 (mValue : list Z)
  | Vector128 (mValue : list Z)
  | Object (o : Fields value)
  | Array (elems : list (SField * Fields value)).

Abbreviation STObject := (Fields value).

Definition getSType (v : value) : Z :=
  match v with
  | NotPresent => STI_NOTPRESENT
  | UInt8 _ => STI_UINT8
  | UInt16 _ => STI_UINT16
  | UInt32 _ => STI_UINT32
  | UInt64 _ => STI_UINT64
  | Hash128 _ => STI_HASH128
  | Hash160 _ => STI_HASH160
  | Hash256 _ => STI_HASH256
  | Amount _ => STI_AMOUNT
  | Blob _ => STI_VL
  | Account _ _ => STI_ACCOUNT
  | PathSet _ => STI_PATHSET
  | Vector256 _ => STI_VECTOR256
  | Vector128 _ => STI_VECTOR128
  | Object _ => STI_OBJECT
  | Array _ => STI_ARRAY
  end.

Definition is_nil {A} (l : list A) : bool := match l with [] => true | _ => false end.

Definition isDefault (v : value) : bool :=
  match v with
  | NotPresent => true
  | UInt8 n | UInt16 n | UInt32 n | UInt64 n | Hash128 n | Hash160 n | Hash256 n => n =? 0
  | Amount a => (STAmount.mValue a =? 0) && STAmount.mIsNative a
  | Blob b => is_nil b
  | Account _ default_ => default_
  | PathSet l => is_nil l
  | Vector256 l | Vector128 l => is_nil l
  | Object o => is_nil (v_ o)
  | Array l => is_nil l
  end.

(** [STVar (SerializedTypeID, SField)]: the default value of a type *)
Definition default_value (id : Z) : result value :=
  if id =? STI_NOTPRESENT then Ok NotPresent
  else if id =? STI_UINT8 then Ok (UInt8 0)
  else if id =? STI_UINT16 then Ok (UInt16 0)
  else if id =? STI_UINT32 then Ok (UInt32 0)
  else if id =? STI_UINT64 then Ok (UInt64 0)
  else if id =? STI_AMOUNT then Ok (Amount (STAmount.make_csc 0 false))
  else if id =? STI_HASH128 then Ok (Hash128 0)
  else if id =? STI_HASH160 then Ok (Hash160 0)
  else if id =? STI_HASH256 then Ok (Hash256 0)
  else if id =? STI_VECTOR256 then Ok (Vector256 [])
  else if id =? STI_VECTOR128 then Ok (Vector128 [])
  else if id =? STI_VL then Ok (Blob [])
  else if id =? STI_ACCOUNT then Ok (Account 0 true)
  else if id =? STI_PATHSET then Ok (PathSet [])
  else if id =? STI_OBJECT then Ok (Object (mkFields [] None))
  else if id =? STI_ARRAY then Ok (Array [])
  else Throw (runtime_error "Unknown object type").

(** ** Writing *)

(** [std::map::insert] into a map in the order of its keys: an element whose key is taken
    is not inserted. *)
Fixpoint map_emplace {A} (k : Z) (x : A) (m : list (Z * A)) : list (Z * A) :=
  match m with
  | [] => [(k, x)]
  | (k', x') :: m' =>
      if k <? k' then (k, x) :: m
      else if k =? k' then m
      else (k', x') :: map_emplace k x m'
  end.

(** A field to write: its name, the type of its value, and the writer of the value *)
Definition writer : Type := SField * Z * (Serializer.t → result Serializer.t).

Definition pick (withSigningFields withNotHashedField : bool) (m : list (Z * writer)) (w : writer)
    : list (Z * writer) :=
  if negb (w.1.2 =? STI_NOTPRESENT) && SField.shouldInclude w.1.1 withSigningFields withNotHashedField
  then map_emplace (fieldCode w.1.1) w m else m.

(** [addFieldID], the value, and the end marker of an array or object *)
Definition add_field (s : Serializer.t) (w : writer) : result Serializer.t :=
  let '(f, type, add) := w in
  let s := (Serializer.addFieldID s (fieldType f) (fieldValue f)).1 in
  s ← add s;
  if type =? STI_ARRAY then Ok (Serializer.addFieldID s STI_ARRAY 1).1
  else if type =? STI_OBJECT then Ok (Serializer.addFieldID s STI_OBJECT 1).1
  else Ok s.

Fixpoint add_fields (l : list (Z * writer)) (s : Serializer.t) : result Serializer.t :=
  match l with
  | [] => Ok s
  | (_, w) :: l => s ← add_field s w; add_fields l s
  end.

Definition add_sorted (withSigningFields withNotHashedField : bool) (l : list writer)
    (s : Serializer.t) : result Serializer.t :=
  add_fields (foldl (pick withSigningFields withNotHashedField) [] l) s.

(** [STArray::add] *)
Fixpoint add_elems (l : list (SField * (Serializer.t → result Serializer.t))) (s : Serializer.t)
    : result Serializer.t :=
  match l with
  | [] => Ok s
  | (f, add) :: l =>
      let s := (Serializer.addFieldID s (fieldType f) (fieldValue f)).1 in
      s ← add s;
      let s := (Serializer.addFieldID s STI_OBJECT 1).1 in
      add_elems l s
  end.

(** The virtual [add (Serializer&)] *)
Fixpoint add_value (v : value) (s : Serializer.t) : result Serializer.t :=
  let writers (o : STObject) := map (λ '(f, x), (f, getSType x, add_value x)) (v_ o) in
  match v with
  | NotPresent => Ok s
  | UInt8 n => Ok (Serializer.add8 s n).1
  | UInt16 n => Ok (Serializer.add16 s n).1
  | UInt32 n => Ok (Serializer.add32 s n).1
  | UInt64 n => Ok (Serializer.add64 s n).1
  | Hash128 n => Ok (Serializer.add128 s n).1
  | Hash160 n => Ok (Serializer.add160 s n).1
  | Hash256 n => Ok (Serializer.add256 s n).1
  | Amount a => Ok (STAmount.serialize a s)
  | Blob b => '(s, _) ← Serializer.addVL s b; Ok s
  | Account n default_ => STAccount.add n default_ s
  | PathSet l => Ok (STPathSet.add l s)
  | Vector256 l => STVector.add 256 l s
  | Vector128 l => STVector.add 128 l s
  | Object o => add_sorted true true (writers o) s
  | Array l => add_elems (map (λ '(f, o), (f, add_sorted true true (writers o))) l) s
  end.

(** [STObject::add (s, withSigningFields, withNotHashedField)] *)
Definition add (o : STObject) (withSigningFields withNotHashedField : bool) (s : Serializer.t)
    : result Serializer.t :=
  add_sorted withSigningFields withNotHashedField
    (map (λ '(f, x), (f, getSType x, add_value x)) (v_ o)) s.

Definition getSerializer (o : STObject) : result Serializer.t := add o true true (Serializer.mk []).

Definition getHash (sha512Half : list Z → Z) (o : STObject) (prefix : Z) : result Z :=
  let s := (Serializer.add32 (Serializer.mk []) prefix).1 in
  s ← add o true false s; Ok (sha512Half (Serializer.mData s)).

Definition getSigningHash (sha512Half : list Z → Z) (o : STObject) (prefix : Z) : result Z :=
  let s := (Serializer.add32 (Serializer.mk []) prefix).1 in
  s ← add o false true s; Ok (sha512Half (Serializer.mData s)).

(** ** Templates *)

(** [std::find_if] of a field by its code, and [erase] of what was found *)
Fixpoint extract (f : SField) (v : list (SField * value)) : option (SField * value * list (SField * value)) :=
  match v with
  | [] => None
  | b :: v =>
      if SField.eqb b.1 f then Some (b, v)
      else '(x, v) ← extract f v; Some (x, b :: v)
  end.

(** The loop of [setType]: whether the elements of the template are satisfied, the fields
    in the order of the template, and the fields that are left *)
Fixpoint setType_loop (type : SOTemplate) (v : list (SField * value))
    : bool * list (SField * value) * list (SField * value) :=
  match type with
  | [] => (true, [], v)
  | e :: type =>
      match extract (e_field e) v with
      | Some (x, v) =>
          let '(valid, out, rest) := setType_loop type v in
          (negb (bool_decide (flags e = SOE_DEFAULT) && isDefault x.2) && valid, x :: out, rest)
      | None =>
          let '(valid, out, rest) := setType_loop type v in
          (negb (bool_decide (flags e = SOE_REQUIRED)) && valid, (e_field e, NotPresent) :: out, rest)
      end
  end.

Definition setType (type : SOTemplate) (o : STObject) : bool * STObject :=
  let '(valid, out, rest) := setType_loop type (v_ o) in
  (valid && forallb (λ e, SField.isDiscardable e.1) rest, mkFields out (Some type)).

Inductive ResultOfSetTypeFromSField := typeSetFail | typeIsSet | noTemplate.

Definition setTypeFromSField (sField : SField) (o : STObject) : ResultOfSetTypeFromSField * STObject :=
  match findSOTemplateBySField sField with
  | None => (noTemplate, o)
  | Some elements =>
      let '(valid, o) := setType elements o in
      ((if valid then typeIsSet else typeSetFail), o)
  end.

(** [STObject::set (SOTemplate const&)] *)
Fixpoint set_template_fields (type : SOTemplate) : result (list (SField * value)) :=
  match type with
  | [] => Ok []
  | e :: type =>
      x ← (if bool_decide (flags e ≠ SOE_REQUIRED) then Ok NotPresent else default_value (fieldType (e_field e)));
      l ← set_template_fields type; Ok ((e_field e, x) :: l)
  end.

Definition set_template (type : SOTemplate) : result STObject :=
  l ← set_template_fields type; Ok (mkFields l (Some type)).

(** ** Reading *)

(** [STVar (SerialIter&, SField)]; [obj] and [arr] read the fields of an object and the
    elements of an array. *)
Definition STVar (obj : SerialIter.t → result (list (SField * value) * bool * SerialIter.t))
    (arr : SerialIter.t → result (list (SField * STObject) * SerialIter.t))
    (sit : SerialIter.t) (name : SField) : result (value * SerialIter.t) :=
  let id := fieldType name in
  if id =? STI_NOTPRESENT then Ok (NotPresent, sit)
  else if id =? STI_UINT8 then '(n, sit) ← SerialIter.get8 sit; Ok (UInt8 n, sit)
  else if id =? STI_UINT16 then '(n, sit) ← SerialIter.get16 sit; Ok (UInt16 n, sit)
  else if id =? STI_UINT32 then '(n, sit) ← SerialIter.get32 sit; Ok (UInt32 n, sit)
  else if id =? STI_UINT64 then '(n, sit) ← SerialIter.get64 sit; Ok (UInt64 n, sit)
  else if id =? STI_AMOUNT then '(a, sit) ← STAmount.deserialize sit; Ok (Amount a, sit)
  else if id =? STI_HASH128 then '(n, sit) ← SerialIter.get128 sit; Ok (Hash128 n, sit)
  else if id =? STI_HASH160 then '(n, sit) ← SerialIter.get160 sit; Ok (Hash160 n, sit)
  else if id =? STI_HASH256 then '(n, sit) ← SerialIter.get256 sit; Ok (Hash256 n, sit)
  else if id =? STI_VECTOR256 then '(l, sit) ← STVector.read 256 sit; Ok (Vector256 l, sit)
  else if id =? STI_VECTOR128 then '(l, sit) ← STVector.read 128 sit; Ok (Vector128 l, sit)
  else if id =? STI_VL then '(b, sit) ← SerialIter.getVL sit; Ok (Blob b, sit)
  else if id =? STI_ACCOUNT then '(n, default_, sit) ← STAccount.read sit; Ok (Account n default_, sit)
  else if id =? STI_PATHSET then '(l, sit) ← STPathSet.read sit; Ok (PathSet l, sit)
  else if id =? STI_OBJECT then '(v, _, sit) ← obj sit; Ok (Object (mkFields v None), sit)
  else if id =? STI_ARRAY then '(l, sit) ← arr sit; Ok (Array l, sit)
  else Throw (runtime_error "Unknown object type").

Definition is_marker (id type field : Z) : bool := (type =? id) && (field =? 1).

(** What [STObject::set] does with an object it has read: give it its template *)
Definition bind_template (fn : SField) (x : value) : result value :=
  match x with
  | Object o =>
      match setTypeFromSField fn o with
      | (typeSetFail, _) => Throw (runtime_error "field deserialization error")
      | (_, o) => Ok (Object o)
      end
  | _ => Ok x
  end.

(** The loops of [STObject::set (SerialIter&, int depth)], with the fields so far and
    whether the end marker was reached, and of [STArray::STArray (SerialIter&, SField)].
    Every iteration and every nested call comes after a field identifier was read, so the
    number of bytes bounds them together. *)
Fixpoint set_fields (fuel : nat) (v : list (SField * value)) (sit : SerialIter.t)
    : result (list (SField * value) * bool * SerialIter.t) :=
  match fuel with
  | O => Throw out_of_fuel
  | S fuel =>
      if SerialIter.empty sit then Ok (v, false, sit)
      else
        '(type, field, sit) ← SerialIter.getFieldID sit;
        if is_marker STI_ARRAY type field then Throw (runtime_error "Illegal terminator in object")
        else if is_marker STI_OBJECT type field then Ok (v, true, sit)
        else
          let fn := getField (field_code type field) in
          if SField.isInvalid fn then Throw (runtime_error "Unknown field")
          else
            '(x, sit) ← STVar (set_fields fuel []) (set_elems fuel []) sit fn;
            x ← bind_template fn x;
            set_fields fuel (v ++ [(fn, x)]) sit
  end
with set_elems (fuel : nat) (v : list (SField * STObject)) (sit : SerialIter.t)
    : result (list (SField * STObject) * SerialIter.t) :=
  match fuel with
  | O => Throw out_of_fuel
  | S fuel =>
      if SerialIter.empty sit then Ok (v, sit)
      else
        '(type, field, sit) ← SerialIter.getFieldID sit;
        if is_marker STI_ARRAY type field then Ok (v, sit)
        else if is_marker STI_OBJECT type field then Throw (runtime_error "Illegal terminator in array")
        else
          let fn := getField (field_code type field) in
          if SField.isInvalid fn then Throw (runtime_error "Unknown field")
          else if negb (fieldType fn =? STI_OBJECT) then Throw (runtime_error "Non-object in array")
          else
            '(l, _, sit) ← set_fields fuel [] sit;
            match setTypeFromSField fn (mkFields l None) with
            | (typeSetFail, _) => Throw (runtime_error "Malformed object in array")
            | (_, o) => set_elems fuel (v ++ [(fn, o)]) sit
            end
  end.

(** [STObject (SerialIter&, SField)]: a free object *)
Definition read_object (sit : SerialIter.t) : result (STObject * bool * SerialIter.t) :=
  '(v, ended, sit) ← set_fields (S (SerialIter.remain_ sit)) [] sit;
  Ok (mkFields v None, ended, sit).

(** ** Access to fields *)

Definition isFree (o : STObject) : bool := bool_decide (mType o = None).

(** The index of a field, in the template or, for a free object, among its fields *)
Definition getFieldIndex (o : STObject) (field : SField) : result (option nat) :=
  match mType o with
  | Some type => getIndex type field
  | None => Ok (fst <$> list_find (λ e, SField.eqb e.1 field) (v_ o))
  end.

Definition peekAtPField (o : STObject) (field : SField) : result (option (SField * value)) :=
  index ← getFieldIndex o field;
  Ok (match index with None => None | Some i => v_ o !! i end).

Definition peekAtField (o : STObject) (field : SField) : result (SField * value) :=
  e ← peekAtPField o field;
  match e with
  | None => Throw (runtime_error "Field not found")
  | Some e => Ok e
  end.

Definition isFieldPresent (o : STObject) (field : SField) : result bool :=
  e ← peekAtPField o field;
  Ok (match e with None => false | Some e => negb (getSType e.2 =? STI_NOTPRESENT) end).

Definition with_fields (o : STObject) (v : list (SField * value)) : STObject := mkFields v (mType o).

Definition emplace_back (o : STObject) (field : SField) (x : value) : STObject * nat :=
  (with_fields o (v_ o ++ [(field, x)]), length (v_ o)).

(** [getPField (field, createOkay)]: the object, with a default value added to a free
    object that lacks the field, and the index *)
Definition getPField (o : STObject) (field : SField) (createOkay : bool) : result (option (STObject * nat)) :=
  index ← getFieldIndex o field;
  match index with
  | Some i => Ok (Some (o, i))
  | None =>
      if createOkay && isFree o then
        x ← default_value (fieldType field); Ok (Some (emplace_back o field x))
      else Ok None
  end.

Definition makeFieldPresent (o : STObject) (field : SField) : result (STObject * nat) :=
  index ← getFieldIndex o field;
  match index with
  | None =>
      if negb (isFree o) then Throw (runtime_error "Field not found")
      else Ok (emplace_back o field NotPresent)
  | Some i =>
      match v_ o !! i with
      | None => Throw (undefined_behaviour "index of a field")
      | Some (f, x) =>
          if negb (getSType x =? STI_NOTPRESENT) then Ok (o, i)
          else
            x ← default_value (fieldType f);
            Ok (with_fields o (<[i := (f, x)]> (v_ o)), i)
      end
  end.

Definition makeFieldAbsent (o : STObject) (field : SField) : result STObject :=
  index ← getFieldIndex o field;
  match index with
  | None => Throw (runtime_error "Field not found")
  | Some i =>
      match v_ o !! i with
      | None => Throw (undefined_behaviour "index of a field")
      | Some (f, x) =>
          if getSType x =? STI_NOTPRESENT then Ok o
          else Ok (with_fields o (<[i := (f, NotPresent)]> (v_ o)))
      end
  end.

Definition delField (o : STObject) (field : SField) : result (bool * STObject) :=
  index ← getFieldIndex o field;
  Ok (match index with
      | None => (false, o)
      | Some i => (true, with_fields o (delete i (v_ o)))
      end).

(** [getFieldByValue] and [getFieldByConstRef]; [cast] is the dynamic cast. *)
Definition getFieldBy {V} (cast : value → option V) (empty : V) (o : STObject) (field : SField) : result V :=
  e ← peekAtPField o field;
  match e with
  | None => Throw (runtime_error "Field not found")
  | Some (_, x) =>
      if getSType x =? STI_NOTPRESENT then Ok empty
      else match cast x with
           | None => Throw (runtime_error "Wrong field type")
           | Some v => Ok v
           end
  end.

Definition as_u8 (x : value) : option Z := match x with UInt8 n => Some n | _ => None end.
Definition as_u16 (x : value) : option Z := match x with UInt16 n => Some n | _ => None end.
Definition as_u32 (x : value) : option Z := match x with UInt32 n => Some n | _ => None end.
Definition as_u64 (x : value) : option Z := match x with UInt64 n => Some n | _ => None end.
Definition as_h128 (x : value) : option Z := match x with Hash128 n => Some n | _ => None end.
Definition as_h160 (x : value) : option Z := match x with Hash160 n => Some n | _ => None end.
Definition as_h256 (x : value) : option Z := match x with Hash256 n => Some n | _ => None end.
Definition as_account (x : value) : option Z := match x with Account n _ => Some n | _ => None end.
Definition as_blob (x : value) : option (list Z) := match x with Blob b => Some b | _ => None end.
Definition as_amount (x : value) : option STAmount.t := match x with Amount a => Some a | _ => None end.
Definition as_v256 (x : value) : option (list Z) := match x with Vector256 l => Some l | _ => None end.

Definition getFieldU8 := getFieldBy as_u8 0.
Definition getFieldU16 := getFieldBy as_u16 0.
Definition getFieldU32 := getFieldBy as_u32 0.
Definition getFieldU64 := getFieldBy as_u64 0.
Definition getFieldH128 := getFieldBy as_h128 0.
Definition getFieldH160 := getFieldBy as_h160 0.
Definition getFieldH256 := getFieldBy as_h256 0.
Definition getAccountID := getFieldBy as_account 0.
Definition getFieldVL := getFieldBy as_blob [].
Definition getFieldAmount := getFieldBy as_amount (STAmount.make_csc 0 false).
Definition getFieldV256 := getFieldBy as_v256 [].

(** [setFieldUsingSetValue] and [setFieldUsingAssignment]: the new value replaces a value
    of the same type. *)
Definition setField (x : value) (o : STObject) (field : SField) : result STObject :=
  r ← getPField o field true;
  match r with
  | None => Throw (runtime_error "Field not found")
  | Some (o, i) =>
      '(o, i) ← (match v_ o !! i with
                 | None => Throw (undefined_behaviour "index of a field")
                 | Some (_, y) => if getSType y =? STI_NOTPRESENT then makeFieldPresent o field else Ok (o, i)
                 end);
      match v_ o !! i with
      | None => Throw (undefined_behaviour "index of a field")
      | Some (f, y) =>
          if negb (getSType y =? getSType x) then Throw (runtime_error "Wrong field type")
          else Ok (with_fields o (<[i := (f, x)]> (v_ o)))
      end
  end.

Definition setFieldU8 (o : STObject) (field : SField) (v : Z) := setField (UInt8 v) o field.
Definition setFieldU16 (o : STObject) (field : SField) (v : Z) := setField (UInt16 v) o field.
Definition setFieldU32 (o : STObject) (field : SField) (v : Z) := setField (UInt32 v) o field.
Definition setFieldU64 (o : STObject) (field : SField) (v : Z) := setField (UInt64 v) o field.
Definition setFieldH128 (o : STObject) (field : SField) (v : Z) := setField (Hash128 v) o field.
Definition setFieldH160 (o : STObject) (field : SField) (v : Z) := setField (Hash160 v) o field.
Definition setFieldH256 (o : STObject) (field : SField) (v : Z) := setField (Hash256 v) o field.
Definition setFieldV256 (o : STObject) (field : SField) (v : list Z) := setField (Vector256 v) o field.
Definition setFieldV128 (o : STObject) (field : SField) (v : list Z) := setField (Vector128 v) o field.
Definition setAccountID (o : STObject) (field : SField) (v : Z) := setField (Account v false) o field.
Definition setFieldVL (o : STObject) (field : SField) (v : list Z) := setField (Blob v) o field.
Definition setFieldAmount (o : STObject) (field : SField) (v : STAmount.t) := setField (Amount v) o field.
Definition setFieldArray (o : STObject) (field : SField) (v : list (SField * STObject)) := setField (Array v) o field.
Definition setFieldObject (o : STObject) (field : SField) (v : STObject) := setField (Object v) o field.

(** ** Flags *)

Definition getFlags (o : STObject) : result Z :=
  e ← peekAtPField o sfFlags;
  Ok (match e with Some (_, UInt32 n) => n | _ => 0 end).

Definition isFlag (o : STObject) (f : Z) : result bool := flags ← getFlags o; Ok (Z.land flags f =? f).

Definition setFlag (o : STObject) (f : Z) : result (bool * STObject) :=
  r ← getPField o sfFlags true;
  match r with
  | None => Ok (false, o)
  | Some (o, i) =>
      match v_ o !! i with
      | Some (g, UInt32 n) => Ok (true, with_fields o (<[i := (g, UInt32 (Z.lor n f))]> (v_ o)))
      | _ => Ok (false, o)
      end
  end.

Definition clearFlag (o : STObject) (f : Z) : result (bool * STObject) :=
  index ← getFieldIndex o sfFlags;
  Ok (match index with
      | None => (false, o)
      | Some i =>
          match v_ o !! i with
          | Some (g, UInt32 n) => (true, with_fields o (<[i := (g, UInt32 (Z.land n (u32 (Z.lnot f))))]> (v_ o)))
          | _ => (false, o)
          end
      end).

End STObject.
