(* ===== verification/STLedgerEntry.v ===== *)
(** * STLedgerEntry: ledger entries

    Models [protocol/STLedgerEntry.h] and [protocol/impl/STLedgerEntry.cpp]: an entry of the
    state of a ledger is an object with a key, bound to the template of its type. *)

From S2P Require Import Prelude Serializer SerialIter SField ReadView SOTemplate STObject.

Module STLedgerEntry.
Import STObject.

(** An entry without values but the required defaults *)
Definition make (k : Keylet) : result (SLE STObject) :=
  match findByType LedgerFormats (k_type k) with
  | None => Throw (runtime_error "invalid ledger entry type")
  | Some elements =>
      o ← set_template elements;
      o ← setFieldU16 o sfLedgerEntryType (u16 (k_type k));
      Ok (mkSLE (k_key k) (k_type k) o)
  end.

(** [setSLEType]: the type and the object bound to its template *)
Definition setSLEType (o : STObject) : result (Z * STObject) :=
  type ← getFieldU16 o sfLedgerEntryType;
  match findByType LedgerFormats type with
  | None => Throw (runtime_error "invalid ledger entry type")
  | Some elements =>
      let '(valid, o) := setType elements o in
      if negb valid then Throw (runtime_error "ledger entry not valid for type") else Ok (type, o)
  end.

(** [STLedgerEntry (SerialIter&, uint256)] *)
Definition read (sit : SerialIter.t) (index : Z) : result (SLE STObject) :=
  '(o, _, _) ← read_object sit;
  '(type, o) ← setSLEType o;
  Ok (mkSLE index type o).

(** [STLedgerEntry (STObject, uint256)] *)
Definition of_object (o : STObject) (index : Z) : result (SLE STObject) :=
  '(type, o) ← setSLEType o; Ok (mkSLE index type o).

Definition isThreadedType (e : SLE STObject) : result bool :=
  index ← getFieldIndex (sle_data e) sfPreviousTxnID; Ok (bool_decide (is_Some index)).

(** [thread (txID, ledgerSeq, prevTxID, prevLedgerID)]: the entry with the transaction, and
    the transaction and ledger it replaces, unless it is threaded already *)
Definition thread (e : SLE STObject) (txID ledgerSeq : Z) : result (option (Z * Z) * SLE STObject) :=
  oldPrevTxID ← getFieldH256 (sle_data e) sfPreviousTxnID;
  if oldPrevTxID =? txID then Ok (None, e)
  else
    prevLedgerID ← getFieldU32 (sle_data e) sfPreviousTxnLgrSeq;
    o ← setFieldH256 (sle_data e) sfPreviousTxnID txID;
    o ← setFieldU32 o sfPreviousTxnLgrSeq ledgerSeq;
    Ok (Some (oldPrevTxID, prevLedgerID), mkSLE (sle_key e) (sle_type e) o).

End STLedgerEntry.
