(* ===== verification/STObjectSpec.v ===== *)
(** * STObjectSpec: the binary form of objects

    Which values and objects have a binary form, that the form is read back as the value
    it was written from, nested objects and templates included, and that reading ends. *)

From stdpp Require Import sorting.
From S2P Require Import Prelude Serializer SerialIter SField Issue STAmount STAmountWire ReadView SOTemplate STObject STLedgerEntry.

Module STObjectSpec.
Import STObject.

#[local] Arguments be_bytes : simpl never.

(** ** Scalar values *)

(** Fields with an identifier in the binary form *)
Record serializable (f : SField) : Prop := {
  s_getField : getField (fieldCode f) = f;
  s_code : fieldCode f = field_code (fieldType f) (fieldValue f);
  s_type : 0 < fieldType f < 256;
  s_value : 0 < fieldValue f < 256;
  s_object : is_marker STI_OBJECT (fieldType f) (fieldValue f) = false;
  s_array : is_marker STI_ARRAY (fieldType f) (fieldValue f) = false;
  s_valid : SField.isInvalid f = false }.

(** Elements that are read back as they are: their type bits are those the constructor
    computes, and the type byte is no end marker. *)
Definition valid_element (e : STPathElement.t) : Prop :=
  let '(STPathElement.mk ty a c i) := e in
  e = STPathElement.make a c i (STPathElement.has ty STPathElement.typeCurrency) ∧ ty ≠ 0 ∧
  is_uint160 a ∧ is_uint160 c ∧ is_uint160 i.

Definition valid_scalar (x : value) : Prop :=
  match x with
  | UInt8 n => is_unsigned 8 n
  | UInt16 n => is_unsigned 16 n
  | UInt32 n => is_unsigned 32 n
  | UInt64 n => is_unsigned 64 n
  | Hash128 n => is_unsigned 128 n
  | Hash160 n => is_unsigned 160 n
  | Hash256 n => is_unsigned 256 n
  | Amount a => encodable a
  | Blob b => Z.of_nat (length b) ≤ 918744
  | Account n default_ => if default_ then n = 0 else is_unsigned 160 n
  | PathSet l => l ≠ [] ∧ Forall (λ p, p ≠ [] ∧ Forall valid_element p) l
  | Vector256 l => Z.of_nat (length l * 32) ≤ 918744 ∧ Forall (is_unsigned 256) l
  | Vector128 l => Z.of_nat (length l * 16) ≤ 918744 ∧ Forall (is_unsigned 128) l
  | NotPresent | Object _ | Array _ => False
  end.

(** [x] is written as [b], and [rd] reads it back. *)
Definition codes {A} (wr : Serializer.t → result Serializer.t) (rd : SerialIter.t → result (A * SerialIter.t))
    (x : A) (b : list Z) : Prop :=
  (∀ s, wr s = Ok (Serializer.mk (Serializer.mData s ++ b))) ∧
  ∀ pre rest, rd (cursor pre (b ++ rest)) = Ok (x, cursor (pre ++ b) rest).

Lemma vl_codes b :
  Z.of_nat (length b) ≤ 918744 →
  codes (λ s, '(s, _) ← Serializer.addVL s b; Ok s) SerialIter.getVL b (vl_bytes (Z.of_nat (length b)) ++ b).
Proof.
  intros Hb. split.
  - intros s. unfold Serializer.addVL. unwrap. rewrite addEncoded_bytes by lia. simpl. by rewrite app_assoc.
  - intros pre rest. unfold SerialIter.getVL. rewrite <- app_assoc, getVLDataLength_cursor by lia. simpl.
    rewrite Nat2Z.id. unfold SerialIter.getRaw. by rewrite getRawHelper_cursor, <- app_assoc.
Qed.

Lemma account_codes n (default_ : bool) :
  (if default_ then n = 0 else is_unsigned 160 n) →
  ∃ b, codes (STAccount.add n default_) STAccount.read (n, default_) b.
Proof.
  intros Hn. set (v := if default_ then [] else be_bytes 20 n).
  assert (Z.of_nat (length v) ≤ 918744) as Hl.
  { unfold v. destruct default_; [simpl; lia|]. rewrite length_be_bytes. lia. }
  destruct (vl_codes v Hl) as [Hw Hr]. eexists. split; [exact Hw|].
  intros pre rest. unfold STAccount.read. rewrite Hr. simpl. unfold v. destruct default_; [by rewrite Hn|].
  rewrite bool_decide_eq_false_2 by done. rewrite length_be_bytes. simpl negb. cbn [mbind].
  rewrite be_bytes_small; [done|]. exact Hn.
Qed.

Lemma values_concat n l :
  Forall (λ v, 0 ≤ v < 256 ^ Z.of_nat n) l → STVector.values (length l) n (concat (be_bytes n <$> l)) = l.
Proof.
  induction 1 as [|v l Hv Hl IH]; [done|]. cbn [fmap list_fmap concat length STVector.values].
  rewrite take_app_length', drop_app_length' by (by rewrite length_be_bytes).
  by rewrite be_bytes_small, IH.
Qed.

Lemma length_concat_bytes n l : length (concat (be_bytes n <$> l)) = (length l * n)%nat.
Proof.
  induction l as [|v l IH]; [done|]. cbn [fmap list_fmap concat length]. rewrite length_app, length_be_bytes.
  rewrite IH. lia.
Qed.

Lemma add_raw_all n l s :
  foldl (λ s v, (Serializer.addRaw s (be_bytes n v)).1) s l =
  Serializer.mk (Serializer.mData s ++ concat (be_bytes n <$> l)).
Proof.
  revert s. induction l as [|v l IH]; intros s; simpl; [destruct s; by rewrite app_nil_r|].
  rewrite IH. simpl. by rewrite <- app_assoc.
Qed.

Lemma vector_codes bits l :
  (0 < bits / 8)%nat → Z.of_nat (length l * (bits / 8)) ≤ 918744 →
  Forall (λ v, 0 ≤ v < 256 ^ Z.of_nat (bits / 8)) l →
  ∃ b, codes (STVector.add bits l) (STVector.read bits) l b.
Proof.
  unfold codes, STVector.read, STVector.add. generalize (bits / 8)%nat as n. intros n Hn Hl Hv.
  destruct (vl_codes (concat (be_bytes n <$> l))) as [_ Hr]; [by rewrite length_concat_bytes|].
  eexists. split; [|intros pre rest; rewrite Hr; simpl].
  - intros s. unwrap. rewrite addEncoded_bytes by lia.
    cbn -[Serializer.addRaw be_bytes foldl]. rewrite add_raw_all. simpl.
    by rewrite <- app_assoc, length_concat_bytes.
  - rewrite length_concat_bytes, Nat.div_mul by lia. by rewrite values_concat.
Qed.

(** ** Path sets *)

Definition opt_bytes (present : bool) (n : Z) : list Z := if present then be_bytes 20 n else [].

Definition element_bytes (e : STPathElement.t) : list Z :=
  let ty := STPathElement.mType e in
  ty :: opt_bytes (STPathElement.has ty STPathElement.typeAccount) (STPathElement.mAccountID e) ++
    opt_bytes (STPathElement.has ty STPathElement.typeCurrency) (STPathElement.mCurrencyID e) ++
    opt_bytes (STPathElement.has ty STPathElement.typeIssuer) (STPathElement.mIssuerID e).

Lemma opt_read present n pre rest :
  is_uint160 n → (present = false → n = 0) →
  (if present then SerialIter.get160 (cursor pre (opt_bytes present n ++ rest))
   else Ok (0, cursor pre (opt_bytes present n ++ rest))) = Ok (n, cursor (pre ++ opt_bytes present n) rest).
Proof.
  intros Hn H0. destruct present; simpl.
  - by apply (getBitString_cursor 160).
  - by rewrite H0, app_nil_r.
Qed.

Lemma opt_add (present : bool) n s :
  (if present then (Serializer.add160 s n).1 else s) = Serializer.mk (Serializer.mData s ++ opt_bytes present n).
Proof. destruct present, s; simpl; by rewrite ?app_nil_r. Qed.

(** The type byte of a valid element names the parts it has. *)
Lemma element_type e :
  valid_element e → 0 < STPathElement.mType e < 255 ∧
  Z.land (STPathElement.mType e) (Z.lnot STPathElement.typeAll) = 0 ∧
  (STPathElement.has (STPathElement.mType e) STPathElement.typeAccount = false → STPathElement.mAccountID e = 0) ∧
  (STPathElement.has (STPathElement.mType e) STPathElement.typeCurrency = false → STPathElement.mCurrencyID e = 0) ∧
  (STPathElement.has (STPathElement.mType e) STPathElement.typeIssuer = false → STPathElement.mIssuerID e = 0).
Proof.
  destruct e as [ty a c i]. intros (He & Hty & _). unfold STPathElement.make, Issue.isCSC in He. injection He as He.
  simpl. destruct (STPathElement.has ty STPathElement.typeCurrency) eqn:Eb;
    destruct (a =? 0) eqn:Ea, (c =? 0) eqn:Ec, (i =? 0) eqn:Ei; zb; simpl in He; subst ty;
    try done; try (by vm_compute in Eb);
    (split_and!; [by vm_compute..|intros Hh|intros Hh|intros Hh]; first [done|by vm_compute in Hh]).
Qed.

Lemma element_add e s : valid_element e → STPathElement.add e s = Serializer.mk (Serializer.mData s ++ element_bytes e).
Proof.
  intros He. destruct (element_type e He) as (Hty & _). unfold STPathElement.add, element_bytes.
  rewrite !opt_add. simpl. rewrite wrapu_id by wrap_solve. by rewrite <- !app_assoc.
Qed.

Lemma element_read e pre rest :
  valid_element e →
  STPathElement.read (STPathElement.mType e) (cursor (pre ++ [STPathElement.mType e]) (drop 1 (element_bytes e) ++ rest)) =
  Ok (e, cursor (pre ++ element_bytes e) rest).
Proof.
  intros He. destruct (element_type e He) as (_ & _ & Ha & Hc & Hi). destruct e as [ty a c i].
  destruct He as (He & _ & Ra & Rc & Ri). unfold STPathElement.read, element_bytes. simpl in *.
  rewrite drop_0, <- !app_assoc, opt_read by done. simpl. rewrite opt_read by done. simpl. rewrite opt_read by done. simpl.
  by rewrite <- He, <- !app_assoc.
Qed.

Definition path_bytes (p : STPath) : list Z := concat (element_bytes <$> p).

Fixpoint pathset_bytes (l : list STPath) : list Z :=
  match l with
  | [] => [STPathElement.typeNone]
  | [p] => path_bytes p ++ [STPathElement.typeNone]
  | p :: l => path_bytes p ++ STPathElement.typeBoundary :: pathset_bytes l
  end.

Lemma path_add p s :
  Forall valid_element p → foldl (λ s e, STPathElement.add e s) s p = Serializer.mk (Serializer.mData s ++ path_bytes p).
Proof.
  intros Hp. revert s. induction Hp as [|e p He Hp IH]; intros s; simpl; [destruct s; by rewrite app_nil_r|].
  rewrite element_add by done. rewrite IH. unfold path_bytes. simpl. by rewrite <- app_assoc.
Qed.

Lemma pathset_add_loop l s :
  Forall (λ p, p ≠ [] ∧ Forall valid_element p) l →
  ((Serializer.add8 (foldl STPathSet.add_path (s, false) l).1 STPathElement.typeNone).1 =
   Serializer.mk (Serializer.mData s ++
     match l with [] => [] | _ => [STPathElement.typeBoundary] end ++ pathset_bytes l)).
Proof.
  intros Hl. revert s. induction Hl as [|p l [_ Hp] Hl IH]; intros s; [done|]. cbn [foldl STPathSet.add_path negb].
  rewrite path_add by done. rewrite IH. simpl. rewrite <- !app_assoc. f_equal. f_equal. simpl.
  destruct l; simpl; by rewrite <- ?app_assoc.
Qed.

Lemma path_read p fuel path l pre rest :
  Forall valid_element p →
  STPathSet.read_loop (length p + fuel) path l (cursor pre (path_bytes p ++ rest)) =
  STPathSet.read_loop fuel (path ++ p) l (cursor (pre ++ path_bytes p) rest).
Proof.
  intros Hp. revert path pre. induction Hp as [|e p He Hp IH]; intros path pre; [by rewrite !app_nil_r|].
  unfold path_bytes. cbn [length Nat.add fmap list_fmap concat STPathSet.read_loop]. fold (path_bytes p).
  destruct (element_type e He) as (Hty & Hall & _). pose proof (element_read e pre (path_bytes p ++ rest) He) as Hr.
  assert (element_bytes e = STPathElement.mType e :: drop 1 (element_bytes e)) as E by done.
  set (body := drop 1 (element_bytes e)) in *. clearbody body. rewrite E in *.
  rewrite <- app_assoc, <- app_comm_cons, get8_cursor. simpl. unfold STPathElement.typeNone, STPathElement.typeBoundary.
  rewrite !(proj2 (Z.eqb_neq _ _)) by lia. rewrite (proj2 (Z.eqb_eq _ 0) Hall). simpl. rewrite Hr. simpl.
  rewrite IH, <- !app_assoc. done.
Qed.

Lemma length_path_bytes p : (length p ≤ length (path_bytes p))%nat.
Proof.
  induction p as [|e p IH]; [done|]. unfold path_bytes in *. cbn [fmap list_fmap concat length]. rewrite length_app.
  assert (0 < length (element_bytes e))%nat by (unfold element_bytes; simpl; lia). lia.
Qed.

Lemma pathset_read_loop l fuel done_ pre rest :
  l ≠ [] → Forall (λ p, p ≠ [] ∧ Forall valid_element p) l → (length (pathset_bytes l ++ rest) ≤ fuel)%nat →
  STPathSet.read_loop fuel [] done_ (cursor pre (pathset_bytes l ++ rest)) =
  Ok (done_ ++ l, cursor (pre ++ pathset_bytes l) rest).
Proof.
  intros Hne Hl. revert Hne fuel done_ pre. induction Hl as [|p l [Hp0 Hp] Hl IH]; intros Hne fuel done_ pre Hf; [done|].
  pose proof (length_path_bytes p). destruct l as [|p' l]; cbn [pathset_bytes] in *; rewrite <- app_assoc in *.
  - rewrite length_app in Hf. simpl in Hf. replace fuel with (length p + S (fuel - length p - 1))%nat by lia.
    rewrite path_read by done. simpl. rewrite get8_cursor. simpl. rewrite bool_decide_eq_false_2 by done.
    by rewrite <- app_assoc.
  - rewrite length_app in Hf. simpl in Hf. replace fuel with (length p + S (fuel - length p - 1))%nat by lia.
    rewrite path_read by done. simpl. rewrite get8_cursor. simpl. rewrite bool_decide_eq_false_2 by done.
    rewrite IH by (done || (cbn [pathset_bytes] in *; lia)). by rewrite <- !app_assoc.
Qed.

Lemma pathset_codes l :
  l ≠ [] → Forall (λ p, p ≠ [] ∧ Forall valid_element p) l →
  codes (λ s, Ok (STPathSet.add l s)) STPathSet.read l (pathset_bytes l).
Proof.
  intros Hne Hl. split.
  - intros s. f_equal. unfold STPathSet.add. inversion Hl as [|p l' [_ Hp] Hl']; subst; [done|].
    cbn [foldl STPathSet.add_path negb]. rewrite path_add by done.
    pose proof (pathset_add_loop l' (Serializer.mk (Serializer.mData s ++ path_bytes p)) Hl') as E.
    destruct (foldl _ _ _) as [s' b]. simpl in E |- *. rewrite E. rewrite <- app_assoc. f_equal. f_equal.
    by destruct l'.
  - intros pre rest. unfold STPathSet.read. rewrite remain_cursor. by rewrite pathset_read_loop by (done || lia).
Qed.

(** ** One field *)

Definition scalar_bytes (x : value) (b : list Z) : Prop :=
  (∀ s, add_value x s = Ok (Serializer.mk (Serializer.mData s ++ b))) ∧
  ∀ obj arr f pre rest, fieldType f = getSType x →
    STVar obj arr (cursor pre (b ++ rest)) f = Ok (x, cursor (pre ++ b) rest).

Lemma int_codes n :
  (is_unsigned 16 n → scalar_bytes (UInt16 n) (be_bytes 2 n)) ∧
  (is_unsigned 32 n → scalar_bytes (UInt32 n) (be_bytes 4 n)) ∧
  (is_unsigned 64 n → scalar_bytes (UInt64 n) (be_bytes 8 n)).
Proof.
  split_and!; intros Hn; (split; [intros s; cbn [add_value]; by rewrite ?add16_bytes, ?add32_bytes, ?add64_bytes|]);
    intros obj arr f pre rest Hf; unfold STVar; rewrite Hf; cbn -[SerialIter.get16 SerialIter.get32 SerialIter.get64];
    destruct (get_int_cursor pre n rest) as (E16 & E32 & E64); rewrite ?E16, ?E32, ?E64; simpl; by rewrite wrapu_id.
Qed.

Lemma bits_codes n :
  (is_unsigned 128 n → scalar_bytes (Hash128 n) (be_bytes 16 n)) ∧
  (is_unsigned 160 n → scalar_bytes (Hash160 n) (be_bytes 20 n)) ∧
  (is_unsigned 256 n → scalar_bytes (Hash256 n) (be_bytes 32 n)).
Proof.
  split_and!; intros Hn; (split; [done|]); intros obj arr f pre rest Hf; unfold STVar; rewrite Hf;
    cbn -[SerialIter.get128 SerialIter.get160 SerialIter.get256].
  - pose proof (getBitString_cursor 128 pre n rest Hn) as E. unfold SerialIter.get128. change (128 / 8)%nat with 16%nat in E.
    by rewrite E.
  - pose proof (getBitString_cursor 160 pre n rest Hn) as E. unfold SerialIter.get160. change (160 / 8)%nat with 20%nat in E.
    by rewrite E.
  - pose proof (getBitString_cursor 256 pre n rest Hn) as E. unfold SerialIter.get256. change (256 / 8)%nat with 32%nat in E.
    by rewrite E.
Qed.

Lemma scalar_codes x : valid_scalar x → ∃ b, scalar_bytes x b.
Proof.
  destruct x; intros Hv; try exact (False_ind _ Hv).
  - eexists. split; [done|]. intros obj arr f pre rest Hf. unfold STVar. rewrite Hf. cbn -[SerialIter.get8].
    by rewrite get8_cursor.
  - eexists. exact (proj1 (int_codes value_) Hv).
  - eexists. exact (proj1 (proj2 (int_codes value_)) Hv).
  - eexists. exact (proj2 (proj2 (int_codes value_)) Hv).
  - eexists. exact (proj1 (bits_codes value_) Hv).
  - eexists. exact (proj1 (proj2 (bits_codes value_)) Hv).
  - eexists. exact (proj2 (proj2 (bits_codes value_)) Hv).
  - exists (wire value_). split.
    + intros s. cbn [add_value]. f_equal. unfold wire. by rewrite !encodable_word.
    + intros obj arr f pre rest Hf. unfold STVar. rewrite Hf. cbn -[STAmount.deserialize]. by rewrite deserialize_wire.
  - destruct (vl_codes value_ Hv) as [Hw Hr]. eexists. split; [exact Hw|].
    intros obj arr f pre rest Hf. unfold STVar. rewrite Hf. cbn -[SerialIter.getVL]. by rewrite Hr.
  - destruct (account_codes value_ default_ Hv) as (b & Hw & Hr). exists b. split; [exact Hw|].
    intros obj arr f pre rest Hf. unfold STVar. rewrite Hf. cbn -[STAccount.read]. by rewrite Hr.
  - destruct Hv as [Hne Hl]. destruct (pathset_codes value_ Hne Hl) as [Hw Hr]. eexists. split; [exact Hw|].
    intros obj arr f pre rest Hf. unfold STVar. rewrite Hf. cbn -[STPathSet.read]. by rewrite Hr.
  - destruct Hv as [Hlen Hl]. destruct (vector_codes 256 mValue) as (b & Hw & Hr); [apply Nat.ltb_lt; by vm_compute|exact Hlen|exact Hl|].
    exists b. split; [exact Hw|]. intros obj arr f pre rest Hf. unfold STVar. rewrite Hf. cbn -[STVector.read]. by rewrite Hr.
  - destruct Hv as [Hlen Hl]. destruct (vector_codes 128 mValue) as (b & Hw & Hr); [apply Nat.ltb_lt; by vm_compute|exact Hlen|exact Hl|].
    exists b. split; [exact Hw|]. intros obj arr f pre rest Hf. unfold STVar. rewrite Hf. cbn -[STVector.read]. by rewrite Hr.
Qed.

(** ** The order of the fields *)

Section emplace.
Context {A : Type}.
Implicit Types (m : list (Z * A)).

Lemma emplace_fmap {B} (g : A → B) k x m :
  map_emplace k (g x) (prod_map id g <$> m) = prod_map id g <$> map_emplace k x m.
Proof.
  induction m as [|[k' x'] m IH]; [done|]. cbn [fmap list_fmap map_emplace prod_map fst snd id].
  destruct (k <? k'); [done|]. destruct (k =? k'); [done|]. cbn [fmap list_fmap prod_map]. by f_equal.
Qed.

Lemma emplace_fresh k x m : k ∉ m.*1 → map_emplace k x m ≡ₚ (k, x) :: m.
Proof.
  induction m as [|[k' x'] m IH]; intros Hk; [done|]. cbn [map_emplace]. case_if; [done|].
  case_if; zb; [set_solver|]. rewrite IH by set_solver. apply Permutation_swap.
Qed.

Lemma emplace_last k x m : Forall (λ e, e.1 < k) m → map_emplace k x m = m ++ [(k, x)].
Proof.
  induction 1 as [|[k' x'] m Hk Hm IH]; [done|]. cbn [map_emplace fst] in *.
  rewrite (proj2 (Z.ltb_ge _ _)), (proj2 (Z.eqb_neq _ _)), IH by lia. done.
Qed.

End emplace.

Definition present (x : value) : bool := negb (getSType x =? STI_NOTPRESENT).

(** The present fields in the order in which they are written *)
Definition sort_step (m : list (Z * (SField * value))) (e : SField * value) : list (Z * (SField * value)) :=
  if present e.2 && SField.shouldInclude e.1 true true then map_emplace (fieldCode e.1) e m else m.

Definition sorted_fields (l : list (SField * value)) : list (SField * value) := (foldl sort_step [] l).*2.

Definition writer_of (e : SField * value) : writer := (e.1, getSType e.2, add_value e.2).

Lemma pick_sort l m :
  foldl (pick true true) (prod_map id writer_of <$> m) (writer_of <$> l) =
  prod_map id writer_of <$> foldl sort_step m l.
Proof.
  revert m. induction l as [|[f x] l IH]; intros m; [done|]. cbn [fmap list_fmap foldl]. rewrite <- IH. f_equal.
  unfold pick, sort_step, writer_of at 1 2, present. cbn [fst snd]. destruct (_ && _); [|done].
  apply (emplace_fmap writer_of _ (f, x)).
Qed.

Lemma sorted_perm l :
  NoDup (fieldCode <$> l.*1) → Forall (λ e, SField.shouldInclude e.1 true true = true) l →
  sorted_fields l ≡ₚ filter (λ e, present e.2 = true) l.
Proof.
  intros Hd Hi. unfold sorted_fields.
  enough (∀ m, (∀ e, e ∈ l → fieldCode e.1 ∉ m.*1) →
    foldl sort_step m l ≡ₚ reverse ((λ e, (fieldCode e.1, e)) <$> filter (λ e, present e.2 = true) l) ++ m) as H.
  { rewrite (H []) by set_solver. rewrite app_nil_r, fmap_reverse, reverse_Permutation, <- list_fmap_compose.
    by rewrite list_fmap_id. }
  induction Hi as [|e l He Hi IH]; intros m Hm; [done|]. apply NoDup_cons in Hd as [Hn Hd]. cbn [foldl].
  assert (∀ e', e' ∈ l → fieldCode e'.1 ≠ fieldCode e.1) as Hne.
  { intros e' Hin E. apply Hn. rewrite <- E. by do 2 apply list_elem_of_fmap_2. }
  rewrite filter_cons. unfold sort_step at 2. rewrite He, andb_true_r. destruct (decide _) as [Hp|Hp].
  - rewrite Hp. assert (fieldCode e.1 ∉ m.*1) as Hk by (apply Hm; set_solver).
    rewrite IH; [|done|].
    + rewrite (emplace_fresh _ _ _ Hk). cbn [fmap list_fmap]. rewrite reverse_cons, <- app_assoc. done.
    + intros e' Hin. rewrite (emplace_fresh _ _ _ Hk). cbn [fmap list_fmap fst]. apply not_elem_of_cons.
      split; [by apply Hne|]. apply Hm. set_solver.
  - destruct (present e.2); [done|]. apply IH; [done|]. intros e' Hin. apply Hm. set_solver.
Qed.

Lemma sorted_id l :
  StronglySorted Z.lt (fieldCode <$> l.*1) →
  Forall (λ e, present e.2 = true ∧ SField.shouldInclude e.1 true true = true) l → sorted_fields l = l.
Proof.
  intros Hs Hl. unfold sorted_fields.
  enough (∀ m, Forall (λ c, Forall (λ e, e.1 < c) m) (fieldCode <$> l.*1) →
    foldl sort_step m l = m ++ ((λ e, (fieldCode e.1, e)) <$> l)) as H.
  { rewrite (H []); [|apply Forall_true; intros; constructor]. cbn [app]. rewrite <- list_fmap_compose.
    by rewrite list_fmap_id. }
  induction Hl as [|e l [Hp Hi] Hl IH]; intros m Hm; [by rewrite app_nil_r|]. cbn [fmap list_fmap foldl] in *.
  apply StronglySorted_inv in Hs as [Hs Hlt]. apply Forall_cons in Hm as [Hm0 Hm].
  unfold sort_step at 2. rewrite Hp, Hi. cbn [andb]. rewrite emplace_last by done. rewrite IH, <- app_assoc; [done..|].
  rewrite Forall_forall in Hm, Hlt |- *. intros c Hc. apply Forall_app. split; [by apply Hm|]. constructor; [|done].
  by apply Hlt.
Qed.

(** ** Reading a list of fields *)

Definition object_end : list Z := field_bytes STI_OBJECT 1.
Definition array_end : list Z := field_bytes STI_ARRAY 1.

Definition end_marker (x : value) : list Z :=
  match x with Object _ => object_end | Array _ => array_end | _ => [] end.

(** The field [e] is written as its identifier, [b] and the end marker, and read back. *)
Record field_codes (e : SField * value) (b : list Z) : Prop := {
  fc_field : serializable e.1;
  fc_present : present e.2 = true;
  fc_write s : add_value e.2 s = Ok (Serializer.mk (Serializer.mData s ++ b));
  fc_read fuel pre rest : (length (b ++ end_marker e.2 ++ rest) ≤ fuel)%nat →
    ∃ x, STVar (set_fields fuel []) (set_elems fuel []) (cursor pre (b ++ end_marker e.2 ++ rest)) e.1 =
         Ok (x, cursor (pre ++ b ++ end_marker e.2) rest) ∧ bind_template e.1 x = Ok e.2 }.

Definition field_id (f : SField) : list Z := field_bytes (fieldType f) (fieldValue f).

Definition entry_bytes (e : SField * value) (b : list Z) : list Z := field_id e.1 ++ b ++ end_marker e.2.

Lemma set_fields_S fuel v sit :
  set_fields (S fuel) v sit =
  if SerialIter.empty sit then Ok (v, false, sit)
  else
    '(type, field, sit) ← SerialIter.getFieldID sit;
    if is_marker STI_ARRAY type field then Throw (runtime_error "Illegal terminator in object")
    else if is_marker STI_OBJECT type field then Ok (v, true, sit)
    else
      let fn := getField (field_code type field) in
      if SField.isInvalid fn then Throw (runtime_error "Unknown field")
      else
        '(x, sit) ← STVar (set_fields fuel []) (set_elems fuel []) sit fn;
        x ← bind_template fn x;
        set_fields fuel (v ++ [(fn, x)]) sit.
Proof. done. Qed.

Lemma set_elems_S fuel v sit :
  set_elems (S fuel) v sit =
  if SerialIter.empty sit then Ok (v, sit)
  else
    '(type, field, sit) ← SerialIter.getFieldID sit;
    if is_marker STI_ARRAY type field then Ok (v, sit)
    else if is_marker STI_OBJECT type field then Throw (runtime_error "Illegal terminator in array")
    else
      let fn := getField (field_code type field) in
      if SField.isInvalid fn then Throw (runtime_error "Unknown field")
      else if negb (fieldType fn =? STI_OBJECT) then Throw (runtime_error "Non-object in array")
      else
        '(l, _, sit) ← set_fields fuel [] sit;
        match setTypeFromSField fn (mkFields l None) with
        | (typeSetFail, _) => Throw (runtime_error "Malformed object in array")
        | (_, o) => set_elems fuel (v ++ [(fn, o)]) sit
        end.
Proof. done. Qed.

Lemma field_bytes_nonempty t n : ∃ b l, field_bytes t n = b :: l.
Proof. unfold field_bytes. repeat case_if; eauto. Qed.

Lemma empty_cursor pre l : SerialIter.empty (cursor pre l) = is_nil l.
Proof. unfold SerialIter.empty. rewrite remain_cursor. by destruct l. Qed.

Lemma not_empty_field pre t n rest : SerialIter.empty (cursor pre (field_bytes t n ++ rest)) = false.
Proof. destruct (field_bytes_nonempty t n) as (b & l & ->). by rewrite empty_cursor. Qed.

Lemma length_field_id f : (0 < length (field_id f))%nat.
Proof. unfold field_id. destruct (field_bytes_nonempty (fieldType f) (fieldValue f)) as (b & l & ->). simpl. lia. Qed.

Lemma set_fields_step e b fuel acc pre rest :
  field_codes e b → (length (entry_bytes e b ++ rest) ≤ S fuel)%nat →
  set_fields (S fuel) acc (cursor pre (entry_bytes e b ++ rest)) =
  set_fields fuel (acc ++ [e]) (cursor (pre ++ entry_bytes e b) rest).
Proof.
  intros [Hf Hp _ Hr] Hl. destruct e as [f x]. cbn [fst snd] in *. unfold entry_bytes in *. cbn [fst snd] in *.
  rewrite set_fields_S. unfold field_id. rewrite <- !app_assoc, not_empty_field. destruct Hf as [Hg Hc Ht Hv Ho Ha Hi].
  rewrite getFieldID_cursor by done. rewrite ok_bind. cbv beta iota. rewrite Ha, Ho, <- Hc, Hg, Hi.
  pose proof (length_field_id f). destruct (Hr fuel (pre ++ field_bytes (fieldType f) (fieldValue f)) rest) as (x0 & E & Eb).
  { rewrite !length_app in *. lia. }
  rewrite E, ok_bind. cbv beta iota. rewrite Eb, ok_bind. by rewrite <- !app_assoc.
Qed.

Definition fields_bytes (l : list (SField * value)) (bs : list (list Z)) : list Z := concat (zip_with entry_bytes l bs).

Lemma set_fields_end l bs fuel acc pre rest :
  Forall2 field_codes l bs → (length (fields_bytes l bs ++ object_end ++ rest) ≤ fuel)%nat →
  set_fields fuel acc (cursor pre (fields_bytes l bs ++ object_end ++ rest)) =
  Ok (acc ++ l, true, cursor (pre ++ fields_bytes l bs ++ object_end) rest).
Proof.
  intros Hl. revert fuel acc pre. induction Hl as [|e b l bs He Hl IH]; intros fuel acc pre Hf.
  - destruct fuel as [|fuel]; [simpl in Hf; lia|]. rewrite set_fields_S. unfold fields_bytes. cbn [zip_with concat app].
    unfold object_end at 1. rewrite not_empty_field. unfold object_end. rewrite getFieldID_cursor by done.
    rewrite ok_bind. by rewrite app_nil_r.
  - unfold fields_bytes in *. cbn [zip_with concat] in *. rewrite <- app_assoc in *.
    assert (0 < length (entry_bytes e b))%nat by (unfold entry_bytes; rewrite length_app; pose proof (length_field_id e.1); lia).
    destruct fuel as [|fuel]; [rewrite length_app in Hf; lia|].
    rewrite set_fields_step by done. rewrite IH by (rewrite length_app in Hf; lia). by rewrite <- !app_assoc.
Qed.

Lemma set_fields_all l bs fuel acc pre :
  Forall2 field_codes l bs → (length (fields_bytes l bs) < fuel)%nat →
  set_fields fuel acc (cursor pre (fields_bytes l bs)) = Ok (acc ++ l, false, cursor (pre ++ fields_bytes l bs) []).
Proof.
  intros Hl. revert fuel acc pre. induction Hl as [|e b l bs He Hl IH]; intros fuel acc pre Hf.
  - destruct fuel as [|fuel]; [lia|]. rewrite set_fields_S. unfold fields_bytes. cbn [zip_with concat].
    rewrite empty_cursor. by rewrite !app_nil_r.
  - unfold fields_bytes in *. cbn [zip_with concat] in *.
    assert (0 < length (entry_bytes e b))%nat by (unfold entry_bytes; rewrite length_app; pose proof (length_field_id e.1); lia).
    destruct fuel as [|fuel]; [lia|]. rewrite set_fields_step by (done || lia).
    rewrite IH by (rewrite length_app in Hf; lia). by rewrite <- !app_assoc.
Qed.

(** ** Writing a list of fields *)

Lemma add_end_marker x s :
  (if getSType x =? STI_ARRAY then Ok (Serializer.addFieldID s STI_ARRAY 1).1
   else if getSType x =? STI_OBJECT then Ok (Serializer.addFieldID s STI_OBJECT 1).1 else Ok s) =
  Ok (Serializer.mk (Serializer.mData s ++ end_marker x)).
Proof. destruct x, s; simpl; rewrite ?app_nil_r; try done; by rewrite addFieldID_bytes. Qed.

Lemma add_field_bytes e b s :
  field_codes e b → add_field s (writer_of e) = Ok (Serializer.mk (Serializer.mData s ++ entry_bytes e b)).
Proof.
  intros [Hf Hp Hw _]. destruct e as [f x]. unfold add_field, writer_of. cbn [fst snd] in *.
  rewrite addFieldID_bytes by apply Hf. rewrite Hw, ok_bind, add_end_marker. unfold entry_bytes, field_id.
  cbn [Serializer.mData Serializer.push fst snd]. by rewrite <- !app_assoc.
Qed.

Lemma add_fields_bytes l bs s :
  Forall2 field_codes l bs →
  add_fields ((λ e, (fieldCode e.1, writer_of e)) <$> l) s =
  Ok (Serializer.mk (Serializer.mData s ++ fields_bytes l bs)).
Proof.
  intros Hl. revert s. induction Hl as [|e b l bs He Hl IH]; intros s.
  - unfold fields_bytes. simpl. rewrite app_nil_r. by destruct s.
  - cbn [fmap list_fmap add_fields]. rewrite (add_field_bytes e b) by done. rewrite ok_bind, IH.
    unfold fields_bytes. cbn [zip_with concat Serializer.mData]. by rewrite <- app_assoc.
Qed.

(** The writers of an object, as [add] makes them *)
Lemma add_sorted_bytes l bs s :
  Forall2 field_codes (sorted_fields l) bs →
  add_sorted true true (map (λ '(f, x), (f, getSType x, add_value x)) l) s =
  Ok (Serializer.mk (Serializer.mData s ++ fields_bytes (sorted_fields l) bs)).
Proof.
  intros Hl. unfold add_sorted. assert (map (λ '(f, x), (f, getSType x, add_value x)) l = writer_of <$> l) as ->.
  { apply map_ext. by intros [f x]. }
  pose proof (pick_sort l []) as E. cbn [fmap list_fmap] in E. rewrite E. rewrite <- (add_fields_bytes _ bs) by done.
  f_equal. unfold sorted_fields. rewrite <- list_fmap_compose. apply list_fmap_ext. intros i [k e] Hi.
  cbn. f_equal. assert (∀ m l', Forall (λ ke, ke.1 = fieldCode ke.2.1) m →
    Forall (λ ke, ke.1 = fieldCode ke.2.1) (foldl sort_step m l')) as H.
  { intros m l'. revert m. induction l' as [|e' l' IH]; intros m Hm; [done|]. cbn [foldl]. apply IH.
    unfold sort_step. case_if; [|done]. clear -Hm. induction Hm as [|[k' x'] m Hk Hm IH]; [by constructor|].
    cbn [map_emplace]. repeat case_if; by repeat constructor. }
  specialize (H [] l (Forall_nil_2 _)). rewrite Forall_lookup in H. exact (H i (k, e) Hi).
Qed.

(** ** Templates *)

Definition is_present (e : SField * value) : Prop := present e.2 = true.

Lemma not_present x : present x = false → x = NotPresent.
Proof. by destruct x. Qed.

(** [l] has the fields of the template, in its order, with those required present and those
    with default semantics not default. *)
Definition fits (type : SOTemplate) (l : list (SField * value)) : Prop :=
  Forall2 (λ e x, x.1 = e_field e ∧ (flags e = SOE_REQUIRED → is_present x) ∧
    (flags e = SOE_DEFAULT → is_present x → isDefault x.2 = false)) type l.

Definition field_codes_of (type : SOTemplate) : list Z := (λ e, fieldCode (e_field e)) <$> type.

Lemma fits_codes type l : fits type l → fieldCode <$> l.*1 = field_codes_of type.
Proof. induction 1 as [|e x type l (E & _) _ IH]; [done|]. unfold field_codes_of in *. cbn. by rewrite E, IH. Qed.

Lemma extract_none f v : fieldCode f ∉ fieldCode <$> v.*1 → extract f v = None.
Proof.
  induction v as [|b v IH]; intros Hn; [done|]. cbn [extract fmap list_fmap] in *. unfold SField.eqb.
  rewrite (proj2 (Z.eqb_neq _ _)) by set_solver. by rewrite IH by set_solver.
Qed.

Lemma extract_some x v :
  NoDup (fieldCode <$> v.*1) → x ∈ v → ∃ v', extract x.1 v = Some (x, v') ∧ v ≡ₚ x :: v'.
Proof.
  induction v as [|b v IH]; intros Hd Hx; [by apply elem_of_nil in Hx|]. cbn [extract fmap list_fmap] in *.
  apply NoDup_cons in Hd as [Hb Hd]. unfold SField.eqb. destruct (fieldCode b.1 =? fieldCode x.1) eqn:E; zb.
  - exists v. apply elem_of_cons in Hx as [->|Hx]; [done|]. destruct Hb. rewrite E. by do 2 apply list_elem_of_fmap_2.
  - apply elem_of_cons in Hx as [->|Hx]; [done|]. destruct (IH Hd Hx) as (v' & -> & Hv). exists (b :: v').
    split; [done|]. rewrite Hv. apply Permutation_swap.
Qed.

Lemma setType_fits type l r :
  fits type l → NoDup (field_codes_of type) → r ≡ₚ filter is_present l → setType_loop type r = (true, l, []).
Proof.
  intros Hl. revert r. induction Hl as [|e x type l (E & Hreq & Hdef) Hl IH]; intros r Hd Hr.
  - by apply Permutation_nil_r in Hr as ->.
  - unfold field_codes_of in Hd. cbn [fmap list_fmap setType_loop] in *. fold (field_codes_of type) in Hd.
    apply NoDup_cons in Hd as [Hn Hd].
    rewrite <- (fits_codes type l) in Hn by done. rewrite filter_cons in Hr.
    assert (NoDup (fieldCode <$> (filter is_present l).*1) ∧
      fieldCode (e_field e) ∉ fieldCode <$> (filter is_present l).*1) as [Hdl Hnl].
    { split.
      - apply (sublist_NoDup _ (fieldCode <$> l.*1)); [by rewrite (fits_codes type l)|].
        do 2 apply fmap_sublist. apply sublist_filter.
      - intros Hin. apply Hn. eapply elem_of_submseteq; [exact Hin|]. do 2 apply fmap_submseteq. apply sublist_submseteq, sublist_filter. }
    destruct (decide (is_present x)) as [Hp|Hp].
    + destruct (extract_some x r) as (r' & Ex & Hr').
      { rewrite Hr. cbn [fmap list_fmap]. apply NoDup_cons. by rewrite E. }
      { rewrite Hr. set_solver. }
      rewrite <- E, Ex. rewrite Hr in Hr'. apply Permutation_cons_inv in Hr'. rewrite (IH r') by done.
      assert (bool_decide (flags e = SOE_DEFAULT) && isDefault x.2 = false) as ->; [|done].
      case_bool_decide as Hfl; [|done]. by apply Hdef.
    + rewrite extract_none by by rewrite Hr. rewrite (IH r) by done.
      rewrite bool_decide_eq_false_2 by (intros Hfl; by apply Hp, Hreq). destruct x as [f x]. cbn [fst] in *. subst f.
      unfold is_present in Hp. destruct (present x) eqn:Ep; [done|]. by rewrite (not_present x Ep).
Qed.

Lemma setType_ok type l r m :
  fits type l → NoDup (field_codes_of type) → r ≡ₚ filter is_present l →
  setType type (mkFields r m) = (true, mkFields l (Some type)).
Proof. intros Hl Hd Hr. unfold setType. cbn [v_]. by rewrite (setType_fits type l r). Qed.

(** ** Objects with a binary form *)

(** The fields of an object under the name [f]: those of the template of [f], or any fields
    in increasing order *)
Definition valid_object (V : SField → value → Prop) (f : SField) (o : STObject) : Prop :=
  match findSOTemplateBySField f with
  | Some type => mType o = Some type ∧ fits type (v_ o)
  | None => mType o = None ∧ StronglySorted Z.lt (fieldCode <$> (v_ o).*1) ∧ Forall is_present (v_ o)
  end ∧ Forall (λ e, serializable e.1 ∧ (is_present e → V e.1 e.2)) (v_ o).

(** The value [x] of the field [f] has a binary form, with objects nested at most [n] deep. *)
Fixpoint valid (n : nat) (f : SField) (x : value) : Prop :=
  match n with
  | O => False
  | S n =>
      fieldType f = getSType x ∧
      match x with
      | Object o => valid_object (valid n) f o
      | Array l => Forall (λ e, serializable e.1 ∧ fieldType e.1 = STI_OBJECT ∧ valid_object (valid n) e.1 e.2) l
      | _ => valid_scalar x
      end
  end.

Lemma template_codes type : type ∈ (LedgerFormats ++ InnerObjectFormats).*2 → NoDup (field_codes_of type).
Proof.
  assert (Forall (λ t, NoDup (field_codes_of t)) (LedgerFormats ++ InnerObjectFormats).*2) as H.
  { by apply (bool_decide_unpack _ (dec := _)); vm_compute. }
  rewrite Forall_forall in H. apply H.
Qed.

Lemma findByType_elem formats ty type : findByType formats ty = Some type → type ∈ formats.*2.
Proof.
  unfold findByType. destruct (list_find _ _) as [[i [t u]]|] eqn:E; [|done]. intros [= <-].
  apply list_find_Some in E as (E & _). apply (list_elem_of_fmap_2 snd _ (t, u)). by eapply list_elem_of_lookup_2.
Qed.

Lemma ledger_template_codes ty type : findByType LedgerFormats ty = Some type → NoDup (field_codes_of type).
Proof. intros H%findByType_elem. apply template_codes. rewrite fmap_app. set_solver. Qed.

Lemma inner_template_codes f type : findSOTemplateBySField f = Some type → NoDup (field_codes_of type).
Proof. intros H%findByType_elem. apply template_codes. rewrite fmap_app. set_solver. Qed.

Lemma serializable_included f : serializable f → SField.shouldInclude f true true = true.
Proof. intros []. unfold SField.shouldInclude. simpl. rewrite ?andb_true_r. apply Z.ltb_lt. lia. Qed.

Section object.
Context (n : nat).
Context (IH : ∀ f x, serializable f → present x = true → valid n f x → ∃ b, field_codes (f, x) b).

Lemma fields_codes l r :
  Forall (λ e, serializable e.1 ∧ (is_present e → valid n e.1 e.2)) l →
  r ≡ₚ filter is_present l → ∃ bs, Forall2 field_codes r bs.
Proof.
  intros Hl Hp. apply Forall_exists_Forall2_l. rewrite Hp. rewrite Forall_forall in *.
  intros [f x] (Hx & Hin)%list_elem_of_filter. destruct (Hl _ Hin) as [Hf Hv]. exact (IH f x Hf Hx (Hv Hx)).
Qed.

Lemma template_sorted type l :
  fits type l → NoDup (field_codes_of type) → Forall (λ e, serializable e.1 ∧ (is_present e → valid n e.1 e.2)) l →
  sorted_fields l ≡ₚ filter is_present l.
Proof.
  intros Hl Hd Hs. apply sorted_perm; [by rewrite (fits_codes type l)|].
  eapply Forall_impl; [exact Hs|]. intros e [He _]. by apply serializable_included.
Qed.

Lemma object_codes f o :
  valid_object (valid n) f o → ∃ bs r, Forall2 field_codes (sorted_fields (v_ o)) bs ∧ r ≠ typeSetFail ∧
    setTypeFromSField f (mkFields (sorted_fields (v_ o)) None) = (r, o).
Proof.
  destruct o as [l m]. unfold valid_object, setTypeFromSField. cbn [v_ mType].
  destruct (findSOTemplateBySField f) as [type|] eqn:Et; intros [Hfit Hs].
  - destruct Hfit as [-> Hl]. pose proof (inner_template_codes f type Et) as Hd.
    pose proof (template_sorted type l Hl Hd Hs) as Hp. destruct (fields_codes l _ Hs Hp) as [bs Hbs].
    exists bs, typeIsSet. split_and!; [done..|]. by rewrite (setType_ok type l).
  - destruct Hfit as (-> & Hsort & Hp). assert (sorted_fields l = l) as E.
    { apply sorted_id; [done|]. apply Forall_and. split; [exact Hp|].
      eapply Forall_impl; [exact Hs|]. intros e [He _]. by apply serializable_included. }
    rewrite E. destruct (fields_codes l l Hs) as [bs Hbs]; [by rewrite filter_all; [|rewrite <- Forall_forall]|]. exists bs, noTemplate. done.
Qed.

(** One element of an array: the name, the fields and the end of an object *)
Definition elem_bytes (e : SField * STObject) (bs : list (list Z)) : list Z :=
  field_id e.1 ++ fields_bytes (sorted_fields (v_ e.2)) bs ++ object_end.

Definition elem_codes (e : SField * STObject) (bs : list (list Z)) : Prop :=
  serializable e.1 ∧ fieldType e.1 = STI_OBJECT ∧ Forall2 field_codes (sorted_fields (v_ e.2)) bs ∧
  ∃ r, r ≠ typeSetFail ∧ setTypeFromSField e.1 (mkFields (sorted_fields (v_ e.2)) None) = (r, e.2).

Definition elems_bytes (l : list (SField * STObject)) (bss : list (list (list Z))) : list Z :=
  concat (zip_with elem_bytes l bss).

Lemma add_elems_bytes l bss s :
  Forall2 elem_codes l bss →
  add_elems (map (λ '(f, o), (f, add_sorted true true (map (λ '(g, x), (g, getSType x, add_value x)) (v_ o)))) l) s =
  Ok (Serializer.mk (Serializer.mData s ++ elems_bytes l bss)).
Proof.
  intros Hl. revert s. induction Hl as [|[f o] bs l bss (Hf & _ & Hbs & _) Hl IHl]; intros s.
  - unfold elems_bytes. simpl. rewrite app_nil_r. by destruct s.
  - cbn [map add_elems fst snd] in *. rewrite addFieldID_bytes by apply Hf.
    rewrite (add_sorted_bytes _ bs) by done. rewrite ok_bind, addFieldID_bytes, IHl by done.
    unfold elems_bytes, elem_bytes, field_id, object_end. cbn [zip_with concat Serializer.mData Serializer.push fst snd].
    by rewrite <- !app_assoc.
Qed.

Lemma set_elems_step e bs fuel acc pre rest :
  elem_codes e bs → (length (elem_bytes e bs ++ rest) ≤ S fuel)%nat →
  set_elems (S fuel) acc (cursor pre (elem_bytes e bs ++ rest)) =
  set_elems fuel (acc ++ [e]) (cursor (pre ++ elem_bytes e bs) rest).
Proof.
  intros (Hf & Ht & Hbs & r & Hr & Eset) Hl. destruct e as [f o]. unfold elem_bytes in *. cbn [fst snd] in *.
  pose proof (length_field_id f). rewrite set_elems_S. unfold field_id in *. rewrite <- !app_assoc, not_empty_field.
  destruct Hf as [Hg Hc Hty Hv Ho Ha Hi]. rewrite getFieldID_cursor by done. rewrite ok_bind. cbv beta iota.
  rewrite Ha, Ho, <- Hc, Hg, Hi, Ht. cbn [negb Z.eqb STI_OBJECT Pos.eqb].
  rewrite set_fields_end; [|done|rewrite !length_app in *; lia]. rewrite ok_bind. cbv beta iota. cbn [app].
  rewrite Eset. rewrite <- !app_assoc. by destruct r.
Qed.

Lemma set_elems_end l bss fuel acc pre rest :
  Forall2 elem_codes l bss → (length (elems_bytes l bss ++ array_end ++ rest) ≤ fuel)%nat →
  set_elems fuel acc (cursor pre (elems_bytes l bss ++ array_end ++ rest)) =
  Ok (acc ++ l, cursor (pre ++ elems_bytes l bss ++ array_end) rest).
Proof.
  intros Hl. revert fuel acc pre. induction Hl as [|e bs l bss He Hl IHl]; intros fuel acc pre Hfu.
  - destruct fuel as [|fuel]; [simpl in Hfu; lia|]. rewrite set_elems_S. unfold elems_bytes. cbn [zip_with concat app].
    unfold array_end at 1. rewrite not_empty_field. unfold array_end. rewrite getFieldID_cursor by done.
    rewrite ok_bind. by rewrite app_nil_r.
  - unfold elems_bytes in *. cbn [zip_with concat] in *. rewrite <- app_assoc in *.
    assert (0 < length (elem_bytes e bs))%nat by (unfold elem_bytes; rewrite length_app; pose proof (length_field_id e.1); lia).
    destruct fuel as [|fuel]; [rewrite length_app in Hfu; lia|].
    rewrite set_elems_step by done. rewrite IHl by (rewrite length_app in Hfu; lia). by rewrite <- !app_assoc.
Qed.

Lemma elems_codes l :
  Forall (λ e, serializable e.1 ∧ fieldType e.1 = STI_OBJECT ∧ valid_object (valid n) e.1 e.2) l →
  ∃ bss, Forall2 elem_codes l bss.
Proof.
  intros Hl. apply Forall_exists_Forall2_l. eapply Forall_impl; [exact Hl|]. intros e (Hf & Ht & Ho).
  destruct (object_codes _ _ Ho) as (bs & r & Hbs & Hr & E). exists bs. split_and!; [done..|]. by exists r.
Qed.

End object.

Lemma scalar_field f x : serializable f → fieldType f = getSType x → valid_scalar x → ∃ b, field_codes (f, x) b.
Proof.
  intros Hf Ht Hv. destruct (scalar_codes x Hv) as (b & Hw & Hr). exists b. split; [done| |exact Hw|].
  - destruct x; first [exact (False_ind _ Hv)|reflexivity].
  - intros fuel pre rest _. exists x. assert (end_marker x = []) as E by (destruct x; first [exact (False_ind _ Hv)|reflexivity]).
    cbn [fst snd] in *. rewrite E. cbn [app]. rewrite app_nil_r, Hr by done. split; [done|].
    destruct x; first [exact (False_ind _ Hv)|reflexivity].
Qed.

Lemma STVar_object obj arr sit f :
  fieldType f = STI_OBJECT → STVar obj arr sit f = '(v, _, sit) ← obj sit; Ok (Object (mkFields v None), sit).
Proof. intros Ht. unfold STVar. by rewrite Ht. Qed.

Lemma STVar_array obj arr sit f :
  fieldType f = STI_ARRAY → STVar obj arr sit f = '(l, sit) ← arr sit; Ok (Array l, sit).
Proof. intros Ht. unfold STVar. by rewrite Ht. Qed.

(** Every valid value of a field has a binary form that is read back. *)
Lemma valid_codes n f x : serializable f → valid n f x → ∃ b, field_codes (f, x) b.
Proof.
  revert f x. induction n as [|n IH]; intros f x Hf Hv; [done|]. destruct Hv as [Ht Hv].
  assert (IH' : ∀ f x, serializable f → present x = true → valid n f x → ∃ b, field_codes (f, x) b) by eauto.
  destruct x as [| | | | | | | | | | | | | |o|l]; try exact (False_ind _ Hv); try exact (scalar_field f _ Hf Ht Hv).
  - destruct (object_codes n IH' f o Hv) as (bs & r & Hbs & Hr & E). eexists. split; [done..| |].
    + intros s. exact (add_sorted_bytes _ bs s Hbs).
    + intros fuel pre rest Hl. cbn [fst snd end_marker] in *. rewrite STVar_object by done. rewrite set_fields_end by done. rewrite ok_bind. eexists. split; [done|].
      cbn [bind_template app]. rewrite E. by destruct r.
  - destruct (elems_codes n IH' l Hv) as (bss & Hbs). eexists. split; [done..| |].
    + intros s. exact (add_elems_bytes l bss s Hbs).
    + intros fuel pre rest Hl. cbn [fst snd end_marker] in *. rewrite STVar_array by done. rewrite set_elems_end by done. rewrite ok_bind. by eexists.
Qed.

(** ** Ledger entries *)

(** An entry with the fields of the template of its type *)
Definition valid_entry (n : nat) (e : SLE STObject) : Prop :=
  ∃ type, findByType LedgerFormats (sle_type e) = Some type ∧
    mType (sle_data e) = Some type ∧ fits type (v_ (sle_data e)) ∧
    Forall (λ x, serializable x.1 ∧ (is_present x → valid n x.1 x.2)) (v_ (sle_data e)) ∧
    (sfLedgerEntryType, UInt16 (sle_type e)) ∈ v_ (sle_data e).

Lemma peek_free l f x :
  NoDup (fieldCode <$> l.*1) → (f, x) ∈ l → peekAtPField (mkFields l None) f = Ok (Some (f, x)).
Proof.
  intros Hd Hin. unfold peekAtPField, getFieldIndex. cbn [mType v_]. rewrite ok_bind.
  destruct (list_find _ l) as [[i [g y]]|] eqn:E.
  - cbn [fmap option_fmap option_map mbind option_bind fst]. apply list_find_Some in E as (E & Hg & _).
    cbn [fst] in Hg. unfold SField.eqb in Hg. apply Is_true_true in Hg. zb. rewrite E.
    apply list_elem_of_lookup in Hin as [j Hj].
    assert (i = j) as ->; [|congruence].
    eapply (NoDup_lookup _ _ _ (fieldCode f) Hd); rewrite !list_lookup_fmap, ?E, ?Hj; cbn; congruence.
  - apply list_find_None in E. rewrite Forall_forall in E. destruct (E _ Hin). cbn. unfold SField.eqb. by rewrite Z.eqb_refl.
Qed.

Lemma entry_codes n e :
  valid_entry n e → ∃ bs,
    Forall2 field_codes (sorted_fields (v_ (sle_data e))) bs ∧
    STLedgerEntry.setSLEType (mkFields (sorted_fields (v_ (sle_data e))) None) = Ok (sle_type e, sle_data e).
Proof.
  destruct e as [k t [l m]]. unfold valid_entry. cbn [sle_key sle_type sle_data v_ mType].
  intros (type & Et & -> & Hl & Hs & Hty). pose proof (ledger_template_codes _ _ Et) as Hd.
  pose proof (template_sorted n type l Hl Hd Hs) as Hp.
  destruct (fields_codes n (λ f x Hf _, valid_codes n f x Hf) l _ Hs Hp) as [bs Hbs].
  exists bs. split; [done|]. unfold STLedgerEntry.setSLEType, getFieldU16, getFieldBy.
  rewrite (peek_free _ _ (UInt16 t)).
  - rewrite ok_bind. change (getSType (UInt16 t) =? STI_NOTPRESENT) with false. cbv iota. cbn [as_u16]. rewrite ok_bind. cbv beta. rewrite Et. by rewrite (setType_ok type l).
  - rewrite Hp. apply (sublist_NoDup _ (fieldCode <$> l.*1)); [by rewrite (fits_codes type l)|].
    do 2 apply fmap_sublist. apply sublist_filter.
  - rewrite Hp. by apply list_elem_of_filter.
Qed.

Lemma entry_reads_back n e :
  valid_entry n e →
  ∃ s, getSerializer (sle_data e) = Ok s ∧
       STLedgerEntry.read (SerialIter.of_slice (Serializer.mData s)) (sle_key e) = Ok e.
Proof.
  intros He. destruct (entry_codes n e He) as (bs & Hbs & Hset). eexists. split.
  - exact (add_sorted_bytes _ bs _ Hbs).
  - cbn [Serializer.mData app]. unfold STLedgerEntry.read, read_object. change (SerialIter.of_slice ?l) with (cursor [] l). rewrite remain_cursor.
    rewrite (set_fields_all _ bs) by (done || lia). cbn [mbind result_bind app].
    rewrite Hset. by destruct e.
Qed.

(** C9: The binary form of a ledger entry is read back as the entry. *)
Theorem entry_roundtrip n e :
  valid_entry n e →
  ∃ s, getSerializer (sle_data e) = Ok s ∧
       STLedgerEntry.read (SerialIter.of_slice (Serializer.mData s)) (sle_key e) = Ok e.
Proof. apply entry_reads_back. Qed.

(** ** The codec of ledger entries *)

#[global] Instance st_codec : SLECodec STObject := {|
  sle_serialize e := s ← getSerializer (sle_data e); Ok (Serializer.mData s);
  sle_make b key := STLedgerEntry.read (SerialIter.of_slice b) key;
  sle_valid e := ∃ n, valid_entry n e
|}.

#[global] Instance st_codec_laws : SLECodecLaws st_codec.
Proof.
  split. intros e (n & He). destruct (entry_reads_back n e He) as (s & Es & Er). exists (Serializer.mData s).
  split; [|exact Er]. cbn [sle_serialize st_codec]. by rewrite Es.
Qed.

(** ** Concrete entries *)

Ltac solve_range := first [reflexivity|discriminate|split; [discriminate|reflexivity]|split; reflexivity|lia].

(** Closed goals about validity *)
Ltac solve_valid :=
  cbv beta; cbn [fst snd];
  lazymatch goal with
  | |- serializable _ => split; solve_range
  | |- Forall _ (_ :: _) => once constructor; solve_valid
  | |- Forall _ [] => constructor
  | |- Forall2 _ _ (_ :: _) => once constructor; solve_valid
  | |- Forall2 _ _ [] => constructor
  | |- fits _ _ => unfold fits; solve_valid
  | |- valid (S _) _ (Object _) => split; [reflexivity|split; [split; [reflexivity|]|]]; cbn [v_]; solve_valid
  | |- valid (S _) _ (Array _) => split; [reflexivity|]; solve_valid
  | |- valid (S _) _ _ => split; [reflexivity|]; cbn [valid_scalar]; solve_valid
  | |- encodable _ => unfold encodable; cbn [STAmount.mIsNative STAmount.make_csc]; solve_valid
  | |- _ ∨ _ => first [left; solve [solve_valid]|right; solve_valid]
  | |- is_present _ → _ => intros; (discriminate || solve_valid)
  | |- _ → _ => intros; solve_valid
  | |- _ ∧ _ => split; solve_valid
  | |- valid_object _ _ _ => split; [split; [reflexivity|]|]; cbn [v_]; solve_valid
  | |- _ => solve_range
  end.

Definition demo_signers : SLE STObject :=
  mkSLE 77 ltSIGNER_LIST (mkFields
    [(sfLedgerIndex, NotPresent); (sfLedgerEntryType, UInt16 ltSIGNER_LIST); (sfFlags, UInt32 0);
     (sfOwnerNode, UInt64 0); (sfSignerQuorum, UInt32 3);
     (sfSignerEntries, Array
       [(sfSignerEntry, mkFields [(sfAccount, Account 5 false); (sfSignerWeight, UInt16 1)] (Some format_SignerEntry));
        (sfSignerEntry, mkFields [(sfAccount, Account 6 false); (sfSignerWeight, UInt16 2)] (Some format_SignerEntry))]);
     (sfSignerListID, UInt32 0); (sfPreviousTxnID, Hash256 99); (sfPreviousTxnLgrSeq, UInt32 12)]
    (Some format_SignerList)).

Ltac solve_entry type :=
  exists type; split; [reflexivity|]; split; [reflexivity|]; cbn [sle_data sle_type v_];
  split; [solve_valid|]; split; [solve_valid|right; left].

Lemma demo_signers_valid : valid_entry 3 demo_signers.
Proof. unfold demo_signers. solve_entry format_SignerList. Qed.

Lemma entry_roundtrip_witness :
  ∃ s, getSerializer (sle_data demo_signers) = Ok s ∧
    STLedgerEntry.read (SerialIter.of_slice (Serializer.mData s)) 77 = Ok demo_signers.
Proof. exact (entry_roundtrip 3 demo_signers demo_signers_valid). Defined.

End STObjectSpec.
