(* ===== verification/STObjectRead.v ===== *)
(** * STObjectRead: what reading objects promises

    Reading an object from arbitrary bytes ends, and what it returns is well typed: every
    field holds a value of the type of its name, in range, down to the objects inside, and
    an object with a template has the fields of the template.  Setting a field keeps this. *)

From S2P Require Import Prelude Serializer SerialIter SField Issue STAmount STAmountWire ReadView SOTemplate STObject STLedgerEntry STObjectSpec.

Module STObjectRead.
Import STObject STObjectSpec.

#[local] Arguments be_bytes : simpl never.

(** ** Readers *)

(** A cursor inside a buffer of bytes *)
Definition good (sit : SerialIter.t) : Prop :=
  Forall is_byte (SerialIter.buf sit) ∧ (SerialIter.used_ sit ≤ length (SerialIter.buf sit))%nat.

(** [sit'] is at least [k] bytes after [sit]. *)
Definition after (k : nat) (sit sit' : SerialIter.t) : Prop :=
  SerialIter.buf sit' = SerialIter.buf sit ∧
  (SerialIter.used_ sit + k ≤ SerialIter.used_ sit' ≤ length (SerialIter.buf sit))%nat.

(** Reading [r] at [sit] ends: it throws, or consumes at least [k] bytes for a value with
    [P]. *)
Definition reads {A} (k : nat) (sit : SerialIter.t) (P : A → Prop) (r : result (A * SerialIter.t)) : Prop :=
  match r with
  | Ok (x, sit') => after k sit sit' ∧ P x
  | Throw e => e ≠ out_of_fuel
  end.

Lemma after_good k sit sit' : good sit → after k sit sit' → good sit'.
Proof. intros [Hb Hu] [E Hk]. split; rewrite E; [done|lia]. Qed.

Lemma after_remain k sit sit' :
  after k sit sit' → (SerialIter.remain_ sit' + k ≤ SerialIter.remain_ sit)%nat.
Proof. intros [E Hk]. unfold SerialIter.remain_. rewrite E. lia. Qed.

Lemma reads_ok {A} sit (P : A → Prop) x : good sit → P x → reads 0 sit P (Ok (x, sit)).
Proof. intros [_ Hu] Hx. split; [|done]. split; [done|lia]. Qed.

Lemma reads_throw {A} k sit (P : A → Prop) what : reads k sit P (Throw (runtime_error what)).
Proof. done. Qed.

Lemma reads_overflow {A} k sit (P : A → Prop) what : reads k sit P (Throw (overflow_error what)).
Proof. done. Qed.

Lemma reads_bind {A B} k k1 k2 sit (P : A → Prop) (Q : B → Prop) m (f : A * SerialIter.t → result (B * SerialIter.t)) :
  good sit → reads k1 sit P m →
  (∀ x sit', good sit' → after k1 sit sit' → P x → reads k2 sit' Q (f (x, sit'))) →
  (k ≤ k1 + k2)%nat → reads k sit Q (m ≫= f).
Proof.
  intros Hg Hm Hf Hk0. destruct m as [[x sit']|e]; [|exact Hm]. rewrite ok_bind. destruct Hm as [Ha Hx].
  specialize (Hf x sit' (after_good _ _ _ Hg Ha) Ha Hx). destruct (f (x, sit')) as [[y sit2]|e]; [|exact Hf].
  destruct Hf as [Ha2 Hy]. split; [|done]. destruct Ha as [E Hk], Ha2 as [E2 Hk2]. split; [congruence|].
  rewrite E in Hk2. lia.
Qed.

Lemma reads_weaken {A} k k' sit (P Q : A → Prop) r :
  reads k' sit P r → (k ≤ k')%nat → (∀ x, P x → Q x) → reads k sit Q r.
Proof.
  intros Hr Hk HPQ. destruct r as [[x sit']|e]; [|done]. destruct Hr as [[E Ha] Hx]. split; [|auto].
  split; [done|lia].
Qed.

Lemma reads_pure {A B} k sit (P : B → Prop) (m : result A) (f : A → result (B * SerialIter.t)) :
  m ≠ Throw out_of_fuel → (∀ x, m = Ok x → reads k sit P (f x)) → reads k sit P (m ≫= f).
Proof. intros Hm Hf. destruct m as [x|e]; [by apply Hf|]. intros ->. by apply Hm. Qed.

(** ** The readers of [SerialIter] *)

Lemma reads_raw what n sit :
  good sit → reads n sit (λ l, length l = n ∧ Forall is_byte l) (SerialIter.getRawHelper what n sit).
Proof.
  intros [Hb Hu]. unfold SerialIter.getRawHelper. destruct (_ <? n)%nat eqn:Hn; [done|]. apply Nat.ltb_ge in Hn.
  unfold SerialIter.remain_ in Hn. split.
  - split; [done|]. cbn [SerialIter.used_ SerialIter.buf]. lia.
  - unfold SerialIter.p_. rewrite length_take, length_drop. split; [lia|]. by apply Forall_take, Forall_drop.
Qed.

(** The first of the calls of a reader, by the lemma [H] *)
Tactic Notation "rbind" uconstr(H) "as" simple_intropattern(p) :=
  eapply (reads_bind _ _ 0); [done|eapply H; try done|intros ? ? ? ? p; cbv beta iota in *|cbn; try lia].

(** The same by a lemma of the hints *)
Tactic Notation "rnext" "as" simple_intropattern(p) :=
  eapply (reads_bind _ _ 0); [done|solve [eauto with casino]|intros ? ? ? ? p; cbv beta iota in *|cbn; try lia].

Lemma reads_get8 sit : good sit → reads 1 sit is_byte (SerialIter.get8 sit).
Proof.
  intros Hg. unfold SerialIter.get8. rbind reads_raw as [Hl Hb].
  apply reads_ok; [done|]. destruct x as [|b l]; [done|]. by apply Forall_cons in Hb as [Hb _].
Qed.
#[export] Hint Resolve reads_get8 : casino.

Lemma reads_ints sit :
  good sit → reads 1 sit (is_unsigned 16) (SerialIter.get16 sit) ∧
  reads 1 sit (is_unsigned 32) (SerialIter.get32 sit) ∧ reads 1 sit (is_unsigned 64) (SerialIter.get64 sit).
Proof.
  intros Hg. unfold SerialIter.get16, SerialIter.get32, SerialIter.get64.
  split_and!; rbind reads_raw as _; (apply reads_ok; [done|]); by apply wrapu_range.
Qed.

Lemma reads_bits bits sit :
  good sit → reads (bits / 8) sit (λ n, 0 ≤ n < 256 ^ Z.of_nat (bits / 8)) (SerialIter.getBitString bits sit).
Proof.
  intros Hg. unfold SerialIter.getBitString. rbind reads_raw as [Hl Hb].
  apply reads_ok; [done|]. rewrite <- Hl. by apply be_val_bound.
Qed.

Lemma reads_get160 sit : good sit → reads 1 sit is_uint160 (SerialIter.get160 sit).
Proof. intros Hg. eapply reads_weaken; [by apply reads_bits|apply Nat.leb_le; reflexivity|]. intros x Hx. exact Hx. Qed.
#[export] Hint Resolve reads_get160 : casino.

Lemma reads_uncommon what sit :
  good sit → reads 1 sit (λ n, 0 < n < 256)
    ('(n, sit) ← SerialIter.get8 sit;
     if (n =? 0) || (n <? 16) then Throw (runtime_error what) else Ok (n, sit)).
Proof.
  intros Hg. rnext as Hx. destruct (_ || _) eqn:E; [apply reads_throw|]. apply reads_ok; [done|].
  unfold is_byte in Hx. zb. lia.
Qed.

Lemma reads_getFieldID sit :
  good sit → reads 1 sit (λ tf, 0 < tf.1 < 256 ∧ 0 < tf.2 < 256) (SerialIter.getFieldID sit).
Proof.
  intros Hg. unfold SerialIter.getFieldID. rnext as Hb. unfold is_byte in Hb.
  assert (x = x / 16 * 16 + x mod 16) as Eb by (pose proof (Z.div_mod x 16); lia).
  pose proof (Z.mod_pos_bound x 16). destruct (nibbles (x / 16) (x mod 16)) as [El Eh]; [lia|].
  rewrite <- Eb in El, Eh. rewrite El, Eh. eapply (reads_bind 0 0 0 _ (λ n, 0 < n < 256)); [done| | |lia].
  - destruct (x / 16 =? 0) eqn:E.
    + eapply reads_weaken; [by apply reads_uncommon|lia|done].
    + zb. apply reads_ok; [done|lia].
  - intros ty sit1 Hg1 _ Hty. eapply (reads_bind 0 0 0 _ (λ n, 0 < n < 256)); [done| | |lia].
    + destruct (x mod 16 =? 0) eqn:E.
      * eapply reads_weaken; [by apply reads_uncommon|lia|done].
      * zb. apply reads_ok; [done|lia].
    + intros name sit2 Hg2 _ Hname. by apply reads_ok.
Qed.
#[export] Hint Resolve reads_getFieldID : casino.

Lemma reads_getVLDataLength sit : good sit → reads 1 sit (λ n, 0 ≤ n ≤ 929984) (SerialIter.getVLDataLength sit).
Proof.
  intros Hg. unfold SerialIter.getVLDataLength, Serializer.decodeLengthLength, Serializer.decodeVLLength1,
    Serializer.decodeVLLength2, Serializer.decodeVLLength3. rnext as Hb. unfold is_byte in Hb.
  repeat case_if; zb; try done; cbn [mbind result_bind]; cbv iota beta; repeat case_if; zb; try done; try lia.
  - apply reads_ok; [done|lia].
  - rnext as Hb2. rnext as Hb3. cbn. apply reads_ok; [done|]. unfold is_byte in *. lia.
  - rnext as Hb2. cbn. apply reads_ok; [done|]. unfold is_byte in Hb2. lia.
Qed.
#[export] Hint Resolve reads_getVLDataLength : casino.

Lemma reads_getVL sit :
  good sit → reads 1 sit (λ b, Z.of_nat (length b) ≤ 929984 ∧ Forall is_byte b) (SerialIter.getVL sit).
Proof.
  intros Hg. unfold SerialIter.getVL. rnext as Hn. unfold SerialIter.getRaw.
  eapply reads_weaken; [by apply reads_raw|apply Nat.le_0_l|]. intros b [Hl Hb]. split; [lia|done].
Qed.
#[export] Hint Resolve reads_getVL : casino.

(** ** The readers of values *)

Lemma canonicalize_ends a : STAmount.canonicalize a ≠ Throw out_of_fuel.
Proof.
  destruct a as [issue v o native neg]. unfold STAmount.canonicalize. destruct (STAmount.isCSC _).
  - case_if; [done|]. destruct (STAmount.native_down _ _). destruct (STAmount.native_up _ _). by case_if.
  - case_if; [done|]. destruct (STAmount.scale_up v o) as [v1 o1]. intros H.
    apply bind_throw in H as [H|([v2 o2] & _ & H)].
    + eapply (while_res_throw (λ _, True)) in H as ([v2 o2] & _ & _ & H); [|done..].
      by destruct (_ >=? _).
    + destruct (_ || _); [done|]. by destruct (_ >? _).
Qed.

Lemma good_cursor sit :
  good sit → sit = cursor (take (SerialIter.used_ sit) (SerialIter.buf sit)) (drop (SerialIter.used_ sit) (SerialIter.buf sit)).
Proof.
  destruct sit as [buf used]. intros [_ Hu]. unfold cursor. cbn [SerialIter.buf SerialIter.used_] in *.
  by rewrite take_drop, length_take, Nat.min_l.
Qed.

Lemma deserialize_ends sit : good sit → STAmount.deserialize sit ≠ Throw out_of_fuel.
Proof.
  intros Hg H. enough (reads 0 sit (λ _, True) (STAmount.deserialize sit)) as Hr by (rewrite H in Hr; by apply Hr).
  clear H. unfold STAmount.deserialize. rbind reads_ints as Hv.
  destruct (_ =? 0).
  { destruct (negb _); [by apply reads_ok|]. by destruct (_ =? 0); [|apply reads_ok]. }
  rnext as Hc. destruct (Issue.isCSC x0); [done|]. rnext as Ha.
  destruct (Issue.isCSC x1); [done|]. destruct (negb _); destruct (_ || _) || destruct (negb _); try done;
    (apply reads_pure; [apply canonicalize_ends|intros a _; by apply reads_ok]).
Qed.

Lemma reads_amount sit : good sit → reads 1 sit encodable (STAmount.deserialize sit).
Proof.
  intros Hg. pose proof (deserialize_ends sit Hg) as Hne. destruct (STAmount.deserialize sit) as [[a sit']|e] eqn:E; [|congruence].
  rewrite (good_cursor sit Hg) in E. apply deserialize_inv in E as (He & rest & El & ->); [|by apply Forall_drop, Hg].
  split; [|done]. destruct Hg as [_ Hu]. split.
  - unfold cursor. cbn [SerialIter.buf]. by rewrite <- app_assoc, <- El, take_drop.
  - unfold cursor. cbn [SerialIter.used_]. apply (f_equal length) in El. rewrite length_drop, length_app in El.
    rewrite length_app, length_take. assert (0 < length (wire a))%nat; [|lia].
    unfold wire. rewrite (encodable_word a) by done. cbn [Serializer.mData]. rewrite !length_app, length_be_bytes. lia.
Qed.
#[export] Hint Resolve reads_amount : casino.

Lemma reads_account sit :
  good sit → reads 1 sit (λ nd : Z * bool, if nd.2 then nd.1 = 0 else is_unsigned 160 nd.1) (STAccount.read sit).
Proof.
  intros Hg. unfold STAccount.read. rnext as [Hl Hb]. case_if; [by apply reads_ok|].
  destruct (length x =? 20)%nat eqn:E1; [|done]. apply Nat.eqb_eq in E1. apply reads_ok; [done|]. cbn [fst snd].
  pose proof (be_val_bound x Hb) as Hv. rewrite E1 in Hv. exact Hv.
Qed.
#[export] Hint Resolve reads_account : casino.

Lemma values_range count n l :
  (count * n ≤ length l)%nat → Forall is_byte l → Forall (λ v, 0 ≤ v < 256 ^ Z.of_nat n) (STVector.values count n l).
Proof.
  revert l. induction count as [|count IH]; intros l Hl Hb; [constructor|]. cbn [STVector.values]. constructor.
  - pose proof (be_val_bound (take n l) (Forall_take _ _ _ Hb)) as Hv. rewrite length_take, Nat.min_l in Hv by lia. done.
  - apply IH; [rewrite length_drop; lia|by apply Forall_drop].
Qed.

Lemma reads_vector bits sit :
  good sit → (0 < bits / 8)%nat →
  reads 1 sit (Forall (λ v, 0 ≤ v < 256 ^ Z.of_nat (bits / 8))) (STVector.read bits sit).
Proof.
  intros Hg Hbits. unfold STVector.read. rnext as [Hl Hb]. apply reads_ok; [done|].
  apply values_range; [|done]. rewrite Nat.mul_comm. apply Nat.Div0.mul_div_le.
Qed.

Definition element_range (e : STPathElement.t) : Prop :=
  is_uint160 (STPathElement.mAccountID e) ∧ is_uint160 (STPathElement.mCurrencyID e) ∧
  is_uint160 (STPathElement.mIssuerID e).

Lemma reads_optional (b : bool) sit : good sit → reads 0 sit is_uint160 (if b then SerialIter.get160 sit else Ok (0, sit)).
Proof.
  intros Hg. destruct b; [|apply reads_ok; [done|split; [lia|reflexivity]]].
  eapply reads_weaken; [by apply reads_get160|lia|done].
Qed.
#[export] Hint Resolve reads_optional : casino.

Lemma reads_element iType sit : good sit → reads 0 sit element_range (STPathElement.read iType sit).
Proof.
  intros Hg. unfold STPathElement.read. rnext as Ha. rnext as Hc.
  rnext as Hi. by apply reads_ok.
Qed.
#[export] Hint Resolve reads_element : casino.

Definition paths_range (l : list STPath) : Prop := Forall (λ p, p ≠ [] ∧ Forall element_range p) l.

Lemma reads_paths fuel path l sit :
  good sit → Forall element_range path → paths_range l → (SerialIter.remain_ sit < fuel)%nat →
  reads 1 sit (λ l, l ≠ [] ∧ paths_range l) (STPathSet.read_loop fuel path l sit).
Proof.
  revert path l sit. induction fuel as [|fuel IH]; intros path l sit Hg Hp Hl Hf; [lia|]. cbn [STPathSet.read_loop].
  rnext as Hb. apply after_remain in H0. destruct (_ || _).
  - case_bool_decide as Hne; [done|]. assert (paths_range (l ++ [path])) as Hl' by by apply Forall_app, conj, Forall_singleton.
    case_if.
    + apply reads_ok; [done|]. split; [by destruct l|done].
    + eapply reads_weaken; [apply IH; [done|constructor|done|lia]|lia|done].
  - destruct (negb _); [done|]. rnext as He. apply after_remain in H2.
    eapply reads_weaken; [apply IH; [done| |done|lia]|lia|done]. by apply Forall_app, conj, Forall_singleton.
Qed.

Lemma reads_pathset sit : good sit → reads 1 sit (λ l, l ≠ [] ∧ paths_range l) (STPathSet.read sit).
Proof. intros Hg. apply reads_paths; [done|constructor|constructor|lia]. Qed.
#[export] Hint Resolve reads_pathset : casino.

(** ** Well-typed values *)

(** What a value of each type can be *)
Definition in_range (x : value) : Prop :=
  match x with
  | UInt8 n => is_unsigned 8 n
  | UInt16 n => is_unsigned 16 n
  | UInt32 n => is_unsigned 32 n
  | UInt64 n => is_unsigned 64 n
  | Hash128 n => is_unsigned 128 n
  | Hash160 n => is_unsigned 160 n
  | Hash256 n => is_unsigned 256 n
  | Amount a => encodable a
  | Blob b => Z.of_nat (length b) ≤ 929984 ∧ Forall is_byte b
  | Account n default_ => if default_ then n = 0 else is_unsigned 160 n
  | PathSet l => paths_range l
  | Vector256 l => Forall (is_unsigned 256) l
  | Vector128 l => Forall (is_unsigned 128) l
  | NotPresent | Object _ | Array _ => False
  end.

(** Fields that [getField] returns *)
Definition known (f : SField) : Prop := getField (fieldCode f) = f.

(** The value of a field has the type of the field, and an object has the template of its
    name, and the fields of its template. *)
Inductive typed : SField → value → Prop :=
  | typed_absent f : typed f NotPresent
  | typed_scalar f x : fieldType f = getSType x → in_range x → typed f x
  | typed_Object f o :
      fieldType f = STI_OBJECT → mType o = findSOTemplateBySField f → typed_object o → typed f (Object o)
  | typed_Array f l :
      fieldType f = STI_ARRAY →
      Forall (λ e, known e.1 ∧ fieldType e.1 = STI_OBJECT ∧ mType e.2 = findSOTemplateBySField e.1 ∧
        typed_object e.2) l →
      typed f (Array l)
with typed_object : STObject → Prop :=
  | typed_fields o :
      (∀ type, mType o = Some type → (v_ o).*1 = e_field <$> type) →
      Forall (λ e, known e.1 ∧ typed e.1 e.2) (v_ o) → typed_object o.

(** ** Known fields *)

Lemma known_fields : Forall (λ f, known f ∧ (fieldType f ≠ STI_NOTPRESENT ∨ fieldCode f < 65536)) (scalarFields ++ otherFields).
Proof. apply (bool_decide_unpack _ (dec := _)). by vm_compute. Qed.

Lemma template_known type : type ∈ (LedgerFormats ++ InnerObjectFormats).*2 → Forall known (e_field <$> type).
Proof.
  assert (Forall (λ t, Forall known (e_field <$> t)) (LedgerFormats ++ InnerObjectFormats).*2) as H.
  { by apply (bool_decide_unpack _ (dec := _)); vm_compute. }
  rewrite Forall_forall in H. apply H.
Qed.

Lemma field_code_shift c : field_code (Z.shiftr c 16) (Z.land c 65535) = c.
Proof.
  unfold field_code. change 65535 with (Z.ones 16). rewrite Z.land_ones, Z.shiftr_div_pow2, Z.shiftl_mul_pow2 by lia.
  pose proof (Z.mod_pos_bound c (2 ^ 16)). rewrite lor_high_low by lia. pose proof (Z.div_mod c (2 ^ 16)). lia.
Qed.

Lemma known_lookup c f : knownCodeToField !! c = Some f → f ∈ scalarFields ++ otherFields ∧ fieldCode f = c.
Proof. intros H%elem_of_list_to_map_2. apply list_elem_of_fmap in H as (g & [= -> ->] & H). done. Qed.

Lemma getField_known c : SField.isInvalid (getField c) = false → known (getField c).
Proof.
  unfold known, getField. destruct (knownCodeToField !! c) as [f|] eqn:E; intros Hi.
  - apply known_lookup in E as E'. destruct E' as [_ ->]. by rewrite E.
  - destruct (_ || _) eqn:Eb; [done|]. destruct (extensible _) eqn:Ex; [|done]. cbn [fieldCode SField.unnamed].
    by rewrite field_code_shift, E, Eb, Ex.
Qed.

Lemma field_code_large type field : 0 < type < 256 → 0 < field < 256 → 65536 ≤ field_code type field.
Proof. intros Ht Hf. unfold field_code. rewrite Z.shiftl_mul_pow2, lor_high_low by lia. lia. Qed.

Lemma getField_type c : 65536 ≤ c → fieldType (getField c) ≠ STI_NOTPRESENT.
Proof.
  intros Hc. unfold getField. destruct (knownCodeToField !! c) as [f|] eqn:E.
  - apply known_lookup in E as [Hin <-]. pose proof known_fields as H. rewrite Forall_forall in H.
    destruct (H f Hin) as [_ [?|?]]; [done|lia].
  - destruct (_ || _); [done|]. destruct (extensible _) eqn:Ex; [|done]. cbn [fieldType SField.unnamed].
    intros E0. rewrite E0 in Ex. by vm_compute in Ex.
Qed.

Lemma known_eq f g : known f → known g → SField.eqb f g = true → f = g.
Proof. unfold known, SField.eqb. intros Hf Hg E. zb. congruence. Qed.

(** ** Templates *)

(** Fields that were read *)
Definition read_ok (e : SField * value) : Prop := known e.1 ∧ typed e.1 e.2 ∧ is_present e.

Lemma extract_inv f v x v' : extract f v = Some (x, v') → SField.eqb x.1 f = true ∧ v ≡ₚ x :: v'.
Proof.
  revert v'. induction v as [|b v IH]; intros v' H; [done|]. cbn [extract] in H. destruct (SField.eqb b.1 f) eqn:E.
  - by injection H as <- <-.
  - destruct (extract f v) as [[y v1]|]; [|done]. cbn in H. injection H as -> <-. destruct (IH v1 eq_refl) as [? Hp].
    split; [done|]. rewrite Hp. apply Permutation_swap.
Qed.

Lemma setType_loop_spec type v valid out rest :
  Forall known (e_field <$> type) → Forall read_ok v → setType_loop type v = (valid, out, rest) →
  out.*1 = e_field <$> type ∧ Forall (λ e, known e.1 ∧ typed e.1 e.2) out ∧ (valid = true → fits type out).
Proof.
  revert v valid out rest. induction type as [|e type IH]; intros v valid out rest Hk Hv H.
  - injection H as <- <- <-. split_and!; [done|constructor|]. intros _. constructor.
  - cbn [fmap list_fmap] in Hk. apply Forall_cons in Hk as [He Hk]. cbn [setType_loop] in H.
    destruct (extract (e_field e) v) as [[x v']|] eqn:Ex.
    + apply extract_inv in Ex as [Ex Hp]. rewrite Hp in Hv. apply Forall_cons in Hv as [(Hkx & Htx & Hpx) Hv].
      destruct (setType_loop type v') as [[valid' out'] rest'] eqn:El. injection H as <- <- <-.
      destruct (IH v' valid' out' rest' Hk Hv El) as (E1 & Ht & Hfit). pose proof (known_eq _ _ Hkx He Ex) as Exe.
      cbn [fmap list_fmap]. split_and!; [by f_equal|by constructor|]. intros [Hd Hval]%andb_true_iff.
      constructor; [|by apply Hfit]. split_and!; [done..|]. intros Hfl _. rewrite bool_decide_eq_true_2 in Hd by done.
      by destruct (isDefault x.2).
    + destruct (setType_loop type v) as [[valid' out'] rest'] eqn:El. injection H as <- <- <-.
      destruct (IH v valid' out' rest' Hk Hv El) as (E1 & Ht & Hfit). cbn [fmap list_fmap].
      split_and!; [by f_equal|by repeat constructor|]. intros [Hd Hval]%andb_true_iff.
      constructor; [|by apply Hfit]. split_and!; [done| |done]. intros Hfl. by rewrite bool_decide_eq_true_2 in Hd.
Qed.

Lemma setType_spec type v valid o :
  type ∈ (LedgerFormats ++ InnerObjectFormats).*2 → Forall read_ok v → setType type (mkFields v None) = (valid, o) →
  typed_object o ∧ mType o = Some type ∧ (valid = true → fits type (v_ o)).
Proof.
  intros Ht Hv H. unfold setType in H. cbn [v_] in H. destruct (setType_loop type v) as [[valid' out] rest] eqn:El.
  injection H as <- <-. destruct (setType_loop_spec _ _ _ _ _ (template_known _ Ht) Hv El) as (E1 & Hty & Hfit).
  split_and!; [|done|].
  - constructor; [|exact Hty]. by intros ? [= <-].
  - intros [Hval _]%andb_true_iff. by apply Hfit.
Qed.

Lemma setTypeFromSField_spec f v r o :
  Forall read_ok v → setTypeFromSField f (mkFields v None) = (r, o) →
  typed_object o ∧ mType o = findSOTemplateBySField f.
Proof.
  intros Hv H. unfold setTypeFromSField in H. destruct (findSOTemplateBySField f) as [type|] eqn:Et.
  - destruct (setType type _) as [valid o'] eqn:Es. injection H as _ <-.
    apply setType_spec in Es as (Ho & Em & _); [done| |done]. apply findByType_elem in Et. rewrite fmap_app. set_solver.
  - injection H as _ <-. split; [|done]. constructor; [done|]. eapply Forall_impl; [exact Hv|]. by intros e (? & ? & _).
Qed.

(** ** Reading objects *)

Definition elem_ok (e : SField * STObject) : Prop :=
  known e.1 ∧ fieldType e.1 = STI_OBJECT ∧ mType e.2 = findSOTemplateBySField e.1 ∧ typed_object e.2.

(** A value just read: its objects have no templates yet. *)
Definition raw_ok (fn : SField) (x : value) : Prop :=
  match x with
  | Object o => fieldType fn = STI_OBJECT ∧ mType o = None ∧ Forall read_ok (v_ o)
  | Array l => fieldType fn = STI_ARRAY ∧ Forall elem_ok l
  | _ => fieldType fn = getSType x ∧ in_range x
  end.

Section STVar.
Context (obj : SerialIter.t → result (list (SField * value) * bool * SerialIter.t)).
Context (arr : SerialIter.t → result (list (SField * STObject) * SerialIter.t)).

Lemma reads_STVar sit fn :
  good sit → fieldType fn ≠ STI_NOTPRESENT →
  reads 0 sit (λ vb, Forall read_ok vb.1) (obj sit) → reads 0 sit (Forall elem_ok) (arr sit) →
  reads 0 sit (raw_ok fn) (STVar obj arr sit fn).
Proof.
  intros Hg Hn Ho Ha. unfold STVar. rewrite (proj2 (Z.eqb_neq _ _) Hn).
  destruct (reads_ints sit Hg) as (H16 & H32 & H64).
  repeat match goal with
  | |- reads _ _ _ (if ?b then _ else _) => let E := fresh "E" in destruct b eqn:E; [apply Z.eqb_eq in E|clear E]
  end; [| | | | | | | | | | | | | | |done].
  - rnext as Hx. by apply reads_ok.
  - rbind reads_ints as Hx. by apply reads_ok.
  - rbind reads_ints as Hx. by apply reads_ok.
  - rbind reads_ints as Hx. by apply reads_ok.
  - rnext as Hx. by apply reads_ok.
  - rbind reads_bits as Hx. by apply reads_ok.
  - rbind reads_bits as Hx. by apply reads_ok.
  - rbind reads_bits as Hx. by apply reads_ok.
  - rbind (reads_vector 256) as Hx; [apply Nat.leb_le; reflexivity|]. by apply reads_ok.
  - rbind (reads_vector 128) as Hx; [apply Nat.leb_le; reflexivity|]. by apply reads_ok.
  - rnext as Hx. by apply reads_ok.
  - rnext as Hx. destruct x as [n d]. by apply reads_ok.
  - rnext as Hx. destruct Hx. by apply reads_ok.
  - rbind Ho as Hx. destruct x as [v b]. by apply reads_ok.
  - rbind Ha as Hx. by apply reads_ok.
Qed.

End STVar.

Lemma bind_template_spec fn x :
  raw_ok fn x →
  match bind_template fn x with
  | Ok x => typed fn x ∧ present x = true
  | Throw e => e ≠ out_of_fuel
  end.
Proof.
  intros Hx. destruct x as [| | | | | | | | | | | | | |[v m]|l]; cbn [raw_ok] in Hx; cbn [bind_template];
    try (destruct Hx; split; [by apply typed_scalar|done]).
  - destruct Hx as (Ht & Em & Hv). cbn [mType v_] in *. subst m. destruct (setTypeFromSField fn _) as [r o] eqn:Es.
    apply setTypeFromSField_spec in Es as [Ho Eo]; [|done]. by destruct r; [done|split; [by apply typed_Object|done]..].
  - destruct Hx as [Ht Hl]. split; [by apply typed_Array|done].
Qed.

(** With more fuel than bytes, the loops do not run out of it. *)
Lemma reads_set fuel :
  (∀ v sit, good sit → (SerialIter.remain_ sit < fuel)%nat → Forall read_ok v →
    reads 0 sit (λ vb, Forall read_ok vb.1) (set_fields fuel v sit)) ∧
  (∀ v sit, good sit → (SerialIter.remain_ sit < fuel)%nat → Forall elem_ok v →
    reads 0 sit (Forall elem_ok) (set_elems fuel v sit)).
Proof.
  induction fuel as [|fuel [IHf IHe]]; [split; lia|]. split; intros v sit Hg Hf Hv.
  - rewrite set_fields_S. case_if; [by apply reads_ok|]. rnext as [Ht Hn]. apply after_remain in H0.
    destruct x as [type field]. cbn [fst snd] in *. case_if; [done|]. case_if; [by apply reads_ok|].
    destruct (SField.isInvalid _) eqn:Ei; [done|]. eapply (reads_bind _ _ 0); [done|apply reads_STVar| |lia].
    + done.
    + by apply getField_type, field_code_large.
    + apply IHf; [done|lia|constructor].
    + apply IHe; [done|lia|constructor].
    + intros x sit2 Hg2 Ha2 Hx. cbv beta iota. apply after_remain in Ha2. apply bind_template_spec in Hx. destruct (bind_template _ x) as [y|e]; [|exact Hx].
      rewrite ok_bind. apply IHf; [done|lia|]. apply Forall_app, conj, Forall_singleton; [done|].
      split; [by apply getField_known|exact Hx].
  - rewrite set_elems_S. case_if; [by apply reads_ok|]. rnext as [Ht Hn]. apply after_remain in H0.
    destruct x as [type field]. cbn [fst snd] in *. case_if; [by apply reads_ok|]. case_if; [done|].
    destruct (SField.isInvalid _) eqn:Ei; [done|]. destruct (_ =? STI_OBJECT) eqn:Eo; [|done]. apply Z.eqb_eq in Eo.
    cbn [negb]. eapply (reads_bind _ _ 0); [done|apply IHf; [done|lia|constructor]|intros [l b] sit2 Hg2 Ha2 Hl|lia].
    cbv beta iota. cbn [fst] in Hl. apply after_remain in Ha2. destruct (setTypeFromSField _ _) as [r o] eqn:Es.
    apply setTypeFromSField_spec in Es as [Ho Em]; [|done].
    destruct r; [done|apply IHe; [done|lia|]..]; (apply Forall_app, conj, Forall_singleton; [done|]);
      (split_and!; [by apply getField_known|done..]).
Qed.

(** The result does not depend on the fuel, if it is enough. *)
Lemma STVar_ext obj obj' arr arr' sit fn :
  (obj sit ≠ Throw out_of_fuel → obj' sit = obj sit) → (arr sit ≠ Throw out_of_fuel → arr' sit = arr sit) →
  STVar obj arr sit fn ≠ Throw out_of_fuel → STVar obj' arr' sit fn = STVar obj arr sit fn.
Proof.
  intros Ho Ha H. destruct (Z.eq_dec (fieldType fn) STI_OBJECT) as [Et|Hno].
  { rewrite !STVar_object in * by done. rewrite Ho; [done|]. intros E. by rewrite E in H. }
  destruct (Z.eq_dec (fieldType fn) STI_ARRAY) as [Et|Hna].
  { rewrite !STVar_array in * by done. rewrite Ha; [done|]. intros E. by rewrite E in H. }
  unfold STVar. by rewrite (proj2 (Z.eqb_neq _ _) Hno), (proj2 (Z.eqb_neq _ _) Hna).
Qed.

Lemma set_more fuel :
  ∀ fuel', (fuel ≤ fuel')%nat →
  (∀ v sit, set_fields fuel v sit ≠ Throw out_of_fuel → set_fields fuel' v sit = set_fields fuel v sit) ∧
  (∀ v sit, set_elems fuel v sit ≠ Throw out_of_fuel → set_elems fuel' v sit = set_elems fuel v sit).
Proof.
  induction fuel as [|fuel IH]; [by split|]. intros [|fuel'] Hle; [lia|].
  destruct (IH fuel') as [IHf IHe]; [lia|]. split; intros v sit H.
  - rewrite !set_fields_S in *. destruct (SerialIter.empty sit); [done|]. destruct (SerialIter.getFieldID sit) as [[[type field] sit1]|]; [|done].
    rewrite !ok_bind in *. cbv beta iota zeta in *. destruct (is_marker STI_ARRAY _ _); [done|].
    destruct (is_marker STI_OBJECT _ _); [done|]. destruct (SField.isInvalid _); [done|].
    rewrite (STVar_ext (set_fields fuel []) (set_fields fuel' []) (set_elems fuel []) (set_elems fuel' []));
      [|apply IHf|apply IHe|intros E'; by rewrite E' in H].
    destruct (STVar _ _ _ _) as [[x sit2]|]; [|done]. rewrite !ok_bind in *. cbv beta iota zeta in *.
    destruct (bind_template _ x); [|done]. rewrite !ok_bind in *. by apply IHf.
  - rewrite !set_elems_S in *. destruct (SerialIter.empty sit); [done|]. destruct (SerialIter.getFieldID sit) as [[[type field] sit1]|]; [|done].
    rewrite !ok_bind in *. cbv beta iota zeta in *. destruct (is_marker STI_ARRAY _ _); [done|].
    destruct (is_marker STI_OBJECT _ _); [done|]. destruct (SField.isInvalid _); [done|]. destruct (negb _); [done|].
    rewrite IHf by (intros E'; by rewrite E' in H).
    destruct (set_fields fuel [] sit1) as [[[l b] sit2]|]; [|done]. rewrite !ok_bind in *. cbv beta iota zeta in *.
    destruct (setTypeFromSField _ _) as [[] o]; [done|by apply IHe..].
Qed.

Lemma of_slice_good l : Forall is_byte l → good (SerialIter.of_slice l).
Proof. intros Hl. split; [done|]. apply Nat.le_0_l. Qed.

Lemma read_object_spec sit :
  good sit →
  match read_object sit with
  | Ok (o, _, sit') => after 0 sit sit' ∧ mType o = None ∧ Forall read_ok (v_ o)
  | Throw e => e ≠ out_of_fuel
  end.
Proof.
  intros Hg. unfold read_object. pose proof (proj1 (reads_set (S (SerialIter.remain_ sit))) [] sit Hg) as H.
  destruct (set_fields _ [] sit) as [[[v b] sit']|e]; [|apply H; [lia|constructor]].
  destruct H as [Ha Hv]; [lia|constructor|]. done.
Qed.

Lemma setSLEType_spec v :
  Forall read_ok v →
  match STLedgerEntry.setSLEType (mkFields v None) with
  | Ok (ty, o) => typed_object o ∧
      ∃ type, findByType LedgerFormats ty = Some type ∧ mType o = Some type ∧ fits type (v_ o)
  | Throw e => e ≠ out_of_fuel
  end.
Proof.
  intros Hv. unfold STLedgerEntry.setSLEType, getFieldU16, getFieldBy.
  change (peekAtPField (mkFields v None) sfLedgerEntryType) with
    (Ok (match fst <$> list_find (λ e, SField.eqb e.1 sfLedgerEntryType) v with None => None | Some i => v !! i end)).
  rewrite ok_bind. destruct (match _ with None => None | Some i => v !! i end) as [[f x]|]; [|done].
  assert (∀ ty, match (match findByType LedgerFormats ty with
      | None => Throw (runtime_error "invalid ledger entry type")
      | Some elements =>
          let '(valid, o) := setType elements (mkFields v None) in
          if negb valid then Throw (runtime_error "ledger entry not valid for type") else Ok (ty, o)
      end) with
    | Ok (ty, o) => typed_object o ∧
        ∃ type, findByType LedgerFormats ty = Some type ∧ mType o = Some type ∧ fits type (v_ o)
    | Throw e => e ≠ out_of_fuel
    end) as Hty.
  { intros ty. destruct (findByType LedgerFormats ty) as [type|] eqn:Et; [|done].
    destruct (setType type _) as [valid o] eqn:Es. apply setType_spec in Es as (Ho & Em & Hfit); [| |done].
    - destruct valid; [|done]. cbn [negb]. split; [done|]. exists type. split_and!; [done..|by apply Hfit].
    - apply findByType_elem in Et. rewrite fmap_app. set_solver. }
  destruct (_ =? STI_NOTPRESENT); [apply Hty|]. destruct (as_u16 x); [apply Hty|done].
Qed.

Lemma read_entry_spec sit key :
  good sit →
  match STLedgerEntry.read sit key with
  | Ok e => sle_key e = key ∧ typed_object (sle_data e) ∧
      ∃ type, findByType LedgerFormats (sle_type e) = Some type ∧ mType (sle_data e) = Some type ∧
        fits type (v_ (sle_data e))
  | Throw e => e ≠ out_of_fuel
  end.
Proof.
  intros Hg. pose proof (read_object_spec sit Hg) as Hr. unfold STLedgerEntry.read.
  destruct (read_object sit) as [[[[v m] b] sit']|e]; [|done]. rewrite ok_bind. cbv beta iota.
  destruct Hr as (_ & Em & Hv). apply setSLEType_spec in Hv. cbn [mType v_] in *. subst m.
  destruct (STLedgerEntry.setSLEType _) as [[ty o]|e]; [|exact Hv]. exact (conj eq_refl Hv).
Qed.

(** C10: Reading an object from any bytes ends, with a result that no larger bound on the
    iterations would change, and what is read is well typed: every field has a name that
    [getField] knows and a value of its type in range, and every object inside an object or
    array has the template of its name with the fields of the template.  An entry that is
    read has, under the key asked for, the fields of the format of its type, with those
    required present and those with default semantics not default. *)
Theorem read_typed l key :
  Forall is_byte l →
  let sit := SerialIter.of_slice l in
  (∀ fuel, (length l < fuel)%nat → set_fields fuel [] sit = set_fields (S (length l)) [] sit) ∧
  match read_object sit with
  | Ok (o, _, _) => typed_object o
  | Throw e => e ≠ out_of_fuel
  end ∧
  match STLedgerEntry.read sit key with
  | Ok e => sle_key e = key ∧ typed_object (sle_data e) ∧
      ∃ type, findByType LedgerFormats (sle_type e) = Some type ∧ mType (sle_data e) = Some type ∧
        fits type (v_ (sle_data e))
  | Throw e => e ≠ out_of_fuel
  end.
Proof.
  intros Hl sit. pose proof (of_slice_good l Hl) as Hg. fold sit in Hg.
  assert (SerialIter.remain_ sit = length l) as Er by apply Nat.sub_0_r.
  pose proof (read_object_spec sit Hg) as Hr. split; [|split].
  - intros fuel Hf. apply (set_more (S (length l))); [lia|]. intros E.
    unfold read_object in Hr. rewrite Er, E in Hr. by apply Hr.
  - destruct (read_object sit) as [[[o b] sit']|e]; [|done]. destruct Hr as (_ & Em & Hv).
    constructor; [by rewrite Em|]. eapply Forall_impl; [exact Hv|]. intros x (Hk & Ht & _). exact (conj Hk Ht).
  - by apply read_entry_spec.
Qed.

(** ** Access to the fields of well-typed objects *)

Section access.
Implicit Types (o : STObject) (f g : SField) (x y : value).

Lemma typed_object_inv o :
  typed_object o →
  (∀ type, mType o = Some type → (v_ o).*1 = e_field <$> type) ∧ Forall (λ e, known e.1 ∧ typed e.1 e.2) (v_ o).
Proof. by inversion 1. Qed.

(** The index only depends on the names of the fields. *)
Lemma getFieldIndex_names o g :
  getFieldIndex o g =
  match mType o with
  | Some type => getIndex type g
  | None => Ok (fst <$> list_find (λ f, SField.eqb f g) (v_ o).*1)
  end.
Proof. unfold getFieldIndex. destruct (mType o); [done|]. rewrite list_find_fmap. by destruct (list_find _ _) as [[]|]. Qed.

(** Only fields made up at run time have no defined index, in objects with a template. *)
Lemma index_defined o f :
  (declared f = true ∨ isFree o = true → ∃ index, getFieldIndex o f = Ok index) ∧
  (declared f = false → isFree o = false → getFieldIndex o f = Throw (undefined_behaviour "mIndex[f.getNum ()]")).
Proof.
  unfold getFieldIndex, getIndex, isFree. destruct (mType o) as [type|]; cbn.
  - split; [|by intros ->]. intros [->|?]; [by eexists|done].
  - split; [by eexists|done].
Qed.

Lemma index_entry o f i :
  typed_object o → known f → getFieldIndex o f = Ok (Some i) → ∃ x, v_ o !! i = Some (f, x) ∧ typed f x.
Proof.
  intros [Hm Ht]%typed_object_inv Hf Hi. rewrite getFieldIndex_names in Hi.
  assert (∃ g, (v_ o).*1 !! i = Some g ∧ SField.eqb g f = true) as (g & Hg & Eg).
  { destruct (mType o) as [type|].
    - rewrite (Hm type eq_refl). unfold getIndex in Hi. destruct (declared f); [|done].
      destruct (list_find _ type) as [[j e]|] eqn:E; [|done]. injection Hi as <-. apply list_find_Some in E as (E & Hg & _). exists (e_field e).
      rewrite list_lookup_fmap, E. split; [done|]. by apply Is_true_true.
    - destruct (list_find _ _) as [[j g]|] eqn:E; [|done]. injection Hi as <-. apply list_find_Some in E as (E & Hg & _).
      exists g. split; [done|]. by apply Is_true_true. }
  rewrite list_lookup_fmap in Hg. destruct (v_ o !! i) as [[g' x]|] eqn:E; [|done]. injection Hg as ->.
  rewrite Forall_lookup in Ht. destruct (Ht i _ E) as [Hk Hx]. cbn [fst snd] in *.
  pose proof (known_eq _ _ Hk Hf Eg) as ->. by exists x.
Qed.

Lemma update_names (v : list (SField * value)) i f x y : v !! i = Some (f, y) → (<[i := (f, x)]> v).*1 = v.*1.
Proof. intros Hi. rewrite list_fmap_insert. apply list_insert_id. by rewrite list_lookup_fmap, Hi. Qed.

Lemma update_typed o i f x y :
  typed_object o → v_ o !! i = Some (f, y) → typed f x → typed_object (with_fields o (<[i := (f, x)]> (v_ o))).
Proof.
  intros [Hm Ht]%typed_object_inv Hi Hx. constructor; cbn [with_fields mType v_].
  - intros type E. rewrite (update_names _ _ _ _ y) by done. by apply Hm.
  - apply Forall_insert; [done|]. rewrite Forall_lookup in Ht. destruct (Ht i _ Hi) as [Hk _]. exact (conj Hk Hx).
Qed.

Lemma update_peek o i f x y :
  typed_object o → known f → getFieldIndex o f = Ok (Some i) → v_ o !! i = Some (f, y) →
  let o' := with_fields o (<[i := (f, x)]> (v_ o)) in
  peekAtPField o' f = Ok (Some (f, x)) ∧ ∀ g, known g → g ≠ f → peekAtPField o' g = peekAtPField o g.
Proof.
  intros Ho Hf Hi Hv o'.
  assert (∀ g, getFieldIndex o' g = getFieldIndex o g) as Eo'.
  { intros g. rewrite !getFieldIndex_names. subst o'. cbn [with_fields mType v_]. by rewrite (update_names _ _ _ _ y). }
  unfold peekAtPField. split.
  - rewrite Eo', Hi. cbn. f_equal. apply list_lookup_insert_eq. by eapply lookup_lt_Some.
  - intros g Hg Hne. rewrite Eo'. destruct (getFieldIndex o g) as [[j|]|] eqn:Ej; [|done..]. cbn. f_equal.
    apply list_lookup_insert_ne. intros <-. destruct (index_entry o g i Ho Hg Ej) as (z & Hz & _). congruence.
Qed.

Lemma default_typed f x :
  fieldType f = getSType x → present x = true → ∃ y, default_value (fieldType f) = Ok y ∧ getSType y = getSType x.
Proof. intros -> Hp. destruct x; [done|by eexists..]. Qed.

Lemma append_typed o f x :
  typed_object o → isFree o = true → known f → typed f x → typed_object (with_fields o (v_ o ++ [(f, x)])).
Proof.
  intros [Hm Ht]%typed_object_inv Hfree Hf Hx. apply bool_decide_eq_true in Hfree.
  constructor; cbn [with_fields mType v_]; [by rewrite Hfree|].
  apply Forall_app, conj, Forall_singleton; [done|]. exact (conj Hf Hx).
Qed.

Lemma append_peek o f x :
  isFree o = true → known f → getFieldIndex o f = Ok None →
  let o' := with_fields o (v_ o ++ [(f, x)]) in
  peekAtPField o' f = Ok (Some (f, x)) ∧ ∀ g, known g → g ≠ f → peekAtPField o' g = peekAtPField o g.
Proof.
  intros Hfree Hf Hi. apply bool_decide_eq_true in Hfree. unfold peekAtPField, getFieldIndex in *.
  cbn [with_fields mType v_]. rewrite Hfree in *. destruct (list_find _ (v_ o)) as [|] eqn:En in Hi; [done|].
  cbn [with_fields mType v_]. split.
  - rewrite list_find_app_r by done. cbn [list_find]. rewrite decide_True by (cbn; unfold SField.eqb; by rewrite Z.eqb_refl).
    cbn. by rewrite lookup_app_r, Nat.sub_diag by lia.
  - intros g Hg Hne. destruct (list_find (λ e, SField.eqb e.1 g) (v_ o)) as [[j e]|] eqn:Eg.
    + erewrite list_find_app_l by done. cbn. rewrite lookup_app_l; [done|].
      apply list_find_Some in Eg as (Eg & _). by eapply lookup_lt_Some.
    + rewrite list_find_app_r by done. cbn [list_find]. rewrite decide_False; [done|].
      cbn. intros Hb%Is_true_true. apply Hne. symmetry. by apply known_eq.
Qed.

Lemma set_field_ok o f x :
  typed_object o → known f → fieldType f = getSType x → present x = true → typed f x →
  (∃ i, getFieldIndex o f = Ok (Some i)) ∨ isFree o = true →
  ∃ o', setField x o f = Ok o' ∧ typed_object o' ∧ mType o' = mType o ∧ peekAtPField o' f = Ok (Some (f, x)) ∧
    ∀ g, known g → g ≠ f → peekAtPField o' g = peekAtPField o g.
Proof.
  intros Ho Hf Et Hp Hx Hor. destruct (default_typed f x Et Hp) as (d & Ed & Hd).
  assert (∃ index, getFieldIndex o f = Ok index) as [index Ei] by (destruct Hor as [[i ?]|?]; [by eexists|apply index_defined; by right]).
  unfold setField, getPField. rewrite Ei, ok_bind. destruct index as [i|].
  + destruct (index_entry o f i Ho Hf Ei) as (y & Hy & Hty). rewrite ok_bind. cbv beta iota. rewrite Hy.
    pose proof (lookup_lt_Some _ _ _ Hy) as Hlt. destruct (getSType y =? STI_NOTPRESENT) eqn:Ey.
    * unfold makeFieldPresent. rewrite Ei, ok_bind, Hy, Ey. cbn [negb]. rewrite Ed. rewrite !ok_bind. cbv beta iota.
      cbn [with_fields v_]. rewrite list_lookup_insert_eq by done. rewrite Hd, Z.eqb_refl. cbn [negb].
      rewrite list_insert_insert_eq. change (with_fields (with_fields o ?w) ?v) with (with_fields o v).
      eexists. split; [done|]. split; [by eapply update_typed|]. split; [done|].
      by eapply (update_peek o i f x y).
    * rewrite ok_bind. cbv beta iota. rewrite Hy. assert (getSType y = getSType x) as ->.
      { inversion Hty; subst; [by vm_compute in Ey|cbn [getSType] in *; congruence..]. }
      rewrite Z.eqb_refl. cbn [negb]. eexists. split; [done|]. split; [by eapply update_typed|]. split; [done|].
      by eapply (update_peek o i f x y).
  + destruct Hor as [[? ?]|Hfree]; [congruence|]. rewrite Hfree. cbn [andb]. rewrite Ed, !ok_bind. cbv beta iota.
    unfold emplace_back. cbv beta iota. cbn [with_fields v_]. rewrite lookup_app_r, Nat.sub_diag by lia. cbn [lookup list_lookup].
    unfold present in Hp. rewrite Hd. destruct (getSType x =? STI_NOTPRESENT); [done|]. rewrite ok_bind. cbv beta iota.
    cbn [v_ with_fields]. rewrite lookup_app_r, Nat.sub_diag by lia. cbn [lookup list_lookup]. rewrite Hd, Z.eqb_refl. cbn [negb].
    rewrite insert_app_r_alt, Nat.sub_diag by lia. cbn [insert list_insert].
    change (with_fields (with_fields o ?w) ?v) with (with_fields o v). eexists. split; [done|].
    split; [by apply (append_typed o)|]. split; [done|]. by apply (append_peek o).
Qed.


End access.

(** ** A concrete entry *)

Definition signers_bytes : list Z :=
  match getSerializer (sle_data demo_signers) with Ok s => Serializer.mData s | Throw _ => [] end.

Lemma signers_bytes_ok : Forall is_byte signers_bytes.
Proof. apply (bool_decide_unpack _ (dec := _)). by vm_compute. Qed.

Lemma signers_read : STLedgerEntry.read (SerialIter.of_slice signers_bytes) 77 = Ok demo_signers.
Proof. by vm_compute. Qed.

Lemma read_typed_witness :
  read_object (SerialIter.of_slice signers_bytes) ≠ Throw out_of_fuel ∧ typed_object (sle_data demo_signers).
Proof.
  destruct (read_typed signers_bytes 77 signers_bytes_ok) as (_ & Hr & He). split.
  - intros E. rewrite E in Hr. by apply Hr.
  - rewrite signers_read in He. apply He.
Defined.

Lemma demo_signers_typed : typed_object (sle_data demo_signers).
Proof.
  pose proof (read_entry_spec _ 77 (of_slice_good _ signers_bytes_ok)) as H. rewrite signers_read in H. apply H.
Qed.


End STObjectRead.
