(* ===== verification/Directory.v ===== *)
(** * Directory: lists of entries in a ledger

    Models the directories of [ledger/impl/View.cpp] ([dirAdd], [dirDelete], [dirFirst],
    [dirNext], [cdirFirst], [cdirNext], [dirIsEmpty]).  A directory is a list of keys of
    entries, in pages of at most 32 that are linked in both directions; the root is page 0
    and knows the last page.  Assertions are off, as in a release: a null pointer that they
    would catch is undefined behaviour, and [assert (false)] before a return does nothing. *)

From stdpp Require Import sorting.
From S2P Require Import Prelude Serializer ReadView RawStateTable ApplyStateTable ApplyView SField SOTemplate STObject STLedgerEntry.

Module Directory.
Import STObject ApplyView.

Abbreviation D := STObject.
Abbreviation pointer := ApplyStateTable.pointer.

(** The results of the functions, among the codes of [TER] *)
Inductive TER := tefBAD_LEDGER | tesSUCCESS | tecDIR_FULL.

Definition DIR_NODE_MAX : nat := 32.

Section directory.
Context (sha512Half : list Z → Z).

(** ** Keys *)

Definition spaceDirNode : Z := 100.

Definition getDirNodeIndex (uDirRoot uNodeIndex : Z) : Z :=
  if uNodeIndex =? 0 then uDirRoot
  else sha512Half (be_bytes 2 spaceDirNode ++ be_bytes 32 uDirRoot ++ be_bytes 8 uNodeIndex).

Definition page (key index : Z) : Keylet := mkKeylet ltDIR_NODE (getDirNodeIndex key index).

(** ** Adding entries *)

(** [describeOwnerDir]: the account is assigned to the field [sfOwner] through its proxy.  No
    template has the field with the style [SOE_DEFAULT]. *)
Definition describeOwnerDir (account : Z) (o : D) : result D :=
  '(o, i) ←
    (match mType o with
     | Some _ =>
         e ← peekAtPField o sfOwner;
         match e with
         | None => Throw (logic_error "template field error 'Owner'")
         | Some _ => makeFieldPresent o sfOwner
         end
     | None =>
         r ← getPField o sfOwner true;
         match r with None => Throw (undefined_behaviour "null pointer") | Some x => Ok x end
     end);
  match v_ o !! i with
  | Some (f, Account _ _) => Ok (with_fields o (<[i := (f, Account account false)]> (v_ o)))
  | _ => Throw (undefined_behaviour "null pointer")
  end.

(** [fDescriber] changes the entry it is given through the pointer; the node number is an
    output. *)
Definition dirAdd (base : ReadView D) (dir : Keylet) (uLedgerIndex : Z) (fDescriber : D → result D) :
    M D (TER * bool * Z) :=
  sleRoot ← peek base dir;
  match sleRoot with
  | None =>
      (* No root, make it. *)
      sle ← lift (STLedgerEntry.make dir);
      o ← lift (setFieldH256 (sle_data sle) sfRootIndex (k_key dir));
      sleRoot ← make_shared (mkSLE (sle_key sle) (sle_type sle) o);
      insert sleRoot;;
      set sleRoot fDescriber;;
      set sleRoot (λ o, setFieldV256 o sfIndexes [uLedgerIndex]);;
      mret (tesSUCCESS, true, 0)
  | Some sleRoot =>
      uNodeDir ← get sleRoot (λ o, getFieldU64 o sfIndexPrevious);
      sleNode ←
        (if negb (uNodeDir =? 0) then sleNode ← peek base (page (k_key dir) uNodeDir); not_null sleNode
         else mret sleRoot);
      svIndexes ← get sleNode (λ o, getFieldV256 o sfIndexes);
      if negb (DIR_NODE_MAX =? length svIndexes)%nat then
        (* Add to current node. *)
        update sleNode;;
        set sleNode (λ o, setFieldV256 o sfIndexes (svIndexes ++ [uLedgerIndex]));;
        mret (tesSUCCESS, false, uNodeDir)
      else
        (* Add to new node. *)
        let uNodeDir := u64 (uNodeDir + 1) in
        if uNodeDir =? 0 then mret (tecDIR_FULL, false, uNodeDir)
        else
          set sleNode (λ o, setFieldU64 o sfIndexNext uNodeDir);;
          update sleNode;;
          set sleRoot (λ o, setFieldU64 o sfIndexPrevious uNodeDir);;
          update sleRoot;;
          sle ← lift (STLedgerEntry.make (page (k_key dir) uNodeDir));
          o ← lift (setFieldH256 (sle_data sle) sfRootIndex (k_key dir));
          sleNode ← make_shared (mkSLE (sle_key sle) (sle_type sle) o);
          insert sleNode;;
          (if negb (uNodeDir =? 1) then set sleNode (λ o, setFieldU64 o sfIndexPrevious (u64 (uNodeDir - 1))) else mret ());;
          set sleNode fDescriber;;
          set sleNode (λ o, setFieldV256 o sfIndexes [uLedgerIndex]);;
          mret (tesSUCCESS, false, uNodeDir)
  end.

(** ** Deleting entries *)

Definition find (x : Z) (l : list Z) : option nat := fst <$> list_find (x =.) l.

(** The list without the element at [it] *)
Definition remove_at (bStable : bool) (it : nat) (l : list Z) : list Z :=
  if (1 <? length l)%nat then
    if bStable then delete it l
    else take (length l - 1) (<[it := default 0 (last l)]> l)
  else [].

(** The end of [dirDelete], when the page [uNodeCur] has become empty *)
Definition dirDelete_page (base : ReadView D) (bKeepRoot : bool) (uNodeCur uRootIndex : Z) (sleNode : pointer) : M D TER :=
  uNodePrevious ← get sleNode (λ o, getFieldU64 o sfIndexPrevious);
  uNodeNext ← get sleNode (λ o, getFieldU64 o sfIndexNext);
  if uNodeCur =? 0 then
    if uNodePrevious =? 0 then erase sleNode;; mret tesSUCCESS
    else if bKeepRoot then mret tesSUCCESS
    else if negb (uNodePrevious =? uNodeNext) then mret tesSUCCESS
    else
      sleLast ← peek base (page uRootIndex uNodeNext);
      sleLast ← not_null sleLast;
      indexes ← get sleLast (λ o, getFieldV256 o sfIndexes);
      match indexes with
      | [] => erase sleNode;; erase sleLast;; mret tesSUCCESS
      | _ => mret tesSUCCESS
      end
  else if negb (uNodeNext =? 0) then
    slePrevious ← peek base (page uRootIndex uNodePrevious);
    sleNext ← peek base (page uRootIndex uNodeNext);
    match slePrevious, sleNext with
    | None, _ | _, None => mret tefBAD_LEDGER
    | Some slePrevious, Some sleNext =>
        set slePrevious (λ o, setFieldU64 o sfIndexNext uNodeNext);;
        update slePrevious;;
        set sleNext (λ o, setFieldU64 o sfIndexPrevious uNodePrevious);;
        update sleNext;;
        erase sleNode;;
        mret tesSUCCESS
    end
  else if bKeepRoot || negb (uNodePrevious =? 0) then mret tesSUCCESS
  else
    sleRoot ← peek base (page uRootIndex 0);
    sleRoot ← not_null sleRoot;
    indexes ← get sleRoot (λ o, getFieldV256 o sfIndexes);
    match indexes with
    | [] => erase sleRoot;; erase sleNode;; mret tesSUCCESS
    | _ => mret tesSUCCESS
    end.

(** [fuel] bounds the calls with the next node, which end at node 20. *)
Fixpoint dirDelete_from (fuel : nat) (base : ReadView D) (bKeepRoot : bool) (uNodeDir uRootIndex uLedgerIndex : Z)
    (bStable bSoft : bool) : M D TER :=
  match fuel with
  | O => throw out_of_fuel
  | S fuel =>
      let next :=
        if negb bSoft then mret tefBAD_LEDGER
        else if uNodeDir <? 20 then dirDelete_from fuel base bKeepRoot (uNodeDir + 1) uRootIndex uLedgerIndex bStable true
        else mret tefBAD_LEDGER in
      sleNode ← peek base (page uRootIndex uNodeDir);
      match sleNode with
      | None => next
      | Some sleNode =>
          svIndexes ← get sleNode (λ o, getFieldV256 o sfIndexes);
          match find uLedgerIndex svIndexes with
          | None => next
          | Some it =>
              let svIndexes := remove_at bStable it svIndexes in
              set sleNode (λ o, setFieldV256 o sfIndexes svIndexes);;
              update sleNode;;
              match svIndexes with
              | [] => dirDelete_page base bKeepRoot uNodeDir uRootIndex sleNode
              | _ => mret tesSUCCESS
              end
          end
      end
  end.

Definition dirDelete base bKeepRoot uNodeDir uRootIndex uLedgerIndex bStable bSoft : M D TER :=
  dirDelete_from (S (Z.to_nat (20 - uNodeDir))) base bKeepRoot uNodeDir uRootIndex uLedgerIndex bStable bSoft.

(** ** Reading *)

Definition dirIsEmpty (view : ReadView D) (k : Keylet) : result bool :=
  match rv_read view k with
  | None => Ok true
  | Some sleNode =>
      svIndexes ← getFieldV256 (sle_data sleNode) sfIndexes;
      match svIndexes with
      | _ :: _ => Ok false
      | [] => uNodeNext ← getFieldU64 (sle_data sleNode) sfIndexNext; Ok (uNodeNext =? 0)
      end
  end.

(** [cdirNext] with the node, the next entry and the entry found; [fuel] bounds the pages
    passed over. *)
Fixpoint cdirNext (fuel : nat) (view : ReadView D) (uRootIndex : Z) (sleNode : SLE D) (uDirEntry uEntryIndex : Z) :
    result (bool * SLE D * Z * Z) :=
  match fuel with
  | O => Throw out_of_fuel
  | S fuel =>
      svIndexes ← getFieldV256 (sle_data sleNode) sfIndexes;
      if uDirEntry >=? Z.of_nat (length svIndexes) then
        uNodeNext ← getFieldU64 (sle_data sleNode) sfIndexNext;
        if uNodeNext =? 0 then Ok (false, sleNode, uDirEntry, 0)
        else
          match rv_read view (page uRootIndex uNodeNext) with
          | None => Ok (false, sleNode, 0, uEntryIndex)
          | Some sleNext => cdirNext fuel view uRootIndex sleNext 0 uEntryIndex
          end
      else Ok (true, sleNode, u32 (uDirEntry + 1), default 0 (svIndexes !! Z.to_nat uDirEntry))
  end.

Definition cdirFirst (fuel : nat) (view : ReadView D) (uRootIndex uEntryIndex : Z) : result (bool * SLE D * Z * Z) :=
  match rv_read view (page uRootIndex 0) with
  | None => Throw (undefined_behaviour "null pointer")
  | Some sleNode => cdirNext fuel view uRootIndex sleNode 0 uEntryIndex
  end.

(** The same with [peek], for programs that change entries on the way *)
Fixpoint dirNext (fuel : nat) (base : ReadView D) (uRootIndex : Z) (sleNode : pointer) (uDirEntry uEntryIndex : Z) :
    M D (bool * pointer * Z * Z) :=
  match fuel with
  | O => throw out_of_fuel
  | S fuel =>
      svIndexes ← get sleNode (λ o, getFieldV256 o sfIndexes);
      if uDirEntry >=? Z.of_nat (length svIndexes) then
        uNodeNext ← get sleNode (λ o, getFieldU64 o sfIndexNext);
        if uNodeNext =? 0 then mret (false, sleNode, uDirEntry, 0)
        else
          sleNext ← peek base (page uRootIndex uNodeNext);
          match sleNext with
          | None => mret (false, sleNode, 0, uEntryIndex)
          | Some sleNext => dirNext fuel base uRootIndex sleNext 0 uEntryIndex
          end
      else mret (true, sleNode, u32 (uDirEntry + 1), default 0 (svIndexes !! Z.to_nat uDirEntry))
  end.

Definition dirFirst (fuel : nat) (base : ReadView D) (uRootIndex uEntryIndex : Z) : M D (bool * pointer * Z * Z) :=
  sleNode ← peek base (page uRootIndex 0);
  sleNode ← not_null sleNode;
  dirNext fuel base uRootIndex sleNode 0 uEntryIndex.

End directory.

End Directory.
