(* ===== verification/DirectorySpec.v ===== *)
(** * DirectorySpec: directories as lists of pages

    A directory in a view is a list of numbered pages, linked in a ring.  Adding and deleting
    entries, through the pointers of the view of a transaction, do to the list what they say
    and change nothing else in the view; iterating gives the entries in order. *)

From stdpp Require Import sorting.
From S2P Require Import Prelude Serializer ReadView RawStateTable ApplyStateTable ApplyView SField SOTemplate STObject STLedgerEntry STObjectSpec STObjectRead Directory.

Module DirectorySpec.
Import STObject ApplyView Directory.

Abbreviation D := STObject.
Abbreviation pointer := ApplyStateTable.pointer.

(** ** Iterating

    The entries that a caller sees who calls [cdirFirst], or [dirFirst], and then [cdirNext],
    or [dirNext], until it returns false; [r] is what the last call returned. *)

Section iterate.
Context (sha512Half : list Z → Z).

Abbreviation cdirNext := (cdirNext sha512Half).
Abbreviation cdirFirst := (cdirFirst sha512Half).
Abbreviation dirNext := (dirNext sha512Half).
Abbreviation dirFirst := (dirFirst sha512Half).

Fixpoint cdir_loop (fuel n : nat) (view : ReadView D) (uRootIndex : Z) (r : bool * SLE D * Z * Z) : result (list Z) :=
  match n with
  | O => Throw out_of_fuel
  | S n =>
      let '(found, sleNode, uDirEntry, uEntryIndex) := r in
      if found : bool then
        r ← cdirNext fuel view uRootIndex sleNode uDirEntry uEntryIndex;
        l ← cdir_loop fuel n view uRootIndex r;
        Ok (uEntryIndex :: l)
      else Ok []
  end.

Fixpoint dir_loop (fuel n : nat) (base : ReadView D) (uRootIndex : Z) (r : bool * pointer * Z * Z) : M D (list Z) :=
  match n with
  | O => throw out_of_fuel
  | S n =>
      let '(found, sleNode, uDirEntry, uEntryIndex) := r in
      if found : bool then
        r ← dirNext fuel base uRootIndex sleNode uDirEntry uEntryIndex;
        l ← dir_loop fuel n base uRootIndex r;
        mret (uEntryIndex :: l)
      else mret []
  end.

Definition cdir_list fuel n view uRootIndex : result (list Z) :=
  r ← cdirFirst fuel view uRootIndex 0; cdir_loop fuel n view uRootIndex r.

Definition dir_list fuel n base uRootIndex : M D (list Z) :=
  r ← dirFirst fuel base uRootIndex 0; dir_loop fuel n base uRootIndex r.

End iterate.

(** ** Pages *)

(** What the functions use of a page *)
Record Page := mkPage { indexes : list Z; next : Z; prev : Z }.

Definition page_range (pg : Page) : Prop :=
  Forall is_uint256 (indexes pg) ∧ is_unsigned 64 (next pg) ∧ is_unsigned 64 (prev pg).

Record is_page (root : Z) (o : D) (pg : Page) : Prop := {
  p_typed : STObjectRead.typed_object o;
  p_format : mType o = Some format_DirectoryNode;
  p_root : getFieldH256 o sfRootIndex = Ok root;
  p_indexes : getFieldV256 o sfIndexes = Ok (indexes pg);
  p_next : getFieldU64 o sfIndexNext = Ok (next pg);
  p_prev : getFieldU64 o sfIndexPrevious = Ok (prev pg)
}.

Lemma getFieldBy_peek {V} (cast : value → option V) empty o o' f :
  peekAtPField o f = peekAtPField o' f → getFieldBy cast empty o f = getFieldBy cast empty o' f.
Proof. unfold getFieldBy. by intros ->. Qed.

(** Setting a field of the format *)
Lemma set_page_field o f x :
  STObjectRead.typed_object o → mType o = Some format_DirectoryNode → STObjectRead.known f →
  (∃ i, getIndex format_DirectoryNode f = Ok (Some i)) → fieldType f = getSType x → STObjectSpec.present x = true → STObjectRead.typed f x →
  ∃ o', setField x o f = Ok o' ∧ STObjectRead.typed_object o' ∧ mType o' = Some format_DirectoryNode ∧
    peekAtPField o' f = Ok (Some (f, x)) ∧ ∀ g, STObjectRead.known g → g ≠ f → peekAtPField o' g = peekAtPField o g.
Proof.
  intros Ho Hm Hf Hi Et Hp Hx.
  destruct (STObjectRead.set_field_ok o f x Ho Hf Et Hp Hx) as (o' & E & Ho' & Hm' & Hpeek & Hg).
  - left. unfold getFieldIndex. by rewrite Hm.
  - exists o'. by rewrite Hm', Hm.
Qed.

(** [set_page x] shows that setting the field to [x] gives the page with that field. *)
Ltac set_page f x :=
  intros [Ho Hm Hr Hi Hn Hp] Hl;
  destruct (set_page_field _ f x Ho Hm) as (o' & E & Ho' & Hm' & Hpeek & Hg);
    [reflexivity|by eexists|reflexivity|reflexivity|by apply STObjectRead.typed_scalar|];
  exists o'; split; [done|]; split; [done|done|..]; cbn [indexes next prev RecordSettersUsingExistingGetters.set];
  solve [unfold getFieldV256, getFieldU64, getFieldBy; by rewrite Hpeek
        |first [rewrite <- Hr|rewrite <- Hi|rewrite <- Hn|rewrite <- Hp]; apply getFieldBy_peek, Hg; [reflexivity|discriminate]].

Lemma set_indexes root o pg l :
  is_page root o pg → Forall is_uint256 l →
  ∃ o', setFieldV256 o sfIndexes l = Ok o' ∧ is_page root o' (pg<|indexes := l|>).
Proof. set_page sfIndexes (Vector256 l). Qed.

Lemma set_next root o pg n :
  is_page root o pg → is_unsigned 64 n →
  ∃ o', setFieldU64 o sfIndexNext n = Ok o' ∧ is_page root o' (pg<|next := n|>).
Proof. set_page sfIndexNext (UInt64 n). Qed.

Lemma set_prev root o pg n :
  is_page root o pg → is_unsigned 64 n →
  ∃ o', setFieldU64 o sfIndexPrevious n = Ok o' ∧ is_page root o' (pg<|prev := n|>).
Proof. set_page sfIndexPrevious (UInt64 n). Qed.

(** The owner is not one of the fields of the list. *)
Lemma describeOwnerDir_page root o pg account :
  is_page root o pg → is_unsigned 160 account → ∃ o', describeOwnerDir account o = Ok o' ∧ is_page root o' pg.
Proof.
  intros [Ho Hm Hr Hi Hn Hp] Ha.
  assert (∃ i, getFieldIndex o sfOwner = Ok (Some i)) as [i E] by (unfold getFieldIndex; rewrite Hm; by eexists).
  destruct (STObjectRead.index_entry o sfOwner i Ho eq_refl E) as (x & Hx & Ht).
  pose proof (lookup_lt_Some _ _ _ Hx) as Hlt. set (y := Account account false).
  exists (with_fields o (<[i := (sfOwner, y)]> (v_ o))). split.
  - unfold describeOwnerDir, peekAtPField, makeFieldPresent. rewrite Hm, E, !ok_bind, Hx.
    destruct x; try (exfalso; inversion Ht; discriminate).
    + change (getSType NotPresent =? STI_NOTPRESENT) with true. cbn [negb].
      change (default_value (fieldType sfOwner)) with (Ok (Account 0 true)). rewrite ok_bind. cbn [mbind result_bind v_ with_fields].
      rewrite list_lookup_insert_eq by done. by rewrite list_insert_insert_eq.
    + change (getSType (Account value_ default_) =? STI_NOTPRESENT) with false. cbn [negb mbind result_bind]. by rewrite Hx.
  - destruct (STObjectRead.update_peek o i sfOwner y x Ho eq_refl E Hx) as [_ Hg].
    split; [by eapply STObjectRead.update_typed; [..|apply STObjectRead.typed_scalar]|done|..];
      first [rewrite <- Hr|rewrite <- Hi|rewrite <- Hn|rewrite <- Hp]; apply getFieldBy_peek, Hg; (reflexivity || discriminate).
Qed.

(** A new page *)
Lemma new_page root key :
  is_uint256 root →
  ∃ sle o, STLedgerEntry.make (mkKeylet ltDIR_NODE key) = Ok sle ∧ sle_key sle = key ∧ sle_type sle = ltDIR_NODE ∧
    setFieldH256 (sle_data sle) sfRootIndex root = Ok o ∧ is_page root o (mkPage [] 0 0).
Proof.
  intros Hu. eexists _, _. split; [reflexivity|]. split; [done|]. split; [done|]. split; [reflexivity|].
  split; [|reflexivity..]. constructor; [by intros ? [= <-]|].
  repeat (apply Forall_cons_2; [split; [reflexivity|]|]); [..|constructor];
    first [by apply STObjectRead.typed_absent | apply STObjectRead.typed_scalar; [reflexivity|]; first [done | constructor | by vm_compute]].
Qed.

(** ** Lists of pages

    A directory is a list of pages with their numbers.  The pages are linked in both
    directions and in a ring: after the last page comes number 0, and before the root the
    last page. *)

Abbreviation pages := (list (Z * list Z)).
Implicit Types (PM : gmap Z Page) (pg : Page) (l : pages).

Definition entries l : list Z := concat l.*2.

Definition first_number (x : Z) l : Z := match l with [] => x | (n, _) :: _ => n end.
Definition last_number (p : Z) l : Z := match last l with None => p | Some (n, _) => n end.

(** The pages [l] between [p] and [x] *)
Fixpoint seg PM (p : Z) (l : pages) (x : Z) : Prop :=
  match l with
  | [] => True
  | (n, idx) :: l => PM !! n = Some (mkPage idx (first_number x l) p) ∧ seg PM n l x
  end.

Lemma last_number_app p l1 l2 : last_number p (l1 ++ l2) = last_number (last_number p l1) l2.
Proof. unfold last_number. rewrite last_app. by destruct (last l2) as [[]|]. Qed.

Lemma last_number_cons p n idx l : last_number p ((n, idx) :: l) = last_number n l.
Proof. unfold last_number. rewrite last_cons. by destruct (last l) as [[]|]. Qed.

Lemma first_number_app x l1 l2 : first_number x (l1 ++ l2) = first_number (first_number x l2) l1.
Proof. by destruct l1 as [|[]]. Qed.

Lemma seg_app PM p l1 l2 x :
  seg PM p (l1 ++ l2) x ↔ seg PM p l1 (first_number x l2) ∧ seg PM (last_number p l1) l2 x.
Proof.
  revert p. induction l1 as [|[n idx] l1 IH]; intros p; [cbn; tauto|].
  cbn [app seg]. rewrite IH, first_number_app, last_number_cons. tauto.
Qed.

Lemma seg_ext PM PM' p l x : (∀ n, n ∈ l.*1 → PM' !! n = PM !! n) → seg PM p l x → seg PM' p l x.
Proof.
  revert p. induction l as [|[n idx] l IH]; intros p Hn; [done|]. intros [H1 H2]. cbn in Hn. split.
  - rewrite Hn; [done|by left].
  - apply IH; [|done]. intros j Hj. apply Hn. by right.
Qed.

(** Changing the outward link of the first and of the last page *)
Lemma seg_set_prev PM p p' n idx l x :
  n ∉ l.*1 → seg PM p ((n, idx) :: l) x → seg (alter (λ pg, pg<|prev := p'|>) n PM) p' ((n, idx) :: l) x.
Proof.
  intros Hn [H1 H2]. split; [by rewrite lookup_alter_eq, H1|]. eapply seg_ext; [|exact H2].
  intros j Hj. rewrite lookup_alter_ne; [done|]. by intros ->.
Qed.

Lemma seg_set_next PM p n idx l x x' :
  n ∉ l.*1 → seg PM p (l ++ [(n, idx)]) x → seg (alter (λ pg, pg<|next := x'|>) n PM) p (l ++ [(n, idx)]) x'.
Proof.
  intros Hn. rewrite !seg_app. cbn [seg first_number]. intros (H1 & H2 & _). split_and!; [|by rewrite lookup_alter_eq, H2|done].
  eapply seg_ext; [|exact H1]. intros j Hj. rewrite lookup_alter_ne; [done|]. by intros ->.
Qed.

Lemma seg_set_indexes PM p n idx idx' l1 l2 x :
  n ∉ l1.*1 → n ∉ l2.*1 → seg PM p (l1 ++ (n, idx) :: l2) x →
  seg (alter (λ pg, pg<|indexes := idx'|>) n PM) p (l1 ++ (n, idx') :: l2) x.
Proof.
  intros H1 H2. rewrite !seg_app. cbn [seg first_number]. intros (Ha & Hb & Hc). split_and!.
  - eapply seg_ext; [|exact Ha]. intros j Hj. rewrite lookup_alter_ne; [done|]. by intros ->.
  - by rewrite lookup_alter_eq, Hb.
  - eapply seg_ext; [|exact Hc]. intros j Hj. rewrite lookup_alter_ne; [done|]. by intros ->.
Qed.

(** Taking a page out, when the pages beside it are linked around it *)
Lemma seg_remove PM p l1 a ia n idx b ib l2 x :
  NoDup (l1 ++ (a, ia) :: (n, idx) :: (b, ib) :: l2).*1 →
  seg PM p (l1 ++ (a, ia) :: (n, idx) :: (b, ib) :: l2) x →
  seg (delete n (alter (λ pg, pg<|prev := a|>) b (alter (λ pg, pg<|next := b|>) a PM))) p (l1 ++ (a, ia) :: (b, ib) :: l2) x.
Proof.
  rewrite fmap_app, NoDup_app, !fmap_cons, !NoDup_cons. cbn [fst]. intros (_ & H1 & Ha & Hn & Hb & _).
  change (l1 ++ (a, ia) :: ?l) with (l1 ++ [(a, ia)] ++ l). rewrite !(app_assoc l1), !(seg_app _ _ (l1 ++ [(a, ia)])), !last_number_app.
  cbn [app seg first_number last_number last]. intros (Hs1 & Hs2 & Hs3). apply not_elem_of_cons in Ha as [Hab Ha], Hn as [Hnb Hn].
  pose proof (seg_set_next PM p a ia l1 n b (λ H, H1 a H ltac:(by left)) Hs1) as Hl.
  destruct Hs3 as [Hs3 Hs4].
  split.
  - eapply seg_ext; [|exact Hl]. intros j Hj. rewrite fmap_app, elem_of_app in Hj. cbn [fmap list_fmap fst] in Hj. rewrite list_elem_of_singleton in Hj.
    assert (j ≠ n ∧ j ≠ b) as [??].
    { destruct Hj as [Hj| ->]; [|set_solver]. split; intros ->; by apply (H1 _ Hj); set_solver. }
    by rewrite lookup_delete_ne, lookup_alter_ne by done.
  - split.
    + rewrite lookup_delete_ne, lookup_alter_eq, lookup_alter_ne by set_solver. by rewrite Hs3.
    + eapply seg_ext; [|exact Hs4]. intros j Hj. assert (j ≠ n ∧ j ≠ b ∧ j ≠ a) as (?&?&?) by set_solver.
      by rewrite lookup_delete_ne, !lookup_alter_ne by done.
Qed.

Record linked (limit : Z) PM l : Prop := {
  k_root : first_number 0 l = 0;
  k_seg : seg PM (last_number 0 l) l 0;
  k_sorted : StronglySorted Z.lt l.*1;
  k_dom n : n ∉ l.*1 → PM !! n = None;
  k_pages : Forall (λ x, 0 ≤ x.1 ≤ limit ∧ (length x.2 ≤ DIR_NODE_MAX)%nat ∧ Forall is_uint256 x.2) l
}.

Lemma sorted_app_inv (l1 l2 : list Z) :
  StronglySorted Z.lt (l1 ++ l2) ↔
  StronglySorted Z.lt l1 ∧ StronglySorted Z.lt l2 ∧ ∀ x y, x ∈ l1 → y ∈ l2 → x < y.
Proof.
  induction l1 as [|x l1 IH]; cbn [app].
  - split; [|by intros (_ & H & _)]. intros H. split_and!; [constructor|done|set_solver].
  - split.
    + intros [H1 H2]%StronglySorted_inv. apply IH in H1 as (H1 & H3 & H4). rewrite Forall_app in H2. destruct H2 as [H2 H5].
      split_and!; [by constructor|done|]. intros a b [->|Ha]%elem_of_cons Hb; [|by apply H4].
      rewrite Forall_forall in H5. by apply H5.
    + intros (H1 & H2 & H3). apply StronglySorted_inv in H1 as [H1 H4]. constructor.
      * apply IH. split_and!; [done..|]. intros a b Ha Hb. apply H3; [by right|done].
      * apply Forall_app. split; [done|]. apply Forall_forall. intros b Hb. apply H3; [by left|done].
Qed.

Section linked.
Context (limit : Z).
Abbreviation linked := (linked limit).

Lemma linked_NoDup PM l : linked PM l → NoDup l.*1.
Proof. intros H. apply sorted_NoDup, (k_sorted _ _ _ H). Qed.

(** The page in the middle of a directory *)
Lemma linked_page PM l1 n idx l2 :
  linked PM (l1 ++ (n, idx) :: l2) →
  PM !! n = Some (mkPage idx (first_number 0 l2) (last_number (last_number n l2) l1)) ∧
  0 ≤ n ≤ limit ∧ (length idx ≤ DIR_NODE_MAX)%nat ∧ Forall is_uint256 idx ∧ (l1 = [] ↔ n = 0) ∧ n ∉ l1.*1 ∧ n ∉ l2.*1.
Proof.
  intros H. pose proof (linked_NoDup _ _ H) as Hnd. destruct H as [Hr Hs Hso Hd Hp]. rewrite Forall_app, Forall_cons in Hp.
  destruct Hp as (Hp1 & (Hn & Hlen & Hu) & _). cbn [fst snd] in *. rewrite last_number_app, last_number_cons, seg_app in Hs.
  destruct Hs as (_ & Hs & _). rewrite fmap_app, NoDup_app, fmap_cons, NoDup_cons in Hnd. destruct Hnd as (_ & Hnd & Hn2 & _).
  split_and!; [done|lia..|done|done| | |done].
  - split; [by intros ->|]. intros ->. destruct l1 as [|[a ia] l1]; [done|]. cbn in Hr. subst a.
    destruct (Hnd 0); cbn; [by left|by left].
  - intros Hin. apply (Hnd n Hin). by left.
Qed.

(** The next page, and the one before *)
Lemma linked_next PM l1 n idx l2 : linked PM (l1 ++ (n, idx) :: l2) → (first_number 0 l2 = 0 ↔ l2 = []).
Proof.
  intros H. destruct l2 as [|[b ib] l2]; [done|]. split; [|done]. cbn. intros ->.
  change ((n, idx) :: ?l) with ([(n, idx)] ++ l) in H. rewrite app_assoc in H.
  destruct (linked_page _ _ _ _ _ H) as (_ & _ & _ & _ & [_ Hr] & _). pose proof (Hr eq_refl). by destruct l1.
Qed.

Lemma linked_update PM l1 n idx idx' l2 :
  linked PM (l1 ++ (n, idx) :: l2) → (length idx' ≤ DIR_NODE_MAX)%nat → Forall is_uint256 idx' →
  linked (alter (λ pg, pg<|indexes := idx'|>) n PM) (l1 ++ (n, idx') :: l2).
Proof.
  intros H Hlen Hu. destruct (linked_page _ _ _ _ _ H) as (_ & Hn & _ & _ & _ & H1 & H2). destruct H as [Hr Hs Hso Hd Hp].
  assert ((l1 ++ (n, idx') :: l2).*1 = (l1 ++ (n, idx) :: l2).*1) as E by by rewrite !fmap_app.
  split.
  - by destruct l1 as [|[]].
  - rewrite last_number_app, last_number_cons in *. by eapply seg_set_indexes.
  - by rewrite E.
  - intros j Hj. rewrite E in Hj. rewrite lookup_alter_ne; [by apply Hd|]. intros ->. apply Hj. rewrite fmap_app. set_solver.
  - rewrite Forall_app, Forall_cons in *. naive_solver.
Qed.

Lemma linked_last PM l n idx j : linked PM (l ++ [(n, idx)]) → j ∈ (l ++ [(n, idx)]).*1 → j ≤ n.
Proof.
  intros H. pose proof (k_sorted _ _ _ H) as Hso. rewrite fmap_app, sorted_app_inv in Hso. destruct Hso as (_ & _ & Hso).
  rewrite fmap_app, elem_of_app. intros [Hj|Hj]; [pose proof (Hso j n Hj ltac:(by left)); lia|].
  cbn in Hj. apply list_elem_of_singleton in Hj. lia.
Qed.

(** Adding a page at the end *)
Lemma linked_append PM l n idx x :
  linked PM (l ++ [(n, idx)]) → n < limit → is_uint256 x →
  linked (<[n + 1 := mkPage [x] 0 n]> (alter (λ pg, pg<|prev := n + 1|>) 0 (alter (λ pg, pg<|next := n + 1|>) n PM)))
    (l ++ [(n, idx)] ++ [(n + 1, [x])]).
Proof.
  intros H Hlim Hx. destruct (linked_page _ _ _ _ _ H) as (_ & Hn & Hlen & Hu & Hl & H1 & _). pose proof (linked_NoDup _ _ H) as Hnd.
  assert (∀ j, j ∈ (l ++ [(n, idx)]).*1 → j < n + 1) as Hlt by (intros j Hj; pose proof (linked_last _ _ _ _ _ H Hj); lia).
  destruct H as [Hr Hs Hso Hd Hp].
  rewrite (app_assoc l). split.
  - destruct l as [|[]]; [|done]. by cbn in *.
  - rewrite last_number_app, seg_app. rewrite last_number_app in Hs |- *. cbn [last_number last first_number seg] in *.
    split; [|by rewrite lookup_insert_eq, ?last_number_app].
    eapply (seg_ext (alter (λ pg, pg<|prev := n + 1|>) 0 (alter (λ pg, pg<|next := n + 1|>) n PM))).
    { intros j Hj%Hlt. rewrite lookup_insert_ne by lia. done. }
    pose proof (seg_set_next _ _ _ _ _ _ (n + 1) H1 Hs) as Hs'.
    destruct (l ++ [(n, idx)]) as [|[r ir] l'] eqn:E; [by destruct l|]. cbn in Hr. subst r.
    eapply seg_set_prev; [|exact Hs']. cbn in Hnd. by apply NoDup_cons in Hnd as [? _].
  - rewrite fmap_app, sorted_app_inv. split_and!; [done|repeat constructor|].
    intros a b Ha Hb. apply Hlt in Ha. cbn in Hb. apply list_elem_of_singleton in Hb. lia.
  - intros j Hj. rewrite fmap_app, elem_of_app in Hj. cbn in Hj. rewrite list_elem_of_singleton in Hj.
    rewrite lookup_insert_ne by naive_solver. rewrite !lookup_alter_None. apply Hd. naive_solver.
  - apply Forall_app. split; [done|]. apply Forall_singleton. cbn [fst snd length]. unfold DIR_NODE_MAX. split_and!; [lia..|]. by constructor.
Qed.

(** Taking out a page between others *)
Lemma linked_remove PM l1 a ia n idx b ib l2 :
  linked PM (l1 ++ (a, ia) :: (n, idx) :: (b, ib) :: l2) →
  linked (delete n (alter (λ pg, pg<|prev := a|>) b (alter (λ pg, pg<|next := b|>) a PM))) (l1 ++ (a, ia) :: (b, ib) :: l2).
Proof.
  intros H. pose proof (linked_NoDup _ _ H) as Hnd. destruct H as [Hr Hs Hso Hd Hp]. split.
  - by destruct l1 as [|[]].
  - rewrite last_number_app, !last_number_cons in *. by eapply seg_remove.
  - rewrite fmap_app, sorted_app_inv in *. destruct Hso as (H1 & H2 & H3). rewrite !fmap_cons in *. cbn [fst] in *.
    apply StronglySorted_inv in H2 as [H2 H4]. apply StronglySorted_inv in H2 as [H2 _]. apply Forall_cons in H4 as [_ H4].
    split_and!; [done|by constructor|]. intros x y Hx Hy. apply H3; [done|]. set_solver.
  - intros j Hj. rewrite fmap_app in *. rewrite lookup_delete. case_decide as Hjn; [done|]. rewrite !lookup_alter_None.
    apply Hd. set_solver.
  - rewrite Forall_app, !Forall_cons in *. naive_solver.
Qed.

Lemma linked_split PM l1 n idx l2 :
  linked PM (l1 ++ (n, idx) :: l2) → n ≠ 0 → ∃ l a ia, l1 = l ++ [(a, ia)] ∧ (a = 0 ↔ l = []).
Proof.
  intros H Hn. destruct (linked_page _ _ _ _ _ H) as (_ & _ & _ & _ & Hl & _).
  destruct l1 as [|[a ia] l1 _] using rev_ind; [by destruct Hn; apply Hl|]. exists l1, a, ia. split; [done|].
  rewrite <- app_assoc in H. destruct (linked_page _ _ _ _ _ H) as (_ & _ & _ & _ & Ha & _). cbn in Ha. tauto.
Qed.

Lemma linked_prev_root PM idx l : linked PM ((0, idx) :: l) → (last_number 0 l = 0 ↔ l = []).
Proof.
  intros H. split; [|by intros ->]. destruct l as [|[b ib] l _] using rev_ind; [done|]. rewrite last_number_app. cbn. intros ->.
  destruct (linked_page PM ((0, idx) :: l) 0 ib [] H) as (_ & _ & _ & _ & [_ Ha] & _). by specialize (Ha eq_refl).
Qed.

Lemma linked_two PM idx b ib l : linked PM ((0, idx) :: (b, ib) :: l) → last_number b l = b → l = [].
Proof.
  intros H. destruct l as [|[c ic] l _] using rev_ind; [done|]. rewrite last_number_app. cbn. intros ->.
  pose proof (linked_NoDup _ _ H) as Hnd. rewrite !fmap_cons, fmap_app, !NoDup_cons in Hnd. cbn in Hnd. set_solver.
Qed.

Lemma linked_nil PM : linked PM [] ↔ PM = ∅.
Proof.
  split.
  - intros H. apply map_eq. intros n. rewrite lookup_empty. apply (k_dom _ _ _ H). by apply not_elem_of_nil.
  - intros ->. split; [done..|constructor| |constructor]. intros n _. apply lookup_empty.
Qed.

End linked.

(** ** Operations on lists of pages *)

Definition add_entry l (x : Z) : pages :=
  match last l with
  | None => [(0, [x])]
  | Some (n, idx) =>
      if (DIR_NODE_MAX =? length idx)%nat then l ++ [(n + 1, [x])]
      else take (length l - 1) l ++ [(n, idx ++ [x])]
  end.

Lemma add_entry_app l n idx x :
  add_entry (l ++ [(n, idx)]) x =
  if (DIR_NODE_MAX =? length idx)%nat then l ++ [(n, idx)] ++ [(n + 1, [x])] else l ++ [(n, idx ++ [x])].
Proof.
  unfold add_entry. rewrite last_snoc, length_app, <- app_assoc. cbn [length]. by rewrite Nat.add_sub, take_app_length.
Qed.

Lemma entries_add l x : entries (add_entry l x) = entries l ++ [x].
Proof.
  destruct l as [|[n idx] l _] using rev_ind; [done|]. rewrite add_entry_app. unfold entries.
  destruct (_ =? _)%nat; rewrite ?fmap_app, ?concat_app; cbn [fmap list_fmap concat snd app]; by rewrite ?app_nil_r, <- ?app_assoc.
Qed.

(** What happens when page [i] has become empty: the root and the last page stay, unless
    nothing is left of the directory. *)
Definition drop_page (keep : bool) (i : nat) l : pages :=
  match l with
  | [_] => []
  | [(_, a); (_, b)] => if keep then l else match a, b with [], [] => [] | _, _ => l end
  | _ => if ((0 <? i) && (i <? length l - 1))%nat then delete i l else l
  end.

Definition delete_entry (keep stable : bool) l (n x : Z) : option pages :=
  '(i, (_, idx)) ← list_find (λ y, y.1 = n) l;
  it ← find x idx;
  let idx := remove_at stable it idx in
  let l := <[i := (n, idx)]> l in
  Some (match idx with [] => drop_page keep i l | _ => l end).

(** With the search through the next pages, up to number 20 *)
Fixpoint delete_from (fuel : nat) (keep stable soft : bool) l (n x : Z) : option pages :=
  match fuel with
  | O => None
  | S fuel =>
      match delete_entry keep stable l n x with
      | Some l => Some l
      | None => if soft && (n <? 20) then delete_from fuel keep stable true l (n + 1) x else None
      end
  end.

Definition delete_search (keep stable soft : bool) l (n x : Z) : option pages :=
  delete_from (S (Z.to_nat (20 - n))) keep stable soft l n x.

Lemma find_Some x idx it : find x idx = Some it → idx !! it = Some x.
Proof. unfold find. destruct (list_find _ _) as [[j y]|] eqn:E; [|done]. intros [= <-]. by apply list_find_Some in E as (E & -> & _). Qed.

Lemma remove_at_perm stable it idx x : idx !! it = Some x → idx ≡ₚ x :: remove_at stable it idx.
Proof.
  intros Hx. pose proof (lookup_lt_Some _ _ _ Hx) as Hlt. unfold remove_at. destruct (1 <? length idx)%nat eqn:E.
  - destruct stable; [by apply delete_Permutation|]. destruct idx as [|z idx _] using rev_ind; [done|].
    rewrite last_snoc, length_app. cbn [length default]. rewrite Nat.add_sub. rewrite length_app in Hlt. cbn [length] in Hlt.
    destruct (decide (it = length idx)) as [->|Hne].
    + rewrite list_lookup_middle in Hx by done. injection Hx as ->. rewrite insert_app_r_alt, take_app_length by lia.
      by rewrite Permutation_app_comm.
    + rewrite lookup_app_l in Hx by lia. rewrite insert_app_l by lia. rewrite take_app_length' by by rewrite length_insert.
      rewrite insert_take_drop by lia. rewrite <- (take_drop_middle idx it x Hx) at 1. solve_Permutation.
  - destruct idx as [|y [|]]; [done| |done]. cbn in Hlt. assert (it = 0%nat) as -> by lia. by injection Hx as ->.
Qed.

Lemma drop_page_entries keep i l n : l !! i = Some (n, []) → entries (drop_page keep i l) = entries l.
Proof.
  intros Hi. assert (entries (delete i l) = entries l) as Hdel.
  { rewrite <- (take_drop_middle l i _ Hi) at 2. rewrite delete_take_drop. unfold entries.
    rewrite !fmap_app, !concat_app. cbn [fmap list_fmap concat snd app]. done. }
  unfold drop_page. destruct l as [|[n0 a] [|[n1 b] [|[n2 c] l]]]; [done| | |by destruct (_ && _)].
  - destruct i; [|done]. by injection Hi as -> ->.
  - destruct keep; [done|]. by destruct a, b.
Qed.

(** The entry is removed, and nothing else. *)
Lemma entries_delete keep stable l n x l' :
  delete_entry keep stable l n x = Some l' → entries l ≡ₚ x :: entries l'.
Proof.
  unfold delete_entry. destruct (list_find _ l) as [[i [n' idx]]|] eqn:E; [|done]. cbn.
  apply list_find_Some in E as (Hi & E & _). cbn in E. subst n'. destruct (find x idx) as [it|] eqn:Ef; [|done]. cbn.
  apply find_Some in Ef. intros [= <-]. pose proof (lookup_lt_Some _ _ _ Hi) as Hlt.
  assert (entries l ≡ₚ x :: entries (<[i := (n, remove_at stable it idx)]> l)) as Hp.
  { pose proof (remove_at_perm stable it idx x Ef) as Hr. revert Hr. generalize (remove_at stable it idx). intros idx' Hr.
    rewrite insert_take_drop by done. rewrite <- (take_drop_middle l i _ Hi) at 1. unfold entries.
    rewrite !fmap_app, !concat_app. cbn [fmap list_fmap concat snd]. rewrite Hr. solve_Permutation. }
  rewrite Hp. destruct (remove_at stable it idx) eqn:Er; [|done]. rewrite (drop_page_entries keep i _ n); [done|].
  by apply list_lookup_insert_eq.
Qed.

(** A stable deletion keeps the order. *)
Lemma remove_at_stable it idx x :
  idx !! it = Some x → remove_at true it idx = take it idx ++ drop (S it) idx.
Proof.
  intros Hx. unfold remove_at. destruct (1 <? length idx)%nat eqn:E; [apply delete_take_drop|].
  apply Nat.ltb_ge in E. destruct idx as [|y [|]]; [done| |cbn in E; lia]. by destruct it as [|[]].
Qed.

Lemma entries_delete_stable keep l n x l' :
  delete_entry keep true l n x = Some l' → ∃ a b, entries l = a ++ x :: b ∧ entries l' = a ++ b.
Proof.
  unfold delete_entry. destruct (list_find _ l) as [[i [n' idx]]|] eqn:E; [|done]. cbn.
  apply list_find_Some in E as (Hi & E & _). cbn in E. subst n'. destruct (find x idx) as [it|] eqn:Ef; [|done]. cbn.
  apply find_Some in Ef. intros [= <-]. pose proof (lookup_lt_Some _ _ _ Hi) as Hlt.
  exists (entries (take i l) ++ take it idx), (drop (S it) idx ++ entries (drop (S i) l)). split.
  - rewrite <- (take_drop_middle l i _ Hi) at 1. unfold entries. rewrite fmap_app, concat_app. cbn [fmap list_fmap concat snd].
    rewrite <- (take_drop_middle idx it _ Ef) at 1. by rewrite <- !app_assoc.
  - rewrite (remove_at_stable _ _ _ Ef).
    assert (entries (<[i := (n, take it idx ++ drop (S it) idx)]> l) =
      (entries (take i l) ++ take it idx) ++ drop (S it) idx ++ entries (drop (S i) l)) as <-.
    { rewrite insert_take_drop by done. unfold entries. rewrite fmap_app, concat_app. cbn [fmap list_fmap concat snd]. by rewrite <- !app_assoc. }
    destruct (take it idx ++ drop (S it) idx) eqn:Er; [|done]. apply (drop_page_entries keep i _ n). by apply list_lookup_insert_eq.
Qed.

(** What the search finds *)
Lemma delete_from_entry fuel keep stable soft l n x l' :
  delete_from fuel keep stable soft l n x = Some l' → ∃ n', n ≤ n' ∧ delete_entry keep stable l n' x = Some l'.
Proof.
  revert n soft. induction fuel as [|fuel IH]; intros n soft; [done|]. cbn.
  destruct (delete_entry keep stable l n x) as [l1|] eqn:E; [intros [= <-]; exists n; split; [lia|done]|].
  case_match; [|done]. intros (n' & Hn & Hd)%IH. exists n'. split; [lia|done].
Qed.

(** The entry is found on the page the caller names. *)
Lemma delete_entry_found keep stable l n x idx :
  NoDup l.*1 → (n, idx) ∈ l → x ∈ idx → is_Some (delete_entry keep stable l n x).
Proof.
  intros Hnd Hin Hx. unfold delete_entry. destruct (list_find _ l) as [[i [n' idx']]|] eqn:E.
  - apply list_find_Some in E as (Hi & E & _). cbn in E. subst n'. apply list_elem_of_lookup in Hin as [j Hj].
    assert (i = j) as -> by (eapply (NoDup_lookup _ _ _ n Hnd); rewrite list_lookup_fmap, ?Hi, ?Hj; done).
    rewrite Hi in Hj. injection Hj as ->. cbn. unfold find.
    destruct (list_find_elem_of (x =.) idx x Hx eq_refl) as [[it y] ->]. by eexists.
  - apply list_find_None in E. rewrite Forall_forall in E. by destruct (E _ Hin).
Qed.

(** On any other page it is not. *)
Lemma delete_entry_page keep stable l n x : is_Some (delete_entry keep stable l n x) → ∃ idx, (n, idx) ∈ l ∧ x ∈ idx.
Proof.
  unfold delete_entry. destruct (list_find _ l) as [[i [n' idx]]|] eqn:E; [|by intros []].
  apply list_find_Some in E as (Hi & E & _). cbn in E. subst n'. cbn. destruct (find x idx) as [it|] eqn:Ef; [|by intros []].
  intros _. exists idx. apply find_Some in Ef. split; by eapply list_elem_of_lookup_2.
Qed.

Lemma delete_from_found fuel keep stable soft l n x :
  NoDup l.*1 → (Z.to_nat (20 - n) < fuel)%nat →
  is_Some (delete_from fuel keep stable soft l n x) ↔
  ∃ n' idx, (n', idx) ∈ l ∧ x ∈ idx ∧ (n' = n ∨ soft = true ∧ n < n' ≤ 20).
Proof.
  intros Hnd. revert n soft. induction fuel as [|fuel IH]; intros n soft Hf; [lia|]. cbn.
  destruct (delete_entry keep stable l n x) as [l'|] eqn:E.
  { split; [intros _|by eexists]. destruct (delete_entry_page keep stable l n x) as (idx & ? & ?); [by eexists|]. exists n, idx. auto. }
  assert (∀ idx, (n, idx) ∈ l → x ∉ idx) as Hn.
  { intros idx Hin Hx. destruct (delete_entry_found keep stable l n x idx Hnd Hin Hx). congruence. }
  destruct (soft && (n <? 20)) eqn:Es.
  - apply andb_prop in Es as [-> Es]. zb. rewrite IH by lia. split; intros (n' & idx & Hin & Hx & H); exists n', idx; (split_and!; [done..|]).
    + right. split; [done|]. lia.
    + destruct H as [->|[_ H]]; [by destruct (Hn idx)|]. destruct (decide (n' = n + 1)); [by left|right]. split; [done|lia].
  - split; [by intros []|]. intros (n' & idx & Hin & Hx & [->|[-> H]]); [by destruct (Hn idx)|]. cbn in Es. zb. lia.
Qed.

Lemma delete_search_found keep stable soft l n x :
  NoDup l.*1 → is_Some (delete_search keep stable soft l n x) ↔
  ∃ n' idx, (n', idx) ∈ l ∧ x ∈ idx ∧ (n' = n ∨ soft = true ∧ n < n' ≤ 20).
Proof. intros Hnd. apply delete_from_found; [done|lia]. Qed.

(** Three entries on three pages, deleted from the first page, the last and the one between:
    the root and the last page remain, without entries. *)
Lemma empty_pages_remain :
  let l0 := [(0, [1]); (1, [2]); (2, [3])] in
  ∃ l1 l2, delete_entry false false l0 0 1 = Some l1 ∧ delete_entry false false l1 2 3 = Some l2 ∧
    delete_entry false false l2 1 2 = Some [(0, []); (2, [])].
Proof. eexists _, _. split_and!; by vm_compute. Qed.

(** ** The pages of a directory in a view *)

Section pages.
Context (sha512Half : list Z → Z) (root limit : Z).
Abbreviation key := (getDirNodeIndex sha512Half root).

(** The numbers of the pages are up to [limit]; their keys do not collide. *)
Definition number (n : Z) : Prop := 0 ≤ n ≤ limit.
Context (limit_range : is_unsigned 64 limit) (root_range : is_uint256 root).
Context (key_range : ∀ n, number n → is_uint256 (key n)).
Context (key_inj : ∀ n n', number n → number n' → key n = key n' → n = n').

Context (m : gmap Z (SLE D)) (base : ReadView D) (Hrep : Represents base m).
Implicit Types (mo : gmap Z (SLE D)) (X : gset Z) (L : list (pointer * Z * bool)) (p : pointer) (st : State D).

Definition shows_page mo (n : Z) (o : option Page) : Prop :=
  match o with
  | None => mo !! key n = None
  | Some pg => ∃ e, mo !! key n = Some e ∧ sle_type e = ltDIR_NODE ∧ is_page root (sle_data e) pg
  end.

Definition Pages mo PM : Prop := ∀ n, number n → shows_page mo n (PM !! n).

(** The entries that are not pages of the directory *)
Definition others (mo mo' : gmap Z (SLE D)) : Prop := ∀ k, (∀ n, number n → k ≠ key n) → mo' !! k = mo !! k.

(** The view shows the pages [PM] and, for the rest, [mo0]; pages and pointers to them are
    given by their numbers. *)
Definition by_key L : list (pointer * Z * bool) := (λ x, (x.1.1, key x.1.2, x.2)) <$> L.

Definition DSt mo0 PM X L st : Prop :=
  ∃ mo, St m mo (set_map key X) (by_key L) st ∧ Pages mo PM ∧ others mo0 mo ∧
    (∀ n, n ∈ X → number n) ∧ (∀ p n b, (p, n, b) ∈ L → number n).

Lemma elem_by_key L p n b : (p, n, b) ∈ L → (p, key n, b) ∈ by_key L.
Proof. intros H. apply list_elem_of_fmap. by exists (p, n, b). Qed.

Lemma Pages_insert mo PM n e pg :
  Pages mo PM → number n → sle_type e = ltDIR_NODE → is_page root (sle_data e) pg →
  Pages (<[key n := e]> mo) (<[n := pg]> PM).
Proof.
  intros HP Hn Ht Hp j Hj. rewrite lookup_insert. case_decide as E.
  - subst j. exists e. by rewrite lookup_insert_eq.
  - pose proof (HP j Hj) as H. unfold shows_page in *.
    rewrite lookup_insert_ne; [done|]. intros Ek. by apply E, key_inj.
Qed.

Lemma Pages_delete mo PM n : Pages mo PM → number n → Pages (delete (key n) mo) (delete n PM).
Proof.
  intros HP Hn j Hj. rewrite lookup_delete. case_decide as E.
  - subst j. apply lookup_delete_eq.
  - pose proof (HP j Hj) as H. unfold shows_page in *.
    rewrite lookup_delete_ne; [done|]. intros Ek. by apply E, key_inj.
Qed.

Lemma others_insert mo0 mo n e : others mo0 mo → number n → others mo0 (<[key n := e]> mo).
Proof. intros Ho Hn k Hk. rewrite lookup_insert_ne by (symmetry; by apply Hk). by apply Ho. Qed.

Lemma others_delete mo0 mo n : others mo0 mo → number n → others mo0 (delete (key n) mo).
Proof. intros Ho Hn k Hk. rewrite lookup_delete_ne by (symmetry; by apply Hk). by apply Ho. Qed.

Lemma St_smaller mo X X' L L' st : St m mo X L st → X ⊆ X' → L' ⊆ L → St m mo X' L' st.
Proof.
  intros [H1 H2 H3] HX HL. split; [done|intros k q Hk; apply H2; set_solver|].
  intros p k b Hin. by apply (H3 p k b), HL.
Qed.

Section rules.
Context (mo0 : gmap Z (SLE D)).
Abbreviation DSt := (DSt mo0).

Lemma wp_peek_page PM X L n (Q : option pointer → State D → Prop) st :
  DSt PM X L st → number n →
  (PM !! n = None → ∀ st', DSt PM X L st' → Q None st') →
  (∀ p st', is_Some (PM !! n) → DSt PM X ((p, n, false) :: L) st' → Q (Some p) st') →
  wp (peek base (page sha512Half root n)) Q st.
Proof.
  intros (mo & Hst & HP & Ho & HX & HL) Hn Hnone Hsome. pose proof (HP n Hn) as Hpg.
  apply (wp_peek m base Hrep mo (set_map key X) (by_key L)); [done|by apply key_range|..].
  - intros Hl st' Hst'. apply Hnone; [|by exists mo]. destruct (PM !! n) as [pg|]; [|done].
    destruct Hpg as (e & He & Ht & _). rewrite (ApplyStateTable.lookup_typed_check _ (page sha512Half root n) _ He) in Hl.
    unfold check in Hl. cbn [page k_type] in Hl. by rewrite Ht in Hl.
  - intros p st' Hl Hst'. apply Hsome.
    + destruct (PM !! n) as [pg|]; [by eexists|]. cbn in Hpg. unfold lookup_typed in Hl. cbn [page k_key] in Hl.
      rewrite Hpg in Hl. by destruct Hl.
    + exists mo. split_and!; [done..|]. intros p' n' b [[= -> -> ->]|Hin]%elem_of_cons; [done|by eapply HL].
Qed.

Lemma wp_get_page {A} PM X L p n b pg a (f : D → result A) (Q : A → State D → Prop) st :
  DSt PM X L st → (p, n, b) ∈ L → PM !! n = Some pg → (∀ o, is_page root o pg → f o = Ok a) → Q a st →
  wp (get p f) Q st.
Proof.
  intros (mo & Hst & HP & _ & _ & HL) Hp Hn Hf HQ. pose proof (HP n (HL _ _ _ Hp)) as Hpg. rewrite Hn in Hpg.
  destruct Hpg as (e & He & _ & Hpg). eapply wp_get; [done|by apply elem_by_key|done|by apply Hf|done].
Qed.

Lemma wp_set_page PM X L p n (b : bool) pg pg' (f : D → result D) (Q : () → State D → Prop) st :
  DSt PM X L st → (p, n, b) ∈ L → PM !! n = Some pg →
  (∀ o, is_page root o pg → ∃ o', f o = Ok o' ∧ is_page root o' pg') →
  (∀ st', DSt (<[n := pg']> PM) (if b then X else {[ n ]} ∪ X) L st' → Q () st') → wp (set p f) Q st.
Proof.
  intros (mo & Hst & HP & Ho & HX & HL) Hp Hn Hf HQ. pose proof (HL _ _ _ Hp) as Hnum.
  pose proof (HP n Hnum) as Hpg. rewrite Hn in Hpg. destruct Hpg as (e & He & Ht & Hpg).
  destruct (Hf _ Hpg) as (o' & Ef & Hpg'). eapply wp_set; [done|by apply elem_by_key|done..|].
  intros st' Hst'. apply HQ. exists (<[key n := mkSLE (key n) (sle_type e) o']> mo). split_and!.
  - destruct b; [done|]. eapply St_smaller; [done| |done]. set_solver.
  - by apply Pages_insert.
  - by apply others_insert.
  - destruct b; [done|]. set_solver.
  - done.
Qed.

Lemma wp_update_page PM X L p n (b : bool) (Q : () → State D → Prop) st :
  DSt PM X L st → (p, n, b) ∈ L →
  (∀ st', DSt PM (X ∖ {[ n ]}) ((p, n, true) :: L) st' → Q () st') → wp (update p) Q st.
Proof.
  intros (mo & Hst & HP & Ho & HX & HL) Hp HQ. eapply wp_update; [done|by apply elem_by_key|].
  intros st' Hst'. apply HQ. exists mo. split_and!; [|done..|set_solver|].
  - eapply St_smaller; [done| |done]. set_solver.
  - intros p' n' b' [[= -> -> ->]|Hin]%elem_of_cons; by eapply HL.
Qed.

Lemma wp_erase_page PM X L p n (b : bool) (Q : () → State D → Prop) st :
  DSt PM X L st → (p, n, b) ∈ L →
  (∀ st', DSt (delete n PM) (X ∖ {[ n ]}) (filter (λ x, x.1.2 ≠ n) L) st' → Q () st') → wp (erase p) Q st.
Proof.
  intros (mo & Hst & HP & Ho & HX & HL) Hp HQ. pose proof (HL _ _ _ Hp) as Hnum. eapply wp_erase; [done|by apply elem_by_key|].
  intros st' Hst'. apply HQ. exists (delete (key n) mo). split_and!.
  - eapply St_smaller; [done|set_solver|]. intros x (y & -> & [Hy Hin]%list_elem_of_filter)%list_elem_of_fmap.
    apply list_elem_of_filter. destruct y as [[p' n'] b']. cbn in *. split; [|by apply elem_by_key].
    intros Ek. apply Hy. eapply key_inj; [by eapply HL|done..].
  - by apply Pages_delete.
  - by apply others_delete.
  - set_solver.
  - intros p' n' b' [_ Hin]%list_elem_of_filter. by eapply HL.
Qed.

(** Setting a field *)
Lemma wp_alter_page PM X L p n (b : bool) (g : Page → Page) (f : D → result D) (Q : () → State D → Prop) st :
  DSt PM X L st → (p, n, b) ∈ L → is_Some (PM !! n) →
  (∀ o pg, is_page root o pg → ∃ o', f o = Ok o' ∧ is_page root o' (g pg)) →
  (∀ st', DSt (alter g n PM) (if b then X else {[ n ]} ∪ X) L st' → Q () st') → wp (set p f) Q st.
Proof.
  intros Hst Hp [pg Hpg] Hf HQ. eapply wp_set_page; [done..|by intros o; apply Hf|].
  assert (<[n := g pg]> PM = alter g n PM) as ->; [|done].
  apply map_eq. intros j. rewrite lookup_insert, lookup_alter. case_decide as E; [|done]. subst. by rewrite Hpg.
Qed.

Lemma DSt_weaken PM X X' L L' st : DSt PM X L st → X ⊆ X' → (∀ n, n ∈ X' → number n) → L' ⊆ L → DSt PM X' L' st.
Proof.
  intros (mo & Hst & HP & Ho & HX & HL) HXX Hnum HLL. exists mo. split_and!; [|done..|].
  - eapply St_smaller; [done|set_solver|]. intros x (y & -> & Hin)%list_elem_of_fmap. apply list_elem_of_fmap. exists y. auto.
  - intros p n b Hin. by eapply HL, HLL.
Qed.

(** At the end of a function *)
Lemma DSt_done PM X L st : DSt PM X L st → X ⊆ ∅ → DSt PM ∅ [] st.
Proof. intros H HX. eapply DSt_weaken; [done|done|set_solver|apply list_subseteq_nil]. Qed.

(** Making a page, with its number not in use *)
Lemma wp_new_page {A} PM X L n (c : pointer → M D A) (Q : A → State D → Prop) st :
  DSt PM X L st → number n → PM !! n = None →
  (∀ p st', DSt (<[n := mkPage [] 0 0]> PM) X ((p, n, true) :: L) st' → wp (c p) Q st') →
  wp (sle ← lift (STLedgerEntry.make (page sha512Half root n));
      o ← lift (setFieldH256 (sle_data sle) sfRootIndex root);
      p ← make_shared (mkSLE (sle_key sle) (sle_type sle) o); insert p;; c p) Q st.
Proof.
  intros (mo & Hst & HP & Ho & HX & HL) Hn Hnone HQ.
  destruct (new_page root (key n) root_range) as (sle & o & Em & Hk & Ht & Eo & Hpg).
  apply wp_bind. eapply wp_lift; [exact Em|]. apply wp_bind. eapply wp_lift; [exact Eo|]. rewrite Hk, Ht.
  pose proof (HP n Hn) as Hold. rewrite Hnone in Hold.
  eapply (wp_new m); [done|by apply key_range|done|]. cbn [sle_key].
  intros p st' Hst'. apply HQ. eexists. split_and!; [exact Hst'|by apply Pages_insert|by apply others_insert|done|].
  intros p' n' b' [[= -> -> ->]|Hin]%elem_of_cons; [done|by eapply HL].
Qed.

(** ** Adding an entry *)

(** What a describer may do *)
Definition describes (f : D → result D) : Prop :=
  ∀ o pg, is_page root o pg → ∃ o', f o = Ok o' ∧ is_page root o' pg.

Lemma number_range n : number n → is_unsigned 64 n.
Proof using limit_range. unfold number, is_unsigned in *. lia. Qed.

(** Finding the last page from the root *)
Lemma wp_last PM L pr n st :
  DSt PM ∅ L st → (pr, 0, false) ∈ L → number n → is_Some (PM !! n) →
  wp (if negb (n =? 0) then sleNode ← peek base (page sha512Half root n); not_null sleNode else mret pr)
    (λ p st', ∃ L', DSt PM ∅ L' st' ∧ (p, n, false) ∈ L' ∧ (pr, 0, false) ∈ L') st.
Proof.
  intros Hst Hp Hn [pg Hpg]. destruct (n =? 0) eqn:E; cbn [negb]; zb.
  - subst n. apply wp_ret. by exists L.
  - apply wp_bind. eapply wp_peek_page; [done..|congruence|]. intros p st' _ Hst'. apply wp_ret.
    eexists. split; [exact Hst'|]. split; [left|by right].
Qed.

Abbreviation linked := (linked limit).
Abbreviation dirAdd x f := (dirAdd sha512Half base (page sha512Half root 0) x f).

(** A new directory *)
Lemma dirAdd_new x f st :
  DSt ∅ ∅ [] st → number 0 → is_uint256 x → describes f →
  wp (dirAdd x f) (λ r st', r = (tesSUCCESS, true, 0) ∧ ∃ PM, DSt PM ∅ [] st' ∧ linked PM [(0, [x])]) st.
Proof.
  intros Hst H0 Hx Hf. apply wp_bind. eapply wp_peek_page; [done..| |by intros ? ? []%lookup_empty_is_Some].
  intros _ st1 Hst1. eapply (wp_new_page _ _ _ 0); [done..|]. intros p st2 Hst2.
  apply wp_bind. eapply (wp_alter_page _ _ _ p 0 true id); [done|left|by rewrite lookup_insert_eq|done|]. intros st3 Hst3.
  apply wp_bind. eapply (wp_alter_page _ _ _ p 0 true); [done|left|by rewrite lookup_alter_eq, lookup_insert_eq| |].
  { intros o pg Hpg. apply set_indexes; [done|]. by apply Forall_singleton. }
  intros st4 Hst4. apply wp_ret. split; [done|]. eexists. split; [by eapply DSt_done|].
  rewrite !alter_insert_eq. change (linked (<[0 := mkPage [x] 0 0]> ∅) [(0, [x])]).
  split; [done|by split; [rewrite lookup_insert_eq|]|repeat constructor| |].
  - intros n Hn. rewrite lookup_insert_ne; [apply lookup_empty|]. cbn in Hn. set_solver.
  - apply Forall_singleton. split_and!; [apply H0..|cbn; unfold DIR_NODE_MAX; lia|by apply Forall_singleton].
Qed.

(** Making and filling the page after page [n] *)
Lemma wp_fill PM X L n x f (Q : TER * bool * Z → State D → Prop) st :
  DSt PM X L st → X ⊆ ∅ → number (n + 1) → is_unsigned 64 n → is_uint256 x → describes f → PM !! (n + 1) = None →
  (∀ st', DSt (<[n + 1 := mkPage [x] 0 n]> PM) ∅ [] st' → Q (tesSUCCESS, false, n + 1) st') →
  wp (sle ← lift (STLedgerEntry.make (page sha512Half root (n + 1)));
      o ← lift (setFieldH256 (sle_data sle) sfRootIndex root);
      sleNode ← make_shared (mkSLE (sle_key sle) (sle_type sle) o);
      insert sleNode;;
      (if negb (n + 1 =? 1) then set sleNode (λ o, setFieldU64 o sfIndexPrevious (u64 (n + 1 - 1))) else mret ());;
      set sleNode f;;
      set sleNode (λ o, setFieldV256 o sfIndexes [x]);;
      mret (tesSUCCESS, false, n + 1)) Q st.
Proof.
  intros Hst HX Hn Hn64 Hx Hf Hnone HQ. eapply (wp_new_page _ _ _ (n + 1)); [done..|]. intros p st1 Hst1.
  apply wp_bind. eapply (wp_mono _ (λ _, DSt (<[n + 1 := mkPage [] 0 n]> PM) X ((p, n + 1, true) :: L))).
  { destruct (n + 1 =? 1) eqn:E; cbn [negb]; zb; [assert (n = 0) as -> by lia; by apply wp_ret|].
    replace (u64 (n + 1 - 1)) with n by (rewrite wrapu_id; [lia|]; by replace (n + 1 - 1) with n by lia).
    eapply (wp_alter_page _ _ _ p (n + 1) true); [done|left|by rewrite lookup_insert_eq|by intros; apply set_prev|].
    intros st2 Hst2. by rewrite alter_insert_eq in Hst2. }
  intros _ st2 Hst2. apply wp_bind. eapply (wp_alter_page _ _ _ p (n + 1) true id); [done|left|by rewrite lookup_insert_eq|done|]. intros st3 Hst3.
  apply wp_bind. eapply (wp_alter_page _ _ _ p (n + 1) true); [done|left|by rewrite lookup_alter_eq, lookup_insert_eq| |].
  { intros o pg Hpg. apply set_indexes; [done|]. by apply Forall_singleton. }
  intros st4 Hst4. apply wp_ret, HQ. rewrite !alter_insert_eq in Hst4. by eapply DSt_done.
Qed.

(** The root of a directory knows the last page. *)
Lemma linked_root PM l n idx : linked PM (l ++ [(n, idx)]) → ∃ ir nr, PM !! 0 = Some (mkPage ir nr n).
Proof.
  intros Hl. pose proof (k_root _ _ _ Hl) as Hr. pose proof (k_seg _ _ _ Hl) as Hs. rewrite last_number_app in Hs.
  destruct (l ++ [(n, idx)]) as [|[r ir] l'] eqn:E; [by destruct l|]. cbn in Hr. subst r. destruct Hs as [Hs _]. eauto.
Qed.

(** A directory whose pages have used up their numbers *)
Lemma dirAdd_full PM l idx x f st :
  DSt PM ∅ [] st → linked PM (l ++ [(2 ^ 64 - 1, idx)]) → length idx = DIR_NODE_MAX →
  wp (dirAdd x f) (λ r st', r = (tecDIR_FULL, false, 0) ∧ DSt PM ∅ [] st') st.
Proof.
  intros Hst Hl Hfull. destruct (linked_page _ _ _ _ _ _ Hl) as (Hpg & Hn & _). destruct (linked_root _ _ _ _ Hl) as (ir & nr & Hr).
  assert (number 0) as H0 by (unfold number; lia).
  unfold Directory.dirAdd. apply wp_bind. eapply wp_peek_page; [done..|congruence|]. intros pr st1 _ Hst1.
  apply wp_bind. eapply wp_get_page; [done|left|done|by intros o Ho; apply Ho|]. cbn [prev].
  apply wp_bind. eapply wp_mono; [eapply wp_last; [done|left|done|by eexists]|].
  intros pn st2 (L & Hst2 & Hpn & Hpr). apply wp_bind. eapply wp_get_page; [done|done|exact Hpg|by intros o Ho; apply Ho|].
  cbn [indexes]. rewrite Hfull, Nat.eqb_refl. cbn [negb]. change (u64 (2 ^ 64 - 1 + 1)) with 0. cbn [Z.eqb].
  apply wp_ret. split; [done|]. by eapply DSt_done.
Qed.

(** A directory with room in its last page, and one that needs another page *)
Lemma dirAdd_last PM l n idx x f st :
  DSt PM ∅ [] st → linked PM (l ++ [(n, idx)]) → is_uint256 x → describes f →
  n < limit ∨ (length idx < DIR_NODE_MAX)%nat →
  wp (dirAdd x f) (λ r st', r = (tesSUCCESS, false, last_number 0 (add_entry (l ++ [(n, idx)]) x)) ∧
    ∃ PM', DSt PM' ∅ [] st' ∧ linked PM' (add_entry (l ++ [(n, idx)]) x)) st.
Proof.
  intros Hst Hl Hx Hf Hlim. destruct (linked_page _ _ _ _ _ _ Hl) as (Hpg & Hn & Hlen & Hu & _).
  destruct (linked_root _ _ _ _ Hl) as (ir & nr & Hr).
  assert (number 0) as H0 by (unfold number; lia). pose proof (number_range n Hn) as Hn64.
  unfold Directory.dirAdd. apply wp_bind. eapply wp_peek_page; [done..|congruence|]. intros pr st1 _ Hst1.
  apply wp_bind. eapply wp_get_page; [done|left|done|by intros o Ho; apply Ho|]. cbn [prev].
  apply wp_bind. eapply wp_mono; [eapply wp_last; [done|left|done|by eexists]|].
  intros pn st2 (L & Hst2 & Hpn & Hpr). apply wp_bind. eapply wp_get_page; [done|done|exact Hpg|by intros o Ho; apply Ho|].
  cbn [indexes]. rewrite add_entry_app. destruct (DIR_NODE_MAX =? length idx)%nat eqn:Efull; cbn [negb].
  - apply Nat.eqb_eq in Efull. assert (n < limit) as Hlt by lia. clear Hlim.
    assert (u64 (n + 1) = n + 1) as -> by (apply wrapu_id; unfold number, is_unsigned in *; lia).
    rewrite (proj2 (Z.eqb_neq (n + 1) 0)) by (unfold is_unsigned in *; lia).
    assert (is_unsigned 64 (n + 1)) as Hn1 by (apply number_range; unfold number in *; lia).
    apply wp_bind. eapply (wp_alter_page _ _ _ pn n false); [done|done|by eexists|by intros; apply set_next|].
    intros st3 Hst3. apply wp_bind. eapply wp_update_page; [done|exact Hpn|]. intros st4 Hst4.
    apply wp_bind. eapply (wp_alter_page _ _ _ pr 0 false); [done|by right|apply lookup_alter_is_Some; by eexists|by intros; apply set_prev|].
    intros st5 Hst5. apply wp_bind. eapply wp_update_page; [done|right; exact Hpr|]. intros st6 Hst6.
    eapply (wp_fill _ _ _ n x f); [done|set_solver|unfold number in *; lia|done..| |].
    { rewrite !lookup_alter_None. apply (k_dom _ _ _ Hl). intros Hin. pose proof (linked_last _ _ _ _ _ (n + 1) Hl Hin). lia. }
    intros st7 Hst7. split; [by rewrite app_assoc, last_number_app|]. eexists. split; [exact Hst7|]. by apply linked_append.
  - apply wp_bind. eapply wp_update_page; [done|exact Hpn|]. intros st3 Hst3.
    apply wp_bind. eapply (wp_alter_page _ _ _ pn n true); [done|left|by eexists|intros; apply set_indexes; [done|by apply Forall_app, conj, Forall_singleton]|].
    intros st4 Hst4. apply wp_ret. split; [by rewrite last_number_app|]. eexists. split; [eapply DSt_done; [done|set_solver]|].
    apply (linked_update limit PM l n idx (idx ++ [x]) []); [done| |by apply Forall_app, conj, Forall_singleton].
    rewrite length_app. cbn [length]. apply Nat.eqb_neq in Efull. lia.
Qed.

(** ** Deleting an entry *)

Abbreviation dirDelete_page keep n p := (dirDelete_page sha512Half base keep n root p).

Definition after_delete l (r : TER) st' : Prop := r = tesSUCCESS ∧ ∃ PM', DSt PM' ∅ [] st' ∧ linked PM' l.

Lemma after_same PM X L l st : DSt PM X L st → X ⊆ ∅ → linked PM l → after_delete l tesSUCCESS st.
Proof. intros H HX Hl. split; [done|]. exists PM. split; [by eapply DSt_done|done]. Qed.

Lemma drop_keep keep l1 n l2 :
  (l1 = [] ∨ l2 = []) → (2 ≤ length (l1 ++ l2) ∨ keep = true ∧ l1 ++ l2 ≠ [])%nat →
  drop_page keep (length l1) (l1 ++ (n, []) :: l2) = l1 ++ (n, []) :: l2.
Proof.
  intros Hor Hlen. assert (((0 <? length l1) && (length l1 <? length (l1 ++ (n, []) :: l2) - 1))%nat = false) as Ei.
  { apply andb_false_iff. rewrite length_app. cbn [length]. destruct Hor as [->| ->]; [left; done|right]. apply Nat.ltb_ge. cbn [length]. lia. }
  rewrite length_app in Hlen. unfold drop_page. destruct l1 as [|[n0 a] [|[n1 b] l1]].
  - cbn [app length] in *. destruct l2 as [|[n1 b] [|[n2 c] l2]]; cbn [length] in *; [by destruct Hlen as [?|[_ []]]; [lia|]| |done].
    destruct Hlen as [?|[-> _]]; [lia|done].
  - destruct Hor as [?| ->]; [done|]. cbn [app length] in *. destruct Hlen as [?|[-> _]]; [lia|done].
  - cbn [app] in *. destruct l1; cbn [app] in *; by rewrite ?Ei.
Qed.

(** The root has become empty. *)
Lemma drop_root keep PM L p l st :
  DSt PM ∅ L st → (p, 0, true) ∈ L → linked PM ((0, []) :: l) →
  wp (dirDelete_page keep 0 p) (after_delete (drop_page keep 0 ((0, []) :: l))) st.
Proof.
  intros Hst Hp Hl. destruct (linked_page limit PM [] 0 [] l Hl) as (Hpg & Hn & _). cbn [last_number last] in Hpg.
  apply wp_bind. eapply wp_get_page; [done..|by intros o Ho; apply Ho|]. apply wp_bind. eapply wp_get_page; [done..|by intros o Ho; apply Ho|].
  cbn [prev next Z.eqb]. destruct (last_number 0 l =? 0) eqn:E1; zb.
  { assert (l = []) as -> by by eapply linked_prev_root. apply wp_bind. eapply wp_erase_page; [done..|]. intros st1 Hst1. apply wp_ret.
    eapply after_same; [done|set_solver|]. apply linked_nil, map_eq. intros j. rewrite lookup_empty, lookup_delete. case_decide; [done|].
    apply (k_dom _ _ _ Hl). cbn. set_solver. }
  destruct keep.
  { apply wp_ret. replace (drop_page _ _ _) with ((0, []) :: l); [by eapply after_same|]. symmetry.
    apply (drop_keep true [] 0 l); [by left|]. right. split; [done|]. cbn [app]. by intros ->. }
  destruct (last_number 0 l =? first_number 0 l) eqn:E2; cbn [negb]; zb.
  2: { apply wp_ret. replace (drop_page _ _ _) with ((0, []) :: l); [by eapply after_same|]. symmetry.
    apply (drop_keep false [] 0 l); [by left|]. left. destruct l as [|[b ib] [|]]; [done|done|cbn; lia]. }
  destruct l as [|[b ib] l]; [done|]. rewrite last_number_cons in E2. cbn [first_number] in *.
  assert (l = []) as -> by by eapply linked_two. destruct (linked_page limit PM [(0, [])] b ib [] Hl) as (Hb & Hbn & _).
  apply wp_bind. eapply wp_peek_page; [done..|congruence|]. intros pl st1 _ Hst1. apply wp_bind, wp_ret. apply wp_bind.
  eapply wp_get_page; [done|left|done|by intros o Ho; apply Ho|]. cbn [indexes drop_page].
  destruct ib; [|by apply wp_ret; eapply after_same].
  apply wp_bind. eapply wp_erase_page; [done|right; exact Hp|]. intros st2 Hst2. cbn [last_number last] in E1.
  apply wp_bind. eapply (wp_erase_page _ _ _ pl b); [done|rewrite filter_cons_True by (cbn; lia); left|]. intros st3 Hst3. apply wp_ret.
  eapply after_same; [done|set_solver|]. apply linked_nil, map_eq. intros j. rewrite lookup_empty, !lookup_delete. repeat case_decide; try done.
  apply (k_dom _ _ _ Hl). cbn. set_solver.
Qed.

(** A page between others has become empty. *)
Lemma drop_inner keep PM L p l1 a ia n b ib l2 st :
  DSt PM ∅ L st → (p, n, true) ∈ L → linked PM (l1 ++ (a, ia) :: (n, []) :: (b, ib) :: l2) →
  wp (dirDelete_page keep n p) (after_delete (l1 ++ (a, ia) :: (b, ib) :: l2)) st.
Proof.
  intros Hst Hp Hl. pose proof Hl as Hl'. change ((a, ia) :: ?l) with ([(a, ia)] ++ l) in Hl'. rewrite app_assoc in Hl'.
  destruct (linked_page _ _ _ _ _ _ Hl') as (Hpg & Hn & _ & _ & Hz & _). rewrite last_number_app in Hpg.
  cbn [last_number last first_number] in Hpg. assert (n ≠ 0) as Hn0 by (intros E; apply Hz in E; by destruct l1).
  assert (b ≠ 0) as Hb0 by (intros ->; by pose proof (proj1 (linked_next _ _ _ _ _ _ Hl') eq_refl)).
  destruct (linked_page _ _ _ _ _ _ Hl) as (Ha & Han & _).
  assert (∃ pb, PM !! b = Some pb ∧ number b) as (pb & Hb & Hbn).
  { change ((n, []) :: ?l) with ([(n, [])] ++ l) in Hl'. rewrite app_assoc in Hl'.
    destruct (linked_page _ _ _ _ _ _ Hl') as (? & ? & _). eauto. }
  assert (a ≠ n ∧ b ≠ n) as [Hna Hnb].
  { pose proof (linked_NoDup _ _ _ Hl) as Hnd. rewrite fmap_app, NoDup_app, !fmap_cons, !NoDup_cons in Hnd. cbn in Hnd. set_solver. }
  apply wp_bind. eapply wp_get_page; [done..|by intros o Ho; apply Ho|]. apply wp_bind. eapply wp_get_page; [done..|by intros o Ho; apply Ho|].
  cbn [prev next]. rewrite (proj2 (Z.eqb_neq n 0)), (proj2 (Z.eqb_neq b 0)) by done. cbn [negb].
  apply wp_bind. eapply wp_peek_page; [done..|congruence|]. intros pa st1 _ Hst1.
  apply wp_bind. eapply wp_peek_page; [done..|congruence|]. intros pn st2 _ Hst2.
  apply wp_bind. eapply (wp_alter_page _ _ _ pa a false); [done|right; left|by eexists|intros; apply set_next; [done|by apply number_range]|]. intros st3 Hst3.
  apply wp_bind. eapply (wp_update_page _ _ _ pa a); [done|right; left|]. intros st4 Hst4.
  apply wp_bind. eapply (wp_alter_page _ _ _ pn b false); [done|right; left|apply lookup_alter_is_Some; by eexists|intros; apply set_prev; [done|by apply number_range]|]. intros st5 Hst5.
  apply wp_bind. eapply (wp_update_page _ _ _ pn b); [done|right; left|]. intros st6 Hst6.
  apply wp_bind. eapply (wp_erase_page _ _ _ p n); [done|do 4 right; exact Hp|]. intros st7 Hst7.
  apply wp_ret. eapply after_same; [exact Hst7|set_solver|]. by eapply linked_remove.
Qed.

(** The last page has become empty. *)
Lemma drop_last keep PM L p l a ia n st :
  DSt PM ∅ L st → (p, n, true) ∈ L → linked PM (l ++ [(a, ia); (n, [])]) →
  wp (dirDelete_page keep n p) (after_delete (drop_page keep (length l + 1) (l ++ [(a, ia); (n, [])]))) st.
Proof.
  intros Hst Hp Hl. pose proof Hl as Hl'. change [(a, ia); (n, [])] with ([(a, ia)] ++ [(n, @nil Z)]) in Hl'. rewrite app_assoc in Hl'.
  destruct (linked_page _ _ _ _ _ _ Hl') as (Hpg & Hn & _ & _ & Hz & _). rewrite last_number_app in Hpg.
  cbn [last_number last first_number] in Hpg. assert (n ≠ 0) as Hn0 by (intros E; apply Hz in E; by destruct l).
  destruct (linked_page _ _ _ _ _ _ Hl) as (Ha & Han & _ & _ & Hza & _).
  assert (l ≠ [] ∨ keep = true → drop_page keep (length l + 1) (l ++ [(a, ia); (n, [])]) = l ++ [(a, ia); (n, [])]) as Hkeep.
  { intros Hor. replace (l ++ [(a, ia); (n, [])]) with ((l ++ [(a, ia)]) ++ [(n, [])]) by by rewrite <- app_assoc.
    replace (length l + 1)%nat with (length (l ++ [(a, ia)])) by by rewrite length_app. apply drop_keep; [by right|]. rewrite app_nil_r.
    destruct Hor as [Hne| ->]; [left|right; split; [done|by destruct l]]. rewrite length_app. destruct l; [done|cbn; lia]. }
  apply wp_bind. eapply wp_get_page; [done..|by intros o Ho; apply Ho|]. apply wp_bind. eapply wp_get_page; [done..|by intros o Ho; apply Ho|].
  cbn [prev next]. rewrite (proj2 (Z.eqb_neq n 0)) by done. cbn [Z.eqb negb].
  destruct (keep || negb (a =? 0)) eqn:E.
  { apply wp_ret. rewrite Hkeep; [by eapply after_same|]. apply orb_true_iff in E as [->|E]; [by right|left]. zb. tauto. }
  apply orb_false_iff in E as [-> E]. zb. subst a. assert (l = []) as -> by tauto.
  apply wp_bind. eapply wp_peek_page; [done..|congruence|]. intros pr st1 _ Hst1. apply wp_bind, wp_ret. apply wp_bind.
  eapply wp_get_page; [done|left|done|by intros o Ho; apply Ho|]. cbn [indexes app length drop_page Nat.add].
  destruct ia; [|by apply wp_ret; eapply after_same].
  apply wp_bind. eapply (wp_erase_page _ _ _ pr 0); [done|left|]. intros st2 Hst2.
  apply wp_bind. eapply (wp_erase_page _ _ _ p n); [done|apply list_elem_of_filter; split; [done|by right]|]. intros st3 Hst3. apply wp_ret.
  eapply after_same; [done|set_solver|]. apply linked_nil, map_eq. intros j. rewrite lookup_empty, !lookup_delete. repeat case_decide; try done.
  apply (k_dom _ _ _ Hl). cbn. set_solver.
Qed.

Lemma drop_spec keep PM L p l1 n l2 st :
  DSt PM ∅ L st → (p, n, true) ∈ L → linked PM (l1 ++ (n, []) :: l2) →
  wp (dirDelete_page keep n p) (after_delete (drop_page keep (length l1) (l1 ++ (n, []) :: l2))) st.
Proof.
  intros Hst Hp Hl. destruct (decide (n = 0)) as [->|Hn].
  { assert (l1 = []) as -> by by apply (linked_page _ _ _ _ _ _ Hl). by eapply drop_root. }
  destruct (linked_split _ _ _ _ _ _ Hl Hn) as (l & a & ia & -> & Ha). rewrite length_app, <- app_assoc in *. cbn [app length] in *.
  destruct l2 as [|[b ib] l2]; [by eapply drop_last|].
  replace (drop_page _ _ _) with (l ++ (a, ia) :: (b, ib) :: l2); [by eapply drop_inner|].
  assert (delete (length l + 1)%nat (l ++ (a, ia) :: (n, []) :: (b, ib) :: l2) = l ++ (a, ia) :: (b, ib) :: l2) as E.
  { change ((a, ia) :: ?l) with ([(a, ia)] ++ l). rewrite !(app_assoc l).
    rewrite <- (delete_middle (l ++ [(a, ia)]) ((b, ib) :: l2) (n, [])). by rewrite length_app. }
  assert (((0 <? length l + 1) && (length l + 1 <? length (l ++ (a, ia) :: (n, []) :: (b, ib) :: l2) - 1))%nat = true) as Ei.
  { apply andb_true_iff. rewrite !Nat.ltb_lt, length_app. cbn [length]. lia. }
  unfold drop_page. destruct l as [|[n0 c] [|[n1 d] l]]; cbn [app] in *; rewrite Ei, E; [done..|]. by destruct l.
Qed.

Abbreviation dirDelete_from fuel keep n x stable soft := (dirDelete_from sha512Half fuel base keep n root x stable soft).

(** One page *)
Lemma delete_page keep PM L p l1 n idx l2 x it stable st :
  DSt PM ∅ L st → (p, n, false) ∈ L → linked PM (l1 ++ (n, idx) :: l2) → find x idx = Some it →
  let idx' := remove_at stable it idx in
  wp (set p (λ o, setFieldV256 o sfIndexes idx');; update p;;
      match idx' with [] => dirDelete_page keep n p | _ => mret tesSUCCESS end)
    (after_delete (match idx' with [] => drop_page keep (length l1) | _ => id end (l1 ++ (n, idx') :: l2))) st.
Proof.
  intros Hst Hp Hl Hit idx'. destruct (linked_page _ _ _ _ _ _ Hl) as (Hpg & _ & Hlen & Hu & _).
  pose proof (remove_at_perm stable it idx x (find_Some _ _ _ Hit)) as Hperm. fold idx' in Hperm.
  assert (Forall is_uint256 idx') as Hu' by (rewrite Hperm in Hu; by apply Forall_cons in Hu as [_ ?]).
  assert (length idx' ≤ DIR_NODE_MAX)%nat as Hlen' by (apply Permutation_length in Hperm; cbn in Hperm; lia).
  apply wp_bind. eapply (wp_alter_page _ _ _ p n false); [done|done|by eexists|by intros; apply set_indexes|]. intros st1 Hst1.
  apply wp_bind. eapply wp_update_page; [done|exact Hp|]. intros st2 Hst2.
  pose proof (linked_update _ _ _ _ _ idx' _ Hl Hlen' Hu') as Hl'. assert (({[ n ]} ∪ ∅) ∖ {[ n ]} = (∅ : gset Z)) as E by set_solver.
  rewrite E in Hst2. destruct idx'; [eapply drop_spec; [exact Hst2|left|done]|apply wp_ret; by eapply after_same].
Qed.

Lemma dirDelete_from_spec fuel keep PM L l n x stable soft st :
  DSt PM ∅ L st → linked PM l → number n → (soft = true → 20 ≤ limit) → (Z.to_nat (20 - n) < fuel)%nat →
  wp (dirDelete_from fuel keep n x stable soft)
    (λ r st', match delete_from fuel keep stable soft l n x with
              | Some l' => after_delete l' r st'
              | None => r = tefBAD_LEDGER ∧ DSt PM ∅ [] st'
              end) st.
Proof.
  revert L n soft st. induction fuel as [|fuel IH]; intros L n soft st Hst Hl Hn Hsoft Hfuel; [lia|].
  cbn [Directory.dirDelete_from delete_from].
  set (next := if negb soft then _ else _).
  assert (∀ L' st', DSt PM ∅ L' st' →
    wp next (λ r st', match (if soft && (n <? 20) then delete_from fuel keep stable true l (n + 1) x else None) with
      | Some l' => after_delete l' r st' | None => r = tefBAD_LEDGER ∧ DSt PM ∅ [] st' end) st') as Hnext.
  { intros L' st' Hst'. subst next. destruct soft; cbn [negb andb]; [|apply wp_ret; split; [done|by eapply DSt_done]].
    destruct (n <? 20) eqn:E; zb; [|apply wp_ret; split; [done|by eapply DSt_done]].
    eapply IH; [done..|specialize (Hsoft eq_refl); unfold number in *; lia|done|lia]. }
  unfold delete_entry in *. destruct (list_find _ l) as [[i [n' idx]]|] eqn:E.
  - apply list_find_Some in E as (Hi & E & _). cbn in E. subst n'. rewrite <- (take_drop_middle l i _ Hi) in Hl.
    pose proof (linked_page _ _ _ _ _ _ Hl) as (Hpg & _).
    apply wp_bind. eapply wp_peek_page; [done..|congruence|]. intros p st1 _ Hst1.
    apply wp_bind. eapply wp_get_page; [done|left|done|by intros o Ho; apply Ho|]. cbn [indexes].
    change (Some (i, (n, idx)) ≫= ?f) with (f (i, (n, idx))). cbv beta iota zeta.
    destruct (find x idx) as [it|] eqn:Ef; [|by eapply Hnext]. change (Some it ≫= ?f) with (f it). cbv beta iota zeta.
    pose proof (lookup_lt_Some _ _ _ Hi) as Hlt.
    pose proof (delete_page keep PM _ p _ n idx _ x it stable st1 Hst1 ltac:(left) Hl Ef) as Hd. cbv zeta in Hd.
    rewrite <- insert_take_drop in Hd by done. rewrite length_take_le in Hd by lia. by destruct (remove_at stable it idx).
  - apply list_find_None in E. apply wp_bind. eapply wp_peek_page; [done..| |].
    + intros _ st1 Hst1. by eapply Hnext.
    + intros p st1 [pg Hpg]. rewrite (k_dom _ _ _ Hl n) in Hpg; [done|]. intros (y & Hy & Hin)%list_elem_of_fmap.
      rewrite Forall_forall in E. by apply (E y).
Qed.

(** ** Iterating

    The place before entry [i] of page [n], with the entries [rest] and [c] pages to come *)

Definition place l (n i : Z) (rest : list Z) (c : nat) : Prop :=
  ∃ l1 idx l2, l = l1 ++ (n, idx) :: l2 ∧ 0 ≤ i ≤ Z.of_nat (length idx) ∧
    rest = drop (Z.to_nat i) idx ++ entries l2 ∧ c = length l2.

(** The step at a place: an entry of the page, the next page or the end *)
Lemma place_step PM l n i rest c :
  linked PM l → place l n i rest c →
  ∃ idx nx pv, PM !! n = Some (mkPage idx nx pv) ∧ number n ∧
    if i >=? Z.of_nat (length idx) then
      if nx =? 0 then rest = [] else number nx ∧ ∃ c', c = S c' ∧ place l nx 0 rest c'
    else ∃ x rest', rest = x :: rest' ∧ idx !! Z.to_nat i = Some x ∧ u32 (i + 1) = i + 1 ∧ place l n (i + 1) rest' c.
Proof.
  intros Hl (l1 & idx & l2 & -> & Hi & -> & ->). destruct (linked_page _ _ _ _ _ _ Hl) as (Hpg & Hn & Hlen & _).
  eexists _, _, _. split; [exact Hpg|]. split; [done|]. destruct (i >=? Z.of_nat (length idx)) eqn:E; zb.
  - rewrite drop_ge by lia. cbn [app]. destruct (first_number 0 l2 =? 0) eqn:E2; zb.
    + by apply (linked_next _ _ _ _ _ _ Hl) in E2 as ->.
    + destruct l2 as [|[b ib] l2]; [done|]. cbn [first_number] in *.
      change ((n, idx) :: ?l) with ([(n, idx)] ++ l) in Hl |- *. rewrite (app_assoc l1) in Hl |- *.
      destruct (linked_page _ _ _ _ _ _ Hl) as (_ & Hb & _). split; [done|]. exists (length l2). split; [done|].
      exists (l1 ++ [(n, idx)]), ib, l2. split; [done|]. split; [lia|done].
  - destruct (lookup_lt_is_Some_2 idx (Z.to_nat i)) as [x Hx]; [lia|]. exists x, (drop (S (Z.to_nat i)) idx ++ entries l2).
    rewrite (drop_S _ _ _ Hx). split; [done|]. split; [done|]. split.
    + apply wrapu_id. unfold is_unsigned, DIR_NODE_MAX in *. lia.
    + exists l1, idx, l2. split; [done|]. split; [lia|]. split; [|done]. do 2 f_equal. lia.
Qed.

Lemma place_root PM idx l : linked PM ((0, idx) :: l) → place ((0, idx) :: l) 0 0 (entries ((0, idx) :: l)) (length l).
Proof. intros _. exists [], idx, l. split; [done|]. split; [lia|done]. Qed.

(** Reading *)
Section reading.
Context (view : ReadView D) (mo : gmap Z (SLE D)) (Hview : Represents view mo).

Lemma read_page PM n pg :
  Pages mo PM → number n → PM !! n = Some pg →
  ∃ e, rv_read view (page sha512Half root n) = Some e ∧ is_page root (sle_data e) pg.
Proof.
  intros HP Hn Hpg. pose proof (HP n Hn) as H. rewrite Hpg in H. destruct H as (e & He & Ht & Hp). exists e. split; [|done].
  rewrite (rep_read _ _ Hview); [|by apply key_range]. rewrite (ApplyStateTable.lookup_typed_check _ (page sha512Half root n) _ He).
  unfold check. cbn [page k_type]. by rewrite Ht.
Qed.

Lemma cdirNext_spec fuel PM l n i rest c e pg x0 :
  Pages mo PM → linked PM l → place l n i rest c → (c < fuel)%nat → PM !! n = Some pg → is_page root (sle_data e) pg →
  match rest with
  | [] => ∃ e' i', cdirNext sha512Half fuel view root e i x0 = Ok (false, e', i', 0)
  | x :: rest => ∃ e' n' i' c' pg', cdirNext sha512Half fuel view root e i x0 = Ok (true, e', i', x) ∧
      place l n' i' rest c' ∧ (c' ≤ c)%nat ∧ PM !! n' = Some pg' ∧ is_page root (sle_data e') pg'
  end.
Proof.
  intros HP Hl. revert n i c e pg. induction fuel as [|fuel IH]; intros n i c e pg Hp Hc Hpg He; [lia|]. cbn [cdirNext].
  destruct (place_step _ _ _ _ _ _ Hl Hp) as (idx & nx & pv & Hpg' & Hn & Hstep).
  rewrite Hpg in Hpg'. injection Hpg' as ->. rewrite (p_indexes _ _ _ He), ok_bind. cbn [indexes].
  destruct (i >=? Z.of_nat (length idx)).
  - rewrite (p_next _ _ _ He), ok_bind. cbn [next]. destruct (nx =? 0); [subst rest; by eexists _, _|].
    destruct Hstep as (Hnx & c' & -> & Hp'). destruct (place_step _ _ _ _ _ _ Hl Hp') as (idx' & nx' & pv' & Hpg' & _).
    destruct (read_page PM nx _ HP Hnx Hpg') as (e' & -> & He'). pose proof (IH _ _ _ e' _ Hp' ltac:(lia) Hpg' He') as H.
    destruct rest; [done|]. destruct H as (e2 & n2 & i2 & c2 & pg2 & E & Hp2 & Hc2 & H2). exists e2, n2, i2, c2, pg2. split_and!; [done..|lia|apply H2|apply H2].
  - destruct Hstep as (x & rest' & -> & Hx & -> & Hp'). rewrite Hx. exists e, n, (i + 1), c. eexists. split_and!; [done..| |done]. done.
Qed.

Lemma cdir_loop_spec fuel k PM l n i rest c e pg x :
  Pages mo PM → linked PM l → place l n i rest c → (c < fuel)%nat → PM !! n = Some pg → is_page root (sle_data e) pg →
  (length rest + 1 < k)%nat → cdir_loop sha512Half fuel k view root (true, e, i, x) = Ok (x :: rest).
Proof.
  intros HP Hl. revert n i c e pg k x. induction rest as [|y rest IH]; intros n i c e pg k x Hp Hc Hpg He Hk;
    pose proof (cdirNext_spec fuel PM l n i _ c e pg x HP Hl Hp Hc Hpg He) as Hnext; (destruct k as [|k]; [lia|]); cbn [cdir_loop].
  - destruct Hnext as (e' & i' & ->). rewrite ok_bind. cbn [length] in Hk. destruct k as [|k]; [lia|done].
  - destruct Hnext as (e' & n' & i' & c' & pg' & -> & Hp' & Hc' & Hpg' & He'). rewrite ok_bind.
    rewrite (IH n' i' c' e' pg' k y); [done|done|lia|done..|cbn [length] in Hk; lia].
Qed.

Lemma cdir_list_spec fuel k PM l :
  Pages mo PM → linked PM l → l ≠ [] → (length l ≤ fuel)%nat → (length (entries l) < k)%nat →
  cdir_list sha512Half fuel k view root = Ok (entries l).
Proof.
  intros HP Hl Hne Hfuel Hk. destruct l as [|[r idx] l]; [done|]. pose proof (k_root _ _ _ Hl) as Hr. cbn in Hr. subst r.
  pose proof (place_root _ _ _ Hl) as Hp. destruct (linked_page limit PM [] 0 idx l Hl) as (Hpg & Hn & _).
  destruct (read_page PM 0 _ HP Hn Hpg) as (e & Ee & He). unfold cdir_list, cdirFirst. rewrite Ee.
  pose proof (cdirNext_spec fuel PM _ 0 0 _ _ e _ 0 HP Hl Hp Hfuel Hpg He) as Hnext.
  destruct (entries ((0, idx) :: l)) as [|x rest].
  - destruct Hnext as (e' & i' & ->). rewrite ok_bind. destruct k; [lia|done].
  - destruct Hnext as (e' & n' & i' & c' & pg' & -> & Hp' & Hc' & Hpg' & He'). rewrite ok_bind.
    eapply (cdir_loop_spec fuel k PM _ n' i' rest c' e' pg' x); [done|done|done|cbn [length] in Hfuel; lia|done|done|cbn [length] in Hk; lia].
Qed.

Lemma dirIsEmpty_spec PM l :
  Pages mo PM → linked PM l → number 0 →
  dirIsEmpty view (page sha512Half root 0) = Ok (match l with [] | [(_, [])] => true | _ => false end).
Proof.
  intros HP Hl H0. unfold dirIsEmpty. destruct l as [|[r idx] l].
  - apply linked_nil in Hl as ->. pose proof (HP 0 H0) as H. rewrite lookup_empty in H. cbn in H.
    rewrite (rep_read _ _ Hview); [|by apply key_range]. unfold lookup_typed. cbn [page k_key]. change (getDirNodeIndex sha512Half root 0) with root in *. by rewrite H.
  - pose proof (k_root _ _ _ Hl) as Hr. cbn in Hr. subst r. destruct (linked_page limit PM [] 0 idx l Hl) as (Hpg & _).
    destruct (read_page PM 0 _ HP H0 Hpg) as (e & -> & He). rewrite (p_indexes _ _ _ He), ok_bind. cbn [indexes].
    destruct idx; [|by destruct l]. rewrite (p_next _ _ _ He), ok_bind. cbn [next]. f_equal.
    pose proof (linked_next limit PM [] 0 [] l Hl) as Hn. destruct l as [|[b ib] l]; [done|]. apply Z.eqb_neq. intros E. by apply Hn in E.
Qed.

End reading.

(** Reading with [peek] *)

Definition found_next l rest c PM (r : bool * pointer * Z * Z) st : Prop :=
  let '(found, p, i, x) := r in
  ∃ L, DSt PM ∅ L st ∧
    match rest with
    | [] => found = false
    | y :: rest => found = true ∧ x = y ∧ ∃ n c' b, (p, n, b) ∈ L ∧ place l n i rest c' ∧ (c' ≤ c)%nat
    end.

Lemma dirNext_spec fuel PM L l n i rest c p b x0 st :
  DSt PM ∅ L st → linked PM l → place l n i rest c → (c < fuel)%nat → (p, n, b) ∈ L →
  wp (dirNext sha512Half fuel base root p i x0) (found_next l rest c PM) st.
Proof.
  intros Hst Hl. revert L n i c p b st Hst. induction fuel as [|fuel IH]; intros L n i c p b st Hst Hp Hc Hin; [lia|]. cbn [dirNext].
  destruct (place_step _ _ _ _ _ _ Hl Hp) as (idx & nx & pv & Hpg & Hn & Hstep).
  apply wp_bind. eapply wp_get_page; [done..|by intros o Ho; apply Ho|]. cbn [indexes]. destruct (i >=? Z.of_nat (length idx)).
  - apply wp_bind. eapply wp_get_page; [done..|by intros o Ho; apply Ho|]. cbn [next]. destruct (nx =? 0).
    { apply wp_ret. exists L. by subst rest. }
    destruct Hstep as (Hnx & c' & -> & Hp'). destruct (place_step _ _ _ _ _ _ Hl Hp') as (idx' & nx' & pv' & Hpg' & _).
    apply wp_bind. eapply wp_peek_page; [done..|congruence|]. intros p' st' _ Hst'.
    eapply wp_mono; [eapply (IH _ nx 0 c'); [done|done|lia|left]|]. intros [[[f q] j] y] st'' (L' & HL' & H). exists L'. split; [done|].
    destruct rest; [done|]. destruct H as (-> & -> & n2 & c2 & b2 & ? & ? & ?). split; [done|]. split; [done|]. exists n2, c2, b2. split_and!; [done..|lia].
  - destruct Hstep as (x & rest' & -> & Hx & -> & Hp'). rewrite Hx. apply wp_ret. exists L. split; [done|]. split; [done|]. split; [done|].
    by exists n, c, b.
Qed.

Lemma dir_loop_spec fuel k PM L l n i rest c p b x st :
  DSt PM ∅ L st → linked PM l → place l n i rest c → (c < fuel)%nat → (p, n, b) ∈ L → (length rest + 1 < k)%nat →
  wp (dir_loop sha512Half fuel k base root (true, p, i, x)) (λ r st', r = x :: rest ∧ DSt PM ∅ [] st') st.
Proof.
  intros Hst Hl. revert L n i c p b k x st Hst. induction rest as [|y rest IH]; intros L n i c p b k x st Hst Hp Hc Hin Hk;
    (destruct k as [|k]; [lia|]); cbn [dir_loop]; apply wp_bind; (eapply wp_mono; [by eapply dirNext_spec|]);
    intros [[[f q] j] z] st' (L' & Hst' & H); apply wp_bind.
  - subst f. cbn [length] in Hk. destruct k as [|k]; [lia|]. apply wp_ret, wp_ret. split; [done|by eapply DSt_done].
  - destruct H as (-> & -> & n' & c' & b' & Hin' & Hp' & Hc'). cbn [length] in Hk.
    eapply wp_mono; [eapply (IH _ n' j c'); [done|done|lia|done|lia]|]. intros r st'' [-> Hst'']. by apply wp_ret.
Qed.

Lemma dir_list_spec fuel k PM L l st :
  DSt PM ∅ L st → linked PM l → l ≠ [] → (length l ≤ fuel)%nat → (length (entries l) < k)%nat →
  wp (dir_list sha512Half fuel k base root) (λ r st', r = entries l ∧ DSt PM ∅ [] st') st.
Proof.
  intros Hst Hl Hne Hfuel Hk. destruct l as [|[r idx] l]; [done|]. pose proof (k_root _ _ _ Hl) as Hr. cbn in Hr. subst r.
  pose proof (place_root _ _ _ Hl) as Hp. destruct (linked_page limit PM [] 0 idx l Hl) as (Hpg & Hn & _).
  apply wp_bind, wp_bind. eapply wp_peek_page; [done..|congruence|]. intros p st1 _ Hst1. apply wp_bind, wp_ret.
  eapply wp_mono; [eapply dirNext_spec; [done|done|exact Hp|exact Hfuel|left]|]. intros [[[f q] j] z] st2 (L' & Hst2 & H).
  destruct (entries ((0, idx) :: l)) as [|x rest].
  - subst f. destruct k; [lia|]. apply wp_ret. split; [done|by eapply DSt_done].
  - destruct H as (-> & -> & n & c & b & Hin & Hp' & Hc).
    eapply (dir_loop_spec fuel k PM L' _ n j rest c); [done..|cbn [length] in Hfuel; lia|done|cbn [length] in Hk; lia].
Qed.

End rules.

(** ** Directories in views *)

Definition is_directory mo l : Prop := ∃ PM, Pages mo PM ∧ linked limit PM l.

(** A state of the view that shows [mo], with nothing left to update *)
Definition shows_all mo st : Prop := St m mo ∅ [] st.

Lemma shows_DSt mo PM st : shows_all mo st → Pages mo PM → DSt mo PM ∅ [] st.
Proof.
  intros Hst HP. exists mo. split_and!; [|done|by intros k _|set_solver|by intros p n b []%not_elem_of_nil].
  by rewrite set_map_empty.
Qed.

Lemma DSt_shows mo PM st : DSt mo PM ∅ [] st → ∃ mo', shows_all mo' st ∧ Pages mo' PM ∧ others mo mo'.
Proof. intros (mo' & Hst & HP & Ho & _). exists mo'. rewrite set_map_empty in Hst. done. Qed.

(** A run of a program: its result, the map shown then, and that other entries are as before *)
Definition runs {A} (c : M D A) mo st (Q : A → gmap Z (SLE D) → Prop) : Prop :=
  ∃ a st' mo', c st = Ok (a, st') ∧ shows_all mo' st' ∧ others mo mo' ∧ Q a mo'.

Lemma wp_runs {A} (c : M D A) mo st (P : A → gmap Z Page → Prop) (Q : A → gmap Z (SLE D) → Prop) :
  wp c (λ a st', ∃ PM, DSt mo PM ∅ [] st' ∧ P a PM) st →
  (∀ a mo' PM, Pages mo' PM → P a PM → Q a mo') → runs c mo st Q.
Proof.
  intros (a & st' & E & PM & Hst & HP) HQ. destruct (DSt_shows _ _ _ Hst) as (mo' & H1 & H2 & H3).
  exists a, st', mo'. split_and!; [done..|]. by eapply HQ.
Qed.

Lemma add_runs mo l x f st :
  shows_all mo st → is_directory mo l → number 0 → is_uint256 x → describes f →
  (∀ n idx, last l = Some (n, idx) → n < limit ∨ (length idx < DIR_NODE_MAX)%nat) →
  runs (dirAdd sha512Half base (page sha512Half root 0) x f) mo st (λ r mo',
    r = (tesSUCCESS, bool_decide (l = []), last_number 0 (add_entry l x)) ∧ is_directory mo' (add_entry l x)).
Proof.
  intros Hst (PM & HP & Hl) H0 Hx Hf Hlast. pose proof (shows_DSt _ _ _ Hst HP) as HD.
  eapply (wp_runs _ _ _ (λ r PM, r = (tesSUCCESS, bool_decide (l = []), last_number 0 (add_entry l x)) ∧ linked limit PM (add_entry l x))).
  - destruct l as [|[n idx] l _] using rev_ind.
    + apply linked_nil in Hl as ->. eapply wp_mono; [by apply dirAdd_new|]. intros r st' (-> & PM' & H1 & H2). by exists PM'.
    + eapply wp_mono; [eapply dirAdd_last; [done..|apply Hlast; by rewrite last_snoc]|]. intros r st' (-> & PM' & H1 & H2).
      exists PM'. split; [done|]. split; [|done]. by rewrite bool_decide_eq_false_2 by by destruct l.
  - intros r mo' PM' HP' [-> Hl']. split; [done|]. by exists PM'.
Qed.

Lemma full_runs mo l idx x f st :
  shows_all mo st → is_directory mo (l ++ [(2 ^ 64 - 1, idx)]) → length idx = DIR_NODE_MAX →
  runs (dirAdd sha512Half base (page sha512Half root 0) x f) mo st (λ r mo',
    r = (tecDIR_FULL, false, 0) ∧ is_directory mo' (l ++ [(2 ^ 64 - 1, idx)])).
Proof.
  intros Hst (PM & HP & Hl) Hfull. pose proof (shows_DSt _ _ _ Hst HP) as HD.
  eapply (wp_runs _ _ _ (λ r PM', r = (tecDIR_FULL, false, 0) ∧ PM' = PM)).
  - eapply wp_mono; [by eapply dirAdd_full|]. intros r st' (-> & H). by exists PM.
  - intros r mo' PM' HP' [-> ->]. split; [done|]. by exists PM.
Qed.

Lemma delete_runs keep stable soft mo l n x st :
  shows_all mo st → is_directory mo l → number n → (soft = true → 20 ≤ limit) →
  runs (dirDelete sha512Half base keep n root x stable soft) mo st (λ r mo',
    match delete_search keep stable soft l n x with
    | Some l' => r = tesSUCCESS ∧ is_directory mo' l'
    | None => r = tefBAD_LEDGER ∧ is_directory mo' l
    end).
Proof.
  intros Hst (PM & HP & Hl) Hn Hsoft. pose proof (shows_DSt _ _ _ Hst HP) as HD.
  eapply (wp_runs _ _ _ (λ r PM', match delete_search keep stable soft l n x with
    | Some l' => r = tesSUCCESS ∧ linked limit PM' l' | None => r = tefBAD_LEDGER ∧ PM' = PM end)).
  - eapply wp_mono; [eapply dirDelete_from_spec; [done..|lia]|]. intros r st'. unfold delete_search.
    destruct (delete_from _ _ _ _ _ _ _) as [l'|]; [intros (-> & PM' & H1 & H2); by exists PM'|]. intros [-> H]. by exists PM.
  - intros r mo' PM' HP'. destruct (delete_search _ _ _ _ _ _) as [l'|]; intros [-> H]; (split; [done|]); [by exists PM'|]. subst. by exists PM.
Qed.

Lemma list_runs fuel k mo l st :
  shows_all mo st → is_directory mo l → l ≠ [] → (length l ≤ fuel)%nat → (length (entries l) < k)%nat →
  runs (dir_list sha512Half fuel k base root) mo st (λ r mo', r = entries l ∧ is_directory mo' l).
Proof.
  intros Hst (PM & HP & Hl) Hne Hfuel Hk. pose proof (shows_DSt _ _ _ Hst HP) as HD.
  eapply (wp_runs _ _ _ (λ r PM', r = entries l ∧ PM' = PM)).
  - eapply wp_mono; [by eapply dir_list_spec|]. intros r st' [-> H]. by exists PM.
  - intros r mo' PM' HP' [-> ->]. split; [done|]. by exists PM.
Qed.

Lemma describe_owner account : is_unsigned 160 account → describes (describeOwnerDir account).
Proof. intros Ha o pg Hpg. by apply describeOwnerDir_page. Qed.

(** C8: Directories.  Let a transaction's view show the directory with the pages [l]. Adding
    an entry puts it after the others, on the last page or on a new one, returns its page,
    and says whether the directory is new; when the last of the 2^64 pages is full it
    returns [tecDIR_FULL].  Deleting an entry returns [tesSUCCESS] exactly if the entry is on
    the page asked for or, if the page is not certain, on one after it up to page 20, and
    takes out that entry and no other, in the same order if asked to; the pages stay
    linked; otherwise it returns [tefBAD_LEDGER] and the directory is as it was.  In each
    case the other entries of the view are as before.  The iterators of views that are
    read and of views that are changed give the entries in order. *)
Theorem directory_correct mo l st x :
  shows_all mo st → is_directory mo l → is_uint256 x → number 0 →
  let add f := dirAdd sha512Half base (page sha512Half root 0) x f in
  (∀ f, describes f → (∀ n idx, last l = Some (n, idx) → n < limit ∨ (length idx < DIR_NODE_MAX)%nat) →
    runs (add f) mo st (λ r mo',
      r = (tesSUCCESS, bool_decide (l = []), last_number 0 (add_entry l x)) ∧ is_directory mo' (add_entry l x))) ∧
  (∀ account, is_unsigned 160 account → describes (describeOwnerDir account)) ∧
  entries (add_entry l x) = entries l ++ [x] ∧
  (∀ f idx, last l = Some (2 ^ 64 - 1, idx) → length idx = DIR_NODE_MAX →
    runs (add f) mo st (λ r mo', r = (tecDIR_FULL, false, 0) ∧ is_directory mo' l)) ∧
  (∀ keep stable soft n, number n → (soft = true → 20 ≤ limit) →
    runs (dirDelete sha512Half base keep n root x stable soft) mo st (λ r mo',
      match delete_search keep stable soft l n x with
      | Some l' => r = tesSUCCESS ∧ is_directory mo' l' ∧ entries l ≡ₚ x :: entries l' ∧
          (stable = true → ∃ a b, entries l = a ++ x :: b ∧ entries l' = a ++ b)
      | None => r = tefBAD_LEDGER ∧ is_directory mo' l
      end)) ∧
  (∀ keep stable soft n, is_Some (delete_search keep stable soft l n x) ↔
    ∃ n' idx, (n', idx) ∈ l ∧ x ∈ idx ∧ (n' = n ∨ soft = true ∧ n < n' ≤ 20)) ∧
  (∀ fuel k, l ≠ [] → (length l ≤ fuel)%nat → (length (entries l) < k)%nat →
    runs (dir_list sha512Half fuel k base root) mo st (λ r mo', r = entries l ∧ is_directory mo' l) ∧
    ∀ view, Represents view mo → cdir_list sha512Half fuel k view root = Ok (entries l)) ∧
  (∀ view, Represents view mo →
    dirIsEmpty view (page sha512Half root 0) = Ok (match l with [] | [(_, [])] => true | _ => false end)).
Proof.
  intros Hst Hd Hx H0 add. split_and!.
  - intros f Hf Hroom. by apply add_runs.
  - apply describe_owner.
  - apply entries_add.
  - intros f idx Hlast Hlen. apply last_Some in Hlast as [l0 ->]. by apply full_runs.
  - intros keep stable soft n Hn Hsoft. destruct (delete_runs keep stable soft mo l n x st Hst Hd Hn Hsoft) as (r & st' & mo' & E & H1 & H2 & H3).
    exists r, st', mo'. split_and!; [done..|]. destruct (delete_search keep stable soft l n x) as [l'|] eqn:Es; [|done].
    destruct H3 as [-> Hd']. apply delete_from_entry in Es as (n' & _ & Es). split_and!; [done..|by eapply entries_delete|].
    intros ->. by eapply entries_delete_stable.
  - intros keep stable soft n. destruct Hd as (PM & _ & Hl). apply delete_search_found. by eapply linked_NoDup.
  - intros fuel k Hne Hf Hk. split; [by apply list_runs|]. intros view Hv. destruct Hd as (PM & HP & Hl). by eapply cdir_list_spec.
  - intros view Hv. destruct Hd as (PM & HP & Hl). by eapply dirIsEmpty_spec.
Qed.

End pages.
End DirectorySpec.
