(* ===== verification/SHAMap.v ===== *)
(** * SHAMap: the hash tree that holds ledger state and transaction sets

    Models version 1 of the tree of [shamap/impl/SHAMap.cpp], with the inner nodes and
    leaves of [shamap/SHAMapTreeNode.h] and the node identifiers of
    [shamap/impl/SHAMapNodeID.cpp].  Copy-on-write makes a node a value: a
    modification rebuilds the path to the root ([dirtyUp]).  All nodes are in memory;
    fetching a missing node from the node store, and version 2 of the inner nodes,
    are left out.  A stack is a list with its top first.

    A key has 64 nibbles, so that a path has at most 64 inner nodes: that is the fuel of
    the loops, and running out of it is [None]. *)

From S2P Require Import Prelude.

(** ** Node identifiers *)

Module SHAMapNodeID.
Record t := mk { mNodeID : Z; mDepth : Z }.

Definition root : t := mk 0 0.
Definition isRoot (n : t) : bool := mDepth n =? 0.

(** Byte [i] of a [uint256], the most significant first *)
Definition byte (hash i : Z) : Z := Z.land (Z.shiftr hash (8 * (31 - i))) 255.

Definition getChildNodeID (n : t) (m : Z) : t :=
  let i := mDepth n / 2 in
  let x := if Z.testbit (mDepth n) 0 then m else Z.shiftl m 4 in
  mk (Z.lor (mNodeID n) (Z.shiftl x (8 * (31 - i)))) (mDepth n + 1).

Definition selectBranch (n : t) (hash : Z) : Z :=
  let branch := byte hash (mDepth n / 2) in
  if Z.testbit (mDepth n) 0 then Z.land branch 15 else Z.shiftr branch 4.
End SHAMapNodeID.

Inductive TNType := tnTRANSACTION_NM | tnTRANSACTION_MD | tnACCOUNT_STATE.
#[global] Instance TNType_eq_dec : EqDecision TNType.
Proof. solve_decision. Defined.

Record SHAMapItem (D : Type) := mkItem { tag_ : Z; data_ : D }.
Arguments mkItem {D}.
Arguments tag_ {D}.
Arguments data_ {D}.

Module SHAMap.
Import SHAMapNodeID.

Section tree.
Context {D : Type}.

(** [SHAMapTreeNode] and [SHAMapInnerNode]; a branch is empty when it has no child *)
Inductive node :=
  | Leaf (mItem : SHAMapItem D) (mType : TNType)
  | Inner (mChildren : list (option node)).

Definition stack := list (node * SHAMapNodeID.t).

Definition getChild (cs : list (option node)) (b : Z) : option node :=
  match cs !! Z.to_nat b with Some c => c | None => None end.

Definition setChild (cs : list (option node)) (b : Z) (c : option node) : list (option node) :=
  <[Z.to_nat b := c]> cs.

Definition no_children : list (option node) := replicate 16 None.

Definition getBranchCount (cs : list (option node)) : Z :=
  Z.of_nat (length (filter (λ c, is_Some c) cs)).

(** The root of a new map *)
Definition empty_root : node := Inner no_children.

(** ** Searching *)

Fixpoint walk (fuel : nat) (id : Z) (inNode : node) (nodeID : SHAMapNodeID.t) (st : stack)
    : option (option (SHAMapItem D * TNType) * stack) :=
  match inNode with
  | Leaf it ty => Some (Some (it, ty), (inNode, nodeID) :: st)
  | Inner cs =>
      match fuel with
      | O => None
      | S fuel =>
          let st := (inNode, nodeID) :: st in
          let branch := selectBranch nodeID id in
          match getChild cs branch with
          | None => Some (None, st)
          | Some c => walk fuel id c (getChildNodeID nodeID branch) st
          end
      end
  end.

Definition walkTowardsKey (root : node) (id : Z) : option (option (SHAMapItem D * TNType) * stack) :=
  walk 64 id root SHAMapNodeID.root [].

Definition findKey (root : node) (id : Z) : option (SHAMapItem D * TNType) :=
  match walkTowardsKey root id with
  | Some (Some (it, ty), _) => if tag_ it =? id then Some (it, ty) else None
  | _ => None
  end.

Definition peekItem (root : node) (id : Z) : option (SHAMapItem D) := fst <$> findKey root id.
Definition hasItem (root : node) (id : Z) : bool := bool_decide (is_Some (findKey root id)).

(** ** Modifying *)

(** The new root, when the path of inner nodes [st] gets the child [child] *)
Fixpoint dirtyUp (st : stack) (target : Z) (child : node) : node :=
  match st with
  | [] => child
  | (Inner cs, nodeID) :: st =>
      dirtyUp st target (Inner (setChild cs (selectBranch nodeID target) (Some child)))
  | (Leaf _ _, _) :: st => child (* not an inner node: excluded *)
  end.

(** The loop of [addGiveItem] that adds inner nodes until two keys part *)
Fixpoint split (fuel : nat) (tag other : Z) (nodeID : SHAMapNodeID.t) (st : stack)
    : option (Z * Z * stack) :=
  let b1 := selectBranch nodeID tag in
  let b2 := selectBranch nodeID other in
  if b1 =? b2 then
    match fuel with
    | O => None
    | S fuel => split fuel tag other (getChildNodeID nodeID b1) ((Inner no_children, nodeID) :: st)
    end
  else Some (b1, b2, st).

Definition addGiveItem (root : node) (item : SHAMapItem D) (type : TNType) : option (bool * node) :=
  let tag := tag_ item in
  match walkTowardsKey root tag with
  | Some (_, (Leaf other _, nodeID) :: st) =>
      if tag_ other =? tag then Some (false, root)
      else
        match split 64 tag (tag_ other) nodeID st with
        | Some (b1, b2, st) =>
            let inner := Inner (setChild (setChild no_children b1 (Some (Leaf item type)))
                                  b2 (Some (Leaf other type))) in
            Some (true, dirtyUp st tag inner)
        | None => None
        end
  | Some (_, (Inner cs, nodeID) :: st) =>
      Some (true, dirtyUp st tag
        (Inner (setChild cs (selectBranch nodeID tag) (Some (Leaf item type)))))
  | _ => None
  end.

(** The only item below a node, if there is just one *)
Fixpoint onlyBelow (fuel : nat) (n : node) : option (SHAMapItem D) :=
  match n with
  | Leaf it _ => Some it
  | Inner cs =>
      match fuel, omap id cs with
      | S fuel, [c] => onlyBelow fuel c
      | _, _ => None
      end
  end.

(** What becomes of an inner node that is not the root and lost a child *)
Definition pullUp (cs : list (option node)) (type : TNType) : option node :=
  let bc := getBranchCount cs in
  if bc =? 0 then None
  else if bc =? 1 then
    match onlyBelow 64 (Inner cs) with
    | Some item => Some (Leaf item type)
    | None => Some (Inner cs)
    end
  else Some (Inner cs).

(** The loop of [delItem]: the new root *)
Fixpoint delUp (st : stack) (id : Z) (type : TNType) (prevNode : option node) : option node :=
  match st with
  | [] => prevNode
  | (Inner cs, nodeID) :: st =>
      let cs := setChild cs (selectBranch nodeID id) prevNode in
      delUp st id type (if negb (isRoot nodeID) then pullUp cs type else Some (Inner cs))
  | (Leaf _ _, _) :: _ => prevNode (* not an inner node: excluded *)
  end.

Definition delItem (root : node) (id : Z) : option (bool * node) :=
  match walkTowardsKey root id with
  | Some (Some (it, ty), _ :: st) =>
      if tag_ it =? id then
        match delUp st id ty None with
        | Some root => Some (true, root)
        | None => None
        end
      else Some (false, root)
  | Some (None, _) => Some (false, root)
  | _ => None
  end.

(** The hash of a leaf is a parameter. *)
Definition updateGiveItem (leaf_hash : SHAMapItem D → TNType → Z) (root : node)
    (item : SHAMapItem D) (type : TNType) : option (bool * node) :=
  match walkTowardsKey root (tag_ item) with
  | Some (Some (it, ty), (_, nodeID) :: st) =>
      if negb (tag_ it =? tag_ item) then Some (false, root)
      else if leaf_hash item type =? leaf_hash it ty then Some (true, root)
      else Some (true, dirtyUp st (tag_ item) (Leaf item type))
  | Some (None, _) => Some (false, root)
  | _ => None
  end.

(** ** Iterating *)

(** The first branch from [b] on that is not empty *)
Fixpoint first_branch (n : nat) (cs : list (option node)) (b : Z) : option (Z * node) :=
  match n with
  | O => None
  | S n =>
      match getChild cs b with
      | Some c => Some (b, c)
      | None => first_branch n cs (b + 1)
      end
  end.

Definition scan (cs : list (option node)) (b : Z) : option (Z * node) :=
  first_branch (16 - Z.to_nat b) cs b.

(** The loop of [firstBelow] below an inner node; the node identifiers pushed are
    those of the source, which uses [branch] at every level *)
Fixpoint firstInner (fuel : nat) (cs : list (option node)) (nodeID : SHAMapNodeID.t)
    (branch : Z) (st : stack) : option (SHAMapItem D * stack) :=
  match fuel with
  | O => None
  | S fuel =>
      match scan cs 0 with
      | None => None
      | Some (_, Leaf it ty) => Some (it, (Leaf it ty, mk (tag_ it) 64) :: st)
      | Some (_, Inner cs') =>
          let id := getChildNodeID nodeID branch in
          firstInner fuel cs' id branch ((Inner cs', id) :: st)
      end
  end.

Definition firstBelow (n : node) (st : stack) (branch : Z) : option (SHAMapItem D * stack) :=
  match n with
  | Leaf it ty => Some (it, (n, mk (tag_ it) 64) :: st)
  | Inner cs =>
      let id := match st with [] => SHAMapNodeID.root | (_, top) :: _ => getChildNodeID top branch end in
      firstInner 64 cs id branch ((n, id) :: st)
  end.

Definition peekFirstItem (root : node) : option (SHAMapItem D * stack) := firstBelow root [] 0.

Fixpoint peekNext (st : stack) (id : Z) : option (SHAMapItem D * stack) :=
  match st with
  | [] => None
  | (Inner cs, nodeID) :: st' =>
      match scan cs (selectBranch nodeID id + 1) with
      | Some (i, c) => firstBelow c st i
      | None => peekNext st' id
      end
  | (Leaf _ _, _) :: st' => peekNext st' id (* excluded *)
  end.

(** The leaf on top of the stack is popped first. *)
Definition peekNextItem (st : stack) (id : Z) : option (SHAMapItem D * stack) :=
  peekNext (tail st) id.

(** The loop of [upper_bound] over the stack *)
Fixpoint upper (st : stack) (id : Z) : option (SHAMapItem D * stack) :=
  match st with
  | [] => None
  | (Leaf it ty, _) :: st' => if tag_ it >? id then Some (it, st) else upper st' id
  | (Inner cs, nodeID) :: st' =>
      match scan cs (selectBranch nodeID id + 1) with
      | Some (b, c) => firstBelow c st b
      | None => upper st' id
      end
  end.

(** [upper_bound]; the end iterator is [None] *)
Definition upper_bound (root : node) (id : Z) : option (SHAMapItem D * stack) :=
  match walkTowardsKey root id with
  | Some (_, st) => upper st id
  | None => None
  end.

(** A loop from [it] to the end *)
Fixpoint iterate (fuel : nat) (it : option (SHAMapItem D * stack)) : list (SHAMapItem D) :=
  match it, fuel with
  | Some (x, st), S fuel => x :: iterate fuel (peekNextItem st (tag_ x))
  | _, _ => []
  end.

End tree.
Arguments node : clear implicits.
End SHAMap.
