(* ===== verification/SHAMapInv.v ===== *)
(** * SHAMapInv: the shape of the hash tree

    The invariant of the trees of [shamap/impl/SHAMap.cpp] and what the operations do
    to the contents.  [get] is the item under a key, [wf] the shape of a node that is
    not the root: a leaf, or an inner node with at least two items below.  The
    operations of the source work on a stack of nodes; they are related here to the
    recursive functions [ins], [del] and [upd]. *)

From S2P Require Import Prelude SHAMap.

Module SHAMapInv.
Import SHAMapNodeID SHAMap.

(** ** Nibbles of keys *)

(** A node with [n] levels below it has depth [64 - n]; [nib n k] is the branch of [k]
    there, and [pre n k] what the keys of its subtree have in common. *)
Definition nib (n : nat) (k : Z) : Z := (k / 16 ^ (Z.of_nat n - 1)) mod 16.
Definition pre (n : nat) (k : Z) : Z := k / 16 ^ Z.of_nat n.
Definition is_key (k : Z) : Prop := 0 ≤ k < 16 ^ 64.

Lemma nib_range n k : 0 ≤ nib n k < 16.
Proof. by apply Z.mod_pos_bound. Qed.

Lemma pre_split n k : pre n k = 16 * pre (S n) k + nib (S n) k.
Proof.
  unfold pre, nib. replace (Z.of_nat (S n) - 1) with (Z.of_nat n) by lia.
  replace (16 ^ Z.of_nat (S n)) with (16 ^ Z.of_nat n * 16)
    by (rewrite Nat2Z.inj_succ, Z.pow_succ_r by lia; ring).
  rewrite <- Z.div_div by lia. apply Z.div_mod. lia.
Qed.

Lemma pre_0 k : pre 0 k = k.
Proof. apply Z.div_1_r. Qed.

Lemma pre_64 k : is_key k → pre 64 k = 0.
Proof. intros. by apply Z.div_small. Qed.

Lemma shiftr_pow16 k i : 0 ≤ i → Z.shiftr k (4 * i) = k / 16 ^ i.
Proof. intros. rewrite Z.shiftr_div_pow2 by lia. by rewrite Z.pow_mul_r by lia. Qed.

Lemma selectBranch_nib n nid k :
  (0 < n ≤ 64)%nat → mDepth nid = 64 - Z.of_nat n → selectBranch nid k = nib n k.
Proof.
  intros Hn Hd. unfold selectBranch, byte, nib. rewrite Hd.
  set (d := 64 - Z.of_nat n) in *. rewrite Z.bit0_odd.
  assert (d = 2 * (d / 2) + (if Z.odd d then 1 else 0)) as Ed.
  { rewrite <- Z.div2_div. rewrite (Z.div2_odd d) at 1. by destruct (Z.odd d). }
  change 255 with (Z.ones 8). change 15 with (Z.ones 4). rewrite !Z.land_ones by lia.
  destruct (Z.odd d) eqn:Eo; rewrite ?Z.land_ones by lia.
  - replace (8 * (31 - d / 2)) with (4 * (Z.of_nat n - 1)) by lia. rewrite shiftr_pow16 by lia.
    change (2 ^ 8) with (16 * 16). change (2 ^ 4) with 16. rewrite Z.rem_mul_r by lia.
    rewrite Z.mul_comm, Z.mod_add by lia. by apply Z.mod_mod.
  - rewrite Z.shiftr_div_pow2 by lia. rewrite Z.shiftr_div_pow2 by lia.
    change (2 ^ 8) with (16 * 16). change (2 ^ 4) with 16. rewrite Z.rem_mul_r by lia.
    rewrite (Z.add_comm (_ mod 16)), (Z.mul_comm 16), Z.div_add_l by lia.
    rewrite (Z.div_small (_ mod 16)) by (apply Z.mod_pos_bound; lia). rewrite Z.add_0_r.
    rewrite Z.div_div by (apply Z.pow_nonzero || lia; lia). f_equal. f_equal.
    change 16 with (2 ^ 4) at 1. rewrite <- Z.pow_add_r by lia.
    replace (8 * (31 - d / 2) + 4) with (4 * (Z.of_nat n - 1)) by lia.
    by rewrite Z.pow_mul_r by lia.
Qed.

Lemma nib_pre_eq n k k' : pre n k = pre n k' → pre (S n) k = pre (S n) k'.
Proof. intros E. pose proof (pre_split n k). pose proof (pre_split n k'). pose proof (nib_range (S n) k).
  pose proof (nib_range (S n) k'). lia. Qed.

(** ** Contents and shape *)

Section inv.
Context {D : Type}.
Abbreviation node := (node D).
Implicit Types (t c : node) (cs : list (option node)) (it : SHAMapItem D).

(** The leaf for key [k] below a node with [n] levels *)
Fixpoint get (n : nat) (t : node) (k : Z) : option (SHAMapItem D * TNType) :=
  match t with
  | Leaf it ty => if tag_ it =? k then Some (it, ty) else None
  | Inner cs =>
      match n with
      | O => None
      | S n' => match getChild cs (nib n k) with Some c => get n' c k | None => None end
      end
  end.

(** A node below the root: its keys have the prefix [p], and an inner node has at
    least two items below. *)
Fixpoint wf (n : nat) (p : Z) (t : node) : Prop :=
  match t with
  | Leaf it _ => pre n (tag_ it) = p
  | Inner cs =>
      match n with
      | O => False
      | S n' =>
          length cs = 16%nat ∧
          (∀ b c, 0 ≤ b < 16 → getChild cs b = Some c → wf n' (16 * p + b) c) ∧
          ∃ k1 k2, k1 ≠ k2 ∧ is_Some (get n t k1) ∧ is_Some (get n t k2)
      end
  end.

(** The children of an inner node *)
Definition wf_children (n : nat) (p : Z) cs : Prop :=
  length cs = 16%nat ∧ ∀ b c, 0 ≤ b < 16 → getChild cs b = Some c → wf n (16 * p + b) c.

(** The root is an inner node, whatever its contents. *)
Definition wf_root (t : node) : Prop :=
  match t with Inner cs => wf_children 63 0 cs | Leaf _ _ => False end.

Lemma wf_inner n p cs :
  wf (S n) p (Inner cs) ↔ wf_children n p cs ∧
    ∃ k1 k2, k1 ≠ k2 ∧ is_Some (get (S n) (Inner cs) k1) ∧ is_Some (get (S n) (Inner cs) k2).
Proof. unfold wf_children. simpl. tauto. Qed.

Lemma get_inner n cs k :
  get (S n) (Inner cs) k = match getChild cs (nib (S n) k) with Some c => get n c k | None => None end.
Proof. done. Qed.

Lemma get_prefix n p t k x : wf n p t → get n t k = Some x → pre n k = p ∧ tag_ x.1 = k.
Proof.
  revert p t. induction n as [|n IH]; intros p [it ty|cs] Hwf; simpl in *; try done.
  - case_if; [|done]. intros [= <-]. zb. by subst.
  - case_if; [|done]. intros [= <-]. zb. by subst.
  - destruct Hwf as (_ & Hc & _). destruct (getChild cs (nib (S n) k)) as [c|] eqn:E; [|done].
    intros Hg. destruct (IH _ _ (Hc _ _ (nib_range _ _) E) Hg) as [Hp Htag].
    rewrite pre_split in Hp. split; [|done]. lia.
Qed.

(** Every node below the root has an item. *)
Lemma wf_nonempty n p t : wf n p t → ∃ k, is_Some (get n t k).
Proof.
  destruct t as [it ty|cs]; intros Hwf.
  - exists (tag_ it). destruct n; simpl; by rewrite Z.eqb_refl.
  - destruct n; [done|]. destruct Hwf as (_ & _ & k & _ & _ & Hk & _). by exists k.
Qed.

Lemma getChild_setChild cs b b' (c : option node) :
  length cs = 16%nat → 0 ≤ b < 16 → 0 ≤ b' < 16 →
  getChild (setChild cs b c) b' = if decide (b' = b) then c else getChild cs b'.
Proof.
  intros Hl Hb Hb'. unfold getChild, setChild. case_decide as E.
  - subst. by rewrite list_lookup_insert_eq by lia.
  - by rewrite list_lookup_insert_ne by lia.
Qed.

Lemma length_setChild cs b (c : option node) : length (setChild cs b c) = length cs.
Proof. apply length_insert. Qed.

Lemma get_child n p cs b c k :
  wf_children n p cs → 0 ≤ b < 16 → getChild cs b = Some c → is_Some (get n c k) →
  get (S n) (Inner cs) k = get n c k ∧ nib (S n) k = b.
Proof.
  intros [_ Hc] Hb Ec [x Hx]. destruct (get_prefix _ _ _ _ _ (Hc b c Hb Ec) Hx) as [Hp _].
  rewrite get_inner. pose proof (pre_split n k) as E. pose proof (nib_range (S n) k).
  assert (nib (S n) k = b) as -> by lia. by rewrite Ec.
Qed.

(** ** Canonical form

    The tree is determined by its contents. *)

Lemma get_leaf n it ty k : get n (Leaf it ty) k = if tag_ it =? k then Some (it, ty) else None.
Proof. by destruct n. Qed.

Lemma leaf_inner_differ n p it ty cs :
  wf (S n) p (Inner cs) → (∀ k, get (S n) (Leaf it ty) k = get (S n) (Inner cs) k) → False.
Proof.
  intros (_ & _ & k1 & k2 & Hne & H1 & H2) Hg. rewrite <- !Hg in *. rewrite !get_leaf in *.
  destruct (tag_ it =? k1) eqn:E1, (tag_ it =? k2) eqn:E2; zb; try (by destruct H1 || by destruct H2).
  lia.
Qed.

Lemma children_list_eq cs1 cs2 :
  length cs1 = 16%nat → length cs2 = 16%nat →
  (∀ b, 0 ≤ b < 16 → getChild cs1 b = getChild cs2 b) → cs1 = cs2.
Proof.
  intros Hl1 Hl2 Hb. apply list_eq. intros i. destruct (decide (i < 16)%nat) as [Hi|Hi].
  - specialize (Hb (Z.of_nat i) ltac:(lia)). unfold getChild in Hb. rewrite Nat2Z.id in Hb.
    destruct (lookup_lt_is_Some_2 cs1 i) as [x1 E1]; [lia|].
    destruct (lookup_lt_is_Some_2 cs2 i) as [x2 E2]; [lia|]. rewrite E1, E2 in *. by f_equal.
  - by rewrite !lookup_ge_None_2 by lia.
Qed.

Lemma children_eq n p cs1 cs2 :
  (∀ p t1 t2, wf n p t1 → wf n p t2 → (∀ k, get n t1 k = get n t2 k) → t1 = t2) →
  wf_children n p cs1 → wf_children n p cs2 →
  (∀ k, get (S n) (Inner cs1) k = get (S n) (Inner cs2) k) → cs1 = cs2.
Proof.
  intros IH Hw1 Hw2 Hg. pose proof Hw1 as [Hl1 Hc1]. pose proof Hw2 as [Hl2 Hc2].
  assert (∀ b, 0 ≤ b < 16 → getChild cs1 b = getChild cs2 b) as Hb.
  { intros b Hb. destruct (getChild cs1 b) as [c1|] eqn:E1, (getChild cs2 b) as [c2|] eqn:E2; [|exfalso..|done].
    - f_equal. apply (IH (16 * p + b)); [by apply Hc1|by apply Hc2|]. intros k.
      destruct (get n c1 k) as [x|] eqn:G1.
      + destruct (get_child _ _ _ _ _ k Hw1 Hb E1) as [Gt1 Hn]; [by rewrite G1|].
        rewrite Hg, get_inner, Hn, E2 in Gt1. by rewrite Gt1, G1.
      + destruct (get n c2 k) as [y|] eqn:G2; [|done].
        destruct (get_child _ _ _ _ _ k Hw2 Hb E2) as [Gt2 Hn]; [by rewrite G2|].
        rewrite <- Hg, get_inner, Hn, E1, G1 in Gt2. congruence.
    - destruct (wf_nonempty _ _ _ (Hc1 b c1 Hb E1)) as [k Hk].
      destruct (get_child _ _ _ _ _ k Hw1 Hb E1 Hk) as [Gt1 Hn].
      rewrite Hg, get_inner, Hn, E2 in Gt1. rewrite <- Gt1 in Hk. by destruct Hk.
    - destruct (wf_nonempty _ _ _ (Hc2 b c2 Hb E2)) as [k Hk].
      destruct (get_child _ _ _ _ _ k Hw2 Hb E2 Hk) as [Gt2 Hn].
      rewrite <- Hg, get_inner, Hn, E1 in Gt2. rewrite <- Gt2 in Hk. by destruct Hk. }
  by apply children_list_eq.
Qed.

Lemma wf_unique n p t1 t2 :
  wf n p t1 → wf n p t2 → (∀ k, get n t1 k = get n t2 k) → t1 = t2.
Proof.
  revert p t1 t2. induction n as [|n IH]; intros p [it1 ty1|cs1] [it2 ty2|cs2] H1 H2 Hg; try done.
  - specialize (Hg (tag_ it1)). rewrite !get_leaf, Z.eqb_refl in Hg. destruct (_ =? _); naive_solver.
  - specialize (Hg (tag_ it1)). rewrite !get_leaf, Z.eqb_refl in Hg. destruct (_ =? _); naive_solver.
  - exfalso. by eapply leaf_inner_differ.
  - exfalso. by eapply leaf_inner_differ.
  - f_equal. apply wf_inner in H1 as [H1 _], H2 as [H2 _]. by eapply children_eq.
Qed.

Lemma wf_root_unique t1 t2 :
  wf_root t1 → wf_root t2 → (∀ k, get 64 t1 k = get 64 t2 k) → t1 = t2.
Proof.
  destruct t1 as [|cs1], t2 as [|cs2]; try done. intros H1 H2 Hg. f_equal.
  eapply (children_eq 63); [|done..]. intros p t1 t2. apply wf_unique.
Qed.

(** ** The walk *)

(** The shape of a node that may be the root *)
Definition loose (n : nat) (p : Z) (t : node) : Prop :=
  match t, n with
  | Leaf it _, _ => pre n (tag_ it) = p
  | Inner cs, S n' => wf_children n' p cs
  | Inner _, O => False
  end.

Lemma wf_loose n p t : wf n p t → loose n p t.
Proof. destruct t, n; simpl; try done. unfold wf_children. tauto. Qed.

Definition at_level (n : nat) (nid : SHAMapNodeID.t) : Prop :=
  (n ≤ 64)%nat ∧ mDepth nid = 64 - Z.of_nat n.

Lemma at_level_child n nid b : at_level (S n) nid → at_level n (getChildNodeID nid b).
Proof. intros [? E]. split; [lia|]. simpl. lia. Qed.

Lemma at_level_branch n nid k : at_level (S n) nid → selectBranch nid k = nib (S n) k.
Proof. intros [? E]. by apply selectBranch_nib; [lia|]. Qed.

Lemma walk_inner fuel k cs nid st :
  walk (S fuel) k (Inner cs) nid st =
    match getChild cs (selectBranch nid k) with
    | None => Some (None, (Inner cs, nid) :: st)
    | Some c => walk fuel k c (getChildNodeID nid (selectBranch nid k)) ((Inner cs, nid) :: st)
    end.
Proof. done. Qed.

Lemma walk_leaf fuel k it ty nid st :
  walk fuel k (Leaf it ty) nid st = Some (Some (it, ty), (Leaf it ty, nid) :: st).
Proof. by destruct fuel. Qed.

(** What a walk for [k] from [t] at level [n] does, for any function of its result:
    it stops at an empty branch or at a leaf. *)
Lemma walk_ind k (P : nat → node → SHAMapNodeID.t → stack → option (option (SHAMapItem D * TNType) * stack) → Prop) :
  (∀ n p it ty nid st, pre n (tag_ it) = p → pre n k = p → at_level n nid →
     P n (Leaf it ty) nid st (Some (Some (it, ty), (Leaf it ty, nid) :: st))) →
  (∀ n p cs nid st, wf_children n p cs → pre (S n) k = p → at_level (S n) nid →
     getChild cs (nib (S n) k) = None →
     P (S n) (Inner cs) nid st (Some (None, (Inner cs, nid) :: st))) →
  (∀ n p cs c nid st r, wf_children n p cs → pre (S n) k = p → at_level (S n) nid →
     getChild cs (nib (S n) k) = Some c → wf n (pre n k) c →
     P n c (getChildNodeID nid (nib (S n) k)) ((Inner cs, nid) :: st) r →
     P (S n) (Inner cs) nid st r) →
  ∀ n p t fuel nid st, loose n p t → pre n k = p → at_level n nid → (n ≤ fuel)%nat →
    P n t nid st (walk fuel k t nid st).
Proof.
  intros Hleaf Hnone Hsome. induction n as [|n IH]; intros p t fuel nid st Ht Hk Hl Hf.
  - destruct t as [it ty|]; [|done]. rewrite walk_leaf. by eapply Hleaf.
  - destruct t as [it ty|cs]; [rewrite walk_leaf; by eapply Hleaf|].
    destruct fuel as [|fuel]; [lia|]. rewrite walk_inner, (at_level_branch n) by done.
    destruct (getChild cs (nib (S n) k)) as [c|] eqn:Ec; [|by eapply Hnone].
    assert (wf n (pre n k) c) as Hc.
    { rewrite pre_split, Hk. apply Ht; [apply nib_range|done]. }
    eapply Hsome; [done..|]. apply (IH (pre n k)); [by apply wf_loose|done|by apply at_level_child|lia].
Qed.

Lemma walk_get n p t k fuel nid st :
  loose n p t → pre n k = p → at_level n nid → (n ≤ fuel)%nat →
  ∃ o stk, walk fuel k t nid st = Some (o, stk) ∧ stk ≠ [] ∧
    get n t k = match o with Some (it, ty) => if tag_ it =? k then Some (it, ty) else None | None => None end.
Proof.
  intros. refine (walk_ind k (λ n t nid st r, ∃ o stk, r = Some (o, stk) ∧ stk ≠ [] ∧
    get n t k = match o with Some (it, ty) => if tag_ it =? k then Some (it, ty) else None | None => None end)
    _ _ _ n p t fuel nid st _ _ _ _); try done; clear.
  - intros. eexists _, _. split; [done|]. by rewrite get_leaf.
  - intros n p cs nid st _ _ _ Ec. eexists _, _. split; [done|]. by rewrite get_inner, Ec.
  - intros n p cs c nid st r _ _ _ Ec _ (o & stk & -> & ? & Hg). exists o, stk.
    by rewrite get_inner, Ec.
Qed.

(** The leaf found is on top of the stack; below it are the inner nodes of the path. *)
Lemma walk_found n p t k fuel nid st it ty :
  loose n p t → pre n k = p → at_level n nid → (n ≤ fuel)%nat → get n t k = Some (it, ty) →
  ∃ nid' stk, walk fuel k t nid st = Some (Some (it, ty), (Leaf it ty, nid') :: stk) ∧ tag_ it = k.
Proof.
  intros Hl Hk Ha Hf Hg.
  destruct (walk_get _ _ _ _ _ nid st Hl Hk Ha Hf) as (o & stk & Ew & _ & Eg).
  rewrite Hg in Eg. destruct o as [[it' ty']|]; [|done]. destruct (tag_ it' =? k) eqn:Et; [|done].
  zb. injection Eg as <- <-. revert Ew.
  refine (walk_ind k (λ n t nid st r, r = Some (Some (it, ty), stk) →
    ∃ nid' stk, r = Some (Some (it, ty), (Leaf it ty, nid') :: stk) ∧ tag_ it = k)
    _ _ _ n p t fuel nid st _ _ _ _); try done; clear -Et.
  intros ? ? it' ty' nid st _ _ _ [= -> -> <-]. by eexists _, _.
Qed.

(** ** Reference operations, by recursion on the tree *)

(** The smallest tree with both items *)
Fixpoint join (n : nat) it it' (ty : TNType) : node :=
  match n with
  | O => Leaf it ty
  | S n' =>
      let b := nib n (tag_ it) in
      let b' := nib n (tag_ it') in
      if b =? b' then Inner (setChild no_children b (Some (join n' it it' ty)))
      else Inner (setChild (setChild no_children b (Some (Leaf it ty))) b' (Some (Leaf it' ty)))
  end.

Fixpoint ins (n : nat) (t : node) it (ty : TNType) : node :=
  match t, n with
  | Leaf it' _, _ => join n it it' ty
  | Inner cs, O => t
  | Inner cs, S n' =>
      let b := nib n (tag_ it) in
      Inner (setChild cs b (Some
        match getChild cs b with None => Leaf it ty | Some c => ins n' c it ty end))
  end.

Fixpoint upd (n : nat) (t : node) it (ty : TNType) : node :=
  match t, n with
  | Leaf _ _, _ => Leaf it ty
  | Inner cs, O => t
  | Inner cs, S n' =>
      let b := nib n (tag_ it) in
      match getChild cs b with
      | None => t
      | Some c => Inner (setChild cs b (Some (upd n' c it ty)))
      end
  end.

(** Removing the item of [k] below a node that is not the root *)
Fixpoint del (n : nat) (t : node) (k : Z) (ty : TNType) : option node :=
  match t, n with
  | Leaf _ _, _ => None
  | Inner cs, O => Some t
  | Inner cs, S n' =>
      let b := nib n k in
      match getChild cs b with
      | None => Some t
      | Some c => pullUp (setChild cs b (del n' c k ty)) ty
      end
  end.

(** ** The stack operations are the recursive ones *)

Lemma split_join it it' ty n fuel nid st :
  tag_ it ≠ tag_ it' → pre n (tag_ it) = pre n (tag_ it') → at_level n nid → (n ≤ fuel)%nat →
  ∃ b b' st', split fuel (tag_ it) (tag_ it') nid st = Some (b, b', st') ∧
    dirtyUp st' (tag_ it) (Inner (setChild (setChild no_children b (Some (Leaf it ty))) b' (Some (Leaf it' ty)))) =
    dirtyUp st (tag_ it) (join n it it' ty).
Proof.
  intros Hne. revert fuel nid st. induction n as [|n IH]; intros fuel nid st Hp Hl Hf.
  { by rewrite !pre_0 in Hp. }
  destruct fuel as [|fuel]; [lia|].
  cbn [join split]. rewrite !(at_level_branch n) by done.
  case_if; zb; [|by eexists _, _, _].
  destruct (IH fuel (getChildNodeID nid (nib (S n) (tag_ it))) ((Inner no_children, nid) :: st))
    as (b & b' & st' & Es & Ed); [|by apply at_level_child|lia|].
  - rewrite (pre_split n (tag_ it)), (pre_split n (tag_ it')). lia.
  - exists b, b', st'. split; [done|]. rewrite Ed. cbn [dirtyUp].
    by rewrite (at_level_branch n).
Qed.

(** What [addGiveItem] does after the walk *)
Definition add_finish (it : SHAMapItem D) (ty : TNType) (stk : stack) : option node :=
  match stk with
  | (Leaf other _, nodeID) :: st =>
      match split 64 (tag_ it) (tag_ other) nodeID st with
      | Some (b1, b2, st) =>
          Some (dirtyUp st (tag_ it) (Inner (setChild (setChild no_children b1 (Some (Leaf it ty)))
                                  b2 (Some (Leaf other ty)))))
      | None => None
      end
  | (Inner cs, nodeID) :: st =>
      Some (dirtyUp st (tag_ it) (Inner (setChild cs (selectBranch nodeID (tag_ it)) (Some (Leaf it ty)))))
  | [] => None
  end.

Lemma walk_ins it ty n p t nid st fuel :
  loose n p t → pre n (tag_ it) = p → at_level n nid → (n ≤ fuel)%nat → get n t (tag_ it) = None →
  ∃ o stk, walk fuel (tag_ it) t nid st = Some (o, stk) ∧
    match stk with (Leaf it' _, _) :: _ => tag_ it' ≠ tag_ it | _ => True end ∧
    add_finish it ty stk = Some (dirtyUp st (tag_ it) (ins n t it ty)).
Proof.
  intros ? ? ? ?. refine (walk_ind (tag_ it) (λ n t nid st r, get n t (tag_ it) = None →
    ∃ o stk, r = Some (o, stk) ∧
      match stk with (Leaf it' _, _) :: _ => tag_ it' ≠ tag_ it | _ => True end ∧
      add_finish it ty stk = Some (dirtyUp st (tag_ it) (ins n t it ty)))
    _ _ _ n p t fuel nid st _ _ _ _); try done; clear.
  - intros n p it' ty' nid st Hp' Hp Hl Hg. rewrite get_leaf in Hg.
    destruct (tag_ it' =? tag_ it) eqn:Et; [done|]. zb.
    eexists _, _. split; [done|]. split; [done|]. cbn [add_finish].
    destruct (split_join it it' ty n 64 nid st) as (b & b' & st' & -> & Ed);
      [congruence|congruence|done|apply Hl|]. rewrite Ed. by destruct n.
  - intros n p cs nid st Hc Hp Hl Ec _. eexists _, _. split; [done|]. split; [done|].
    cbn [add_finish ins]. by rewrite (at_level_branch n), Ec.
  - intros n p cs c nid st r Hc Hp Hl Ec Hw IH Hg. rewrite get_inner, Ec in Hg.
    destruct (IH Hg) as (o & stk & -> & Ho & Hd). exists o, stk. split; [done|]. split; [done|].
    rewrite Hd. cbn [dirtyUp ins]. by rewrite (at_level_branch n), Ec.
Qed.

Lemma walk_upd it ty it' ty' n p t nid st fuel nid' stk :
  loose n p t → pre n (tag_ it) = p → at_level n nid → (n ≤ fuel)%nat →
  walk fuel (tag_ it) t nid st = Some (Some (it', ty'), (Leaf it' ty', nid') :: stk) →
  dirtyUp stk (tag_ it) (Leaf it ty) = dirtyUp st (tag_ it) (upd n t it ty).
Proof.
  intros ? ? ? ?. refine (walk_ind (tag_ it) (λ n t nid st r,
    r = Some (Some (it', ty'), (Leaf it' ty', nid') :: stk) →
    dirtyUp stk (tag_ it) (Leaf it ty) = dirtyUp st (tag_ it) (upd n t it ty))
    _ _ _ n p t fuel nid st _ _ _ _); try done; clear.
  - intros n p it1 ty1 nid st _ _ _ E. simplify_eq. by destruct n.
  - intros n p cs c nid st r Hc Hp Hl Ec Hw IH Hr. rewrite (IH Hr). cbn [dirtyUp upd].
    by rewrite (at_level_branch n), Ec.
Qed.

Lemma at_level_not_root n nid : (n < 64)%nat → at_level n nid → isRoot nid = false.
Proof. intros ? [_ E]. apply Z.eqb_neq. lia. Qed.

Lemma walk_del ty k it' ty' n p t nid st fuel nid' stk :
  loose n p t → pre n k = p → at_level n nid → (n ≤ fuel)%nat → (n < 64)%nat →
  walk fuel k t nid st = Some (Some (it', ty'), (Leaf it' ty', nid') :: stk) →
  delUp stk k ty None = delUp st k ty (del n t k ty).
Proof.
  intros ? ? ? ?. refine (walk_ind k (λ n t nid st r, (n < 64)%nat →
    r = Some (Some (it', ty'), (Leaf it' ty', nid') :: stk) →
    delUp stk k ty None = delUp st k ty (del n t k ty))
    _ _ _ n p t fuel nid st _ _ _ _); try done; clear.
  - intros n p it1 ty1 nid st _ _ _ _ E. simplify_eq. by destruct n.
  - intros n p cs c nid st r Hc Hp Hl Ec Hw IH Hn Hr. rewrite IH by (done || lia). cbn [delUp del].
    by rewrite (at_level_branch n), (at_level_not_root (S n)), Ec.
Qed.

(** ** What the recursive operations do to shape and contents *)

(** All leaves have the type [ty]. *)
Definition typed (n : nat) (t : node) (ty : TNType) : Prop := ∀ k x, get n t k = Some x → x.2 = ty.

Lemma get_setChild n p cs b (oc : option node) k :
  wf_children n p cs → 0 ≤ b < 16 →
  get (S n) (Inner (setChild cs b oc)) k =
    if decide (nib (S n) k = b) then oc ≫= λ c, get n c k else get (S n) (Inner cs) k.
Proof.
  intros [Hl _] Hb. rewrite !get_inner, getChild_setChild by (done || apply nib_range).
  case_decide; [|done]. by destruct oc.
Qed.

Lemma wf_children_setChild n p cs b (oc : option node) :
  wf_children n p cs → 0 ≤ b < 16 → (∀ c, oc = Some c → wf n (16 * p + b) c) →
  wf_children n p (setChild cs b oc).
Proof.
  intros [Hl Hc] Hb Hoc. split; [by rewrite length_setChild|]. intros b' c Hb'.
  rewrite getChild_setChild by done. case_decide; [subst; apply Hoc|by apply Hc].
Qed.

Lemma wf_no_children n p : wf_children n p no_children.
Proof.
  split; [done|]. intros b c Hb. unfold getChild, no_children.
  destruct (replicate 16 None !! Z.to_nat b) as [x|] eqn:E; [|done].
  apply lookup_replicate in E as [-> _]. done.
Qed.

Lemma get_no_children n k : get (S n) (Inner no_children) k = None.
Proof.
  rewrite get_inner. destruct (getChild _ _) as [c|] eqn:E; [|done].
  unfold getChild, no_children in E. destruct (_ !! _) as [x|] eqn:El; [|done].
  apply lookup_replicate in El as [-> _]. done.
Qed.

Lemma child_prefix n p k : pre (S n) k = p → 16 * p + nib (S n) k = pre n k.
Proof. intros <-. rewrite (pre_split n k). lia. Qed.

Lemma key_ext n k k' : pre (S n) k = pre (S n) k' → nib (S n) k = nib (S n) k' → pre n k = pre n k'.
Proof. intros. rewrite (pre_split n k), (pre_split n k'). lia. Qed.

(** A key with contents below a node determines the branch. *)
Lemma get_Some_inner n p cs k x :
  wf_children n p cs → get (S n) (Inner cs) k = Some x → pre (S n) k = p ∧ tag_ x.1 = k.
Proof.
  intros [_ Hc]. rewrite get_inner. destruct (getChild cs (nib (S n) k)) as [c|] eqn:E; [|done].
  intros Hg. destruct (get_prefix _ _ _ _ _ (Hc _ _ (nib_range _ _) E) Hg) as [Hp Ht].
  split; [|done]. rewrite pre_split in Hp. lia.
Qed.

Lemma join_spec it it' ty n p :
  tag_ it ≠ tag_ it' → pre n (tag_ it) = p → pre n (tag_ it') = p →
  wf n p (join n it it' ty) ∧
  ∀ k, get n (join n it it' ty) k =
    if decide (k = tag_ it) then Some (it, ty) else if decide (k = tag_ it') then Some (it', ty) else None.
Proof.
  intros Hne. revert p. induction n as [|n IH]; intros p Hp Hp'.
  { by rewrite !pre_0, <- Hp' in *. }
  assert (∀ t : node, (∀ k, get (S n) t k = if decide (k = tag_ it) then Some (it, ty)
      else if decide (k = tag_ it') then Some (it', ty) else None) →
    ∃ k1 k2, k1 ≠ k2 ∧ is_Some (get (S n) t k1) ∧ is_Some (get (S n) t k2)) as Htwo.
  { intros t Hg. exists (tag_ it), (tag_ it'). rewrite !Hg.
    split; [done|]. split; repeat case_decide; done || congruence. }
  cbn [join]. case_if; zb.
  - destruct (IH (pre n (tag_ it))) as [Hw Hg]; [done|apply key_ext; congruence|].
    assert (∀ k, get (S n) (Inner (setChild no_children (nib (S n) (tag_ it)) (Some (join n it it' ty)))) k =
      if decide (k = tag_ it) then Some (it, ty) else if decide (k = tag_ it') then Some (it', ty) else None) as Hg'.
    { intros k. rewrite (get_setChild n p) by (apply wf_no_children || apply nib_range).
      rewrite get_no_children. simpl. rewrite Hg. repeat case_decide; congruence. }
    split; [|done]. apply wf_inner. split; [|by apply Htwo].
    apply wf_children_setChild; [apply wf_no_children|apply nib_range|].
    intros c [= <-]. by rewrite child_prefix.
  - set (cs := setChild _ _ _).
    assert (wf_children n p cs) as Hcs.
    { apply wf_children_setChild; [apply wf_children_setChild|..]; try apply wf_no_children; try apply nib_range.
      all: intros c [= <-]; by destruct n; rewrite child_prefix. }
    assert (∀ k, get (S n) (Inner cs) k = if decide (k = tag_ it) then Some (it, ty)
      else if decide (k = tag_ it') then Some (it', ty) else None) as Hg.
    { intros k. unfold cs. rewrite !(get_setChild n p); try apply nib_range; try apply wf_no_children.
      2: { apply wf_children_setChild; [apply wf_no_children|apply nib_range|].
           intros c [= <-]; by destruct n; rewrite child_prefix. }
      rewrite get_no_children. simpl. rewrite !get_leaf.
      repeat case_decide; repeat case_if; zb; congruence. }
    split; [|done]. apply wf_inner. split; [done|]. by apply Htwo.
Qed.

(** The children of an inner node after the branch of [k] changed to [oc], where [v]
    is what [oc] has for [k] *)
Lemma replace_child n p cs k (oc : option node) (v : option (SHAMapItem D * TNType)) :
  wf_children n p cs → pre (S n) k = p →
  (∀ c, oc = Some c → wf n (pre n k) c) →
  (∀ k', nib (S n) k' = nib (S n) k →
    oc ≫= (λ c, get n c k') = if decide (k' = k) then v else get (S n) (Inner cs) k') →
  wf_children n p (setChild cs (nib (S n) k) oc) ∧
  ∀ k', get (S n) (Inner (setChild cs (nib (S n) k) oc)) k' =
    if decide (k' = k) then v else get (S n) (Inner cs) k'.
Proof.
  intros Hcs Hp Hw Hg. split.
  - apply wf_children_setChild; [done|apply nib_range|]. by rewrite child_prefix.
  - intros k'. rewrite (get_setChild n p) by (done || apply nib_range).
    case_decide; [by apply Hg|]. by rewrite decide_False by congruence.
Qed.

Lemma wf_child n p cs k c :
  wf_children n p cs → pre (S n) k = p → getChild cs (nib (S n) k) = Some c → wf n (pre n k) c.
Proof. intros Hcs Hp. rewrite <- (child_prefix n p) by done. apply Hcs, nib_range. Qed.

Lemma typed_child n p cs b c ty :
  wf_children n p cs → 0 ≤ b < 16 → getChild cs b = Some c → typed (S n) (Inner cs) ty → typed n c ty.
Proof.
  intros Hcs Hb Ec Hty k y Hy. apply (Hty k y).
  destruct (get_child n p cs b c k Hcs Hb Ec) as [-> _]; [by rewrite Hy|done].
Qed.

Definition ins_child (n : nat) cs it (ty : TNType) : node :=
  match getChild cs (nib (S n) (tag_ it)) with None => Leaf it ty | Some c => ins n c it ty end.

Definition Ins_spec it (ty : TNType) (n : nat) : Prop :=
  ∀ p t, wf n p t → pre n (tag_ it) = p → get n t (tag_ it) = None → typed n t ty →
  wf n p (ins n t it ty) ∧
  ∀ k, get n (ins n t it ty) k = if decide (k = tag_ it) then Some (it, ty) else get n t k.

Lemma ins_children it ty n p cs :
  Ins_spec it ty n → wf_children n p cs → pre (S n) (tag_ it) = p →
  get (S n) (Inner cs) (tag_ it) = None → typed (S n) (Inner cs) ty →
  let cs' := setChild cs (nib (S n) (tag_ it)) (Some (ins_child n cs it ty)) in
  wf_children n p cs' ∧
  ∀ k, get (S n) (Inner cs') k = if decide (k = tag_ it) then Some (it, ty) else get (S n) (Inner cs) k.
Proof.
  intros IH Hcs Hp Hg Hty. rewrite get_inner in Hg. unfold ins_child.
  destruct (getChild cs (nib (S n) (tag_ it))) as [c|] eqn:Ec.
  - destruct (IH (pre n (tag_ it)) c) as [? HI]; [by eapply wf_child|done..| |].
    { by eapply typed_child; [|apply nib_range|..]. }
    apply replace_child; [done..| |].
    + by intros c' [= <-].
    + intros k Hk. cbn [mbind option_bind]. by rewrite HI, get_inner, Hk, Ec.
  - apply replace_child; [done..| |].
    + intros c' [= <-]. by destruct n.
    + intros k Hk. cbn [mbind option_bind]. rewrite get_leaf, get_inner, Hk, Ec.
      case_decide; repeat case_if; zb; congruence.
Qed.

Lemma ins_spec it ty n : Ins_spec it ty n.
Proof.
  induction n as [|n IH]; intros p t Hw Hp Hg Hty; (destruct t as [it' ty'|cs]; [|try done]).
  1, 2: assert (ty' = ty) as -> by (apply (Hty (tag_ it') (it', ty')); by rewrite get_leaf, Z.eqb_refl).
  1, 2: rewrite get_leaf in Hg; destruct (tag_ it' =? tag_ it) eqn:Et; [done|]; zb.
  1, 2: destruct (join_spec it it' ty _ p (not_eq_sym Et) Hp Hw) as [? Hj]; split; [done|].
  1, 2: intros k; cbn [ins]; rewrite Hj, get_leaf; repeat case_decide; repeat case_if; zb; congruence.
  apply wf_inner in Hw as [Hcs (k1 & k2 & Hne & H1 & H2)].
  destruct (ins_children it ty n p cs IH Hcs Hp Hg Hty) as [Hcs' Hk].
  split; [|exact Hk]. apply wf_inner. split; [exact Hcs'|].
  exists k1, k2. rewrite !Hk. split; [done|]. by repeat case_decide.
Qed.

Definition upd_children (n : nat) cs it (ty : TNType) : list (option node) :=
  match getChild cs (nib (S n) (tag_ it)) with
  | None => cs
  | Some c => setChild cs (nib (S n) (tag_ it)) (Some (upd n c it ty))
  end.

Definition Upd_spec it (ty : TNType) (n : nat) : Prop :=
  ∀ p t x, wf n p t → pre n (tag_ it) = p → get n t (tag_ it) = Some x →
  wf n p (upd n t it ty) ∧
  ∀ k, get n (upd n t it ty) k = if decide (k = tag_ it) then Some (it, ty) else get n t k.

Lemma upd_inner n cs it ty : upd (S n) (Inner cs) it ty = Inner (upd_children n cs it ty).
Proof. unfold upd_children. simpl. by destruct (getChild _ _). Qed.

Lemma upd_children_spec it ty n p cs x :
  Upd_spec it ty n → wf_children n p cs → pre (S n) (tag_ it) = p →
  get (S n) (Inner cs) (tag_ it) = Some x →
  wf_children n p (upd_children n cs it ty) ∧
  ∀ k, get (S n) (Inner (upd_children n cs it ty)) k =
    if decide (k = tag_ it) then Some (it, ty) else get (S n) (Inner cs) k.
Proof.
  intros IH Hcs Hp Hg. rewrite get_inner in Hg. unfold upd_children.
  destruct (getChild cs (nib (S n) (tag_ it))) as [c|] eqn:Ec; [|done].
  destruct (IH (pre n (tag_ it)) c x) as [Hw' Hg']; [by eapply wf_child|done..|].
  apply replace_child; [done..| |].
  - by intros c' [= <-].
  - intros k Hk. cbn [mbind option_bind]. by rewrite Hg', get_inner, Hk, Ec.
Qed.

Lemma upd_spec it ty n : Upd_spec it ty n.
Proof.
  induction n as [|n IH]; intros p t x Hw Hp Hg; (destruct t as [it' ty'|cs]; [|try done]).
  1, 2: rewrite get_leaf in Hg; destruct (tag_ it' =? tag_ it) eqn:Et; [|done]; zb; simpl; split; [done|].
  1, 2: intros k; rewrite Et; case_decide; repeat case_if; zb; congruence.
  apply wf_inner in Hw as [Hcs (k1 & k2 & Hne & H1 & H2)].
  destruct (upd_children_spec it ty n p cs x IH Hcs Hp Hg) as [Hcs' Hk].
  rewrite upd_inner. split; [|exact Hk]. apply wf_inner. split; [done|].
  exists k1, k2. rewrite !Hk. split; [done|]. by repeat case_decide.
Qed.

(** The children there are *)
Lemma omap_nil {A} (l : list (option A)) : omap id l = [] → ∀ i, l !! i ≫= id = None.
Proof.
  induction l as [|[a|] l IH]; simpl; [done..|]. intros E [|i]; simpl; auto.
Qed.

Lemma omap_one {A} (l : list (option A)) (c : A) : omap id l = [c] →
  ∃ i, l !! i = Some (Some c) ∧ ∀ j, j ≠ i → l !! j ≫= id = None.
Proof.
  induction l as [|[a|] l IH]; simpl; [done| |].
  - intros [= -> E]. exists 0%nat. split; [done|]. intros [|j] ?; [done|]. by apply (omap_nil l).
  - intros E. destruct (IH E) as (i & Hi & Hj). exists (S i). split; [done|].
    intros [|j] ?; simpl; [done|]. apply Hj. lia.
Qed.

Lemma omap_two {A} (l : list (option A)) (c1 c2 : A) r : omap id l = c1 :: c2 :: r →
  ∃ i j, i ≠ j ∧ l !! i = Some (Some c1) ∧ l !! j = Some (Some c2).
Proof.
  induction l as [|[a|] l IH]; simpl; [done| |].
  - intros [= -> E]. change (omap id l = c2 :: r) in E. assert (c2 ∈ omap id l) as Hin by (rewrite E; left).
    apply list_elem_of_omap in Hin as (x & Hx & Ex). unfold id in Ex. subst x. apply list_elem_of_lookup in Hx as [j Hj].
    by exists 0%nat, (S j).
  - intros E. destruct (IH E) as (i & j & ? & ? & ?). exists (S i), (S j). naive_solver.
Qed.

Lemma branch_count cs : getBranchCount cs = Z.of_nat (length (omap id cs)).
Proof.
  unfold getBranchCount. f_equal. induction cs as [|[c|] cs IH]; [done|..].
  - rewrite filter_cons_True by done. simpl. by rewrite IH.
  - rewrite filter_cons_False by (by intros [? ?]). done.
Qed.

Lemma getChild_bind cs i : getChild cs (Z.of_nat i) = cs !! i ≫= id.
Proof. unfold getChild. rewrite Nat2Z.id. by destruct (cs !! i). Qed.

Lemma getChild_bind' cs b : getChild cs b = cs !! Z.to_nat b ≫= id.
Proof. unfold getChild. by destruct (cs !! _). Qed.

Lemma omap_one_get n p cs c :
  wf_children n p cs → omap id cs = [c] →
  ∃ b, 0 ≤ b < 16 ∧ getChild cs b = Some c ∧ wf n (16 * p + b) c ∧
    ∀ k, get (S n) (Inner cs) k = get n c k.
Proof.
  intros Hcs E. pose proof Hcs as [Hl Hc]. destruct (omap_one _ _ E) as (i & Hi & Hj).
  pose proof (lookup_lt_Some _ _ _ Hi).
  assert (getChild cs (Z.of_nat i) = Some c) as Ec by by rewrite getChild_bind, Hi.
  assert (wf n (16 * p + Z.of_nat i) c) as Hw by (apply Hc; [lia|done]).
  exists (Z.of_nat i). split; [lia|]. split; [done|]. split; [done|]. intros k.
  destruct (get n c k) as [x|] eqn:Eg.
  - destruct (get_child n p cs (Z.of_nat i) c k Hcs ltac:(lia) Ec) as [-> _]; by rewrite Eg.
  - rewrite get_inner. destruct (decide (nib (S n) k = Z.of_nat i)) as [->|Hne]; [by rewrite Ec|].
    rewrite getChild_bind', Hj; [done|]. pose proof (nib_range (S n) k). lia.
Qed.

Lemma onlyBelow_one fuel cs c :
  omap id cs = [c] → onlyBelow (S fuel) (Inner cs) = onlyBelow fuel c.
Proof. intros E. cbn [onlyBelow]. by rewrite E. Qed.

Lemma onlyBelow_wf n p t fuel :
  wf n p t → onlyBelow fuel t = match t with Leaf it _ => Some it | Inner _ => None end.
Proof.
  revert p t fuel. induction n as [|n IH]; intros p [it ty|cs] fuel Hw; try done; [by destruct fuel..|].
  destruct fuel as [|fuel]; [done|]. cbn [onlyBelow].
  apply wf_inner in Hw as [Hcs (k1 & k2 & Hne & H1 & H2)].
  destruct (omap id cs) as [|c [|c2 r]] eqn:E; [done| |done].
  destruct (omap_one_get _ _ _ _ Hcs E) as (b & Hb & Ec & Hw & Hg). rewrite (IH _ _ _ Hw).
  destruct c as [it ty|]; [|done]. rewrite !Hg, !get_leaf in *.
  destruct (tag_ it =? k1) eqn:E1, (tag_ it =? k2) eqn:E2; zb; try (by destruct H1 || by destruct H2). lia.
Qed.

Lemma pullUp_spec n p cs ty :
  (n < 64)%nat → wf_children n p cs → typed (S n) (Inner cs) ty →
  match pullUp cs ty with
  | None => ∀ k, get (S n) (Inner cs) k = None
  | Some t => wf (S n) p t ∧ ∀ k, get (S n) t k = get (S n) (Inner cs) k
  end.
Proof.
  intros Hn Hcs Hty. unfold pullUp. rewrite branch_count.
  destruct (omap id cs) as [|c [|c2 r]] eqn:E; cbn [length].
  - intros k. by rewrite get_inner, getChild_bind', omap_nil.
  - destruct (omap_one_get _ _ _ _ Hcs E) as (b & Hb & Ec & Hw & Hg).
    assert (onlyBelow 64 (Inner cs) = match c with Leaf it _ => Some it | Inner _ => None end) as ->.
    { rewrite (onlyBelow_one 63 cs c E). by eapply onlyBelow_wf. }
    cbn -[get wf]. destruct c as [it ty'|cs'].
    + assert (ty' = ty) as <-.
      { apply (Hty (tag_ it) (it, ty')). by rewrite Hg, get_leaf, Z.eqb_refl. }
      split; [|intros k; by rewrite Hg, !get_leaf].
      destruct (get_Some_inner n p cs (tag_ it) (it, ty') Hcs) as [Hp _]; [|done].
      by rewrite Hg, get_leaf, Z.eqb_refl.
    + split; [|done]. apply wf_inner. split; [done|].
      destruct n as [|n]; [done|]. destruct Hw as (_ & _ & k1 & k2 & ? & H1 & H2).
      exists k1, k2. by rewrite !Hg.
  - destruct (Z.eqb_spec (Z.of_nat (S (S (length r)))) 0); [lia|].
    destruct (Z.eqb_spec (Z.of_nat (S (S (length r)))) 1); [lia|].
    split; [|done]. apply wf_inner. split; [done|]. pose proof Hcs as [Hl Hc].
    destruct (omap_two _ _ _ _ E) as (i & j & Hij & Hi & Hj).
    pose proof (lookup_lt_Some _ _ _ Hi). pose proof (lookup_lt_Some _ _ _ Hj).
    assert (∀ i c, (i < 16)%nat → cs !! i = Some (Some c) →
      ∃ k, is_Some (get (S n) (Inner cs) k) ∧ nib (S n) k = Z.of_nat i) as Hex.
    { intros i' c' Hi' E'. assert (getChild cs (Z.of_nat i') = Some c') as Ec by by rewrite getChild_bind, E'.
      destruct (wf_nonempty n _ c' (Hc (Z.of_nat i') c' ltac:(lia) Ec)) as [k Hk]. exists k.
      by destruct (get_child n p cs (Z.of_nat i') c' k Hcs ltac:(lia) Ec Hk) as [-> ->]. }
    destruct (Hex i c) as (k1 & ? & ?); [lia|done|]. destruct (Hex j c2) as (k2 & ? & ?); [lia|done|].
    exists k1, k2. split; [|done]. intros ->. lia.
Qed.

Definition del_children (n : nat) cs (k : Z) (ty : TNType) : list (option node) :=
  match getChild cs (nib (S n) k) with
  | None => cs
  | Some c => setChild cs (nib (S n) k) (del n c k ty)
  end.

Definition Del_spec (ty : TNType) (k : Z) (n : nat) : Prop :=
  ∀ p t x, wf n p t → pre n k = p → get n t k = Some x → typed n t ty →
  match del n t k ty with
  | None => ∀ k', get n t k' = if decide (k' = k) then Some x else None
  | Some t' => wf n p t' ∧ ∀ k', get n t' k' = if decide (k' = k) then None else get n t k'
  end.

Lemma del_children_spec ty k n p cs x :
  Del_spec ty k n → wf_children n p cs → pre (S n) k = p →
  get (S n) (Inner cs) k = Some x → typed (S n) (Inner cs) ty →
  wf_children n p (del_children n cs k ty) ∧
  ∀ k', get (S n) (Inner (del_children n cs k ty)) k' =
    if decide (k' = k) then None else get (S n) (Inner cs) k'.
Proof.
  intros IH Hcs Hp Hg Hty. rewrite get_inner in Hg. unfold del_children.
  destruct (getChild cs (nib (S n) k)) as [c|] eqn:Ec; [|done].
  specialize (IH (pre n k) c x (wf_child _ _ _ _ _ Hcs Hp Ec) eq_refl Hg
    (typed_child _ _ _ _ _ _ Hcs (nib_range _ _) Ec Hty)).
  apply replace_child; [done..| |].
  - intros c' Hc'. rewrite Hc' in IH. apply IH.
  - intros k' Hk. rewrite get_inner, Hk, Ec.
    destruct (del n c k ty) as [t'|]; cbn [mbind option_bind]; [apply IH|].
    rewrite IH. by case_decide.
Qed.

Lemma del_spec ty k n : (n ≤ 64)%nat → Del_spec ty k n.
Proof.
  induction n as [|n IH]; intros Hn p t x Hw Hp Hg Hty; (destruct t as [it' ty'|cs]; [|try done]).
  1, 2: rewrite get_leaf in Hg; destruct (tag_ it' =? k) eqn:Et; [|done]; zb; simpl.
  1, 2: intros k'; case_decide; repeat case_if; zb; congruence.
  apply wf_inner in Hw as [Hcs _].
  destruct (del_children_spec ty k n p cs x (IH ltac:(lia)) Hcs Hp Hg Hty) as [Hcs' Hk].
  assert (typed (S n) (Inner (del_children n cs k ty)) ty) as Hty'.
  { intros k1 y. rewrite Hk. case_decide; [done|]. apply Hty. }
  pose proof (pullUp_spec n p _ ty ltac:(lia) Hcs' Hty') as Hpu.
  assert (del (S n) (Inner cs) k ty = pullUp (del_children n cs k ty) ty) as ->.
  { cbn [del]. unfold del_children. rewrite get_inner in Hg. by destruct (getChild _ _). }
  destruct (pullUp _ ty) as [t'|].
  - split; [apply Hpu|]. intros k'. rewrite (proj2 Hpu). apply Hk.
  - intros k'. specialize (Hpu k'). rewrite Hk in Hpu. case_decide; subst; done.
Qed.

(** ** The operations of the source on a whole map *)

Lemma root_loose t : wf_root t → loose 64 0 t.
Proof. by destruct t. Qed.

Lemma root_level : at_level 64 SHAMapNodeID.root.
Proof. by split. Qed.

Lemma get_root_key t k : wf_root t → is_Some (get 64 t k) → is_key k.
Proof.
  destruct t as [|cs]; [done|]. intros Hw [x Hx].
  destruct (get_Some_inner 63 0 cs k x Hw Hx) as [Hp _]. unfold is_key, pre in *.
  apply Z.div_small_iff in Hp; lia.
Qed.

Lemma findKey_spec t k : wf_root t → is_key k → findKey t k = get 64 t k.
Proof.
  intros Hw Hk. unfold findKey, walkTowardsKey.
  destruct (walk_get 64 0 t k 64 SHAMapNodeID.root []) as (o & stk & -> & _ & ->);
    [by apply root_loose|by apply pre_64|apply root_level|done|].
  by destruct o as [[it ty]|].
Qed.

Definition Good (t : node) (ty : TNType) : Prop := wf_root t ∧ typed 64 t ty.

(** [t'] is a good tree with [v] for [k], and otherwise as [t]. *)
Definition Updated (t t' : node) (ty : TNType) (k : Z) (v : option (SHAMapItem D * TNType)) : Prop :=
  Good t' ty ∧ ∀ k', get 64 t' k' = if decide (k' = k) then v else get 64 t k'.

Lemma Updated_intro t t' ty k v :
  Good t ty → wf_root t' → (∀ x, v = Some x → x.2 = ty) →
  (∀ k', get 64 t' k' = if decide (k' = k) then v else get 64 t k') → Updated t t' ty k v.
Proof.
  intros [_ Ht] Hw Hv Hg. split; [split; [done|]|done]. intros k' x. rewrite Hg.
  case_decide; [apply Hv|apply Ht].
Qed.

Lemma addGiveItem_spec t it ty :
  Good t ty → is_key (tag_ it) →
  match get 64 t (tag_ it) with
  | Some _ => addGiveItem t it ty = Some (false, t)
  | None => ∃ t', addGiveItem t it ty = Some (true, t') ∧ Updated t t' ty (tag_ it) (Some (it, ty))
  end.
Proof.
  intros [Hw Hty] Hk. pose proof (root_loose _ Hw) as Hl. unfold addGiveItem, walkTowardsKey.
  pose proof (pre_64 _ Hk) as Hp.
  destruct (get 64 t (tag_ it)) as [[it' ty']|] eqn:Eg.
  - destruct (walk_found 64 0 t (tag_ it) 64 SHAMapNodeID.root [] it' ty') as (nid & stk & -> & Et);
      [done|done|apply root_level|done|done|]. by rewrite Et, Z.eqb_refl.
  - destruct (walk_ins it ty 64 0 t SHAMapNodeID.root [] 64) as (o & stk & -> & Ho & Hd);
      [done|done|apply root_level|done|done|].
    exists (ins 64 t it ty). split.
    + revert Hd. destruct stk as [|[[it' ty'|cs] nid] stk]; cbn [add_finish]; [done| |by intros [= ->]].
      destruct (Z.eqb_spec (tag_ it') (tag_ it)); [done|].
      destruct (split _ _ _ _ _) as [[[b1 b2] st]|]; [|done]. by intros [= ->].
    + destruct t as [|cs]; [done|].
      destruct (ins_children it ty 63 0 cs (ins_spec _ _ _) Hw Hp Eg Hty) as [Hw' Hg'].
      apply Updated_intro; [done|exact Hw'|by intros x [= <-]|exact Hg'].
Qed.

Lemma delItem_spec t ty k :
  Good t ty → is_key k →
  match get 64 t k with
  | None => delItem t k = Some (false, t)
  | Some _ => ∃ t', delItem t k = Some (true, t') ∧ Updated t t' ty k None
  end.
Proof.
  intros [Hw Hty] Hk. pose proof (root_loose _ Hw) as Hl. unfold delItem, walkTowardsKey.
  pose proof (pre_64 _ Hk) as Hp.
  destruct (get 64 t k) as [[it ty']|] eqn:Eg.
  - assert (ty' = ty) as -> by by apply (Hty k (it, ty')).
    destruct (walk_found 64 0 t k 64 SHAMapNodeID.root [] it ty) as (nid & stk & Ew & Et);
      [done|done|apply root_level|done|done|]. rewrite Ew, Et, Z.eqb_refl.
    destruct t as [|cs]; [done|].
    destruct (del_children_spec ty k 63 0 cs _ (del_spec ty k 63 ltac:(lia)) Hw Hp Eg Hty) as [Hw' Hg'].
    exists (Inner (del_children 63 cs k ty)).
    assert (delUp stk k ty None = Some (Inner (del_children 63 cs k ty))) as ->.
    { revert Ew. rewrite (walk_inner 63), (at_level_branch 63) by apply root_level.
      rewrite get_inner in Eg. unfold del_children.
      destruct (getChild cs (nib 64 k)) as [c|] eqn:Ec; [|done]. intros Ew.
      rewrite (walk_del ty k it ty 63 (pre 63 k) c _ _ 63 nid stk (wf_loose _ _ _ (wf_child _ _ _ _ _ Hw Hp Ec))
        eq_refl (at_level_child 63 _ _ root_level) (le_n _) ltac:(lia) Ew).
      cbn [delUp]. by rewrite (at_level_branch 63) by apply root_level. }
    split; [done|]. apply Updated_intro; [done|exact Hw'|done|exact Hg'].
  - destruct (walk_get 64 0 t k 64 SHAMapNodeID.root []) as (o & stk & -> & Hs & Eg');
      [done|done|apply root_level|done|].
    destruct o as [[it ty']|]; [|done]. destruct stk; [done|].
    rewrite Eg in Eg'. by destruct (tag_ it =? k).
Qed.

Lemma updateGiveItem_spec leaf_hash t it ty :
  (∀ it', get 64 t (tag_ it) = Some (it', ty) → leaf_hash it ty = leaf_hash it' ty → it = it') →
  Good t ty → is_key (tag_ it) →
  match get 64 t (tag_ it) with
  | None => updateGiveItem leaf_hash t it ty = Some (false, t)
  | Some _ => ∃ t', updateGiveItem leaf_hash t it ty = Some (true, t') ∧
      Updated t t' ty (tag_ it) (Some (it, ty))
  end.
Proof.
  intros Hinj [Hw Hty] Hk. pose proof (root_loose _ Hw) as Hl. unfold updateGiveItem, walkTowardsKey.
  pose proof (pre_64 _ Hk) as Hp.
  destruct (get 64 t (tag_ it)) as [[it' ty']|] eqn:Eg.
  - assert (ty' = ty) as -> by by apply (Hty (tag_ it) (it', ty')).
    destruct (walk_found 64 0 t (tag_ it) 64 SHAMapNodeID.root [] it' ty) as (nid & stk & Ew & Et);
      [done|done|apply root_level|done|done|]. rewrite Ew, Et, Z.eqb_refl. cbn [negb].
    destruct (Z.eqb_spec (leaf_hash it ty) (leaf_hash it' ty)) as [Eh|].
    + apply Hinj in Eh as <-; [|done]. exists t. split; [done|].
      split; [done|]. intros k'. case_decide; subst; done.
    + rewrite (walk_upd it ty it' ty 64 0 t _ _ 64 nid stk Hl Hp root_level (le_n _) Ew). cbn [dirtyUp].
      destruct t as [|cs]; [done|]. rewrite (upd_inner 63).
      destruct (upd_children_spec it ty 63 0 cs _ (upd_spec it ty 63) Hw Hp Eg) as [Hw' Hg'].
      exists (Inner (upd_children 63 cs it ty)). split; [done|].
      apply Updated_intro; [done|exact Hw'|by intros x [= <-]|exact Hg'].
  - destruct (walk_get 64 0 t (tag_ it) 64 SHAMapNodeID.root []) as (o & stk & -> & Hs & Eg');
      [done|done|apply root_level|done|].
    destruct o as [[it' ty']|]; [|done]. destruct stk as [|[? ?] ?]; [done|].
    rewrite Eg in Eg'. by destruct (tag_ it' =? tag_ it).
Qed.

Lemma empty_root_good ty : Good empty_root ty.
Proof.
  split; [apply wf_no_children|]. intros k x Hx. by rewrite (get_no_children 63) in Hx.
Qed.

End inv.

End SHAMapInv.
