(* ===== verification/SHAMapTreeNode.v ===== *)
(** * SHAMapTreeNode: the stored and the wire form of tree nodes

    Models [shamap/SHAMapTreeNode.h] and [shamap/impl/SHAMapTreeNode.cpp]: the hash of a
    node ([updateHash]), its three formats ([addRaw]) and reading them back ([make]), for
    leaves, inner nodes and version 2 inner nodes.  The child pointers, which no format
    carries, and [mSeq] are left out.  [sha512Half], the first half of SHA-512 (OpenSSL),
    is a parameter on the bytes hashed; [sha512Half (args...)] hashes the bytes of its
    arguments one after the other, integers in big-endian order. *)

From S2P Require Import Prelude Serializer SHAMap.

(** ** Prefixes of hashed objects *)

Definition HashPrefix (a b c : Z) : Z :=
  u32 (Z.shiftl (u32 (u32 (Z.shiftl (u32 (u32 (Z.shiftl a 8) + b)) 8) + c)) 8).

Definition transactionID : Z := HashPrefix 84 88 78. (* TXN *)
Definition txNode : Z := HashPrefix 83 78 68. (* SND *)
Definition leafNode : Z := HashPrefix 77 76 78. (* MLN *)
Definition innerNode : Z := HashPrefix 77 73 78. (* MIN *)
Definition innerNodeV2 : Z := HashPrefix 73 78 82. (* INR *)

Module SHAMapTreeNode.
Import Serializer.

Inductive SHANodeFormat := snfPREFIX | snfWIRE | snfHASH.

Abbreviation Item := (SHAMapItem (list Z)).

(** [SHAMapInnerNode], without the child pointers *)
Record Inner := mkInner { mHashes : list Z; mIsBranch : Z; mHash : Z }.

(** The concrete classes of [SHAMapAbstractNode] *)
Inductive AbstractNode :=
  | TreeNode (mItem : Item) (mType : TNType) (mHash : Z)
  | InnerNode (base : Inner)
  | InnerNodeV2 (base : Inner) (common_ depth_ : Z).

Definition isEmptyBranch (n : Inner) (m : Z) : bool := Z.land (mIsBranch n) (Z.shiftl 1 m) =? 0.
Definition isEmpty (n : Inner) : bool := mIsBranch n =? 0.

Definition branches : list Z := seqZ 0 16.

Definition getBranchCount (n : Inner) : Z :=
  foldl (λ count i, if negb (isEmptyBranch n i) then count + 1 else count) 0 branches.

Definition getChildHash (n : Inner) (m : Z) : Z := default 0 (mHashes n !! Z.to_nat m).

(** [SHAMapInnerNode (seq)] *)
Definition newInner : Inner := mkInner (replicate 16 0) 0 0.

(** ** Writing *)

(** [s.add256 (hh)] for every hash *)
Definition add256_all (s : Serializer.t) (hs : list Z) : Serializer.t :=
  foldl (λ s hh, (add256 s hh).1) s hs.

(** [SHAMapTreeNode::addRaw] *)
Definition addRaw_tree (item : Item) (type : TNType) (hash : Z) (s : Serializer.t)
    (format : SHANodeFormat) : Serializer.t :=
  match format with
  | snfHASH => (add256 s hash).1
  | snfPREFIX =>
      match type with
      | tnACCOUNT_STATE =>
          let s := (add32 s leafNode).1 in
          let s := (addRaw s (data_ item)).1 in
          (add256 s (tag_ item)).1
      | tnTRANSACTION_NM =>
          let s := (add32 s transactionID).1 in
          (addRaw s (data_ item)).1
      | tnTRANSACTION_MD =>
          let s := (add32 s txNode).1 in
          let s := (addRaw s (data_ item)).1 in
          (add256 s (tag_ item)).1
      end
  | snfWIRE =>
      match type with
      | tnACCOUNT_STATE =>
          let s := (addRaw s (data_ item)).1 in
          let s := (add256 s (tag_ item)).1 in
          (add8 s 1).1
      | tnTRANSACTION_NM =>
          let s := (addRaw s (data_ item)).1 in
          (add8 s 0).1
      | tnTRANSACTION_MD =>
          let s := (addRaw s (data_ item)).1 in
          let s := (add256 s (tag_ item)).1 in
          (add8 s 4).1
      end
  end.

(** One iteration of the compressed form: the hash and the branch *)
Definition addBranch (n : Inner) (s : Serializer.t) (i : Z) : Serializer.t :=
  if negb (isEmptyBranch n i) then
    let s := (add256 s (getChildHash n i)).1 in
    (add8 s i).1
  else s.

(** [SHAMapInnerNode::addRaw] *)
Definition addRaw_inner (n : Inner) (s : Serializer.t) (format : SHANodeFormat) : Serializer.t :=
  match format with
  | snfHASH => (add256 s (mHash n)).1
  | snfPREFIX =>
      let s := (add32 s innerNode).1 in
      add256_all s (mHashes n)
  | snfWIRE =>
      if getBranchCount n <? 12 then
        let s := foldl (addBranch n) s branches in
        (add8 s 3).1
      else
        let s := add256_all s (mHashes n) in
        (add8 s 2).1
  end.

(** [data.back () += 3] *)
Definition bump_last (l : list Z) : list Z :=
  match last l with
  | Some b => take (length l - 1) l ++ [u8 (b + 3)]
  | None => l
  end.

(** [SHAMapInnerNodeV2::addRaw] *)
Definition addRaw_innerV2 (n : Inner) (common_ depth_ : Z) (s : Serializer.t)
    (format : SHANodeFormat) : Serializer.t :=
  match format with
  | snfPREFIX =>
      let s := (add32 s innerNodeV2).1 in
      let s := add256_all s (map (getChildHash n) branches) in
      let s := (add8 s (u8 depth_)).1 in
      foldl (λ s b, (add8 s b).1) s (take (Z.to_nat ((depth_ + 1) / 2)) (be_bytes 32 common_))
  | snfWIRE => Serializer.mk (bump_last (mData (addRaw_inner n s snfWIRE)))
  | snfHASH => addRaw_inner n s snfHASH
  end.

Definition addRaw (node : AbstractNode) (s : Serializer.t) (format : SHANodeFormat) : Serializer.t :=
  match node with
  | TreeNode item type hash => addRaw_tree item type hash s format
  | InnerNode n => addRaw_inner n s format
  | InnerNodeV2 n common depth => addRaw_innerV2 n common depth s format
  end.

Definition getNodeHash (node : AbstractNode) : Z :=
  match node with
  | TreeNode _ _ h => h
  | InnerNode n | InnerNodeV2 n _ _ => mHash n
  end.

Definition setHash (node : AbstractNode) (h : Z) : AbstractNode :=
  match node with
  | TreeNode item type _ => TreeNode item type h
  | InnerNode n => InnerNode (mkInner (mHashes n) (mIsBranch n) h)
  | InnerNodeV2 n c d => InnerNodeV2 (mkInner (mHashes n) (mIsBranch n) h) c d
  end.

Section make.
Context (sha512Half : list Z → Z).

(** ** Hashing *)

(** The hash each [updateHash] computes *)
Definition computeHash (node : AbstractNode) : Z :=
  match node with
  | TreeNode item type _ =>
      match type with
      | tnTRANSACTION_NM => sha512Half (be_bytes 4 transactionID ++ data_ item)
      | tnACCOUNT_STATE => sha512Half (be_bytes 4 leafNode ++ data_ item ++ be_bytes 32 (tag_ item))
      | tnTRANSACTION_MD => sha512Half (be_bytes 4 txNode ++ data_ item ++ be_bytes 32 (tag_ item))
      end
  | InnerNode n =>
      if mIsBranch n =? 0 then 0
      else sha512Half (be_bytes 4 innerNode ++ concat (map (be_bytes 32) (mHashes n)))
  | InnerNodeV2 n common depth =>
      if mIsBranch n =? 0 then 0
      else sha512Half (mData (addRaw_innerV2 n common depth (Serializer.mk []) snfPREFIX))
  end.

(** The node, and whether its hash changed *)
Definition updateHash (node : AbstractNode) : AbstractNode * bool :=
  let nh := computeHash node in
  if nh =? getNodeHash node then (node, false) else (setHash node nh, true).

(** ** Reading *)

(** [int getLength () const] *)
Definition getLength (s : Serializer.t) : Z := s32 (Z.of_nat (length (mData s))).

(** The hash is the caller's, or is computed. *)
Definition withHash (hash : Z) (hashValid : bool) (node : AbstractNode) : AbstractNode :=
  if hashValid then setHash node hash else (updateHash node).1.

(** [s.get256 (mHashes[pos], offset)] and the bit of [mIsBranch] *)
Definition readBranch (s : Serializer.t) (n : Inner) (pos offset : Z) : Inner :=
  let h := default (getChildHash n pos) (get256 s offset) in
  mkInner (<[Z.to_nat pos := h]> (mHashes n))
    (if negb (h =? 0) then Z.lor (mIsBranch n) (Z.shiftl 1 pos) else mIsBranch n) (mHash n).

Definition readFull (s : Serializer.t) : Inner :=
  foldl (λ n i, readBranch s n i (i * 32)) newInner branches.

Definition readCompressed1 (s : Serializer.t) (n : Inner) (i : Z) : result Inner :=
  match get8 s (32 + i * 33) with
  | None => Throw (runtime_error "short CI node")
  | Some pos =>
      if (pos <? 0) || (pos >=? 16) then Throw (runtime_error "invalid CI node")
      else Ok (readBranch s n pos (i * 33))
  end.

Definition readCompressed (s : Serializer.t) (len : Z) : result Inner :=
  foldl (λ r i, n ← r; readCompressed1 s n i) (Ok newInner) (seqZ 0 (len / 33)).

(** A leaf whose key is its last 32 bytes *)
Definition readKeyed (s : Serializer.t) (type : TNType) (short : string) (invalid : option string)
    : result AbstractNode :=
  let len := getLength s in
  if len <? 32 then Throw (runtime_error short)
  else
    let u := default 0 (get256 s (len - 32)) in
    let s := default s (chop s 32) in
    match invalid with
    | Some what => if u =? 0 then Throw (runtime_error what) else Ok (TreeNode (mkItem u (mData s)) type 0)
    | None => Ok (TreeNode (mkItem u (mData s)) type 0)
    end.

(** The [snfWIRE] branch of [SHAMapAbstractNode::make]; the null pointer is [None]. *)
Definition make_wire (rawNode : list Z) (hash : Z) (hashValid : bool) (id : SHAMapNodeID.t)
    : result (option AbstractNode) :=
  match last rawNode with
  | None => Ok None
  | Some type =>
      let s := Serializer.mk (take (length rawNode - 1) rawNode) in
      let len := getLength s in
      let done node := Ok (Some (withHash hash hashValid node)) in
      if (type <? 0) || (type >? 6) then Ok None
      else if type =? 0 then
        done (TreeNode (mkItem (sha512Half (be_bytes 4 transactionID ++ mData s)) (mData s)) tnTRANSACTION_NM 0)
      else if type =? 1 then
        node ← readKeyed s tnACCOUNT_STATE "short AS node" (Some "invalid AS node"); done node
      else if type =? 2 then
        if negb (len =? 512) then Throw (runtime_error "invalid FI node")
        else done (InnerNode (readFull s))
      else if type =? 3 then
        n ← readCompressed s len; done (InnerNode n)
      else if type =? 4 then
        node ← readKeyed s tnTRANSACTION_MD "short TM node" (Some "invalid TM node"); done node
      else if type =? 5 then
        if negb (len =? 512) then Throw (runtime_error "invalid FI node")
        else done (InnerNodeV2 (readFull s) (SHAMapNodeID.mNodeID id) (SHAMapNodeID.mDepth id))
      else
        n ← readCompressed s len;
        done (InnerNodeV2 n (SHAMapNodeID.mNodeID id) (SHAMapNodeID.mDepth id))
  end.

(** [*x = byte] for byte [i] of [common_], which has 32 bytes *)
Definition writeCommon (s : Serializer.t) (common : Z) (i : Z) : result Z :=
  if i <? 32 then
    let b := default 0 (get8 s (513 + i)) in
    Ok (be_val (<[Z.to_nat i := u8 b]> (be_bytes 32 common)))
  else Throw (undefined_behaviour "write beyond common_").

Definition readCommon (s : Serializer.t) (n : Z) : result Z :=
  foldl (λ r i, common ← r; writeCommon s common i) (Ok 0) (seqZ 0 n).

Definition readInnerP (s : Serializer.t) (isV2 : bool) : result AbstractNode :=
  let len := getLength s in
  if (len <? 512) || (negb isV2 && negb (len =? 512)) || (isV2 && (len =? 512))
  then Throw (runtime_error "invalid PIN node")
  else
    let ret := readFull s in
    if isV2 then
      let depth := default 64 (get8 s 512) in
      let n := (depth + 1) / 2 in
      if negb (len =? 512 + 1 + n) then Throw (runtime_error "invalid PIN node")
      else common ← readCommon s n; Ok (InnerNodeV2 ret common depth)
    else Ok (InnerNode ret).

(** The first four bytes *)
Definition readPrefix (r0 r1 r2 r3 : Z) : Z :=
  let prefix := r0 in
  let prefix := Z.lor (u32 (Z.shiftl prefix 8)) r1 in
  let prefix := Z.lor (u32 (Z.shiftl prefix 8)) r2 in
  Z.lor (u32 (Z.shiftl prefix 8)) r3.

(** The [snfPREFIX] branch of [SHAMapAbstractNode::make] *)
Definition make_prefix (rawNode : list Z) (hash : Z) (hashValid : bool) : result (option AbstractNode) :=
  match rawNode with
  | r0 :: r1 :: r2 :: r3 :: rest =>
      let prefix := readPrefix r0 r1 r2 r3 in
      let s := Serializer.mk rest in
      let done node := Ok (Some (withHash hash hashValid node)) in
      if prefix =? transactionID then
        done (TreeNode (mkItem (sha512Half rawNode) (mData s)) tnTRANSACTION_NM 0)
      else if prefix =? leafNode then
        node ← readKeyed s tnACCOUNT_STATE "short PLN node" (Some "invalid PLN node"); done node
      else if (prefix =? innerNode) || (prefix =? innerNodeV2) then
        node ← readInnerP s (prefix =? innerNodeV2); done node
      else if prefix =? txNode then
        node ← readKeyed s tnTRANSACTION_MD "short TXN node" None; done node
      else Throw (runtime_error "invalid node prefix")
  | _ => Throw (runtime_error "invalid P node")
  end.

Definition make (rawNode : list Z) (format : SHANodeFormat) (hash : Z) (hashValid : bool)
    (id : SHAMapNodeID.t) : result (option AbstractNode) :=
  match format with
  | snfWIRE => make_wire rawNode hash hashValid id
  | snfPREFIX => make_prefix rawNode hash hashValid
  | snfHASH => Throw (runtime_error "Unknown format")
  end.

End make.

(** ** Bytes written *)

Lemma add256_all_data s hs : mData (add256_all s hs) = mData s ++ concat (map (be_bytes 32) hs).
Proof.
  revert s. induction hs as [|h hs IH]; intros s; simpl; [by rewrite app_nil_r|].
  unfold add256_all in *. simpl. rewrite IH. simpl. by rewrite <- app_assoc.
Qed.

Lemma add8_all_data s l : mData (foldl (λ s b, (add8 s b).1) s l) = mData s ++ l.
Proof.
  revert s. induction l as [|b l IH]; intros s; simpl; [by rewrite app_nil_r|].
  rewrite IH. simpl. by rewrite <- app_assoc.
Qed.

(** The branches in use with their hashes *)
Definition entries (n : Inner) : list (Z * Z) :=
  (λ i, (i, getChildHash n i)) <$> filter (λ i, isEmptyBranch n i = false) branches.

Definition entry_bytes (e : Z * Z) : list Z := be_bytes 32 e.2 ++ [e.1].

Lemma addBranch_data n s l :
  mData (foldl (addBranch n) s l) = mData s ++
    concat (entry_bytes <$> ((λ i, (i, getChildHash n i)) <$> filter (λ i, isEmptyBranch n i = false) l)).
Proof.
  revert s. induction l as [|i l IH]; intros s; cbn [foldl]; [by rewrite app_nil_r|].
  rewrite IH. unfold addBranch. destruct (isEmptyBranch n i) eqn:E; cbn [negb].
  - by rewrite filter_cons_False by (rewrite E; done).
  - rewrite filter_cons_True by done. cbn. by rewrite <- !app_assoc.
Qed.

Lemma add32_data s i : mData (add32 s i).1 = mData s ++ be_bytes 4 i.
Proof. by rewrite add32_bytes. Qed.

(** ** Reading bytes *)

Lemma get256_at a v b off :
  is_uint256 v → Z.of_nat (length (a ++ be_bytes 32 v ++ b)) < 2 ^ 31 → off = Z.of_nat (length a) →
  get256 (Serializer.mk (a ++ be_bytes 32 v ++ b)) off = Some v.
Proof.
  intros Hv Hl ->. unfold get256, getBitString. change (256 / 8)%nat with 32%nat.
  rewrite !length_app, length_be_bytes in Hl. cbn [mData]. rewrite !length_app, length_be_bytes.
  unwrap. rewrite (proj2 (Z.leb_le _ _)) by lia.
  rewrite Nat2Z.id, drop_app_length, take_app_length' by (by rewrite length_be_bytes).
  f_equal. apply be_bytes_small. exact Hv.
Qed.

Lemma get8_at a v b off :
  Z.of_nat (length (a ++ v :: b)) < 2 ^ 31 → off = Z.of_nat (length a) →
  get8 (Serializer.mk (a ++ v :: b)) off = Some v.
Proof.
  intros Hl ->. unfold get8. rewrite length_app in Hl. cbn [mData length] in *. rewrite length_app. cbn [length].
  unwrap. rewrite Z.geb_leb, (proj2 (Z.leb_gt _ _)) by lia.
  by rewrite Nat2Z.id, lookup_app_r, Nat.sub_diag by lia.
Qed.

Lemma chop_at l a : Z.of_nat (length (l ++ a)) < 2 ^ 31 →
  chop (Serializer.mk (l ++ a)) (Z.of_nat (length a)) = Some (Serializer.mk l).
Proof.
  intros Hl. unfold chop. rewrite length_app in Hl. cbn [mData]. rewrite length_app. unwrap.
  rewrite Z.gtb_ltb, (proj2 (Z.ltb_ge _ _)) by lia. rewrite Nat2Z.id.
  replace (length l + length a - length a)%nat with (length l) by lia.
  by rewrite take_app_length.
Qed.

Lemma getLength_small l : Z.of_nat (length l) < 2 ^ 31 → getLength (Serializer.mk l) = Z.of_nat (length l).
Proof. intros. unfold getLength. cbn [mData]. by unwrap. Qed.

(** ** Branches *)

(** The bit mask of the hashes that are not zero, among the first [j] *)
Fixpoint mask (hs : list Z) (j : nat) : Z :=
  match j with
  | O => 0
  | S j => if negb (default 0 (hs !! j) =? 0) then Z.lor (mask hs j) (Z.shiftl 1 (Z.of_nat j)) else mask hs j
  end.

Record valid_inner (n : Inner) : Prop := {
  vi_length : length (mHashes n) = 16%nat;
  vi_hashes : Forall is_uint256 (mHashes n);
  vi_mask : mIsBranch n = mask (mHashes n) 16 }.

Lemma mask_testbit hs j i : 0 ≤ i →
  Z.testbit (mask hs j) i = bool_decide (i < Z.of_nat j) && negb (default 0 (hs !! Z.to_nat i) =? 0).
Proof.
  intros Hi. induction j as [|j IH]; cbn [mask].
  { rewrite Z.testbit_0_l. by rewrite bool_decide_false by lia. }
  destruct (decide (i = Z.of_nat j)) as [->|Hne].
  - rewrite Nat2Z.id in *. rewrite bool_decide_true by lia. rewrite bool_decide_false in IH by lia.
    destruct (default 0 (hs !! j) =? 0); cbn [negb andb] in *; [done|].
    by rewrite Z.lor_spec, IH, Z.shiftl_spec, Z.sub_diag by lia.
  - replace (bool_decide (i < Z.of_nat (S j))) with (bool_decide (i < Z.of_nat j))
      by (apply bool_decide_ext; lia).
    rewrite <- IH. case_if; [|done]. rewrite Z.lor_spec, Z.shiftl_1_l, Z.pow2_bits_false by lia.
    by rewrite orb_false_r.
Qed.

Lemma isEmptyBranch_valid n i :
  valid_inner n → 0 ≤ i < 16 → isEmptyBranch n i = (getChildHash n i =? 0).
Proof.
  intros [_ _ Hm] Hi. unfold isEmptyBranch, getChildHash.
  pose proof (mask_testbit (mHashes n) 16 i ltac:(lia)) as Ht. rewrite <- Hm in Ht.
  rewrite bool_decide_true in Ht by lia. cbn [andb] in Ht.
  set (z := (default 0 (mHashes n !! Z.to_nat i) =? 0)) in *.
  destruct (Z.land (mIsBranch n) (Z.shiftl 1 i) =? 0) eqn:E; zb.
  - apply (f_equal (λ x, Z.testbit x i)) in E. rewrite Z.land_spec, Z.shiftl_spec, Z.sub_diag, Ht in E by lia.
    rewrite Z.testbit_0_l in E. by destruct z.
  - destruct z; [|done]. exfalso. apply E. apply Z.bits_inj_0. intros m.
    rewrite Z.land_spec, Z.shiftl_1_l. destruct (decide (m = i)) as [->|]; [by rewrite Ht|].
    rewrite Z.pow2_bits_false by lia. apply andb_false_r.
Qed.

Definition put (n : Inner) (pos h : Z) : Inner :=
  mkInner (<[Z.to_nat pos := h]> (mHashes n))
    (if negb (h =? 0) then Z.lor (mIsBranch n) (Z.shiftl 1 pos) else mIsBranch n) (mHash n).

Lemma readBranch_put s n pos offset h : get256 s offset = Some h → readBranch s n pos offset = put n pos h.
Proof. intros E. unfold readBranch. by rewrite E. Qed.

(** An inner node after the first [j] branches were read *)
Definition partial (hs : list Z) (j : nat) : Inner :=
  mkInner (take j hs ++ replicate (16 - j) 0) (mask hs j) 0.

Lemma put_partial hs j h :
  length hs = 16%nat → hs !! j = Some h → put (partial hs j) (Z.of_nat j) h = partial hs (S j).
Proof.
  intros Hl Hj. pose proof (lookup_lt_Some _ _ _ Hj). unfold put, partial. cbn [mHashes mIsBranch mHash mask].
  rewrite Hj, Nat2Z.id. f_equal.
  rewrite insert_app_r_alt by (rewrite length_take; lia). rewrite length_take.
  replace (j - j `min` length hs)%nat with 0%nat by lia.
  replace (16 - j)%nat with (S (16 - S j)) by lia. cbn [replicate insert list_insert].
  by rewrite (take_S_r _ _ h), <- app_assoc by done.
Qed.

Lemma skip_partial hs j :
  length hs = 16%nat → hs !! j = Some 0 → partial hs j = partial hs (S j).
Proof.
  intros Hl Hj. rewrite <- (put_partial hs j 0) by done. unfold put, partial. cbn [mHashes mIsBranch mHash].
  pose proof (lookup_lt_Some _ _ _ Hj). f_equal. rewrite Nat2Z.id.
  rewrite list_insert_id; [done|]. rewrite lookup_app_r, length_take by (rewrite length_take; lia).
  apply lookup_replicate_2. lia.
Qed.

Lemma partial_full hs : length hs = 16%nat → partial hs 16 = mkInner hs (mask hs 16) 0.
Proof.
  intros Hl. unfold partial. f_equal. rewrite take_ge by lia. apply app_nil_r.
Qed.

Lemma foldl_branches {A} (f : A → Z → A) (P : nat → A) :
  (∀ j, (j < 16)%nat → f (P j) (Z.of_nat j) = P (S j)) → foldl f (P 0%nat) branches = P 16%nat.
Proof.
  intros Hf. change branches with (Z.of_nat <$> seq 0 16).
  assert (∀ m j, (j + m ≤ 16)%nat → foldl f (P j) (Z.of_nat <$> seq j m) = P (j + m)%nat) as Hm.
  { induction m as [|m IH]; intros j Hj; cbn; [by rewrite Nat.add_0_r|].
    rewrite Hf by lia. rewrite (IH (S j)) by lia. f_equal. lia. }
  by apply (Hm 16%nat 0%nat).
Qed.

Lemma concat_split (l : list (list Z)) i x k :
  l !! i = Some x → Forall (λ y, length y = k) l →
  ∃ a b, concat l = a ++ x ++ b ∧ length a = (i * k)%nat.
Proof.
  intros Hi Hk. exists (concat (take i l)), (concat (drop (S i) l)). split.
  - rewrite <- (take_drop_middle l i x Hi) at 1. by rewrite concat_app.
  - pose proof (lookup_lt_Some _ _ _ Hi). clear x Hi. revert l Hk H.
    induction i as [|i IH]; intros [|y l] Hk Hl; cbn in *; try lia.
    apply Forall_cons in Hk as [Hy Hk]. rewrite length_app, Hy, IH by (done || lia). done.
Qed.

Lemma readFull_spec hs tail :
  length hs = 16%nat → Forall is_uint256 hs → Z.of_nat (length tail) < 2 ^ 30 →
  readFull (Serializer.mk (concat (map (be_bytes 32) hs) ++ tail)) = mkInner hs (mask hs 16) 0.
Proof.
  intros Hl Hu Ht. unfold readFull. rewrite <- partial_full by done.
  apply (foldl_branches _ (partial hs)). intros j Hj.
  destruct (lookup_lt_is_Some_2 hs j) as [h Hh]; [lia|].
  rewrite <- (put_partial hs j h) by done. apply readBranch_put.
  destruct (concat_split (map (be_bytes 32) hs) j (be_bytes 32 h) 32) as (a & b & E & Ea).
  { by rewrite list_lookup_fmap, Hh. }
  { apply Forall_map, Forall_forall. intros. apply length_be_bytes. }
  assert (length (concat (map (be_bytes 32) hs)) = 512%nat) as Hc.
  { clear -Hl. do 16 (destruct hs as [|? hs]; [done|]). destruct hs; [|done].
    cbn [map concat]. by rewrite !length_app, !length_be_bytes. }
  rewrite E, <- !app_assoc. rewrite E in Hc. rewrite !length_app, length_be_bytes in Hc. apply get256_at.
  - rewrite Forall_lookup in Hu. by eapply Hu.
  - rewrite !length_app, length_be_bytes. lia.
  - lia.
Qed.

Definition valid_entry (e : Z * Z) : Prop := 0 ≤ e.1 < 16 ∧ is_uint256 e.2.

Lemma length_entry_bytes e : length (entry_bytes e) = 33%nat.
Proof. unfold entry_bytes. by rewrite length_app, length_be_bytes. Qed.

Lemma length_entries_bytes es : length (concat (entry_bytes <$> es)) = (33 * length es)%nat.
Proof.
  induction es as [|e es IH]; [done|]. cbn [fmap list_fmap concat length].
  rewrite length_app, length_entry_bytes, IH. lia.
Qed.

Lemma readCompressed1_spec es j e n :
  Forall valid_entry es → (length es ≤ 16)%nat → es !! j = Some e →
  readCompressed1 (Serializer.mk (concat (entry_bytes <$> es))) n (Z.of_nat j) = Ok (put n e.1 e.2).
Proof.
  intros Hv Hl He. destruct e as [pos h].
  assert (valid_entry (pos, h)) as [Hpos Hh] by (rewrite Forall_lookup in Hv; by eapply Hv).
  cbn [fst snd] in *. unfold readCompressed1.
  destruct (concat_split (entry_bytes <$> es) j (entry_bytes (pos, h)) 33) as (a & b & E & Ea).
  { by rewrite list_lookup_fmap, He. }
  { apply Forall_fmap, Forall_forall. intros. apply length_entry_bytes. }
  pose proof (length_entries_bytes es) as Hlen. rewrite E in *. unfold entry_bytes in *. cbn [fst snd] in *.
  rewrite <- app_assoc in *. cbn [app] in *. rewrite !length_app, length_be_bytes in Hlen. cbn [length] in Hlen.
  rewrite app_assoc. rewrite get8_at.
  2: { rewrite !length_app, length_be_bytes. cbn [length]. lia. }
  2: { rewrite !length_app, length_be_bytes. lia. }
  rewrite <- app_assoc. destruct (Z.ltb_spec pos 0); [lia|]. rewrite Z.geb_leb.
  destruct (Z.leb_spec 16 pos); [lia|]. cbn [orb]. f_equal. apply readBranch_put.
  apply get256_at; [done| |lia].
  rewrite !length_app, length_be_bytes. cbn [length]. lia.
Qed.

Lemma readCompressed_spec es :
  Forall valid_entry es → (length es ≤ 16)%nat →
  readCompressed (Serializer.mk (concat (entry_bytes <$> es))) (33 * Z.of_nat (length es)) =
    Ok (foldl (λ n e, put n e.1 e.2) newInner es).
Proof.
  intros Hv Hl. unfold readCompressed.
  rewrite (Z.mul_comm 33), Z.div_mul by lia. unfold seqZ. rewrite Nat2Z.id.
  assert (∀ j, (j ≤ length es)%nat →
    foldl (λ r i, n ← r; readCompressed1 (Serializer.mk (concat (entry_bytes <$> es))) n i) (Ok newInner)
      ((λ i, Z.of_nat i + 0) <$> seq 0 j) = Ok (foldl (λ n e, put n e.1 e.2) newInner (take j es))) as Hj.
  { induction j as [|j IH]; intros Hj; [done|].
    destruct (lookup_lt_is_Some_2 es j) as [e He]; [lia|].
    rewrite seq_S, fmap_app, foldl_app, IH by lia. rewrite (take_S_r _ _ e) by done. rewrite foldl_app.
    cbn [foldl fmap list_fmap]. rewrite ok_bind. rewrite Z.add_0_r, Nat.add_0_l. by apply readCompressed1_spec. }
  rewrite Hj by done. by rewrite firstn_all.
Qed.

Lemma foldl_filter {A B} (P : B → Prop) `{∀ x, Decision (P x)} (f : A → B → A) l a :
  foldl f a (filter P l) = foldl (λ a x, if decide (P x) then f a x else a) a l.
Proof.
  revert a. induction l as [|x l IH]; intros a; [done|]. rewrite filter_cons. cbn [foldl].
  case_decide; cbn [foldl]; apply IH.
Qed.

Lemma getChildHash_lookup n j : length (mHashes n) = 16%nat → (j < 16)%nat →
  mHashes n !! j = Some (getChildHash n (Z.of_nat j)).
Proof.
  intros Hl Hj. unfold getChildHash. rewrite Nat2Z.id.
  destruct (lookup_lt_is_Some_2 (mHashes n) j) as [h ->]; [lia|done].
Qed.

Lemma entries_valid n : valid_inner n → Forall valid_entry (entries n) ∧ (length (entries n) ≤ 16)%nat.
Proof.
  intros [Hl Hu Hm]. unfold entries. split.
  - apply Forall_fmap, Forall_forall. intros i Hi. apply list_elem_of_filter in Hi as [_ Hi].
    apply elem_of_seqZ in Hi. split; cbn [compose fst snd]; [lia|].
    rewrite Forall_lookup in Hu. apply (Hu (Z.to_nat i)).
    rewrite (getChildHash_lookup n) by (done || lia). by rewrite Z2Nat.id by lia.
  - rewrite length_fmap. etransitivity; [apply length_filter|done].
Qed.

Lemma entries_put n : valid_inner n →
  foldl (λ n e, put n e.1 e.2) newInner (entries n) = mkInner (mHashes n) (mIsBranch n) 0.
Proof.
  intros Hv. pose proof Hv as [Hl Hu Hm]. unfold entries. rewrite foldl_fmap, foldl_filter. cbn [fst snd].
  rewrite Hm, <- partial_full by done. apply (foldl_branches _ (partial (mHashes n))). intros j Hj.
  pose proof (getChildHash_lookup n j Hl Hj) as Hh.
  rewrite isEmptyBranch_valid by (done || lia). case_decide as E; zb.
  - by apply put_partial.
  - apply not_false_is_true in E. zb. rewrite E in Hh. by apply skip_partial.
Qed.

(** ** Reading back what was written *)

Lemma writeCommon_spec bs s i b :
  length bs = 32%nat → Forall is_byte bs → bs !! i = Some b → get8 s (513 + Z.of_nat i) = Some b →
  writeCommon s (be_val (take i bs ++ replicate (32 - i) 0)) (Z.of_nat i) =
    Ok (be_val (take (S i) bs ++ replicate (32 - S i) 0)).
Proof.
  intros Hl Hb Hi Hg. pose proof (lookup_lt_Some _ _ _ Hi). unfold writeCommon.
  rewrite (proj2 (Z.ltb_lt _ _)), Hg by lia. cbv zeta. change (default 0 (Some b)) with b. do 2 f_equal.
  assert (u8 b = b) as ->. { rewrite Forall_lookup in Hb. apply wrapu_id. apply (Hb i b Hi). }
  set (l := take i bs ++ replicate (32 - i) 0).
  assert (length l = 32%nat) as Hll by (unfold l; rewrite length_app, length_take, length_replicate; lia).
  replace (be_bytes 32 (be_val l)) with l.
  2: { rewrite <- Hll at 1. rewrite be_bytes_be_val; [done|]. apply Forall_app. split; [by apply Forall_take|].
       apply Forall_replicate. unfold is_byte. lia. }
  unfold l. rewrite Nat2Z.id. rewrite insert_app_r_alt by (rewrite length_take; lia). rewrite length_take.
  replace (i - i `min` length bs)%nat with 0%nat by lia.
  replace (32 - i)%nat with (S (32 - S i)) by lia. cbn [replicate insert list_insert].
  by rewrite (take_S_r _ _ b), <- app_assoc by done.
Qed.

Lemma readCommon_spec bs s k :
  length bs = 32%nat → Forall is_byte bs → (k ≤ 32)%nat →
  (∀ i, (i < k)%nat → get8 s (513 + Z.of_nat i) = bs !! i) →
  readCommon s (Z.of_nat k) = Ok (be_val (take k bs ++ replicate (32 - k) 0)).
Proof.
  intros Hl Hb Hk Hg. unfold readCommon, seqZ. rewrite Nat2Z.id.
  induction k as [|k IH]; [done|].
  rewrite seq_S, fmap_app, foldl_app, IH by (lia || intros; apply Hg; lia).
  cbn [foldl fmap list_fmap]. rewrite ok_bind, Nat.add_0_l, Z.add_0_r.
  destruct (lookup_lt_is_Some_2 bs k) as [b E]; [lia|].
  apply writeCommon_spec with b; [done..|]. by rewrite Hg by lia.
Qed.

Section roundtrip.
Context (sha512Half : list Z → Z).
Abbreviation make := (make sha512Half).
Abbreviation withHash := (withHash sha512Half).

(** What the code keeps true of a node *)
Definition valid (node : AbstractNode) : Prop :=
  match node with
  | TreeNode item type _ =>
      Z.of_nat (length (data_ item)) < 2 ^ 30 ∧
      match type with
      | tnTRANSACTION_NM => tag_ item = sha512Half (be_bytes 4 transactionID ++ data_ item)
      | _ => is_uint256 (tag_ item) ∧ tag_ item ≠ 0
      end
  | InnerNode n => valid_inner n
  | InnerNodeV2 n common depth =>
      valid_inner n ∧ 0 ≤ depth ≤ 64 ∧
      ∃ bs, length bs = Z.to_nat ((depth + 1) / 2) ∧ Forall is_byte bs ∧
        common = be_val (bs ++ replicate (32 - length bs) 0)
  end.

(** The node identifier a version 2 inner node takes its prefix from on the wire *)
Definition placed (node : AbstractNode) (id : SHAMapNodeID.t) : Prop :=
  match node with
  | InnerNodeV2 _ common depth => id = SHAMapNodeID.mk common depth
  | _ => True
  end.

Lemma readKeyed_spec item type short invalid :
  Z.of_nat (length (data_ item)) < 2 ^ 30 → is_uint256 (tag_ item) → tag_ item ≠ 0 →
  readKeyed (Serializer.mk (data_ item ++ be_bytes 32 (tag_ item))) type short invalid =
    Ok (TreeNode item type 0).
Proof.
  intros Hl Ht Hz. unfold readKeyed.
  assert (length (data_ item ++ be_bytes 32 (tag_ item)) = (length (data_ item) + 32)%nat) as El
    by by rewrite length_app, length_be_bytes.
  rewrite getLength_small by lia. rewrite El. rewrite (proj2 (Z.ltb_ge _ _)) by lia.
  pose proof (get256_at (data_ item) (tag_ item) [] (Z.of_nat (length (data_ item) + 32) - 32)) as Hg.
  rewrite app_nil_r in Hg. rewrite Hg by (done || lia).
  pose proof (chop_at (data_ item) (be_bytes 32 (tag_ item))) as Hc. rewrite length_be_bytes in Hc.
  change (Z.of_nat 32) with 32 in Hc. rewrite Hc by lia. cbn -[be_bytes].
  rewrite (proj2 (Z.eqb_neq _ _)) by done. destruct item. by destruct invalid.
Qed.

Lemma make_wire_snoc l type hash hv id :
  make_wire sha512Half (l ++ [type]) hash hv id =
    let s := Serializer.mk l in
    let len := getLength s in
    let done node := Ok (Some (withHash hash hv node)) in
    if (type <? 0) || (type >? 6) then Ok None
    else if type =? 0 then
      done (TreeNode (mkItem (sha512Half (be_bytes 4 transactionID ++ l)) l) tnTRANSACTION_NM 0)
    else if type =? 1 then
      node ← readKeyed s tnACCOUNT_STATE "short AS node" (Some "invalid AS node"); done node
    else if type =? 2 then
      if negb (len =? 512) then Throw (runtime_error "invalid FI node") else done (InnerNode (readFull s))
    else if type =? 3 then n ← readCompressed s len; done (InnerNode n)
    else if type =? 4 then
      node ← readKeyed s tnTRANSACTION_MD "short TM node" (Some "invalid TM node"); done node
    else if type =? 5 then
      if negb (len =? 512) then Throw (runtime_error "invalid FI node")
      else done (InnerNodeV2 (readFull s) (SHAMapNodeID.mNodeID id) (SHAMapNodeID.mDepth id))
    else n ← readCompressed s len; done (InnerNodeV2 n (SHAMapNodeID.mNodeID id) (SHAMapNodeID.mDepth id)).
Proof.
  unfold make_wire. rewrite last_snoc, length_app. cbn [length].
  replace (length l + 1 - 1)%nat with (length l) by lia. by rewrite take_app_length.
Qed.

Lemma length_hashes hs : length hs = 16%nat → length (concat (map (be_bytes 32) hs)) = 512%nat.
Proof.
  intros Hl. do 16 (destruct hs as [|? hs]; [done|]). destruct hs; [|done].
  cbn [map concat]. by rewrite !length_app, !length_be_bytes.
Qed.

Lemma inner_wire n :
  valid_inner n → ∃ l type, mData (addRaw_inner n (Serializer.mk []) snfWIRE) = l ++ [type] ∧
    let s := Serializer.mk l in
    let n0 := mkInner (mHashes n) (mIsBranch n) 0 in
    (type = 3 ∧ readCompressed s (getLength s) = Ok n0) ∨
    (type = 2 ∧ getLength s = 512 ∧ readFull s = n0).
Proof.
  intros Hv. pose proof Hv as [Hl Hu Hm]. unfold addRaw_inner. case_if.
  - eexists _, _. split; [reflexivity|]. left. split; [done|].
    rewrite addBranch_data. cbn [mData app]. fold (entries n).
    destruct (entries_valid n Hv) as [He Hle]. rewrite <- (entries_put n Hv), <- readCompressed_spec by done.
    f_equal. rewrite getLength_small; rewrite length_entries_bytes; lia.
  - eexists _, _. split; [reflexivity|]. right. split; [done|].
    rewrite add256_all_data. cbn [mData app]. split.
    + rewrite getLength_small; by rewrite (length_hashes _ Hl).
    + pose proof (readFull_spec (mHashes n) [] Hl Hu) as Hr. rewrite app_nil_r in Hr. rewrite Hr by done.
      by rewrite <- Hm.
Qed.

Lemma make_wire_spec node hash hv id :
  valid node → placed node id →
  make (mData (addRaw node (Serializer.mk []) snfWIRE)) snfWIRE hash hv id =
    Ok (Some (withHash hash hv (setHash node 0))).
Proof.
  destruct node as [item type h|n|n common depth]; cbn [valid placed addRaw SHAMapTreeNode.make setHash].
  - intros [Hl Ht] _. destruct type; cbn [addRaw_tree].
    + cbn [add8 Serializer.addRaw push mData fst app]. rewrite make_wire_snoc. cbn -[be_bytes transactionID].
      rewrite <- Ht. by destruct item.
    + cbn [add8 Serializer.addRaw add256 addBitString push mData fst app]. rewrite make_wire_snoc.
      cbn -[be_bytes transactionID readKeyed]. by rewrite readKeyed_spec by apply Hl || apply Ht.
    + cbn [add8 Serializer.addRaw add256 addBitString push mData fst app]. rewrite make_wire_snoc.
      cbn -[be_bytes transactionID readKeyed]. by rewrite readKeyed_spec by apply Hl || apply Ht.
  - intros Hv _. destruct (inner_wire n Hv) as (l & type & -> & [[-> Hr]|(-> & Hl & Hr)]);
      rewrite make_wire_snoc; cbn -[readCompressed readFull getLength].
    + by rewrite Hr.
    + by rewrite Hl, Hr.
  - intros (Hv & Hd & _) ->. unfold addRaw_innerV2. cbn [mData].
    destruct (inner_wire n Hv) as (l & type & -> & [[-> Hr]|(-> & Hl & Hr)]); unfold bump_last;
      rewrite last_snoc, length_app; cbn [length];
      replace (length l + 1 - 1)%nat with (length l) by lia; rewrite take_app_length, make_wire_snoc;
      cbn -[readCompressed readFull getLength].
    + by rewrite Hr.
    + by rewrite Hl, Hr.
Qed.

Lemma readInnerP_v1 n :
  valid_inner n →
  readInnerP (Serializer.mk (concat (map (be_bytes 32) (mHashes n)))) false =
    Ok (InnerNode (mkInner (mHashes n) (mIsBranch n) 0)).
Proof.
  intros [Hl Hu Hm]. unfold readInnerP.
  rewrite getLength_small by (by rewrite (length_hashes _ Hl)). rewrite (length_hashes _ Hl).
  pose proof (readFull_spec (mHashes n) [] Hl Hu) as Hr. rewrite app_nil_r in Hr. cbn -[readFull be_bytes].
  rewrite Hr by done. by rewrite <- Hm.
Qed.

Lemma readInnerP_v2 n bs depth :
  valid_inner n → 0 ≤ depth ≤ 64 → length bs = Z.to_nat ((depth + 1) / 2) → Forall is_byte bs →
  readInnerP (Serializer.mk (concat (map (be_bytes 32) (mHashes n)) ++ depth :: bs)) true =
    Ok (InnerNodeV2 (mkInner (mHashes n) (mIsBranch n) 0)
          (be_val (bs ++ replicate (32 - length bs) 0)) depth).
Proof.
  intros [Hl Hu Hm] Hd Hbs Hb. unfold readInnerP.
  assert ((depth + 1) / 2 < 33) by (apply Z.div_lt_upper_bound; lia).
  assert (0 ≤ (depth + 1) / 2) by (apply Z.div_pos; lia).
  assert (length (concat (map (be_bytes 32) (mHashes n)) ++ depth :: bs) = (513 + length bs)%nat) as Elen.
  { rewrite length_app, (length_hashes _ Hl). cbn [length]. lia. }
  rewrite getLength_small by (rewrite Elen; lia). rewrite Elen.
  rewrite (get8_at _ depth bs 512) by first [rewrite Elen; lia | rewrite (length_hashes _ Hl); lia].
  rewrite readFull_spec by first [done | cbn [length]; lia]. cbn [negb andb orb].
  destruct (Z.ltb_spec (Z.of_nat (513 + length bs)) 512); [lia|].
  destruct (Z.eqb_spec (Z.of_nat (513 + length bs)) 512); [lia|]. cbn [orb]. cbv zeta.
  unfold id. cbn [from_option].
  destruct (Z.eqb_spec (Z.of_nat (513 + length bs)) (512 + 1 + (depth + 1) / 2)); [|lia]. cbn [negb].
  replace ((depth + 1) / 2) with (Z.of_nat (length bs)) by lia.
  set (full := bs ++ replicate (32 - length bs) 0).
  rewrite (readCommon_spec full).
  - rewrite ok_bind. unfold full at 1. rewrite take_app_length. by rewrite Hm.
  - unfold full. rewrite length_app, length_replicate. lia.
  - unfold full. apply Forall_app. split; [done|]. apply Forall_replicate. unfold is_byte. lia.
  - lia.
  - intros i Hi. destruct (lookup_lt_is_Some_2 bs i Hi) as [b Eb].
    unfold full. rewrite lookup_app_l, Eb by done. rewrite <- (take_drop_middle bs i b Eb).
    rewrite app_comm_cons, app_assoc. apply get8_at.
    + rewrite <- app_assoc. cbn [app]. rewrite (take_drop_middle bs i b Eb), Elen. lia.
    + rewrite length_app, (length_hashes _ Hl). cbn [length]. rewrite length_take. lia.
Qed.

Ltac eval_prefix :=
  cbn [app]; unfold make_prefix; cbv zeta;
  repeat match goal with
  | |- context [?a =? ?b] => first [change (a =? b) with true | change (a =? b) with false]
  end; cbn [orb mData].

Lemma make_prefix_spec node hash hv id :
  valid node →
  make (mData (addRaw node (Serializer.mk []) snfPREFIX)) snfPREFIX hash hv id =
    Ok (Some (withHash hash hv (setHash node 0))).
Proof.
  destruct node as [item type h|n|n common depth]; cbn [valid addRaw SHAMapTreeNode.make setHash].
  - intros [Hl Ht]. destruct type; cbn [addRaw_tree]; unfold add256, addBitString, Serializer.addRaw, push;
      cbn [mData fst]; rewrite add32_data; cbn [mData app].
    + change (be_bytes 4 transactionID) with [84; 88; 78; 0] in *. eval_prefix. cbn [app] in Ht.
      rewrite <- Ht. by destruct item.
    + change (be_bytes 4 txNode) with [83; 78; 68; 0]. rewrite <- app_assoc. eval_prefix.
      by rewrite readKeyed_spec by apply Hl || apply Ht.
    + change (be_bytes 4 leafNode) with [77; 76; 78; 0]. rewrite <- app_assoc. eval_prefix.
      by rewrite readKeyed_spec by apply Hl || apply Ht.
  - intros Hv. cbn [addRaw_inner]. rewrite add256_all_data, add32_data. cbn [mData app].
    change (be_bytes 4 innerNode) with [77; 73; 78; 0]. eval_prefix.
    by rewrite (readInnerP_v1 n Hv).
  - intros (Hv & Hd & bs & Hbs & Hb & ->). cbn [addRaw_innerV2].
    rewrite add8_all_data. unfold add8, push. cbn [mData fst]. rewrite add256_all_data, add32_data.
    cbn [mData app]. change (be_bytes 4 innerNodeV2) with [73; 78; 82; 0].
    assert (map (getChildHash n) branches = mHashes n) as ->.
    { destruct Hv as [Hl _ _]. unfold getChildHash. clear -Hl. destruct n as [hs m h]. cbn [mHashes] in *.
      do 16 (destruct hs as [|? hs]; [done|]). by destruct hs. }
    assert ((depth + 1) / 2 < 33) by (apply Z.div_lt_upper_bound; lia).
    assert (take (Z.to_nat ((depth + 1) / 2)) (be_bytes 32 (be_val (bs ++ replicate (32 - length bs) 0))) = bs) as ->.
    { set (full := bs ++ _). assert (length full = 32%nat) as Hf.
      { unfold full. rewrite length_app, length_replicate. lia. }
      rewrite <- Hf. rewrite be_bytes_be_val.
      - unfold full. rewrite <- Hbs. by rewrite take_app_length.
      - apply Forall_app. split; [done|]. apply Forall_replicate. unfold is_byte. lia. }
    rewrite (wrapu_id 8 depth) by wrap_solve.
    rewrite <- !app_assoc. eval_prefix.
    rewrite (readInnerP_v2 n bs depth Hv Hd Hbs Hb). done.
Qed.

Lemma withHash_id node hash :
  computeHash sha512Half node = getNodeHash node →
  withHash (getNodeHash node) true (setHash node 0) = node ∧
  withHash hash false (setHash node 0) = node.
Proof.
  intros E. split; [by destruct node as [|[]|[]]|].
  unfold withHash, updateHash.
  assert (computeHash sha512Half (setHash node 0) = computeHash sha512Half node) as -> by by destruct node.
  rewrite E. destruct node as [item type h|[hs m h]|[hs m h] c d]; cbn [getNodeHash setHash mHash];
    by destruct (Z.eqb_spec h 0); subst.
Qed.

(** C34: A node read back from the bytes it was written to, in the stored or in the wire
    form, is the node, whether the reader knows its hash or computes it. *)
Theorem node_roundtrip node format id hash :
  valid node → placed node id → format ≠ snfHASH →
  computeHash sha512Half node = getNodeHash node →
  make (mData (addRaw node (Serializer.mk []) format)) format (getNodeHash node) true id = Ok (Some node) ∧
  make (mData (addRaw node (Serializer.mk []) format)) format hash false id = Ok (Some node).
Proof.
  intros Hv Hp Hf Hh. destruct (withHash_id node hash Hh) as [E1 E2].
  destruct format; [rewrite !make_prefix_spec by done|rewrite !make_wire_spec by done|done].
  all: by rewrite E1, E2.
Qed.

(** The stored form of a node is the form that hashes to its hash. *)
Theorem node_hash_of_prefix node :
  valid node → match node with InnerNode n | InnerNodeV2 n _ _ => isEmpty n = false | _ => True end →
  computeHash sha512Half node = sha512Half (mData (addRaw node (Serializer.mk []) snfPREFIX)).
Proof.
  destruct node as [item type h|n|n c d]; intros Hv He; unfold isEmpty in *; cbn [computeHash addRaw].
  - destruct type; cbn [addRaw_tree]; unfold add256, addBitString, Serializer.addRaw, push; cbn [mData fst];
      rewrite add32_data; cbn [mData app]; by rewrite <- ?app_assoc.
  - rewrite He. cbn [addRaw_inner]. by rewrite add256_all_data, add32_data.
  - by rewrite He.
Qed.

(** ** The prefix of a version 2 inner node *)

Lemma foldl_throw {A} (f : A → Z → result A) l e :
  foldl (λ r i, a ← r; f a i) (Throw e) l = Throw e.
Proof. by induction l. Qed.

Lemma readCommon_ok s n : (n ≤ 32)%nat → ∃ c, readCommon s (Z.of_nat n) = Ok c.
Proof.
  unfold readCommon, seqZ. rewrite Nat2Z.id. induction n as [|n IH]; intros Hn; [by exists 0|].
  destruct IH as [c Hc]; [lia|]. rewrite seq_S, fmap_app, foldl_app, Hc. cbn [foldl fmap list_fmap].
  rewrite ok_bind. unfold writeCommon. rewrite (proj2 (Z.ltb_lt _ _)) by lia. by eexists.
Qed.

Lemma readCommon_undefined s n :
  32 < n → readCommon s n = Throw (undefined_behaviour "write beyond common_").
Proof.
  intros Hn. unfold readCommon. replace n with (32 + (1 + (n - 33))) by lia.
  rewrite seqZ_app, foldl_app by lia. destruct (readCommon_ok s 32 (le_n _)) as [c Hc].
  unfold readCommon in Hc. change (Z.of_nat 32) with 32 in Hc. rewrite Hc.
  rewrite seqZ_app, foldl_app by lia. cbn -[seqZ]. apply foldl_throw.
Qed.

Lemma readInnerP_undefined rest isV2 w :
  Z.of_nat (length rest) < 2 ^ 31 → Forall is_byte rest →
  readInnerP (Serializer.mk rest) isV2 = Throw (undefined_behaviour w) ↔
  w = "write beyond common_"%string ∧ isV2 = true ∧
  ∃ depth, rest !! 512%nat = Some depth ∧ 64 < depth ∧ Z.of_nat (length rest) = 513 + (depth + 1) / 2.
Proof.
  intros Hl Hb. unfold readInnerP. rewrite getLength_small by done.
  destruct (decide (512 < Z.of_nat (length rest))) as [Hlt|Hge].
  2: { split.
       - case_if; [done|]. zb. destruct isV2; cbn [negb andb] in *; [|done]. zb. lia.
       - intros (_ & _ & depth & Hd & _). apply lookup_lt_Some in Hd. lia. }
  destruct (Z.ltb_spec (Z.of_nat (length rest)) 512); [lia|].
  destruct (Z.eqb_spec (Z.of_nat (length rest)) 512); [lia|].
  destruct isV2; cbn [negb andb orb]; [|naive_solver].
  destruct (lookup_lt_is_Some_2 rest 512) as [depth Hd]; [lia|].
  assert (0 ≤ depth < 256) as Hd8 by (rewrite Forall_lookup in Hb; by eapply Hb).
  assert (get8 (Serializer.mk rest) 512 = Some depth) as ->.
  { unfold get8. cbn [mData]. rewrite Z.geb_leb, wrapu_id by wrap_solve.
    by rewrite (proj2 (Z.leb_gt _ _)) by lia. }
  unfold id. cbn [from_option]. rewrite Hd.
  destruct (Z.eqb_spec (Z.of_nat (length rest)) (512 + 1 + (depth + 1) / 2)) as [El|Hne]; cbn [negb].
  2: { split; [done|]. intros (_ & _ & d & [= <-] & ? & ?). lia. }
  destruct (decide (64 < depth)) as [Hgt|Hle].
  - rewrite readCommon_undefined; [|apply Z.le_succ_l, Z.div_le_lower_bound; lia].
    cbn. split; [intros [= <-]|intros (-> & _)]; naive_solver lia.
  - assert ((depth + 1) / 2 < 33) by (apply Z.div_lt_upper_bound; lia).
    assert (0 ≤ (depth + 1) / 2) by (apply Z.div_pos; lia).
    destruct (readCommon_ok (Serializer.mk rest) (Z.to_nat ((depth + 1) / 2))) as [c Hc]; [lia|].
    rewrite Z2Nat.id in Hc by lia. rewrite Hc. split; [done|]. intros (_ & _ & d & [= <-] & ? & ?). lia.
Qed.

Lemma readPrefix_be_val r0 r1 r2 r3 :
  Forall is_byte [r0; r1; r2; r3] → readPrefix r0 r1 r2 r3 = be_val [r0; r1; r2; r3].
Proof.
  rewrite !Forall_cons. unfold is_byte. intros (H0 & H1 & H2 & H3 & _).
  assert (∀ a b, 0 ≤ a < 2 ^ 24 → 0 ≤ b < 256 → Z.lor (u32 (Z.shiftl a 8)) b = a * 256 + b) as E.
  { intros a b Ha Hb. rewrite Z.shiftl_mul_pow2 by lia. unwrap. apply (lor_high_low a b 8); lia. }
  unfold readPrefix, be_val. cbn [foldl]. rewrite (E r0 r1), (E _ r2), (E _ r3) by lia. lia.
Qed.

Lemma readKeyed_defined s type short invalid w :
  readKeyed s type short invalid ≠ Throw (undefined_behaviour w).
Proof. unfold readKeyed. case_if; [done|]. destruct invalid; [case_if|]; done. Qed.

Lemma readCompressed_defined s len w : readCompressed s len ≠ Throw (undefined_behaviour w).
Proof.
  unfold readCompressed. apply (foldl_invariant (λ r, r ≠ Throw (undefined_behaviour w))); [|done].
  intros [n|e] i _ Hr; cbn; [|congruence]. unfold readCompressed1.
  destruct (get8 _ _); [case_if|]; done.
Qed.

Lemma make_wire_defined raw hash hv id w :
  make_wire sha512Half raw hash hv id ≠ Throw (undefined_behaviour w).
Proof.
  unfold make_wire. destruct (last raw); [|done]. cbv zeta.
  repeat case_if; try done; intros [Ht|(? & _ & ?)]%bind_throw; try done.
  all: by apply readKeyed_defined in Ht || apply readCompressed_defined in Ht.
Qed.

(** C35: Reading a node is defined for every input of bytes but one kind: the stored form
    of a version 2 inner node whose depth is beyond 64, with as many prefix bytes as the
    depth asks for.  They are written beyond the 32 bytes of [common_]. *)
Theorem make_undefined raw format hash hv id :
  Forall is_byte raw → Z.of_nat (length raw) < 2 ^ 31 →
  (∃ w, make raw format hash hv id = Throw (undefined_behaviour w)) ↔
  format = snfPREFIX ∧ ∃ rest depth, raw = be_bytes 4 innerNodeV2 ++ rest ∧
    rest !! 512%nat = Some depth ∧ 64 < depth ∧ Z.of_nat (length rest) = 513 + (depth + 1) / 2.
Proof.
  intros Hb Hl. destruct format; cbn [SHAMapTreeNode.make]; [|split; [|naive_solver]..].
  2: { intros [w Hw]. by apply make_wire_defined in Hw. }
  2: { by intros [w Hw]. }
  split.
  - intros [w Hw]. split; [done|]. destruct raw as [|r0 [|r1 [|r2 [|r3 rest]]]]; try done.
    change (r0 :: r1 :: r2 :: r3 :: rest) with ([r0; r1; r2; r3] ++ rest) in *.
    apply Forall_app in Hb as [Hp Hr]. rewrite length_app in Hl. unfold make_prefix in Hw. cbn [app] in Hw.
    revert Hw. repeat case_if; try done; intros [Ht|(? & _ & ?)]%bind_throw; try done.
    1, 3: by apply readKeyed_defined in Ht.
    apply readInnerP_undefined in Ht as (_ & Hv2 & depth & ?); [|lia|done].
    zb. rewrite readPrefix_be_val in Hv2 by done. exists rest, depth. split; [|done].
    rewrite <- Hv2. symmetry. f_equal. by apply (be_bytes_be_val [r0; r1; r2; r3]).
  - intros (_ & rest & depth & -> & Hd). exists "write beyond common_"%string.
    apply Forall_app in Hb as [_ Hr]. rewrite length_app in Hl.
    change (be_bytes 4 innerNodeV2) with [73; 78; 82; 0]. eval_prefix.
    rewrite (proj2 (readInnerP_undefined rest true "write beyond common_"%string ltac:(lia) Hr));
      [done|naive_solver].
Qed.

End roundtrip.

(** ** Examples *)

Definition demo_sha (l : list Z) : Z := be_val l mod (2 ^ 256 - 189).

Definition demo_hashes : list Z := [5; 0; 0; 2 ^ 255; 0; 0; 0; 0; 0; 0; 0; 0; 0; 0; 0; 7].
Definition demo_inner (h : Z) : AbstractNode :=
  InnerNodeV2 (mkInner demo_hashes 32777 h) (be_val ([171; 192] ++ replicate 30 0)) 3.
Definition demo_node : AbstractNode := demo_inner (computeHash demo_sha (demo_inner 0)).

Lemma demo_valid : valid demo_sha demo_node.
Proof.
  split; [|split; [lia|]].
  - split; [done| |by vm_compute].
    repeat (constructor; [unfold is_uint256; lia|]). constructor.
  - exists [171; 192]. split; [done|]. split; [|done]. repeat (constructor; [unfold is_byte; lia|]). constructor.
Qed.

Lemma node_roundtrip_witness :
  let id := SHAMapNodeID.mk (be_val ([171; 192] ++ replicate 30 0)) 3 in
  let raw := mData (addRaw demo_node (Serializer.mk []) snfWIRE) in
  make demo_sha raw snfWIRE (getNodeHash demo_node) true id = Ok (Some demo_node) ∧
  make demo_sha raw snfWIRE 0 false id = Ok (Some demo_node).
Proof. apply (node_roundtrip demo_sha demo_node snfWIRE _ 0); [apply demo_valid|done|done|by vm_compute]. Defined.

Lemma node_hash_of_prefix_witness :
  computeHash demo_sha demo_node = demo_sha (mData (addRaw demo_node (Serializer.mk []) snfPREFIX)).
Proof. apply (node_hash_of_prefix demo_sha demo_node); [apply demo_valid|done]. Defined.

Lemma make_undefined_witness :
  ∃ w, make demo_sha (be_bytes 4 innerNodeV2 ++ replicate 512 0 ++ 66 :: replicate 33 1) snfPREFIX 0 true
         SHAMapNodeID.root = Throw (undefined_behaviour w).
Proof.
  apply make_undefined.
  - repeat (constructor; [by vm_compute|]). constructor.
  - by vm_compute.
  - split; [done|]. eexists _, 66. split; [done|]. split; [done|]. split; [lia|done].
Defined.

End SHAMapTreeNode.
