(* ===== verification/SHAMapSpec.v ===== *)
(** * SHAMapSpec: a hash tree is a finite map with a hash

    The contract of [shamap/SHAMap.h].  A sequence of [addGiveItem], [updateGiveItem] and
    [delItem] calls acts like insertions and deletions in a finite map, with the same
    results; the tree, and so the root hash, depends on the final contents alone; and,
    as long as SHA-512 half has no collision among the nodes of two trees, equal root
    hashes mean equal contents. *)

From S2P Require Import Prelude Serializer SHAMap SHAMapInv SHAMapTreeNode.

Module SHAMapSpec.
Import SHAMap SHAMapInv.

(** ** Operations and the finite map *)

Section refinement.
Context {D : Type} (leaf_hash : SHAMapItem D → TNType → Z) (ty : TNType).

Inductive op :=
  | AddGiveItem (item : SHAMapItem D)
  | UpdateGiveItem (item : SHAMapItem D)
  | DelItem (id : Z).

Definition op_key (o : op) : Z :=
  match o with AddGiveItem it | UpdateGiveItem it => tag_ it | DelItem k => k end.

Definition exec (t : node D) (o : op) : option (bool * node D) :=
  match o with
  | AddGiveItem it => addGiveItem t it ty
  | UpdateGiveItem it => updateGiveItem leaf_hash t it ty
  | DelItem k => delItem t k
  end.

Fixpoint exec_all (t : node D) (os : list op) : option (list bool * node D) :=
  match os with
  | [] => Some ([], t)
  | o :: os =>
      '(b, t) ← exec t o;
      '(bs, t) ← exec_all t os;
      Some (b :: bs, t)
  end.

(** The same operations on a finite map *)
Definition spec_op (m : gmap Z D) (o : op) : bool * gmap Z D :=
  match o, m !! op_key o with
  | AddGiveItem it, None | UpdateGiveItem it, Some _ => (true, <[tag_ it := data_ it]> m)
  | DelItem k, Some _ => (true, delete k m)
  | _, _ => (false, m)
  end.

Fixpoint spec_all (m : gmap Z D) (os : list op) : list bool * gmap Z D :=
  match os with
  | [] => ([], m)
  | o :: os =>
      let '(b, m) := spec_op m o in
      let '(bs, m) := spec_all m os in
      (b :: bs, m)
  end.

(** No update finds the hash of its new item equal to that of another item it is to
    replace. *)
Definition update_distinct (m : gmap Z D) (o : op) : Prop :=
  match o with
  | UpdateGiveItem it => ∀ d, m !! tag_ it = Some d →
      leaf_hash it ty = leaf_hash (mkItem (tag_ it) d) ty → data_ it = d
  | _ => True
  end.

Fixpoint updates_distinct (m : gmap Z D) (os : list op) : Prop :=
  match os with
  | [] => True
  | o :: os => update_distinct m o ∧ updates_distinct (spec_op m o).2 os
  end.

(** The tree [t] holds the map [m]. *)
Definition Rep (t : node D) (m : gmap Z D) : Prop :=
  Good t ty ∧ ∀ k, get 64 t k = (λ d, (mkItem k d, ty)) <$> m !! k.

Lemma Rep_empty : Rep empty_root ∅.
Proof.
  split; [apply empty_root_good|]. intros k. unfold empty_root. by rewrite lookup_empty, (get_no_children 63).
Qed.

Lemma Rep_updated t t' m k d :
  Rep t m → Updated t t' ty k (Some (mkItem k d, ty)) → Rep t' (<[k := d]> m).
Proof.
  intros [_ Hm] [Hg Hu]. split; [done|]. intros k'. rewrite Hu. case_decide; subst.
  - by rewrite lookup_insert_eq.
  - by rewrite lookup_insert_ne.
Qed.

Lemma Rep_deleted t t' m k : Rep t m → Updated t t' ty k None → Rep t' (delete k m).
Proof.
  intros [_ Hm] [Hg Hu]. split; [done|]. intros k'. rewrite Hu. case_decide; subst.
  - by rewrite lookup_delete_eq.
  - by rewrite lookup_delete_ne.
Qed.

Lemma exec_spec t m o :
  Rep t m → is_key (op_key o) → update_distinct m o →
  ∃ t', exec t o = Some ((spec_op m o).1, t') ∧ Rep t' (spec_op m o).2.
Proof.
  intros Hr Hk Hd. pose proof Hr as [Hg Hm]. destruct o as [[k d]|[k d]|k]; cbn [exec spec_op op_key tag_ data_] in *.
  - pose proof (addGiveItem_spec t (mkItem k d) ty Hg Hk) as Ha. cbn [tag_] in Ha. rewrite Hm in Ha.
    destruct (m !! k) as [x|]; cbn in Ha; [by exists t|].
    destruct Ha as (t' & -> & Hu). exists t'. split; [done|]. by eapply Rep_updated.
  - pose proof (updateGiveItem_spec leaf_hash t (mkItem k d) ty) as Ha.
    cbn [tag_] in Ha. rewrite Hm in Ha.
    specialize (λ H, Ha H Hg Hk). lapply Ha; clear Ha; [intros Ha|].
    2: { intros it' (d' & Hd' & [= ->])%fmap_Some E. f_equal. by apply Hd. } destruct (m !! k) as [x|]; cbn in Ha; [|by exists t].
    destruct Ha as (t' & -> & Hu). exists t'. split; [done|]. by eapply Rep_updated.
  - pose proof (delItem_spec t ty k Hg Hk) as Ha. rewrite Hm in Ha.
    destruct (m !! k) as [x|]; cbn in Ha; [|by exists t].
    destruct Ha as (t' & -> & Hu). exists t'. split; [done|]. by eapply Rep_deleted.
Qed.

Lemma exec_all_spec os t m :
  Rep t m → Forall (λ o, is_key (op_key o)) os → updates_distinct m os →
  ∃ t', exec_all t os = Some ((spec_all m os).1, t') ∧ Rep t' (spec_all m os).2.
Proof.
  revert t m. induction os as [|o os IH]; intros t m Hr Hk Hd; [by exists t|].
  apply Forall_cons in Hk as [Ho Hk]. destruct Hd as [Hd Hds].
  destruct (exec_spec t m o Hr Ho Hd) as (t1 & E1 & Hr1).
  cbn [exec_all spec_all]. rewrite E1. destruct (spec_op m o) as [b m1]. cbn [fst snd] in *.
  destruct (IH t1 m1 Hr1 Hk Hds) as (t2 & E2 & Hr2). cbn [mbind option_bind]. rewrite E2.
  destruct (spec_all m1 os) as [bs m2]. by exists t2.
Qed.

Lemma Rep_lookup t m k :
  Rep t m → is_key k →
  peekItem t k = mkItem k <$> m !! k ∧ hasItem t k = bool_decide (is_Some (m !! k)).
Proof.
  intros [[Hw _] Hm] Hk. unfold peekItem, hasItem. rewrite findKey_spec, Hm by done.
  destruct (m !! k); split; done.
Qed.

Lemma Rep_unique t1 t2 m : Rep t1 m → Rep t2 m → t1 = t2.
Proof.
  intros [[Hw1 _] H1] [[Hw2 _] H2]. apply wf_root_unique; [done..|]. intros k. by rewrite H1, H2.
Qed.

Lemma Rep_inj t m1 m2 : Rep t m1 → Rep t m2 → m1 = m2.
Proof.
  intros [_ H1] [_ H2]. apply map_eq. intros k. specialize (H1 k). rewrite H2 in H1.
  destruct (m1 !! k), (m2 !! k); naive_solver.
Qed.

(** C11: A map built by any sequence of additions, updates and deletions behaves as a
    finite map: every operation succeeds or fails as it would there, and a search finds
    what is there.  No operation runs out of tree. *)
Theorem shamap_refines_map os :
  Forall (λ o, is_key (op_key o)) os → updates_distinct ∅ os →
  let '(bs, m) := spec_all ∅ os in
  ∃ t, exec_all empty_root os = Some (bs, t) ∧ wf_root t ∧
    ∀ k, is_key k →
      peekItem t k = mkItem k <$> m !! k ∧ hasItem t k = bool_decide (is_Some (m !! k)).
Proof.
  intros Hk Hd. destruct (exec_all_spec os empty_root ∅ Rep_empty Hk Hd) as (t & E & Hr).
  destruct (spec_all ∅ os) as [bs m]. exists t. split; [done|]. split; [apply Hr|].
  intros k. by apply Rep_lookup.
Qed.

(** C32: The tree, and with it every node hash, depends on the final contents alone: two
    sequences of operations that leave the same items build the same tree, whatever they
    did in between. *)
Theorem shamap_history_independent os1 os2 :
  Forall (λ o, is_key (op_key o)) os1 → updates_distinct ∅ os1 →
  Forall (λ o, is_key (op_key o)) os2 → updates_distinct ∅ os2 →
  (spec_all ∅ os1).2 = (spec_all ∅ os2).2 →
  ∃ t, exec_all empty_root os1 = Some ((spec_all ∅ os1).1, t) ∧
       exec_all empty_root os2 = Some ((spec_all ∅ os2).1, t).
Proof.
  intros Hk1 Hd1 Hk2 Hd2 E.
  destruct (exec_all_spec os1 empty_root ∅ Rep_empty Hk1 Hd1) as (t1 & -> & Hr1).
  destruct (exec_all_spec os2 empty_root ∅ Rep_empty Hk2 Hd2) as (t2 & -> & Hr2).
  rewrite E in Hr1. exists t1. by rewrite (Rep_unique t1 t2 _ Hr1 Hr2).
Qed.

End refinement.
Arguments op : clear implicits.

(** ** Hashes of trees *)

Section hash.
Context (sha512Half : list Z → Z).
Abbreviation tree := (node (list Z)).
Implicit Types (t c : tree) (cs : list (option tree)).

(** [mIsBranch] of an inner node with these children *)
Definition child_mask cs : Z :=
  foldl (λ m i, if bool_decide (is_Some (getChild cs i)) then Z.lor m (Z.shiftl 1 i) else m) 0
    SHAMapTreeNode.branches.

(** The hash of a node after [updateHashDeep] of everything below it *)
Fixpoint tree_hash t : Z :=
  match t with
  | Leaf it ty => SHAMapTreeNode.computeHash sha512Half (SHAMapTreeNode.TreeNode it ty 0)
  | Inner cs =>
      let hashes := map (λ o, match o with Some c => tree_hash c | None => 0 end) cs in
      SHAMapTreeNode.computeHash sha512Half
        (SHAMapTreeNode.InnerNode (SHAMapTreeNode.mkInner hashes (child_mask cs) 0))
  end.

Definition child_hash (o : option tree) : Z := match o with Some c => tree_hash c | None => 0 end.

(** The bytes hashed for a node *)
Definition preimage t : list Z :=
  match t with
  | Leaf it tnTRANSACTION_NM => be_bytes 4 transactionID ++ data_ it
  | Leaf it tnACCOUNT_STATE => be_bytes 4 leafNode ++ data_ it ++ be_bytes 32 (tag_ it)
  | Leaf it tnTRANSACTION_MD => be_bytes 4 txNode ++ data_ it ++ be_bytes 32 (tag_ it)
  | Inner cs => be_bytes 4 innerNode ++ concat (map (be_bytes 32) (map child_hash cs))
  end.

(** All the bytes hashed for a tree *)
Fixpoint preimages t : list (list Z) :=
  preimage t ::
    match t with
    | Leaf _ _ => []
    | Inner cs => concat (map (λ o, match o with Some c => preimages c | None => [] end) cs)
    end.

(** What is assumed of SHA-512 half: a 256-bit result, and on the given inputs no
    collision and not zero *)
Record Collision_free (inputs : list (list Z)) : Prop := {
  cf_range : ∀ l, is_uint256 (sha512Half l);
  cf_inj : ∀ x y, x ∈ inputs → y ∈ inputs → sha512Half x = sha512Half y → x = y;
  cf_nonzero : ∀ x, x ∈ inputs → sha512Half x ≠ 0 }.

Lemma Collision_free_sub l l' : l' ⊆ l → Collision_free l → Collision_free l'.
Proof. intros Hs [? Hi Hn]. split; [done| |]; intros; eauto. Qed.

Lemma preimages_child cs b c : getChild cs b = Some c → preimages c ⊆ preimages (Inner cs).
Proof.
  intros E x Hx. cbn [preimages]. right. apply list_elem_of_In, in_concat.
  unfold getChild in E. destruct (cs !! Z.to_nat b) as [o|] eqn:El; [|done]. subst o.
  exists (preimages c). split; [|by apply list_elem_of_In].
  apply in_map_iff. exists (Some c). split; [done|]. apply list_elem_of_In. by eapply list_elem_of_lookup_2.
Qed.

Lemma preimage_self t : preimage t ∈ preimages t.
Proof. destruct t; left. Qed.

Lemma child_mask_nonzero cs b c : 0 ≤ b < 16 → getChild cs b = Some c → child_mask cs ≠ 0.
Proof.
  intros Hb E Hz. unfold child_mask in Hz.
  match type of Hz with foldl ?g _ _ = _ => set (f := g) in Hz end.
  assert (∀ m i, 0 ≤ i → Z.testbit m b = true ∨ b = i → Z.testbit (f m i) b = true) as Hf.
  { intros m i Hi Hm. unfold f. destruct (decide (i = b)) as [->|Hne].
    - rewrite E, bool_decide_true, Z.lor_spec, Z.shiftl_spec, Z.sub_diag by (done || lia). apply orb_true_r.
    - assert (Z.testbit m b = true) as Ht by naive_solver.
      case_if; [|done]. by rewrite Z.lor_spec, Ht. }
  assert (∀ l m, Forall (λ i, 0 ≤ i) l → Z.testbit m b = true ∨ b ∈ l → Z.testbit (foldl f m l) b = true) as Hl.
  { induction l as [|i l IH]; intros m Hp Hm; cbn [foldl]; [set_solver|].
    apply Forall_cons in Hp as [Hi Hp]. apply IH; [done|]. rewrite elem_of_cons in Hm.
    destruct (decide (b ∈ l)); [by right|]. left. apply Hf; naive_solver. }
  specialize (Hl SHAMapTreeNode.branches 0). rewrite Hz, Z.testbit_0_l in Hl.
  discriminate Hl; [|right; apply elem_of_seqZ; lia].
  apply Forall_forall. intros i Hi. apply elem_of_seqZ in Hi. lia.
Qed.

Lemma child_mask_zero cs : (∀ b, 0 ≤ b < 16 → getChild cs b = None) → child_mask cs = 0.
Proof.
  intros Hn. unfold child_mask. apply (foldl_invariant (λ m, m = 0)); [|done].
  intros m i Hi ->. apply elem_of_seqZ in Hi. by rewrite Hn by lia.
Qed.

Lemma tree_hash_leaf it ty : tree_hash (Leaf it ty) = sha512Half (preimage (Leaf it ty)).
Proof. by destruct ty. Qed.

Lemma tree_hash_inner cs b c :
  0 ≤ b < 16 → getChild cs b = Some c → tree_hash (Inner cs) = sha512Half (preimage (Inner cs)).
Proof.
  intros Hb E. cbn [tree_hash SHAMapTreeNode.computeHash SHAMapTreeNode.mIsBranch SHAMapTreeNode.mHashes preimage].
  by rewrite (proj2 (Z.eqb_neq _ _) (child_mask_nonzero cs b c Hb E)).
Qed.

Lemma wf_has_child n p cs : wf (S n) p (Inner cs) → ∃ b c, 0 ≤ b < 16 ∧ getChild cs b = Some c.
Proof.
  intros (_ & _ & k & _ & _ & [x Hx] & _). rewrite get_inner in Hx.
  destruct (getChild cs (nib (S n) k)) as [c|] eqn:E; [|done].
  exists (nib (S n) k), c. split; [apply nib_range|done].
Qed.

Lemma wf_tree_hash n p t : wf n p t → tree_hash t = sha512Half (preimage t).
Proof.
  destruct t as [it ty|cs]; intros Hw; [apply tree_hash_leaf|]. destruct n; [done|].
  destruct (wf_has_child _ _ _ Hw) as (b & c & Hb & E). by eapply tree_hash_inner.
Qed.

(** The keys are 256-bit, the leaves are of type [ty], and a plain transaction is stored
    under its identifier. *)
Definition fine (n : nat) t (ty : TNType) : Prop :=
  ∀ k x, get n t k = Some x → x.2 = ty ∧ is_key k ∧
    (ty = tnTRANSACTION_NM → k = sha512Half (be_bytes 4 transactionID ++ data_ x.1)).

Lemma fine_child n p cs b c ty :
  wf_children n p cs → 0 ≤ b < 16 → getChild cs b = Some c → fine (S n) (Inner cs) ty → fine n c ty.
Proof.
  intros Hcs Hb Ec Hf k x Hx. apply Hf.
  destruct (get_child n p cs b c k Hcs Hb Ec) as [-> _]; by rewrite Hx.
Qed.

Lemma leaf_inj it1 it2 n ty ty1 ty2 :
  fine n (Leaf it1 ty1) ty → fine n (Leaf it2 ty2) ty →
  preimage (Leaf it1 ty1) = preimage (Leaf it2 ty2) → Leaf it1 ty1 = Leaf it2 ty2.
Proof.
  intros H1 H2. destruct it1 as [k1 d1], it2 as [k2 d2].
  destruct (H1 k1 (mkItem k1 d1, ty1)) as (E1 & Hk1 & Hn1); [by rewrite get_leaf, Z.eqb_refl|].
  destruct (H2 k2 (mkItem k2 d2, ty2)) as (E2 & Hk2 & Hn2); [by rewrite get_leaf, Z.eqb_refl|].
  assert (be_bytes 32 k1 = be_bytes 32 k2 → k1 = k2) as Hbe.
  { intros E%(f_equal be_val). by rewrite !be_bytes_small in E. }
  cbn [snd fst data_ preimage tag_] in *. subst ty1 ty2. destruct ty; intros E%app_inv_head.
  - rewrite Hn1, Hn2, E by done. done.
  - apply app_inj_2 in E as [-> E]; [|by rewrite !length_be_bytes]. by rewrite (Hbe E).
  - apply app_inj_2 in E as [-> E]; [|by rewrite !length_be_bytes]. by rewrite (Hbe E).
Qed.

Lemma leaf_inner_preimage it ty cs : preimage (Leaf it ty) ≠ preimage (Inner cs).
Proof.
  intros E. apply (f_equal (take 4)) in E. cbn [preimage] in E.
  destruct ty; by rewrite !take_app_length' in E by (by rewrite length_be_bytes).
Qed.

Lemma child_hash_range l o : Collision_free l → is_uint256 (child_hash o).
Proof.
  intros [Hr _ _]. assert (is_uint256 0) by (unfold is_uint256; lia).
  destruct o as [[it ty|cs]|]; cbn [child_hash]; [| |done].
  - rewrite tree_hash_leaf. apply Hr.
  - cbn [tree_hash SHAMapTreeNode.computeHash]. case_if; [done|apply Hr].
Qed.

Lemma hashes_inj hs1 hs2 :
  Forall is_uint256 hs1 → Forall is_uint256 hs2 → length hs1 = length hs2 →
  concat (map (be_bytes 32) hs1) = concat (map (be_bytes 32) hs2) → hs1 = hs2.
Proof.
  intros H1 H2. revert hs2 H2. induction H1 as [|h1 hs1 Hh1 H1 IH]; intros [|h2 hs2] H2 Hl E; try done.
  apply Forall_cons in H2 as [Hh2 H2]. cbn [map concat] in E.
  apply app_inj_1 in E as [Eh E]; [|by rewrite !length_be_bytes].
  apply (f_equal be_val) in Eh. rewrite !be_bytes_small in Eh by done. subst.
  f_equal. apply IH; [done|by injection Hl|done].
Qed.

Lemma children_hash_eq l cs1 cs2 b :
  Collision_free l → length cs1 = 16%nat → length cs2 = 16%nat → 0 ≤ b < 16 →
  preimage (Inner cs1) = preimage (Inner cs2) →
  child_hash (getChild cs1 b) = child_hash (getChild cs2 b).
Proof.
  intros Hcf Hl1 Hl2 Hb E. cbn [preimage] in E. apply app_inv_head, hashes_inj in E.
  - apply (f_equal (λ hs, hs !! Z.to_nat b)) in E. rewrite !list_lookup_fmap in E. unfold getChild.
    destruct (lookup_lt_is_Some_2 cs1 (Z.to_nat b)) as [o1 Ho1]; [lia|].
    destruct (lookup_lt_is_Some_2 cs2 (Z.to_nat b)) as [o2 Ho2]; [lia|].
    rewrite Ho1, Ho2 in *. by injection E.
  - apply Forall_map, Forall_forall. intros o _. by eapply child_hash_range.
  - apply Forall_map, Forall_forall. intros o _. by eapply child_hash_range.
  - rewrite !length_map. lia.
Qed.

(** The statement proved by induction on the levels *)
Definition Hash_inj (n : nat) (ty : TNType) : Prop := ∀ p t1 t2,
  wf n p t1 → wf n p t2 → fine n t1 ty → fine n t2 ty →
  Collision_free (preimages t1 ++ preimages t2) → tree_hash t1 = tree_hash t2 → t1 = t2.

Lemma inner_inj n ty p cs1 cs2 :
  Hash_inj n ty → wf_children n p cs1 → wf_children n p cs2 →
  fine (S n) (Inner cs1) ty → fine (S n) (Inner cs2) ty →
  Collision_free (preimages (Inner cs1) ++ preimages (Inner cs2)) →
  preimage (Inner cs1) = preimage (Inner cs2) → cs1 = cs2.
Proof.
  intros IH Hw1 Hw2 Hf1 Hf2 Hcf E.
  pose proof Hw1 as [Hl1 Hc1]. pose proof Hw2 as [Hl2 Hc2].
  assert (∀ b, 0 ≤ b < 16 → getChild cs1 b = getChild cs2 b) as Hb.
  { intros b Hb. pose proof (children_hash_eq _ cs1 cs2 b Hcf Hl1 Hl2 Hb E) as Eh.
    assert (∀ c, getChild cs1 b = Some c ∨ getChild cs2 b = Some c → tree_hash c ≠ 0) as Hnz.
    { intros c [Ec|Ec].
      - rewrite (wf_tree_hash _ _ _ (Hc1 b c Hb Ec)). apply (cf_nonzero _ Hcf), elem_of_app. left.
        by eapply preimages_child, preimage_self.
      - rewrite (wf_tree_hash _ _ _ (Hc2 b c Hb Ec)). apply (cf_nonzero _ Hcf), elem_of_app. right.
        by eapply preimages_child, preimage_self. }
    destruct (getChild cs1 b) as [c1|] eqn:E1, (getChild cs2 b) as [c2|] eqn:E2; cbn [child_hash] in Eh; [| | |done].
    - f_equal. apply (IH (16 * p + b)); [by apply Hc1|by apply Hc2|by eapply (fine_child n p cs1 b)|by eapply (fine_child n p cs2 b)| |done].
      eapply Collision_free_sub; [|done]. intros x [Hx|Hx]%elem_of_app; apply elem_of_app; [left|right].
      + by eapply preimages_child.
      + by eapply preimages_child.
    - exfalso. apply (Hnz c1); auto.
    - exfalso. apply (Hnz c2); auto. }
  by apply children_list_eq.
Qed.

Lemma hash_inj n ty : Hash_inj n ty.
Proof.
  induction n as [|n IH]; intros p [it1 ty1|cs1] [it2 ty2|cs2] Hw1 Hw2 Hf1 Hf2 Hcf E; try done.
  all: rewrite (wf_tree_hash _ _ _ Hw1), (wf_tree_hash _ _ _ Hw2) in E.
  all: apply (cf_inj _ Hcf) in E; [|apply elem_of_app; left; apply preimage_self
                                   |apply elem_of_app; right; apply preimage_self].
  - by eapply leaf_inj.
  - by eapply leaf_inj.
  - by apply leaf_inner_preimage in E.
  - symmetry in E. by apply leaf_inner_preimage in E.
  - f_equal. apply wf_inner in Hw1 as [Hw1 _], Hw2 as [Hw2 _]. by eapply inner_inj.
Qed.

Lemma root_hash_inj ty t1 t2 :
  wf_root t1 → wf_root t2 → fine 64 t1 ty → fine 64 t2 ty →
  Collision_free (preimages t1 ++ preimages t2) → tree_hash t1 = tree_hash t2 → t1 = t2.
Proof.
  destruct t1 as [|cs1], t2 as [|cs2]; try done. intros Hw1 Hw2 Hf1 Hf2 Hcf E.
  assert (∀ cs, (∀ b, 0 ≤ b < 16 → getChild cs b = None) ∨ ∃ b c, 0 ≤ b < 16 ∧ getChild cs b = Some c) as Hem.
  { intros cs. destruct (decide (Exists (λ b, is_Some (getChild cs b)) (seqZ 0 16))) as [He|He].
    - right. apply Exists_exists in He as (b & Hb & c & Ec). apply elem_of_seqZ in Hb. by exists b, c.
    - left. intros b Hb. apply eq_None_not_Some. intros Hc. apply He, Exists_exists.
      exists b. split; [apply elem_of_seqZ; lia|done]. }
  assert (∀ cs, cs = cs1 ∨ cs = cs2 → (∀ b, 0 ≤ b < 16 → getChild cs b = None) → tree_hash (Inner cs) = 0) as Hz.
  { intros cs _ Hn. cbn [tree_hash SHAMapTreeNode.computeHash SHAMapTreeNode.mIsBranch].
    by rewrite child_mask_zero. }
  assert (∀ cs b c, cs = cs1 ∨ cs = cs2 → 0 ≤ b < 16 → getChild cs b = Some c → tree_hash (Inner cs) ≠ 0) as Hnz.
  { intros cs b c Hcs Hb Ec. rewrite (tree_hash_inner cs b c Hb Ec). apply (cf_nonzero _ Hcf), elem_of_app.
    destruct Hcs as [->| ->]; [left|right]; apply preimage_self. }
  f_equal. destruct (Hem cs1) as [Hn1|(b1 & c1 & Hb1 & E1)], (Hem cs2) as [Hn2|(b2 & c2 & Hb2 & E2)].
  - apply children_list_eq; [apply Hw1|apply Hw2|]. intros b Hb. by rewrite Hn1, Hn2.
  - exfalso. apply (Hnz cs2 b2 c2); auto. rewrite <- E. auto.
  - exfalso. apply (Hnz cs1 b1 c1); auto. rewrite E. auto.
  - rewrite (tree_hash_inner cs1 b1 c1), (tree_hash_inner cs2 b2 c2) in E by done.
    apply (cf_inj _ Hcf) in E; [|apply elem_of_app; left; apply preimage_self
                                   |apply elem_of_app; right; apply preimage_self].
    eapply (inner_inj 63 ty 0); try done. apply hash_inj.
Qed.

(** ** The root hash stands for the contents *)

Definition leaf_hash (it : SHAMapItem (list Z)) (ty : TNType) : Z :=
  SHAMapTreeNode.computeHash sha512Half (SHAMapTreeNode.TreeNode it ty 0).

(** A plain transaction is put under its identifier. *)
Definition named (ty : TNType) (k : Z) (d : list Z) : Prop :=
  ty = tnTRANSACTION_NM → k = sha512Half (be_bytes 4 transactionID ++ d).

Definition op_named (ty : TNType) (o : op (list Z)) : Prop :=
  match o with
  | AddGiveItem it | UpdateGiveItem it => named ty (tag_ it) (data_ it)
  | DelItem _ => True
  end.

Lemma spec_all_named ty os (m : gmap Z (list Z)) :
  map_Forall (named ty) m → Forall (op_named ty) os → map_Forall (named ty) (spec_all m os).2.
Proof.
  revert m. induction os as [|o os IH]; intros m Hm Hos; [done|].
  apply Forall_cons in Hos as [Ho Hos]. cbn [spec_all].
  assert (map_Forall (named ty) (spec_op m o).2) as Hm1.
  { unfold spec_op. destruct o as [it|it|k], (m !! _); cbn [snd]; try done;
      [by apply map_Forall_insert_2..|by apply map_Forall_delete]. }
  destruct (spec_op m o) as [b m1]. cbn [snd] in Hm1. specialize (IH m1 Hm1 Hos).
  by destruct (spec_all m1 os).
Qed.

Lemma Rep_fine ty t (m : gmap Z (list Z)) :
  Rep ty t m → map_Forall (named ty) m → fine 64 t ty.
Proof.
  intros [[Hw Ht] Hm] Hn k x Hx. split; [by eapply Ht|].
  split; [eapply get_root_key; [done|by rewrite Hx]|].
  rewrite Hm in Hx. apply fmap_Some in Hx as (d & Hd & ->). by apply Hn.
Qed.

(** C12: The root hash is a faithful name of the contents: two maps have the same root hash
    just when they hold the same items, unless SHA-512 half has a collision among the
    nodes of the two trees. *)
Theorem root_hash_binding ty os1 os2 bs1 bs2 t1 t2 :
  Forall (λ o, is_key (op_key o)) os1 → updates_distinct leaf_hash ty ∅ os1 → Forall (op_named ty) os1 →
  Forall (λ o, is_key (op_key o)) os2 → updates_distinct leaf_hash ty ∅ os2 → Forall (op_named ty) os2 →
  exec_all leaf_hash ty empty_root os1 = Some (bs1, t1) →
  exec_all leaf_hash ty empty_root os2 = Some (bs2, t2) →
  Collision_free (preimages t1 ++ preimages t2) →
  tree_hash t1 = tree_hash t2 ↔ (spec_all ∅ os1).2 = (spec_all ∅ os2).2.
Proof.
  intros Hk1 Hd1 Hn1 Hk2 Hd2 Hn2 E1 E2 Hcf.
  destruct (exec_all_spec leaf_hash ty os1 empty_root ∅ (Rep_empty ty) Hk1 Hd1) as (t1' & E1' & Hr1).
  destruct (exec_all_spec leaf_hash ty os2 empty_root ∅ (Rep_empty ty) Hk2 Hd2) as (t2' & E2' & Hr2).
  rewrite E1 in E1'. rewrite E2 in E2'. injection E1' as -> <-. injection E2' as -> <-.
  split; intros E.
  - assert (t1 = t2) as ->; [|by eapply Rep_inj].
    apply (root_hash_inj ty); [apply Hr1|apply Hr2| | |done|done].
    + eapply Rep_fine; [done|]. by apply spec_all_named.
    + eapply Rep_fine; [done|]. by apply spec_all_named.
  - rewrite E in Hr1. by rewrite (Rep_unique ty t1 t2 _ Hr1 Hr2).
Qed.

End hash.
(** ** Examples *)

Definition demo_sha : list Z → Z := SHAMapTreeNode.demo_sha.
Definition demo_leaf_hash : SHAMapItem (list Z) → TNType → Z := leaf_hash demo_sha.

Definition k1 : Z := Eval vm_compute in (10 * 16 ^ 63 + 3 * 16 ^ 62 + 1).
Definition k2 : Z := Eval vm_compute in (10 * 16 ^ 63 + 3 * 16 ^ 62 + 5 * 16 ^ 61).
Definition k3 : Z := Eval vm_compute in (2 * 16 ^ 63).

Definition demo_ops1 : list (op (list Z)) :=
  [AddGiveItem (mkItem k1 [1; 2]); AddGiveItem (mkItem k2 [3]); AddGiveItem (mkItem k1 [9]);
   UpdateGiveItem (mkItem k2 [4; 5]); DelItem k1; DelItem k1; AddGiveItem (mkItem k3 [6])].
Definition demo_ops2 : list (op (list Z)) :=
  [UpdateGiveItem (mkItem k3 [1]); AddGiveItem (mkItem k3 [6]); AddGiveItem (mkItem k2 [4; 5])].
Definition demo_ops3 : list (op (list Z)) := [AddGiveItem (mkItem k1 [6]); AddGiveItem (mkItem k2 [4; 5])].

Definition demo_tree (os : list (op (list Z))) : node (list Z) :=
  match exec_all demo_leaf_hash tnACCOUNT_STATE empty_root os with Some (_, t) => t | None => empty_root end.

Ltac key_list := repeat (constructor; [by vm_compute|]); constructor.

Lemma demo_keys1 : Forall (λ o, is_key (op_key o)) demo_ops1.
Proof. key_list. Qed.
Lemma demo_keys2 : Forall (λ o, is_key (op_key o)) demo_ops2.
Proof. key_list. Qed.
Lemma demo_keys3 : Forall (λ o, is_key (op_key o)) demo_ops3.
Proof. key_list. Qed.

Lemma demo_named os : Forall (op_named demo_sha tnACCOUNT_STATE) os.
Proof. apply Forall_forall. by intros [] _. Qed.

Lemma update_found (m : gmap Z (list Z)) k d d' :
  m !! k = Some d' →
  (demo_leaf_hash (mkItem k d) tnACCOUNT_STATE =? demo_leaf_hash (mkItem k d') tnACCOUNT_STATE) = false →
  update_distinct demo_leaf_hash tnACCOUNT_STATE m (UpdateGiveItem (mkItem k d)).
Proof. intros Hm Hne d1 Hd1. cbn [tag_] in *. rewrite Hm in Hd1. injection Hd1 as <-. zb. done. Qed.

Lemma update_absent (m : gmap Z (list Z)) k d :
  m !! k = None → update_distinct demo_leaf_hash tnACCOUNT_STATE m (UpdateGiveItem (mkItem k d)).
Proof. intros Hm d1 Hd1. cbn [tag_] in *. by rewrite Hm in Hd1. Qed.

Lemma demo_distinct1 : updates_distinct demo_leaf_hash tnACCOUNT_STATE ∅ demo_ops1.
Proof.
  split; [exact I|]. split; [exact I|]. split; [exact I|].
  split; [apply update_found with [3]; by vm_compute|]. repeat (split; [exact I|]). exact I.
Qed.

Lemma demo_distinct2 : updates_distinct demo_leaf_hash tnACCOUNT_STATE ∅ demo_ops2.
Proof. split; [by apply update_absent|]. repeat (split; [exact I|]). exact I. Qed.

Lemma demo_distinct3 : updates_distinct demo_leaf_hash tnACCOUNT_STATE ∅ demo_ops3.
Proof. repeat (split; [exact I|]). exact I. Qed.

Lemma shamap_refines_map_witness :
  let '(bs, m) := spec_all ∅ demo_ops1 in
  ∃ t, exec_all demo_leaf_hash tnACCOUNT_STATE empty_root demo_ops1 = Some (bs, t) ∧ wf_root t ∧
    ∀ k, is_key k →
      peekItem t k = mkItem k <$> m !! k ∧ hasItem t k = bool_decide (is_Some (m !! k)).
Proof. exact (shamap_refines_map demo_leaf_hash tnACCOUNT_STATE demo_ops1 demo_keys1 demo_distinct1). Defined.

Lemma shamap_history_independent_witness :
  ∃ t, exec_all demo_leaf_hash tnACCOUNT_STATE empty_root demo_ops1 = Some ((spec_all ∅ demo_ops1).1, t) ∧
       exec_all demo_leaf_hash tnACCOUNT_STATE empty_root demo_ops2 = Some ((spec_all ∅ demo_ops2).1, t).
Proof.
  refine (shamap_history_independent demo_leaf_hash tnACCOUNT_STATE demo_ops1 demo_ops2
    demo_keys1 demo_distinct1 demo_keys2 demo_distinct2 _).
  by vm_compute.
Defined.

Definition collision_check (l : list (list Z)) : bool :=
  let hs := (λ x, (demo_sha x, x)) <$> l in
  forallb (λ x : Z * list Z, if x.1 =? 0 then false else
    forallb (λ y : Z * list Z, if x.1 =? y.1 then bool_decide (x.2 = y.2) else true) hs) hs.

Lemma collision_check_ok l : collision_check l = true → Collision_free demo_sha l.
Proof.
  intros Hc. unfold collision_check in Hc. cbv zeta in Hc. rewrite forallb_forall in Hc.
  assert (∀ x, x ∈ l → In (demo_sha x, x) ((λ x, (demo_sha x, x)) <$> l)) as Hin.
  { intros x Hx. apply in_map_iff. exists x. split; [done|]. by apply list_elem_of_In. }
  split.
  - intros x. unfold is_uint256, demo_sha, SHAMapTreeNode.demo_sha.
    pose proof (Z.mod_pos_bound (be_val x) (2 ^ 256 - 189)). lia.
  - intros x y Hx Hy E. specialize (Hc _ (Hin x Hx)). cbn [fst snd] in Hc.
    destruct (demo_sha x =? 0); [done|]. rewrite forallb_forall in Hc.
    specialize (Hc _ (Hin y Hy)). cbn [fst snd] in Hc. rewrite E, Z.eqb_refl in Hc.
    by apply bool_decide_eq_true in Hc.
  - intros x Hx E. specialize (Hc _ (Hin x Hx)). cbn [fst snd] in Hc. by rewrite E in Hc.
Qed.

Lemma root_hash_binding_witness :
  tree_hash demo_sha (demo_tree demo_ops1) = tree_hash demo_sha (demo_tree demo_ops3) ↔
  (spec_all ∅ demo_ops1).2 = (spec_all ∅ demo_ops3).2.
Proof.
  refine (root_hash_binding demo_sha tnACCOUNT_STATE demo_ops1 demo_ops3 (spec_all ∅ demo_ops1).1
    (spec_all ∅ demo_ops3).1 _ _ demo_keys1 demo_distinct1 (demo_named _)
    demo_keys3 demo_distinct3 (demo_named _) _ _ _).
  - by vm_compute.
  - by vm_compute.
  - apply collision_check_ok. by vm_compute.
Defined.

End SHAMapSpec.
