(* ===== verification/SHAMapIter.v ===== *)
(** * SHAMapIter: iterating over the hash tree

    [peekFirstItem], [peekNextItem] and [upper_bound] of [shamap/impl/SHAMap.cpp] keep a
    stack of nodes in place of an iterator.  Here the items they visit are related to
    the leaves of the tree from left to right.  [firstBelow] pushes node identifiers
    built from the wrong branch; only their depth is ever used, so that the iteration is
    right all the same. *)

From stdpp Require Import sorting.
From S2P Require Import Prelude ReadView SHAMap SHAMapInv SHAMapSpec.

Module SHAMapIter.
Import SHAMapNodeID SHAMap SHAMapInv SHAMapSpec.

Section iter.
Context {D : Type}.
Abbreviation node := (node D).
Implicit Types (t c : node) (cs : list (option node)) (it : SHAMapItem D) (st : @stack D).

(** ** Leaves in order *)

Fixpoint leaves (n : nat) (t : node) : list (SHAMapItem D) :=
  match t, n with
  | Leaf it _, _ => [it]
  | Inner _, O => []
  | Inner cs, S n => concat (map (λ o, match o with Some c => leaves n c | None => [] end) cs)
  end.

Definition child_leaves (n : nat) (o : option node) : list (SHAMapItem D) :=
  match o with Some c => leaves n c | None => [] end.

(** The leaves of the branches from [b] on *)
Definition leaves_from (n : nat) cs (b : Z) : list (SHAMapItem D) :=
  concat (map (child_leaves n) (drop (Z.to_nat b) cs)).

Lemma leaves_leaf n it ty : leaves n (Leaf it ty) = [it].
Proof. by destruct n. Qed.

Lemma leaves_inner n cs : leaves (S n) (Inner cs) = leaves_from n cs 0.
Proof. done. Qed.

Lemma leaves_from_step n cs b :
  length cs = 16%nat → 0 ≤ b < 16 →
  leaves_from n cs b = child_leaves n (getChild cs b) ++ leaves_from n cs (b + 1).
Proof.
  intros Hl Hb. unfold leaves_from, getChild.
  destruct (lookup_lt_is_Some_2 cs (Z.to_nat b)) as [o Ho]; [lia|].
  rewrite Ho, (drop_S _ o) by done. cbn [map concat]. by replace (Z.to_nat (b + 1)) with (S (Z.to_nat b)) by lia.
Qed.

Lemma leaves_from_end n cs b : length cs = 16%nat → 16 ≤ b → leaves_from n cs b = [].
Proof. intros. unfold leaves_from. by rewrite drop_ge by lia. Qed.

(** ** Scanning branches *)

Lemma first_branch_spec n cs m b :
  length cs = 16%nat → 0 ≤ b → b + Z.of_nat m = 16 →
  match first_branch m cs b with
  | Some (i, c) => b ≤ i < 16 ∧ getChild cs i = Some c ∧
      leaves_from n cs b = leaves n c ++ leaves_from n cs (i + 1)
  | None => leaves_from n cs b = []
  end.
Proof.
  intros Hl. revert b. induction m as [|m IH]; intros b Hb Hm; cbn [first_branch].
  { apply leaves_from_end; [done|lia]. }
  rewrite (leaves_from_step n cs b) by (done || lia).
  destruct (getChild cs b) as [c|] eqn:E; cbn [child_leaves]; [split; [lia|done]|].
  specialize (IH (b + 1) ltac:(lia) ltac:(lia)). destruct (first_branch m cs (b + 1)) as [[i c]|]; [|done].
  destruct IH as (? & ? & ?). split; [lia|done].
Qed.

Lemma scan_spec n cs b :
  length cs = 16%nat → 0 ≤ b ≤ 16 →
  match scan cs b with
  | Some (i, c) => b ≤ i < 16 ∧ getChild cs i = Some c ∧
      leaves_from n cs b = leaves n c ++ leaves_from n cs (i + 1)
  | None => leaves_from n cs b = []
  end.
Proof. intros. unfold scan. apply first_branch_spec; [done|lia..]. Qed.

(** ** Stacks *)

(** The inner nodes above a node with [n] levels whose keys have the prefix [p] *)
Fixpoint path (n : nat) (p : Z) st : Prop :=
  match st with
  | [] => True
  | (Inner cs, nid) :: st => at_level (S n) nid ∧ wf_children n (p / 16) cs ∧ path (S n) (p / 16) st
  | (Leaf _ _, _) :: _ => False
  end.

(** The leaves to the right of that node *)
Fixpoint remaining (n : nat) (p : Z) st : list (SHAMapItem D) :=
  match st with
  | [] => []
  | (Inner cs, _) :: st => leaves_from n cs (p mod 16 + 1) ++ remaining (S n) (p / 16) st
  | (Leaf _ _, _) :: _ => []
  end.

(** An iterator [r] that stands before the items [l] *)
Definition yields (r : option (SHAMapItem D * @stack D)) (l : list (SHAMapItem D)) : Prop :=
  match r with
  | None => l = []
  | Some (x, stk) => ∃ ty nid n st, stk = (Leaf x ty, nid) :: st ∧
      path n (pre n (tag_ x)) st ∧ l = x :: remaining n (pre n (tag_ x)) st
  end.

Lemma nib_pre n k : nib (S n) k = pre n k mod 16.
Proof. apply (Z.mod_unique_pos _ _ (pre (S n) k)); [apply nib_range|apply pre_split]. Qed.

Lemma pre_S n k : pre (S n) k = pre n k / 16.
Proof. apply (Z.div_unique_pos _ _ _ (nib (S n) k)); [apply nib_range|apply pre_split]. Qed.

Lemma child_div p b : 0 ≤ b < 16 → (16 * p + b) / 16 = p ∧ (16 * p + b) mod 16 = b.
Proof.
  intros Hb. split.
  - symmetry. by apply (Z.div_unique_pos _ _ _ b).
  - symmetry. by apply (Z.mod_unique_pos _ _ p).
Qed.

(** *** What the leaves are *)

Lemma elem_of_leaves_from n cs b it :
  length cs = 16%nat → 0 ≤ b →
  it ∈ leaves_from n cs b ↔ ∃ i c, b ≤ i < 16 ∧ getChild cs i = Some c ∧ it ∈ leaves n c.
Proof.
  intros Hl Hb. unfold leaves_from. rewrite list_elem_of_In, in_concat. split.
  - intros (l & Hin%in_map_iff & Hit). destruct Hin as (o & <- & Ho%list_elem_of_In).
    destruct o as [c|]; [|done]. apply list_elem_of_lookup in Ho as [j Hj]. rewrite lookup_drop in Hj.
    pose proof (lookup_lt_Some _ _ _ Hj). exists (b + Z.of_nat j), c. split; [lia|].
    unfold getChild. replace (Z.to_nat (b + Z.of_nat j)) with (Z.to_nat b + j)%nat by lia.
    rewrite Hj. by rewrite list_elem_of_In.
  - intros (i & c & Hi & Ec & Hit). exists (leaves n c). split; [|by apply list_elem_of_In].
    apply in_map_iff. exists (Some c). split; [done|]. apply list_elem_of_In.
    apply list_elem_of_lookup. exists (Z.to_nat i - Z.to_nat b)%nat. rewrite lookup_drop.
    replace (Z.to_nat b + (Z.to_nat i - Z.to_nat b))%nat with (Z.to_nat i) by lia.
    unfold getChild in Ec. destruct (cs !! Z.to_nat i); congruence.
Qed.

Definition Leaves_spec (n : nat) : Prop := ∀ p t it,
  wf n p t → it ∈ leaves n t ↔ ∃ ty, get n t (tag_ it) = Some (it, ty).

Lemma elem_of_children_leaves n p cs it :
  Leaves_spec n → wf_children n p cs →
  it ∈ leaves (S n) (Inner cs) ↔ ∃ ty, get (S n) (Inner cs) (tag_ it) = Some (it, ty).
Proof.
  intros IH Hw. pose proof Hw as [Hl Hc]. rewrite leaves_inner, elem_of_leaves_from by (done || lia). split.
  - intros (i & c & Hi & Ec & Hit). apply (IH _ _ _ (Hc i c Hi Ec)) in Hit as [ty Hg]. exists ty.
    destruct (get_child n p cs i c (tag_ it) Hw Hi Ec) as [-> _]; by rewrite Hg.
  - intros [ty Hg]. rewrite get_inner in Hg.
    destruct (getChild cs (nib (S n) (tag_ it))) as [c|] eqn:Ec; [|done].
    exists (nib (S n) (tag_ it)), c. split; [apply nib_range|]. split; [done|].
    apply (IH _ _ _ (Hc _ c (nib_range _ _) Ec)). by exists ty.
Qed.

Lemma elem_of_leaves n : Leaves_spec n.
Proof.
  induction n as [|n IH]; intros p [it' ty'|cs] it Hw; try done.
  1, 2: rewrite leaves_leaf, list_elem_of_singleton; setoid_rewrite get_leaf.
  1, 2: split; [intros ->; rewrite Z.eqb_refl; by eexists|intros [ty Hg]; destruct (_ =? _); by simplify_eq].
  apply wf_inner in Hw as [Hw _]. by apply (elem_of_children_leaves n p).
Qed.

Lemma leaves_nonempty n p t : wf n p t → leaves n t ≠ [].
Proof.
  intros Hw E. destruct (wf_nonempty n p t Hw) as [k [[it ty] Hg]].
  destruct (get_prefix _ _ _ _ _ Hw Hg) as [_ Ht]. cbn [fst] in Ht. subst k.
  assert (it ∈ leaves n t) as Hin by (apply (elem_of_leaves n p); eauto).
  rewrite E in Hin. by apply elem_of_nil in Hin.
Qed.

(** *** Descending to the first leaf *)

Lemma firstInner_spec fuel n p cs nid branch st :
  (n < fuel)%nat → at_level (S n) nid → wf_children n p cs → path (S n) p st →
  yields (firstInner fuel cs nid branch ((Inner cs, nid) :: st)) (leaves (S n) (Inner cs) ++ remaining (S n) p st)
  ∨ leaves (S n) (Inner cs) = [] ∧ firstInner fuel cs nid branch ((Inner cs, nid) :: st) = None.
Proof.
  revert n p cs nid st. induction fuel as [|fuel IH]; intros n p cs nid st Hf Hl Hw Hp; [lia|].
  cbn [firstInner]. rewrite leaves_inner. pose proof Hw as [Hlen Hc].
  pose proof (scan_spec n cs 0 Hlen ltac:(lia)) as Hs. destruct (scan cs 0) as [[i c]|]; [|by right].
  destruct Hs as (Hi & Ec & ->). left. pose proof (Hc i c Hi Ec) as Hwc.
  destruct (child_div p i Hi) as [Hd Hm].
  assert (path n (16 * p + i) ((Inner cs, nid) :: st)) as Hp'.
  { cbn [path]. by rewrite Hd. }
  assert (leaves_from n cs (i + 1) ++ remaining (S n) p st = remaining n (16 * p + i) ((Inner cs, nid) :: st)) as E.
  { cbn [remaining]. by rewrite Hd, Hm. }
  rewrite <- app_assoc, E. destruct c as [it ty|cs'].
  - rewrite leaves_leaf. assert (pre n (tag_ it) = 16 * p + i) as Hpre by by destruct n.
    exists ty, (mk (tag_ it) 64), n, ((Inner cs, nid) :: st). by rewrite Hpre.
  - destruct n as [|n]; [done|]. pose proof Hwc as [Hwc' (k & _ & _ & [x Hx] & _)]%wf_inner.
    destruct (IH n _ cs' (getChildNodeID nid branch) ((Inner cs, nid) :: st)
      ltac:(lia) (at_level_child _ _ _ Hl) Hwc' Hp') as [Hy|[Hn _]]; [done|].
    exfalso. apply (leaves_nonempty (S n) _ _ Hwc Hn).
Qed.

Lemma firstBelow_spec n p t st branch :
  wf n p t → (n < 64)%nat → path n p st → st ≠ [] →
  yields (firstBelow t st branch) (leaves n t ++ remaining n p st).
Proof.
  intros Hw Hn Hp Hst. destruct t as [it ty|cs]; cbn [firstBelow].
  - rewrite leaves_leaf. assert (pre n (tag_ it) = p) as Hpre by by destruct n.
    exists ty, (mk (tag_ it) 64), n, st. by rewrite Hpre.
  - destruct n as [|n]; [done|]. destruct st as [|[[|cs'] nid] st]; [done..|].
    pose proof Hw as [Hwc _]%wf_inner.
    destruct (firstInner_spec 64 n p cs (getChildNodeID nid branch) branch ((Inner cs', nid) :: st))
      as [Hy|[Hn' _]]; [lia|apply at_level_child, Hp|done|done|done|].
    exfalso. by apply (leaves_nonempty (S n) _ _ Hw Hn').
Qed.

Lemma peekNext_spec n p st k :
  (n < 64)%nat → path n p st → pre n k = p → yields (peekNext st k) (remaining n p st).
Proof.
  revert n p. induction st as [|[[|cs] nid] st IH]; intros n p Hn Hp Hk; [done..|].
  pose proof Hp as (Hl & Hw & Hp'). pose proof Hw as [Hlen Hc].
  cbn [peekNext remaining]. rewrite (at_level_branch n), nib_pre, Hk by done.
  pose proof (Z.mod_pos_bound p 16 ltac:(lia)).
  pose proof (scan_spec n cs (p mod 16 + 1) Hlen ltac:(lia)) as Hs.
  destruct (scan cs (p mod 16 + 1)) as [[i c]|].
  - destruct Hs as (Hi & Ec & ->). assert (0 ≤ i < 16) as Hi' by lia.
    destruct (child_div (p / 16) i Hi') as [Hd Hm].
    pose proof (firstBelow_spec n (16 * (p / 16) + i) c ((Inner cs, nid) :: st) i) as Hy.
    cbn [remaining path] in Hy. rewrite Hd, Hm in Hy. rewrite <- app_assoc.
    apply Hy; [by apply Hc|done|done|done].
  - rewrite Hs. cbn [app]. destruct (decide (S n = 64%nat)) as [E|].
    + destruct st as [|[[|cs'] nid'] st]; [done..|]. destruct Hp' as [[Hl' _] _]. lia.
    + apply IH; [lia|done|]. by rewrite pre_S, Hk.
Qed.

(** A loop from an iterator to the end visits the items it stands before. *)
Lemma iterate_yields fuel r l : yields r l → (length l ≤ fuel)%nat → iterate fuel r = l.
Proof.
  revert r l. induction fuel as [|fuel IH]; intros [[x stk]|] l Hy Hf; cbn [iterate].
  - destruct Hy as (? & ? & ? & ? & _ & _ & ->). cbn [length] in Hf. lia.
  - done.
  - destruct Hy as (ty & nid & n & st & -> & Hp & ->). f_equal. apply IH; [|cbn [length] in Hf; lia].
    unfold peekNextItem. cbn [tail]. destruct (decide (n < 64)%nat) as [Hn|Hn]; [by apply peekNext_spec|].
    destruct st as [|[[|cs'] nid'] st]; [done..|]. destruct Hp as [[Hl' _] _]. lia.
  - done.
Qed.

Lemma peekFirstItem_spec t : wf_root t → yields (peekFirstItem t) (leaves 64 t).
Proof.
  destruct t as [|cs]; [done|]. intros Hw. unfold peekFirstItem. cbn [firstBelow].
  destruct (firstInner_spec 64 63 0 cs SHAMapNodeID.root 0 []) as [Hy|[Hn ->]];
    [lia|apply root_level|done|done| |by rewrite Hn].
  cbn [remaining] in Hy. by rewrite app_nil_r in Hy.
Qed.

(** ** Order *)

Lemma leaves_prefix n p t it : wf n p t → it ∈ leaves n t → pre n (tag_ it) = p.
Proof.
  intros Hw Hin. apply (elem_of_leaves n p t it Hw) in Hin as [ty Hg].
  by destruct (get_prefix _ _ _ _ _ Hw Hg).
Qed.

Lemma pre_lt n k k' : pre n k < pre n k' → k < k'.
Proof.
  unfold pre. intros H. apply Z.nle_gt. intros Hle.
  assert (k' / 16 ^ Z.of_nat n ≤ k / 16 ^ Z.of_nat n); [|lia].
  apply Z.div_le_mono; [|done]. apply Z.pow_pos_nonneg; lia.
Qed.

Lemma sorted_app (l1 l2 : list Z) :
  StronglySorted Z.lt l1 → StronglySorted Z.lt l2 → (∀ x y, x ∈ l1 → y ∈ l2 → x < y) →
  StronglySorted Z.lt (l1 ++ l2).
Proof.
  intros H1 H2. induction H1 as [|x l1 H1 IH Hx]; intros H; [done|]. cbn [app]. constructor.
  - apply IH. intros y z Hy. apply H. by right.
  - apply Forall_app. split; [done|]. apply Forall_forall. intros y. apply H. left.
Qed.

Definition Sorted_spec (n : nat) : Prop := ∀ p t, wf n p t → StronglySorted Z.lt (tag_ <$> leaves n t).

Lemma children_sorted n p cs :
  Sorted_spec n → wf_children n p cs → StronglySorted Z.lt (tag_ <$> leaves (S n) (Inner cs)).
Proof.
  intros IH [Hl Hc]. rewrite leaves_inner.
  assert (∀ m b, b + Z.of_nat m = 16 → 0 ≤ b → StronglySorted Z.lt (tag_ <$> leaves_from n cs b)) as Hm.
  { induction m as [|m IHm]; intros b Hb Hb0; [rewrite leaves_from_end by (done || lia); constructor|].
    rewrite (leaves_from_step n cs b) by (done || lia). rewrite fmap_app. apply sorted_app.
    - destruct (getChild cs b) as [c|] eqn:Ec; [|constructor]. apply (IH (16 * p + b)), Hc; [lia|done].
    - apply IHm; lia.
    - intros x y (it & -> & Hx)%list_elem_of_fmap (it' & -> & Hy)%list_elem_of_fmap.
      destruct (getChild cs b) as [c|] eqn:Ec; [|by apply elem_of_nil in Hx].
      apply elem_of_leaves_from in Hy as (i & c' & Hi & Ec' & Hy); [|done|lia].
      apply (pre_lt n). rewrite (leaves_prefix n (16 * p + b) c it), (leaves_prefix n (16 * p + i) c' it')
        by (done || (apply Hc; [lia|done])). lia. }
  by apply (Hm 16%nat).
Qed.

Lemma leaves_sorted n : Sorted_spec n.
Proof.
  induction n as [|n IH]; intros p [it ty|cs] Hw; try done; try (rewrite leaves_leaf; repeat constructor).
  apply wf_inner in Hw as [Hw _]. by eapply children_sorted.
Qed.

Lemma root_leaves_sorted t : wf_root t → StronglySorted Z.lt (tag_ <$> leaves 64 t).
Proof. destruct t as [|cs]; [done|]. intros Hw. apply (children_sorted 63 0 cs); [apply leaves_sorted|done]. Qed.

Lemma elem_of_root_leaves t it :
  wf_root t → it ∈ leaves 64 t ↔ ∃ ty, get 64 t (tag_ it) = Some (it, ty).
Proof.
  destruct t as [|cs]; [done|]. intros Hw. apply (elem_of_children_leaves 63 0 cs); [apply elem_of_leaves|done].
Qed.

(** ** The first item after a key *)

Lemma path_top n p st : path n p st → (64 ≤ n)%nat → st = [].
Proof.
  intros Hp Hn. destruct st as [|[[|cs] nid] st]; [done..|]. destruct Hp as [[Hl _] _]. lia.
Qed.

Lemma upper_path n p st k : path n p st → upper st k = peekNext st k.
Proof.
  revert n p. induction st as [|[[|cs] nid] st IH]; intros n p Hp; [done..|]. destruct Hp as (_ & _ & Hp).
  cbn [upper peekNext]. destruct (scan _ _) as [[i c]|]; [done|]. by eapply IH.
Qed.

Lemma upper_spec n st k : path n (pre n k) st → yields (upper st k) (remaining n (pre n k) st).
Proof.
  intros Hp. rewrite (upper_path n (pre n k)) by done.
  destruct (decide (n < 64)%nat) as [Hn|Hn]; [by apply peekNext_spec|].
  by rewrite (path_top _ _ _ Hp) by lia.
Qed.

Lemma leaves_split n cs b :
  length cs = 16%nat → 0 ≤ b < 16 →
  leaves_from n cs 0 = concat (map (child_leaves n) (take (Z.to_nat b) cs)) ++
    child_leaves n (getChild cs b) ++ leaves_from n cs (b + 1).
Proof.
  intros Hl Hb. rewrite <- leaves_from_step by done. unfold leaves_from at 1 2.
  rewrite drop_0, <- (take_drop (Z.to_nat b) cs) at 1. by rewrite map_app, concat_app.
Qed.

Lemma filter_after n p cs k :
  wf_children n p cs → pre (S n) k = p →
  filter (λ it, k < tag_ it) (leaves (S n) (Inner cs)) =
    filter (λ it, k < tag_ it) (child_leaves n (getChild cs (nib (S n) k))) ++ leaves_from n cs (nib (S n) k + 1).
Proof.
  intros [Hl Hc] Hp. pose proof (nib_range (S n) k) as Hb. set (b := nib (S n) k) in *.
  assert (pre n k = 16 * p + b) as Hk by (rewrite (pre_split n k); lia).
  rewrite leaves_inner, (leaves_split n cs b), !filter_app by done.
  rewrite (filter_all _ (leaves_from n cs (b + 1))).
  2: { intros it (i & c & Hi & Ec & Hit)%elem_of_leaves_from; [|done|lia]. apply (pre_lt n).
       rewrite (leaves_prefix n (16 * p + i) c it) by (done || (apply Hc; [lia|done])). lia. }
  assert (filter (λ it, k < tag_ it) (concat (map (child_leaves n) (take (Z.to_nat b) cs))) = []) as ->; [|done].
  apply filter_none. intros it Hit. apply list_elem_of_In, in_concat in Hit as (l & Hin%in_map_iff & Hit).
  destruct Hin as (o & <- & Ho%list_elem_of_In). destruct o as [c|]; [|done].
  apply list_elem_of_lookup in Ho as [j Hj]. apply lookup_take_Some in Hj as [Hj Hlt].
  assert (getChild cs (Z.of_nat j) = Some c) as Ec by (unfold getChild; by rewrite Nat2Z.id, Hj).
  apply Z.nlt_ge, Z.lt_le_incl, (pre_lt n). apply list_elem_of_In in Hit.
  rewrite (leaves_prefix n (16 * p + Z.of_nat j) c it) by (done || (apply Hc; [lia|done])). lia.
Qed.

Lemma walk_upper n p t k fuel nid st :
  loose n p t → pre n k = p → at_level n nid → (n ≤ fuel)%nat → path n p st →
  ∃ o stk, walk fuel k t nid st = Some (o, stk) ∧
    yields (upper stk k) (filter (λ it, k < tag_ it) (leaves n t) ++ remaining n p st).
Proof.
  intros Hl0 Hk0 Ha Hf Hp0. revert Hp0. rewrite <- Hk0.
  refine (walk_ind k (λ n t nid st r, path n (pre n k) st → ∃ o stk, r = Some (o, stk) ∧
    yields (upper stk k) (filter (λ it, k < tag_ it) (leaves n t) ++ remaining n (pre n k) st))
    _ _ _ n p t fuel nid st _ _ _ _); try done; clear.
  - intros n p it ty nid st Hp Hk Hl Hpath. eexists _, _. split; [done|]. rewrite leaves_leaf. cbn [upper].
    destruct (tag_ it >? k) eqn:E; zb.
    + rewrite filter_cons_True by done. exists ty, nid, n, st. by rewrite Hp, <- Hk.
    + rewrite filter_cons_False by lia. by apply upper_spec.
  - intros n p cs nid st Hw Hk Hl Ec Hpath. eexists _, _. split; [done|].
    rewrite (filter_after n p), Ec by done. cbn [child_leaves]. rewrite filter_nil. cbn [app].
    assert (path n (pre n k) ((Inner cs, nid) :: st)) as Hp'.
    { cbn [path]. rewrite <- pre_S, Hk. by rewrite Hk in Hpath. }
    pose proof (upper_spec n _ k Hp') as Hy. cbn [remaining] in Hy. by rewrite <- nib_pre, <- pre_S in Hy.
  - intros n p cs c nid st r Hw Hk Hl Ec Hwc IH Hpath.
    destruct IH as (o & stk & -> & Hy).
    { cbn [path]. rewrite <- pre_S, Hk. by rewrite Hk in Hpath. }
    exists o, stk. split; [done|]. rewrite (filter_after n p), Ec by done. cbn [child_leaves remaining] in *.
    by rewrite <- app_assoc, nib_pre, pre_S.
Qed.

Lemma upper_bound_spec t k :
  wf_root t → is_key k → yields (upper_bound t k) (filter (λ it, k < tag_ it) (leaves 64 t)).
Proof.
  intros Hw Hk. unfold upper_bound, walkTowardsKey.
  destruct (walk_upper 64 0 t k 64 SHAMapNodeID.root []) as (o & stk & -> & Hy);
    [by apply root_loose|by apply pre_64|apply root_level|done|done|].
  cbn [remaining] in Hy. by rewrite app_nil_r in Hy.
Qed.

End iter.

(** ** Iterating over a map *)

(** In increasing order of the keys, so each key once *)
Definition in_key_order {D} (l : list (SHAMapItem D)) : Prop := StronglySorted Z.lt (tag_ <$> l).

Section contents.
Context {D : Type} (ty : TNType).
Implicit Types (t : node D) (m : gmap Z D) (it : SHAMapItem D).

Lemma elem_of_Rep_leaves t m it : Rep ty t m → it ∈ leaves 64 t ↔ m !! tag_ it = Some (data_ it).
Proof.
  intros [[Hw _] Hm]. rewrite elem_of_root_leaves by done. setoid_rewrite Hm. destruct it as [k d]. cbn [tag_ data_].
  split.
  - intros [ty' (d' & Hd & [= <- _])%fmap_Some]. done.
  - intros ->. by exists ty.
Qed.

Lemma length_Rep_leaves t m : Rep ty t m → length (leaves 64 t) = size m.
Proof.
  intros Hr. pose proof (root_leaves_sorted t (proj1 (proj1 Hr))) as Hs.
  rewrite <- length_map_to_list. rewrite <- (length_fmap (λ it, (tag_ it, data_ it))).
  apply Permutation_length, NoDup_Permutation.
  - apply (NoDup_fmap_1 fst). rewrite <- list_fmap_compose. by apply sorted_NoDup.
  - apply NoDup_map_to_list.
  - intros [k d]. rewrite elem_of_map_to_list, list_elem_of_fmap. split.
    + intros ([k' d'] & [= -> ->] & Hin). by apply (elem_of_Rep_leaves t m) in Hin.
    + intros Hd. exists (mkItem k d). split; [done|]. by apply (elem_of_Rep_leaves t m).
Qed.

(** C33: Iteration from the first item visits the contents of the map, each item once, in
    the order of the keys, and ends; [upper_bound] starts it at the first item after the
    given key. *)
Theorem shamap_iteration t m fuel :
  Rep ty t m → (size m ≤ fuel)%nat →
  let l := iterate fuel (peekFirstItem t) in
  in_key_order l ∧ (∀ it, it ∈ l ↔ m !! tag_ it = Some (data_ it)) ∧
  ∀ k, is_key k → iterate fuel (upper_bound t k) = filter (λ it, k < tag_ it) l.
Proof.
  intros Hr Hf l. pose proof (proj1 (proj1 Hr)) as Hw. pose proof (length_Rep_leaves t m Hr) as Hlen.
  assert (l = leaves 64 t) as ->.
  { apply iterate_yields; [by apply peekFirstItem_spec|lia]. }
  split; [by apply root_leaves_sorted|]. split; [intros it; by apply elem_of_Rep_leaves|].
  intros k Hk. apply iterate_yields; [by apply upper_bound_spec|].
  etransitivity; [apply length_filter|lia].
Qed.

End contents.

Lemma demo_rep : Rep tnACCOUNT_STATE (demo_tree demo_ops3) (spec_all ∅ demo_ops3).2.
Proof.
  destruct (exec_all_spec demo_leaf_hash tnACCOUNT_STATE demo_ops3 empty_root ∅ (Rep_empty _)
    demo_keys3 demo_distinct3) as (t & E & Hr).
  unfold demo_tree. by rewrite E.
Qed.

Lemma shamap_iteration_witness :
  let l := iterate 5 (peekFirstItem (demo_tree demo_ops3)) in
  in_key_order l ∧ (∀ it, it ∈ l ↔ (spec_all ∅ demo_ops3).2 !! tag_ it = Some (data_ it)) ∧
  ∀ k, is_key k → iterate 5 (upper_bound (demo_tree demo_ops3) k) = filter (λ it, k < tag_ it) l.
Proof.
  refine (shamap_iteration tnACCOUNT_STATE (demo_tree demo_ops3) (spec_all ∅ demo_ops3).2 5 demo_rep _).
  apply Nat.leb_le. by vm_compute.
Defined.

End SHAMapIter.
