(* ===== verification/LedgerHeader.v ===== *)
(** * LedgerHeader: the header of a ledger and its hash

    Models [addRaw (LedgerInfo, Serializer)] of [ledger/impl/View.cpp],
    [calculateLedgerHash] of [app/ledger/Ledger.cpp] and
    [InboundLedger::deserializeHeader] of [app/ledger/impl/InboundLedger.cpp], with the
    flags of [ledger/ReadView.h].  SHA-512 half is a parameter on the bytes hashed. *)

From S2P Require Import Prelude Serializer SerialIter ReadView SHAMapTreeNode.

Definition ledgerMaster : Z := HashPrefix 76 87 82. (* LWR *)

Definition sLCF_NoConsensusTime : Z := 1.
Definition sLCF_SHAMapV2 : Z := 2.

Definition getCloseAgree (info : LedgerInfo) : bool :=
  Z.land (info_closeFlags info) sLCF_NoConsensusTime =? 0.
Definition getSHAMapV2 (info : LedgerInfo) : bool :=
  negb (Z.land (info_closeFlags info) sLCF_SHAMapV2 =? 0).

Module LedgerHeader.
Import Serializer.

(** [LedgerInfo {}] *)
Definition default_info : LedgerInfo := mkLedgerInfo 0 0 0 0 0 0 0 false false 0 0 0.

Definition addRaw (info : LedgerInfo) (s : Serializer.t) : Serializer.t :=
  let s := (add32 s (info_seq info)).1 in
  let s := (add64 s (u64 (info_drops info))).1 in
  let s := (add256 s (info_parentHash info)).1 in
  let s := (add256 s (info_txHash info)).1 in
  let s := (add256 s (info_accountHash info)).1 in
  let s := (add32 s (info_parentCloseTime info)).1 in
  let s := (add32 s (info_closeTime info)).1 in
  let s := (add8 s (u8 (info_closeTimeResolution info))).1 in
  (add8 s (u8 (info_closeFlags info))).1.

Definition calculateLedgerHash (sha512Half : list Z → Z) (info : LedgerInfo) : Z :=
  sha512Half (be_bytes 4 ledgerMaster ++ be_bytes 4 (u32 (info_seq info)) ++
    be_bytes 8 (u64 (info_drops info)) ++ be_bytes 32 (info_parentHash info) ++
    be_bytes 32 (info_txHash info) ++ be_bytes 32 (info_accountHash info) ++
    be_bytes 4 (u32 (info_parentCloseTime info)) ++ be_bytes 4 (u32 (info_closeTime info)) ++
    be_bytes 1 (u8 (info_closeTimeResolution info)) ++ be_bytes 1 (u8 (info_closeFlags info))).

(** The drops are read as [std::uint64_t] and assigned to a signed amount. *)
Definition deserializeHeader (data : list Z) (hasPrefix : bool) : result LedgerInfo :=
  let sit := SerialIter.of_slice data in
  '(_, sit) ← (if hasPrefix then SerialIter.get32 sit else Ok (0, sit));
  '(seq, sit) ← SerialIter.get32 sit;
  '(drops, sit) ← SerialIter.get64 sit;
  '(parentHash, sit) ← SerialIter.get256 sit;
  '(txHash, sit) ← SerialIter.get256 sit;
  '(accountHash, sit) ← SerialIter.get256 sit;
  '(parentCloseTime, sit) ← SerialIter.get32 sit;
  '(closeTime, sit) ← SerialIter.get32 sit;
  '(resolution, sit) ← SerialIter.get8 sit;
  '(closeFlags, sit) ← SerialIter.get8 sit;
  Ok (mkLedgerInfo seq parentCloseTime 0 txHash accountHash parentHash (s64 drops) false false
        closeFlags resolution closeTime).

(** The widths the fields have in a header *)
Record fits (info : LedgerInfo) : Prop := {
  f_seq : is_unsigned 32 (info_seq info);
  f_drops : is_signed 64 (info_drops info);
  f_parent : is_uint256 (info_parentHash info);
  f_tx : is_uint256 (info_txHash info);
  f_account : is_uint256 (info_accountHash info);
  f_pct : is_unsigned 32 (info_parentCloseTime info);
  f_ct : is_unsigned 32 (info_closeTime info);
  f_res : is_unsigned 8 (info_closeTimeResolution info);
  f_flags : is_unsigned 8 (info_closeFlags info) }.

(** The header bytes *)
Definition header_bytes (info : LedgerInfo) : list Z :=
  be_bytes 4 (info_seq info) ++ be_bytes 8 (u64 (info_drops info)) ++
  be_bytes 32 (info_parentHash info) ++ be_bytes 32 (info_txHash info) ++
  be_bytes 32 (info_accountHash info) ++ be_bytes 4 (info_parentCloseTime info) ++
  be_bytes 4 (info_closeTime info) ++ [u8 (info_closeTimeResolution info)] ++ [u8 (info_closeFlags info)].

Lemma addRaw_bytes info s : mData (addRaw info s) = mData s ++ header_bytes info.
Proof.
  unfold addRaw, header_bytes. rewrite !add32_bytes, add64_bytes.
  unfold add256, addBitString, add8, push. cbn [mData fst]. by rewrite <- !app_assoc.
Qed.

Lemma be_bytes_wrapu n w x : w = 8 * Z.of_nat n → be_bytes n (wrapu w x) = be_bytes n x.
Proof.
  intros ->. apply be_bytes_low. unfold wrapu.
  rewrite Z.pow_mul_r by lia. change (2 ^ 8) with 256. apply Z.mod_mod. lia.
Qed.

Lemma be_bytes_1 x : be_bytes 1 (u8 x) = [u8 x].
Proof. cbn [be_bytes]. rewrite Z.shiftr_0_r. unfold wrapu. by rewrite Z.mod_mod by lia. Qed.

Lemma calculateLedgerHash_bytes sha512Half info :
  calculateLedgerHash sha512Half info = sha512Half (be_bytes 4 ledgerMaster ++ header_bytes info).
Proof.
  unfold calculateLedgerHash, header_bytes. by rewrite !(be_bytes_wrapu 4 32), !be_bytes_1 by done.
Qed.

(** The ledger hash is the hash of the stored header, whatever the fields hold. *)
Theorem ledger_hash_of_header sha512Half info :
  calculateLedgerHash sha512Half info =
    sha512Half (mData (addRaw info (add32 (Serializer.mk []) ledgerMaster).1)).
Proof. by rewrite calculateLedgerHash_bytes, addRaw_bytes, add32_bytes. Qed.

Lemma read_header pre info rest :
  fits info →
  ('(seq, sit) ← SerialIter.get32 (cursor pre (header_bytes info ++ rest));
   '(drops, sit) ← SerialIter.get64 sit;
   '(parentHash, sit) ← SerialIter.get256 sit;
   '(txHash, sit) ← SerialIter.get256 sit;
   '(accountHash, sit) ← SerialIter.get256 sit;
   '(parentCloseTime, sit) ← SerialIter.get32 sit;
   '(closeTime, sit) ← SerialIter.get32 sit;
   '(resolution, sit) ← SerialIter.get8 sit;
   '(closeFlags, sit) ← SerialIter.get8 sit;
   Ok (mkLedgerInfo seq parentCloseTime 0 txHash accountHash parentHash (s64 drops) false false
        closeFlags resolution closeTime)) =
  Ok (mkLedgerInfo (info_seq info) (info_parentCloseTime info) 0 (info_txHash info) (info_accountHash info)
        (info_parentHash info) (info_drops info) false false (info_closeFlags info)
        (info_closeTimeResolution info) (info_closeTime info)).
Proof.
  intros [Hseq Hdrops Hparent Htx Hacc Hpct Hct Hres Hfl]. unfold header_bytes. rewrite <- !app_assoc.
  rewrite (proj1 (proj2 (get_int_cursor pre (info_seq info) _))), ok_bind.
  rewrite (proj2 (proj2 (get_int_cursor _ (u64 (info_drops info)) _))), ok_bind.
  unfold SerialIter.get256. change (be_bytes 32) with (be_bytes (256 / 8)).
  do 3 (rewrite getBitString_cursor, ok_bind by done; cbn beta iota).
  rewrite (proj1 (proj2 (get_int_cursor _ (info_parentCloseTime info) _))), ok_bind.
  rewrite (proj1 (proj2 (get_int_cursor _ (info_closeTime info) _))), ok_bind.
  cbn [app]. do 2 (rewrite get8_cursor, ok_bind; cbn beta iota).
  do 2 f_equal; try (by apply wrapu_id).
  rewrite (wrapu_id 64 (u64 _)) by (by apply wrapu_range).
  unfold wraps, wrapu. rewrite Zplus_mod_idemp_l. by apply wraps_id.
Qed.

(** C38: A header read back, with or without the prefix it is stored under, is the header
    written, but for the fields the wire does not carry. *)
Theorem header_roundtrip info :
  fits info →
  let info' := mkLedgerInfo (info_seq info) (info_parentCloseTime info) 0 (info_txHash info)
    (info_accountHash info) (info_parentHash info) (info_drops info) false false
    (info_closeFlags info) (info_closeTimeResolution info) (info_closeTime info) in
  deserializeHeader (mData (addRaw info (Serializer.mk []))) false = Ok info' ∧
  deserializeHeader (mData (addRaw info (add32 (Serializer.mk []) ledgerMaster).1)) true = Ok info'.
Proof.
  intros Hf info'. rewrite !addRaw_bytes, add32_bytes. unfold deserializeHeader. cbn [mData push fst app].
  split.
  - pose proof (read_header [] info [] Hf) as Hr. rewrite app_nil_r in Hr. exact Hr.
  - change (SerialIter.of_slice ?l) with (cursor [] l).
    rewrite (proj1 (proj2 (get_int_cursor [] ledgerMaster _))), ok_bind.
    pose proof (read_header ([] ++ be_bytes 4 ledgerMaster) info [] Hf) as Hr.
    rewrite app_nil_r in Hr. exact Hr.
Qed.

Definition demo_info : LedgerInfo :=
  mkLedgerInfo 7 100 0 (2 ^ 200) 3 (2 ^ 255 + 1) 40000000000000000 false false 1 30 (2 ^ 32 - 1).

Lemma demo_fits : fits demo_info.
Proof. by split; unfold is_unsigned, is_signed, is_uint256; simpl; lia. Qed.

Lemma header_roundtrip_witness :
  deserializeHeader (mData (addRaw demo_info (Serializer.mk []))) false = Ok demo_info ∧
  deserializeHeader (mData (addRaw demo_info (add32 (Serializer.mk []) ledgerMaster).1)) true = Ok demo_info.
Proof. exact (header_roundtrip demo_info demo_fits). Defined.

End LedgerHeader.
