(* ===== verification/Ledger.v ===== *)
(** * Ledger: the state of a ledger

    Models [app/ledger/Ledger.h] and [app/ledger/Ledger.cpp]: a ledger as a [ReadView]
    and as a raw view over its state and transaction trees, the next ledger, and closing
    a ledger.  Both trees are of version 1.  How a ledger entry is serialized
    ([STLedgerEntry] over [STObject]) is used through the interface [SLECodec]; fees and rules,
    the genesis ledger, skip lists, loading and saving are left out. *)

From stdpp Require Import sorting.
From S2P Require Import Prelude Serializer SerialIter ReadView SHAMap SHAMapInv SHAMapTreeNode SHAMapSpec SHAMapIter LedgerHeader LedgerTiming.
From coqutil Require Export Datatypes.RecordSettersUsingExistingGetters.

Module Ledger.
Import SHAMap.

Record t := mk {
  mImmutable : bool;
  txMap_ : node (list Z);
  stateMap_ : node (list Z);
  info_ : LedgerInfo
}.

Section ledger.
Context {D : Type} `{C : SLECodec D} (sha512Half : list Z → Z).
Implicit Types (l : t) (k : Keylet) (sle : SLE D).

(** ** Reading *)

Definition exists_ l k : bool := hasItem (stateMap_ l) (k_key k).

Definition succ l (key : Z) (last : option Z) : option Z :=
  match upper_bound (stateMap_ l) key with
  | None => None
  | Some (item, _) =>
      match last with
      | Some last => if tag_ item >=? last then None else Some (tag_ item)
      | None => Some (tag_ item)
      end
  end.

(** [peek] and the part of [read] after its check of the key *)
Definition peek l k : result (option (SLE D)) :=
  match peekItem (stateMap_ l) (k_key k) with
  | None => Ok None
  | Some item =>
      sle ← sle_make (data_ item) (tag_ item);
      if negb (check k sle) then Ok None else Ok (Some sle)
  end.

Definition read l k : result (option (SLE D)) :=
  if k_key k =? 0 then Ok None else peek l k.

(** The entries of the range [slesBegin, slesEnd) *)
Definition items l (fuel : nat) : list (SHAMapItem (list Z)) := iterate fuel (peekFirstItem (stateMap_ l)).
Definition items_after l (fuel : nat) (key : Z) : list (SHAMapItem (list Z)) :=
  iterate fuel (upper_bound (stateMap_ l) key).

(** [sles_iter_impl::dereference] *)
Definition dereference (item : SHAMapItem (list Z)) : result (SLE D) := sle_make (data_ item) (tag_ item).

Definition txExists l (key : Z) : bool := hasItem (txMap_ l) key.

Definition digest l (key : Z) : option Z :=
  '(item, type) ← findKey (stateMap_ l) key;
  Some (SHAMapTreeNode.computeHash sha512Half (SHAMapTreeNode.TreeNode item type 0)).

(** ** Raw modification *)

Abbreviation leaf_hash := (SHAMapSpec.leaf_hash sha512Half).

(** A tree operation that fails without running out of tree *)
Definition updated (o : option (bool * node (list Z))) (what : string) : result (node (list Z)) :=
  match o with
  | Some (true, n) => Ok n
  | Some (false, _) => Throw (logic_error what)
  | None => Throw (undefined_behaviour "beyond the leaves of the tree")
  end.

Definition rawErase sle l : result t :=
  n ← updated (delItem (stateMap_ l) (sle_key sle)) "Ledger::rawErase: key not found";
  Ok (l<|stateMap_ := n|>).

Definition rawInsert sle l : result t :=
  ss ← sle_serialize sle;
  n ← updated (addGiveItem (stateMap_ l) (mkItem (sle_key sle) ss) tnACCOUNT_STATE)
        "Ledger::rawInsert: key already exists";
  Ok (l<|stateMap_ := n|>).

Definition rawReplace sle l : result t :=
  ss ← sle_serialize sle;
  n ← updated (updateGiveItem leaf_hash (stateMap_ l) (mkItem (sle_key sle) ss) tnACCOUNT_STATE)
        "Ledger::rawReplace: key not found";
  Ok (l<|stateMap_ := n|>).

(** The blob of a transaction with its metadata *)
Definition tx_blob (txn metaData : list Z) : result (list Z) :=
  '(s, _) ← Serializer.addVL (Serializer.mk []) txn;
  '(s, _) ← Serializer.addVL s metaData;
  Ok (Serializer.mData s).

(** The metadata pointer is dereferenced. *)
Definition rawTxInsert (key : Z) (txn : list Z) (metaData : option (list Z)) l : result t :=
  match metaData with
  | None => Throw (undefined_behaviour "null metadata")
  | Some metaData =>
      blob ← tx_blob txn metaData;
      n ← updated (addGiveItem (txMap_ l) (mkItem key blob) tnTRANSACTION_MD) "duplicate_tx";
      Ok (l<|txMap_ := n|>)
  end.

Definition with_drops (i : LedgerInfo) (drops : Z) : LedgerInfo :=
  mkLedgerInfo (info_seq i) (info_parentCloseTime i) (info_hash i) (info_txHash i) (info_accountHash i)
    (info_parentHash i) drops (info_validated i) (info_accepted i) (info_closeFlags i)
    (info_closeTimeResolution i) (info_closeTime i).

Definition rawDestroyCSC (fee : Z) l : result t :=
  Ok (l<|info_ ::= (λ i, with_drops i (s64 (info_drops i - fee)))|>).

(** ** The next ledger, and closing it *)

(** [Ledger (Ledger const& prevLedger, closeTime)]; a version 1 state map stays one *)
Definition next (prevLedger : t) (closeTime : Z) : t :=
  let p := info_ prevLedger in
  let seq := u32 (info_seq p + 1) in
  let resolution := getNextLedgerTimeResolution (info_closeTimeResolution p) (getCloseAgree p) seq in
  let closeTime :=
    if info_closeTime p =? 0 then roundCloseTime closeTime resolution
    else u32 (info_closeTime p + resolution) in
  mk false empty_root (stateMap_ prevLedger)
    (mkLedgerInfo seq (info_closeTime p) (wrapu 256 (info_hash p + 1)) 0 0 (info_hash p) (info_drops p)
       false false 0 resolution closeTime).

Definition setImmutable l : t :=
  let i := info_ l in
  let txHash := if negb (mImmutable l) then SHAMapSpec.tree_hash sha512Half (txMap_ l) else info_txHash i in
  let accountHash :=
    if negb (mImmutable l) then SHAMapSpec.tree_hash sha512Half (stateMap_ l) else info_accountHash i in
  let with_hash h := mkLedgerInfo (info_seq i) (info_parentCloseTime i) h txHash accountHash
    (info_parentHash i) (info_drops i) (info_validated i) (info_accepted i) (info_closeFlags i)
    (info_closeTimeResolution i) (info_closeTime i) in
  mk true (txMap_ l) (stateMap_ l)
    (with_hash (LedgerHeader.calculateLedgerHash sha512Half (with_hash (info_hash i)))).

Definition setAccepted (closeTime closeResolution : Z) (correctCloseTime : bool) l : t :=
  let i := info_ l in
  setImmutable (l<|info_ := mkLedgerInfo (info_seq i) (info_parentCloseTime i) (info_hash i) (info_txHash i)
    (info_accountHash i) (info_parentHash i) (info_drops i) (info_validated i) (info_accepted i)
    (if correctCloseTime then 0 else sLCF_NoConsensusTime) closeResolution closeTime|>).

Definition assertSane l : bool :=
  negb (info_hash (info_ l) =? 0) && negb (info_accountHash (info_ l) =? 0) &&
  (info_accountHash (info_ l) =? SHAMapSpec.tree_hash sha512Half (stateMap_ l)) &&
  (info_txHash (info_ l) =? SHAMapSpec.tree_hash sha512Half (txMap_ l)).

End ledger.
End Ledger.
