(* ===== verification/LedgerSpec.v ===== *)
(** * LedgerSpec: a ledger shows a finite map of entries

    A [Ledger] keeps the promises of [ReadView] and of [RawView], by the contract of its
    state tree.  With [OpenView] this gives the way state reaches a closed ledger: a view
    over the parent is applied to the next ledger. *)

From stdpp Require Import sorting.
From S2P Require Import Prelude Serializer ReadView RawStateTable OpenView SHAMap SHAMapInv SHAMapTreeNode SHAMapSpec SHAMapIter LedgerHeader Ledger.

Module LedgerSpec.
Import SHAMap SHAMapInv SHAMapSpec Ledger.

Section spec.
Context {D : Type} `{C : SLECodec D} {CL : SLECodecLaws C} (sha512Half : list Z → Z).
Implicit Types (l : Ledger.t) (m : gmap Z (SLE D)) (k : Keylet) (e sle : SLE D).

(** The entries in use: they have a binary form, and no two of them under one key have
    colliding leaves. *)
Context (universe : SLE D → Prop).
Context (universe_valid : ∀ e, universe e → sle_valid e).
Context (no_collision : ∀ e e', universe e → universe e' → sle_key e = sle_key e' →
  leaf_hash sha512Half (mkItem (sle_key e) (sle_bytes e)) tnACCOUNT_STATE =
  leaf_hash sha512Half (mkItem (sle_key e') (sle_bytes e')) tnACCOUNT_STATE → e = e').

(** The ledger [l] holds the entries [m]. *)
Record holds l m : Prop := {
  h_state : Rep tnACCOUNT_STATE (stateMap_ l) (sle_bytes <$> m);
  h_keyed : keyed m;
  h_zero : m !! 0 = None;
  h_universe : map_Forall (λ _ e, universe e) m }.

Lemma is_uint256_key (x : Z) : is_uint256 x → is_key x.
Proof. intros H. exact H. Qed.

Lemma holds_item l m key :
  holds l m → is_uint256 key → peekItem (stateMap_ l) key = (λ e, mkItem key (sle_bytes e)) <$> m !! key.
Proof.
  intros Hh Hk. destruct (Rep_lookup _ _ _ key (h_state _ _ Hh) (is_uint256_key _ Hk)) as [-> _].
  rewrite lookup_fmap. by destruct (m !! key).
Qed.

Lemma make_entry l m key e : holds l m → m !! key = Some e → sle_make (sle_bytes e) key = Ok e.
Proof.
  intros Hh He. pose proof (h_universe _ _ Hh _ _ He) as Hu. destruct (h_keyed _ _ Hh key e He) as [<- _].
  by apply sle_bytes_ok, universe_valid.
Qed.

Lemma ledger_read_spec l m k : holds l m → is_uint256 (k_key k) → read l k = Ok (lookup_typed m k).
Proof.
  intros Hh Hk. unfold read, peek, lookup_typed. case_if; zb.
  - by rewrite E, (h_zero _ _ Hh).
  - rewrite (holds_item l m) by done. destruct (m !! k_key k) as [e|] eqn:Ee; [|done].
    cbn [fmap option_fmap option_map data_ tag_].
    rewrite (make_entry l m) by done. rewrite ok_bind. by destruct (check k e).
Qed.

Lemma ledger_succ_spec l m key last :
  holds l m → is_uint256 key → is_succ (λ j, is_Some (m !! j) ∧ below last j) key (succ l key last).
Proof.
  intros Hh Hk. pose proof (h_state _ _ Hh) as Hr. pose proof (proj1 (proj1 Hr)) as Hw.
  assert (is_succ (λ j, is_Some (m !! j)) key (tag_ ∘ fst <$> upper_bound (stateMap_ l) key)) as Hs.
  { pose proof (SHAMapIter.upper_bound_spec _ key Hw (is_uint256_key _ Hk)) as Hy.
    assert (∀ j, is_Some (m !! j) ↔ ∃ it, it ∈ SHAMapIter.leaves 64 (stateMap_ l) ∧ tag_ it = j) as Hleaf.
    { intros j. split.
      - intros [e He]. exists (mkItem j (sle_bytes e)). split; [|done].
        apply (SHAMapIter.elem_of_Rep_leaves _ _ _ _ Hr). cbn [tag_ data_]. by rewrite lookup_fmap, He.
      - intros (it & Hin & <-). apply (SHAMapIter.elem_of_Rep_leaves _ _ _ _ Hr) in Hin.
        rewrite lookup_fmap in Hin. by destruct (m !! tag_ it). }
    pose proof (SHAMapIter.root_leaves_sorted _ Hw) as Hsort.
    destruct (upper_bound (stateMap_ l) key) as [[x stk]|]; cbn [fmap option_fmap option_map compose fst is_succ].
    - destruct Hy as (ty & nid & n & st & _ & _ & El).
      assert (x ∈ filter (λ it, key < tag_ it) (SHAMapIter.leaves 64 (stateMap_ l))) as Hx by (rewrite El; left).
      apply list_elem_of_filter in Hx as [Hlt Hx]. split; [apply Hleaf; eauto|]. split; [done|].
      intros j (it & Hit & <-)%Hleaf Hj.
      assert (it ∈ filter (λ it, key < tag_ it) (SHAMapIter.leaves 64 (stateMap_ l))) as Hin
        by by apply list_elem_of_filter.
      assert (StronglySorted Z.lt (tag_ <$> filter (λ it, key < tag_ it) (SHAMapIter.leaves 64 (stateMap_ l)))) as Hsf
        by by apply filter_sorted.
      rewrite El in Hin, Hsf. apply elem_of_cons in Hin as [->|Hin]; [done|].
      apply (RawStateTable.sorted_cons_inv tag_) in Hsf as [_ Hgt]. apply Z.lt_le_incl, Hgt.
      apply list_elem_of_fmap. by exists it.
    - intros j (it & Hit & <-)%Hleaf. apply Z.nlt_ge. intros Hj.
      assert (it ∈ filter (λ it, key < tag_ it) (SHAMapIter.leaves 64 (stateMap_ l))) as Hin
        by by apply list_elem_of_filter.
      rewrite Hy in Hin. by apply elem_of_nil in Hin. }
  apply (is_succ_below _ _ last) in Hs. unfold succ.
  destruct (upper_bound (stateMap_ l) key) as [[x stk]|]; cbn [fmap option_fmap option_map compose fst] in Hs;
    [|done]. by destruct last.
Qed.

(** ** Reading *)

(** The ledger as the [ReadView] it is; its iteration needs as many steps as there are
    leaves. *)
Definition as_view l : ReadView D :=
  mkReadView (info_ l) false (exists_ l) (succ l)
    (λ k, match read l k with Ok o => o | Throw _ => None end)
    (omap (λ item, match dereference item with Ok e => Some e | Throw _ => None end)
       (items l (length (SHAMapIter.leaves 64 (stateMap_ l))))).

Lemma ledger_sles_spec l m : holds l m → is_sles m (rv_sles (as_view l)).
Proof.
  intros Hh. pose proof (h_state _ _ Hh) as Hr. pose proof (proj1 (proj1 Hr)) as Hw.
  cbn [rv_sles as_view]. unfold items.
  rewrite (SHAMapIter.iterate_yields _ _ (SHAMapIter.leaves 64 (stateMap_ l)))
    by (done || by apply SHAMapIter.peekFirstItem_spec).
  assert (∀ it, it ∈ SHAMapIter.leaves 64 (stateMap_ l) →
    ∃ e, dereference it = Ok e ∧ sle_key e = tag_ it ∧ m !! tag_ it = Some e) as Hd.
  { intros it Hin. apply (SHAMapIter.elem_of_Rep_leaves _ _ _ _ Hr) in Hin.
    rewrite lookup_fmap in Hin. destruct (m !! tag_ it) as [e|] eqn:Ee; [|done]. injection Hin as Hin.
    exists e. unfold dereference. rewrite <- Hin. destruct (h_keyed _ _ Hh _ _ Ee) as [Hk _].
    split; [|done]. by eapply make_entry. }
  pose proof (SHAMapIter.root_leaves_sorted _ Hw) as Hs. split.
  - assert (∀ its : list (SHAMapItem (list Z)), (∀ it, it ∈ its → ∃ e, dereference it = Ok e ∧ sle_key e = tag_ it) →
      sle_key <$> omap (λ item, match @dereference D C item with Ok e => Some e | Throw _ => None end) its
        = tag_ <$> its) as Hmap.
    { induction its as [|it its IH]; intros H; [done|]. destruct (H it) as (e & E & Hk); [left|].
      cbn [omap list_omap]. rewrite E. cbn [fmap list_fmap]. rewrite Hk. f_equal.
      apply IH. intros it' Hin. apply H. by right. }
    rewrite Hmap; [done|]. intros it Hin. destruct (Hd it Hin) as (e & ? & ? & _). eauto.
  - intros e. rewrite list_elem_of_omap. split.
    + intros (it & Hin & Hit). destruct (Hd it Hin) as (e' & E & Hk & Hm). rewrite E in Hit.
      injection Hit as <-. by rewrite Hk.
    + intros He. exists (mkItem (sle_key e) (sle_bytes e)).
      assert (mkItem (sle_key e) (sle_bytes e) ∈ SHAMapIter.leaves 64 (stateMap_ l)) as Hin.
      { apply (SHAMapIter.elem_of_Rep_leaves _ _ _ _ Hr). cbn [tag_ data_]. by rewrite lookup_fmap, He. }
      split; [done|]. destruct (Hd _ Hin) as (e' & -> & _ & Hm). cbn [tag_] in Hm. congruence.
Qed.

Lemma ledger_exists_spec l m k :
  holds l m → is_uint256 (k_key k) → exists_ l k = bool_decide (is_Some (m !! k_key k)).
Proof.
  intros Hh Hk. unfold exists_.
  destruct (Rep_lookup _ _ _ _ (h_state _ _ Hh) (is_uint256_key _ Hk)) as [_ ->].
  apply bool_decide_ext. by rewrite lookup_fmap, fmap_is_Some.
Qed.

Lemma ledger_as_view l m : holds l m → Represents (as_view l) m.
Proof.
  intros Hh. split.
  - apply Hh.
  - intros k Hk _. by apply ledger_exists_spec.
  - intros k Hk. cbn [rv_read as_view]. by rewrite (ledger_read_spec l m).
  - intros key last. by apply ledger_succ_spec.
  - by apply ledger_sles_spec.
Qed.

(** ** Raw modification *)

Definition admissible (e : SLE D) : Prop := is_uint256 (sle_key e) ∧ sle_key e ≠ 0 ∧ universe e.

#[global] Instance ledger_raw : RawView D Ledger.t := {|
  ReadView.rawErase := rawErase;
  ReadView.rawInsert := rawInsert;
  ReadView.rawReplace := rawReplace sha512Half;
  ReadView.rawDestroyCSC := rawDestroyCSC
|}.

#[global] Instance ledger_txs : TxsRawView D (list Z) Ledger.t := {|
  txs_raw_view := ledger_raw;
  ReadView.rawTxInsert := rawTxInsert
|}.

Lemma holds_insert l m e n :
  holds l m → admissible e →
  Updated (stateMap_ l) n tnACCOUNT_STATE (sle_key e) (Some (mkItem (sle_key e) (sle_bytes e), tnACCOUNT_STATE)) →
  holds (l<|stateMap_ := n|>) (<[sle_key e := e]> m).
Proof.
  intros [Hr Hk Hz Hu] (Hk' & Hnz & Hue) Hup. split.
  - rewrite fmap_insert. by eapply Rep_updated.
  - by apply map_Forall_insert_2.
  - by rewrite lookup_insert_ne.
  - by apply map_Forall_insert_2.
Qed.

Lemma rawErase_spec l m e :
  holds l m → admissible e → is_Some (m !! sle_key e) →
  ∃ n, rawErase e l = Ok (l<|stateMap_ := n|>) ∧ holds (l<|stateMap_ := n|>) (delete (sle_key e) m).
Proof.
  intros Hh (Hk & _) [x Hx]. pose proof Hh as [Hr Hkm Hz Hu]. unfold rawErase.
  pose proof (delItem_spec _ _ (sle_key e) (proj1 Hr) (is_uint256_key _ Hk)) as Hd.
  rewrite (proj2 Hr), lookup_fmap, Hx in Hd. destruct Hd as (n & -> & Hup). exists n. split; [done|]. split.
  - rewrite fmap_delete. by eapply Rep_deleted.
  - by apply map_Forall_delete.
  - by rewrite lookup_delete_None; right.
  - by apply map_Forall_delete.
Qed.

Lemma rawInsert_spec l m e :
  holds l m → admissible e → m !! sle_key e = None →
  ∃ n, rawInsert e l = Ok (l<|stateMap_ := n|>) ∧ holds (l<|stateMap_ := n|>) (<[sle_key e := e]> m).
Proof.
  intros Hh He Hx. pose proof Hh as [Hr _ _ _]. pose proof He as (Hk & _ & Hue). unfold rawInsert.
  rewrite (proj1 (sle_bytes_ok e (universe_valid e Hue))), ok_bind.
  pose proof (addGiveItem_spec _ (mkItem (sle_key e) (sle_bytes e)) _ (proj1 Hr) (is_uint256_key _ Hk)) as Hd.
  cbn [tag_] in Hd. rewrite (proj2 Hr), lookup_fmap, Hx in Hd. destruct Hd as (n & -> & Hup).
  exists n. split; [done|]. by apply holds_insert.
Qed.

Lemma rawReplace_spec l m e :
  holds l m → admissible e → is_Some (m !! sle_key e) →
  ∃ n, rawReplace sha512Half e l = Ok (l<|stateMap_ := n|>) ∧
    holds (l<|stateMap_ := n|>) (<[sle_key e := e]> m).
Proof.
  intros Hh He [x Hx]. pose proof Hh as [Hr Hkm _ Hu]. pose proof He as (Hk & _ & Hue). unfold rawReplace.
  rewrite (proj1 (sle_bytes_ok e (universe_valid e Hue))), ok_bind.
  pose proof (updateGiveItem_spec (leaf_hash sha512Half) (stateMap_ l) (mkItem (sle_key e) (sle_bytes e))
    tnACCOUNT_STATE) as Hd.
  cbn [tag_] in Hd. rewrite (proj2 Hr), lookup_fmap, Hx in Hd. cbn [fmap option_fmap option_map] in Hd.
  destruct Hd as (n & -> & Hup); [|apply Hr|by apply is_uint256_key|].
  - intros it' [= <-] E. destruct (Hkm _ _ Hx) as [Hkx _]. rewrite <- Hkx in E at 2.
    by rewrite (no_collision e x Hue (Hu _ _ Hx) (eq_sym Hkx) E).
  - exists n. split; [done|]. by apply holds_insert.
Qed.

(** The drops the ledger has lost, up to the width of the amount *)
Definition destroyed l : Z := s64 (- info_drops (info_ l)).

Lemma s64_sub a f : s64 (- s64 (a - f)) = s64 (s64 (- a) + f).
Proof.
  unfold wraps. set (h := 2 ^ (64 - 1)). set (M := 2 ^ 64).
  replace (- ((a - f + h) mod M - h) + h) with (2 * h - (a - f + h) mod M) by lia.
  replace ((- a + h) mod M - h + f + h) with ((- a + h) mod M + f) by lia.
  rewrite Zplus_mod_idemp_l, Zminus_mod_idemp_r. f_equal. f_equal. lia.
Qed.

(** The entries of a ledger as a function of it *)
Definition entries_of l : gmap Z (SLE D) := list_to_map ((λ e, (sle_key e, e)) <$> rv_sles (as_view l)).

Lemma holds_entries l m : holds l m → entries_of l = m.
Proof.
  intros Hh. destruct (ledger_sles_spec l m Hh) as [Hs Hin]. apply map_eq. intros k. apply option_eq. intros e.
  unfold entries_of. rewrite <- elem_of_list_to_map.
  - rewrite list_elem_of_fmap. split.
    + intros (e' & [= -> ->] & He). by apply Hin.
    + intros He. destruct (h_keyed _ _ Hh _ _ He) as [<- _]. exists e. split; [done|]. by apply Hin.
  - rewrite <- list_fmap_compose. by apply sorted_NoDup.
Qed.

(** Apart from the state and the drops, a ledger is as [l0]. *)
Definition same_rest (l0 l : Ledger.t) : Prop :=
  txMap_ l = txMap_ l0 ∧ mImmutable l = mImmutable l0 ∧ with_drops (info_ l) 0 = with_drops (info_ l0) 0 ∧
  is_signed 64 (info_drops (info_ l)).

(** The ledger keeps the promises of a [RawView]. *)
#[global] Instance ledger_laws l0 :
  RawViewLaws ledger_raw admissible (λ l, holds l (entries_of l) ∧ same_rest l0 l) entries_of destroyed.
Proof.
  split; intros x l [Hh Hs].
  - intros Ha Hx. destruct (rawErase_spec l _ x Hh Ha Hx) as (n & E & Hh').
    eexists. split; [exact E|]. by rewrite (holds_entries _ _ Hh').
  - intros Ha Hx. destruct (rawInsert_spec l _ x Hh Ha Hx) as (n & E & Hh').
    eexists. split; [exact E|]. by rewrite (holds_entries _ _ Hh').
  - intros Ha Hx. destruct (rawReplace_spec l _ x Hh Ha Hx) as (n & E & Hh').
    eexists. split; [exact E|]. by rewrite (holds_entries _ _ Hh').
  - eexists. split; [reflexivity|]. set (l' := l<|info_ ::= _|>).
    assert (holds l' (entries_of l)) as Hh' by by destruct Hh.
    rewrite (holds_entries _ _ Hh'). split; [|split; [apply s64_sub|done]]. split; [done|].
    destruct Hs as (? & ? & ? & _). split_and!; [done..|]. by apply wraps_range.
Qed.

Lemma s64_opp_inj a b : is_signed 64 a → is_signed 64 b → s64 (- a) = s64 (- b) → a = b.
Proof.
  intros Ha Hb E. assert (a mod 2 ^ 64 = b mod 2 ^ 64) as Em.
  { unfold wraps in E. rewrite <- (Z.opp_involutive a), <- (Z.opp_involutive b).
    set (h := 2 ^ (64 - 1)) in *. set (M := 2 ^ 64) in *.
    assert ((- a + h) mod M = (- b + h) mod M) as E' by lia.
    replace (- - a) with (h - (- a + h)) by lia. replace (- - b) with (h - (- b + h)) by lia.
    by rewrite Zminus_mod, E', <- Zminus_mod. }
  rewrite <- (wraps_id 64 a), <- (wraps_id 64 b) by done. unfold wraps.
  by rewrite <- Zplus_mod_idemp_l, Em, Zplus_mod_idemp_l.
Qed.

(** ** Taking over a view *)

(** What a transaction of a view becomes in the transaction tree *)
Definition tx_entry (x : list Z * option (list Z)) : option (list Z) :=
  match x with
  | (txn, Some metaData) => match tx_blob txn metaData with Ok b => Some b | Throw _ => None end
  | (_, None) => None
  end.

Lemma rawTxInsert_spec l txm key txn meta blob :
  Rep tnTRANSACTION_MD (txMap_ l) txm → is_uint256 key → txm !! key = None →
  tx_entry (txn, meta) = Some blob →
  ∃ n, rawTxInsert key txn meta l = Ok (l<|txMap_ := n|>) ∧ Rep tnTRANSACTION_MD n (<[key := blob]> txm).
Proof.
  intros Hr Hk Hn He. unfold rawTxInsert, tx_entry in *. destruct meta as [md|]; [|done].
  destruct (tx_blob txn md) as [b|]; [|done]. injection He as <-. rewrite ok_bind.
  pose proof (addGiveItem_spec _ (mkItem key b) _ (proj1 Hr) (is_uint256_key _ Hk)) as Hd.
  cbn [tag_] in Hd. rewrite (proj2 Hr), Hn in Hd. destruct Hd as (n & -> & Hup).
  exists n. split; [done|]. by eapply Rep_updated.
Qed.

Lemma ledger_insert_txs (xs : list (Z * (list Z * option (list Z)))) l txm :
  NoDup xs.*1 → Rep tnTRANSACTION_MD (txMap_ l) txm →
  (∀ (k : Z) x, (k, x) ∈ xs → is_uint256 k ∧ txm !! k = None ∧ is_Some (tx_entry x)) →
  ∃ n, foldl (λ (r : result Ledger.t) '(key, (txn, meta)), to ← r; ReadView.rawTxInsert key txn meta to)
         (Ok l) xs = Ok (l<|txMap_ := n|>) ∧
    Rep tnTRANSACTION_MD n (omap tx_entry (list_to_map xs : gmap Z _) ∪ txm).
Proof.
  revert l txm. induction xs as [|[k [txn meta]] xs IH]; intros l txm Hnd Hr Hx.
  { exists (txMap_ l). split; [by destruct l|].
    by rewrite list_to_map_nil, omap_empty, (left_id_L ∅ (∪)). }
  cbn [fmap list_fmap fst] in Hnd. apply NoDup_cons in Hnd as [Hn Hnd].
  destruct (Hx k (txn, meta)) as (Hk & Hm & [b Hb]); [left|].
  destruct (rawTxInsert_spec l txm k txn meta b Hr Hk Hm Hb) as (n1 & E1 & Hr1).
  destruct (IH (l<|txMap_ := n1|>) (<[k := b]> txm)) as (n & E & Hrn); [done|by destruct l| |].
  { intros k' x Hin. destruct (Hx k' x) as (? & ? & ?); [by right|]. split; [done|]. split; [|done].
    rewrite lookup_insert_ne; [done|]. intros ->. apply Hn. by eapply RawStateTable.in_fst. }
  exists n. cbn [foldl]. rewrite ok_bind. split; [etrans; [|exact E]; by f_equal|].
  rewrite list_to_map_cons, (omap_insert_Some _ _ _ _ b) by done.
  rewrite <- insert_union_l, insert_union_r; [done|].
  by rewrite lookup_omap, not_elem_of_list_to_map_1.
Qed.

(** C39: A ledger shows exactly the entries of its state tree through every operation of
    the view interface. *)
Theorem ledger_represents l m : holds l m → Represents (as_view l) m.
Proof. apply ledger_as_view. Qed.

Lemma apply_view_ok l m (txm : gmap Z (list Z)) (v : OpenView.t D (list Z)) :
  holds l m → Rep tnTRANSACTION_MD (txMap_ l) txm → is_signed 64 (info_drops (info_ l)) →
  OpenView.base_ v = as_view l → RawStateTable.fits (OpenView.items_ v) m →
  (∀ (k : Z) a e, RawStateTable.items_ (OpenView.items_ v) !! k = Some (a, e) → admissible e) →
  (∀ (k : Z) x, OpenView.txs_ v !! k = Some x → is_uint256 k ∧ txm !! k = None ∧ is_Some (tx_entry x)) →
  ∃ l', OpenView.apply v l = Ok l' ∧ holds l' (OpenView.entries m v) ∧
    Rep tnTRANSACTION_MD (txMap_ l') (omap tx_entry (OpenView.txs_ v) ∪ txm) ∧
    info_drops (info_ l') =
      s64 (info_drops (info_ l) - RawStateTable.dropsDestroyed_ (OpenView.items_ v)) ∧
    (mImmutable l' = mImmutable l ∧ with_drops (info_ l') 0 = with_drops (info_ l) 0) ∧
    ∀ k, is_uint256 (k_key k) → read l' k = Ok (OpenView.read v k).
Proof.
  intros Hh Hr Hd Hb Hf Ha Ht. pose proof (holds_entries _ _ Hh) as He.
  destruct (RawStateTable.apply_spec (RL := ledger_laws l) (OpenView.items_ v) l)
    as (l1 & E1 & [Hh1 (Ht1 & Him & Hwd & Hd1)] & He1 & Hdest); [by rewrite He|by rewrite He|done|].
  rewrite He1, He in Hh1.
  destruct (ledger_insert_txs (sorted_list (OpenView.txs_ v)) l1 txm) as (n & E2 & Hrn).
  - apply sorted_NoDup, sorted_list_sorted.
  - by rewrite Ht1.
  - intros k x Hin%elem_of_sorted_list. by apply Ht.
  - exists (l1<|txMap_ := n|>). unfold OpenView.apply. cbn [txs_raw_view ledger_txs]. rewrite E1, E2.
    rewrite OpenView.list_to_map_sorted in Hrn.
    assert (holds (l1<|txMap_ := n|>) (OpenView.entries m v)) as Hh2 by by destruct Hh1.
    split; [done|]. split; [done|]. split; [by destruct l1|]. split; [|split].
    + unfold destroyed in Hdest. rewrite <- s64_sub in Hdest.
      apply s64_opp_inj in Hdest; [by destruct l1|done|by apply wraps_range].
    + by destruct l1.
    + intros k Hk. rewrite (ledger_read_spec _ _ _ Hh2 Hk). f_equal. symmetry.
      apply RawStateTable.read_spec; [rewrite Hb; by apply ledger_as_view|done].
Qed.

(** C5: Building a ledger.  A view over a ledger, with changes that fit it and new
    transactions with metadata, is applied to the ledger without error.  The ledger then
    holds exactly what the view showed, its transaction tree has the blobs of the new
    transactions next to the old ones, and the destroyed drops are gone;
    nothing else of the header changes. *)
Theorem ledger_apply_view l m (txm : gmap Z (list Z)) (v : OpenView.t D (list Z)) :
  holds l m → Rep tnTRANSACTION_MD (txMap_ l) txm → is_signed 64 (info_drops (info_ l)) →
  OpenView.base_ v = as_view l → RawStateTable.fits (OpenView.items_ v) m →
  (∀ (k : Z) a e, RawStateTable.items_ (OpenView.items_ v) !! k = Some (a, e) → admissible e) →
  (∀ (k : Z) x, OpenView.txs_ v !! k = Some x → is_uint256 k ∧ txm !! k = None ∧ is_Some (tx_entry x)) →
  ∃ l', OpenView.apply v l = Ok l' ∧ holds l' (OpenView.entries m v) ∧
    Rep tnTRANSACTION_MD (txMap_ l') (omap tx_entry (OpenView.txs_ v) ∪ txm) ∧
    info_drops (info_ l') =
      s64 (info_drops (info_ l) - RawStateTable.dropsDestroyed_ (OpenView.items_ v)) ∧
    (mImmutable l' = mImmutable l ∧ with_drops (info_ l') 0 = with_drops (info_ l) 0) ∧
    ∀ k, is_uint256 (k_key k) → read l' k = Ok (OpenView.read v k).
Proof. apply apply_view_ok. Qed.

(** ** Ledger hashes *)

(** A ledger whose trees hold [m] and [txm], with the header fields in their widths *)
Record closing l m (txm : gmap Z (list Z)) : Prop := {
  c_holds : holds l m;
  c_txs : Rep tnTRANSACTION_MD (txMap_ l) txm;
  c_open : mImmutable l = false;
  c_info : LedgerHeader.fits (info_ (setImmutable sha512Half l)) }.

Definition header_input (info : LedgerInfo) : list Z :=
  be_bytes 4 ledgerMaster ++ LedgerHeader.header_bytes info.

(** All that a header carries: what is left out are the hash and the flags of the node. *)
Definition same_header (i1 i2 : LedgerInfo) : Prop :=
  info_seq i1 = info_seq i2 ∧ info_drops i1 = info_drops i2 ∧ info_parentHash i1 = info_parentHash i2 ∧
  info_txHash i1 = info_txHash i2 ∧ info_accountHash i1 = info_accountHash i2 ∧
  info_parentCloseTime i1 = info_parentCloseTime i2 ∧ info_closeTime i1 = info_closeTime i2 ∧
  info_closeTimeResolution i1 = info_closeTimeResolution i2 ∧ info_closeFlags i1 = info_closeFlags i2.

Lemma header_inj i1 i2 :
  LedgerHeader.fits i1 → LedgerHeader.fits i2 → header_input i1 = header_input i2 → same_header i1 i2.
Proof.
  intros Hf1 Hf2 E%app_inv_head.
  pose proof (LedgerHeader.read_header [] i1 [] Hf1) as H1.
  pose proof (LedgerHeader.read_header [] i2 [] Hf2) as H2.
  rewrite E in H1. rewrite H1 in H2. injection H2 as ?????????. by split_and!.
Qed.

Lemma Rep_fine_keyed ty t (mm : gmap Z (list Z)) :
  ty ≠ tnTRANSACTION_NM → Rep ty t mm → fine sha512Half 64 t ty.
Proof. intros Hty Hr. eapply Rep_fine; [done|]. by intros k d _ ?. Qed.

Lemma setImmutable_hash l :
  info_hash (info_ (setImmutable sha512Half l)) = sha512Half (header_input (info_ (setImmutable sha512Half l))).
Proof. unfold setImmutable. cbn [info_ info_hash]. by rewrite LedgerHeader.calculateLedgerHash_bytes. Qed.

Lemma entries_inj l1 m1 l2 m2 : holds l1 m1 → holds l2 m2 → sle_bytes <$> m1 = sle_bytes <$> m2 → m1 = m2.
Proof.
  intros H1 H2 E. apply map_eq. intros k. apply (f_equal (lookup k)) in E. rewrite !lookup_fmap in E.
  destruct (m1 !! k) as [e1|] eqn:E1, (m2 !! k) as [e2|] eqn:E2; try done. injection E as E.
  pose proof (make_entry l1 m1 k e1 H1 E1) as M1. pose proof (make_entry l2 m2 k e2 H2 E2) as M2. congruence.
Qed.

Lemma inputs_parts {A} (h1 h2 : A) s1 t1 s2 t2 :
  s1 ++ s2 ⊆ (h1 :: s1 ++ t1) ++ (h2 :: s2 ++ t2) ∧ t1 ++ t2 ⊆ (h1 :: s1 ++ t1) ++ (h2 :: s2 ++ t2).
Proof. split; intros x; rewrite !elem_of_app, !elem_of_cons, !elem_of_app; tauto. Qed.

(** The bytes hashed when the ledger is closed *)
Definition hash_inputs l : list (list Z) :=
  header_input (info_ (setImmutable sha512Half l)) ::
    preimages sha512Half (stateMap_ l) ++ preimages sha512Half (txMap_ l).

(** C4: The hash of a closed ledger binds all of it: ledgers with the same hash have the
    same header, in each of the nine fields it carries, the same entries and the same
    transactions, unless SHA-512 half has a collision among what was hashed for the two. *)
Theorem ledger_hash_binding l1 m1 txm1 l2 m2 txm2 :
  closing l1 m1 txm1 → closing l2 m2 txm2 →
  Collision_free sha512Half (hash_inputs l1 ++ hash_inputs l2) →
  let i1 := info_ (setImmutable sha512Half l1) in
  let i2 := info_ (setImmutable sha512Half l2) in
  info_hash i1 = info_hash i2 →
  m1 = m2 ∧ txm1 = txm2 ∧ same_header i1 i2.
Proof.
  intros [Hh1 Ht1 Ho1 Hf1] [Hh2 Ht2 Ho2 Hf2] Hcf i1 i2 E. subst i1 i2. rewrite !setImmutable_hash in E.
  apply (cf_inj _ _ Hcf) in E; [|apply elem_of_app; left; left|apply elem_of_app; right; left].
  pose proof (header_inj _ _ Hf1 Hf2 E) as Hsame. pose proof Hsame as (_ & _ & _ & Etx & Eacc & _).
  unfold setImmutable in Etx, Eacc. rewrite Ho1, Ho2 in Etx, Eacc.
  cbn [negb info_ info_txHash info_accountHash] in Etx, Eacc.
  assert (stateMap_ l1 = stateMap_ l2) as Es.
  { apply (root_hash_inj sha512Half tnACCOUNT_STATE); [apply Hh1|apply Hh2| | | |done].
    - by eapply Rep_fine_keyed, h_state.
    - by eapply Rep_fine_keyed, h_state.
    - exact (Collision_free_sub _ _ _ (proj1 (inputs_parts _ _ _ _ _ _)) Hcf). }
  assert (txMap_ l1 = txMap_ l2) as Et.
  { apply (root_hash_inj sha512Half tnTRANSACTION_MD); [apply Ht1|apply Ht2| | | |done].
    - by eapply Rep_fine_keyed.
    - by eapply Rep_fine_keyed.
    - exact (Collision_free_sub _ _ _ (proj2 (inputs_parts _ _ _ _ _ _)) Hcf). }
  split; [|split; [|exact Hsame]].
  - apply (entries_inj l1 _ l2); [apply Hh1|apply Hh2|]. eapply Rep_inj; [apply Hh1|]. rewrite Es. apply Hh2.
  - eapply Rep_inj; [exact Ht1|]. by rewrite Et.
Qed.

End spec.
End LedgerSpec.
