(* ===== verification/SkipList.v ===== *)
(** * SkipList: the hashes of earlier ledgers

    Models [Ledger::updateSkipList] of [app/ledger/Ledger.cpp], [hashOfSeq] of
    [ledger/impl/View.cpp] with the keys of [protocol/impl/Indexes.cpp], and the way
    [CCLConsensus::buildLCL] makes the next ledger.  A ledger keeps the hashes of the last
    256 ledgers in one entry, and those of every 256th ledger in one entry for each 65536
    ledgers.  Along any chain of ledgers, the hashes looked up are those of the ancestors. *)

From S2P Require Import Prelude Serializer ReadView RawStateTable OpenView SField SOTemplate STObject STLedgerEntry STObjectSpec SHAMap SHAMapInv SHAMapTreeNode SHAMapSpec Ledger LedgerSpec LedgerHeader.

Module SkipList.
Import STObject STObjectSpec SHAMap SHAMapSpec Ledger LedgerSpec.

Abbreviation D := STObject.

Section skip.
Context (sha512Half : list Z → Z).
Implicit Types (l : Ledger.t) (k : Keylet) (m : gmap Z (SLE D)).

(** ** Keys *)

Definition spaceSkipList : Z := 115.

(** [getLedgerHashIndex ()] and [getLedgerHashIndex (desiredLedgerIndex)] *)
Definition skip_input : list Z := be_bytes 2 spaceSkipList.
Definition skip_input_of (block : Z) : list Z := be_bytes 2 spaceSkipList ++ be_bytes 4 block.

Definition getLedgerHashIndex : Z := sha512Half skip_input.
Definition getLedgerHashIndex_of (desiredLedgerIndex : Z) : Z :=
  sha512Half (skip_input_of (Z.shiftr desiredLedgerIndex 16)).

(** [keylet::skip] *)
Definition skip : Keylet := mkKeylet ltLEDGER_HASHES getLedgerHashIndex.
Definition skip_of (ledger : Z) : Keylet := mkKeylet ltLEDGER_HASHES (getLedgerHashIndex_of ledger).

(** ** Recording hashes *)

(** One of the two records: [last256] is that of the last 256 ledgers. *)
Definition update_record (last256 : bool) (k : Keylet) (prevIndex : Z) l : result Ledger.t :=
  o ← Ledger.peek l k;
  '(sle, hashes, created) ←
    match o with
    | None => sle ← STLedgerEntry.make k; Ok (sle, [], true)
    | Some sle => hashes ← getFieldV256 (sle_data sle) sfHashes; Ok (sle, hashes, false)
    end;
  let hashes := if last256 && (length hashes =? 256)%nat then drop 1 hashes else hashes in
  let hashes := hashes ++ [info_parentHash (info_ l)] in
  o ← setFieldV256 (sle_data sle) sfHashes hashes;
  o ← setFieldU32 o sfLastLedgerSequence prevIndex;
  let sle := mkSLE (sle_key sle) (sle_type sle) o in
  if created : bool then rawInsert sle l else rawReplace sha512Half sle l.

Definition updateSkipList l : result Ledger.t :=
  if info_seq (info_ l) =? 0 then Ok l
  else
    let prevIndex := u32 (info_seq (info_ l) - 1) in
    l ← (if Z.land prevIndex 255 =? 0 then update_record false (skip_of prevIndex) prevIndex l else Ok l);
    update_record true skip prevIndex l.

(** ** Looking hashes up *)

Definition hashOfSeq (ledger : ReadView D) (seq : Z) : result (option Z) :=
  let i := rv_info ledger in
  if seq >? info_seq i then Ok None
  else if seq =? info_seq i then Ok (Some (info_hash i))
  else if seq =? u32 (info_seq i - 1) then Ok (Some (info_parentHash i))
  else
    let diff := s32 (u32 (info_seq i - seq)) in
    near ←
      (if diff <=? 256 then
         match rv_read ledger skip with
         | Some hashIndex =>
             vec ← getFieldV256 (sle_data hashIndex) sfHashes;
             let size := Z.of_nat (length vec) in
             if size >=? u64 diff then Ok (vec !! Z.to_nat (size - diff)) else Ok None
         | None => Ok None
         end
       else Ok None);
    match near with
    | Some h => Ok (Some h)
    | None =>
        if negb (Z.land seq 255 =? 0) then Ok None
        else
          match rv_read ledger (skip_of seq) with
          | Some hashIndex =>
              lastSeq ← getFieldU32 (sle_data hashIndex) sfLastLedgerSequence;
              let diff := Z.shiftr (u32 (lastSeq - seq)) 8 in
              vec ← getFieldV256 (sle_data hashIndex) sfHashes;
              let size := Z.of_nat (length vec) in
              if size >? diff then Ok (vec !! Z.to_nat (size - diff - 1)) else Ok None
          | None => Ok None
          end
    end.

(** ** Building a ledger *)

(** [buildLCL] with trees of version 1, from the making of the ledger to its acceptance.
    [transactions] is what [applyTransactions] and [processClosedLedger] do to the view
    [accum].  Flushing the nodes to the store and unsharing them change no contents. *)
Definition buildLCL (transactions : OpenView.t D (list Z) → OpenView.t D (list Z)) (closeTime : Z)
    (closeTimeCorrect : bool) (closeResolution : Z) (previousLedger : Ledger.t) : result Ledger.t :=
  let buildLCL := next previousLedger closeTime in
  let accum := transactions (OpenView.make_closed (as_view buildLCL)) in
  buildLCL ← @OpenView.apply D (list Z) _ (ledger_txs sha512Half) accum buildLCL;
  buildLCL ← updateSkipList buildLCL;
  Ok (setAccepted sha512Half closeTime closeResolution closeTimeCorrect buildLCL).

(** [startGenesisLedger] after the genesis ledger: the second ledger *)
Definition second_ledger (closeTime : Z) (genesis : Ledger.t) : result Ledger.t :=
  next ← updateSkipList (next genesis closeTime);
  Ok (setImmutable sha512Half next).

End skip.

(** ** Entries with hashes *)

Definition skip_entry (key : Z) (hashes : list Z) (last : Z) : SLE D :=
  mkSLE key ltLEDGER_HASHES (mkFields
    [(sfLedgerIndex, NotPresent); (sfLedgerEntryType, UInt16 ltLEDGER_HASHES); (sfFlags, UInt32 0);
     (sfFirstLedgerSequence, NotPresent); (sfLastLedgerSequence, UInt32 last); (sfHashes, Vector256 hashes)]
    (Some format_LedgerHashes)).

Lemma skip_entry_get key hashes last :
  getFieldV256 (sle_data (skip_entry key hashes last)) sfHashes = Ok hashes ∧
  getFieldU32 (sle_data (skip_entry key hashes last)) sfLastLedgerSequence = Ok last.
Proof. done. Qed.

(** A new entry, and an entry that is changed *)
Definition with_hashes (sle : SLE D) (hashes : list Z) (last : Z) : result (SLE D) :=
  o ← setFieldV256 (sle_data sle) sfHashes hashes;
  o ← setFieldU32 o sfLastLedgerSequence last;
  Ok (mkSLE (sle_key sle) (sle_type sle) o).

Lemma with_hashes_make key hashes last :
  (sle ← STLedgerEntry.make (mkKeylet ltLEDGER_HASHES key); with_hashes sle hashes last) =
  Ok (skip_entry key hashes last).
Proof. done. Qed.

Lemma with_hashes_change key hashes0 last0 hashes last :
  with_hashes (skip_entry key hashes0 last0) hashes last = Ok (skip_entry key hashes last).
Proof. done. Qed.

Lemma skip_entry_valid key hashes last :
  (length hashes ≤ 256)%nat → Forall is_uint256 hashes → is_unsigned 32 last →
  sle_valid (skip_entry key hashes last).
Proof.
  intros Hlen Hh Hl. exists 1%nat. exists format_LedgerHashes. split; [reflexivity|]. split; [reflexivity|].
  cbn [sle_data sle_type v_ skip_entry]. split; [solve_valid|]. split; [|right; left].
  repeat (apply Forall_cons_2; [split; [solve_valid|]|]); [..|constructor]; intros Hp; try discriminate Hp.
  - solve_valid.
  - solve_valid.
  - split; [reflexivity|exact Hl].
  - split; [reflexivity|]. split; [cbn [fst snd]; lia|exact Hh].
Qed.

(** ** The records along a chain *)

Section chain.
Context (sha512Half : list Z → Z).
Context (universe : SLE D → Prop).
Context (universe_valid : ∀ e, universe e → sle_valid e).
Context (no_collision : ∀ e e', universe e → universe e' → sle_key e = sle_key e' →
  leaf_hash sha512Half (mkItem (sle_key e) (sle_bytes e)) tnACCOUNT_STATE =
  leaf_hash sha512Half (mkItem (sle_key e') (sle_bytes e')) tnACCOUNT_STATE → e = e').

(** The ledgers are those of the first [blocks] times 65536 numbers, and the keys of their
    records do not collide. *)
Context (blocks : nat).
Definition skip_inputs : list (list Z) := skip_input :: ((λ b, skip_input_of (Z.of_nat b)) <$> List.seq 0 blocks).
Context (keys_differ : Collision_free sha512Half skip_inputs) (blocks_few : Z.of_nat blocks ≤ 65536).

Implicit Types (l : Ledger.t) (m : gmap Z (SLE D)) (hs : list Z).

Abbreviation holds := (holds universe).
Abbreviation near_key := (getLedgerHashIndex sha512Half).
Abbreviation block_key b := (sha512Half (skip_input_of b)).

Definition in_blocks (b : Z) : Prop := 0 ≤ b < Z.of_nat blocks.

Lemma block_input b : in_blocks b → skip_input_of b ∈ skip_inputs.
Proof.
  intros Hb. right. apply list_elem_of_fmap. exists (Z.to_nat b). unfold in_blocks in Hb. split; [f_equal; lia|].
  apply list_elem_of_In, in_seq. lia.
Qed.

Lemma skip_keys :
  (is_uint256 near_key ∧ near_key ≠ 0) ∧ ∀ b, in_blocks b →
  (is_uint256 (block_key b) ∧ block_key b ≠ 0 ∧ block_key b ≠ near_key) ∧
  ∀ b', in_blocks b' → block_key b = block_key b' → b = b'.
Proof.
  destruct keys_differ as [Hr Hi Hz]. assert (skip_input ∈ skip_inputs) as H0 by left.
  split; [split; [apply Hr|by apply Hz]|]. intros b Hb. pose proof (block_input b Hb) as Hin. split; [split_and!|].
  - apply Hr.
  - by apply Hz.
  - intros E. apply Hi in E; [|done..]. apply (f_equal length) in E. unfold skip_input_of, skip_input in E.
    rewrite length_app, !length_be_bytes in E. lia.
  - intros b' Hb' E. apply Hi in E; [|done|by apply block_input]. unfold skip_input_of in E.
    apply app_inv_head, (f_equal be_val) in E. unfold in_blocks in *.
    by rewrite !be_bytes_small in E by (change (256 ^ Z.of_nat 4) with (2 ^ 32); lia).
Qed.

(** [update_record] on the map *)
Definition hashes_of m (key : Z) : list Z :=
  match m !! key with
  | Some e => match getFieldV256 (sle_data e) sfHashes with Ok hs => hs | Throw _ => [] end
  | None => []
  end.

Definition pushed (last256 : bool) (hashes : list Z) (h : Z) : list Z :=
  (if last256 && (length hashes =? 256)%nat then drop 1 hashes else hashes) ++ [h].

Definition recorded (last256 : bool) m (key prevIndex h : Z) : SLE D :=
  skip_entry key (pushed last256 (hashes_of m key) h) prevIndex.

Definition is_record m (key : Z) : Prop := m !! key = None ∨ ∃ hashes last, m !! key = Some (skip_entry key hashes last).

Lemma update_record_spec last256 key prevIndex l m :
  holds l m → is_uint256 key → key ≠ 0 → is_record m key →
  let e := recorded last256 m key prevIndex (info_parentHash (info_ l)) in
  universe e →
  ∃ n, update_record sha512Half last256 (mkKeylet ltLEDGER_HASHES key) prevIndex l = Ok (l<|stateMap_ := n|>) ∧
    holds (l<|stateMap_ := n|>) (<[key := e]> m).
Proof.
  intros Hh Hk Hz Hrec e He. unfold update_record.
  assert (Ledger.peek l (mkKeylet ltLEDGER_HASHES key) = Ok (lookup_typed m (mkKeylet ltLEDGER_HASHES key))) as ->.
  { rewrite <- (ledger_read_spec universe universe_valid l m) by done. unfold Ledger.read. cbn [k_key].
    by rewrite (proj2 (Z.eqb_neq _ _) Hz). }
  rewrite ok_bind. unfold lookup_typed. cbn [k_key]. assert (admissible universe e) as Ha by done.
  unfold e, recorded, hashes_of in *. destruct Hrec as [En|(hashes & last & Es)].
  - rewrite En in *. destruct (rawInsert_spec universe universe_valid l m _ Hh Ha) as (n & E & Hn); [done|].
    exists n. split; [|exact Hn]. exact E.
  - rewrite Es in *. destruct (rawReplace_spec sha512Half universe universe_valid no_collision l m _ Hh Ha) as (n & E & Hn).
    { by exists (skip_entry key hashes last). }
    exists n. split; [|exact Hn]. exact E.
Qed.

(** The chain starts with the ledger [first]; [hs] are the hashes of the ledgers up to the
    one before [n]. *)
Context (first : Z) (first_pos : 0 < first).

Definition near hs : list Z := drop (length hs - 256) hs.

(** The record of a block has the hashes of the multiples of 256 in the block, up to [last]. *)
Record block_ok (n : Z) hs (b : Z) (hashes : list Z) (last : Z) : Prop := {
  bo_last : last mod 256 = 0 ∧ last / 65536 = b ∧ first ≤ last < n;
  bo_max s : s mod 256 = 0 → s / 65536 = b → s < n → s ≤ last;
  bo_hash d : 0 ≤ d < Z.of_nat (length hashes) →
    first ≤ last - 256 * d ∧ (last - 256 * d) / 65536 = b ∧
    hashes !! Z.to_nat (Z.of_nat (length hashes) - d - 1) = hs !! Z.to_nat (last - 256 * d - first);
  bo_all s : s mod 256 = 0 → s / 65536 = b → first ≤ s ≤ last → (last - s) / 256 < Z.of_nat (length hashes) }.

Ltac elia := Z.to_euclidean_division_equations; lia.

Lemma block_step n hs b hashes last h :
  n = first + Z.of_nat (length hs) → n mod 256 ≠ 0 ∨ n / 65536 ≠ b →
  block_ok n hs b hashes last → block_ok (n + 1) (hs ++ [h]) b hashes last.
Proof.
  intros Hn Hor [Hl Hm Hh Ha]. split; [lia| | |done].
  - intros s Hs Hb Hlt. apply Hm; [done..|]. assert (s ≠ n) by (intros ->; by destruct Hor). lia.
  - intros d Hd. destruct (Hh d Hd) as (H1 & H2 & ->). split_and!; [done..|].
    rewrite lookup_app_l; [done|]. lia.
Qed.

Lemma block_push n hs b hashes last h :
  n = first + Z.of_nat (length hs) → n mod 256 = 0 → n / 65536 = b →
  block_ok n hs b hashes last → block_ok (n + 1) (hs ++ [h]) b (hashes ++ [h]) n.
Proof.
  intros Hn Hmod Hb [(Hl1 & Hl2 & Hl3) Hm Hh Ha].
  assert (last = n - 256) as El.
  { assert (n - 256 ≤ last) by (apply Hm; elia). elia. }
  split.
  - lia.
  - lia.
  - intros d Hd. rewrite length_app in *. cbn [length] in *. destruct (Z.eq_dec d 0) as [->|Hd0].
    + split; [lia|]. split; [by rewrite Z.mul_0_r, Z.sub_0_r|].
      rewrite (lookup_app_r hashes), (lookup_app_r hs) by lia.
      replace (Z.to_nat _ - length hashes)%nat with 0%nat by lia.
      by replace (Z.to_nat _ - length hs)%nat with 0%nat by lia.
    + destruct (Hh (d - 1)) as (H1 & H2 & H3); [lia|]. replace (n - 256 * d) with (last - 256 * (d - 1)) by lia.
      split_and!; [done..|]. rewrite (lookup_app_l hashes), (lookup_app_l hs) by lia. rewrite <- H3. f_equal. lia.
  - intros s Hs Hsb Hle. rewrite length_app. cbn [length]. destruct (Z.eq_dec s n) as [->|Hne]; [rewrite Z.sub_diag; change (0 / 256) with 0; lia|].
    assert ((last - s) / 256 < Z.of_nat (length hashes)) by (apply Ha; elia).
    replace (n - s) with (last - s + 1 * 256) by lia. rewrite Z.div_add by lia. lia.
Qed.

Lemma block_new n hs b h :
  n = first + Z.of_nat (length hs) → n mod 256 = 0 → n / 65536 = b →
  (∀ s, s mod 256 = 0 → s / 65536 = b → first ≤ s → n ≤ s) → block_ok (n + 1) (hs ++ [h]) b [h] n.
Proof.
  intros Hn Hmod Hb Hno. split.
  - lia.
  - lia.
  - intros d Hd. cbn [length] in *. assert (d = 0) as -> by lia. split; [lia|]. split; [by rewrite Z.mul_0_r, Z.sub_0_r|].
    rewrite (lookup_app_r hs) by lia. by replace (Z.to_nat _ - length hs)%nat with 0%nat by lia.
  - intros s Hs Hsb Hle. assert (s = n) as -> by (specialize (Hno s Hs Hsb); lia). rewrite Z.sub_diag. change (0 / 256) with 0. cbn [length]. lia.
Qed.

Lemma block_small n hs b hashes last : block_ok n hs b hashes last → (length hashes ≤ 256)%nat.
Proof.
  intros [(H1 & H2 & _) _ Hh _]. destruct (decide (length hashes ≤ 256)%nat) as [|Hgt]; [done|].
  destruct (Hh 256) as (_ & H & _); [lia|]. elia.
Qed.

Lemma near_push hs h : near (hs ++ [h]) = pushed true (near hs) h.
Proof.
  unfold near, pushed. cbn [andb]. rewrite length_app, length_drop. cbn [length].
  destruct (_ =? 256)%nat eqn:E; [apply Nat.eqb_eq in E|apply Nat.eqb_neq in E].
  - rewrite drop_drop. rewrite drop_app_le by lia. f_equal. f_equal. lia.
  - assert (length hs < 256)%nat by lia. replace (length hs + 1 - 256)%nat with 0%nat by lia.
    by replace (length hs - 256)%nat with 0%nat by lia.
Qed.

(** The records of a ledger with the number [n] *)
Definition records_ok (n : Z) hs m : Prop :=
  m !! near_key = match hs with [] => None | _ => Some (skip_entry near_key (near hs) (n - 1)) end ∧
  ∀ b, in_blocks b →
    (m !! block_key b = None ∧ ∀ s, s mod 256 = 0 → s / 65536 = b → first ≤ s → n ≤ s) ∨
    ∃ hashes last, m !! block_key b = Some (skip_entry (block_key b) hashes last) ∧ block_ok n hs b hashes last.

(** What [updateSkipList] writes *)
Definition skip_map m (n h : Z) : gmap Z (SLE D) :=
  let b := block_key (n / 65536) in
  <[near_key := recorded true m near_key n h]>
    (if n mod 256 =? 0 then <[b := recorded false m b n h]> m else m).

Definition skip_universe m (n h : Z) : Prop :=
  universe (recorded true m near_key n h) ∧
  (n mod 256 = 0 → universe (recorded false m (block_key (n / 65536)) n h)).

Lemma land_255 n : Z.land n 255 = n mod 256.
Proof. change 255 with (Z.ones 8). by rewrite Z.land_ones by lia. Qed.

Lemma shiftr_16 n : Z.shiftr n 16 = n / 65536.
Proof. by rewrite Z.shiftr_div_pow2 by lia. Qed.

Lemma in_blocks_div n : 0 ≤ n < 65536 * Z.of_nat blocks → in_blocks (n / 65536).
Proof. unfold in_blocks. elia. Qed.

Lemma records_hashes n hs m :
  records_ok n hs m → is_record m near_key ∧ hashes_of m near_key = near hs ∧
  ∀ b, in_blocks b → is_record m (block_key b).
Proof.
  intros [Hn Hb]. unfold is_record, hashes_of. rewrite Hn. split_and!.
  - destruct hs; [by left|right]. by do 2 eexists.
  - by destruct hs.
  - intros b [[? _]|(hashes & last & ? & _)]%Hb; [by left|right]. by do 2 eexists.
Qed.

Lemma records_near n hs m h b :
  records_ok n hs m → in_blocks b → recorded true (<[block_key b := h]> m) near_key = recorded true m near_key.
Proof.
  intros _ Hb. destruct skip_keys as [_ Hk]. destruct (Hk b Hb) as [(_ & _ & Hne) _].
  unfold recorded, hashes_of. by rewrite lookup_insert_ne.
Qed.

Lemma skip_map_ok n hs m h :
  n = first + Z.of_nat (length hs) → n < 65536 * Z.of_nat blocks → records_ok n hs m →
  records_ok (n + 1) (hs ++ [h]) (skip_map m n h).
Proof.
  intros Hn Hlt Hr. destruct (records_hashes _ _ _ Hr) as (_ & Hnear & _). destruct Hr as [_ Hb].
  pose proof (in_blocks_div n ltac:(lia)) as Hin. destruct skip_keys as [_ Hk]. unfold skip_map. cbv zeta. split.
  - rewrite lookup_insert_eq. unfold recorded. rewrite Hnear, <- near_push. destruct (hs ++ [h]) eqn:E.
    + by apply app_eq_nil in E as [_ ?].
    + rewrite Z.add_simpl_r. done.
  - intros b Hbb. destruct (Hk b Hbb) as [(_ & _ & Hne) Hinj]. rewrite lookup_insert_ne by done.
    destruct (n mod 256 =? 0) eqn:Em; zb; [destruct (Z.eq_dec (n / 65536) b) as [Eb|Hneb]|].
    + subst b. rewrite lookup_insert_eq. right. do 2 eexists. split; [done|]. unfold hashes_of.
      destruct (Hb _ Hbb) as [[-> Hno]|(hashes & last & -> & Hok)]; [by apply block_new|by eapply block_push].
    + rewrite lookup_insert_ne by (intros E; by apply Hneb, Hk).
      destruct (Hb _ Hbb) as [[E Hno]|(hashes & last & E & Hok)]; [left|right].
      * split; [done|]. intros s Hs Hsb Hle. assert (s ≠ n) by (by intros ->). specialize (Hno s Hs Hsb Hle). lia.
      * exists hashes, last. split; [done|]. apply block_step; [done|by right|done].
    + destruct (Hb _ Hbb) as [[E Hno]|(hashes & last & E & Hok)]; [left|right].
      * split; [done|]. intros s Hs Hsb Hle. assert (s ≠ n) by (by intros ->). specialize (Hno s Hs Hsb Hle). lia.
      * exists hashes, last. split; [done|]. apply block_step; [done|by left|done].
Qed.

Lemma updateSkipList_spec l hs m n :
  holds l m → n = first + Z.of_nat (length hs) → info_seq (info_ l) = n + 1 → n < 65536 * Z.of_nat blocks →
  records_ok n hs m → skip_universe m n (info_parentHash (info_ l)) →
  ∃ st, updateSkipList sha512Half l = Ok (l<|stateMap_ := st|>) ∧
    holds (l<|stateMap_ := st|>) (skip_map m n (info_parentHash (info_ l))).
Proof.
  intros Hh Hn Hseq Hlt Hr [Hu1 Hu2]. destruct (records_hashes _ _ _ Hr) as (Hrec & _ & Hrb).
  pose proof (in_blocks_div n ltac:(lia)) as Hin. destruct skip_keys as [[Hk1 Hk2] Hk].
  destruct (Hk _ Hin) as [(Hb1 & Hb2 & Hne) _].
  unfold updateSkipList. rewrite Hseq, (proj2 (Z.eqb_neq (n + 1) 0)), Z.add_simpl_r, wrapu_id, land_255 by (wrap_solve || lia).
  unfold skip_of, getLedgerHashIndex_of, skip. rewrite shiftr_16. unfold skip_map. cbv zeta.
  destruct (n mod 256 =? 0) eqn:Em; zb.
  - destruct (update_record_spec false (block_key (n / 65536)) n l m) as (st & -> & Hh1); [by auto..|].
    rewrite ok_bind. rewrite <- (records_near n hs m (recorded false m (block_key (n / 65536)) n (info_parentHash (info_ l))) (n / 65536)) in * by done.
    destruct (update_record_spec true near_key n _ _ Hh1) as (st2 & E2 & Hh2); [done..| |exact Hu1|].
    + unfold is_record. rewrite lookup_insert_ne by done. done.
    + exists st2. rewrite E2. destruct l. done.
  - rewrite ok_bind. destruct (update_record_spec true near_key n l m) as (st & E & Hh1); [done..|]. by exists st.
Qed.

(** ** Looking up *)

(** The hash of the ledger with the number [s], as far as a ledger [n] of the chain keeps it *)
Definition ancestor hs l (s : Z) : option Z :=
  let n := first + Z.of_nat (length hs) in
  if n <? s then None
  else if s =? n then Some (info_hash (info_ l))
  else if (first <=? s) && ((n - s <=? 256) || (s mod 256 =? 0)) then hs !! Z.to_nat (s - first)
  else None.

(** A ledger of the chain: its entries, its number and parent, and its records *)
Record chain_ok hs l m : Prop := {
  co_holds : holds l m;
  co_seq : info_seq (info_ l) = first + Z.of_nat (length hs);
  co_blocks : info_seq (info_ l) < 65536 * Z.of_nat blocks;
  co_parent : hs ≠ [] → last hs = Some (info_parentHash (info_ l));
  co_hash : is_uint256 (info_hash (info_ l));
  co_drops : is_signed 64 (info_drops (info_ l));
  co_records : records_ok (info_seq (info_ l)) hs m }.

Lemma chain_read hs l m key :
  chain_ok hs l m → is_uint256 key → is_record m key → rv_read (as_view l) (mkKeylet ltLEDGER_HASHES key) = m !! key.
Proof.
  intros Hc Hk Hr. pose proof (ledger_as_view universe universe_valid l m (co_holds _ _ _ Hc)) as Hrep.
  rewrite (rep_read _ _ Hrep) by done. unfold lookup_typed. cbn [k_key].
  destruct Hr as [->|(hashes & last & ->)]; done.
Qed.

Lemma near_lookup hs (d : Z) :
  0 < d ≤ Z.of_nat (length hs) → d ≤ 256 →
  d ≤ Z.of_nat (length (near hs)) ∧
  near hs !! Z.to_nat (Z.of_nat (length (near hs)) - d) = hs !! Z.to_nat (Z.of_nat (length hs) - d).
Proof.
  intros Hd Hd2. unfold near. rewrite length_drop, lookup_drop. split; [lia|]. f_equal. lia.
Qed.

(** The entry of the last 256 hashes *)
Lemma lookup_near hs l m s :
  chain_ok hs l m → 0 ≤ s < info_seq (info_ l) - 1 →
  let diff := s32 (u32 (info_seq (info_ l) - s)) in
  (if diff <=? 256 then
     match rv_read (as_view l) (skip sha512Half) with
     | Some hashIndex =>
         vec ← getFieldV256 (sle_data hashIndex) sfHashes;
         let size := Z.of_nat (length vec) in
         if size >=? u64 diff then Ok (vec !! Z.to_nat (size - diff)) else Ok None
     | None => Ok None
     end
   else Ok None) =
  Ok (if (first <=? s) && (info_seq (info_ l) - s <=? 256) then hs !! Z.to_nat (s - first) else None).
Proof.
  intros Hc Hs diff. pose proof (co_seq _ _ _ Hc) as Hn. pose proof (co_blocks _ _ _ Hc) as Hlt.
  pose proof (co_records _ _ _ Hc) as Hr. destruct (records_hashes _ _ _ Hr) as (Hrec & _ & _).
  set (n := info_seq (info_ l)) in *. unfold diff. clear diff. rewrite (wrapu_id 32) by wrap_solve.
  destruct (Z.lt_ge_cases (n - s) (2 ^ 31)) as [Hsmall|Hbig].
  - rewrite wraps_id by wrap_solve. destruct (n - s <=? 256) eqn:Ed; zb; [|by rewrite andb_false_r].
    unfold skip. destruct skip_keys as [[Hk1 _] _]. rewrite (chain_read hs l m) by done. rewrite (proj1 Hr).
    destruct hs as [|h hs]; [destruct (first <=? s) eqn:Ef; zb; [cbn in Hn; lia|done]|].
    set (hs' := h :: hs) in *. rewrite (proj1 (skip_entry_get _ _ _)), ok_bind. cbv zeta. rewrite wrapu_id by wrap_solve.
    rewrite andb_true_r. destruct (first <=? s) eqn:Ef; zb.
    + destruct (near_lookup hs' (n - s)) as [H1 H2]; [lia|lia|]. destruct (_ >=? _) eqn:Eg; [|rewrite Z.geb_leb in Eg; zb; lia].
      rewrite H2. do 3 f_equal. lia.
    + destruct (_ >=? _) eqn:Eg; [|done]. rewrite Z.geb_leb in Eg. zb. unfold near in Eg. rewrite length_drop in Eg. lia.
  - assert (s32 (n - s) = n - s - 2 ^ 32) as Ed.
    { unfold wraps. replace (n - s + 2 ^ (32 - 1)) with (n - s - 2 ^ 31 + 1 * 2 ^ 32) by lia.
      rewrite Z.mod_add, Z.mod_small by lia. lia. }
    rewrite Ed. destruct (_ <=? 256) eqn:E; zb; [|lia]. rewrite (proj2 (Z.leb_gt (n - s) 256)), andb_false_r by lia.
    unfold skip. destruct skip_keys as [[Hk1 _] _]. rewrite (chain_read hs l m) by done. rewrite (proj1 Hr).
    destruct hs as [|h hs]; [done|]. rewrite (proj1 (skip_entry_get _ _ _)), ok_bind. cbv zeta.
    assert (u64 (n - s - 2 ^ 32) = n - s - 2 ^ 32 + 2 ^ 64) as ->.
    { unfold wrapu. replace (n - s - 2 ^ 32) with (n - s - 2 ^ 32 + 2 ^ 64 + (-1) * 2 ^ 64) at 1 by lia.
      rewrite Z.mod_add, Z.mod_small by lia. lia. }
    destruct (_ >=? _) eqn:Eg; [|done]. rewrite Z.geb_leb in Eg. zb. unfold near in Eg. rewrite length_drop in Eg. lia.
Qed.

(** The entry of the block of [s] *)
Lemma lookup_far hs l m s :
  chain_ok hs l m → 0 ≤ s < info_seq (info_ l) - 1 → s mod 256 = 0 →
  match rv_read (as_view l) (skip_of sha512Half s) with
  | Some hashIndex =>
      lastSeq ← getFieldU32 (sle_data hashIndex) sfLastLedgerSequence;
      let diff := Z.shiftr (u32 (lastSeq - s)) 8 in
      vec ← getFieldV256 (sle_data hashIndex) sfHashes;
      let size := Z.of_nat (length vec) in
      if size >? diff then Ok (vec !! Z.to_nat (size - diff - 1)) else Ok None
  | None => Ok None
  end = Ok (if first <=? s then hs !! Z.to_nat (s - first) else None).
Proof.
  intros Hc Hs Hmod. pose proof (co_blocks _ _ _ Hc) as Hlt. pose proof (co_records _ _ _ Hc) as Hr.
  destruct (records_hashes _ _ _ Hr) as (_ & _ & Hrec). set (n := info_seq (info_ l)) in *.
  pose proof (in_blocks_div s ltac:(lia)) as Hin. destruct skip_keys as [_ Hk]. destruct (Hk _ Hin) as [(Hk1 & _) _].
  unfold skip_of, getLedgerHashIndex_of. rewrite shiftr_16, (chain_read hs l m) by auto.
  destruct (proj2 Hr _ Hin) as [[-> Hno]|(hashes & last & -> & Hok)].
  - destruct (first <=? s) eqn:Ef; zb; [|done]. specialize (Hno s Hmod eq_refl Ef). lia.
  - destruct (skip_entry_get (block_key (s / 65536)) hashes last) as [-> ->]. rewrite !ok_bind. cbv zeta.
    pose proof (bo_last _ _ _ _ _ Hok) as (Hl1 & Hl2 & Hl3).
    assert (s ≤ last) as Hle by (apply (bo_max _ _ _ _ _ Hok); lia).
    rewrite wrapu_id, Z.shiftr_div_pow2 by (wrap_solve || lia). change (2 ^ 8) with 256.
    assert (last - 256 * ((last - s) / 256) = s) as Es by elia.
    destruct (first <=? s) eqn:Ef; zb.
    + pose proof (bo_all _ _ _ _ _ Hok s Hmod eq_refl ltac:(lia)) as Hd.
      destruct (bo_hash _ _ _ _ _ Hok ((last - s) / 256)) as (_ & _ & Hh); [elia|]. rewrite Es in Hh.
      rewrite Z.gtb_ltb, (proj2 (Z.ltb_lt _ _) Hd). by rewrite Hh.
    + destruct (_ >? _) eqn:Eg; [|done]. rewrite Z.gtb_ltb in Eg. zb.
      destruct (bo_hash _ _ _ _ _ Hok ((last - s) / 256)) as (Hf & _); [elia|]. lia.
Qed.

Lemma hashOfSeq_spec hs l m s :
  chain_ok hs l m → 0 ≤ s → hs ≠ [] ∨ first ≤ s →
  hashOfSeq sha512Half (as_view l) s = Ok (ancestor hs l s).
Proof.
  intros Hc Hs Hor. pose proof (co_seq _ _ _ Hc) as Hn. pose proof (co_blocks _ _ _ Hc) as Hlt.
  unfold hashOfSeq, ancestor. cbn [rv_info as_view]. rewrite <- Hn. set (n := info_seq (info_ l)) in *.
  rewrite Z.gtb_ltb. destruct (n <? s) eqn:E1; zb; [done|]. destruct (s =? n) eqn:E2; zb; [done|].
  rewrite (wrapu_id 32) by wrap_solve. destruct (s =? n - 1) eqn:E3; zb.
  - assert (first ≤ s) as Hf by (destruct Hor as [Hne|?]; [destruct hs; cbn in *; [done|lia]|done]).
    rewrite (proj2 (Z.leb_le first s) Hf), (proj2 (Z.leb_le (n - s) 256)) by lia. cbn [andb orb].
    assert (hs ≠ []) as Hne by (intros ->; cbn in *; lia). pose proof (co_parent _ _ _ Hc Hne) as Hp.
    rewrite last_lookup in Hp. rewrite <- Hp. do 2 f_equal. lia.
  - cbv zeta. rewrite (lookup_near hs l m) by (done || lia). rewrite ok_bind. fold n.
    destruct (first <=? s) eqn:Ef; cbn [andb]; zb.
    + destruct (n - s <=? 256) eqn:Ed; cbn [orb]; zb.
      * destruct (lookup_lt_is_Some_2 hs (Z.to_nat (s - first))) as [h ->]; [lia|done].
      * rewrite land_255. destruct (s mod 256 =? 0) eqn:Em; cbn [negb]; zb; [|done].
        rewrite (lookup_far hs l m) by (done || lia). by rewrite (proj2 (Z.leb_le first s) Ef).
    + rewrite land_255. destruct (s mod 256 =? 0) eqn:Em; cbn [negb]; zb; [|done].
      rewrite (lookup_far hs l m) by (done || lia). by rewrite (proj2 (Z.leb_gt first s) Ef).
Qed.

(** ** The next ledger *)

(** What the transactions leave in the view over the new ledger: changes that fit it, none to
    the records, and new transactions *)
Record step_ok p m (transactions : OpenView.t D (list Z) → OpenView.t D (list Z)) (closeTime : Z)
    (v : OpenView.t D (list Z)) : Prop := {
  st_view : transactions (OpenView.make_closed (as_view (next p closeTime))) = v;
  st_base : OpenView.base_ v = as_view (next p closeTime);
  st_fits : RawStateTable.fits (OpenView.items_ v) m;
  st_admissible (k : Z) a e :
    RawStateTable.items_ (OpenView.items_ v) !! k = Some (a, e) → admissible universe e;
  st_records (k : Z) : is_Some (RawStateTable.items_ (OpenView.items_ v) !! k) →
    k ≠ near_key ∧ ∀ b, in_blocks b → k ≠ block_key b;
  st_txs (k : Z) x : OpenView.txs_ v !! k = Some x → is_uint256 k ∧ is_Some (tx_entry x);
  st_blocks : info_seq (info_ p) + 1 < 65536 * Z.of_nat blocks;
  st_universe : skip_universe (OpenView.entries m v) (info_seq (info_ p)) (info_hash (info_ p)) }.

Lemma records_ext n hs m m' :
  m' !! near_key = m !! near_key → (∀ b, in_blocks b → m' !! block_key b = m !! block_key b) →
  records_ok n hs m → records_ok n hs m'.
Proof. intros E1 E2 [Hn Hb]. split; [congruence|]. intros b Hin. rewrite E2 by done. by apply Hb. Qed.

Lemma untouched p m transactions ct v k :
  step_ok p m transactions ct v → k = near_key ∨ (∃ b, in_blocks b ∧ k = block_key b) → OpenView.entries m v !! k = m !! k.
Proof.
  intros Hs Hk. unfold OpenView.entries. rewrite RawStateTable.lookup_overlay.
  destruct (RawStateTable.items_ (OpenView.items_ v) !! k) as [it|] eqn:E; [|by destruct (m !! k)].
  destruct (st_records _ _ _ _ _ Hs k) as [H1 H2]; [by eexists|]. destruct Hk as [->|(b & Hb & ->)]; [done|].
  by destruct (H2 b Hb).
Qed.

Lemma chain_close hs b m n st (close : Ledger.t → Ledger.t) :
  (∀ l, stateMap_ (close l) = stateMap_ l ∧ info_seq (info_ (close l)) = info_seq (info_ l) ∧
    info_parentHash (info_ (close l)) = info_parentHash (info_ l) ∧
    info_drops (info_ (close l)) = info_drops (info_ l) ∧ is_uint256 (info_hash (info_ (close l)))) →
  n = first + Z.of_nat (length hs) → info_seq (info_ b) = n + 1 → n + 1 < 65536 * Z.of_nat blocks →
  is_signed 64 (info_drops (info_ b)) → records_ok n hs m →
  let h := info_parentHash (info_ b) in
  holds (b<|stateMap_ := st|>) (skip_map m n h) → chain_ok (hs ++ [h]) (close (b<|stateMap_ := st|>)) (skip_map m n h).
Proof.
  intros Hc Hn Hseq Hlt Hd Hr h Hh. destruct (Hc (b<|stateMap_ := st|>)) as (E1 & E2 & E3 & E4 & E5).
  assert (info_ (b<|stateMap_ := st|>) = info_ b) as Ei by done. rewrite Ei in *. split.
  - destruct Hh as [H1 H2 H3 H4]. split; [|done..]. by rewrite E1.
  - rewrite E2, Hseq, length_app. cbn [length]. lia.
  - lia.
  - intros _. by rewrite last_snoc, E3.
  - done.
  - by rewrite E4.
  - rewrite E2, Hseq. by apply skip_map_ok; [|lia|].
Qed.

Lemma setImmutable_close l :
  stateMap_ (setImmutable sha512Half l) = stateMap_ l ∧ info_seq (info_ (setImmutable sha512Half l)) = info_seq (info_ l) ∧
  info_parentHash (info_ (setImmutable sha512Half l)) = info_parentHash (info_ l) ∧
  info_drops (info_ (setImmutable sha512Half l)) = info_drops (info_ l) ∧
  is_uint256 (info_hash (info_ (setImmutable sha512Half l))).
Proof. split_and!; [done..|]. rewrite setImmutable_hash. apply keys_differ. Qed.

Lemma setAccepted_close ct cr cc l :
  stateMap_ (setAccepted sha512Half ct cr cc l) = stateMap_ l ∧
  info_seq (info_ (setAccepted sha512Half ct cr cc l)) = info_seq (info_ l) ∧
  info_parentHash (info_ (setAccepted sha512Half ct cr cc l)) = info_parentHash (info_ l) ∧
  info_drops (info_ (setAccepted sha512Half ct cr cc l)) = info_drops (info_ l) ∧
  is_uint256 (info_hash (info_ (setAccepted sha512Half ct cr cc l))).
Proof. split_and!; [done..|]. unfold setAccepted. rewrite setImmutable_hash. apply keys_differ. Qed.

Lemma next_ok hs p m ct :
  chain_ok hs p m → info_seq (info_ p) + 1 < 65536 * Z.of_nat blocks →
  holds (next p ct) m ∧ info_seq (info_ (next p ct)) = info_seq (info_ p) + 1 ∧
  info_parentHash (info_ (next p ct)) = info_hash (info_ p) ∧ is_signed 64 (info_drops (info_ (next p ct))).
Proof.
  intros Hc Hlt. pose proof (co_seq _ _ _ Hc). split_and!; [by destruct (co_holds _ _ _ Hc)| |done|apply (co_drops _ _ _ Hc)].
  cbn [next info_ info_seq]. rewrite wrapu_id by wrap_solve. done.
Qed.

Lemma build_spec hs p m transactions ct cc cr v :
  chain_ok hs p m → step_ok p m transactions ct v →
  ∃ l, buildLCL sha512Half transactions ct cc cr p = Ok l ∧
    chain_ok (hs ++ [info_hash (info_ p)]) l (skip_map (OpenView.entries m v) (info_seq (info_ p)) (info_hash (info_ p))).
Proof.
  intros Hc Hs. pose proof (co_seq _ _ _ Hc) as Hn. destruct (next_ok hs p m ct Hc (st_blocks _ _ _ _ _ Hs)) as (Hh & Hseq & Hpar & Hd).
  unfold buildLCL. rewrite (st_view _ _ _ _ _ Hs). cbv zeta.
  destruct (apply_view_ok sha512Half universe universe_valid no_collision (next p ct) m ∅ v)
    as (l1 & -> & Hh1 & _ & Ed & (_ & Ei) & _).
  { done. } { apply Rep_empty. } { done. } { apply (st_base _ _ _ _ _ Hs). } { apply (st_fits _ _ _ _ _ Hs). }
  { apply (st_admissible _ _ _ _ _ Hs). } { intros k x Hx. by destruct (st_txs _ _ _ _ _ Hs k x Hx). }
  rewrite ok_bind. pose proof (f_equal info_seq Ei) as Es1. pose proof (f_equal info_parentHash Ei) as Ep1.
  cbn [with_drops info_seq info_parentHash] in Es1, Ep1.
  assert (records_ok (info_seq (info_ p)) hs (OpenView.entries m v)) as Hr.
  { eapply records_ext; [| |apply (co_records _ _ _ Hc)].
    - by eapply untouched; [exact Hs|left].
    - intros b Hb. eapply untouched; [exact Hs|right]. by exists b. }
  rewrite <- Hpar, <- Ep1. pose proof (st_blocks _ _ _ _ _ Hs) as Hlt. pose proof (st_universe _ _ _ _ _ Hs) as Hu.
  rewrite <- Hpar, <- Ep1 in Hu.
  destruct (updateSkipList_spec l1 hs (OpenView.entries m v) (info_seq (info_ p))) as (st & -> & Hh2); [done|done|lia|lia|done|done|].
  rewrite ok_bind. eexists. split; [done|].
  apply (chain_close hs l1 _ _ st (setAccepted sha512Half ct cr cc)); [apply setAccepted_close|done|lia|lia| |done|done].
  rewrite Ed. by apply wraps_range.
Qed.

Lemma second_spec hs p m ct :
  chain_ok hs p m → info_seq (info_ p) + 1 < 65536 * Z.of_nat blocks →
  skip_universe m (info_seq (info_ p)) (info_hash (info_ p)) →
  ∃ l, second_ledger sha512Half ct p = Ok l ∧
    chain_ok (hs ++ [info_hash (info_ p)]) l (skip_map m (info_seq (info_ p)) (info_hash (info_ p))).
Proof.
  intros Hc Hlt Hu. pose proof (co_seq _ _ _ Hc) as Hn. destruct (next_ok hs p m ct Hc Hlt) as (Hh & Hseq & Hpar & Hd).
  unfold second_ledger. rewrite <- Hpar in *.
  destruct (updateSkipList_spec (next p ct) hs m (info_seq (info_ p))) as (st & -> & Hh2);
    [done|done|lia|lia|apply (co_records _ _ _ Hc)|done|].
  rewrite ok_bind. eexists. split; [done|].
  apply (chain_close hs (next p ct) _ _ st (setImmutable sha512Half));
    [apply setImmutable_close|done|lia|lia|done|apply (co_records _ _ _ Hc)|done].
Qed.

(** ** Chains *)

(** A ledger that starts a chain: it has no records. *)
Record first_ok l m : Prop := {
  fi_holds : holds l m;
  fi_seq : info_seq (info_ l) = first;
  fi_blocks : first < 65536 * Z.of_nat blocks;
  fi_hash : is_uint256 (info_hash (info_ l));
  fi_drops : is_signed 64 (info_drops (info_ l));
  fi_near : m !! near_key = None;
  fi_block b : in_blocks b → m !! block_key b = None }.

(** Chains of ledgers, each built on the one before, with the hashes of the earlier ones and
    the entries of the last *)
Inductive Chain : list Z → Ledger.t → gmap Z (SLE D) → Prop :=
  | Chain_first l m : first_ok l m → Chain [] l m
  | Chain_second hs p m ct l :
      Chain hs p m → info_seq (info_ p) + 1 < 65536 * Z.of_nat blocks →
      skip_universe m (info_seq (info_ p)) (info_hash (info_ p)) → second_ledger sha512Half ct p = Ok l →
      Chain (hs ++ [info_hash (info_ p)]) l (skip_map m (info_seq (info_ p)) (info_hash (info_ p)))
  | Chain_next hs p m transactions ct cc cr v l :
      Chain hs p m → step_ok p m transactions ct v → buildLCL sha512Half transactions ct cc cr p = Ok l →
      Chain (hs ++ [info_hash (info_ p)]) l
        (skip_map (OpenView.entries m v) (info_seq (info_ p)) (info_hash (info_ p))).

Lemma chain_inv hs l m : Chain hs l m → chain_ok hs l m.
Proof.
  induction 1 as [l m [Hh Hs Hb Hha Hd Hn Hbl]|hs p m ct l _ IH Hlt Hu E|hs p m tr ct cc cr v l _ IH Hs E].
  - split; [done|cbn; lia|lia|done..|]. split; [done|]. intros b Hin. left. split; [by apply Hbl|]. lia.
  - destruct (second_spec hs p m ct IH Hlt Hu) as (l' & E' & Hc). congruence.
  - destruct (build_spec hs p m tr ct cc cr v IH Hs) as (l' & E' & Hc). congruence.
Qed.

(** C7: The hashes of earlier ledgers.  On any chain of ledgers built from a first one
    without records, whatever changes the transactions make to other entries, looking up a
    number in the last ledger gives the hash of the ledger with that number in the chain
    for the last 256 and for every 256th of all earlier ones, and nothing for others; and
    the next ledger is always built. *)
Theorem skip_list_correct hs l m :
  Chain hs l m →
  (∀ s, 0 ≤ s → hs ≠ [] ∨ first ≤ s → hashOfSeq sha512Half (as_view l) s = Ok (ancestor hs l s)) ∧
  ∀ transactions ct cc cr v, step_ok l m transactions ct v →
    ∃ l', buildLCL sha512Half transactions ct cc cr l = Ok l' ∧
      Chain (hs ++ [info_hash (info_ l)]) l' (skip_map (OpenView.entries m v) (info_seq (info_ l)) (info_hash (info_ l))).
Proof.
  intros Hc. pose proof (chain_inv _ _ _ Hc) as Hok. split.
  - intros s Hs Hor. by eapply hashOfSeq_spec.
  - intros tr ct cc cr v Hs. destruct (build_spec hs l m tr ct cc cr v Hok Hs) as (l' & E & _).
    exists l'. split; [exact E|]. by eapply Chain_next.
Qed.

End chain.

End SkipList.
