(* ===== verification/LedgerSim.v ===== *)
(** * LedgerSim: a concrete ledger

    A ledger with accounts and an offer, over the codec of ledger entries and a simple
    hash, at which the hypotheses of their theorems hold. *)

From stdpp Require Import sorting.
From S2P Require Import Prelude Serializer ReadView RawStateTable ApplyStateTable ApplyView OpenView SField Issue STAmount SOTemplate STObject STLedgerEntry STObjectSpec Directory DirectorySpec SHAMap SHAMapInv SHAMapTreeNode SHAMapSpec SHAMapIter LedgerHeader Ledger LedgerSpec SkipList.

Module LedgerSim.
Import STObject STObjectSpec SHAMap SHAMapInv SHAMapSpec Ledger LedgerSpec.

Abbreviation D := STObject.STObject.

Definition sha : list Z → Z := SHAMapTreeNode.demo_sha.

(** An account with some settings, and one with a verification *)
Definition account (owner sequence balance : Z) (kyc : STObject.value) : D :=
  mkFields
    [(sfLedgerIndex, NotPresent); (sfLedgerEntryType, UInt16 ltACCOUNT_ROOT); (sfFlags, UInt32 0);
     (sfAccount, Account owner false); (sfSequence, UInt32 sequence);
     (sfBalance, Amount (STAmount.make_csc balance false)); (sfOwnerCount, UInt32 0);
     (sfPreviousTxnID, Hash256 1234); (sfPreviousTxnLgrSeq, UInt32 2); (sfKYC, kyc);
     (sfAccountTxnID, NotPresent); (sfRegularKey, NotPresent); (sfEmailHash, NotPresent);
     (sfWalletLocator, NotPresent); (sfWalletSize, NotPresent); (sfMessageKey, NotPresent);
     (sfTransferRate, NotPresent); (sfDomain, Blob [99; 115; 99]); (sfTickSize, NotPresent)]
    (Some format_AccountRoot).

Definition verified : STObject.value :=
  Object (mkFields [(sfKYCTime, UInt32 77); (sfKYCVerifications, Vector128 [5; 6])] (Some format_KYC)).

Definition offer : D :=
  mkFields
    [(sfLedgerIndex, NotPresent); (sfLedgerEntryType, UInt16 ltOFFER); (sfFlags, UInt32 0);
     (sfAccount, Account 9 false); (sfSequence, UInt32 4);
     (sfTakerPays, Amount (STAmount.mk (Issue.mk 5 7) 1000000000000000 (-15) false false));
     (sfTakerGets, Amount (STAmount.make_csc 100 false)); (sfBookDirectory, Hash256 55);
     (sfBookNode, UInt64 0); (sfOwnerNode, UInt64 0); (sfPreviousTxnID, Hash256 1235);
     (sfPreviousTxnLgrSeq, UInt32 2); (sfExpiration, NotPresent)]
    (Some format_Offer).

(** Two accounts, a changed account and an offer *)
Definition a1 : SLE D := mkSLE k1 ltACCOUNT_ROOT (account 8 1 1000000 verified).
Definition a2 : SLE D := mkSLE k2 ltACCOUNT_ROOT (account 9 3 500000000 NotPresent).
Definition a2' : SLE D := mkSLE k2 ltACCOUNT_ROOT (account 9 4 499000000 NotPresent).
Definition o3 : SLE D := mkSLE k3 ltOFFER offer.

Definition demo_entries : list (SLE D) := [a1; a2; a2'; o3].
Definition demo_universe (e : SLE D) : Prop := e ∈ demo_entries.

Lemma demo_entries_valid : Forall (valid_entry 3) demo_entries.
Proof.
  unfold demo_entries, a1, a2, a2', o3, account, offer, verified.
  do 4 (apply Forall_cons_2; [first [solve_entry format_AccountRoot|solve_entry format_Offer]|]). constructor.
Qed.

Lemma demo_universe_valid e : demo_universe e → sle_valid e.
Proof. intros He. exists 3%nat. pose proof demo_entries_valid as H. rewrite Forall_forall in H. by apply H. Qed.

Definition entry_hash (e : SLE D) : Z := leaf_hash sha (mkItem (sle_key e) (sle_bytes e)) tnACCOUNT_STATE.

(** Entries with different leaves *)
Lemma distinct_no_collision (entries : list (SLE D)) e e' :
  NoDup (entry_hash <$> entries) → e ∈ entries → e' ∈ entries → sle_key e = sle_key e' →
  leaf_hash sha (mkItem (sle_key e) (sle_bytes e)) tnACCOUNT_STATE =
  leaf_hash sha (mkItem (sle_key e') (sle_bytes e')) tnACCOUNT_STATE → e = e'.
Proof.
  intros Hd [i Hi]%list_elem_of_lookup [j Hj]%list_elem_of_lookup _ Eh.
  assert (i = j) as ->; [|congruence].
  eapply (NoDup_lookup _ _ _ (entry_hash e) Hd); rewrite list_lookup_fmap, ?Hi, ?Hj; [done|].
  cbn. f_equal. exact (eq_sym Eh).
Qed.

Lemma demo_no_collision e e' :
  demo_universe e → demo_universe e' → sle_key e = sle_key e' →
  leaf_hash sha (mkItem (sle_key e) (sle_bytes e)) tnACCOUNT_STATE =
  leaf_hash sha (mkItem (sle_key e') (sle_bytes e')) tnACCOUNT_STATE → e = e'.
Proof. apply distinct_no_collision. by apply (bool_decide_unpack _ (dec := _)); vm_compute. Qed.

Abbreviation holds := (holds demo_universe).
Abbreviation admissible := (admissible demo_universe).

Lemma demo_admissible e : demo_universe e → admissible e.
Proof.
  intros He. assert (Forall (λ e, is_uint256 (sle_key e) ∧ sle_key e ≠ 0) demo_entries) as H
    by (repeat constructor; by vm_compute).
  rewrite Forall_forall in H. destruct (H e He). by split.
Qed.

(** ** A ledger with the two accounts *)

Definition genesis_info : LedgerInfo := mkLedgerInfo 3 100 9 0 0 8 40000000000000000 false false 0 30 130.
Definition l_empty : Ledger.t := Ledger.mk false empty_root empty_root genesis_info.

Definition ok_or {A} (r : result A) (a : A) : A := match r with Ok x => x | Throw _ => a end.
Definition l_demo : Ledger.t := ok_or (rawInsert a2 (ok_or (rawInsert a1 l_empty) l_empty)) l_empty.
Definition m_demo : gmap Z (SLE D) := <[sle_key a2 := a2]> (<[sle_key a1 := a1]> ∅).

Lemma l_empty_holds : holds l_empty ∅.
Proof.
  split; [rewrite fmap_empty; apply Rep_empty|apply map_Forall_empty|done|apply map_Forall_empty].
Qed.

Lemma l_demo_holds : holds l_demo m_demo.
Proof.
  destruct (rawInsert_spec demo_universe demo_universe_valid l_empty ∅ a1 l_empty_holds) as (n1 & E1 & H1);
    [apply demo_admissible; by left|done|].
  destruct (rawInsert_spec demo_universe demo_universe_valid _ _ a2 H1) as (n2 & E2 & H2);
    [apply demo_admissible; right; by left|by vm_compute|].
  unfold l_demo. rewrite E1. cbn [ok_or]. by rewrite E2.
Qed.

(** ** A view over it *)

Definition demo_items : RawStateTable.t D :=
  RawStateTable.mk (<[k1 := (RawStateTable.erase_, a1)]> (<[k2 := (RawStateTable.replace_, a2')]>
    (<[k3 := (RawStateTable.insert_, o3)]> ∅))) 10.

Lemma demo_items_fit : RawStateTable.fits demo_items m_demo.
Proof.
  apply map_Forall_insert_2; [split; [split; by vm_compute|by eexists]|].
  apply map_Forall_insert_2; [split; [split; by vm_compute|by eexists]|].
  apply map_Forall_insert_2; [split; [split; by vm_compute|by vm_compute]|]. apply map_Forall_empty.
Qed.

Definition demo_view : OpenView.t D (list Z) :=
  OpenView.mk {[ 77 := ([1; 2], Some [3]) ]} genesis_info (as_view l_demo) demo_items true.

Lemma raw_table_refines_witness :
  (∃ s', RawStateTable.erase a2 demo_items = Ok s' ∧ RawStateTable.fits s' m_demo ∧
     RawStateTable.overlay s' m_demo = delete (sle_key a2) (RawStateTable.overlay demo_items m_demo)) ∧
  (∃ s', RawStateTable.replace a2 demo_items = Ok s' ∧ RawStateTable.fits s' m_demo ∧
     RawStateTable.overlay s' m_demo = <[sle_key a2 := a2]> (RawStateTable.overlay demo_items m_demo)) ∧
  (∃ s', RawStateTable.insert a1 demo_items = Ok s' ∧ RawStateTable.fits s' m_demo ∧
     RawStateTable.overlay s' m_demo = <[sle_key a1 := a1]> (RawStateTable.overlay demo_items m_demo)).
Proof.
  destruct (RawStateTable.raw_table_refines a2 demo_items m_demo) as [Hp _]; [apply demo_items_fit|by vm_compute|].
  destruct Hp as [He Hr]; [eexists; by vm_compute|].
  destruct (RawStateTable.raw_table_refines a1 demo_items m_demo) as (_ & Hi & _);
    [apply demo_items_fit|by vm_compute|].
  split; [exact He|]. split; [exact Hr|]. apply Hi. by vm_compute.
Defined.

Lemma open_view_represents_witness :
  Represents (OpenView.as_view demo_view) (RawStateTable.overlay demo_items m_demo).
Proof.
  apply (OpenView.open_view_represents demo_view m_demo); [|apply demo_items_fit].
  exact (ledger_as_view demo_universe demo_universe_valid l_demo m_demo l_demo_holds).
Defined.

Lemma ledger_represents_witness : Represents (as_view l_demo) m_demo.
Proof. exact (ledger_represents demo_universe demo_universe_valid l_demo m_demo l_demo_holds). Defined.

Lemma demo_items_admissible (k : Z) a e :
  RawStateTable.items_ demo_items !! k = Some (a, e) → admissible e.
Proof.
  intros H. apply demo_admissible. unfold demo_items in H. cbn [RawStateTable.items_] in H.
  rewrite !lookup_insert in H. repeat case_decide; try done; injection H as <- <-; repeat first [left|right].
Qed.

Lemma ledger_apply_view_witness :
  ∃ l', @OpenView.apply _ _ _ (ledger_txs sha) demo_view l_demo = Ok l' ∧
    holds l' (OpenView.entries m_demo demo_view) ∧
    Rep tnTRANSACTION_MD (txMap_ l') (omap tx_entry (OpenView.txs_ demo_view) ∪ ∅) ∧
    info_drops (info_ l') =
      s64 (info_drops (info_ l_demo) - RawStateTable.dropsDestroyed_ (OpenView.items_ demo_view)) ∧
    (mImmutable l' = mImmutable l_demo ∧ with_drops (info_ l') 0 = with_drops (info_ l_demo) 0) ∧
    ∀ k, is_uint256 (k_key k) → read l' k = Ok (OpenView.read demo_view k).
Proof.
  apply (ledger_apply_view sha demo_universe demo_universe_valid demo_no_collision l_demo m_demo ∅ demo_view l_demo_holds).
  - apply Rep_empty.
  - by vm_compute.
  - done.
  - apply demo_items_fit.
  - apply demo_items_admissible.
  - intros k x Hx. cbn [demo_view OpenView.txs_] in Hx. apply lookup_singleton_Some in Hx as [<- <-]. split; [by vm_compute|].
    split; [done|]. by eexists.
Defined.

(** ** A view over the view *)

Definition child_view : OpenView.t D (list Z) :=
  OpenView.mk {[ 78 := ([4], Some [5]) ]} genesis_info (OpenView.as_view demo_view)
    (RawStateTable.mk {[ k2 := (RawStateTable.replace_, a2) ]} 5) true.

Lemma open_view_commit_witness :
  ∃ p', OpenView.apply child_view demo_view = Ok p' ∧ OpenView.base_ p' = OpenView.base_ demo_view ∧
    Represents (OpenView.as_view p') (OpenView.entries (OpenView.entries m_demo demo_view) child_view) ∧
    (∀ k, is_uint256 (k_key k) → OpenView.read p' k = OpenView.read child_view k) ∧
    OpenView.txs_ p' = OpenView.txs_ child_view ∪ OpenView.txs_ demo_view ∧
    RawStateTable.dropsDestroyed_ (OpenView.items_ p') = s64 (10 + 5).
Proof.
  apply (OpenView.open_view_commit child_view demo_view m_demo).
  - done.
  - exact (ledger_as_view demo_universe demo_universe_valid l_demo m_demo l_demo_holds).
  - apply demo_items_fit.
  - apply map_Forall_singleton. split; [split; by vm_compute|by eexists].
  - by apply map_disjoint_singleton_l_2.
Defined.

(** ** A transaction over the view

    It has put the erased account back, changed the other one and looked at the offer. *)

Definition tx_heap : list (SLE D) := [a1; a2; o3].
Definition tx_table : ApplyStateTable.t :=
  ApplyStateTable.mk (<[k1 := (ApplyStateTable.insert_, 0%nat)]> (<[k2 := (ApplyStateTable.modify_, 1%nat)]>
    (<[k3 := (ApplyStateTable.cache_, 2%nat)]> ∅))) 7.
Definition tx_map : gmap Z (SLE D) := <[k1 := a1]> (<[k2 := a2]> (<[k3 := o3]> ∅)).

Lemma tx_shows : ApplyStateTable.shows tx_heap tx_table (OpenView.entries m_demo demo_view) tx_map.
Proof.
  assert (ApplyStateTable.good tx_heap tx_table (OpenView.entries m_demo demo_view)) as Hg.
  { apply map_Forall_insert_2; [exists a1; split_and!; by vm_compute|].
    apply map_Forall_insert_2; [exists a2; split_and!; [by vm_compute..|eexists; by vm_compute]|].
    apply map_Forall_insert_2; [exists o3; split_and!; [by vm_compute..|eexists; by vm_compute]|]. apply map_Forall_empty. }
  split; [exact Hg|]. apply map_eq. intros k. rewrite (ApplyStateTable.table_lookup _ _ _ _ Hg).
  unfold tx_table, tx_map. cbn [ApplyStateTable.items_]. rewrite !lookup_insert.
  case_decide; [done|]. case_decide; [done|]. case_decide; [done|]. rewrite !lookup_empty.
  unfold OpenView.entries. rewrite RawStateTable.lookup_overlay. cbn [demo_view OpenView.items_ demo_items RawStateTable.items_].
  rewrite !lookup_insert_ne by done. rewrite lookup_empty. unfold m_demo. by rewrite !lookup_insert_ne by done.
Qed.

Lemma tx_clean : ApplyStateTable.clean tx_heap tx_table (OpenView.entries m_demo demo_view).
Proof.
  intros k p H. unfold tx_table in H. cbn [ApplyStateTable.items_] in H. rewrite !lookup_insert in H.
  repeat case_decide; try done; injection H as <-; subst k; by vm_compute.
Qed.

Lemma apply_table_refines_witness :
  ∃ v', ApplyStateTable.apply tx_heap tx_table demo_view = Ok v' ∧ OpenView.entries m_demo v' = tx_map ∧
    RawStateTable.dropsDestroyed_ (OpenView.items_ v') = s64 (10 + 7).
Proof.
  destruct (ApplyStateTable.apply_table_refines
    (RL := OpenView.open_view_laws m_demo (as_view l_demo) (OpenView.txs_ demo_view))
    tx_heap tx_table (OpenView.as_view demo_view) tx_map demo_view) as (_ & _ & _ & _ & _ & _ & H).
  - split; [apply demo_items_fit|done].
  - apply (OpenView.open_represents demo_view m_demo); [|apply demo_items_fit].
    exact (ledger_as_view demo_universe demo_universe_valid l_demo m_demo l_demo_holds).
  - apply tx_shows.
  - destruct (H tx_clean) as (v' & E & _ & He & Hd); [|exists v'; by split_and!].
    intros k a p e Hk Ha He. destruct (ApplyStateTable.good_item _ _ _ _ _ _ (proj1 tx_shows) Hk) as (x & Hx & Hkx & Hu & _).
    rewrite Hx in He. injection He as <-. by rewrite Hkx.
Defined.

(** ** A directory in the transaction's view

    The keys of its pages 0 to 20 are those the hash gives. *)

Definition dir_key (n : Z) : Z := Directory.getDirNodeIndex sha 7000 n.

Lemma dir_numbers n : DirectorySpec.number 20 n → n ∈ seqZ 0 21.
Proof. intros [H1 H2]. apply elem_of_seqZ. lia. Qed.

Lemma dir_keys_free : Forall (λ n, is_uint256 (dir_key n) ∧ tx_map !! dir_key n = None) (seqZ 0 21).
Proof. by apply (bool_decide_unpack _ (dec := _)); vm_compute. Qed.

Lemma dir_keys_inj n n' : DirectorySpec.number 20 n → DirectorySpec.number 20 n' → dir_key n = dir_key n' → n = n'.
Proof.
  intros [i Hi]%dir_numbers%list_elem_of_lookup [j Hj]%dir_numbers%list_elem_of_lookup E.
  assert (NoDup (dir_key <$> seqZ 0 21)) as Hd by by apply (bool_decide_unpack _ (dec := _)); vm_compute.
  assert (i = j) as ->; [|congruence].
  eapply (NoDup_lookup _ _ _ (dir_key n) Hd); rewrite list_lookup_fmap, ?Hi, ?Hj; [done|]. cbn. by rewrite E.
Qed.

Lemma directory_correct_witness :
  let view := OpenView.as_view demo_view in
  let add x := Directory.dirAdd sha view (Directory.page sha 7000 0) x (Directory.describeOwnerDir 9) in
  ∃ st1 st2 st3 st4,
    add 5 (tx_heap, tx_table) = Ok (Directory.tesSUCCESS, true, 0, st1) ∧
    add 6 st1 = Ok (Directory.tesSUCCESS, false, 0, st2) ∧
    Directory.dirDelete sha view false 0 7000 5 true false st2 = Ok (Directory.tesSUCCESS, st3) ∧
    DirectorySpec.dir_list sha 1 2 view 7000 st3 = Ok ([6], st4).
Proof.
  intros view add. assert (Represents view (OpenView.entries m_demo demo_view)) as Hrep.
  { apply (OpenView.open_represents demo_view m_demo); [|apply demo_items_fit].
    exact (ledger_as_view demo_universe demo_universe_valid l_demo m_demo l_demo_holds). }
  assert (∀ n, DirectorySpec.number 20 n → is_uint256 (dir_key n) ∧ tx_map !! dir_key n = None) as Hk.
  { intros n Hn%dir_numbers. pose proof dir_keys_free as H. rewrite Forall_forall in H. by apply H. }
  pose proof (DirectorySpec.directory_correct sha 7000 20 ltac:(by vm_compute) ltac:(by vm_compute)
    (λ n Hn, proj1 (Hk n Hn)) dir_keys_inj (OpenView.entries m_demo demo_view) view Hrep) as H.
  assert (DirectorySpec.number 20 0) as H0 by (split; lia).
  destruct (H tx_map [] (tx_heap, tx_table) 5) as (H1 & Ho & _);
    [|exists ∅; split; [intros n Hn; exact (proj2 (Hk n Hn))|by apply DirectorySpec.linked_nil]|by vm_compute|done|].
  { split; [apply tx_shows|intros k q _; apply tx_clean|by intros p key b ?%not_elem_of_nil]. }
  destruct (H1 (Directory.describeOwnerDir 9)) as (r1 & st1 & mo1 & E1 & S1 & _ & -> & D1); [apply Ho; by vm_compute|done|].
  destruct (H mo1 [(0, [5])] st1 6 S1 D1) as (H2 & _); [by vm_compute|done|].
  destruct (H2 (Directory.describeOwnerDir 9)) as (r2 & st2 & mo2 & E2 & S2 & _ & -> & D2);
    [apply Ho; by vm_compute|intros n idx [= <- <-]; left; lia|].
  destruct (H mo2 [(0, [5; 6])] st2 5 S2 D2) as (_ & _ & _ & _ & H3 & _); [by vm_compute|done|].
  destruct (H3 false true false 0) as (r3 & st3 & mo3 & E3 & S3 & _ & -> & D3 & _); [done|done|].
  destruct (H mo3 [(0, [6])] st3 5 S3 D3) as (_ & _ & _ & _ & _ & _ & H4 & _); [by vm_compute|done|].
  destruct (H4 1%nat 2%nat) as [(r4 & st4 & mo4 & E4 & _ & _ & -> & _) _]; [done|cbn; lia|cbn; lia|].
  by exists st1, st2, st3, st4.
Defined.

(** ** Closing the ledger *)

Definition l_demo2 : Ledger.t := ok_or (rawInsert a1 (ok_or (rawInsert a2 l_empty) l_empty)) l_empty.

Lemma l_demo2_holds : holds l_demo2 m_demo.
Proof.
  destruct (rawInsert_spec demo_universe demo_universe_valid l_empty ∅ a2 l_empty_holds) as (n1 & E1 & H1);
    [apply demo_admissible; right; by left|done|].
  destruct (rawInsert_spec demo_universe demo_universe_valid _ _ a1 H1) as (n2 & E2 & H2);
    [apply demo_admissible; by left|by vm_compute|].
  unfold l_demo2. rewrite E1. cbn [ok_or]. rewrite E2. cbn [ok_or].
  unfold m_demo. by rewrite insert_insert_ne.
Qed.

Lemma demo_closing l : holds l m_demo → txMap_ l = empty_root → mImmutable l = false →
  LedgerHeader.fits (info_ (setImmutable sha l)) → closing sha demo_universe l m_demo ∅.
Proof. intros Hh Ht Hi Hf. split; [done| |done|done]. rewrite Ht. apply Rep_empty. Qed.

Lemma ledger_hash_binding_witness :
  m_demo = m_demo ∧ (∅ : gmap Z (list Z)) = ∅ ∧
  same_header (info_ (setImmutable sha l_demo)) (info_ (setImmutable sha l_demo2)).
Proof.
  apply (ledger_hash_binding sha demo_universe demo_universe_valid l_demo m_demo ∅ l_demo2 m_demo ∅).
  - apply demo_closing; [apply l_demo_holds|by vm_compute..|]. split; by vm_compute.
  - apply demo_closing; [apply l_demo2_holds|by vm_compute..|]. split; by vm_compute.
  - apply collision_check_ok. by vm_compute.
  - by vm_compute.
Defined.

(** ** A chain of ledgers *)

(** The record of the first ledger that the second has *)
Definition skip3 : SLE D := SkipList.skip_entry (SkipList.getLedgerHashIndex sha) [9] 3.
Definition chain_entries : list (SLE D) := skip3 :: demo_entries.
Definition chain_universe (e : SLE D) : Prop := e ∈ chain_entries.

Lemma chain_universe_valid e : chain_universe e → sle_valid e.
Proof.
  intros [->|He]%elem_of_cons; [|by apply demo_universe_valid].
  apply SkipList.skip_entry_valid; [cbn; lia|repeat constructor; by vm_compute|by vm_compute].
Qed.

Lemma chain_no_collision e e' :
  chain_universe e → chain_universe e' → sle_key e = sle_key e' →
  leaf_hash sha (mkItem (sle_key e) (sle_bytes e)) tnACCOUNT_STATE =
  leaf_hash sha (mkItem (sle_key e') (sle_bytes e')) tnACCOUNT_STATE → e = e'.
Proof. apply distinct_no_collision. by apply (bool_decide_unpack _ (dec := _)); vm_compute. Qed.

Lemma chain_keys : Collision_free sha (SkipList.skip_inputs 1).
Proof. apply collision_check_ok. by vm_compute. Qed.

Definition demo_transactions (v : OpenView.t D (list Z)) : OpenView.t D (list Z) :=
  OpenView.mk {[ 77 := ([1; 2], Some [3]) ]} (OpenView.info_ v) (OpenView.base_ v) demo_items (OpenView.open_ v).

Definition demo_changed : OpenView.t D (list Z) :=
  demo_transactions (OpenView.make_closed (as_view (next l_demo 160))).

Lemma chain_start : SkipList.first_ok sha chain_universe 1 3 l_demo m_demo.
Proof.
  pose proof l_demo_holds as [H1 H2 H3 H4]. split.
  - split; [exact H1|exact H2|exact H3|]. eapply map_Forall_impl; [exact H4|]. intros k e He. by right.
  - by vm_compute.
  - lia.
  - by vm_compute.
  - by vm_compute.
  - by vm_compute.
  - intros b Hb. assert (b = 0) as -> by (unfold SkipList.in_blocks in Hb; lia). by vm_compute.
Qed.

Lemma demo_items_records (k : Z) :
  is_Some (RawStateTable.items_ demo_items !! k) →
  k ≠ SkipList.getLedgerHashIndex sha ∧
  ∀ b, SkipList.in_blocks 1 b → k ≠ sha (SkipList.skip_input_of b).
Proof.
  intros [it Hit]. assert (k ∈ [k1; k2; k3]) as Hk.
  { unfold demo_items in Hit. cbn [RawStateTable.items_] in Hit. rewrite !lookup_insert in Hit.
    repeat case_decide; try done; subst; set_solver. }
  assert (Forall (λ k, k ≠ SkipList.getLedgerHashIndex sha ∧ k ≠ sha (SkipList.skip_input_of 0)) [k1; k2; k3]) as H.
  { by apply (bool_decide_unpack _ (dec := _)); vm_compute. }
  rewrite Forall_forall in H. destruct (H k Hk) as [H1 H2]. split; [exact H1|].
  intros b Hb. assert (b = 0) as -> by (unfold SkipList.in_blocks in Hb; lia). exact H2.
Qed.

Lemma demo_recorded :
  SkipList.recorded true (OpenView.entries m_demo demo_changed) (SkipList.getLedgerHashIndex sha) 3 9 = skip3.
Proof. by vm_compute. Qed.

Lemma chain_step : SkipList.step_ok sha chain_universe 1 l_demo m_demo demo_transactions 160 demo_changed.
Proof.
  split.
  - reflexivity.
  - reflexivity.
  - apply demo_items_fit.
  - intros k a e He. destruct (demo_items_admissible k a e He) as (H1 & H2 & H3). split; [exact H1|]. split; [exact H2|]. by right.
  - apply demo_items_records.
  - intros k x Hx. cbn [demo_changed demo_transactions OpenView.txs_] in Hx. apply lookup_singleton_Some in Hx as [<- <-].
    split; [by vm_compute|]. by eexists.
  - by vm_compute.
  - split; [|discriminate]. change (info_seq (info_ l_demo)) with 3. change (info_hash (info_ l_demo)) with 9.
    rewrite demo_recorded. left.
Qed.

Lemma demo_hash : info_hash (info_ l_demo) = 9.
Proof. by vm_compute. Qed.

Lemma skip_list_correct_witness :
  ∃ l, SkipList.buildLCL sha demo_transactions 160 true 30 l_demo = Ok l ∧
    SkipList.hashOfSeq sha (as_view l) 4 = Ok (Some (info_hash (info_ l))) ∧
    SkipList.hashOfSeq sha (as_view l) 3 = Ok (Some 9) ∧ SkipList.hashOfSeq sha (as_view l) 2 = Ok None.
Proof.
  destruct (SkipList.skip_list_correct sha chain_universe chain_universe_valid chain_no_collision 1 chain_keys
    ltac:(done) 3 ltac:(done) [] l_demo m_demo) as [_ Hb]; [by apply SkipList.Chain_first, chain_start|].
  destruct (Hb demo_transactions 160 true 30 demo_changed chain_step) as (l & E & Hc). exists l. split; [exact E|].
  destruct (SkipList.skip_list_correct sha chain_universe chain_universe_valid chain_no_collision 1 chain_keys
    ltac:(done) 3 ltac:(done) _ _ _ Hc) as [Hl _].
  rewrite !Hl by (lia || by left). rewrite demo_hash. split; [reflexivity|split; reflexivity].
Defined.

End LedgerSim.
